(* ===== verification/_CoqProject ===== *)
-Q . S2P
Prelude.v
Floats.v
Sizes.v
Clock.v
Geo.v
Grid.v
Text.v
Json.v
JsonRef.v
Problems.v
Motion.v
Fleet.v
Keys.v
Shards.v
Codec.v
Protocol.v
Hub.v
Connection.v
Dashboard.v
Fanout.v
Loops.v
Batch.v
Devicewise.v
Locks.v
Alerts.v
Devices.v
Leases.v
Ingest.v
Load.v
GenConfig.v
Report.v
Consumer.v
Zones.v
Views.v
Registry.v
Labels.v
Sessions.v
Serve.v
Gateway.v
App.v
Accounts.v
DeviceStream.v
Service.v
Rounds.v
Lifecycle.v
Settings.v
Pipeline.v
Delivery.v
