(* ===== verification/Prelude.v ===== *)
(** * GeoTrack: a verification development

    GeoTrack is a fleet tracker. Devices send location reports over HTTP or a websocket
    (src/src/geotrack/api/routes, src/src/geotrack/ingest); the API appends each report to
    the Redis stream of the device's shard. Processor replicas (src/src/geotrack/processor)
    share the shards through leases; the owner of a shard reads its stream in batches, and
    one SQL statement stores the newest position of each device, keeps the zone presence
    table and raises alerts. Committed positions and alerts are published; gateway
    replicas (src/src/geotrack/realtime) keep the picture of all devices and stream the
    part each dashboard looks at. Accounts log in with a name, manage circular zones and
    read alerts, positions and tracks over REST (src/src/geotrack/api). The dashboard is a
    page of the browser (src/frontend/js). A load generator (src/generator.py) plays the
    fleet. Other file names below are relative to src/src/geotrack.

    ** Files, in the order of their dependencies

    - [Prelude]: Python exceptions and the error monad, comprehensions that may raise,
      maps of sets, the shared tactics and the hint database [geotrack].
    - [Floats]: binary64 arithmetic, executable, on exact integers; [Sizes]: magnitudes of
      its results; [Clock]: clock.py; [Geo]: geo.py; [Grid]: realtime/grid.py.
    - [Text], [Json]: text, UTF-8, JSON values and the class of orjson's operations with
      the laws the code relies on; [JsonRef]: a printer and a parser that meet them;
      [Problems]: api/problems.py.
    - [Motion]: the geometry, the movement model and the payloads of the load generator;
      [Fleet]: its schedule, batcher and devices; [Load]: its counters, retries and both
      transports; [GenConfig]: its configuration and the slices of a run; [Report]: what it
      prints and how its tasks are restarted.
    - [Keys]: messaging/keys.py and sharding.py; [Shards]: ingest/shards.py and the
      processor's check of the same setting; [Codec]: messaging/codec.py; [Protocol]:
      realtime/protocol.py.
    - [Hub]: realtime/hub.py; [Connection]: realtime/connection.py; [Dashboard]: what
      a page makes of position frames (src/frontend/js); [Fanout]: fan_out of
      realtime/gateway.py, the sender loop and the page at the other end, as a transition
      system;
      [Loops]: the position and statistics loops, start and stop of the gateway.
    - [Batch]: processor/batch.py with the schema of migration 0001; [Devicewise] and
      [Locks]: its transactions side by side, under the lock of their shard; [Alerts]:
      db/repositories/alerts.py and processor/publisher.py; [Devices]:
      db/repositories/devices.py and its routes; [Zones]: db/repositories/geozones.py and
      the eight endpoints of api/routes/geozones.py; [Views]: the two answers about the
      devices in a zone compared.
    - [Leases]: processor/leases.py over a class of Redis operations with an instance;
      [Consumer]: processor/consumer.py; [Service], [Lifecycle]: processor/service.py and
      maintenance.py; [Rounds]: the maintenance lead over a fleet.
    - [Ingest]: ingest/backlog.py, ingest/service.py, schemas/ingest.py and the ingest
      routes; [DeviceStream]: a whole connection of a device.
    - [Registry]: realtime/registry.py; [Labels], [Sessions]: realtime/sessions.py;
      [Serve]: the life of a socket and the heartbeats of realtime/gateway.py over both; [Gateway]:
      realtime/bridge.py and the message handling of realtime/gateway.py; [App]: api/app.py,
      api/routes/health.py and the background tasks of a replica with what each of their try
      clauses catches.
    - [Accounts]: api/security.py, api/deps.py, api/routes/auth.py and ws_client.py and
      db/repositories/users.py; [Settings]: settings.py.
    - [Delivery] and [Pipeline] put the parts together: the way of a report from its
      submission to the database, and from the batch that commits it to the dashboards of
      a replica.

    ** How code becomes definitions

    Objects are records, methods are functions from the old state to the new one and the
    result; a method that can raise returns [res]. Tasks that interleave (the sender of a
    connection, the hooks of the registry, the create requests of one account, first
    logins, the sockets and heartbeats of several replicas, replicas on a shard, replicas
    starting up) are step relations whose steps are the code between two awaits.
    Dictionaries are finite maps where their order does not matter, lists where it does.
    Tables are maps on their primary keys; the CTEs of the batch statement are
    definitions on the snapshot it starts from. Moments are integers, in milliseconds or
    microseconds as the code has them; floats are binary64 throughout.

    Code outside the repository is a parameter: orjson ([Json.Orjson]), PyJWT
    ([Accounts.Jwt]; assumed is only that a token the API issued is read back within its
    time and refused after it), PostgreSQL's identity sequence ([Batch.IdentitySequence]:
    which numbers a statement draws, increasing but with gaps), PostGIS predicates, pydantic validators and [model_dump], Python's
    [int] and [float] of a text, Redis ([Leases.LeaseStore]), the C library's trigonometry
    ([Motion.Libm]) and [random.Random] ([Motion.Random]). Their laws are hypotheses, and
    the witnesses next to the theorems instantiate them with concrete functions.

    ** What the theorems show

    Where a statement has a range of clocks or sizes as a hypothesis ([Consumer.clock_ok]: the
    storable moments lie between 2004 and 2038; cells of at least 2^60 units of 2^-1074;
    steps of at most 2^32 seconds), it is a sanity bound of the arithmetic.

    - From a device to the database: a submitted batch reaches the right streams in order
      ([Ingest.submit_routes_in_order] (C29)), all replicas agree on those streams
      ([Shards.shard_count_agreed] (C30)), no accepted report is lost, but by the
      maintenance that drops the days past the retention ([Delivery.accepted_report_survives] (C3)), no entry wedges a shard
      ([Consumer.round_makes_progress] (C20)), replays are harmless
      ([Batch.replay_is_noop] (C5)), the newest report wins ([Batch.batch_newest_wins] (C8)),
      presence is exact and both answers about it agree ([Views.zone_views_agree] (C9)),
      alerts are exact, in the order of event time and of their numbers
      ([Batch.batch_alerts_exact] (C10)), the batches of all shards, run at once statement
      by statement, are one after the other ([Locks.batches_serialise] (C4)) and no transition is replayed
      ([Locks.no_alert_twice] (C7)), a batch ends all or nothing, also
      when the answer of its commit is lost ([Batch.apply_ends] (C21)), and stored
      records survive their encoding ([Codec.record_roundtrip] (C35)).
    - Ownership: leases exclude each other ([Leases.lease_exclusive] (C6)), shares are fair
      and respected ([Leases.fair_share_plan_ok] (C28), [Service.reconcile_within_share] (C26)),
      a replica that stops gives everything back ([Lifecycle.stop_gives_back] (C27)), and the
      fleet does its maintenance in turns ([Rounds.rounds_take_turns] (C25)).
    - From the database to a dashboard: a settled dashboard shows the table, but for
      devices a frame brought and removed at once ([Dashboard.re_entry_hides_device]) or the
      page's timer has forgotten ([Pipeline.dashboard_shows_table] (C1)), and a replica follows it
      ([Pipeline.replica_follows_table] (C17)) over lost and reordered messages; the map
      shows no ghosts ([Loops.no_ghosts] (C18)); the hub is
      consistent ([Hub.hub_reachable_ok] (C19)), frames are what orjson
      would print ([Protocol.positions_frame_bytes]), the frames a quiescent client was
      sent add up to exactly its window, and its page draws it with the same exceptions
      ([Fanout.quiescent_map] (C2)) and no wake-up is lost
      ([Fanout.no_lost_wakeup] (C16)), the grid covers the window
      ([Grid.viewport_covers] (C34)), no message harms the fan-out
      ([Gateway.any_message_contained]). A replica is ready until a subscription
      command of its reader raises what the bridge does not catch, and shuts down in order ([App.ready_until_reader_ends] (C33)); [App.requests_counted] is about its metrics.
    - Sessions: subscriptions follow the connections ([Registry.registry_settles] (C22)),
      every socket is accounted for ([Serve.sockets_accounted] (C23)) and forgotten
      ([Serve.left_session_forgotten] (C24)), and replicas that read
      the same list keep the same sessions ([Sessions.cap_is_fleet_wide]). The expiry of
      the directory's keys is invisible ([Sessions.list_ignores_key_expiry]), and a label is
      fit to show whatever the client sent ([Labels.label_presentable]).
    - Accounts: who a token speaks for ([Accounts.token_authenticates] (C14)), one account
      per name ([Accounts.one_account_per_name] (C36)), isolation
      ([Zones.zones_isolated] (C11)), optimistic concurrency
      ([Zones.lost_update_prevented] (C12)), quotas ([Zones.quota_holds] (C13)), paging
      that repeats nothing and misses nothing that was there all along
      ([Alerts.alerts_crawl_complete] (C15)).
    - Admission: hysteresis of the gate ([Ingest.gate_hysteresis] (C31)), every numbered
      frame answered ([Ingest.sequenced_frame_answered]), a whole connection told the truth
      about its reports ([DeviceStream.acknowledged_is_queued] (C32)), and what the settings
      give to all of these ([Settings.settings_sound] (C37)).
    - The load generator: devices stay well formed
      ([Motion.advance_well_formed] (C40)), the fleet refines the trajectory of each device
      and replays under a seed ([Fleet.fleet_refines_trajectory] (C38),
      [Fleet.movement_replays]), and the counters of both transports balance
      ([Load.http_accounts_balance] (C39), [Load.ws_accounts_balance]); printed numbers read
      back to half a digit ([Report.fixed_reads_back]), and crashes and errors are paced
      ([Report.supervise_backs_off], [Report.errors_are_rate_limited]).

    Lemmas record behaviours a reader should know about:
    [Connection.unhashable_type_raises], [Load.long_retry_after_loses_batch],
    [Serve.heartbeat_relists_session], [Serve.cap_exceeded_by_late_registration],
    [Loops.slow_tick_shifts], [Rounds.skipped_start_without_partition],
    [App.ready_without_channels], [App.failed_start_stays_open],
    [App.dead_reader_stops_shutdown], [Alerts.late_commit_missed],
    [Connection.moved_away_and_back], [Dashboard.re_entry_hides_device],
    [Lifecycle.cancelled_acquire_stays_leased],
    [GenConfig.nan_interval_offers_nothing] and [Shards.tiers_read_differently].

    ** Bounds

    Recursion is structural. Fuel is used in three places: the reference JSON parser takes
    the length of its input ([JsonRef.Ref.jsize_length] shows it is enough), the loop that
    empties a batcher takes one step per report ([Fleet.batches_drain]), and the removal
    of a prefix from a UUID's text takes its length. The retries of a batch consume the
    list of the database's answers, those of a request are bounded by HTTP_ATTEMPTS.

    ** Not modelled

    Logs, and metrics but for the count of requests; the registration of routers and the
    construction of engines and clients; the conflicts of a batch with zone edits under way
    (in [Locks] zones are fixed) and the sleeps between attempts; exceptions and
    cancellation inside a hook of the registry ([Registry], [Serve]); a round of
    reconcile_shards and a sync of the bridge are one step each, although they await
    ([Service], [App]); the generator's JSON summary and signal handling; the smoke script
    and, but for its device store, the dashboard's JavaScript. *)
From Stdlib Require Export Ascii.
From stdpp Require Export base tactics strings gmap list fin_maps sets pretty.
From Stdlib Require Export ZArith Lia.
#[global] Open Scope Z_scope.

(** ** Python exceptions and the error monad *)

(** The exception classes the modelled code raises or catches. *)
Inductive exn :=
  | ValueError (msg : string)
  | TypeError
  | KeyError
  | IndexError
  | ZeroDivisionError
  | OverflowError
  | UnicodeDecodeError
  | CodecError (msg : string)
  | ProtocolError (msg : string)
  | RuntimeError (msg : string)
  | InvalidTokenError (msg : string)
  | RedisError
  | OSError.

Inductive res (A : Type) :=
  | Ok (a : A)
  | Raise (e : exn).
Arguments Ok {A} a.
Arguments Raise {A} e.

#[export] Instance exn_eq_dec : EqDecision exn.
Proof. solve_decision. Defined.
#[export] Instance res_eq_dec {A} `{EqDecision A} : EqDecision (res A).
Proof. solve_decision. Defined.

Definition bind {A B} (m : res A) (k : A → res B) : res B :=
  match m with Ok a => k a | Raise e => Raise e end.

Declare Scope py_scope.
Delimit Scope py_scope with py.
Notation "'let!' x ':=' m 'in' k" := (bind m (fun x => k))
  (at level 10, x pattern, m at level 100, k at level 200) : py_scope.
#[global] Open Scope py_scope.

(** ** Shared automation *)

(** Side conditions and normal forms the components share: invariants of maps of sets,
    stores that differ nowhere else, text written character by character. *)
Create HintDb geotrack.

(** Case analysis on every decidable test of the context and the goal. *)
Ltac split_cases := repeat (case_match || case_decide); simplify_eq/=; try done.

(** ** Comprehensions that may raise *)

(** [[f(a) for a in l]], stopping at the first exception. *)
Fixpoint traverse {A B} (f : A → res B) (l : list A) : res (list B) :=
  match l with
  | [] => Ok []
  | a :: l' => let! b := f a in let! bs := traverse f l' in Ok (b :: bs)
  end.

Lemma traverse_ok {A B} (f : A → res B) (g : A → B) l :
  (∀ a, a ∈ l → f a = Ok (g a)) → traverse f l = Ok (g <$> l).
Proof.
  induction l as [|a l IH]; intros Hf; [done|]. cbn.
  rewrite Hf by set_solver. cbn. rewrite IH by set_solver. done.
Qed.

(** [{k: f(a) for k, a in m.items()}]. *)
Definition map_traverse {K A B} `{Countable K} (f : A → res B) (m : gmap K A) : res (gmap K B) :=
  let! l := traverse (λ ka, let! b := f ka.2 in Ok (ka.1, b)) (map_to_list m) in
  Ok (list_to_map l).

Lemma map_traverse_ok {K A B} `{Countable K} (f : A → res B) (g : A → B) (m : gmap K A) :
  (∀ k a, m !! k = Some a → f a = Ok (g a)) → map_traverse f m = Ok (g <$> m).
Proof.
  intros Hf. unfold map_traverse. rewrite (traverse_ok _ (prod_map id g)).
  - cbn. by rewrite list_to_map_fmap, list_to_map_to_list.
  - intros [k a] Hka%elem_of_map_to_list. cbn. by rewrite (Hf k a).
Qed.

(** ** Sets kept in the values of a map *)

Section set_values.
Context {K V : Type} `{Countable K} `{Countable V}.

Definition set_at (m : gmap K (gset V)) (k : K) : gset V := default ∅ (m !! k).

(** [m.setdefault(k, set()).add(v)]. *)
Definition set_add (k : K) (v : V) (m : gmap K (gset V)) : gmap K (gset V) :=
  <[k := {[v]} ∪ set_at m k]> m.

Lemma elem_set_add k v m k' v' :
  v' ∈ set_at (set_add k v m) k' ↔ (k' = k ∧ v' = v) ∨ v' ∈ set_at m k'.
Proof.
  unfold set_at, set_add. rewrite lookup_insert. case_decide; set_solver.
Qed.

(** [m.get(k).discard(v)] when the key is present. *)
Definition set_discard (k : K) (v : V) (m : gmap K (gset V)) : gmap K (gset V) :=
  alter (.∖ {[v]}) k m.

Lemma elem_set_discard k v m k' v' :
  v' ∈ set_at (set_discard k v m) k' ↔ v' ∈ set_at m k' ∧ ¬ (k' = k ∧ v' = v).
Proof.
  unfold set_at, set_discard. destruct (decide (k' = k)) as [->|].
  - rewrite lookup_alter_eq. destruct (m !! k); set_solver.
  - rewrite lookup_alter_ne by done. naive_solver.
Qed.

(** The same, dropping the key with its last member. *)
Definition set_drop (k : K) (v : V) (m : gmap K (gset V)) : gmap K (gset V) :=
  match m !! k with
  | None => m
  | Some vs => if decide (vs ∖ {[v]} = ∅) then delete k m else <[k := vs ∖ {[v]}]> m
  end.

Lemma elem_set_drop k v m k' v' :
  v' ∈ set_at (set_drop k v m) k' ↔ v' ∈ set_at m k' ∧ ¬ (k' = k ∧ v' = v).
Proof.
  unfold set_at, set_drop. destruct (m !! k) as [vs|] eqn:E.
  - case_decide; destruct (decide (k' = k)) as [->|].
    + rewrite lookup_delete_eq, E. set_solver.
    + rewrite lookup_delete_ne by done. naive_solver.
    + rewrite lookup_insert_eq, E. set_solver.
    + rewrite lookup_insert_ne by done. naive_solver.
  - split; [|naive_solver]. intros Hv. split; [done|]. intros [-> ->]. rewrite E in Hv. set_solver.
Qed.

Definition no_empty (m : gmap K (gset V)) : Prop := ∀ k vs, m !! k = Some vs → vs ≠ ∅.

Lemma no_empty_add k v m : no_empty m → no_empty (set_add k v m).
Proof.
  intros Hm k' vs. unfold set_add. destruct (decide (k' = k)) as [->|].
  - rewrite lookup_insert_eq. intros [= <-]. set_solver.
  - rewrite lookup_insert_ne by done. apply Hm.
Qed.
Lemma no_empty_drop k v m : no_empty m → no_empty (set_drop k v m).
Proof.
  intros Hm k' vs. unfold set_drop. destruct (m !! k) eqn:E; [|apply Hm].
  destruct (decide (k' = k)) as [->|]; case_decide.
  - by rewrite lookup_delete_eq.
  - rewrite lookup_insert_eq. by intros [= <-].
  - rewrite lookup_delete_ne by done. apply Hm.
  - rewrite lookup_insert_ne by done. apply Hm.
Qed.
End set_values.

#[export] Hint Resolve no_empty_add no_empty_drop : geotrack.
#[export] Hint Rewrite @elem_set_add @elem_set_drop @elem_set_discard : geotrack.

Lemma list_elem_of_concat {A} (x : A) (ls : list (list A)) :
  x ∈ concat ls ↔ ∃ l, x ∈ l ∧ l ∈ ls.
Proof.
  rewrite list_elem_of_In, in_concat. setoid_rewrite list_elem_of_In. naive_solver.
Qed.

Lemma fmap_bind {A B C} (f : B → C) (g : A → list B) (l : list A) :
  f <$> (l ≫= g) = l ≫= (λ a, f <$> g a).
Proof. induction l as [|a l IH]; [done|]. cbn. by rewrite fmap_app, IH. Qed.

(** ** Filters *)

Lemma filter_keeps {A} (P : A → Prop) `{∀ x, Decision (P x)} (l : list A) : Forall P l → filter P l = l.
Proof. induction 1 as [|x l Hx _ IH]; [done|]. cbn. rewrite decide_True by done. by f_equal. Qed.

Lemma filter_none {A} (P : A → Prop) `{∀ x, Decision (P x)} (l : list A) : Forall (λ x, ¬ P x) l → filter P l = [].
Proof. induction 1 as [|x l Hx _ IH]; [done|]. by rewrite filter_cons_False. Qed.

Lemma filter_ext_in {A} (P Q : A → Prop) `{∀ x, Decision (P x)} `{∀ x, Decision (Q x)} (l : list A) :
  (∀ x, x ∈ l → P x ↔ Q x) → filter P l = filter Q l.
Proof.
  induction l as [|x l IH]; intros HPQ; [done|]. rewrite !filter_cons.
  rewrite IH by set_solver. assert (P x ↔ Q x) by (apply HPQ; set_solver). by repeat case_decide; try tauto.
Qed.
