(* ===== verification/Floats.v ===== *)
(** * Python floats

    The language's [float] is IEEE-754 binary64.  Every finite binary64 value is
    an integer multiple of 2^-1074, so a finite float is represented here by that
    integer ([Fin n] is [n * 2^-1074]); the two zeros are identified.  Arithmetic
    computes the exact result and rounds it to nearest, ties to even, which is what
    the standard prescribes and CPython inherits from the hardware.  Everything is
    executable; the lemmas are the ones the components need: rounding is monotone,
    exact on representable values, and off by at most half a unit in the last place. *)
From S2P Require Import Prelude.

(** ** Rounding *)

(** One, in units of 2^-1074. *)
Definition u : Z := 2 ^ 1074.
Arguments u : simpl never.

(** The integer nearest to [a / d], ties to even. *)
Definition round_half_even (a d : Z) : Z :=
  let '(fl, r) := Z.div_eucl a d in
  if 2 * r <? d then fl
  else if d <? 2 * r then fl + 1
  else if Z.even fl then fl else fl + 1.

(** The exponent of the last place of a binary64 number close to [a / q]: the place of its
    leading bit, less 52, and not below that of the smallest number. *)
Definition expo (a q : Z) : Z :=
  let l := Z.log2 a - Z.log2 q in
  if l <=? 52 then 0 else if a <? Z.shiftl q l then l - 53 else l - 52.

Definition round_pos (a q : Z) : Z :=
  let e := expo a q in round_half_even a (q * 2 ^ e) * 2 ^ e.

(** The binary64 number nearest to the rational [p / q], [q > 0]. *)
Definition rnd (p q : Z) : Z :=
  if p <? 0 then - round_pos (- p) q else round_pos p q.

(** ** Values and operations *)

Inductive float64 :=
  | Fin (n : Z)
  | Inf (negative : bool)
  | NaN.

#[export] Instance float64_eq_dec : EqDecision float64.
Proof. solve_decision. Defined.

(** A rounded magnitude of 2^1024 or more is an infinity. *)
Definition of_rounded (n : Z) : float64 :=
  if 2 ^ 2098 <=? Z.abs n then Inf (n <? 0) else Fin n.

(** The literal [k.0]. *)
Definition flit (k : Z) : float64 := Fin (k * u).

Definition fcompare (x y : float64) : option comparison :=
  match x, y with
  | NaN, _ | _, NaN => None
  | Fin a, Fin b => Some (a ?= b)
  | Inf s, Inf t => Some (if Bool.eqb s t then Eq else if s then Lt else Gt)
  | Inf s, Fin _ => Some (if s then Lt else Gt)
  | Fin _, Inf t => Some (if t then Gt else Lt)
  end.
Definition fltb (x y : float64) : bool :=
  match fcompare x y with Some Lt => true | _ => false end.
Definition fleb (x y : float64) : bool :=
  match fcompare x y with Some Lt | Some Eq => true | _ => false end.
Definition isfinite (x : float64) : bool :=
  match x with Fin _ => true | _ => false end.

(** Python's two-argument [max] and [min] keep the first argument on a tie and
    whenever the comparison is false, NaN included. *)
Definition fmax (x y : float64) : float64 := if fltb x y then y else x.
Definition fmin (x y : float64) : float64 := if fltb y x then y else x.

Definition fneg (x : float64) : float64 :=
  match x with Fin a => Fin (- a) | Inf s => Inf (negb s) | NaN => NaN end.
Definition fadd (x y : float64) : float64 :=
  match x, y with
  | NaN, _ | _, NaN => NaN
  | Fin a, Fin b => of_rounded (rnd (a + b) 1)
  | Inf s, Inf t => if Bool.eqb s t then Inf s else NaN
  | Inf s, Fin _ => Inf s
  | Fin _, Inf t => Inf t
  end.
Definition fsub (x y : float64) : float64 := fadd x (fneg y).
Definition fmul (x y : float64) : float64 :=
  match x, y with
  | NaN, _ | _, NaN => NaN
  | Fin a, Fin b => of_rounded (rnd (a * b) u)
  | Inf s, Inf t => Inf (xorb s t)
  | Inf s, Fin b => if b =? 0 then NaN else Inf (xorb s (b <? 0))
  | Fin a, Inf t => if a =? 0 then NaN else Inf (xorb (a <? 0) t)
  end.
(** [x / y]: a zero divisor raises. *)
Definition fdiv (x y : float64) : res float64 :=
  match x, y with
  | _, Fin 0 => Raise ZeroDivisionError
  | NaN, _ | _, NaN => Ok NaN
  | Fin a, Fin b => Ok (of_rounded (rnd (Z.sgn b * a * u) (Z.abs b)))
  | Inf s, Fin b => Ok (Inf (xorb s (b <? 0)))
  | Fin _, Inf _ => Ok (Fin 0)
  | Inf _, Inf _ => Ok NaN
  end.
(** [x % y]: C's exact [fmod], then one rounded addition of the divisor when the
    signs differ, so that the result takes the sign of the divisor. *)
Definition fmod (x y : float64) : res float64 :=
  match x, y with
  | _, Fin 0 => Raise ZeroDivisionError
  | NaN, _ | _, NaN | Inf _, _ => Ok NaN
  | Fin a, Fin b =>
      let m := Z.rem a b in
      Ok (if (negb (m =? 0)) && negb (Bool.eqb (b <? 0) (m <? 0))
          then of_rounded (rnd (m + b) 1) else Fin m)
  | Fin a, Inf t =>
      Ok (if (negb (a =? 0)) && negb (Bool.eqb t (a <? 0)) then Inf t else Fin a)
  end.
(** [math.floor(x)] and [int(x)]. *)
Definition floor (x : float64) : res Z :=
  match x with
  | Fin a => Ok (a / u)
  | Inf _ => Raise OverflowError
  | NaN => Raise (ValueError "cannot convert float NaN to integer")
  end.
Definition trunc (x : float64) : res Z :=
  match x with
  | Fin a => Ok (Z.quot a u)
  | Inf _ => Raise OverflowError
  | NaN => Raise (ValueError "cannot convert float NaN to integer")
  end.
(** [float(k)] for an integer, and the true division of two integers. *)
Definition float_of_int (k : Z) : res float64 :=
  match of_rounded (rnd (k * u) 1) with
  | Inf _ => Raise OverflowError
  | x => Ok x
  end.
Definition int_truediv (a b : Z) : res float64 :=
  if b =? 0 then Raise ZeroDivisionError
  else match of_rounded (rnd (Z.sgn b * a * u) (Z.abs b)) with
       | Inf _ => Raise OverflowError
       | x => Ok x
       end.
(** [math.nextafter(x, y)]. *)
Definition up_pos (x : Z) : Z := x + 2 ^ expo x 1.
Definition down_pos (x : Z) : Z := x - 2 ^ expo (x - 1) 1.
Definition next_up (x : Z) : Z := if x <? 0 then - down_pos (- x) else up_pos x.
Definition next_down (x : Z) : Z := - next_up (- x).
Definition nextafter (x y : float64) : float64 :=
  match x, y with
  | NaN, _ | _, NaN => NaN
  | Fin a, Fin b =>
      if a =? b then y
      else of_rounded (if a <? b then next_up a else next_down a)
  | Fin a, Inf t => of_rounded (if t then next_down a else next_up a)
  | Inf s, _ => if bool_decide (x = y) then y
                else Fin ((if s then -1 else 1) * (2 ^ 53 - 1) * 2 ^ 2045)
  end.

(** ** Lemmas on rounding *)

Lemma u_pos : 0 < u.
Proof. apply Z.pow_pos_nonneg; lia. Qed.
#[export] Hint Resolve u_pos : core.

Lemma round_half_even_eq a d :
  round_half_even a d =
    if 2 * (a mod d) <? d then a / d
    else if d <? 2 * (a mod d) then a / d + 1
    else if Z.even (a / d) then a / d else a / d + 1.
Proof. unfold round_half_even, Z.div, Z.modulo. by destruct (Z.div_eucl a d). Qed.

Lemma expo_eq a q : 0 < q → expo a q = Z.max 0 (Z.log2 (a / q) - 52).
Proof.
  intros Hq. unfold expo. destruct (Z.lt_ge_cases a q) as [Ha|Ha].
  { assert (Hl : Z.log2 a ≤ Z.log2 q) by (apply Z.log2_le_mono; lia).
    destruct (Z.leb_spec (Z.log2 a - Z.log2 q) 52); [|lia].
    assert (Z.log2 (a / q) = 0) as ->; [|done].
    destruct (Z.lt_ge_cases a 0); [apply Z.log2_nonpos, Z.lt_le_incl, Z.div_lt_upper_bound; lia|by rewrite Z.div_small]. }
  assert (Hpos : 0 < a / q) by (apply Z.div_str_pos; lia).
  assert (Hl0 : Z.log2 q ≤ Z.log2 a) by (apply Z.log2_le_mono; lia).
  pose proof (Z.log2_spec a ltac:(lia)) as [Ha1 Ha2]. pose proof (Z.log2_spec q Hq) as [Hq1 Hq2].
  set (l := Z.log2 a - Z.log2 q) in *. rewrite Z.shiftl_mul_pow2 by lia.
  replace (Z.log2 a) with (Z.log2 q + l) in * by lia.
  rewrite ?Z.pow_succ_r, !Z.pow_add_r in * by (pose proof (Z.log2_nonneg q); lia).
  assert (Hp : 0 < 2 ^ l) by (apply Z.pow_pos_nonneg; lia).
  assert (Hup : a / q < 2 * 2 ^ l) by (apply Z.div_lt_upper_bound; nia).
  destruct (Z.ltb_spec a (q * 2 ^ l)) as [Hlt|Hge].
  - assert (Hl1 : 0 < l) by (destruct (decide (l = 0)) as [E|]; [rewrite E in Hlt; lia|lia]).
    assert (E : 2 ^ l = 2 * 2 ^ (l - 1)) by (rewrite <- Z.pow_succ_r by lia; f_equal; lia).
    rewrite (Z.log2_unique (a / q) (l - 1)); [destruct (Z.leb_spec l 52); lia|lia|].
    split; [apply Z.div_le_lower_bound; nia|]. replace (Z.succ (l - 1)) with l by lia.
    apply Z.div_lt_upper_bound; lia.
  - rewrite (Z.log2_unique (a / q) l); [destruct (Z.leb_spec l 52); lia|lia|].
    split; [apply Z.div_le_lower_bound; lia|]. by rewrite Z.pow_succ_r by lia.
Qed.

Section rounding.
Implicit Types a b d e p q n : Z.

Lemma round_half_even_error a d :
  0 < d → 2 * Z.abs (d * round_half_even a d - a) ≤ d.
Proof.
  intros Hd. rewrite round_half_even_eq.
  pose proof (Z.div_mod a d ltac:(lia)). pose proof (Z.mod_pos_bound a d Hd).
  destruct (Z.ltb_spec (2 * (a mod d)) d); [lia|].
  destruct (Z.ltb_spec d (2 * (a mod d))); [lia|].
  destruct (Z.even (a / d)); lia.
Qed.

Lemma round_half_even_mono a b d :
  0 < d → a ≤ b → round_half_even a d ≤ round_half_even b d.
Proof.
  intros Hd Hab. destruct (decide (a = b)) as [->|]; [lia|].
  pose proof (round_half_even_error a d Hd). pose proof (round_half_even_error b d Hd).
  apply Z.lt_succ_r, (Z.mul_lt_mono_pos_l d); lia.
Qed.

Lemma round_half_even_exact k d : 0 < d → round_half_even (k * d) d = k.
Proof.
  intros Hd. rewrite round_half_even_eq.
  rewrite Z.mod_mul, Z.div_mul by lia.
  destruct (Z.ltb_spec (2 * 0) d); lia.
Qed.

Lemma expo_nonneg a q : 0 ≤ expo a q.
Proof. unfold expo. destruct (Z.leb_spec (Z.log2 a - Z.log2 q) 52); [lia|]. destruct (_ <? _); lia. Qed.

Lemma expo_pow_pos a q : 0 < 2 ^ expo a q.
Proof. apply Z.pow_pos_nonneg; [lia|apply expo_nonneg]. Qed.

(** Linear arithmetic that knows exponents are not negative. *)
Ltac expo_facts :=
  repeat match goal with
    | |- context [expo ?a ?q] =>
        lazymatch goal with
        | _ : 0 ≤ expo a q |- _ => fail
        | _ => pose proof (expo_nonneg a q); pose proof (expo_pow_pos a q)
        end
    end.
Ltac flia := expo_facts; first [lia | nia].

Lemma expo_upper a q : 0 ≤ a → 0 < q → a < q * 2 ^ (53 + expo a q).
Proof.
  intros Ha Hq.
  enough (a / q < 2 ^ (53 + expo a q)) by
    (pose proof (Z.div_mod a q ltac:(lia)); pose proof (Z.mod_pos_bound a q Hq); nia).
  destruct (decide (a / q = 0)) as [->|Hne]; [apply Z.pow_pos_nonneg; flia|].
  assert (0 < a / q) by (pose proof (Z.div_pos a q Ha Hq); lia).
  apply Z.log2_lt_pow2; [done|]. rewrite expo_eq by lia. lia.
Qed.

Lemma expo_lower a q : 0 ≤ a → 0 < q → 0 < expo a q → q * 2 ^ (52 + expo a q) ≤ a.
Proof.
  intros Ha Hq He. etrans; [|apply (Z.mul_div_le a q); lia].
  apply Z.mul_le_mono_nonneg_l; [lia|].
  assert (0 < a / q) as Hpos.
  { destruct (decide (a / q = 0)) as [H0|]; [rewrite expo_eq, H0 in He by lia; cbn in He; lia|].
    pose proof (Z.div_pos a q Ha Hq); lia. }
  apply Z.log2_le_pow2; [done|]. rewrite expo_eq in * by lia. lia.
Qed.

Lemma expo_mono a b q : a ≤ b → 0 < q → expo a q ≤ expo b q.
Proof.
  intros Hab Hq. rewrite !expo_eq by lia.
  pose proof (Z.log2_le_mono _ _ (Z.div_le_mono a b q Hq Hab)). lia.
Qed.

Lemma round_pos_le_pow a q : 0 ≤ a → 0 < q → round_pos a q ≤ 2 ^ (53 + expo a q).
Proof.
  intros Ha Hq. unfold round_pos. rewrite Z.pow_add_r by flia.
  apply Z.mul_le_mono_nonneg_r; [flia|].
  rewrite <- (round_half_even_exact (2 ^ 53) (q * 2 ^ expo a q)) by flia.
  apply round_half_even_mono; [flia|].
  pose proof (expo_upper a q Ha Hq) as H. rewrite Z.pow_add_r in H by flia. lia.
Qed.

Lemma round_pos_ge_pow a q :
  0 ≤ a → 0 < q → 0 < expo a q → 2 ^ (52 + expo a q) ≤ round_pos a q.
Proof.
  intros Ha Hq He. unfold round_pos. rewrite Z.pow_add_r by flia.
  apply Z.mul_le_mono_nonneg_r; [flia|].
  rewrite <- (round_half_even_exact (2 ^ 52) (q * 2 ^ expo a q)) by flia.
  apply round_half_even_mono; [flia|].
  pose proof (expo_lower a q Ha Hq He) as H. rewrite Z.pow_add_r in H by flia. lia.
Qed.

Lemma round_pos_mono a b q : 0 ≤ a → a ≤ b → 0 < q → round_pos a q ≤ round_pos b q.
Proof.
  intros Ha Hab Hq. pose proof (expo_mono a b q Hab Hq).
  destruct (decide (expo a q = expo b q)) as [He|He].
  - unfold round_pos. rewrite He. apply Z.mul_le_mono_nonneg_r; [flia|].
    apply round_half_even_mono; flia.
  - etrans; [by apply round_pos_le_pow|].
    assert (0 < expo b q) by (pose proof (expo_nonneg a q); lia).
    etrans; [|by apply round_pos_ge_pow; [lia| |]].
    apply Z.pow_le_mono_r; lia.
Qed.

Lemma round_pos_nonneg a q : 0 ≤ a → 0 < q → 0 ≤ round_pos a q.
Proof.
  intros Ha Hq. etrans; [|apply (round_pos_mono 0 a q); lia].
  unfold round_pos.
  pose proof (round_half_even_exact 0 (q * 2 ^ expo 0 q) ltac:(flia)) as H.
  rewrite Z.mul_0_l in H. rewrite H. lia.
Qed.

Lemma rnd_mono p1 p2 q : p1 ≤ p2 → 0 < q → rnd p1 q ≤ rnd p2 q.
Proof.
  intros Hp Hq. unfold rnd.
  destruct (Z.ltb_spec p1 0), (Z.ltb_spec p2 0).
  - assert (round_pos (- p2) q ≤ round_pos (- p1) q) by (apply round_pos_mono; lia). lia.
  - pose proof (round_pos_nonneg (- p1) q ltac:(lia) Hq).
    pose proof (round_pos_nonneg p2 q ltac:(lia) Hq). lia.
  - lia.
  - apply round_pos_mono; lia.
Qed.

(** Rounding is off by at most half a unit in the last place. *)
Lemma round_pos_error a q :
  0 ≤ a → 0 < q → 2 * Z.abs (q * round_pos a q - a) ≤ q * 2 ^ expo a q.
Proof.
  intros Ha Hq. unfold round_pos.
  pose proof (round_half_even_error a (q * 2 ^ expo a q) ltac:(flia)).
  replace (q * (round_half_even a (q * 2 ^ expo a q) * 2 ^ expo a q))
    with (q * 2 ^ expo a q * round_half_even a (q * 2 ^ expo a q)) by ring. done.
Qed.

(** A value whose last place divides it is not changed by rounding. *)
Lemma round_pos_exact n : 0 ≤ n → (2 ^ expo n 1 | n) → round_pos n 1 = n.
Proof.
  intros Hn [k Hk]. unfold round_pos. rewrite Z.mul_1_l.
  rewrite Hk at 1. rewrite round_half_even_exact by flia. lia.
Qed.

Lemma expo_lt_pow n k : 0 ≤ n → n < 2 ^ (53 + k) → 0 ≤ k → expo n 1 ≤ k.
Proof.
  intros Hn Hlt Hk. rewrite expo_eq by lia. rewrite Z.div_1_r.
  destruct (decide (n = 0)) as [->|]; [cbn; lia|].
  assert (Z.log2 n < 53 + k) by (apply Z.log2_lt_pow2; lia). lia.
Qed.

Lemma rnd_exact m k :
  Z.abs m < 2 ^ 53 → 0 ≤ k → rnd (m * 2 ^ k) 1 = m * 2 ^ k.
Proof.
  intros Hm Hk. pose proof (Z.pow_pos_nonneg 2 k ltac:(lia) Hk).
  assert (Hpos : ∀ j, 0 ≤ j < 2 ^ 53 → round_pos (j * 2 ^ k) 1 = j * 2 ^ k).
  { intros j Hj. apply round_pos_exact; [lia|].
    apply Z.divide_mul_r.
    assert (expo (j * 2 ^ k) 1 ≤ k) as Hle.
    { apply expo_lt_pow; [lia| |lia]. rewrite Z.pow_add_r by lia. nia. }
    exists (2 ^ (k - expo (j * 2 ^ k) 1)).
    rewrite <- Z.pow_add_r by (pose proof (expo_nonneg (j * 2 ^ k) 1); lia).
    f_equal; lia. }
  unfold rnd. destruct (Z.ltb_spec (m * 2 ^ k) 0).
  - replace (- (m * 2 ^ k)) with ((- m) * 2 ^ k) by ring.
    rewrite Hpos by nia. lia.
  - apply Hpos. nia.
Qed.
End rounding.

(** Rounding depends on the rational only, not on how it is written. *)
Lemma round_half_even_scale a d c :
  0 < d → 0 < c → round_half_even (c * a) (c * d) = round_half_even a d.
Proof.
  intros Hd Hc. rewrite !round_half_even_eq.
  rewrite Z.div_mul_cancel_l, Zmult_mod_distr_l by lia.
  replace (2 * (c * (a mod d)) <? c * d) with (2 * (a mod d) <? d)
    by (destruct (Z.ltb_spec (2 * (a mod d)) d), (Z.ltb_spec (2 * (c * (a mod d))) (c * d)); nia).
  replace (c * d <? 2 * (c * (a mod d))) with (d <? 2 * (a mod d))
    by (destruct (Z.ltb_spec d (2 * (a mod d))), (Z.ltb_spec (c * d) (2 * (c * (a mod d)))); nia).
  done.
Qed.

Lemma rnd_scale p q c : 0 < q → 0 < c → rnd (c * p) (c * q) = rnd p q.
Proof.
  intros Hq Hc.
  assert (Hpos : ∀ a, round_pos (c * a) (c * q) = round_pos a q).
  { intros a. unfold round_pos.
    assert (expo (c * a) (c * q) = expo a q) as -> by (by rewrite !expo_eq, Z.div_mul_cancel_l by nia).
    rewrite <- Z.mul_assoc. rewrite round_half_even_scale; [done| |done].
    pose proof (expo_pow_pos a q). nia. }
  unfold rnd. destruct (Z.ltb_spec (c * p) 0), (Z.ltb_spec p 0); try nia.
  - replace (- (c * p)) with (c * - p) by ring. by rewrite Hpos.
  - apply Hpos.
Qed.

Lemma rnd_scale_u p : rnd (u * p) u = rnd p 1.
Proof.
  pose proof u_pos. pose proof (rnd_scale p 1 u ltac:(lia) ltac:(lia)) as Hs.
  by rewrite Z.mul_1_r in Hs.
Qed.

(** The nearest multiple is the only one closer than half a step. *)
Lemma round_half_even_near a d k :
  0 < d → 2 * Z.abs (d * k - a) < d → round_half_even a d = k.
Proof.
  intros Hd Hk. pose proof (round_half_even_error a d Hd).
  enough (d * round_half_even a d < d * (k + 1) ∧ d * (k - 1) < d * round_half_even a d)
    as [?%Z.mul_lt_mono_pos_l ?%Z.mul_lt_mono_pos_l] by lia. lia.
Qed.

Lemma of_rounded_Fin n : Z.abs n < 2 ^ 2098 → of_rounded n = Fin n.
Proof. intros H. unfold of_rounded. destruct (Z.leb_spec (2 ^ 2098) (Z.abs n)); [lia|done]. Qed.
