(* ===== verification/Sizes.v ===== *)
(** * Sizes of floats

    What the float arithmetic of [Floats] does to magnitudes: [mag k x] says that [x] is
    finite and at most [2^k] in absolute value.  A computation whose inputs have a size is
    then known to stay finite, which is what its range claims need. *)
From S2P Require Import Prelude Floats.

(** ** Rounding keeps representable bounds *)

Lemma rnd_opp p q : 0 < q → rnd (- p) q = - rnd p q.
Proof.
  intros Hq. unfold rnd. destruct (Z.ltb_spec p 0), (Z.ltb_spec (- p) 0); try lia.
  - by rewrite Z.opp_involutive.
  - assert (p = 0) as -> by lia. assert (E : round_pos 0 q = 0); [|by rewrite !E].
    unfold round_pos. pose proof (round_half_even_exact 0 (q * 2 ^ expo 0 q) ltac:(pose proof (expo_pow_pos 0 q); nia)) as E.
    rewrite Z.mul_0_l in E. by rewrite E.
Qed.

Definition representable (n : Z) : Prop := rnd n 1 = n.

Lemma representable_pow j : 0 ≤ j → representable (2 ^ j).
Proof. intros. unfold representable. rewrite <- (Z.mul_1_l (2 ^ j)). by apply rnd_exact. Qed.
Lemma representable_lit k : Z.abs k < 2 ^ 53 → representable (k * u).
Proof. intros. by apply rnd_exact. Qed.
Lemma representable_opp n : representable n → representable (- n).
Proof. unfold representable. rewrite rnd_opp by lia. by intros ->. Qed.
Lemma representable_0 : representable 0.
Proof. by apply (representable_lit 0). Qed.
#[export] Hint Resolve representable_pow representable_lit representable_opp representable_0 : geotrack.

Lemma rnd_representable n q : 0 < q → representable n → rnd (n * q) q = n.
Proof.
  intros Hq Hn. rewrite Z.mul_comm. pose proof (rnd_scale n 1 q ltac:(lia) Hq) as E.
  rewrite Z.mul_1_r in E. by rewrite E.
Qed.

(** Rounding gives a representable value. *)
Lemma representable_rnd p q : 0 < q → representable (rnd p q).
Proof.
  intros Hq. assert (Hpos : ∀ a, 0 ≤ a → representable (round_pos a q)).
  { intros a Ha. unfold round_pos. set (e := expo a q). set (k := round_half_even a (q * 2 ^ e)).
    pose proof (expo_pow_pos a q) as Hpow. fold e in Hpow.
    assert (Hk : 0 ≤ k ≤ 2 ^ 53).
    { pose proof (round_pos_nonneg a q Ha Hq). pose proof (round_pos_le_pow a q Ha Hq) as Hle.
      unfold round_pos in *. fold e k in Hle, H. rewrite Z.pow_add_r in Hle by (lia || apply expo_nonneg). nia. }
    destruct (decide (k = 2 ^ 53)) as [->|].
    - rewrite <- Z.pow_add_r by (lia || apply expo_nonneg). apply representable_pow.
      pose proof (expo_nonneg a q). lia.
    - apply rnd_exact; [lia|apply expo_nonneg]. }
  unfold rnd. destruct (Z.ltb_spec p 0); [|by apply Hpos].
  apply representable_opp, Hpos. lia.
Qed.
#[export] Hint Resolve representable_rnd : geotrack.

Lemma rnd_between p q lo hi :
  0 < q → representable lo → representable hi → lo * q ≤ p ≤ hi * q → lo ≤ rnd p q ≤ hi.
Proof.
  intros Hq Hlo Hhi [H1 H2].
  rewrite <- (rnd_representable lo q Hq Hlo), <- (rnd_representable hi q Hq Hhi).
  split; by apply rnd_mono.
Qed.

Lemma rnd_abs_le p q b : 0 < q → representable b → Z.abs p ≤ b * q → Z.abs (rnd p q) ≤ b.
Proof.
  intros Hq Hb Hp. enough (- b ≤ rnd p q ≤ b) by lia.
  apply rnd_between; auto with geotrack; lia.
Qed.

(** Doubling is exact. *)
Lemma representable_double n : 0 ≤ n → representable n → representable (2 * n).
Proof.
  unfold representable, rnd. intros Hn. destruct (Z.ltb_spec n 0), (Z.ltb_spec (2 * n) 0); try lia.
  intros Hr. apply round_pos_exact; [lia|].
  assert (Hd : (2 ^ expo n 1 | n)).
  { rewrite <- Hr at 2. unfold round_pos. apply Z.divide_factor_r. }
  destruct (decide (n = 0)) as [->|]; [apply Z.divide_0_r|].
  transitivity (2 ^ (expo n 1 + 1)).
  - assert (Hle : expo (2 * n) 1 ≤ expo n 1 + 1)
      by (rewrite !expo_eq by lia; rewrite !Z.div_1_r, Z.log2_double by lia; lia).
    exists (2 ^ (expo n 1 + 1 - expo (2 * n) 1)).
    rewrite <- Z.pow_add_r by (pose proof (expo_nonneg (2 * n) 1); lia). f_equal. lia.
  - rewrite Z.pow_add_r by (lia || apply expo_nonneg). rewrite Z.mul_comm, Z.pow_1_r.
    by apply Z.mul_divide_mono_l.
Qed.

(** ** Finite values of a known size *)

Definition mag (k : Z) (x : float64) : Prop := ∃ n, x = Fin n ∧ Z.abs n ≤ 2 ^ (1074 + k).

(** The sizes at which no operation below overflows. *)
Definition small (k : Z) : Prop := -1000 ≤ k ≤ 1000.

Lemma mag_weaken k k' x : k ≤ k' → mag k x → mag k' x.
Proof.
  intros Hk (n & -> & Hn). exists n. split; [done|]. etrans; [done|].
  destruct (decide (0 ≤ 1074 + k')); [apply Z.pow_le_mono_r; lia|].
  by rewrite (Z.pow_neg_r 2 (1074 + k)), Z.pow_neg_r in * by lia.
Qed.

Lemma mag_lit z k : 0 ≤ k → Z.abs z ≤ 2 ^ k → mag k (flit z).
Proof.
  intros Hk Hz. eexists. split; [done|]. rewrite Z.pow_add_r by lia. change (2 ^ 1074) with u.
  pose proof u_pos. nia.
Qed.

Lemma of_rounded_mag n k : small k → Z.abs n ≤ 2 ^ (1074 + k) → mag k (of_rounded n).
Proof.
  intros Hk Hn. exists n. split; [|done]. apply of_rounded_Fin.
  eapply Z.le_lt_trans; [done|]. apply Z.pow_lt_mono_r; unfold small in Hk; lia.
Qed.

Lemma mag_add k x y : small k → small (k + 1) → mag k x → mag k y → mag (k + 1) (fadd x y).
Proof.
  unfold small. intros Hk Hk1 (a & -> & Ha) (b & -> & Hb). apply of_rounded_mag; [done|].
  apply rnd_abs_le; [done|apply representable_pow; lia|].
  replace (1074 + (k + 1)) with (1074 + k + 1) by lia. rewrite (Z.pow_add_r 2 (1074 + k) 1) by lia. lia.
Qed.

Lemma mag_neg k x : mag k x → mag k (fneg x).
Proof. intros (a & -> & Ha). exists (- a). split; [done|lia]. Qed.

Lemma mag_sub k x y : small k → small (k + 1) → mag k x → mag k y → mag (k + 1) (fsub x y).
Proof. intros. apply mag_add; auto using mag_neg. Qed.

Lemma mag_mul j k x y : small j → small k → small (j + k) → mag j x → mag k y → mag (j + k) (fmul x y).
Proof.
  unfold small. intros Hj Hk Hjk (a & -> & Ha) (b & -> & Hb). apply of_rounded_mag; [done|].
  apply rnd_abs_le; [apply u_pos|apply representable_pow; lia|].
  rewrite Z.abs_mul. etrans; [apply Z.mul_le_mono_nonneg; [lia|done|lia|done]|].
  unfold u. rewrite <- !Z.pow_add_r by lia. apply Z.pow_le_mono_r; lia.
Qed.

(** Division by something that is not below one. *)
Lemma mag_div k x n : small k → mag k x → u ≤ n → ∃ y, fdiv x (Fin n) = Ok y ∧ mag k y.
Proof.
  intros Hk (a & -> & Ha) Hn. pose proof u_pos. eexists. split.
  { unfold fdiv. destruct n as [|n|n]; [lia|done|lia]. }
  apply of_rounded_mag; [done|]. unfold small in Hk.
  apply rnd_abs_le; [lia|apply representable_pow; lia|].
  rewrite !Z.abs_mul, (Z.sgn_pos n), (Z.abs_eq u), (Z.abs_eq n) by lia. nia.
Qed.

(** [max] and [min] against a finite bound give a finite value, whatever the size of the
    other operand. *)
Definition number (x : float64) : Prop := x ≠ NaN.

Lemma mag_number k x : mag k x → number x.
Proof. by intros (n & -> & _). Qed.

Lemma clamp_range x lo hi : number x → lo ≤ hi →
  ∃ n, fmin (fmax x (Fin lo)) (Fin hi) = Fin n ∧ lo ≤ n ≤ hi.
Proof.
  intros Hx Hlh. destruct x as [n|[]|]; [..|done];
    unfold fmin, fmax, fltb, fcompare;
    repeat (case_match; simplify_eq/=); rewrite ?Z.compare_lt_iff, ?Z.compare_eq_iff, ?Z.compare_gt_iff in *;
    eexists; (split; [done|lia]) || idtac.
Qed.

(** [x % y] for a finite [x] and a positive representable [y]. *)
Lemma fmod_range a y : 0 < y → y < 2 ^ 2098 → representable y → ∃ n, fmod (Fin a) (Fin y) = Ok (Fin n) ∧ 0 ≤ n ≤ y.
Proof.
  intros Hy Hlt Hr. unfold fmod. destruct y as [|y|y]; [lia| |lia].
  pose proof (Z.rem_bound_abs a (Z.pos y) ltac:(lia)) as Hb.
  pose proof (Z.rem_sign_nz a (Z.pos y)) as Hs.
  cbn [Z.ltb]. set (m := Z.rem a (Z.pos y)) in *.
  destruct (Z.eqb_spec m 0) as [->|Hm]; cbn [negb andb]; [exists 0; split; [done|lia]|].
  change (Z.pos y <? 0) with false. destruct (Z.ltb_spec m 0); cbn [Bool.eqb negb].
  - assert (0 ≤ rnd (m + Z.pos y) 1 ≤ Z.pos y).
    { apply rnd_between; auto with geotrack. lia. }
    exists (rnd (m + Z.pos y) 1). split; [|done]. f_equal. apply of_rounded_Fin. lia.
  - exists m. split; [done|lia].
Qed.
