(* ===== verification/Clock.v ===== *)
(** * Time (src/geotrack/clock.py)

    A [datetime] in UTC is its number of microseconds since the epoch; the wall
    clock itself ([time.time_ns], [datetime.now]) is an input of the definitions. *)
From S2P Require Import Prelude Floats.

Definition now_ms (time_ns : Z) : Z := time_ns / 1000000.

(** [datetime.timestamp]: the microseconds since the epoch divided by 10^6,
    correctly rounded. *)
Definition timestamp (moment : Z) : res float64 := int_truediv moment 1000000.

(** [datetime.fromtimestamp(x, tz=UTC)]: CPython splits off the integral seconds,
    scales the fraction to microseconds and rounds it half to even; years outside
    1..9999 raise. *)
Definition fromtimestamp (x : float64) : res Z :=
  match x with
  | Fin n =>
      let intpart := Z.quot n u in
      match fmul (Fin (n - intpart * u)) (flit 1000000) with
      | Fin m =>
          let moment := intpart * 1000000 + round_half_even m u in
          if (-62135596800000000 <=? moment) && (moment <? 253402300800000000)
          then Ok moment else Raise (ValueError "year is out of range")
      | _ => Raise OverflowError
      end
  | Inf _ => Raise OverflowError
  | NaN => Raise (ValueError "cannot convert float NaN to integer")
  end.

Definition to_epoch_ms (moment : Z) : res Z :=
  let! s := timestamp moment in trunc (fmul s (flit 1000)).

Definition from_epoch_ms (value : Z) : res Z :=
  let! s := int_truediv value 1000 in fromtimestamp s.

(** ** The round trip *)

Module EpochRoundtrip.
Section roundtrip.
Variable ms : Z.
Hypothesis Hms : 2 ^ 40 < ms < 2 ^ 31 * 1000.

(** The seconds of [ms] as a float, in units of 2^-1074, and its last place. *)
Let S := rnd (ms * u) 1000.
Let w := 2 ^ 1052.

Lemma w_u : u = 4194304 * w.
Proof. unfold u, w. change 4194304 with (2 ^ 22). by rewrite <- Z.pow_add_r by lia. Qed.
Lemma w_pos : 0 < w.
Proof. unfold w. lia. Qed.

Lemma seconds_error : Z.abs (1000 * S - ms * u) ≤ 500 * w.
Proof.
  pose proof w_pos. pose proof w_u.
  assert (E : expo (ms * u) 1000 ≤ 1052).
  { rewrite expo_eq by lia. enough (Z.log2 (ms * u / 1000) < 1105) by lia.
    apply Z.log2_lt_pow2; [apply Z.div_str_pos; lia|].
    apply Z.div_lt_upper_bound; [lia|].
    replace (2 ^ 1105) with (2 ^ 31 * u) by (unfold u; by rewrite <- Z.pow_add_r by lia).
    nia. }
  pose proof (round_pos_error (ms * u) 1000 ltac:(lia) ltac:(lia)) as H1.
  assert (2 ^ expo (ms * u) 1000 ≤ w) by (apply Z.pow_le_mono_r; lia).
  unfold S, rnd. destruct (Z.ltb_spec (ms * u) 0); lia.
Qed.

Lemma seconds_bound : 0 < S < 2 ^ 31 * u.
Proof.
  pose proof seconds_error. pose proof w_pos. pose proof w_u. split; nia.
Qed.

Lemma truediv_seconds c :
  0 < c → int_truediv (c * ms) (c * 1000) = Ok (Fin S).
Proof.
  intros Hc. unfold int_truediv.
  destruct (Z.eqb_spec (c * 1000) 0); [lia|].
  rewrite Z.abs_eq, Z.sgn_pos by lia.
  replace (1 * (c * ms) * u) with (c * (ms * u)) by ring.
  rewrite rnd_scale by lia. fold S.
  rewrite of_rounded_Fin; [done|].
  pose proof seconds_bound as HS. rewrite Z.abs_eq by lia.
  transitivity (2 ^ 31 * u); [lia|].
  unfold u. rewrite <- Z.pow_add_r by lia. apply Z.pow_lt_mono_r; lia.
Qed.

(** Scaling the fraction of the seconds to microseconds loses next to nothing. *)
Lemma fraction_error f :
  0 ≤ f < u → ∃ m, fmul (Fin f) (flit 1000000) = Fin m ∧
                   Z.abs (m - f * 1000000) ≤ w.
Proof.
  intros Hf. pose proof w_pos. pose proof w_u. unfold fmul, flit.
  replace (f * (1000000 * u)) with (u * (f * 1000000)) by ring.
  rewrite rnd_scale_u.
  set (m := rnd (f * 1000000) 1).
  assert (Hm : Z.abs (m - f * 1000000) ≤ w).
  { assert (E : expo (f * 1000000) 1 ≤ 1052).
    { apply expo_lt_pow; [lia| |lia].
      replace (2 ^ (53 + 1052)) with (2 ^ 31 * u) by (unfold u; by rewrite <- Z.pow_add_r by lia).
      nia. }
    pose proof (round_pos_error (f * 1000000) 1 ltac:(lia) ltac:(lia)).
    assert (2 ^ expo (f * 1000000) 1 ≤ w) by (apply Z.pow_le_mono_r; lia).
    unfold m, rnd. destruct (Z.ltb_spec (f * 1000000) 0); lia. }
  exists m. split; [|done]. apply of_rounded_Fin.
  transitivity (2 ^ 31 * u); [nia|].
  unfold u. rewrite <- Z.pow_add_r by lia. apply Z.pow_lt_mono_r; lia.
Qed.

Lemma from_epoch_ms_exact : from_epoch_ms ms = Ok (ms * 1000).
Proof.
  unfold from_epoch_ms. rewrite <- (Z.mul_1_l ms), <- (Z.mul_1_l 1000) at 1.
  rewrite truediv_seconds by lia. cbn [bind fromtimestamp].
  pose proof seconds_bound as HS. pose proof seconds_error as HE.
  pose proof w_pos. pose proof w_u. pose proof u_pos.
  rewrite Z.quot_div_nonneg by lia.
  assert (0 ≤ S - S / u * u < u) as Hf
    by (pose proof (Z.mod_pos_bound S u ltac:(done)); rewrite Z.mod_eq in * by lia; lia).
  destruct (fraction_error _ Hf) as (m & -> & Hm). cbn zeta.
  assert (round_half_even m u = ms * 1000 - S / u * 1000000) as ->
    by (apply round_half_even_near; lia).
  replace (S / u * 1000000 + (ms * 1000 - S / u * 1000000)) with (ms * 1000) by lia.
  destruct (Z.leb_spec (-62135596800000000) (ms * 1000)); [|lia].
  destruct (Z.ltb_spec (ms * 1000) 253402300800000000); [done|lia].
Qed.

Lemma to_epoch_ms_exact : to_epoch_ms (ms * 1000) = Ok ms.
Proof.
  unfold to_epoch_ms, timestamp.
  replace 1000000 with (1000 * 1000) by done. rewrite (Z.mul_comm ms).
  rewrite truediv_seconds by lia. cbn [bind]. unfold fmul, flit.
  replace (S * (1000 * u)) with (u * (S * 1000)) by ring.
  rewrite rnd_scale_u.
  pose proof seconds_bound as HS. pose proof seconds_error as HE.
  pose proof w_pos. pose proof w_u. pose proof u_pos.
  assert (Hu : u = 2 ^ 1074) by done.
  assert (Hlog : expo (S * 1000) 1 = 1062).
  { rewrite expo_eq, Z.div_1_r by lia.
    assert (Z.log2 (S * 1000) = 1114) as ->; [|done].
    apply Z.log2_unique; [lia|].
    replace (2 ^ 1114) with (2 ^ 40 * u) by (rewrite Hu; by rewrite <- Z.pow_add_r by lia).
    replace (2 ^ Z.succ 1114) with (2 ^ 41 * u) by (rewrite Hu; by rewrite <- Z.pow_add_r by lia).
    lia. }
  assert (rnd (S * 1000) 1 = ms * u) as ->.
  { unfold rnd. destruct (Z.ltb_spec (S * 1000) 0); [lia|].
    unfold round_pos. rewrite Hlog.
    assert (H12 : 2 ^ 1062 = 1024 * w)
      by (unfold w; change 1024 with (2 ^ 10); by rewrite <- Z.pow_add_r by lia).
    rewrite (round_half_even_near _ _ (ms * 4096)); rewrite H12; lia. }
  rewrite of_rounded_Fin.
  - cbn [trunc]. rewrite Z.quot_mul by lia. done.
  - rewrite Z.abs_eq by lia. transitivity (2 ^ 41 * u); [lia|].
    rewrite Hu, <- Z.pow_add_r by lia. apply Z.pow_lt_mono_r; lia.
Qed.
End roundtrip.
End EpochRoundtrip.

(** A millisecond timestamp between 2004-11-03 and 2038-01-19 survives the trip
    through [datetime]. *)
Lemma epoch_ms_roundtrip ms :
  2 ^ 40 < ms < 2 ^ 31 * 1000 →
  (let! moment := from_epoch_ms ms in to_epoch_ms moment) = Ok ms.
Proof.
  intros H. rewrite EpochRoundtrip.from_epoch_ms_exact by done.
  by apply EpochRoundtrip.to_epoch_ms_exact.
Qed.

Lemma epoch_ms_roundtrip_witness :
  2 ^ 40 < 1700000000123 < 2 ^ 31 * 1000 ∧
  (let! moment := from_epoch_ms 1700000000123 in to_epoch_ms moment) = Ok 1700000000123.
Proof. split; [lia|apply epoch_ms_roundtrip; lia]. Defined.

(** From 2038 on the truncation of the float product loses a millisecond: the trip
    through [datetime] is not the identity there. *)
Lemma epoch_ms_truncated_2038 :
  from_epoch_ms 2148347648002 = Ok 2148347648002000 ∧
  to_epoch_ms 2148347648002000 = Ok 2148347648001.
Proof. split; vm_compute; reflexivity. Qed.
