(* ===== verification/Geo.v ===== *)
(** * Bounding boxes (src/geotrack/geo.py) *)
From S2P Require Import Prelude Floats.

Record BBox := mkBBox { west : float64; south : float64; east : float64; north : float64 }.

#[export] Instance BBox_eq_dec : EqDecision BBox.
Proof. solve_decision. Defined.

(** [BBox.__post_init__]: the checks every construction goes through, in order. *)
Definition post_init (b : BBox) : res unit :=
  if negb (forallb isfinite [west b; south b; east b; north b])
  then Raise (ValueError "bbox values must be finite numbers")
  else if negb (fleb (flit (-180)) (west b) && fleb (west b) (flit 180)
                && (fleb (flit (-180)) (east b) && fleb (east b) (flit 180)))
  then Raise (ValueError "bbox longitudes must be within [-180, 180]")
  else if negb (fleb (flit (-90)) (south b) && fleb (south b) (flit 90)
                && (fleb (flit (-90)) (north b) && fleb (north b) (flit 90)))
  then Raise (ValueError "bbox latitudes must be within [-90, 90]")
  else if fltb (north b) (south b)
  then Raise (ValueError "bbox south must not be greater than north")
  else Ok tt.

(** [BBox(west=.., south=.., east=.., north=..)]. *)
Definition new_bbox (w s e n : float64) : res BBox :=
  let b := mkBBox w s e n in let! _ := post_init b in Ok b.

Definition crosses_antimeridian (b : BBox) : bool := fltb (east b) (west b).

Definition parts (b : BBox) : res (list BBox) :=
  if negb (crosses_antimeridian b) then Ok [b]
  else
    let! p1 := new_bbox (west b) (south b) (flit 180) (north b) in
    let! p2 := new_bbox (flit (-180)) (south b) (east b) (north b) in
    Ok [p1; p2].

Definition contains (b : BBox) (lat lon : float64) : bool :=
  if negb (fleb (south b) lat && fleb lat (north b)) then false
  else if crosses_antimeridian b then fleb (west b) lon || fleb lon (east b)
  else fleb (west b) lon && fleb lon (east b).

(** [str.split(sep)] with a one-character separator. *)
Fixpoint split_on (sep : Ascii.ascii) (s : string) : list string :=
  match s with
  | EmptyString => [EmptyString]
  | String c s' =>
      if decide (c = sep) then EmptyString :: split_on sep s'
      else match split_on sep s' with
           | w :: ws => String c w :: ws
           | [] => [String c EmptyString]
           end
  end.

Section parse.
(** [float(text)]: the number a text denotes, [None] when it denotes none. *)
Variable float_of_str : string → option float64.

Definition parse_number (p : string) : res float64 :=
  match float_of_str p with
  | Some x => Ok x
  | None => Raise (ValueError "bbox values must be numbers")
  end.

Definition bbox_parse (raw : string) : res BBox :=
  match split_on ","%char raw with
  | [pw; ps; pe; pn] =>
      let! w := parse_number pw in
      let! s := parse_number ps in
      let! e := parse_number pe in
      let! n := parse_number pn in
      new_bbox w s e n
  | _ => Raise (ValueError "bbox must have four comma-separated numbers: west,south,east,north")
  end.
End parse.

(** ** Lemmas *)

Lemma fleb_Fin a b : fleb (Fin a) (Fin b) = (a <=? b).
Proof. unfold fleb, Z.leb; cbn. by destruct (a ?= b). Qed.
Lemma fltb_Fin a b : fltb (Fin a) (Fin b) = (a <? b).
Proof. unfold fltb, Z.ltb; cbn. by destruct (a ?= b). Qed.

(** What a constructed box is: four finite numbers in range. *)
Record bbox_ok (b : BBox) (w s e n : Z) : Prop := {
  ok_eq : b = mkBBox (Fin w) (Fin s) (Fin e) (Fin n);
  ok_west : -180 * u ≤ w ≤ 180 * u;
  ok_east : -180 * u ≤ e ≤ 180 * u;
  ok_south : -90 * u ≤ s ≤ 90 * u;
  ok_north : -90 * u ≤ n ≤ 90 * u;
  ok_order : s ≤ n
}.

Lemma post_init_ok b : post_init b = Ok tt ↔ ∃ w s e n, bbox_ok b w s e n.
Proof.
  destruct b as [w s e n]. unfold post_init; cbn [west south east north forallb].
  split.
  - destruct w as [w| |], s as [s| |], e as [e| |], n as [n| |]; cbn -[fleb fltb flit]; try done.
    unfold flit. rewrite !fleb_Fin, fltb_Fin. intros H. exists w, s, e, n.
    repeat case_match; try done.
    constructor; [done|lia..].
  - intros (w' & s' & e' & n' & [[= -> -> -> ->] ? ? ? ? ?]); cbn -[fleb fltb flit].
    unfold flit. rewrite !fleb_Fin, fltb_Fin.
    repeat case_match; try done; lia.
Qed.

Lemma new_bbox_ok w s e n b :
  new_bbox w s e n = Ok b ↔ b = mkBBox w s e n ∧ post_init b = Ok tt.
Proof.
  unfold new_bbox. destruct (post_init (mkBBox w s e n)) as [[]|] eqn:E; cbn [bind]; split.
  - by intros [= <-].
  - by intros [-> _].
  - done.
  - intros [-> ?]. congruence.
Qed.

Lemma new_bbox_intro w s e n :
  bbox_ok (mkBBox (Fin w) (Fin s) (Fin e) (Fin n)) w s e n →
  new_bbox (Fin w) (Fin s) (Fin e) (Fin n) = Ok (mkBBox (Fin w) (Fin s) (Fin e) (Fin n)).
Proof. intros H. apply new_bbox_ok. split; [done|]. apply post_init_ok. eauto. Qed.

(** The split of a valid box, computed. *)
Lemma parts_ok b w s e n :
  bbox_ok b w s e n →
  parts b = Ok (if e <? w
                then [mkBBox (Fin w) (Fin s) (flit 180) (Fin n);
                      mkBBox (flit (-180)) (Fin s) (Fin e) (Fin n)]
                else [b]).
Proof.
  intros [-> ? ? ? ? ?]. unfold parts, crosses_antimeridian; cbn [east west south north].
  rewrite fltb_Fin. destruct (e <? w); cbn [negb]; [|done].
  pose proof u_pos. unfold flit.
  rewrite !new_bbox_intro by (constructor; [done|lia..]). done.
Qed.

Lemma half_ok b w s e n :
  bbox_ok b w s e n → w ≤ e → post_init b = Ok tt ∧ crosses_antimeridian b = false.
Proof.
  intros Hb Hle. split; [apply post_init_ok; eauto|].
  destruct Hb as [-> ? ? ? ? ?]. unfold crosses_antimeridian; cbn [east west]. rewrite fltb_Fin. lia.
Qed.

(** Splitting a box at the antimeridian keeps exactly its points, and neither half
    crosses the antimeridian. *)
Lemma parts_cover b lat lon :
  post_init b = Ok tt →
  fleb (flit (-180)) lon = true → fleb lon (flit 180) = true →
  ∃ ps, parts b = Ok ps ∧
        Forall (λ p, post_init p = Ok tt ∧ crosses_antimeridian p = false) ps ∧
        contains b lat lon = existsb (λ p, contains p lat lon) ps.
Proof.
  intros (w & s & e & n & Hb)%post_init_ok Hlo Hhi.
  pose proof (parts_ok b w s e n Hb) as Hp. destruct Hb as [-> ? ? ? ? ?].
  eexists; split; [exact Hp|]. pose proof u_pos.
  destruct lon as [lon| |]; [|by destruct negative|done].
  unfold flit in *. rewrite fleb_Fin in Hlo, Hhi.
  destruct (Z.ltb_spec e w) as [Hlt|Hge].
  - split.
    + repeat apply Forall_cons_2; [..|by apply Forall_nil];
        eapply half_ok; first [constructor; [done|lia..] | lia].
    + unfold contains, crosses_antimeridian; cbn -[fleb fltb].
      rewrite !fltb_Fin, !fleb_Fin.
      destruct (fleb (Fin s) lat && fleb lat (Fin n)); cbn [negb]; [|done].
      destruct (Z.ltb_spec e w), (Z.ltb_spec (180 * u) w), (Z.ltb_spec e (-180 * u)); lia.
  - split.
    + apply Forall_cons_2; [|by apply Forall_nil].
      eapply half_ok; first [constructor; [done|lia..] | lia].
    + cbn. by rewrite orb_false_r.
Qed.

(** A box over the Pacific, from 170 east to 170 west. *)
Definition pacific : BBox := mkBBox (flit 170) (flit (-10)) (flit (-170)) (flit 10).
