(* ===== verification/Grid.v ===== *)
(** * Cell maths for viewport filtering (src/geotrack/realtime/grid.py) *)
From S2P Require Import Prelude Floats Geo.

Definition Cell : Type := Z * Z.

Record CellRect := mkRect { min_x : Z; min_y : Z; max_x : Z; max_y : Z }.

Definition rect_contains (r : CellRect) (c : Cell) : bool :=
  let '(x, y) := c in
  (min_x r <=? x) && (x <=? max_x r) && ((min_y r <=? y) && (y <=? max_y r)).

Definition wrap_lon (lon : float64) : res float64 :=
  let! m := fmod (fadd lon (flit 180)) (flit 360) in Ok (fsub m (flit 180)).

Definition row_of (lat size_deg : float64) : res Z :=
  let! q := fdiv (fmin (fmax lat (flit (-90))) (flit 90)) size_deg in floor q.

Definition cell_of (lat lon size_deg : float64) : res Cell :=
  let! l := wrap_lon lon in
  let! q := fdiv l size_deg in
  let! x := floor q in
  let! y := row_of lat size_deg in
  Ok (x, y).

Definition column_of (lon size_deg : float64) : res Z :=
  if fleb (flit 180) lon
  then let! q := fdiv (nextafter (flit 180) (flit 0)) size_deg in floor q
  else let! l := wrap_lon lon in let! q := fdiv l size_deg in floor q.

Definition rect_of (part : BBox) (size_deg : float64) : res CellRect :=
  let! x0 := column_of (west part) size_deg in
  let! y0 := row_of (south part) size_deg in
  let! x1 := column_of (east part) size_deg in
  let! y1 := row_of (north part) size_deg in
  Ok (mkRect x0 y0 x1 y1).

Fixpoint rects_of (ps : list BBox) (size_deg : float64) : res (list CellRect) :=
  match ps with
  | [] => Ok []
  | p :: ps' => let! r := rect_of p size_deg in
                let! rs := rects_of ps' size_deg in Ok (r :: rs)
  end.

Definition rects_for (bbox : BBox) (size_deg : float64) : res (list CellRect) :=
  let! ps := parts bbox in rects_of ps size_deg.

Definition covers (rects : list CellRect) (c : Cell) : bool :=
  existsb (λ r, rect_contains r c) rects.

(** ** What the float computations come to *)

Section columns.
(** The cell size, in units of 2^-1074: large enough that a coordinate divided by
    it stays finite (2^60 units is about 6e-306 degrees). *)
Variable sz : Z.
Hypothesis Hsz : 2 ^ 60 ≤ sz.

Definition quot_floor (x : Z) : Z := rnd (x * u) sz / u.

Lemma quot_floor_mono x y : x ≤ y → quot_floor x ≤ quot_floor y.
Proof.
  intros H. pose proof u_pos. apply Z.div_le_mono; [done|].
  apply rnd_mono; nia.
Qed.

Lemma round_pos_small a : 0 ≤ a ≤ 180 * u * u → round_pos a sz < 2 ^ 2098.
Proof.
  intros Ha. pose proof u_pos. eapply Z.le_lt_trans; [apply round_pos_le_pow; lia|].
  apply Z.pow_lt_mono_r; [lia..|]. rewrite expo_eq by lia.
  enough (a / sz < 2 ^ 2097) as Hlt.
  { destruct (decide (a / sz = 0)) as [->|]; [cbn; lia|].
    pose proof (Z.div_pos a sz ltac:(lia) ltac:(lia)).
    apply Z.log2_lt_pow2 in Hlt; lia. }
  apply Z.div_lt_upper_bound; [lia|]. eapply Z.le_lt_trans; [apply Ha|].
  apply Z.lt_le_trans with (2 ^ 60 * 2 ^ 2097); [|apply Z.mul_le_mono_nonneg_r; lia].
  vm_compute; done.
Qed.

Lemma div_floor x :
  -180 * u ≤ x ≤ 180 * u →
  (let! q := fdiv (Fin x) (Fin sz) in floor q) = Ok (quot_floor x).
Proof.
  intros Hx. pose proof u_pos.
  assert (fdiv (Fin x) (Fin sz) = Ok (of_rounded (rnd (x * u) sz))) as ->.
  { unfold fdiv. rewrite Z.abs_eq by lia. clear - Hsz.
    destruct sz; [lia| |lia]. cbn [Z.sgn]. by rewrite Z.mul_1_l. }
  cbn [bind]. rewrite of_rounded_Fin; [done|].
  unfold rnd. destruct (Z.ltb_spec (x * u) 0).
  - pose proof (round_pos_small (- (x * u)) ltac:(nia)).
    pose proof (round_pos_nonneg (- (x * u)) sz ltac:(lia) ltac:(lia)). lia.
  - pose proof (round_pos_small (x * u) ltac:(nia)).
    pose proof (round_pos_nonneg (x * u) sz ltac:(lia) ltac:(lia)). lia.
Qed.
End columns.

(** [wrap_lon] on a longitude that does not reach the antimeridian after rounding. *)
Definition wrapped (x : Z) : Z := rnd (rnd (x + 180 * u) 1 - 180 * u) 1.

Lemma rnd_lit k : Z.abs k < 2 ^ 53 → rnd (k * u) 1 = k * u.
Proof. intros Hk. apply (rnd_exact k 1074); [done|lia]. Qed.

Lemma wrapped_mono x y : x ≤ y → wrapped x ≤ wrapped y.
Proof.
  intros H. pose proof (rnd_mono (x + 180 * u) (y + 180 * u) 1 ltac:(lia) ltac:(lia)).
  apply rnd_mono; lia.
Qed.

Lemma wrapped_west : wrapped (-180 * u) = -180 * u.
Proof. vm_compute; done. Qed.

(** Below 360 the next binary64 number is 2^-44 away. *)
Lemma below_360 p : 0 ≤ p → rnd p 1 < 360 * u → rnd p 1 ≤ 360 * u - 2 ^ 1030.
Proof.
  intros Hp Hlt. destruct (Z.le_gt_cases (2 ^ 1082) p) as [Hbig|Hsmall].
  - unfold rnd in *. destruct (Z.ltb_spec p 0); [lia|]. unfold round_pos in *.
    assert (He : 1030 ≤ expo p 1).
    { rewrite expo_eq, Z.div_1_r by lia. apply Z.log2_le_pow2 in Hbig; lia. }
    set (k := round_half_even p (1 * 2 ^ expo p 1)) in *. set (e := expo p 1) in *.
    replace (2 ^ e) with (2 ^ (e - 1030) * 2 ^ 1030) in *
      by (rewrite <- Z.pow_add_r by lia; f_equal; lia).
    assert (Hu : 360 * u = 360 * 2 ^ 44 * 2 ^ 1030) by (vm_compute; done).
    assert (0 < 2 ^ 1030) by lia. set (g := 2 ^ 1030) in *. clearbody g.
    rewrite Hu in *. rewrite Z.mul_assoc in *. set (j := k * 2 ^ (e - 1030)) in *.
    apply Z.mul_lt_mono_pos_r in Hlt; [|done].
    replace (360 * 2 ^ 44 * g - g) with ((360 * 2 ^ 44 - 1) * g) by ring.
    apply Z.mul_le_mono_nonneg_r; lia.
  - transitivity (rnd (2 ^ 1082) 1); [apply rnd_mono; lia|]. vm_compute; done.
Qed.

Lemma wrap_lon_Fin x :
  -180 * u ≤ x ≤ 180 * u → rnd (x + 180 * u) 1 < 360 * u →
  wrap_lon (Fin x) = Ok (Fin (wrapped x)) ∧ -180 * u ≤ wrapped x ≤ 180 * u - 2 ^ 1030.
Proof.
  intros Hx Hlt. pose proof u_pos.
  assert (Hbig : 360 * u < 2 ^ 2098) by (vm_compute; done).
  assert (0 ≤ rnd (x + 180 * u) 1)
    by (transitivity (rnd 0 1); [by vm_compute|apply rnd_mono; lia]).
  pose proof (below_360 (x + 180 * u) ltac:(lia) Hlt).
  assert (Hb : -180 * u ≤ wrapped x ≤ 180 * u - 2 ^ 1030).
  { split.
    - rewrite <- wrapped_west. apply wrapped_mono; lia.
    - transitivity (rnd (180 * u - 2 ^ 1030) 1); [apply rnd_mono; lia|]. by vm_compute. }
  split; [|done]. unfold wrap_lon, fadd, flit.
  rewrite (of_rounded_Fin (rnd (x + 180 * u) 1)) by lia.
  unfold fmod. destruct (360 * u) as [|p|p] eqn:E; [lia| |lia]. rewrite <- E in *.
  rewrite Z.rem_small by lia.
  replace (Bool.eqb (360 * u <? 0) (rnd (x + 180 * u) 1 <? 0)) with true
    by (destruct (Z.ltb_spec (360 * u) 0), (Z.ltb_spec (rnd (x + 180 * u) 1) 0); done || lia).
  rewrite andb_false_r. cbn [bind]. unfold fsub, fneg, fadd. fold (wrapped x).
  rewrite of_rounded_Fin; [done|]. change (rnd (rnd (x + 180 * u) 1 + - (180 * u)) 1) with (wrapped x).
  pose proof (Z.pow_pos_nonneg 2 1030 ltac:(lia) ltac:(lia)). lia.
Qed.

(** The longitude whose column [column_of] takes for a viewport edge. *)
Definition edge (x : Z) : Z :=
  if 180 * u <=? x then 180 * u - 2 ^ 1029
  else if rnd (x + 180 * u) 1 <? 360 * u then wrapped x else -180 * u.

Lemma nextafter_180 : nextafter (flit 180) (flit 0) = Fin (180 * u - 2 ^ 1029).
Proof. vm_compute; done. Qed.

Lemma rnd_le_360 x : x ≤ 180 * u → rnd (x + 180 * u) 1 ≤ 360 * u.
Proof.
  intros Hx. transitivity (rnd (360 * u) 1); [apply rnd_mono; lia|].
  by rewrite rnd_lit.
Qed.

Lemma column_of_Fin sz x :
  2 ^ 60 ≤ sz → -180 * u ≤ x ≤ 180 * u →
  column_of (Fin x) (Fin sz) = Ok (quot_floor sz (edge x)).
Proof.
  intros Hsz Hx. pose proof u_pos. pose proof (rnd_le_360 x ltac:(lia)).
  assert (0 < 2 ^ 1030 ∧ 2 ^ 1029 < u) as [? ?] by (vm_compute; done).
  unfold column_of, edge. rewrite nextafter_180. unfold flit; rewrite fleb_Fin.
  destruct (Z.leb_spec (180 * u) x); [apply div_floor; lia|].
  destruct (Z.ltb_spec (rnd (x + 180 * u) 1) (360 * u)).
  - destruct (wrap_lon_Fin x Hx) as [-> ?]; [done|]. cbn [bind]. apply div_floor; lia.
  - assert (wrap_lon (Fin x) = Ok (Fin (-180 * u))) as ->.
    { unfold wrap_lon, fadd, flit. replace (rnd (x + 180 * u) 1) with (360 * u) by lia.
      vm_compute; done. }
    cbn [bind]. apply div_floor; lia.
Qed.

Lemma row_of_Fin sz y :
  2 ^ 60 ≤ sz → -90 * u ≤ y ≤ 90 * u → row_of (Fin y) (Fin sz) = Ok (quot_floor sz y).
Proof.
  intros Hsz Hy. unfold row_of, fmin, fmax, flit. rewrite !fltb_Fin.
  pose proof u_pos.
  destruct (Z.ltb_spec y (-90 * u)); [lia|]. rewrite fltb_Fin.
  destruct (Z.ltb_spec (90 * u) y); [lia|]. apply div_floor; lia.
Qed.

Lemma cell_of_Fin sz y x :
  2 ^ 60 ≤ sz → -90 * u ≤ y ≤ 90 * u → -180 * u ≤ x ≤ 180 * u →
  rnd (x + 180 * u) 1 < 360 * u →
  cell_of (Fin y) (Fin x) (Fin sz) = Ok (quot_floor sz (wrapped x), quot_floor sz y).
Proof.
  intros Hsz Hy Hx Hlt. unfold cell_of.
  assert (0 < 2 ^ 1030) by lia.
  destruct (wrap_lon_Fin x Hx Hlt) as [-> ?]. cbn [bind].
  pose proof (div_floor sz Hsz (wrapped x) ltac:(lia)) as Hd.
  destruct (fdiv (Fin (wrapped x)) (Fin sz)) as [q|]; cbn [bind] in *; [|done].
  rewrite Hd; cbn [bind]. by rewrite row_of_Fin.
Qed.

(** Every position on the globe has a cell. *)
Lemma cell_of_total sz y x :
  2 ^ 60 ≤ sz → -90 * u ≤ y ≤ 90 * u → -180 * u ≤ x ≤ 180 * u →
  ∃ c, cell_of (Fin y) (Fin x) (Fin sz) = Ok c.
Proof.
  intros Hsz Hy Hx. destruct (Z.lt_ge_cases (rnd (x + 180 * u) 1) (360 * u)) as [Hlt|Hge].
  { eexists. by apply cell_of_Fin. }
  pose proof (rnd_le_360 x ltac:(lia)). pose proof u_pos.
  assert (wrap_lon (Fin x) = Ok (Fin (-180 * u))) as Hw.
  { unfold wrap_lon, fadd, flit. replace (rnd (x + 180 * u) 1) with (360 * u) by lia. vm_compute; done. }
  unfold cell_of. rewrite Hw. cbn [bind].
  pose proof (div_floor sz Hsz (-180 * u) ltac:(lia)) as Hd.
  destruct (fdiv (Fin (-180 * u)) (Fin sz)) as [q|]; cbn [bind] in *; [|done].
  rewrite Hd. cbn [bind]. rewrite row_of_Fin by done. by eexists.
Qed.

Lemma rect_of_Fin sz w s e n :
  2 ^ 60 ≤ sz → -180 * u ≤ w ≤ 180 * u → -180 * u ≤ e ≤ 180 * u →
  -90 * u ≤ s ≤ 90 * u → -90 * u ≤ n ≤ 90 * u →
  rect_of (mkBBox (Fin w) (Fin s) (Fin e) (Fin n)) (Fin sz) =
  Ok (mkRect (quot_floor sz (edge w)) (quot_floor sz s)
             (quot_floor sz (edge e)) (quot_floor sz n)).
Proof.
  intros. unfold rect_of; cbn [west south east north].
  by rewrite !column_of_Fin, !row_of_Fin by lia.
Qed.

(** The column of a position is never left of the column of a western edge, nor right
    of that of an eastern one. *)
Lemma edge_west sz w x :
  2 ^ 60 ≤ sz → -180 * u ≤ w ≤ x → x ≤ 180 * u → rnd (x + 180 * u) 1 < 360 * u →
  quot_floor sz (edge w) ≤ quot_floor sz (wrapped x).
Proof.
  intros Hsz Hw Hx Hlt. apply quot_floor_mono; [done|]. unfold edge.
  pose proof (rnd_mono (w + 180 * u) (x + 180 * u) 1 ltac:(lia) ltac:(lia)).
  assert (x ≠ 180 * u).
  { intros ->. replace (180 * u + 180 * u) with (360 * u) in Hlt by lia.
    rewrite rnd_lit in Hlt; lia. }
  destruct (Z.leb_spec (180 * u) w); [lia|].
  destruct (Z.ltb_spec (rnd (w + 180 * u) 1) (360 * u)); [|lia].
  apply wrapped_mono; lia.
Qed.

Lemma edge_east sz x e :
  2 ^ 60 ≤ sz → -180 * u ≤ x ≤ e → e ≤ 180 * u → rnd (x + 180 * u) 1 < 360 * u →
  e = 180 * u ∨ rnd (e + 180 * u) 1 < 360 * u →
  quot_floor sz (wrapped x) ≤ quot_floor sz (edge e).
Proof.
  intros Hsz Hx He Hlt Hedge. apply quot_floor_mono; [done|]. unfold edge.
  destruct (wrap_lon_Fin x ltac:(lia) Hlt) as [_ Hb].
  assert (2 ^ 1029 ≤ 2 ^ 1030) by (apply Z.pow_le_mono_r; lia).
  destruct (Z.leb_spec (180 * u) e); [lia|].
  destruct (Z.ltb_spec (rnd (e + 180 * u) 1) (360 * u)); [|lia].
  apply wrapped_mono; lia.
Qed.

(** [x + 180.0 < 360.0] as the code's floats compute it. *)
Definition stays_west_of_180 (lon : float64) : bool := fltb (fadd lon (flit 180)) (flit 360).

Lemma stays_west_Fin x :
  -180 * u ≤ x ≤ 180 * u →
  stays_west_of_180 (Fin x) = true ↔ rnd (x + 180 * u) 1 < 360 * u.
Proof.
  intros Hx. unfold stays_west_of_180, fadd, flit. pose proof (rnd_le_360 x ltac:(lia)).
  pose proof (rnd_mono 0 (x + 180 * u) 1 ltac:(lia) ltac:(lia)) as H0.
  replace (rnd 0 1) with 0 in H0 by (by vm_compute).
  assert (360 * u < 2 ^ 2098) by (vm_compute; done).
  rewrite of_rounded_Fin, fltb_Fin by lia. lia.
Qed.

Lemma rect_contains_intro x0 y0 x1 y1 x y :
  x0 ≤ x ≤ x1 → y0 ≤ y ≤ y1 → rect_contains (mkRect x0 y0 x1 y1) (x, y) = true.
Proof. intros. unfold rect_contains; cbn. lia. Qed.

(** C34: A position inside a viewport is in a cell the viewport covers, across the
    antimeridian too, in binary64 arithmetic, so that no device the client should see is
    filtered out. It holds for every device whose longitude plus 180.0 is computed below
    360.0, every viewport whose east edge is exactly 180.0 or has that property too, and
    every cell size of at least 2^60 units of 2^-1074 (about 6e-306 degrees). The side
    conditions exclude a device at 180.0 (or at the last number below it) and an east edge
    at the last number below 180.0, which the code's float arithmetic wraps to -180;
    [antimeridian_edge_lost] shows that those are really lost. *)
Theorem viewport_covers b lat lon sz :
  post_init b = Ok tt → 2 ^ 60 ≤ sz →
  fleb (flit (-180)) lon = true → fleb lon (flit 180) = true →
  contains b lat lon = true →
  stays_west_of_180 lon = true →
  east b = flit 180 ∨ stays_west_of_180 (east b) = true →
  ∃ rects c, rects_for b (Fin sz) = Ok rects ∧ cell_of lat lon (Fin sz) = Ok c ∧
             covers rects c = true.
Proof.
  intros (w & s & e & n & Hb)%post_init_ok Hsz Hlo Hhi Hin Hlon Heast.
  pose proof (parts_ok b w s e n Hb) as Hparts. destruct Hb as [-> ? ? ? ? ?].
  cbn [east] in Heast. unfold contains, crosses_antimeridian in Hin.
  cbn [south north west east] in Hin. pose proof u_pos.
  destruct lon as [x| |]; [|by destruct negative|done].
  destruct lat as [y| |]; [|destruct negative; done|done].
  unfold flit in Hlo, Hhi. rewrite !fleb_Fin in *. rewrite fltb_Fin in Hin.
  apply stays_west_Fin in Hlon; [|lia].
  assert (Heast' : e = 180 * u ∨ rnd (e + 180 * u) 1 < 360 * u).
  { destruct Heast as [[= ->]|Hst]; [by left|right]. apply stays_west_Fin in Hst; [done|lia]. }
  destruct (Z.leb_spec s y), (Z.leb_spec y n); cbn in Hin; try done.
  unfold rects_for. rewrite Hparts. cbn [bind]. rewrite cell_of_Fin by lia.
  assert (quot_floor sz s ≤ quot_floor sz y ≤ quot_floor sz n)
    by (split; apply quot_floor_mono; lia).
  destruct (Z.ltb_spec e w); unfold flit; cbn [rects_of]; rewrite !rect_of_Fin by lia; cbn [bind];
    eexists _, _; (split; [done|]); (split; [done|]); cbn [covers existsb].
  - apply orb_true_iff in Hin as [Hw|He].
    + rewrite rect_contains_intro; [done| |lia].
      split; [apply edge_west; lia|apply edge_east; auto with lia].
    + apply orb_true_iff; right. apply orb_true_iff; left.
      apply rect_contains_intro; [|lia].
      split; [apply edge_west; lia|apply edge_east; auto with lia].
  - apply orb_true_iff; left. apply rect_contains_intro; [|lia].
    split; [apply edge_west; lia|apply edge_east; auto with lia].
Qed.

Lemma viewport_covers_witness :
  contains pacific (flit 0) (flit 175) = true ∧
  ∃ rects c, rects_for pacific (Fin (rnd (5 * u) 100)) = Ok rects ∧
             cell_of (flit 0) (flit 175) (Fin (rnd (5 * u) 100)) = Ok c ∧ covers rects c = true.
Proof.
  split; [vm_compute; reflexivity|].
  apply (viewport_covers pacific (flit 0) (flit 175) (rnd (5 * u) 100));
    [vm_compute; reflexivity|vm_compute; discriminate|vm_compute; reflexivity..|].
  right. vm_compute; reflexivity.
Defined.

(** The excluded cases are real: a device at 180.0 lies in the box from 170 to 180 but
    outside its cells, and a viewport whose eastern edge is the last binary64 number
    below 180 covers none of the cells it should. *)
Lemma antimeridian_edge_lost :
  let size := Fin (rnd (5 * u) 100) in
  let b1 := mkBBox (flit 170) (flit 0) (flit 180) (flit 10) in
  let b2 := mkBBox (flit 170) (flit 0) (nextafter (flit 180) (flit 0)) (flit 10) in
  post_init b1 = Ok tt ∧ contains b1 (flit 5) (flit 180) = true ∧
  (let! rects := rects_for b1 size in let! c := cell_of (flit 5) (flit 180) size in
   Ok (covers rects c)) = Ok false ∧
  post_init b2 = Ok tt ∧ contains b2 (flit 5) (flit 175) = true ∧
  (let! rects := rects_for b2 size in let! c := cell_of (flit 5) (flit 175) size in
   Ok (covers rects c)) = Ok false.
Proof. vm_compute. repeat split. Qed.
