(* ===== verification/Text.v ===== *)
(** * Text and bytes

    A Python [str] is held by its UTF-8 bytes and a [bytes] by its bytes, both as
    [string]; this file has the operations of the two types the code uses. *)
From S2P Require Import Prelude.

Definition code (c : ascii) : Z := Z.of_N (N_of_ascii c).

Fixpoint chars (s : string) : list ascii :=
  match s with EmptyString => [] | String c s' => c :: chars s' end.
Fixpoint of_chars (l : list ascii) : string :=
  match l with [] => EmptyString | c :: l' => String c (of_chars l') end.

(** [sep.join(parts)]. *)
Fixpoint join (sep : string) (parts : list string) : string :=
  match parts with
  | [] => ""
  | [p] => p
  | p :: ps => p +:+ sep +:+ join sep ps
  end.

(** [s.startswith(p)]; [drop_prefix] also returns what follows. *)
Fixpoint drop_prefix (p s : string) : option string :=
  match p, s with
  | EmptyString, _ => Some s
  | String a p', String b s' => if decide (a = b) then drop_prefix p' s' else None
  | String _ _, EmptyString => None
  end.
Definition startswith (p s : string) : bool := bool_decide (is_Some (drop_prefix p s)).

(** [needle in s]. *)
Fixpoint contains (needle s : string) : bool :=
  startswith needle s || match s with String _ s' => contains needle s' | "" => false end.

(** [s.rsplit(sep, 1)[1]] when [sep] occurs: what follows the last one. *)
Fixpoint after_last (sep : ascii) (s : string) : option string :=
  match s with
  | EmptyString => None
  | String c s' =>
      match after_last sep s' with
      | Some r => Some r
      | None => if decide (c = sep) then Some s' else None
      end
  end.

(** A character of a range of codes. *)
Definition between (lo hi : Z) (c : ascii) : bool := (lo <=? code c) && (code c <=? hi).

(** [s.strip()] of the ASCII white space, and [s.strip(c)]. *)
Definition is_space (c : ascii) : bool := (code c =? 32) || between 9 13 c.
Definition py_space (c : ascii) : bool := is_space c || between 28 31 c.
Fixpoint drop_leading (p : ascii → bool) (l : list ascii) : list ascii :=
  match l with c :: l' => if p c then drop_leading p l' else l | [] => [] end.
Definition strip (p : ascii → bool) (s : string) : string :=
  of_chars (rev (drop_leading p (rev (drop_leading p (chars s))))).

(** [s.lower()] of the ASCII letters. *)
Definition lower_char (c : ascii) : ascii :=
  if between 65 90 c then ascii_of_N (Z.to_N (code c + 32)) else c.
Fixpoint lower (s : string) : string :=
  match s with "" => "" | String c s' => String (lower_char c) (lower s') end.

(** ** UTF-8

    The well-formed byte sequences of the Unicode standard (table 3-7): what
    [bytes.decode()] accepts. *)
Definition cont (c : ascii) : bool := between 128 191 c.

Fixpoint utf8_valid (s : string) : bool :=
  match s with
  | EmptyString => true
  | String c1 s1 =>
      if between 0 127 c1 then utf8_valid s1
      else match s1 with
      | EmptyString => false
      | String c2 s2 =>
          if between 194 223 c1 then cont c2 && utf8_valid s2
          else match s2 with
          | EmptyString => false
          | String c3 s3 =>
              if between 224 239 c1 then
                (if code c1 =? 224 then between 160 191 c2
                 else if code c1 =? 237 then between 128 159 c2 else cont c2)
                && cont c3 && utf8_valid s3
              else match s3 with
              | EmptyString => false
              | String c4 s4 =>
                  between 240 244 c1 &&
                  (if code c1 =? 240 then between 144 191 c2
                   else if code c1 =? 244 then between 128 143 c2 else cont c2)
                  && cont c3 && cont c4 && utf8_valid s4
              end
          end
      end
  end.

Definition ascii_only (s : string) : bool := forallb (between 0 127) (chars s).

Lemma ascii_utf8 s : ascii_only s = true → utf8_valid s = true.
Proof.
  unfold ascii_only. induction s as [|c s IH]; [done|]; cbn [chars forallb].
  rewrite andb_true_iff. intros [Hc Hs]. cbn. rewrite Hc. by apply IH.
Qed.

(** ** Lemmas *)

Lemma string_cons_app c (a b : string) : String c a +:+ b = String c (a +:+ b).
Proof. done. Qed.
Lemma string_nil_app (b : string) : "" +:+ b = b.
Proof. done. Qed.
#[export] Hint Rewrite string_cons_app string_nil_app : geotrack.

Lemma string_app_assoc (a b c : string) : a +:+ b +:+ c = (a +:+ b) +:+ c.
Proof. induction a as [|x a IH]; [done|]. by rewrite !string_cons_app, IH. Qed.
Lemma string_app_nil_r (a : string) : a +:+ "" = a.
Proof. induction a as [|x a IH]; [done|]. by rewrite string_cons_app, IH. Qed.

Lemma string_app_inv_l (a b c : string) : a +:+ b = a +:+ c → b = c.
Proof. induction a as [|x a IH]; [done|]. rewrite !string_cons_app. intros [= ?]. auto. Qed.

Lemma join_cons sep p ps : ps ≠ [] → join sep (p :: ps) = p +:+ sep +:+ join sep ps.
Proof. by destruct ps. Qed.

(** Joining joined groups is joining the concatenation, as long as no group is empty. *)
Lemma join_groups sep (groups : list (list string)) :
  Forall (λ g, g ≠ []) groups → join sep (join sep <$> groups) = join sep (concat groups).
Proof.
  assert (Happ : ∀ a b : list string, a ≠ [] → b ≠ [] →
                   join sep (a ++ b) = join sep a +:+ sep +:+ join sep b).
  { intros a. induction a as [|x a IH]; [done|]. intros b _ Hb.
    destruct a as [|y a].
    - cbn [app]. by rewrite join_cons.
    - cbn [app]. rewrite (join_cons sep x (y :: a ++ b)), (join_cons sep x (y :: a)) by done.
      change (y :: a ++ b) with ((y :: a) ++ b). rewrite IH by done.
      by rewrite !string_app_assoc. }
  induction groups as [|g gs IH]; [done|]. intros [Hg Hgs]%Forall_cons.
  destruct gs as [|g' gs].
  - cbn. by rewrite app_nil_r.
  - rewrite fmap_cons, join_cons by done. rewrite IH by done. cbn [concat].
    rewrite (Happ g); [done..|]. apply Forall_cons in Hgs as [Hg' _].
    by destruct g'.
Qed.

Lemma after_last_none sep s : sep ∉ chars s → after_last sep s = None.
Proof.
  induction s as [|c s IH]; [done|]; cbn. intros Hn.
  rewrite IH by set_solver. case_decide; [set_solver|done].
Qed.
Lemma after_last_app sep (a b : string) :
  sep ∉ chars b → after_last sep (a +:+ String sep b) = Some b.
Proof.
  intros Hb. induction a as [|c a IH].
  - rewrite string_nil_app. cbn. rewrite after_last_none by done. by case_decide.
  - rewrite string_cons_app. cbn. by rewrite IH.
Qed.

Lemma chars_app a b : chars (a +:+ b) = chars a ++ chars b.
Proof. induction a as [|c a IH]; [done|]. rewrite string_cons_app. cbn. by rewrite IH. Qed.

Lemma drop_leading_id (p : ascii → bool) l : Forall (λ c, p c = false) l → drop_leading p l = l.
Proof. destruct 1 as [|c l Hc]; [done|]. cbn. by rewrite Hc. Qed.
Lemma of_chars_chars s : of_chars (chars s) = s.
Proof. induction s as [|c s IH]; [done|]. cbn. by rewrite IH. Qed.

Lemma strip_id p s : Forall (λ c, p c = false) (chars s) → strip p s = s.
Proof.
  intros Hs. unfold strip. rewrite (drop_leading_id p (chars s)) by done.
  rewrite drop_leading_id; [by rewrite rev_involutive, of_chars_chars|].
  apply Forall_forall. intros c Hc. rewrite list_elem_of_In, <- in_rev, <- list_elem_of_In in Hc.
  by eapply Forall_forall in Hs.
Qed.
