(* ===== verification/Json.v ===== *)
(** * JSON values and the interface of orjson

    [orjson] is a third-party package: the wire formats are written against the
    interface below, whose laws are its documented behaviour (compact output with
    no whitespace, decimal integers, and parsing inverse to printing). *)
From S2P Require Import Prelude Floats Text.

Inductive json :=
  | JNull
  | JBool (b : bool)
  | JInt (z : Z)
  | JFloat (x : float64)
  | JStr (s : string)
  | JArr (items : list json)
  | JObj (fields : list (string * json)).

(** What [orjson.dumps] renders without loss: finite floats, 64-bit integers, text
    that is valid UTF-8, objects without repeated keys. *)
Fixpoint dumpable (j : json) : bool :=
  match j with
  | JNull | JBool _ => true
  | JInt z => (- 2 ^ 63 <=? z) && (z <? 2 ^ 64)
  | JFloat x => isfinite x
  | JStr s => utf8_valid s
  | JArr l => forallb dumpable l
  | JObj l => bool_decide (NoDup l.*1) && forallb (λ kv, utf8_valid kv.1 && dumpable kv.2) l
  end.

Class Orjson := {
  dumps : json → string;
  loads : string → option json
}.

(** [orjson.loads(orjson.dumps(x)) == x]. *)
Class OrjsonRoundtrip `{Orjson} : Prop :=
  loads_dumps : ∀ j, dumpable j = true → loads (dumps j) = Some j.

(** The text of compound values, from the text of their parts. *)
Class OrjsonCompact `{Orjson} : Prop := {
  dumps_bool b : dumps (JBool b) = if b then "true" else "false";
  dumps_int z : dumps (JInt z) = pretty z;
  dumps_arr l : dumps (JArr l) = "[" +:+ join "," (dumps <$> l) +:+ "]";
  dumps_obj l : dumps (JObj l) =
    "{" +:+ join "," ((λ kv, dumps (JStr kv.1) +:+ ":" +:+ dumps kv.2) <$> l) +:+ "}";
  (* Keys and tags of the protocol: plain lower-case words and underscores. *)
  dumps_word s : forallb (λ c, between 97 122 c || (code c =? 95)) (chars s) = true →
    dumps (JStr s) = String "034" s +:+ String "034" ""
}.

(** [payload.get(key)] on a parsed object; parsed objects have no repeated keys. *)
Fixpoint assoc {A} (k : string) (l : list (string * A)) : option A :=
  match l with
  | [] => None
  | (k', v) :: l' => if decide (k' = k) then Some v else assoc k l'
  end.

(** ** Python conversions of a JSON value

    [bool] is a subclass of [int]: [isinstance(True, int)] holds. *)
Definition as_int (j : json) : option Z :=
  match j with JInt z => Some z | JBool b => Some (Z.b2z b) | _ => None end.

(** The exact value of an [int | float], for comparisons: Python compares an integer
    with a float exactly. *)
Definition as_number (j : json) : option float64 :=
  match j with
  | JInt z => Some (flit z)
  | JBool b => Some (flit (Z.b2z b))
  | JFloat x => Some x
  | _ => None
  end.

Section conversions.
(** [float(text)] and [int(text)], [None] for a text that is not a number. *)
Variable float_of_str : string → option float64.
Variable int_of_str : string → option Z.

Definition py_float (j : json) : res float64 :=
  match j with
  | JFloat x => Ok x
  | JInt z => float_of_int z
  | JBool b => Ok (flit (Z.b2z b))
  | JStr s => match float_of_str s with
              | Some x => Ok x
              | None => Raise (ValueError "could not convert string to float")
              end
  | _ => Raise TypeError
  end.

Definition py_int (j : json) : res Z :=
  match j with
  | JInt z => Ok z
  | JBool b => Ok (Z.b2z b)
  | JFloat x => trunc x
  | JStr s => match int_of_str s with
              | Some z => Ok z
              | None => Raise (ValueError "invalid literal for int()")
              end
  | _ => Raise TypeError
  end.
End conversions.

Lemma float_of_int_small k : Z.abs k < 2 ^ 53 → float_of_int k = Ok (flit k).
Proof.
  intros Hk. unfold float_of_int, flit. pose proof u_pos.
  pose proof (rnd_exact k 1074 Hk ltac:(lia)) as Hr. fold u in Hr. rewrite Hr.
  rewrite of_rounded_Fin; [done|]. rewrite Z.abs_mul, (Z.abs_eq u) by lia.
  transitivity (2 ^ 53 * u); [nia|]. unfold u. rewrite <- Z.pow_add_r by lia.
  apply Z.pow_lt_mono_r; lia.
Qed.
