(* ===== verification/JsonRef.v ===== *)
(** * A reference implementation of the orjson interface

    The laws the wire formats rely on ([OrjsonRoundtrip], [OrjsonCompact]) are
    hypotheses about a third-party package.  This file shows that they can be met
    together: a printer and a recursive-descent parser for compact JSON that satisfy
    both.  Numbers that are floats are written [<n>p], standing for [n * 2^-1074];
    everything else is ordinary JSON. *)
From S2P Require Import Prelude Floats Text Json.

Module Ref.

(** ** Printer *)

Definition quote : ascii := "034".
Definition backslash : ascii := "092".

Fixpoint escape (s : string) : string :=
  match s with
  | "" => ""
  | String c s' =>
      if decide (c = quote ∨ c = backslash) then String backslash (String c (escape s'))
      else String c (escape s')
  end.
Definition print_str (s : string) : string := String quote (escape s +:+ String quote "").

Fixpoint print (j : json) : string :=
  match j with
  | JNull => "null"
  | JBool b => if b then "true" else "false"
  | JInt z => pretty z
  | JFloat (Fin n) => pretty n +:+ "p"
  | JFloat _ => "null"
  | JStr s => print_str s
  | JArr l => "[" +:+ join "," (print <$> l) +:+ "]"
  | JObj l => "{" +:+ join "," ((λ kv, print_str kv.1 +:+ ":" +:+ print kv.2) <$> l) +:+ "}"
  end.

(** ** Parser *)

Definition digit (c : ascii) : option N :=
  if between 48 57 c then Some (N_of_ascii c - 48)%N else None.

Fixpoint digits (acc : N) (s : string) : N * string :=
  match s with
  | "" => (acc, s)
  | String c s' => match digit c with Some d => digits (10 * acc + d) s' | None => (acc, s) end
  end.

Definition number (s : string) : option (json * string) :=
  let negative := match s with String "-" _ => true | _ => false end in
  let s := match s with String "-" s' => s' | _ => s end in
  match s with
  | String c _ =>
      if digit c then
        let '(n, rest) := digits 0 s in
        let z := if negative then - Z.of_N n else Z.of_N n in
        match rest with
        | String "p" rest' => Some (JFloat (Fin z), rest')
        | _ => Some (JInt z, rest)
        end
      else None
  | "" => None
  end.

(** The text after an opening quote. *)
Fixpoint unescape (s : string) : option (string * string) :=
  match s with
  | "" => None
  | String c s' =>
      if decide (c = quote) then Some ("", s')
      else if decide (c = backslash) then
        match s' with
        | "" => None
        | String c' s'' => match unescape s'' with Some (t, r) => Some (String c' t, r) | None => None end
        end
      else match unescape s' with Some (t, r) => Some (String c t, r) | None => None end
  end.

Section sequences.
Context {A : Type} (p : string → option (A * string)) (close : ascii).

(** One or more values between commas, up to the closing bracket. *)
Fixpoint sequence (n : nat) (s : string) : option (list A * string) :=
  match n with
  | O => None
  | S n =>
      match p s with
      | Some (a, String c s') =>
          if decide (c = close) then Some ([a], s')
          else if decide (c = ","%char) then
            match sequence n s' with Some (l, r) => Some (a :: l, r) | None => None end
          else None
      | _ => None
      end
  end.

Definition bracketed (n : nat) (s : string) : option (list A * string) :=
  match s with
  | String c s' => if decide (c = close) then Some ([], s') else sequence n s
  | "" => None
  end.
End sequences.

Definition member (p : string → option (json * string)) (s : string) : option ((string * json) * string) :=
  match s with
  | String c s1 =>
      if decide (c = quote) then
        match unescape s1 with
        | Some (k, String ":" s2) =>
            match p s2 with Some (v, r) => Some ((k, v), r) | None => None end
        | _ => None
        end
      else None
  | "" => None
  end.

Fixpoint value (n : nat) (s : string) : option (json * string) :=
  match n with
  | O => None
  | S n =>
      match s with
      | String "n" _ => match drop_prefix "null" s with Some r => Some (JNull, r) | None => None end
      | String "t" _ => match drop_prefix "true" s with Some r => Some (JBool true, r) | None => None end
      | String "f" _ => match drop_prefix "false" s with Some r => Some (JBool false, r) | None => None end
      | String "[" s' =>
          match bracketed (value n) "]" n s' with Some (l, r) => Some (JArr l, r) | None => None end
      | String "{" s' =>
          match bracketed (member (value n)) "}" n s' with Some (l, r) => Some (JObj l, r) | None => None end
      | String c s' =>
          if decide (c = quote) then
            match unescape s' with Some (t, r) => Some (JStr t, r) | None => None end
          else number s
      | "" => None
      end
  end.

Definition parse (s : string) : option json :=
  match value (String.length s) s with Some (j, "") => Some j | _ => None end.

(** ** Strings *)

Lemma unescape_escape s rest : unescape (escape s +:+ String quote rest) = Some (s, rest).
Proof.
  induction s as [|c s IH]; [done|]. cbn [escape]. case_decide as Hc.
  - rewrite !string_cons_app. cbn. by rewrite IH.
  - rewrite string_cons_app. cbn. rewrite !decide_False by tauto. by rewrite IH.
Qed.

Lemma escape_plain s :
  forallb (λ c, between 97 122 c || (code c =? 95)) (chars s) = true → escape s = s.
Proof.
  induction s as [|c s IH]; [done|]. cbn [chars forallb escape]. rewrite andb_true_iff. intros [Hc Hs].
  rewrite decide_False; [by rewrite IH|]. by intros [-> | ->].
Qed.

(** ** Numbers *)

Lemma digit_char d : (d < 10)%N → digit (pretty_N_char d) = Some d.
Proof.
  intros Hd. assert (Hin : d ∈ [0;1;2;3;4;5;6;7;8;9]%N) by (rewrite !elem_of_cons; lia).
  revert Hin. clear. rewrite !elem_of_cons. intros Hd.
  repeat destruct Hd as [->|Hd]; try reflexivity. by apply elem_of_nil in Hd.
Qed.

Lemma digits_pretty x s : digits 0 (pretty_N_go x s) = digits x s.
Proof.
  revert s. induction (N.lt_wf_0 x) as [x _ IH]; intros s.
  destruct (decide (x = 0%N)) as [->|Hx]; [done|].
  rewrite pretty_N_go_step by lia. rewrite IH by (apply N.div_lt; lia). cbn [digits].
  rewrite digit_char by (apply N.mod_lt; lia). f_equal. symmetry. apply N.div_mod. lia.
Qed.
Lemma pretty_go_app x s t : pretty_N_go x s +:+ t = pretty_N_go x (s +:+ t).
Proof.
  revert s. induction (N.lt_wf_0 x) as [x _ IH]; intros s.
  destruct (decide (x = 0%N)) as [->|Hx]; [done|].
  rewrite !(pretty_N_go_step x) by lia. rewrite IH by (apply N.div_lt; lia). done.
Qed.

Definition starts_digit (s : string) : Prop := ∃ c r d, s = String c r ∧ digit c = Some d.

Lemma pretty_go_starts x s : x ≠ 0%N ∨ starts_digit s → starts_digit (pretty_N_go x s).
Proof.
  revert s. induction (N.lt_wf_0 x) as [x _ IH]; intros s Hs.
  destruct (decide (x = 0%N)) as [->|Hx]; [by destruct Hs|].
  rewrite pretty_N_go_step by lia. apply IH; [apply N.div_lt; lia|]. right.
  eexists _, _, (x mod 10)%N. split; [done|]. apply digit_char, N.mod_lt. lia.
Qed.

(** What may follow a value: nothing a number could swallow. *)
Definition stops (rest : string) : Prop :=
  match rest with "" => True | String c _ => digit c = None ∧ c ≠ "p"%char end.

Lemma digits_stop x rest : stops rest → digits x rest = (x, rest).
Proof. destruct rest as [|c r]; [done|]. intros [Hc _]. cbn. by rewrite Hc. Qed.

Lemma pretty_N_text n rest :
  starts_digit (pretty n +:+ rest) ∧ digits 0 (pretty n +:+ rest) = digits n rest.
Proof.
  unfold pretty, pretty_N. case_decide as Hn.
  - subst n. split; [|done]. by exists "0"%char, rest, 0%N.
  - rewrite pretty_go_app. split; [apply pretty_go_starts; auto|apply digits_pretty].
Qed.

Lemma pretty_Z_text z :
  pretty z = (if z <? 0 then "-" else "") +:+ pretty (Z.abs_N z).
Proof. by destruct z. Qed.

(** A printed integer followed by [rest], up to the float marker. *)
Lemma number_text z rest :
  number (pretty z +:+ rest) =
    let '(n, r) := digits (Z.abs_N z) rest in
    let z' := if z <? 0 then - Z.of_N n else Z.of_N n in
    match r with
    | String "p" r' => Some (JFloat (Fin z'), r')
    | _ => Some (JInt z', r)
    end.
Proof.
  destruct (pretty_N_text (Z.abs_N z) rest) as [(c & r & d & E & Hd) Hdig].
  rewrite pretty_Z_text, <- string_app_assoc. destruct (z <? 0) eqn:Hz.
  - rewrite string_cons_app, string_nil_app. unfold number. rewrite <- Hdig, E, Hd. done.
  - rewrite string_nil_app. unfold number. rewrite <- Hdig, E.
    destruct (decide (c = "-"%char)) as [->|Hc]; [done|].
    assert ((match String c r with String "-" _ => true | _ => false end) = false ∧
            (match String c r with String "-" s' => s' | _ => String c r end) = String c r) as [-> ->].
    { destruct c as [[] [] [] [] [] [] [] []]; done. }
    by rewrite Hd.
Qed.

Lemma abs_N_sign z : (if z <? 0 then - Z.of_N (Z.abs_N z) else Z.of_N (Z.abs_N z)) = z.
Proof. by destruct z. Qed.

Lemma number_int z rest : stops rest → number (pretty z +:+ rest) = Some (JInt z, rest).
Proof.
  intros Hr. rewrite number_text, digits_stop by done. rewrite abs_N_sign.
  destruct rest as [|c r]; [done|]. destruct Hr as [_ Hc].
  destruct c as [[] [] [] [] [] [] [] []]; done.
Qed.
Lemma number_float n rest : number (pretty n +:+ "p" +:+ rest) = Some (JFloat (Fin n), rest).
Proof.
  rewrite number_text, string_cons_app, string_nil_app. cbn [digits].  
  change (digit "p") with (@None N). cbn iota. by rewrite abs_N_sign.
Qed.

(** The first character of a number is a sign or a digit, so [value] reads one. *)
Lemma value_number n (z : Z) rest :
  value (S n) (pretty z +:+ rest) = number (pretty z +:+ rest).
Proof.
  destruct (pretty_N_text (Z.abs_N z) rest) as [(c & r & d & E & Hd) _].
  rewrite pretty_Z_text, <- string_app_assoc. destruct (z <? 0).
  - rewrite string_cons_app, string_nil_app. done.
  - rewrite string_nil_app, E.
    destruct c as [[] [] [] [] [] [] [] []]; try done; by (cbv in Hd; simplify_eq).
Qed.

(** ** Values *)

Fixpoint jsize (j : json) : nat :=
  match j with
  | JArr l => S (sum_list_with jsize l)
  | JObj l => S (sum_list_with (λ kv, jsize kv.2) l)
  | _ => 1
  end.

Lemma sequence_join {A} (p : string → option (A * string)) close (items : list A) (text : A → string) n rest :
  close ≠ ","%char → digit close = None → close ≠ "p"%char →
  items ≠ [] → (length items ≤ n)%nat →
  (∀ a r, a ∈ items → stops r → p (text a +:+ r) = Some (a, r)) →
  sequence p close n (join "," (text <$> items) +:+ String close rest) = Some (items, rest).
Proof.
  intros Hc1 Hc2 Hc3. revert n. induction items as [|a items IH]; intros n Hne Hn Hp; [done|].
  destruct n as [|n]; [cbn in Hn; lia|]. destruct items as [|b items].
  - cbn. rewrite Hp by (done || set_solver). by rewrite decide_True.
  - rewrite fmap_cons, join_cons by done. rewrite <- !string_app_assoc. cbn [sequence].
    rewrite Hp by (done || set_solver). rewrite string_cons_app, string_nil_app.
    rewrite decide_False, decide_True by done.
    rewrite IH; [done|done|cbn in *; lia|set_solver].
Qed.

Lemma bracketed_join {A} (p : string → option (A * string)) close (items : list A) (text : A → string) n rest :
  close ≠ ","%char → digit close = None → close ≠ "p"%char → (length items ≤ n)%nat →
  (∀ a, ∃ c t, text a = String c t ∧ c ≠ close) →
  (∀ a r, a ∈ items → stops r → p (text a +:+ r) = Some (a, r)) →
  bracketed p close n (join "," (text <$> items) +:+ String close rest) = Some (items, rest).
Proof.
  intros Hc1 Hc2 Hc3 Hn Ht Hp. destruct items as [|a items].
  - rewrite fmap_nil. cbn [join]. rewrite string_nil_app. unfold bracketed. by rewrite decide_True.
  - rewrite <- (sequence_join p close (a :: items) text n rest) by done.
    destruct (Ht a) as (c & t & E & Hc). unfold bracketed.
    assert (∃ t', join "," (text <$> a :: items) = String c t') as [t' ->].
    { destruct items; [by exists t|]. rewrite fmap_cons, join_cons, E by done. eauto. }
    rewrite string_cons_app. by rewrite decide_False.
Qed.

(** No value starts with a closing bracket. *)
Lemma print_head j : ∃ c t, print j = String c t ∧ c ≠ "]"%char.
Proof.
  destruct j as [|[]|z|[n| |]|s|l|l]; cbn; try by eexists _, _.
  all: destruct (pretty_N_text (Z.abs_N ltac:(first [exact z|exact n])) "") as [(c & r & d & E & Hd) _].
  all: rewrite string_app_nil_r in E; rewrite pretty_Z_text, E; case_match; eexists _, _; split; try done.
  all: destruct c as [[] [] [] [] [] [] [] []]; try done; by (cbv in Hd; simplify_eq).
Qed.

Lemma jsize_pos j : (1 ≤ jsize j)%nat.
Proof. destruct j; cbn; lia. Qed.

Lemma list_sum_elem {A} (f : A → nat) a l : a ∈ l → (f a ≤ sum_list_with f l)%nat.
Proof. induction 1; cbn; lia. Qed.
Lemma list_sum_length {A} (f : A → nat) l : (∀ a, 1 ≤ f a)%nat → (length l ≤ sum_list_with f l)%nat.
Proof. intros Hf. induction l as [|a l IH]; cbn; [lia|]. specialize (Hf a). lia. Qed.

Lemma value_print n j rest :
  (jsize j ≤ n)%nat → dumpable j = true → stops rest → value n (print j +:+ rest) = Some (j, rest).
Proof.
  revert j rest. induction n as [|n IH]; intros j rest Hn Hd Hr; [pose proof (jsize_pos j); lia|].
  destruct j as [|[]|z|[m| |]|s|l|l]; cbn [print dumpable jsize] in *; try done.
  - by rewrite value_number, number_int.
  - rewrite <- string_app_assoc, value_number. apply number_float.
  - unfold print_str. rewrite string_cons_app, <- string_app_assoc. cbn.
    by rewrite decide_True, (string_cons_app quote ""), string_nil_app, unescape_escape.
  - rewrite !string_cons_app, string_nil_app, <- string_app_assoc. cbn [value].
    change ("]" +:+ rest) with (String "]" rest).
    rewrite (bracketed_join _ _ l print); try done.
    + pose proof (list_sum_length jsize l jsize_pos). lia.
    + apply print_head.
    + intros a r Ha Hs. apply IH; [|by eapply forallb_forall in Hd; [|by apply list_elem_of_In]|done].
      pose proof (list_sum_elem jsize a l Ha). lia.
  - apply andb_true_iff in Hd as [_ Hd].
    rewrite !string_cons_app, string_nil_app, <- string_app_assoc. cbn [value].
    change ("}" +:+ rest) with (String "}" rest).
    rewrite (bracketed_join _ _ l (λ kv, print_str kv.1 +:+ ":" +:+ print kv.2)); try done.
    + pose proof (list_sum_length (λ kv : string * json, jsize kv.2) l (λ kv, jsize_pos kv.2)). lia.
    + intros [k v]. by eexists _, _.
    + intros [k v] r Ha Hs. cbn [fst snd]. unfold print_str.
      rewrite <- !string_app_assoc, string_cons_app, <- !string_app_assoc. unfold member. rewrite (decide_True (P := quote = quote)) by done.
      rewrite (string_cons_app quote ""), string_nil_app, unescape_escape.
      rewrite string_cons_app, string_nil_app. rewrite IH; [done| |
        by eapply forallb_forall in Hd as [_ ?]%andb_true_iff; [|by apply list_elem_of_In]|done].
      pose proof (list_sum_elem (λ kv : string * json, jsize kv.2) _ l Ha). cbn in *. lia.
Qed.

(** ** The fuel [parse] gives is enough *)

Lemma length_string_app (a b : string) :
  String.length (a +:+ b) = (String.length a + String.length b)%nat.
Proof. induction a as [|c a IH]; [done|]. rewrite string_cons_app. cbn. by rewrite IH. Qed.

Lemma join_length {A} (f : A → string) (g : A → nat) l :
  (∀ a, a ∈ l → g a ≤ String.length (f a))%nat →
  (sum_list_with g l ≤ String.length (join "," (f <$> l)))%nat.
Proof.
  induction l as [|a l IH]; intros Hf; [done|]. pose proof (Hf a ltac:(set_solver)).
  specialize (IH ltac:(set_solver)). destruct l as [|b l]; [cbn; lia|].
  rewrite fmap_cons, join_cons, !length_string_app by done. cbn [sum_list_with] in *. cbn. cbn in IH. lia.
Qed.

Lemma jsize_length n j : (jsize j ≤ n)%nat → (jsize j ≤ String.length (print j))%nat.
Proof.
  revert j. induction n as [|n IH]; intros j Hn; [lia|].
  assert (Hleaf : (1 ≤ String.length (print j))%nat)
    by (destruct (print_head j) as (c & t & -> & _); cbn; lia).
  destruct j as [| | | | |l|l]; cbn [jsize] in *; try done; cbn [print]; rewrite !length_string_app.
  - pose proof (join_length print jsize l) as Hj. cbn. enough (∀ a, a ∈ l → jsize a ≤ String.length (print a))%nat
      by (specialize (Hj ltac:(done)); lia).
    intros a Ha. apply IH. pose proof (list_sum_elem jsize a l Ha). lia.
  - pose proof (join_length (λ kv : string * json, print_str kv.1 +:+ ":" +:+ print kv.2) (λ kv, jsize kv.2) l) as Hj.
    cbn [String.length]. enough (∀ a, a ∈ l → jsize a.2 ≤ String.length (print_str a.1 +:+ ":" +:+ print a.2))%nat
      by (specialize (Hj ltac:(done)); lia).
    intros a Ha. rewrite !length_string_app. pose proof (list_sum_elem (λ kv : string * json, jsize kv.2) a l Ha).
    pose proof (IH a.2). cbn in *. lia.
Qed.

Lemma parse_print j : dumpable j = true → parse (print j) = Some j.
Proof.
  intros Hd. unfold parse. rewrite <- (string_app_nil_r (print j)) at 2.
  by rewrite value_print; [|by eapply jsize_length|..].
Qed.

(** [int(text)] of a printed integer. *)
Definition int_of (s : string) : option Z :=
  match number s with Some (JInt z, "") => Some z | _ => None end.
Lemma int_of_pretty k : int_of (pretty k) = Some k.
Proof.
  unfold int_of. rewrite <- (string_app_nil_r (pretty k)). by rewrite number_int.
Qed.

#[export] Instance orjson : Orjson := {| dumps := print; loads := parse |}.
#[export] Instance orjson_roundtrip : OrjsonRoundtrip.
Proof. exact parse_print. Qed.
#[export] Instance orjson_compact : OrjsonCompact.
Proof.
  split; try done. intros s Hs. cbn. unfold print_str. by rewrite escape_plain.
Qed.
End Ref.
