(* ===== verification/Problems.v ===== *)
(** * The error responses of the API (src/geotrack/api/problems.py)

    One body for every error: [ProblemError], the framework's own exceptions, a failed
    validation and an exhausted connection pool all end in [problem_response]. *)
From S2P Require Import Prelude Text Json JsonRef.

Definition MEDIA_TYPE : string := "application/problem+json".

(** [d[k] = v] and [d.update(other)]: a key that is present keeps its place. *)
Fixpoint put {A} (k : string) (v : A) (d : list (string * A)) : list (string * A) :=
  match d with
  | [] => [(k, v)]
  | (k', v') :: rest => if decide (k = k') then (k, v) :: rest else (k', v') :: put k v rest
  end.
Definition update {A} (d other : list (string * A)) : list (string * A) :=
  foldl (λ d kv, put kv.1 kv.2 d) d other.

Record ProblemError := mkProblem {
  status : Z; title : string; code : string; detail : option string;
  headers : list (string * string); extra : list (string * json) }.

Record HttpResponse := mkResponse {
  status_code : Z; media_type : string; response_headers : list (string * string); body : string }.

(** The body before it is rendered; [if detail:] skips the empty text too. *)
Definition problem_body (p : ProblemError) : list (string * json) :=
  update
    ([("type", JStr ("/problems/" +:+ code p)); ("title", JStr (title p));
      ("status", JInt (status p)); ("code", JStr (code p))]
     ++ match detail p with
        | None | Some "" => []
        | Some d => [("detail", JStr d)]
        end) (extra p).

Definition problem_response `{Orjson} (p : ProblemError) : HttpResponse :=
  mkResponse (status p) MEDIA_TYPE (headers p) (dumps (JObj (problem_body p))).

(** ** The handlers [install_problem_handlers] registers *)

Fixpoint lookup_status (table : list (Z * string)) (s : Z) : option string :=
  match table with
  | [] => None
  | (k, v) :: rest => if k =? s then Some v else lookup_status rest s
  end.

Definition TITLES : list (Z * string) :=
  [(400, "Bad request"); (401, "Authentication required"); (403, "Forbidden"); (404, "Not found");
   (409, "Conflict"); (412, "Precondition failed"); (413, "Payload too large");
   (422, "Request validation failed"); (429, "Too many requests"); (503, "Service unavailable")].
Definition CODES : list (Z * string) :=
  [(400, "bad_request"); (401, "unauthorized"); (403, "forbidden"); (404, "not_found");
   (409, "conflict"); (412, "precondition_failed"); (413, "payload_too_large");
   (422, "validation_error"); (429, "too_many_requests"); (503, "service_unavailable")].

(** What a request can end with; [errors] is [exc.errors()] as orjson renders it. *)
Inductive RequestError :=
  | Problem (p : ProblemError)
  | RequestValidationError (errors : list json)
  | HTTPException (status : Z) (detail : string) (headers : list (string * string))
  | PoolTimeoutError.

Definition problem_of (e : RequestError) : ProblemError :=
  match e with
  | Problem p => p
  | RequestValidationError errors =>
      mkProblem 422 "Request validation failed" "validation_error"
        (Some "The request body or parameters did not pass validation.") [] [("errors", JArr errors)]
  | HTTPException s d hs =>
      mkProblem s (default "Request failed" (lookup_status TITLES s))
        (default "http_error" (lookup_status CODES s)) (if decide (d = "") then None else Some d) hs []
  | PoolTimeoutError =>
      mkProblem 503 "Database is busy" "database_busy"
        (Some "No database connection was available in time. Retry shortly.") [("Retry-After", "1")] []
  end.

Definition respond `{Orjson} (e : RequestError) : HttpResponse := problem_response (problem_of e).

(** ** Association lists *)

Lemma assoc_put {A} k k' (v : A) d :
  assoc k' (put k v d) = if decide (k = k') then Some v else assoc k' d.
Proof.
  induction d as [|[x y] d IH]; cbn; [done|].
  destruct (decide (k = x)) as [->|Hne]; cbn; [by case_decide|].
  rewrite IH. repeat case_decide; congruence.
Qed.

Lemma put_keys {A} k (v : A) d : (put k v d).*1 = if decide (k ∈ d.*1) then d.*1 else d.*1 ++ [k].
Proof.
  induction d as [|[x y] d IH]; [done|]. cbn [put fmap list_fmap fst].
  destruct (decide (k = x)) as [->|Hne]; cbn; [by rewrite decide_True by set_solver|].
  fold (@fmap list _ (string * A) string fst). rewrite IH.
  repeat case_decide; try done; set_solver.
Qed.

Lemma put_dumpable k v d :
  dumpable (JObj d) = true → utf8_valid k = true → dumpable v = true →
  dumpable (JObj (put k v d)) = true.
Proof.
  intros Hd Hk Hv. cbn in *. apply andb_true_iff in Hd as [Hnd%bool_decide_eq_true Hd].
  apply andb_true_iff. split.
  - apply bool_decide_eq_true. rewrite put_keys. case_decide; [done|].
    apply NoDup_app. split_and!; [done|set_solver|apply NoDup_singleton].
  - clear Hnd. induction d as [|[x y] d IH]; cbn in *; [by rewrite Hk, Hv|].
    apply andb_true_iff in Hd as [Hx Hd]. case_decide; cbn.
    + by rewrite Hk, Hv, Hd.
    + by rewrite Hx, IH.
Qed.

Lemma update_dumpable other d :
  dumpable (JObj d) = true → forallb (λ kv, utf8_valid kv.1 && dumpable kv.2) other = true →
  dumpable (JObj (update d other)) = true.
Proof.
  revert d. induction other as [|[k v] other IH]; intros d Hd Ho; [done|].
  apply andb_true_iff in Ho as [[Hk Hv]%andb_true_iff Ho]. cbn. by apply IH; [apply put_dumpable|].
Qed.

Lemma assoc_update {A} k other (d : list (string * A)) :
  k ∉ other.*1 → assoc k (update d other) = assoc k d.
Proof.
  revert d. induction other as [|[k' v] other IH]; intros d Hk; [done|]. cbn in Hk.
  change (assoc k (update (put k' v d) other) = assoc k d).
  rewrite IH by set_solver. rewrite assoc_put. case_decide; [set_solver|done].
Qed.

Lemma lookup_status_elem table s c : lookup_status table s = Some c → c ∈ table.*2.
Proof.
  induction table as [|[k v] table IH]; [done|]. cbn. case_match; [intros [= ->]; left|right; auto].
Qed.

(** What a handler may be given: renderable values, and extra members that do not take
    the place of the fixed ones. *)
Record renderable (p : ProblemError) : Prop := {
  r_status : 100 ≤ status p < 600;
  r_title : utf8_valid (title p) = true;
  r_code : utf8_valid ("/problems/" +:+ code p) = true ∧ utf8_valid (code p) = true;
  r_detail d : detail p = Some d → utf8_valid d = true;
  r_extra : forallb (λ kv, utf8_valid kv.1 && dumpable kv.2) (extra p) = true;
  r_fixed k : k ∈ ["type"; "title"; "status"; "code"] → k ∉ (extra p).*1 }.

Lemma problem_body_dumpable p : renderable p → dumpable (JObj (problem_body p)) = true.
Proof.
  intros [Hs Ht [Hc Hc'] Hd He _]. apply update_dumpable; [|done].
  assert (Hst : (- 2 ^ 63 <=? status p) && (status p <? 2 ^ 64) = true) by lia.
  cbn [dumpable app fmap list_fmap fst snd forallb].
  destruct (detail p) as [d|]; [|cbn; by rewrite Hc, Ht, Hst, Hc'].
  specialize (Hd _ eq_refl). destruct d; cbn; rewrite Hc, Ht, Hst, Hc'; cbn; [done|].
  cbn in Hd. by rewrite Hd.
Qed.

(** ** Properties *)

(** a client can always branch on the error. Whatever a request ends with, the
    response is a JSON object whose [status] is the status of the response, whose [type]
    is derived from its [code], and which names the code the handler chose; every
    framework error gets a code from the table or the generic one. *)
Lemma problem_readable `{OrjsonRoundtrip} e :
  renderable (problem_of e) →
  let r := respond e in
  media_type r = "application/problem+json" ∧
  ∃ fields, loads (body r) = Some (JObj fields) ∧
    assoc "status" fields = Some (JInt (status_code r)) ∧
    assoc "code" fields = Some (JStr (code (problem_of e))) ∧
    assoc "type" fields = Some (JStr ("/problems/" +:+ code (problem_of e))) ∧
    match e with
    | HTTPException s _ _ => status_code r = s ∧ code (problem_of e) ∈ "http_error" :: CODES.*2
    | RequestValidationError errors => status_code r = 422 ∧ assoc "errors" fields = Some (JArr errors)
    | PoolTimeoutError => status_code r = 503 ∧ response_headers r = [("Retry-After", "1")]
    | Problem p => status_code r = status p
    end.
Proof.
  intros Hr r. split; [done|]. exists (problem_body (problem_of e)).
  split; [by apply loads_dumps, problem_body_dumpable|].
  assert (Hfix : ∀ k, k ∈ ["type"; "title"; "status"; "code"] →
    assoc k (problem_body (problem_of e)) =
    assoc k [("type", JStr ("/problems/" +:+ code (problem_of e))); ("title", JStr (title (problem_of e)));
             ("status", JInt (status (problem_of e))); ("code", JStr (code (problem_of e)))]).
  { intros k Hk. unfold problem_body. rewrite assoc_update by (by apply r_fixed).
    repeat (apply elem_of_cons in Hk as [->|Hk]; [done|]). by apply elem_of_nil in Hk. }
  rewrite !Hfix by (rewrite !elem_of_cons; tauto). split_and!; [done..|].
  destruct e as [p|errors|s d hs|]; [done| |split; [done|]|done].
  - split; [done|]. reflexivity.
  - cbn [problem_of code]. destruct (lookup_status CODES s) as [c|] eqn:E; [right|left].
    by eapply lookup_status_elem.
Qed.

Module ProblemSamples.
Definition gone : RequestError := HTTPException 410 "moved on" [].
Lemma gone_renderable : renderable (problem_of gone).
Proof. split; cbn; try done; try lia; try (intros; by simplify_eq/=). set_solver. Qed.
End ProblemSamples.

Lemma problem_readable_witness :
  status_code (respond (H := Ref.orjson) ProblemSamples.gone) = 410 ∧
  media_type (respond (H := Ref.orjson) ProblemSamples.gone) = "application/problem+json" ∧
  ∃ fields, loads (Orjson := Ref.orjson) (body (respond (H := Ref.orjson) ProblemSamples.gone)) = Some (JObj fields) ∧
    assoc "status" fields = Some (JInt 410) ∧ assoc "code" fields = Some (JStr "http_error").
Proof.
  split; [reflexivity|].
  destruct (problem_readable (H := Ref.orjson) (H0 := Ref.orjson_roundtrip) ProblemSamples.gone ProblemSamples.gone_renderable)
    as (H1 & fields & H2 & H3 & H4 & _).
  split; [exact H1|]. exists fields. split; [exact H2|split; [exact H3|exact H4]].
Defined.
