(* ===== verification/Motion.v ===== *)
(** * The simulated fleet: geometry and movement of the load generator

    The first half of [src/generator.py]: the demo area and its flat projection, the
    motion profiles, how a fleet is seeded, and how one device moves and reports.  The
    random streams are values passed along, as [random.Random] objects are advanced in
    place; the C library's trigonometry is an interface. *)
From S2P Require Import Prelude Floats Sizes Json.

(** ** The standard library's [math] *)

(** A decimal literal [num / den]. *)
Definition fdec (num den : Z) : float64 := Fin (rnd (num * u) den).

(** Trigonometry on finite values, in units of 2^-1074, as the C library computes it. *)
Class Libm := {
  c_sin : Z → Z;
  c_cos : Z → Z;
  atan2 : float64 → float64 → float64;
  hypot : float64 → float64 → float64
}.
Class LibmLaws `{Libm} : Prop := {
  sin_range a : Z.abs (c_sin a) ≤ u;
  cos_range a : Z.abs (c_cos a) ≤ u;
  atan2_range a b : ∃ n, atan2 (Fin a) (Fin b) = Fin n ∧ Z.abs n ≤ 4 * u;
  hypot_range a b : Z.abs a + Z.abs b ≤ 2 ^ 2096 →
    ∃ r, hypot (Fin a) (Fin b) = Fin r ∧ representable r ∧ 0 ≤ r ≤ 2 * (Z.abs a + Z.abs b)
}.

Definition pi : float64 := Fin (884279719003555 * 2 ^ 1026).
Definition deg_to_rad : float64 := Fin (rnd (884279719003555 * 2 ^ 1026) 180).
Definition rad_to_deg : float64 := Fin (rnd (180 * u * u) (884279719003555 * 2 ^ 1026)).
Definition radians (x : float64) : float64 := fmul x deg_to_rad.
Definition degrees (x : float64) : float64 := fmul x rad_to_deg.

Definition domain_error : exn := ValueError "math domain error".
Definition sin `{Libm} (x : float64) : res float64 :=
  match x with Fin a => Ok (Fin (c_sin a)) | Inf _ => Raise domain_error | NaN => Ok NaN end.
Definition cos `{Libm} (x : float64) : res float64 :=
  match x with Fin a => Ok (Fin (c_cos a)) | Inf _ => Raise domain_error | NaN => Ok NaN end.

(** The square root, correctly rounded: the leading 64 bits of the root and one sticky bit
    for everything below them decide the rounding. *)
Definition sqrt_units (a : Z) : Z :=
  let n := a * u in
  let k := Z.max 0 ((Z.log2 n - 128) / 2) in
  let s := Z.sqrt (n / 4 ^ k) in
  rnd ((2 * s + (if s * s * 4 ^ k =? n then 0 else 1)) * 2 ^ k) 2.
Definition sqrt (x : float64) : res float64 :=
  match x with
  | Fin a => if a <? 0 then Raise domain_error else Ok (Fin (sqrt_units a))
  | Inf true => Raise domain_error
  | x => Ok x
  end.

(** [round(x, 7)]: the nearest multiple of 10^-7, then the float nearest to that. *)
Definition round7 (x : float64) : float64 :=
  match x with
  | Fin n => of_rounded (rnd (round_half_even (n * 10 ^ 7) u * u) (10 ^ 7))
  | x => x
  end.

(** ** The standard library's [random] *)

Class Random := {
  rng : Type;
  seeded : string → rng;
  random : rng → float64 * rng;
  gauss : float64 → float64 → rng → float64 * rng;
  randrange : Z → rng → Z * rng
}.
Class RandomLaws `{Random} : Prop := {
  random_unit r : ∃ n, (random r).1 = Fin n ∧ 0 ≤ n < u;
  gauss_size k sigma r : small k → small (k + 4) → mag k sigma → mag (k + 4) (gauss (flit 0) sigma r).1;
  randrange_range n r : 0 < n → 0 ≤ (randrange n r).1 < n
}.

(** [rng.uniform(a, b)] is [a + (b - a) * rng.random()]. *)
Definition uniform `{Random} (a b : float64) (r : rng) : float64 * rng :=
  let '(x, r) := random r in (fadd a (fmul (fsub b a) x), r).

(** ** Geometry *)

Definition M_PER_DEG_LAT : float64 := flit 111320.

Definition m_per_deg_lon `{Libm} (lat : float64) : res float64 :=
  let! c := cos (radians lat) in Ok (fmax (fmul M_PER_DEG_LAT c) (flit 1)).

Definition wrap_deg (delta : float64) : res float64 :=
  let! m := fmod (fadd delta (flit 180)) (flit 360) in Ok (fsub m (flit 180)).

Record Area := mkArea { area_lat : float64; area_lon : float64; radius_m : float64 }.

Definition offsets `{Libm} (a : Area) (lat lon : float64) : res (float64 * float64) :=
  let north := fmul (fsub lat (area_lat a)) M_PER_DEG_LAT in
  let! w := wrap_deg (fsub lon (area_lon a)) in
  let! mid := fdiv (fadd lat (area_lat a)) (flit 2) in
  let! m := m_per_deg_lon mid in
  Ok (fmul w m, north).

Definition position `{Libm} (a : Area) (east north : float64) : res (float64 * float64) :=
  let! dlat := fdiv north M_PER_DEG_LAT in
  let lat := fadd (area_lat a) dlat in
  let lat := fmin (fmax lat (fdec (-899) 10)) (fdec 899 10) in
  let! mid := fdiv (fadd lat (area_lat a)) (flit 2) in
  let! m := m_per_deg_lon mid in
  let! dlon := fdiv east m in
  let! lon := wrap_deg (fadd (area_lon a) dlon) in
  Ok (lat, lon).

(** ** The movement model *)

Record MotionProfile := mkProfile {
  profile_name : string;
  share : float64;
  min_speed_mps : float64;
  max_speed_mps : float64;
  heading_sigma_deg : float64;
  speed_sigma_mps : float64
}.

Definition car : MotionProfile :=
  mkProfile "car" (fdec 25 100) (flit 12) (flit 20) (flit 5) (fdec 120 100).
Definition PROFILES : list MotionProfile := [
  mkProfile "stationary" (fdec 20 100) (flit 0) (fdec 4 10) (flit 30) (fdec 8 100);
  mkProfile "pedestrian" (fdec 35 100) (fdec 6 10) (flit 2) (flit 12) (fdec 20 100);
  mkProfile "cyclist" (fdec 20 100) (flit 3) (fdec 65 10) (flit 8) (fdec 50 100);
  car].

Record DeviceState := mkState {
  device_id : string;
  lat : float64;
  lon : float64;
  heading_deg : float64;
  speed_mps : float64;
  profile : MotionProfile
}.

Section streams.
Context `{Random}.

Definition device_rng (seed : Z) (device_id : string) : rng :=
  seeded (pretty seed +:+ ":" +:+ device_id).
Definition report_rng (seed : Z) (device_id : string) : rng :=
  seeded (pretty seed +:+ ":interval:" +:+ device_id).

(** The profiles in order, each taking its share of the unit interval; the last one also
    takes what rounding leaves over. *)
Fixpoint pick_profile (draw cumulative : float64) (ps : list MotionProfile) (last : MotionProfile) : MotionProfile :=
  match ps with
  | [] => last
  | p :: ps' =>
      let cumulative := fadd cumulative (share p) in
      if fltb draw cumulative then p else pick_profile draw cumulative ps' last
  end.
Definition profile_for (r : rng) : MotionProfile * rng :=
  let '(draw, r) := random r in (pick_profile draw (flit 0) PROFILES car, r).
End streams.

Section motion.
Context `{Libm} `{Random}.

(** [f"{index:05d}"]. *)
Definition pad5 (index : nat) : string :=
  let s := pretty index in
  String.concat "" (replicate (5 - String.length s) "0") +:+ s.

(** One iteration of the loop of [build_fleet]. *)
Definition build_device (prefix : string) (area : Area) (seed : Z) (index : nat) : res DeviceState :=
  let device_id := prefix +:+ pad5 index in
  let r := device_rng seed device_id in
  let '(profile, r) := profile_for r in
  let '(draw, r) := random r in
  let! root := sqrt draw in
  let distance := fmul (radius_m area) root in
  let '(bearing, r) := uniform (flit 0) (fmul (flit 2) pi) r in
  let! s := sin bearing in
  let! c := cos bearing in
  let! (lat, lon) := position area (fmul distance s) (fmul distance c) in
  let '(heading, r) := uniform (flit 0) (flit 360) r in
  let '(speed, r) := uniform (min_speed_mps profile) (max_speed_mps profile) r in
  Ok (mkState device_id lat lon heading speed profile).

Definition build_fleet (count : nat) (prefix : string) (area : Area) (seed : Z) : res (list DeviceState) :=
  traverse (build_device prefix area seed) (seq 0 count).

(** Mirror the radial component at the boundary circle. *)
Definition reflect (east north radius limit heading_deg : float64) : res (float64 * float64 * float64) :=
  let! scale := fdiv (fmax (fsub (fmul (flit 2) limit) radius) (flit 0)) radius in
  let normal_deg := degrees (atan2 east north) in
  let! heading := fmod (fsub (fadd (fmul (flit 2) normal_deg) (flit 180)) heading_deg) (flit 360) in
  Ok (fmul east scale, fmul north scale, heading).

Definition advance (state : DeviceState) (dt : float64) (area : Area) (r : rng) : res (DeviceState * rng) :=
  let p := profile state in
  let! scale := sqrt dt in
  let '(turn, r) := gauss (flit 0) (fmul (heading_sigma_deg p) scale) r in
  let! heading := fmod (fadd (heading_deg state) turn) (flit 360) in
  let '(push, r) := gauss (flit 0) (fmul (speed_sigma_mps p) scale) r in
  let drifted := fadd (speed_mps state) push in
  let speed := fmin (fmax drifted (min_speed_mps p)) (max_speed_mps p) in
  let rad := radians heading in
  let distance := fmul speed dt in
  let! (east, north) := offsets area (lat state) (lon state) in
  let! s := sin rad in
  let east := fadd east (fmul distance s) in
  let! c := cos rad in
  let north := fadd north (fmul distance c) in
  let radius := hypot east north in
  let! (east, north, heading) :=
    if fltb (radius_m area) radius then reflect east north radius (radius_m area) heading
    else Ok (east, north, heading) in
  let! (lat, lon) := position area east north in
  Ok (mkState (device_id state) lat lon heading speed p, r).
End motion.

(** ** Payloads *)

(** [report_payload]: the dict's four keys; a moment is microseconds since the epoch. *)
Record Report := mkReport {
  rep_device_id : string; rep_latitude : float64; rep_longitude : float64; rep_timestamp : Z }.
Definition report_payload (state : DeviceState) (moment : Z) : Report :=
  mkReport (device_id state) (round7 (lat state)) (round7 (lon state)) moment.

(** orjson renders a datetime itself, as RFC 3339 text. *)
Class OrjsonDatetime := rfc3339 : Z → string.

Definition report_json `{OrjsonDatetime} (r : Report) : json :=
  JObj [("device_id", JStr (rep_device_id r)); ("latitude", JFloat (rep_latitude r));
        ("longitude", JFloat (rep_longitude r)); ("timestamp", JStr (rfc3339 (rep_timestamp r)))].
Definition ingest_envelope `{Orjson} `{OrjsonDatetime} (reports : list Report) (seq : option Z) : string :=
  match seq with
  | None => dumps (JObj [("items", JArr (report_json <$> reports))])
  | Some n => dumps (JObj [("seq", JInt n); ("items", JArr (report_json <$> reports))])
  end.

(** [reports[start : start + size]] for every multiple of [size] below the length. *)
Definition chunked {A} (reports : list A) (size : nat) : list (list A) :=
  (λ k, take size (drop (k * size) reports)) <$> seq 0 ((length reports + size - 1) / size)%nat.

(** ** Well-formed areas and devices *)

Definition within (lo hi : Z) (x : float64) : Prop := ∃ n, x = Fin n ∧ lo ≤ n ≤ hi.

(** Coordinates on the globe; a radius and an interval below 2^40 metres and seconds. *)
Definition area_ok (a : Area) : Prop :=
  within (-90 * u) (90 * u) (area_lat a) ∧ within (-180 * u) (180 * u) (area_lon a) ∧
  within 0 (2 ^ 40 * u) (radius_m a).

Definition speed_limits (p : MotionProfile) (x : float64) : Prop :=
  fleb (min_speed_mps p) x = true ∧ fleb x (max_speed_mps p) = true.

Definition state_ok (st : DeviceState) : Prop :=
  within (-90 * u) (90 * u) (lat st) ∧ within (-180 * u) (180 * u) (lon st) ∧
  within 0 (360 * u) (heading_deg st) ∧ profile st ∈ PROFILES ∧ speed_limits (profile st) (speed_mps st).

Lemma within_mag lo hi k x : 0 ≤ k → Z.abs lo ≤ 2 ^ k * u → Z.abs hi ≤ 2 ^ k * u → within lo hi x → mag k x.
Proof.
  intros Hk Hlo Hhi (n & -> & Hn). exists n. split; [done|].
  rewrite Z.pow_add_r by lia. change (2 ^ 1074) with u. lia.
Qed.

Lemma mag_within k x : 0 ≤ k → mag k x → within (- (2 ^ k * u)) (2 ^ k * u) x.
Proof.
  intros Hk (n & -> & Hn). exists n. split; [done|].
  rewrite Z.pow_add_r in Hn by lia. change (2 ^ 1074) with u in Hn. lia.
Qed.

Lemma wrap_deg_range k x : 0 ≤ k ≤ 900 → mag k x → ∃ y, wrap_deg x = Ok y ∧ within (-180 * u) (180 * u) y.
Proof.
  intros Hk Hx. assert (H180 : mag (Z.max k 8) (flit 180)).
  { apply (mag_weaken 8); [lia|]. by apply mag_lit. }
  assert (Hm : mag (Z.max k 8 + 1) (fadd x (flit 180))).
  { apply mag_add; unfold small; [lia..|eapply mag_weaken; [|done]; lia|done]. }
  destruct Hm as (a & Ea & _). unfold wrap_deg. rewrite Ea.
  destruct (fmod_range a (360 * u)) as (n & E & Hn);
    [pose proof u_pos; lia|by vm_compute|by apply representable_lit|].
  unfold flit. rewrite E. cbn [bind]. eexists. split; [done|].
  unfold fsub, fneg, fadd.
  assert (Hr : -180 * u ≤ rnd (n + - (180 * u)) 1 ≤ 180 * u).
  { apply rnd_between; [done|by apply representable_lit..|lia]. }
  rewrite of_rounded_Fin; [by eexists|].
  assert (180 * u < 2 ^ 2098) by (by vm_compute). lia.
Qed.

Lemma m_per_deg_lon_range `{LibmLaws} k x : 0 ≤ k ≤ 900 → mag k x →
  ∃ n, m_per_deg_lon x = Ok (Fin n) ∧ u ≤ n ≤ 2 ^ 17 * u.
Proof.
  intros Hk Hx. assert (Hr : mag (k + 0) (radians x)).
  { apply mag_mul; unfold small; [lia..|done|]. eexists. split; [done|]. by vm_compute. }
  destruct Hr as (a & Ea & _). unfold m_per_deg_lon. rewrite Ea. cbn [cos bind].
  assert (Hm : mag (17 + 0) (fmul M_PER_DEG_LAT (Fin (c_cos a)))).
  { apply mag_mul; unfold small; [lia..|by apply mag_lit|]. eexists. split; [done|].
    rewrite Z.add_0_r. apply cos_range. }
  destruct Hm as (n & -> & Hn). rewrite Z.pow_add_r in Hn by lia. change (2 ^ 1074) with u in Hn.
  pose proof u_pos. unfold fmax, fltb, fcompare, flit.
  destruct (Z.compare_spec n (1 * u)); eexists; (split; [reflexivity|lia]).
Qed.

Lemma midpoint_mag k x y : 0 ≤ k ≤ 800 → mag k x → mag k y → ∃ m, fdiv (fadd x y) (flit 2) = Ok m ∧ mag (k + 1) m.
Proof.
  intros Hk Hx Hy. apply mag_div; unfold small; [lia| |pose proof u_pos; lia].
  apply mag_add; unfold small; auto; lia.
Qed.

Lemma within_lat k x : 7 ≤ k → within (-90 * u) (90 * u) x → mag k x.
Proof. intros Hk Hx. apply (mag_weaken 7); [done|]. by eapply within_mag; [..|done]. Qed.
Lemma within_lon k x : 8 ≤ k → within (-180 * u) (180 * u) x → mag k x.
Proof. intros Hk Hx. apply (mag_weaken 8); [done|]. by eapply within_mag; [..|done]. Qed.

(** The size lemmas, applied backwards; sizes are closed numbers. *)
Ltac sized := unfold small; lia.

Lemma offsets_size `{LibmLaws} a x y : area_ok a →
  within (-90 * u) (90 * u) x → within (-180 * u) (180 * u) y →
  ∃ e n, offsets a x y = Ok (e, n) ∧ mag 26 e ∧ mag 26 n.
Proof.
  intros (Hla & Hlo & _) Hx Hy. unfold offsets.
  destruct (wrap_deg_range 9 (fsub y (area_lon a))) as (w & -> & Hw); [lia| |].
  { apply (mag_sub 8); [sized..|by apply within_lon|by apply within_lon]. }
  destruct (midpoint_mag 7 x (area_lat a)) as (m & -> & Hm); [lia|by apply within_lat..|]. cbn [bind].
  destruct (m_per_deg_lon_range 8 m) as (n & -> & Hn); [lia|done|]. cbn [bind].
  eexists _, _. split; [done|]. split.
  - apply (mag_weaken (8 + 17)); [lia|]. apply mag_mul; [sized..|by apply within_lon|].
    eapply within_mag; [..|by exists n]; pose proof u_pos; lia.
  - apply (mag_weaken (8 + 17)); [lia|]. apply mag_mul; [sized..| |by apply mag_lit].
    apply (mag_sub 7); [sized..|by apply within_lat|by apply within_lat].
Qed.

Lemma position_range `{LibmLaws} a e n : area_ok a → mag 90 e → mag 90 n →
  ∃ x y, position a e n = Ok (x, y) ∧ within (-90 * u) (90 * u) x ∧ within (-180 * u) (180 * u) y.
Proof.
  intros (Hla & Hlo & _) He Hn. unfold position.
  destruct (mag_div 90 n (111320 * u)) as (dl & Edl & Hdl); [sized|done|pose proof u_pos; lia|].
  unfold M_PER_DEG_LAT, flit at 1. rewrite Edl. cbn [bind].
  destruct (clamp_range (fadd (area_lat a) dl) (rnd (-899 * u) 10) (rnd (899 * u) 10))
    as (l & El & Hl); [| by vm_compute |].
  { apply (mag_number 91), (mag_add 90); [sized..| by apply within_lat|done]. }
  change (fdec (-899) 10) with (Fin (rnd (-899 * u) 10)). change (fdec 899 10) with (Fin (rnd (899 * u) 10)).
  rewrite El. assert (Hlat : within (-90 * u) (90 * u) (Fin l)).
  { exists l. split; [done|].
    assert (-90 * u ≤ rnd (-899 * u) 10) by (by vm_compute).
    assert (rnd (899 * u) 10 ≤ 90 * u) by (by vm_compute). lia. }
  destruct (midpoint_mag 7 (Fin l) (area_lat a)) as (m & -> & Hm); [lia|by apply within_lat..|]. cbn [bind].
  destruct (m_per_deg_lon_range 8 m) as (mm & -> & Hmm); [lia|done|]. cbn [bind].
  destruct (mag_div 90 e mm) as (dlo & -> & Hdlo); [sized|done|lia|]. cbn [bind].
  destruct (wrap_deg_range 91 (fadd (area_lon a) dlo)) as (w & -> & Hw); [lia| |].
  { apply (mag_add 90); [sized..|by apply within_lon|done]. }
  eexists _, _. by repeat split.
Qed.

(** The bits that are shifted out leave at least one bit of the root. *)
Lemma sqrt_shift n B j : 0 ≤ j → n ≤ B * B → B = 2 ^ j →
  let k := Z.max 0 ((Z.log2 n - 128) / 2) in 0 ≤ k ∧ (k = 0 ∨ 4 ^ k ≤ n ∧ k ≤ j).
Proof.
  intros Hj Hn -> k. split; [lia|]. destruct (decide (k = 0)); [by left|right].
  assert (Hlog : 2 * k ≤ Z.log2 n - 128).
  { pose proof (Z.mul_div_le (Z.log2 n - 128) 2 ltac:(lia)). lia. }
  assert (Hpos : 0 < n) by (destruct (Z.lt_ge_cases 0 n); [done|rewrite Z.log2_nonpos in Hlog by lia; lia]).
  split.
  - change 4 with (2 ^ 2). rewrite <- Z.pow_mul_r by lia. apply Z.log2_le_pow2; lia.
  - rewrite <- Z.pow_add_r in Hn by lia.
    pose proof (Z.log2_le_mono _ _ Hn) as Hl. rewrite Z.log2_pow2 in Hl by lia. lia.
Qed.

Lemma sqrt_size j x : 0 ≤ j ≤ 900 → mag j x → fleb (flit 0) x = true →
  ∃ y, sqrt x = Ok y ∧ mag j y.
Proof.
  intros Hj (a & -> & Ha) Hpos. assert (H0 : 0 ≤ a).
  { unfold fleb, fcompare, flit in Hpos. destruct (Z.compare_spec (0 * u) a); done || lia. }
  cbn [sqrt]. destruct (Z.ltb_spec a 0); [lia|]. eexists. split; [done|].
  eexists. split; [done|]. unfold sqrt_units. pose proof u_pos.
  set (n := a * u). set (k := Z.max 0 ((Z.log2 n - 128) / 2)). set (B := 2 ^ (1074 + j)).
  assert (HuB : u ≤ B) by (apply Z.pow_le_mono_r; lia).
  assert (HB : n ≤ B * B) by (apply Z.mul_le_mono_nonneg; lia).
  assert (Hk : 0 ≤ k ∧ (k = 0 ∨ 4 ^ k ≤ n ∧ k ≤ 1074 + j)) by (apply (sqrt_shift n B (1074 + j)); [lia|done|done]).
  assert (H4 : 4 ^ k = 2 ^ k * 2 ^ k) by (rewrite <- Z.pow_mul_l; done).
  assert (H2k : 0 < 2 ^ k) by (apply Z.pow_pos_nonneg; lia).
  assert (Hn : 0 ≤ n) by (unfold n; nia).
  pose proof (Z.sqrt_nonneg (n / 4 ^ k)) as Hs0.
  assert (Hs : Z.sqrt (n / 4 ^ k) * Z.sqrt (n / 4 ^ k) ≤ n / 4 ^ k)
    by (apply Z.sqrt_spec, Z.div_pos; lia).
  assert (Hdiv : 4 ^ k * (n / 4 ^ k) ≤ n) by (apply Z.mul_div_le; lia).
  set (s := Z.sqrt (n / 4 ^ k)) in *.
  assert (Hroot : (s * 2 ^ k) * (s * 2 ^ k) = s * s * 4 ^ k) by (rewrite H4; ring).
  apply rnd_abs_le; [done|apply representable_pow; lia|]. fold B.
  destruct (Z.eqb_spec (s * s * 4 ^ k) n) as [E|E].
  - assert (s * 2 ^ k ≤ B) by (apply Z.square_le_simpl_nonneg; nia). nia.
  - assert (Hlt : s * 2 ^ k < B) by (apply Z.square_lt_simpl_nonneg; nia).
    enough ((s + 1) * 2 ^ k ≤ B) by nia.
    destruct Hk as [Hk [->|[_ Hkj]]]; [lia|].
    assert (EB : B = 2 ^ (1074 + j - k) * 2 ^ k) by (unfold B; rewrite <- Z.pow_add_r by lia; f_equal; lia).
    rewrite EB in *. apply Z.mul_le_mono_nonneg_r; [lia|]. nia.
Qed.

Lemma reflect_range `{LibmLaws} e n r l h :
  mag 40 e → mag 40 n → representable r → 0 ≤ l < r → r ≤ 2 ^ 50 * u → within 0 (360 * u) h →
  ∃ e' n' h', reflect e n (Fin r) (Fin l) h = Ok (e', n', h') ∧
    mag 40 e' ∧ mag 40 n' ∧ within 0 (360 * u) h'.
Proof.
  intros He Hn Hr Hl Hr50 Hh. pose proof u_pos. unfold reflect.
  assert (Hs : ∃ s, fmax (fsub (fmul (flit 2) (Fin l)) (Fin r)) (flit 0) = Fin s ∧ 0 ≤ s ≤ r).
  { assert (H2 : 0 ≤ rnd (2 * u * l) u ≤ 2 * r).
    { apply rnd_between; [done|apply representable_0| |nia]. apply representable_double; [lia|done]. }
    assert (Hbig : 2 * (2 ^ 50 * u) < 2 ^ 2098) by (by vm_compute).
    assert (H3 : - r ≤ rnd (rnd (2 * u * l) u + - r) 1 ≤ r).
    { apply rnd_between; auto with geotrack. lia. }
    unfold flit, fmul, fsub, fneg. rewrite of_rounded_Fin by lia. unfold fadd. rewrite of_rounded_Fin by lia.
    unfold fmax, fltb, fcompare. destruct (Z.compare_spec (rnd (rnd (2 * u * l) u + - r) 1) (0 * u));
      eexists; (split; [reflexivity|lia]). }
  destruct Hs as (s & -> & Hs).
  assert (Hq : ∃ q, fdiv (Fin s) (Fin r) = Ok q ∧ mag 0 q).
  { eexists. split; [unfold fdiv; destruct r; [lia|done|lia]|].
    apply of_rounded_mag; [sized|]. apply rnd_abs_le; [lia|by apply representable_pow|].
    change (2 ^ (1074 + 0)) with u. rewrite (Z.sgn_pos r), !Z.abs_mul, (Z.abs_eq r) by lia.
    rewrite (Z.abs_eq s), (Z.abs_eq u) by lia. change (Z.abs 1) with 1. nia. }
  destruct Hq as (q & -> & Hq). cbn [bind].
  destruct He as (ne & -> & Hne), Hn as (nn & -> & Hnn).
  destruct (atan2_range ne nn) as (t & -> & Ht).
  assert (Hang : mag 12 (fsub (fadd (fmul (flit 2) (degrees (Fin t))) (flit 180)) h)).
  { apply (mag_sub 11); [sized..| |eapply within_mag; [..|done]; lia].
    apply (mag_add 10); [sized..| |by apply mag_lit].
    apply (mag_mul 1 9); [sized..|by apply mag_lit|].
    apply (mag_mul 3 6); [sized..| |].
    - exists t. split; [done|]. change (2 ^ (1074 + 3)) with (8 * u). lia.
    - eexists. split; [done|]. by vm_compute. }
  destruct Hang as (a & -> & _).
  destruct (fmod_range a (360 * u)) as (m & Em & Hm); [lia|by vm_compute|by apply representable_lit|].
  unfold flit. rewrite Em. cbn [bind]. eexists _, _, _. split; [done|].
  split; [|split; [|by exists m]]; apply (mag_mul 40 0); try sized; auto; by eexists.
Qed.

(** What the four profiles promise; decided on the table. *)
Lemma profile_sizes p : p ∈ PROFILES →
  mag 5 (heading_sigma_deg p) ∧ mag 1 (speed_sigma_mps p) ∧
  ∃ lo hi, min_speed_mps p = Fin lo ∧ max_speed_mps p = Fin hi ∧ 0 ≤ lo ≤ hi ∧ hi ≤ 20 * u.
Proof.
  assert (Hmag : ∀ k n, Z.abs n ≤ 2 ^ (1074 + k) → mag k (Fin n)) by (intros; by eexists).
  unfold PROFILES, car. intros Hp.
  repeat (apply elem_of_cons in Hp as [->|Hp]; [|]); [..|by apply elem_of_nil in Hp];
    cbn [heading_sigma_deg speed_sigma_mps min_speed_mps max_speed_mps];
    (split; [apply Hmag; by vm_compute|split; [apply Hmag; by vm_compute|]]);
    eexists _, _; (split; [reflexivity|split; [reflexivity|]]); repeat split; by vm_compute.
Qed.

Lemma radians_sin `{LibmLaws} k x : 0 ≤ k ≤ 900 → mag k x →
  (∃ s, sin (radians x) = Ok s ∧ mag 0 s) ∧ (∃ c, cos (radians x) = Ok c ∧ mag 0 c).
Proof.
  intros Hk Hx. assert (Hr : mag (k + 0) (radians x)).
  { apply mag_mul; unfold small; [lia..|done|]. eexists. split; [done|]. by vm_compute. }
  destruct Hr as (a & -> & _).
  split; (eexists; split; [reflexivity|]); eexists; (split; [reflexivity|]); [apply sin_range|apply cos_range].
Qed.

(** The leg of [advance] between the old and the new position: finite, and not longer than
    [2^38] metres in either direction. *)
Lemma leg_size `{LibmLaws} a x y speed dt h : area_ok a →
  within (-90 * u) (90 * u) x → within (-180 * u) (180 * u) y →
  mag 5 speed → mag 32 dt → within 0 (360 * u) h →
  ∃ e n s c, offsets a x y = Ok (e, n) ∧ sin (radians h) = Ok s ∧ cos (radians h) = Ok c ∧
    mag 38 (fadd e (fmul (fmul speed dt) s)) ∧ mag 38 (fadd n (fmul (fmul speed dt) c)).
Proof.
  intros Ha Hx Hy Hsp Hdt Hh. destruct (offsets_size a x y Ha Hx Hy) as (e & n & -> & He & Hn).
  destruct (radians_sin 9 h) as [(s & Es & Hs) (c & Ec & Hc)];
    [lia|by eapply within_mag; [..|done]; pose proof u_pos; lia|].
  assert (Hd : ∀ z, mag 0 z → mag 37 (fmul (fmul speed dt) z)).
  { intros z Hz. apply (mag_mul 37 0); [sized..| |done]. by apply (mag_mul 5 32); [sized..| |]. }
  exists e, n, s, c. repeat split; [done..| |];
    apply (mag_add 37); try sized; auto; by apply (mag_weaken 26).
Qed.

Lemma turned `{RandomLaws} h sigma k r : 0 ≤ k ≤ 800 → within 0 (360 * u) h → mag k sigma →
  ∃ h', fmod (fadd h (gauss (flit 0) sigma r).1) (flit 360) = Ok h' ∧ within 0 (360 * u) h'.
Proof.
  intros Hk Hh Hs. pose proof (gauss_size k sigma r ltac:(sized) ltac:(sized) Hs) as Hg. pose proof u_pos.
  assert (Ht : mag (Z.max 9 (k + 4) + 1) (fadd h (gauss (flit 0) sigma r).1)).
  { apply mag_add; [sized..| |eapply mag_weaken; [|done]; lia].
    apply (mag_weaken 9); [lia|]. by eapply within_mag; [..|done]; lia. }
  destruct Ht as (a & -> & _).
  destruct (fmod_range a (360 * u)) as (m & Em & Hm); [lia|by vm_compute|by apply representable_lit|].
  exists (Fin m). split; [exact Em|by exists m].
Qed.

(** The clamp of [min(max(drifted, min_speed), max_speed)]. *)
Lemma clamped_speed p x : p ∈ PROFILES → number x →
  speed_limits p (fmin (fmax x (min_speed_mps p)) (max_speed_mps p)) ∧
  mag 5 (fmin (fmax x (min_speed_mps p)) (max_speed_mps p)).
Proof.
  intros Hp Hx. destruct (profile_sizes p Hp) as (_ & _ & lo & hi & Elo & Ehi & Hlh & Hhi).
  unfold speed_limits. rewrite Elo, Ehi.
  destruct (clamp_range x lo hi) as (n & -> & Hn); [done|lia|]. pose proof u_pos.
  unfold fleb, fcompare. split.
  - split; [destruct (Z.compare_spec lo n)|destruct (Z.compare_spec n hi)]; done || lia.
  - eapply within_mag; [..|by exists n]; lia.
Qed.

Lemma speed_size p x : p ∈ PROFILES → speed_limits p x → mag 5 x.
Proof.
  intros Hp [H1 H2]. destruct (profile_sizes p Hp) as (_ & _ & lo & hi & Elo & Ehi & Hlh & Hhi).
  rewrite Elo in H1. rewrite Ehi in H2. pose proof u_pos.
  destruct x as [n|[]|]; try done. exists n. split; [done|].
  unfold fleb, fcompare in *. change (2 ^ (1074 + 5)) with (32 * u).
  destruct (Z.compare_spec lo n), (Z.compare_spec n hi); done || lia.
Qed.

(** C40: moving a device keeps it well formed, whatever the random stream and the mathematics
    library answer within their contracts: the move never raises, the position stays on the
    globe, the heading between 0 and 360 degrees, the speed within the limits of the
    device's profile, and the device keeps its identity and its profile. *)
Theorem advance_well_formed `{LibmLaws} `{RandomLaws} st dt a r :
  area_ok a → state_ok st → mag 32 dt → fleb (flit 0) dt = true →
  ∃ st' r', advance st dt a r = Ok (st', r') ∧ state_ok st' ∧
    device_id st' = device_id st ∧ profile st' = profile st.
Proof.
  intros Ha (Hla & Hlo & Hh & Hp & Hv) Hdt Hpos. unfold advance.
  destruct (profile_sizes _ Hp) as (Hhs & Hss & _).
  destruct (sqrt_size 32 dt) as (sc & -> & Hsc); [lia|done..|]. cbn [bind].
  destruct (turned (heading_deg st) (fmul (heading_sigma_deg (profile st)) sc) 37 r) as (h & Eh & Hh');
    [lia|done|by apply (mag_mul 5 32); [sized..| |]|].
  destruct (gauss _ _ r) as [turn r1]. cbn [fst] in Eh. rewrite Eh. cbn [bind].
  pose proof (gauss_size 33 (fmul (speed_sigma_mps (profile st)) sc) r1 ltac:(sized) ltac:(sized)
    ltac:(apply (mag_mul 1 32); [sized..|done|done])) as Hg.
  destruct (gauss _ _ r1) as [push r2]. cbn [fst] in Hg.
  destruct (clamped_speed (profile st) (fadd (speed_mps st) push) Hp) as [Hv' Hsize].
  { apply (mag_number 38), (mag_add 37); [sized..| |done].
    apply (mag_weaken 5); [lia|]. by eapply speed_size. }
  set (v := fmin _ _) in *.
  destruct (leg_size a (lat st) (lon st) v dt h) as (e & n & s & c & -> & Es & Ec & He & Hn); [done..|].
  cbn [bind]. rewrite Es. cbn [bind]. rewrite Ec. cbn [bind].
  set (e' := fadd e _) in *. set (n' := fadd n _) in *.
  assert (Hr : ∃ e2 n2 h2, (if fltb (radius_m a) (hypot e' n')
      then reflect e' n' (hypot e' n') (radius_m a) h else Ok (e', n', h)) = Ok (e2, n2, h2) ∧
      mag 40 e2 ∧ mag 40 n2 ∧ within 0 (360 * u) h2).
  { destruct (fltb _ _) eqn:Hlt; [|exists e', n', h; repeat split; try done; by apply (mag_weaken 38)].
    destruct He as (ze & Ee & Hze), Hn as (zn & En & Hzn), Ha as (_ & _ & l & El & Hl & _).
    assert (H38 : 2 ^ (1074 + 38) = 2 ^ 38 * u) by (by vm_compute). pose proof u_pos.
    destruct (hypot_range ze zn) as (q & Eq & Hrep & Hq); [assert (2 * (2 ^ 38 * u) ≤ 2 ^ 2096) by (by vm_compute); lia|].
    rewrite Ee, En, Eq, El in *. unfold fltb, fcompare in Hlt. destruct (Z.compare_spec l q); try done.
    apply reflect_range; [by apply (mag_weaken 38); [|exists ze]|by apply (mag_weaken 38); [|exists zn]|done|lia|lia|done]. }
  destruct Hr as (e2 & n2 & h2 & -> & He2 & Hn2 & Hh2). cbn [bind].
  destruct (position_range a e2 n2) as (x & y & -> & Hx & Hy); [done|by apply (mag_weaken 40)..|]. cbn [bind].
  eexists _, _. split; [done|]. split; [|done]. split; [done|split; [done|]]. by split; [|split].
Qed.

(** ** A concrete instance

    A mathematics library and a generator that keep their contracts, for evaluation: a
    device moves due north, and the stream counts. *)
Module MotionRef.
#[export] Instance libm : Libm := {|
  c_sin _ := 0;
  c_cos _ := u;
  atan2 _ _ := flit 0;
  hypot x y := match x, y with Fin a, Fin b => Fin (rnd (Z.abs a + Z.abs b) 1) | _, _ => NaN end
|}.
#[export] Instance libm_laws : LibmLaws.
Proof.
  split; cbn [c_sin c_cos atan2 hypot libm]; intros.
  - pose proof u_pos. lia.
  - pose proof u_pos. lia.
  - exists 0. split; [done|]. pose proof u_pos. lia.
  - eexists. split; [done|]. split; [by apply representable_rnd|].
    set (s := Z.abs a + Z.abs b) in *. assert (Hs : 0 ≤ s) by lia.
    pose proof (round_pos_error s 1 Hs ltac:(lia)) as He.
    assert (Hx : 2 ^ expo s 1 ≤ Z.max 1 s).
    { rewrite expo_eq, Z.div_1_r by lia. destruct (decide (s = 0)) as [->|]; [by cbn|].
      transitivity (2 ^ Z.log2 s); [apply Z.pow_le_mono_r; pose proof (Z.log2_nonneg s); lia|]. pose proof (Z.log2_spec s ltac:(lia)). lia. }
    unfold rnd. destruct (Z.ltb_spec s 0); [lia|].
    pose proof (round_pos_nonneg s 1 Hs ltac:(lia)). lia.
Qed.

#[export] Instance counter : Random := {|
  rng := Z;
  seeded s := Z.of_nat (String.length s);
  random r := (Fin ((r mod 8) * 2 ^ 1071), r + 1);
  gauss mu sigma r := (fadd mu (if Z.even r then sigma else fneg sigma), r + 1);
  randrange n r := (r mod n, r + 1)
|}.
#[export] Instance counter_laws : RandomLaws.
Proof.
  split; cbn [random gauss randrange counter]; intros.
  - eexists. split; [done|]. assert (u = 8 * 2 ^ 1071) as -> by (by vm_compute).
    pose proof (Z.mod_pos_bound r 8 ltac:(lia)). assert (0 < 2 ^ 1071) by (by vm_compute). nia.
  - cbn [fst]. apply (mag_weaken (k + 1)); [lia|].
    apply mag_add; [done|unfold small in *; lia| |destruct (Z.even r); auto using mag_neg].
    exists 0. split; [done|]. by apply Z.pow_nonneg.
  - apply Z.mod_pos_bound. lia.
Qed.

(** Kyiv, and a 25 km circle around it. *)
Definition kyiv : Area := Eval vm_compute in mkArea (fdec 504501 10000) (fdec 305234 10000) (flit 25000).
Definition cyclist : DeviceState :=
  mkState "dev-00007" (area_lat kyiv) (area_lon kyiv) (flit 90) (flit 4) (nth 2 PROFILES car).
End MotionRef.

#[local] Existing Instance MotionRef.libm.
#[local] Existing Instance MotionRef.counter.
#[local] Existing Instance MotionRef.libm_laws.
#[local] Existing Instance MotionRef.counter_laws.

Lemma advance_well_formed_witness :
  ∃ st' r', advance MotionRef.cyclist (flit 3) MotionRef.kyiv (device_rng 1 "dev-00007") = Ok (st', r') ∧
    state_ok st' ∧ device_id st' = "dev-00007" ∧ profile st' = profile MotionRef.cyclist.
Proof.
  apply (advance_well_formed MotionRef.cyclist (flit 3) MotionRef.kyiv (device_rng 1 "dev-00007")).
  - repeat split; (eexists; split; [reflexivity|by vm_compute]).
  - split; [|split; [|split]]; [(eexists; split; [reflexivity|by vm_compute])..|].
    split; [|by split; vm_compute]. unfold PROFILES. set_solver.
  - by apply mag_lit.
  - reflexivity.
Defined.
