(* ===== verification/Fleet.v ===== *)
(** * The simulated fleet: schedules, batches and replayable trajectories

    [src/generator.py]: [Schedule], [Batcher] and [Devices], and what the two transports
    do with them on every tick.  The claim of the module's documentation is proved here:
    the n-th report of a device is a function of the seed, the device and n alone. *)
From stdpp Require Import sorting.
From S2P Require Import Prelude Floats Json JsonRef Sizes Motion.

(** ** Schedule *)

(** A deadline and the device it belongs to, compared as Python compares tuples. *)
Notation Entry := (float64 * nat)%type.
Definition entry_le (a b : Entry) : Prop :=
  fltb a.1 b.1 = true ∨ a.1 = b.1 ∧ (a.2 ≤ b.2)%nat.
#[export] Instance entry_le_dec a b : Decision (entry_le a b).
Proof. unfold entry_le. apply _. Defined.

(** [heapq] promises that [heap[0]] is a smallest entry and that [heappop] removes it; the
    order of the rest is not observed, so the heap is kept in ascending order. *)
Definition Schedule : Type := list Entry.

Fixpoint push_entry (e : Entry) (heap : Schedule) : Schedule :=
  match heap with
  | [] => [e]
  | x :: heap' => if decide (entry_le e x) then e :: heap else x :: push_entry e heap'
  end.
Definition push (index : nat) (due : float64) (heap : Schedule) : Schedule := push_entry (due, index) heap.

Fixpoint pop_due (now : float64) (heap : Schedule) : list nat * Schedule :=
  match heap with
  | (due, index) :: heap' =>
      if fleb due now then let '(l, rest) := pop_due now heap' in (index :: l, rest) else ([], heap)
  | [] => ([], [])
  end.

Definition IDLE_SLEEP_S : float64 := fdec 25 100.
Definition next_delay (now : float64) (heap : Schedule) : float64 :=
  match heap with
  | [] => IDLE_SLEEP_S
  | (due, _) :: _ => fmax (fsub due now) (flit 0)
  end.

(** ** Batcher *)

Record Batcher := mkBatcher {
  size : nat; window : float64; reports : list Report; oldest_at : float64 }.

Definition new_batcher (size : nat) (window : float64) : Batcher := mkBatcher size window [] (flit 0).

Definition add (report : Report) (now : float64) (b : Batcher) : Batcher :=
  mkBatcher (size b) (window b) (reports b ++ [report])
            (match reports b with [] => now | _ => oldest_at b end).

Definition remaining (now : float64) (b : Batcher) : option float64 :=
  match reports b with
  | [] => None
  | _ => Some (fmax (fsub (fadd (oldest_at b) (window b)) now) (flit 0))
  end.

Definition ready (now : float64) (b : Batcher) : bool :=
  match remaining now b with
  | None => false
  | Some secs => (size b <=? length (reports b))%nat || fleb secs (flit 0)
  end.

Definition take_batch (b : Batcher) : list Report * Batcher :=
  if (length (reports b) <=? size b)%nat
  then (reports b, mkBatcher (size b) (window b) [] (oldest_at b))
  else (take (size b) (reports b), mkBatcher (size b) (window b) (drop (size b) (reports b)) (oldest_at b)).

(** [while batcher.ready(now): offer(batcher.take())], at most [fuel] times. *)
Fixpoint drain_ready (fuel : nat) (now : float64) (b : Batcher) : list (list Report) * Batcher :=
  match fuel with
  | O => ([], b)
  | S fuel =>
      if ready now b
      then let '(batch, b) := take_batch b in
           let '(batches, b) := drain_ready fuel now b in (batch :: batches, b)
      else ([], b)
  end.

(** ** Devices *)

(** The generators are values of type [R]. *)
Record Devices {R : Type} := mkDevices {
  states : list DeviceState;
  rngs : list R;
  clocks : list R;
  dts : list float64;
  area : Area;
  interval : float64;
  driving : bool;
  stream : R;
  schedule : Schedule
}.
Arguments Devices : clear implicits.
Arguments mkDevices {R}.

Section devices.
Context `{Libm} `{Random}.

Definition JITTER : float64 := fdec 2 10.
Definition jittered_interval (interval : float64) (r : rng) : float64 * rng :=
  let '(x, r) := uniform (fsub (flit 1) JITTER) (fadd (flit 1) JITTER) r in (fmul interval x, r).

(** The part of [Config] a fleet reads. *)
Definition new_devices (seed : Z) (interval : float64) (area : Area) (st : list DeviceState) (r : rng) : Devices rng :=
  mkDevices st ((λ s, device_rng seed (device_id s)) <$> st) ((λ s, report_rng seed (device_id s)) <$> st)
            (replicate (length st) interval) area interval false r [].

Definition with_schedule (h : Schedule) (r : rng) (d : Devices rng) : Devices rng :=
  mkDevices (states d) (rngs d) (clocks d) (dts d) (area d) (interval d) (driving d) r h.
Definition set_driving (b : bool) (d : Devices rng) : Devices rng :=
  mkDevices (states d) (rngs d) (clocks d) (dts d) (area d) (interval d) b (stream d) (schedule d).

(** One iteration of the loop of [start]. *)
Definition arm (now spread : float64) (count : nat) (d : Devices rng) (index : nat) : res (Devices rng) :=
  let! i := float_of_int (Z.of_nat index) in
  let! n := float_of_int (Z.of_nat count) in
  let! offset := fdiv (fmul spread i) n in
  let '(x, r) := random (stream d) in
  Ok (with_schedule (push index (fadd (fadd now offset) (fmul x (interval d))) (schedule d)) r d).

Fixpoint arm_all (now spread : float64) (count : nat) (indexes : list nat) (d : Devices rng) : res (Devices rng) :=
  match indexes with
  | [] => Ok d
  | i :: l => let! d := arm now spread count d i in arm_all now spread count l d
  end.

Definition start (now spread : float64) (d : Devices rng) : res (Devices rng) :=
  let count := length (states d) in
  arm_all now spread count (seq 0 count) (with_schedule [] (stream d) d).

Definition ALREADY_DRIVEN (count : nat) : string :=
  "a fleet of " +:+ pretty count +:+ " devices is already being driven; one slice of the fleet belongs to exactly one task".

(** Entering [with devices.driving(now, spread=spread)]; leaving it is [set_driving false]. *)
Definition enter_driving (now spread : float64) (d : Devices rng) : res (Devices rng) :=
  if driving d then Raise (RuntimeError (ALREADY_DRIVEN (length (states d))))
  else start now spread (set_driving true d).

Definition nth_of {A} (l : list A) (i : nat) : res A :=
  match l !! i with Some a => Ok a | None => Raise IndexError end.

Definition step (index : nat) (moment : Z) (d : Devices rng) : res (Report * Devices rng) :=
  let! state := nth_of (states d) index in
  let! dt := nth_of (dts d) index in
  let! r := nth_of (rngs d) index in
  let! (state, r) := advance state dt (area d) r in
  Ok (report_payload state moment,
      mkDevices (<[index := state]> (states d)) (<[index := r]> (rngs d)) (clocks d) (dts d)
                (area d) (interval d) (driving d) (stream d) (schedule d)).

Definition reschedule (now : float64) (d : Devices rng) (index : nat) : res (Devices rng) :=
  let! clock := nth_of (clocks d) index in
  let '(delay, clock) := jittered_interval (interval d) clock in
  Ok (mkDevices (states d) (rngs d) (<[index := clock]> (clocks d)) (<[index := delay]> (dts d))
                (area d) (interval d) (driving d) (stream d) (push index (fadd now delay) (schedule d))).

Definition defer (until : float64) (d : Devices rng) (index : nat) : Devices rng :=
  let '(delay, r) := jittered_interval (interval d) (stream d) in
  with_schedule (push index (fadd until delay) (schedule d)) r d.

(** ** What the transports do with the devices that are due *)

(** [reports = [devices.step(index, moment) for index in due]] of [_send_forever], and then
    the loop over [devices.reschedule]. *)
Fixpoint step_all (due : list nat) (moment : Z) (d : Devices rng) : res (list Report * Devices rng) :=
  match due with
  | [] => Ok ([], d)
  | i :: l => let! (r, d) := step i moment d in
              let! (rs, d) := step_all l moment d in Ok (r :: rs, d)
  end.
Fixpoint reschedule_all (due : list nat) (now : float64) (d : Devices rng) : res (Devices rng) :=
  match due with
  | [] => Ok d
  | i :: l => let! d := reschedule now d i in reschedule_all l now d
  end.
Definition ws_tick (now : float64) (moment : Z) (d : Devices rng) : res (list nat * list Report * Devices rng) :=
  let '(due, h) := pop_due now (schedule d) in
  let! (rs, d) := step_all due moment (with_schedule h (stream d) d) in
  let! d := reschedule_all due now d in
  Ok (due, rs, d).

(** The loop of [_produce]: each device is rescheduled as soon as it has reported. *)
Fixpoint serve_due (due : list nat) (now : float64) (moment : Z) (b : Batcher) (d : Devices rng) :
    res (list Report * Batcher * Devices rng) :=
  match due with
  | [] => Ok ([], b, d)
  | i :: l =>
      let! (r, d) := step i moment d in
      let! d := reschedule now d i in
      let! (rs, b, d) := serve_due l now moment (add r now b) d in
      Ok (r :: rs, b, d)
  end.
Definition http_tick (now : float64) (moment : Z) (b : Batcher) (d : Devices rng) :
    res (list nat * list Report * Batcher * Devices rng) :=
  let '(due, h) := pop_due now (schedule d) in
  let! (rs, b, d) := serve_due due now moment b (with_schedule h (stream d) d) in
  Ok (due, rs, b, d).

(** Backpressure: everything that is due is put back. *)
Definition defer_tick (now until : float64) (d : Devices rng) : list nat * Devices rng :=
  let '(due, h) := pop_due now (schedule d) in
  (due, foldl (defer until) (with_schedule h (stream d) d) due).
End devices.

(** ** One life per device

    What a device will do next depends on these four values and on nothing else. *)
Record Life {R : Type} := mkLife { l_state : DeviceState; l_rng : R; l_clock : R; l_dt : float64 }.
Arguments Life : clear implicits.
Arguments mkLife {R}.

Section lives.
Context `{Libm} `{Random}.



Definition life (d : Devices rng) (i : nat) : option (Life rng) :=
  st ← states d !! i; r ← rngs d !! i; c ← clocks d !! i; t ← dts d !! i; Some (mkLife st r c t).

Definition born (seed : Z) (interval : float64) (st : DeviceState) : Life rng :=
  mkLife st (device_rng seed (device_id st)) (report_rng seed (device_id st)) interval.

Definition Coordinates : Type := float64 * float64.
Definition coordinates (r : Report) : Coordinates := (rep_latitude r, rep_longitude r).

(** One report of the specification: move over the scheduled interval, draw the next one. *)
Definition next_report (a : Area) (interval : float64) (l : Life rng) : res (Coordinates * Life rng) :=
  let! (st, r) := advance (l_state l) (l_dt l) a (l_rng l) in
  let '(delay, clock) := jittered_interval interval (l_clock l) in
  Ok ((round7 (lat st), round7 (lon st)), mkLife st r clock delay).

(** The coordinates of the first [n] reports. *)
Fixpoint trajectory (a : Area) (interval : float64) (n : nat) (l : Life rng) : res (list Coordinates * Life rng) :=
  match n with
  | O => Ok ([], l)
  | S n => let! (cs, l) := trajectory a interval n l in
           let! (c, l) := next_report a interval l in
           Ok (cs ++ [c], l)
  end.

(** *** Runs: the owner of the fleet arms it and serves it, in any order and at any time *)

(** The reports of a run, each with the index of its device. *)
Notation Log := (list (nat * Report)).
Inductive fleet_step : Devices rng * Log → Devices rng * Log → Prop :=
  | fleet_start now spread d d' log :
      start now spread d = Ok d' → fleet_step (d, log) (d', log)
  | fleet_owner b d log : fleet_step (d, log) (set_driving b d, log)
  | fleet_ws now moment d due rs d' log :
      ws_tick now moment d = Ok (due, rs, d') → fleet_step (d, log) (d', log ++ zip due rs)
  | fleet_http now moment b d due rs b' d' log :
      http_tick now moment b d = Ok (due, rs, b', d') → fleet_step (d, log) (d', log ++ zip due rs)
  | fleet_defer now until d due d' log :
      defer_tick now until d = (due, d') → fleet_step (d, log) (d', log).

Definition reports_of (i : nat) (log : Log) : list Report := (filter (λ e, e.1 = i) log).*2.

(** *** Lemmas *)

Definition indexes (h : Schedule) : list nat := h.*2.

Lemma push_indexes i t h : indexes (push i t h) ≡ₚ i :: indexes h.
Proof.
  unfold push, indexes. induction h as [|x h IH]; [done|]. cbn [push_entry].
  case_decide; [done|]. rewrite fmap_cons, IH. cbn. by apply Permutation_swap.
Qed.

Lemma pop_due_indexes now h due rest :
  pop_due now h = (due, rest) → indexes h = due ++ indexes rest.
Proof.
  revert due rest. induction h as [|[t i] h IH]; intros due rest E; cbn in E; [by simplify_eq|].
  destruct (fleb t now); [|by simplify_eq]. destruct (pop_due now h) as [l r]. simplify_eq.
  unfold indexes in *. cbn. f_equal. by apply IH.
Qed.

Lemma life_update d i l st r c t h s :
  life d i = Some l →
  ∀ d', d' = mkDevices (<[i := st]> (states d)) (<[i := r]> (rngs d)) (<[i := c]> (clocks d)) (<[i := t]> (dts d))
              (area d) (interval d) (driving d) s h →
  life d' i = Some (mkLife st r c t) ∧ ∀ j, j ≠ i → life d' j = life d j.
Proof.
  unfold life. intros Hl d' ->. cbn.
  destruct (states d !! i) eqn:E1, (rngs d !! i) eqn:E2, (clocks d !! i) eqn:E3, (dts d !! i) eqn:E4;
    cbn in Hl; try done.
  split.
  - by rewrite !list_lookup_insert_eq by (by eapply lookup_lt_Some).
  - intros j Hj. by rewrite !list_lookup_insert_ne by done.
Qed.

Lemma life_lookups d i l : life d i = Some l →
  states d !! i = Some (l_state l) ∧ rngs d !! i = Some (l_rng l) ∧
  clocks d !! i = Some (l_clock l) ∧ dts d !! i = Some (l_dt l).
Proof.
  unfold life. intros Hl.
  destruct (states d !! i), (rngs d !! i), (clocks d !! i), (dts d !! i); cbn in Hl; by simplify_eq/=.
Qed.

Lemma nth_of_Some {A} (l : list A) i a : nth_of l i = Ok a ↔ l !! i = Some a.
Proof. unfold nth_of. destruct (l !! i); naive_solver. Qed.

Lemma step_life i m d rep d' l : life d i = Some l → step i m d = Ok (rep, d') →
  ∃ st r, advance (l_state l) (l_dt l) (area d) (l_rng l) = Ok (st, r) ∧ rep = report_payload st m ∧
    life d' i = Some (mkLife st r (l_clock l) (l_dt l)) ∧ (∀ j, j ≠ i → life d' j = life d j) ∧
    area d' = area d ∧ interval d' = interval d ∧ schedule d' = schedule d.
Proof.
  intros Hl E. destruct (life_lookups _ _ _ Hl) as (E1 & E2 & E3 & E4).
  unfold step, nth_of in E. rewrite E1, E4, E2 in E. cbn [bind] in E.
  destruct (advance _ _ _ _) as [[st r]|e]; [|done]. cbn [bind] in E. simplify_eq.
  exists st, r. split; [done|]. split; [done|].
  destruct (life_update d i l st r (l_clock l) (l_dt l) (schedule d) (stream d) Hl _ eq_refl) as [H1 H2].
  rewrite (list_insert_id (clocks d)), (list_insert_id (dts d)) in H1, H2 by done. auto.
Qed.

Lemma reschedule_life now d i d' l : life d i = Some l → reschedule now d i = Ok d' →
  ∃ delay clock, jittered_interval (interval d) (l_clock l) = (delay, clock) ∧
    life d' i = Some (mkLife (l_state l) (l_rng l) clock delay) ∧ (∀ j, j ≠ i → life d' j = life d j) ∧
    area d' = area d ∧ interval d' = interval d ∧ schedule d' = push i (fadd now delay) (schedule d).
Proof.
  intros Hl E. destruct (life_lookups _ _ _ Hl) as (E1 & E2 & E3 & E4).
  unfold reschedule, nth_of in E. rewrite E3 in E. cbn [bind] in E.
  destruct (jittered_interval _ _) as [delay clock]. simplify_eq.
  exists delay, clock. split; [done|].
  destruct (life_update d i l (l_state l) (l_rng l) clock delay (push i (fadd now delay) (schedule d)) (stream d) Hl _ eq_refl) as [H1 H2].
  rewrite (list_insert_id (states d)), (list_insert_id (rngs d)) in H1, H2 by done. auto.
Qed.

(** The four lists run in parallel. *)
Definition aligned (d : Devices rng) : Prop :=
  length (rngs d) = length (states d) ∧ length (clocks d) = length (states d) ∧
  length (dts d) = length (states d).

Lemma aligned_life d i : aligned d → is_Some (states d !! i) → is_Some (life d i).
Proof.
  intros (H1 & H2 & H3) Hi%lookup_lt_is_Some. unfold life.
  destruct (lookup_lt_is_Some_2 (states d) i Hi) as [st ->].
  destruct (lookup_lt_is_Some_2 (rngs d) i ltac:(lia)) as [r ->].
  destruct (lookup_lt_is_Some_2 (clocks d) i ltac:(lia)) as [c ->].
  destruct (lookup_lt_is_Some_2 (dts d) i ltac:(lia)) as [t ->]. by eexists.
Qed.

Lemma step_aligned i m d rep d' : aligned d → step i m d = Ok (rep, d') → aligned d' ∧ is_Some (life d i).
Proof.
  intros Ha E. assert (Hi : is_Some (states d !! i)).
  { unfold step, nth_of in E. destruct (states d !! i); [by eexists|done]. }
  pose proof (aligned_life d i Ha Hi) as [l Hl]. split; [|by eexists].
  destruct (life_lookups _ _ _ Hl) as (E1 & E2 & E3 & E4).
  unfold step, nth_of in E. rewrite E1, E4, E2 in E. cbn [bind] in E.
  destruct (advance _ _ _ _) as [[st r]|e]; [|done]. cbn [bind] in E. simplify_eq.
  unfold aligned in *. cbn. by rewrite !length_insert.
Qed.

Lemma reschedule_aligned now d i d' : aligned d → reschedule now d i = Ok d' → aligned d'.
Proof.
  unfold reschedule. intros Ha E. destruct (nth_of _ _) as [c|e]; [|done]. cbn [bind] in E.
  destruct (jittered_interval _ _) as [delay clock]. simplify_eq. unfold aligned in *. cbn. by rewrite !length_insert.
Qed.

(** The devices of [due] have each lived through one report of the specification, the
    others through none; [sched] is what was pushed back. *)
Definition served (d : Devices rng) (due : list nat) (rs : list Report) (d' : Devices rng) : Prop :=
  length rs = length due ∧ aligned d' ∧ area d' = area d ∧ interval d' = interval d ∧
  (∀ i, i ∉ due → life d' i = life d i) ∧
  (∀ k i, due !! k = Some i → ∃ l rep l', life d i = Some l ∧ rs !! k = Some rep ∧
     next_report (area d) (interval d) l = Ok (coordinates rep, l') ∧ life d' i = Some l').

Lemma step_all_lives due m d rs d' : NoDup due → aligned d → step_all due m d = Ok (rs, d') →
  length rs = length due ∧ aligned d' ∧ area d' = area d ∧ interval d' = interval d ∧ schedule d' = schedule d ∧
  (∀ i, i ∉ due → life d' i = life d i) ∧
  (∀ k i, due !! k = Some i → ∃ l st r, life d i = Some l ∧
     advance (l_state l) (l_dt l) (area d) (l_rng l) = Ok (st, r) ∧ rs !! k = Some (report_payload st m) ∧
     life d' i = Some (mkLife st r (l_clock l) (l_dt l))).
Proof.
  intros Hnd. revert d rs d'. induction Hnd as [|i due Hi Hnd IH]; intros d rs d' Ha E; cbn in E.
  { simplify_eq. do 6 (split; [done|]). done. }
  destruct (step i m d) as [[rep d1]|] eqn:E1; [|done]. cbn [bind] in E.
  destruct (step_all due m d1) as [[rs2 d2]|] eqn:E2; [|done]. cbn [bind] in E. simplify_eq.
  destruct (step_aligned _ _ _ _ _ Ha E1) as [Ha1 [l Hl]].
  destruct (step_life _ _ _ _ _ _ Hl E1) as (st & r & Hadv & -> & Hl1 & Hoth & Har & Hin & Hsch).
  destruct (IH _ _ _ Ha1 E2) as (Hlen & Ha2 & Har2 & Hin2 & Hsch2 & Hout & Hdue). rewrite Har in Hdue.
  split; [cbn; lia|]. split; [done|]. do 3 (split; [congruence|]). split.
  - intros j Hj. rewrite not_elem_of_cons in Hj. rewrite Hout by tauto. apply Hoth. tauto.
  - intros [|k] j Hk; cbn in Hk; simplify_eq/=.
    + exists l, st, r. repeat split; try done. by rewrite Hout.
    + destruct (Hdue k j Hk) as (lj & stj & rj & Hlj & ? & ? & ?). exists lj, stj, rj.
      rewrite Hoth in Hlj by (intros ->; apply Hi; by eapply list_elem_of_lookup_2). done.
Qed.

Lemma reschedule_all_lives due now d d' : NoDup due → aligned d →
  (∀ i, i ∈ due → is_Some (life d i)) → reschedule_all due now d = Ok d' →
  aligned d' ∧ area d' = area d ∧ interval d' = interval d ∧
  indexes (schedule d') ≡ₚ due ++ indexes (schedule d) ∧
  (∀ i, i ∉ due → life d' i = life d i) ∧
  (∀ i l, i ∈ due → life d i = Some l →
     life d' i = Some (mkLife (l_state l) (l_rng l) (jittered_interval (interval d) (l_clock l)).2
                              (jittered_interval (interval d) (l_clock l)).1)).
Proof.
  intros Hnd. revert d d'. induction Hnd as [|i due Hi Hnd IH]; intros d d' Ha Hlives E; cbn in E.
  { simplify_eq. do 5 (split; [done|]). intros ? ? Hx. by apply elem_of_nil in Hx. }
  destruct (reschedule now d i) as [d1|] eqn:E1; [|done]. cbn [bind] in E.
  destruct (Hlives i ltac:(set_solver)) as [l Hl].
  destruct (reschedule_life _ _ _ _ _ Hl E1) as (delay & clock & Hj & Hl1 & Hoth & Har & Hin & Hsch).
  destruct (IH d1 d') as (Ha2 & Har2 & Hin2 & Hidx & Hout & Hdue); [by eapply reschedule_aligned| |done|].
  { intros j Hj'. rewrite Hoth by (intros ->; done). apply Hlives. set_solver. }
  rewrite Hin in Hdue. split; [done|]. do 2 (split; [congruence|]). split; [|split].
  - rewrite Hidx, Hsch, push_indexes. cbn. by rewrite Permutation_middle.
  - intros j Hj'. rewrite not_elem_of_cons in Hj'. rewrite Hout by tauto. apply Hoth. tauto.
  - intros j lj [->|Hjd]%elem_of_cons Hlj.
    + rewrite Hout by done. rewrite Hl in Hlj. simplify_eq. by rewrite Hl1, Hj.
    + apply Hdue; [done|]. rewrite Hoth by (intros ->; done). done.
Qed.

Lemma next_report_eq a iv l st r m : advance (l_state l) (l_dt l) a (l_rng l) = Ok (st, r) →
  next_report a iv l = Ok (coordinates (report_payload st m),
    mkLife st r (jittered_interval iv (l_clock l)).2 (jittered_interval iv (l_clock l)).1).
Proof. intros E. unfold next_report. rewrite E. cbn [bind]. by destruct (jittered_interval _ _). Qed.

Lemma ws_tick_served now m d due rs d' : NoDup (indexes (schedule d)) → aligned d →
  ws_tick now m d = Ok (due, rs, d') →
  served d due rs d' ∧ indexes (schedule d') ≡ₚ indexes (schedule d) ∧ NoDup due.
Proof.
  unfold ws_tick. intros Hnd Ha E. destruct (pop_due now (schedule d)) as [due0 h] eqn:Ep.
  destruct (step_all _ _ _) as [[rs0 d1]|] eqn:E1; [|done]. cbn [bind] in E.
  destruct (reschedule_all _ _ _) as [d2|] eqn:E2; [|done]. cbn [bind] in E. simplify_eq.
  rewrite (pop_due_indexes _ _ _ _ Ep) in Hnd |- *. apply NoDup_app in Hnd as (Hnd & _ & _).
  destruct (step_all_lives due m (with_schedule h (stream d) d) _ _ Hnd Ha E1) as (Hlen & Ha1 & Har & Hin & Hsch & Hout & Hdue).
  change (area (with_schedule h (stream d) d)) with (area d) in *.
  change (interval (with_schedule h (stream d) d)) with (interval d) in *.
  change (life (with_schedule h (stream d) d)) with (life d) in *.
  destruct (reschedule_all_lives due now d1 d' Hnd Ha1) as (Ha2 & Har2 & Hin2 & Hidx & Hout2 & Hdue2); [|done|].
  { intros i [k Hk]%list_elem_of_lookup. destruct (Hdue k i Hk) as (? & ? & ? & _ & _ & _ & ->). by eexists. }
  split; [|split; [by rewrite Hidx, Hsch|done]].
  split; [done|]. split; [done|]. do 2 (split; [congruence|]). split.
  - intros i Hi. rewrite Hout2, Hout; done.
  - intros k i Hk. destruct (Hdue k i Hk) as (l & st & r & Hl & Hadv & Hrs & Hl').
    eexists l, _, _. split; [done|]. split; [done|]. split; [by apply next_report_eq|].
    rewrite (Hdue2 i _ ltac:(by eapply list_elem_of_lookup_2) Hl'). by rewrite Hin.
Qed.

Lemma serve_due_served due now m b d rs b' d' : NoDup due → aligned d →
  serve_due due now m b d = Ok (rs, b', d') →
  served d due rs d' ∧ indexes (schedule d') ≡ₚ due ++ indexes (schedule d) ∧
  reports b' = reports b ++ rs ∧ size b' = size b ∧ window b' = window b.
Proof.
  intros Hnd. revert b d rs b' d'. induction Hnd as [|i due Hi Hnd IH]; intros b d rs b' d' Ha E; cbn in E.
  { simplify_eq. rewrite app_nil_r. repeat split; try done; by apply Ha. }
  destruct (step i m d) as [[rep d1]|] eqn:E1; [|done]. cbn [bind] in E.
  destruct (reschedule now d1 i) as [d2|] eqn:E2; [|done]. cbn [bind] in E.
  destruct (serve_due _ _ _ _ _) as [[[rs3 b3] d3]|] eqn:E3; [|done]. cbn [bind] in E. simplify_eq.
  destruct (step_aligned _ _ _ _ _ Ha E1) as [Ha1 [l Hl]].
  destruct (step_life _ _ _ _ _ _ Hl E1) as (st & r & Hadv & -> & Hl1 & Hoth & Har & Hin & Hsch).
  pose proof (reschedule_aligned _ _ _ _ Ha1 E2) as Ha2.
  destruct (reschedule_life _ _ _ _ _ Hl1 E2) as (delay & clock & Hj & Hl2 & Hoth2 & Har2 & Hin2 & Hsch2).
  cbn [l_state l_rng l_clock] in *.
  destruct (IH _ _ _ _ _ Ha2 E3) as ((Hlen & Ha3 & Har3 & Hin3 & Hout & Hdue) & Hidx & Hrep & Hsz & Hw).
  rewrite Har2, Hin2, Har, Hin in Hdue.
  split; [|split; [|split; [by rewrite Hrep; cbn; rewrite <- app_assoc|done]]].
  - split; [cbn; lia|]. split; [done|]. do 2 (split; [congruence|]). split.
    + intros j Hj'. rewrite not_elem_of_cons in Hj'. rewrite Hout, Hoth2, Hoth by tauto. done.
    + intros [|k] j Hk; cbn in Hk; simplify_eq/=.
      * eexists l, _, _. split; [done|]. split; [done|]. split; [by apply next_report_eq|].
        rewrite Hout by done. rewrite Hl2, <- Hin, Hj. done.
      * assert (j ≠ i) by (intros ->; apply Hi; by eapply list_elem_of_lookup_2).
        destruct (Hdue k j Hk) as (lj & rj & lj' & Hlj & ? & ? & ?).
        rewrite Hoth2, Hoth in Hlj by done. by exists lj, rj, lj'.
  - rewrite Hidx, Hsch2, push_indexes, Hsch. cbn. by rewrite Permutation_middle.
Qed.

Lemma http_tick_served now m b d due rs b' d' : NoDup (indexes (schedule d)) → aligned d →
  http_tick now m b d = Ok (due, rs, b', d') →
  served d due rs d' ∧ indexes (schedule d') ≡ₚ indexes (schedule d) ∧ NoDup due ∧
  reports b' = reports b ++ rs ∧ size b' = size b ∧ window b' = window b.
Proof.
  unfold http_tick. intros Hnd Ha E. destruct (pop_due now (schedule d)) as [due0 h] eqn:Ep.
  destruct (serve_due _ _ _ _ _) as [[[rs0 b0] d1]|] eqn:E1; [|done]. cbn [bind] in E. simplify_eq.
  rewrite (pop_due_indexes _ _ _ _ Ep) in Hnd |- *. apply NoDup_app in Hnd as (Hnd & _ & _).
  destruct (serve_due_served due now m b (with_schedule h (stream d) d) rs b' d' Hnd Ha E1)
    as (Hs & Hidx & Hrest).
  split; [exact Hs|]. split; [exact Hidx|]. by split.
Qed.

Lemma defer_all_schedule until due d : aligned d →
  let d' := foldl (defer until) d due in
  indexes (schedule d') ≡ₚ due ++ indexes (schedule d) ∧ aligned d' ∧ states d' = states d ∧
  area d' = area d ∧ interval d' = interval d ∧ ∀ i, life d' i = life d i.
Proof.
  revert d. induction due as [|i due IH]; intros d Ha; [done|]. cbn [foldl].
  assert (Hd : ∃ t r, defer until d i = with_schedule (push i t (schedule d)) r d).
  { unfold defer. destruct (jittered_interval _ _) as [delay r]. by eexists _, _. }
  destruct Hd as (t & r & ->).
  destruct (IH (with_schedule (push i t (schedule d)) r d) Ha) as (Hidx & Ha' & Hst & Har & Hin & Hl).
  split; [|done]. rewrite Hidx. cbn [schedule with_schedule]. rewrite push_indexes. cbn.
  by rewrite Permutation_middle.
Qed.

Lemma arm_all_schedule now spread count l d d' : aligned d → arm_all now spread count l d = Ok d' →
  indexes (schedule d') ≡ₚ l ++ indexes (schedule d) ∧ aligned d' ∧ states d' = states d ∧
  area d' = area d ∧ interval d' = interval d ∧ ∀ i, life d' i = life d i.
Proof.
  revert d. induction l as [|i l IH]; intros d Ha E; cbn in E; [by simplify_eq|].
  destruct (arm now spread count d i) as [d1|] eqn:E1; [|done]. cbn [bind] in E.
  assert (Hd : ∃ t r, d1 = with_schedule (push i t (schedule d)) r d).
  { unfold arm in E1. destruct (float_of_int (Z.of_nat i)); [|done]. cbn [bind] in E1.
    destruct (float_of_int (Z.of_nat count)); [|done]. cbn [bind] in E1.
    destruct (fdiv _ _); [|done]. cbn [bind] in E1. destruct (random _) as [x r].
    simplify_eq. by eexists _, _. }
  destruct Hd as (t & r & ->).
  destruct (IH (with_schedule (push i t (schedule d)) r d) Ha E) as (Hidx & Ha' & Hst & Har & Hin & Hl).
  split; [|done]. rewrite Hidx. cbn [schedule with_schedule]. rewrite push_indexes. cbn.
  by rewrite Permutation_middle.
Qed.

(** Arming leaves every life alone and gives each device one deadline. *)
Lemma start_schedule now spread d d' : aligned d → start now spread d = Ok d' →
  indexes (schedule d') ≡ₚ seq 0 (length (states d)) ∧ aligned d' ∧ states d' = states d ∧
  area d' = area d ∧ interval d' = interval d ∧ ∀ i, life d' i = life d i.
Proof.
  unfold start. intros Ha E.
  destruct (arm_all_schedule _ _ _ _ (with_schedule [] (stream d) d) _ Ha E) as (Hidx & Hrest).
  by rewrite app_nil_r in Hidx.
Qed.

Lemma defer_tick_schedule now until d due d' : aligned d → defer_tick now until d = (due, d') →
  indexes (schedule d') ≡ₚ indexes (schedule d) ∧ aligned d' ∧ states d' = states d ∧
  area d' = area d ∧ interval d' = interval d ∧ ∀ i, life d' i = life d i.
Proof.
  unfold defer_tick. destruct (pop_due now (schedule d)) as [due0 h] eqn:Ep. intros Ha [= <- <-].
  rewrite (pop_due_indexes _ _ _ _ Ep).
  apply (defer_all_schedule until due0 (with_schedule h (stream d) d) Ha).
Qed.

(** *** The log of a tick, device by device *)

Lemma reports_of_app i l1 l2 : reports_of i (l1 ++ l2) = reports_of i l1 ++ reports_of i l2.
Proof. unfold reports_of. by rewrite list.filter_app, fmap_app. Qed.

Lemma reports_of_out i due rs : i ∉ due → reports_of i (zip due rs) = [].
Proof.
  unfold reports_of. revert rs. induction due as [|j due IH]; intros [|r rs] Hi; try done.
  cbn [zip zip_with]. rewrite not_elem_of_cons in Hi. rewrite filter_cons_False by (cbn; naive_solver). apply IH. tauto.
Qed.

Lemma reports_of_once i k due rs r : NoDup due → due !! k = Some i → rs !! k = Some r →
  reports_of i (zip due rs) = [r].
Proof.
  intros Hnd. revert k rs. induction Hnd as [|j due Hj Hnd IH]; intros k rs Hk Hr; [done|].
  destruct rs as [|r0 rs]; [done|]. cbn [zip zip_with]. destruct k as [|k]; cbn in Hk, Hr; simplify_eq.
  - unfold reports_of. rewrite filter_cons_True by done. cbn. f_equal. by apply reports_of_out.
  - assert (j ≠ i) by (intros ->; apply Hj; by eapply list_elem_of_lookup_2).
    unfold reports_of in *. rewrite filter_cons_False by done. by eapply IH.
Qed.

(** *** The invariant of a run *)

Definition follows (iv : float64) (a : Area) (lives : nat → option (Life rng)) (x : Devices rng * Log) : Prop :=
  NoDup (indexes (schedule x.1)) ∧ aligned x.1 ∧ area x.1 = a ∧ interval x.1 = iv ∧
  ∀ i l0, lives i = Some l0 → ∃ l, life x.1 i = Some l ∧
    trajectory a iv (length (reports_of i x.2)) l0 = Ok (coordinates <$> reports_of i x.2, l).

(** The devices that reported take one more step of the specification. *)
Lemma served_follows iv a lives d log due rs d' :
  follows iv a lives (d, log) → NoDup due → NoDup (indexes (schedule d')) → served d due rs d' →
  follows iv a lives (d', log ++ zip due rs).
Proof.
  intros (_ & _ & Ha & Hi & Hf) Hnd Hs (Hlen & Hal & Ha' & Hi' & Hout & Hdue). cbn [fst snd] in *.
  split; [done|]. split; [done|]. split; [cbn; congruence|]. split; [cbn; congruence|].
  intros i l0 Hl0. destruct (Hf i l0 Hl0) as (l & Hl & Ht). cbn [fst snd]. rewrite reports_of_app.
  destruct (decide (i ∈ due)) as [Hin|Hin].
  - destruct (list_elem_of_lookup_1 _ _ Hin) as [k Hk].
    destruct (Hdue k i Hk) as (l1 & rep & l2 & Hl1 & Hrep & Hnext & Hl2). rewrite Hl in Hl1. simplify_eq.
    rewrite (reports_of_once i k due rs rep Hnd Hk Hrep). exists l2. split; [done|].
    rewrite length_app, Nat.add_comm, fmap_app. cbn [length plus trajectory]. rewrite Ht. cbn [bind].
    by rewrite Hnext.
  - rewrite reports_of_out, app_nil_r, Hout by done. by exists l.
Qed.

Lemma same_lives_follows iv a lives d log d' :
  follows iv a lives (d, log) → NoDup (indexes (schedule d')) → aligned d' →
  area d' = area d → interval d' = interval d → (∀ i, life d' i = life d i) →
  follows iv a lives (d', log).
Proof.
  intros (_ & _ & Ha & Hi & Hf) Hs Hal Ha' Hi' Hl. cbn [fst snd] in *.
  split; [done|]. split; [done|]. split; [cbn; congruence|]. split; [cbn; congruence|].
  intros i l0 Hl0. cbn. rewrite Hl. by apply Hf.
Qed.

Lemma fleet_step_follows iv a lives x y : fleet_step x y → follows iv a lives x → follows iv a lives y.
Proof.
  intros Hstep Hx. pose proof Hx as (Hnd & Hal & _).
  destruct Hstep as [now spread d d' log E|b d log|now m d due rs d' log E|now m b d due rs b' d' log E|now until d due d' log E];
    cbn [fst snd] in *.
  - destruct (start_schedule _ _ _ _ Hal E) as (Hidx & Hal' & _ & Ha & Hi & Hl).
    eapply same_lives_follows; try done. rewrite Hidx. apply NoDup_seq.
  - by eapply same_lives_follows.
  - destruct (ws_tick_served _ _ _ _ _ _ Hnd Hal E) as (Hs & Hidx & Hdue).
    eapply served_follows; try done. by rewrite Hidx.
  - destruct (http_tick_served _ _ _ _ _ _ _ _ Hnd Hal E) as (Hs & Hidx & Hdue & _).
    eapply served_follows; try done. by rewrite Hidx.
  - destruct (defer_tick_schedule _ _ _ _ _ Hal E) as (Hidx & Hal' & _ & Ha & Hi & Hl).
    eapply same_lives_follows; try done. by rewrite Hidx.
Qed.

Lemma new_devices_follows seed iv a sts r :
  follows iv a (λ i, born seed iv <$> sts !! i) (new_devices seed iv a sts r, []).
Proof.
  split; [apply NoDup_nil_2|]. split; [unfold aligned; cbn; by rewrite !length_fmap, length_replicate|].
  do 2 (split; [done|]). intros i l0 Hl0. cbn in *.
  destruct (sts !! i) as [s|] eqn:E; [|done]. injection Hl0 as <-. exists (born seed iv s). split; [|done].
  unfold life, new_devices. cbn. rewrite !list_lookup_fmap, E.
  rewrite lookup_replicate_2 by (by eapply lookup_lt_Some). done.
Qed.

Lemma fleet_follows seed iv a sts r x :
  rtc fleet_step (new_devices seed iv a sts r, []) x → follows iv a (λ i, born seed iv <$> sts !! i) x.
Proof.
  revert x. apply (rtc_ind_r (follows iv a (λ i, born seed iv <$> sts !! i))); [apply new_devices_follows|].
  intros x y _ Hxy Hx. by eapply fleet_step_follows.
Qed.

(** *** One deadline per device *)

Lemma aligned_life_iff d i : aligned d → is_Some (life d i) ↔ (i < length (states d))%nat.
Proof.
  intros Ha. rewrite <- lookup_lt_is_Some. split; [|by apply aligned_life].
  intros [l (E & _)%life_lookups]. by eexists.
Qed.

Lemma served_length d due rs d' : aligned d → served d due rs d' → length (states d') = length (states d).
Proof.
  intros Ha (_ & Ha' & _ & _ & Hout & Hdue).
  assert (Hiff : ∀ i, is_Some (life d' i) ↔ is_Some (life d i)).
  { intros i. destruct (decide (i ∈ due)) as [[k Hk]%list_elem_of_lookup|]; [|by rewrite Hout].
    destruct (Hdue k i Hk) as (l & ? & l' & -> & _ & _ & ->). by split; eexists. }
  setoid_rewrite aligned_life_iff in Hiff; [|done..].
  pose proof (Hiff (length (states d))). pose proof (Hiff (length (states d'))). lia.
Qed.

Definition kept (n : nat) (d : Devices rng) : Prop :=
  aligned d ∧ length (states d) = n ∧ NoDup (indexes (schedule d)).
Definition all_scheduled (n : nat) (d : Devices rng) : Prop := indexes (schedule d) ≡ₚ seq 0 n.

Lemma same_schedule_kept n d d' : kept n d → aligned d' → length (states d') = length (states d) →
  indexes (schedule d') ≡ₚ indexes (schedule d) → kept n d' ∧ (all_scheduled n d → all_scheduled n d').
Proof.
  unfold kept, all_scheduled. intros (Hal & Hlen & Hnd) Hal' -> Hidx.
  rewrite Hidx. done.
Qed.

Lemma fleet_step_kept n x y : fleet_step x y → kept n x.1 → kept n y.1 ∧ (all_scheduled n x.1 → all_scheduled n y.1).
Proof.
  intros Hstep Hk. pose proof Hk as (Hal & Hlen & Hnd).
  destruct Hstep as [now spread d d' log E|b d log|now m d due rs d' log E|now m b d due rs b' d' log E|now until d due d' log E];
    cbn [fst snd] in *.
  - destruct (start_schedule _ _ _ _ Hal E) as (Hidx & Hal' & Hst & _). rewrite Hlen in Hidx.
    split; [|done]. split; [done|]. rewrite Hst, Hidx. split; [done|apply NoDup_seq].
  - done.
  - destruct (ws_tick_served _ _ _ _ _ _ Hnd Hal E) as (Hs & Hidx & _).
    apply same_schedule_kept; [done|apply Hs|by eapply served_length|done].
  - destruct (http_tick_served _ _ _ _ _ _ _ _ Hnd Hal E) as (Hs & Hidx & _).
    apply same_schedule_kept; [done|apply Hs|by eapply served_length|done].
  - destruct (defer_tick_schedule _ _ _ _ _ Hal E) as (Hidx & Hal' & Hst & _).
    apply same_schedule_kept; [done..|by rewrite Hst|done].
Qed.

Lemma run_kept n x y : rtc fleet_step x y → kept n x.1 → kept n y.1 ∧ (all_scheduled n x.1 → all_scheduled n y.1).
Proof.
  induction 1 as [x|x y z Hxy _ IH]; [done|]. intros Hk.
  destruct (fleet_step_kept n x y Hxy Hk) as [Hk' Hs]. destruct (IH Hk') as [Hk2 Hs2]. auto.
Qed.

Lemma new_devices_kept seed iv a sts r : kept (length sts) (new_devices seed iv a sts r).
Proof.
  split; [|split; [done|apply NoDup_nil_2]]. unfold aligned. cbn. by rewrite !length_fmap, length_replicate.
Qed.
End lives.

(** ** The claims *)

(** *** Two short runs of one cyclist *)

Module FleetDemo.
Import MotionRef.
Definition ok_or {A} (d : A) (m : res A) : A := match m with Ok a => a | Raise _ => d end.
Definition new_fleet : Devices rng := Eval vm_compute in new_devices 1 (flit 3) kyiv [cyclist] (seeded "ws").
Definition armed : Devices rng :=
  Eval vm_compute in ok_or new_fleet (enter_driving (flit 0) (flit 0) new_fleet).
Definition tick : list nat * list Report * Devices rng :=
  Eval vm_compute in ok_or ([], [], armed) (ws_tick (flit 10) 1700000000000000 armed).
Definition ticked : Devices rng := Eval vm_compute in tick.2.
Definition log : list (nat * Report) := Eval vm_compute in zip tick.1.1 tick.1.2.

Definition new_fleet' : Devices rng := Eval vm_compute in new_devices 1 (flit 3) kyiv [cyclist] (seeded "http").
Definition armed' : Devices rng :=
  Eval vm_compute in ok_or new_fleet' (start (flit 5) (flit 30) new_fleet').
Definition batcher : Batcher := new_batcher 2 (fdec 1 10).
Definition tick' : list nat * list Report * Batcher * Devices rng :=
  Eval vm_compute in ok_or ([], [], batcher, armed') (http_tick (flit 50) 1700000009000000 batcher armed').
Definition ticked' : Devices rng := Eval vm_compute in tick'.2.
Definition log' : list (nat * Report) := Eval vm_compute in zip tick'.1.1.1 tick'.1.1.2.

Lemma ws_run : rtc fleet_step (armed, []) (ticked, log).
Proof. apply rtc_once. change log with ([] ++ zip tick.1.1 tick.1.2). eapply (fleet_ws (flit 10) 1700000000000000). vm_compute. reflexivity. Qed.
Lemma ws_run_all : rtc fleet_step (new_devices 1 (flit 3) kyiv [cyclist] (seeded "ws"), []) (ticked, log).
Proof.
  change (new_devices 1 (flit 3) kyiv [cyclist] (seeded "ws")) with new_fleet.
  apply (rtc_l _ _ (set_driving true new_fleet, [])); [apply fleet_owner|].
  apply (rtc_l _ _ (armed, [])); [|exact ws_run]. eapply (fleet_start (flit 0) (flit 0)). vm_compute. reflexivity.
Qed.
Lemma http_run : rtc fleet_step (new_devices 1 (flit 3) kyiv [cyclist] (seeded "http"), []) (ticked', log').
Proof.
  change (new_devices 1 (flit 3) kyiv [cyclist] (seeded "http")) with new_fleet'.
  apply (rtc_l _ _ (armed', [])); [eapply (fleet_start (flit 5) (flit 30)); vm_compute; reflexivity|].
  apply rtc_once. change log' with ([] ++ zip tick'.1.1.1 tick'.1.1.2).
  eapply (fleet_http (flit 50) 1700000009000000 batcher). vm_compute. reflexivity.
Qed.
End FleetDemo.

(** C38: a running fleet refines one independent trajectory per device.  Whatever the owner
    does with the fleet and whenever - arm it again after a restart, serve what is due over
    either transport, hold devices back under pressure, hand the fleet over - the reports of
    each device are, coordinate for coordinate, the first reports of the trajectory that its
    seed and its starting state determine, and its state is the one that trajectory is in. *)
Theorem fleet_refines_trajectory `{Libm} `{Random} seed iv a sts r d log i st :
  rtc fleet_step (new_devices seed iv a sts r, []) (d, log) → sts !! i = Some st →
  ∃ l, trajectory a iv (length (reports_of i log)) (born seed iv st)
         = Ok (coordinates <$> reports_of i log, l) ∧
       life d i = Some l.
Proof.
  intros Hr Hst. destruct (fleet_follows _ _ _ _ _ _ Hr) as (_ & _ & _ & _ & Hf). cbn [fst snd] in Hf.
  destruct (Hf i (born seed iv st)) as (l & Hl & Ht); [by rewrite Hst|]. by exists l.
Qed.

Lemma trajectory_length `{Libm} `{Random} a iv n l cs l' : trajectory a iv n l = Ok (cs, l') → length cs = n.
Proof.
  revert cs l'. induction n as [|n IH]; intros cs l' E; cbn in E; [by simplify_eq|].
  destruct (trajectory a iv n l) as [[cs1 l1]|]; [|done]. cbn [bind] in E.
  destruct (next_report a iv l1) as [[c l2]|]; [|done]. cbn [bind] in E. simplify_eq.
  rewrite length_app, (IH cs1 l1) by done. cbn. lia.
Qed.

(** The first reports of a longer trajectory are those of a shorter one. *)
Lemma trajectory_prefix `{Libm} `{Random} a iv m n l cs l' cs2 l2 : (m ≤ n)%nat →
  trajectory a iv m l = Ok (cs, l') → trajectory a iv n l = Ok (cs2, l2) → cs `prefix_of` cs2.
Proof.
  intros Hmn Hm. revert cs2 l2. induction Hmn as [|n _ IH]; intros cs2 l2 E; [rewrite Hm in E; simplify_eq; reflexivity|].
  cbn in E. destruct (trajectory a iv n l) as [[cs1 l1]|]; [|done]. cbn [bind] in E.
  destruct (next_report a iv l1) as [[c l3]|]; [|done]. cbn [bind] in E. simplify_eq.
  by apply prefix_app_r, (IH cs1 l1).
Qed.

Lemma prefix_lookup_same {A} (l1 l2 : list A) n x y :
  l1 `prefix_of` l2 ∨ l2 `prefix_of` l1 → l1 !! n = Some x → l2 !! n = Some y → x = y.
Proof. intros [Hp|Hp] Hx Hy; [pose proof (prefix_lookup_Some _ _ _ _ Hx Hp)|pose proof (prefix_lookup_Some _ _ _ _ Hy Hp)]; congruence. Qed.

(** movement replays exactly under a seed.  In any two runs with the same seed, interval
    and area, the n-th report of a device carries the same coordinates in both, whatever the
    loop, the network, reconnects and restarts did in between, whatever slice of the fleet
    (however many connections) the device was served in and from whatever stream the owner
    drew its deadlines. *)
Lemma movement_replays `{Libm} `{Random} seed iv a st sts1 r1 d1 log1 i1 sts2 r2 d2 log2 i2 n rep1 rep2 :
  rtc fleet_step (new_devices seed iv a sts1 r1, []) (d1, log1) → sts1 !! i1 = Some st →
  rtc fleet_step (new_devices seed iv a sts2 r2, []) (d2, log2) → sts2 !! i2 = Some st →
  reports_of i1 log1 !! n = Some rep1 → reports_of i2 log2 !! n = Some rep2 →
  coordinates rep1 = coordinates rep2.
Proof.
  intros Hr1 H1 Hr2 H2 E1 E2.
  destruct (fleet_follows _ _ _ _ _ _ Hr1) as (_ & _ & _ & _ & Hf1).
  destruct (fleet_follows _ _ _ _ _ _ Hr2) as (_ & _ & _ & _ & Hf2). cbn [fst snd] in *.
  destruct (Hf1 i1 (born seed iv st)) as (l1 & _ & T1); [by rewrite H1|].
  destruct (Hf2 i2 (born seed iv st)) as (l2 & _ & T2); [by rewrite H2|].
  apply (prefix_lookup_same (coordinates <$> reports_of i1 log1) (coordinates <$> reports_of i2 log2) n).
  - destruct (Nat.le_ge_cases (length (reports_of i1 log1)) (length (reports_of i2 log2))) as [Hle|Hle].
    + left. by eapply trajectory_prefix.
    + right. by eapply trajectory_prefix.
  - by rewrite list_lookup_fmap, E1.
  - by rewrite list_lookup_fmap, E2.
Qed.

(** one owner, one deadline per device.  Once a fleet has been claimed, after any number
    of ticks, pauses and restarts every device has exactly one entry in the schedule - so no
    restart makes a device report at twice the rate and no failure loses it - and a second
    claim while the first one stands is refused. *)
Lemma one_deadline_each `{Libm} `{Random} seed iv a sts r x now spread d d' log :
  rtc fleet_step (new_devices seed iv a sts r, []) x →
  enter_driving now spread x.1 = Ok d → rtc fleet_step (d, x.2) (d', log) →
  indexes (schedule d') ≡ₚ seq 0 (length sts) ∧
  (∀ now' spread', driving d' = true →
     enter_driving now' spread' d' = Raise (RuntimeError (ALREADY_DRIVEN (length sts)))).
Proof.
  intros Hr Hd Hr'.
  destruct (run_kept (length sts) _ _ Hr (new_devices_kept _ _ _ _ _)) as [(Hal & Hlen & _) _].
  unfold enter_driving in Hd. destruct (driving x.1); [done|].
  destruct (start_schedule _ _ (set_driving true x.1) _ Hal Hd) as (Hidx & Hal' & Hst & _).
  change (states (set_driving true x.1)) with (states x.1) in *. rewrite Hlen in Hidx.
  destruct (run_kept (length sts) (d, x.2) (d', log) Hr') as [(_ & Hlen' & _) Hs].
  { split; [done|]. cbn. rewrite Hst, Hidx. split; [done|apply NoDup_seq]. }
  split; [by apply Hs|]. intros now' spread' Hdr. unfold enter_driving. cbn in Hlen'. by rewrite Hdr, Hlen'.
Qed.

(** ** The schedule and the batcher *)

Section order.
Implicit Types (x y z : float64) (a b e : Entry) (h : list Entry).

Lemma fleb_trans x y z : fleb x y = true → fleb y z = true → fleb x z = true.
Proof.
  destruct x as [n|[]|], y as [m|[]|], z as [k|[]|]; unfold fleb, fcompare; cbn; try done.
  destruct (Z.compare_spec n m), (Z.compare_spec m k), (Z.compare_spec n k); done || lia.
Qed.

Definition timed e : Prop := number e.1.

Lemma entry_le_fleb a b : timed a → entry_le a b → fleb a.1 b.1 = true.
Proof.
  unfold timed, number. destruct a as [x i], b as [y j]. cbn. intros Hx [Hlt|[E _]]; cbn in *; [|subst].
  - unfold fleb, fltb in *. by destruct (fcompare x y) as [[]|].
  - destruct y as [n|[]|]; [|done..]. unfold fleb, fcompare. by rewrite Z.compare_refl.
Qed.

Lemma entry_le_trans a b c : entry_le a b → entry_le b c → entry_le a c.
Proof.
  destruct a as [x i], b as [y j], c as [z k]. unfold entry_le. cbn.
  intros [Hxy|[E1 Hij]] [Hyz|[E2 Hjk]]; cbn in *; subst; [left|by left|by left|right; split; [done|lia]].
  destruct x as [n|[]|], y as [m|[]|], z as [l|[]|]; unfold fltb, fcompare in *; cbn in *; try done.
  destruct (Z.compare_spec n m), (Z.compare_spec m l), (Z.compare_spec n l); done || lia.
Qed.

Lemma entry_le_total a b : timed a → timed b → entry_le a b ∨ entry_le b a.
Proof.
  unfold timed, number, entry_le. destruct a as [x i], b as [y j]. cbn. intros Hx Hy.
  destruct (Nat.le_ge_cases i j), x as [n|[]|], y as [m|[]|]; unfold fltb, fcompare; cbn; try tauto;
    rewrite (Z.compare_antisym n m); destruct (Z.compare_spec n m); cbn; subst; tauto.
Qed.

Lemma push_entry_perm e h : push_entry e h ≡ₚ e :: h.
Proof.
  induction h as [|x h IH]; [done|]. cbn [push_entry]. case_decide; [done|]. rewrite IH. apply Permutation_swap.
Qed.

Lemma push_entry_sorted e h : timed e → Forall timed h → StronglySorted entry_le h →
  StronglySorted entry_le (push_entry e h).
Proof.
  intros He Hh Hs. induction Hs as [|x h Hs IH Hx]; [by repeat constructor|]. cbn [push_entry].
  apply Forall_cons in Hh as [Hxt Hh]. case_decide as Hd.
  - constructor; [by constructor|]. constructor; [done|]. eapply Forall_impl; [done|]. eauto using entry_le_trans.
  - constructor; [by apply IH|]. rewrite push_entry_perm. constructor; [|done].
    by destruct (entry_le_total e x).
Qed.

Lemma pop_due_filter now h : Forall timed h → StronglySorted entry_le h →
  pop_due now h = ((filter (λ e, fleb e.1 now = true) h).*2, filter (λ e, ¬ fleb e.1 now = true) h).
Proof.
  intros Ht Hs. induction Hs as [|[t i] h Hs IH Hx]; [done|]. apply Forall_cons in Ht as [Ht Hh].
  cbn [pop_due]. destruct (fleb t now) eqn:E.
  - rewrite IH, filter_cons_True, filter_cons_False by (cbn; try done; rewrite E; auto). done.
  - assert (Hall : Forall (λ e, ¬ fleb e.1 now = true) ((t, i) :: h)).
    { constructor; [cbn; by rewrite E|]. eapply Forall_impl; [done|]. intros e He Hle.
      pose proof (fleb_trans t e.1 now (entry_le_fleb (t, i) e Ht He) Hle). congruence. }
    rewrite (filter_keeps _ _ Hall). f_equal.
    by rewrite (filter_none _ _ Hall).
Qed.
End order.

(** the schedule serves exactly what is due, oldest deadline first.  However the deadlines
    were pushed, popping at [now] returns the devices whose deadline has come, in the order of
    their deadlines and of their numbers within one deadline, and leaves the others. *)
Lemma schedule_pops_due entries now : Forall timed entries →
  ∃ h : list Entry, h ≡ₚ entries ∧ StronglySorted entry_le h ∧
    pop_due now (foldr (λ e, push e.2 e.1) [] entries)
      = ((filter (λ e, fleb e.1 now = true) h).*2, filter (λ e, ¬ fleb e.1 now = true) h).
Proof.
  intros Ht. set (h := foldr _ _ _). exists h.
  assert (Hh : h ≡ₚ entries ∧ StronglySorted entry_le h).
  { unfold h. clear h. induction Ht as [|[t i] entries He Ht [IHp IHs]]; [by split; constructor|]. cbn [foldr fst snd].
    unfold push at 1 3. split; [by rewrite push_entry_perm, IHp|].
    apply push_entry_sorted; [done|by rewrite IHp|done]. }
  destruct Hh as [Hp Hs]. do 2 (split; [done|]). apply pop_due_filter; [by rewrite Hp|done].
Qed.

(** What one request takes, and what it leaves. *)
Lemma take_batch_spec b batch b' : (0 < size b)%nat → reports b ≠ [] → take_batch b = (batch, b') →
  batch ++ reports b' = reports b ∧ (0 < length batch ≤ size b)%nat ∧
  (reports b' = [] ∨ length batch = size b) ∧ size b' = size b ∧ window b' = window b.
Proof.
  intros Hs Hr E. assert (Hpos : (0 < length (reports b))%nat) by (destruct (reports b); [done|cbn; lia]).
  unfold take_batch in E. destruct (Nat.leb_spec (length (reports b)) (size b)); simplify_eq/=.
  - rewrite app_nil_r. repeat split; auto; lia.
  - rewrite take_drop, length_take. repeat split; auto; lia.
Qed.

Lemma ready_reports now b : ready now b = true → reports b ≠ [].
Proof. unfold ready, remaining. by destruct (reports b). Qed.

(** the loop that turns reports into requests ends, and loses nothing.  With a positive
    request size it runs at most once per report: every request is non-empty and within the
    size limit, all but the last one are full, their concatenation with what is left is
    exactly what was collected, and what is left does not have to leave yet. *)
Lemma batches_drain now b fuel : (0 < size b)%nat → (length (reports b) ≤ fuel)%nat →
  let '(batches, b') := drain_ready fuel now b in
  ready now b' = false ∧ concat batches ++ reports b' = reports b ∧
  Forall (λ l, 0 < length l ≤ size b)%nat batches ∧
  (∀ k l, batches !! k = Some l → (S k < length batches)%nat → length l = size b).
Proof.
  revert b. induction fuel as [|fuel IH]; intros b Hs Hf; cbn [drain_ready].
  { split; [|by repeat constructor]. unfold ready, remaining. destruct (reports b); [done|cbn in Hf; lia]. }
  destruct (ready now b) eqn:Er; [|by split; [|repeat constructor]].
  destruct (take_batch b) as [batch b1] eqn:Et.
  destruct (take_batch_spec b batch b1 Hs (ready_reports _ _ Er) Et) as (Hcat & Hlen & Hfull & Hsz & Hw).
  assert (length (reports b) = length batch + length (reports b1))%nat by (by rewrite <- Hcat, length_app).
  specialize (IH b1 ltac:(lia) ltac:(lia)). destruct (drain_ready fuel now b1) as [batches b2] eqn:Ed.
  destruct IH as (Hready & Hcat2 & Hall & Hfulls). rewrite Hsz in *.
  split; [done|]. split; [cbn; by rewrite <- app_assoc, Hcat2|]. split; [by constructor|].
  intros [|k] l Hk Hlt; cbn in Hk, Hlt; [|apply (Hfulls k l Hk); lia]. injection Hk as <-.
  destruct Hfull as [Hnil|]; [|done]. exfalso. destruct fuel; cbn in Ed; [simplify_eq; cbn in Hlt; lia|].
  unfold ready, remaining in Ed. rewrite Hnil in Ed. simplify_eq. cbn in Hlt. lia.
Qed.

(** ** The claims on concrete runs *)

#[local] Existing Instance MotionRef.libm.
#[local] Existing Instance MotionRef.counter.

Lemma fleet_refines_trajectory_witness :
  ∃ l, trajectory MotionRef.kyiv (flit 3) 1 (born 1 (flit 3) MotionRef.cyclist)
         = Ok (coordinates <$> FleetDemo.log.*2, l) ∧ life FleetDemo.ticked 0 = Some l.
Proof.
  exact (fleet_refines_trajectory 1 (flit 3) MotionRef.kyiv [MotionRef.cyclist] (seeded "ws")
           FleetDemo.ticked FleetDemo.log 0 MotionRef.cyclist FleetDemo.ws_run_all eq_refl).
Defined.

Lemma movement_replays_witness :
  coordinates <$> reports_of 0 FleetDemo.log !! 0%nat = coordinates <$> reports_of 0 FleetDemo.log' !! 0%nat.
Proof.
  destruct (reports_of 0 FleetDemo.log !! 0%nat) as [x|] eqn:Ex; [|vm_compute in Ex; discriminate].
  destruct (reports_of 0 FleetDemo.log' !! 0%nat) as [y|] eqn:Ey; [|vm_compute in Ey; discriminate].
  cbn. f_equal.
  exact (movement_replays 1 (flit 3) MotionRef.kyiv MotionRef.cyclist [MotionRef.cyclist] (seeded "ws")
    FleetDemo.ticked FleetDemo.log 0 [MotionRef.cyclist] (seeded "http") FleetDemo.ticked' FleetDemo.log' 0
    0 x y FleetDemo.ws_run_all eq_refl FleetDemo.http_run eq_refl Ex Ey).
Defined.

Lemma one_deadline_each_witness :
  indexes (schedule FleetDemo.ticked) ≡ₚ [0%nat] ∧
  (∀ now' spread', driving FleetDemo.ticked = true →
     enter_driving now' spread' FleetDemo.ticked = Raise (RuntimeError (ALREADY_DRIVEN 1))).
Proof.
  apply (one_deadline_each 1 (flit 3) MotionRef.kyiv [MotionRef.cyclist] (seeded "ws")
           (FleetDemo.new_fleet, []) (flit 0) (flit 0) FleetDemo.armed FleetDemo.ticked FleetDemo.log).
  - reflexivity.
  - vm_compute. reflexivity.
  - exact FleetDemo.ws_run.
Defined.

Lemma schedule_pops_due_witness :
  let entries := [(flit 4, 0%nat); (flit 2, 2%nat); (flit 2, 1%nat)] in
  ∃ h : list Entry, h ≡ₚ entries ∧ StronglySorted entry_le h ∧
    pop_due (flit 3) (foldr (λ e, push e.2 e.1) [] entries)
      = ((filter (λ e, fleb e.1 (flit 3) = true) h).*2, filter (λ e, ¬ fleb e.1 (flit 3) = true) h).
Proof. apply (schedule_pops_due [(flit 4, 0%nat); (flit 2, 2%nat); (flit 2, 1%nat)] (flit 3)). by repeat constructor. Defined.

Lemma batches_drain_witness :
  let rep := mkReport "dev-00007" (flit 50) (flit 30) 1700000000000000 in
  let b := mkBatcher 2 (flit 1) [rep; rep; rep] (flit 0) in
  let '(batches, b') := drain_ready 3 (flit 1) b in
  ready (flit 1) b' = false ∧ concat batches ++ reports b' = reports b ∧
  Forall (λ l, 0 < length l ≤ size b)%nat batches ∧
  (∀ k l, batches !! k = Some l → (S k < length batches)%nat → length l = size b).
Proof.
  apply (batches_drain (flit 1)
    (mkBatcher 2 (flit 1) (replicate 3 (mkReport "dev-00007" (flit 50) (flit 30) 1700000000000000)) (flit 0)) 3);
    cbn; lia.
Defined.
