(* ===== verification/Keys.v ===== *)
(** * Redis names and shard placement
    (src/geotrack/messaging/keys.py, src/geotrack/sharding.py) *)
From S2P Require Import Prelude Text.

(** ** UUIDs: a 128-bit integer and its text *)

Definition hex_digit (n : Z) : ascii :=
  ascii_of_N (Z.to_N (if n <? 10 then 48 + n else 87 + n)).
Definition hex_value (c : ascii) : option Z :=
  if between 48 57 c then Some (code c - 48)
  else if between 97 102 c then Some (code c - 87)
  else if between 65 70 c then Some (code c - 55)
  else None.

(** The [k] low-order hexadecimal digits of [v]. *)
Fixpoint hex_fixed (k : nat) (v : Z) : list ascii :=
  match k with
  | O => []
  | S k' => hex_fixed k' (v / 16) ++ [hex_digit (v mod 16)]
  end.
Definition int16 (l : list ascii) : option Z :=
  foldl (λ acc c, a ← acc; d ← hex_value c; Some (16 * a + d)) (Some 0) l.

(** [str(uuid)]: lower-case digits grouped 8-4-4-4-12. *)
Definition uuid_str (v : Z) : string :=
  let h := hex_fixed 32 v in
  of_chars (take 8 h ++ "-"%char :: take 4 (drop 8 h) ++ "-"%char :: take 4 (drop 12 h)
            ++ "-"%char :: take 4 (drop 16 h) ++ "-"%char :: drop 20 h).

Fixpoint remove_all (fuel : nat) (p s : string) : string :=
  match fuel, s with
  | O, _ | _, EmptyString => s
  | S fuel', String c s' =>
      match drop_prefix p s with
      | Some rest => remove_all fuel' p rest
      | None => String c (remove_all fuel' p s')
      end
  end.
Definition str_remove (p s : string) : string := remove_all (String.length s) p s.
Definition brace (c : ascii) : bool := bool_decide (c = "{"%char ∨ c = "}"%char).
Fixpoint drop_while (f : ascii → bool) (l : list ascii) : list ascii :=
  match l with [] => [] | c :: l' => if f c then drop_while f l' else l end.

(** [int(text, 16)] of an ASCII text without a minus sign: white space around it, a plus
    sign, a prefix 0x and single underscores between digits are taken too. *)
Fixpoint underscored (acc : Z) (after_digit : bool) (l : list ascii) : option Z :=
  match l with
  | [] => if after_digit then Some acc else None
  | c :: l' =>
      if decide (c = "_"%char) then if after_digit then underscored acc false l' else None
      else d ← hex_value c; underscored (16 * acc + d) true l'
  end.
Definition after_plus (l : list ascii) : list ascii :=
  match l with c :: l' => if decide (c = "+"%char) then l' else l | [] => [] end.
Definition after_0x (l : list ascii) : list ascii :=
  match l with
  | c :: x :: l' =>
      if decide (c = "0"%char ∧ (x = "x"%char ∨ x = "X"%char))
      then match l' with u :: l'' => if decide (u = "_"%char) then l'' else l' | [] => [] end
      else l
  | _ => l
  end.
Definition int_base16 (l : list ascii) : option Z :=
  underscored 0 false
    (after_0x (after_plus (drop_while py_space (reverse (drop_while py_space (reverse l)))))).

(** [UUID(text)]: "urn:", "uuid:", braces and dashes are dropped, and 32 characters that
    [int] takes as hexadecimal must remain. *)
Definition uuid_of_str (text : string) : res Z :=
  let t := str_remove "uuid:" (str_remove "urn:" text) in
  let t := drop_while brace (reverse (drop_while brace (reverse (chars t)))) in
  let digits := filter (λ c, c ≠ "-"%char) t in
  if decide (length digits = 32%nat) then
    match int_base16 digits with
    | Some v => Ok v
    | None => Raise (ValueError "invalid literal for int() with base 16")
    end
  else Raise (ValueError "badly formed hexadecimal UUID string").

(** ** Names *)

Definition PREFIX : string := "geo:".
Definition DLQ_STREAM : string := PREFIX +:+ "ingest:dlq".
Definition SHARDS_META_KEY : string := PREFIX +:+ "meta:shards".
Definition MAINTENANCE_LEASE_KEY : string := PREFIX +:+ "lease:maintenance".
Definition PROCESSORS_ZSET : string := PREFIX +:+ "processors".
Definition POSITIONS_CHANNEL : string := PREFIX +:+ "ch:positions".

Definition ingest_stream (shard : Z) : string := PREFIX +:+ "ingest:" +:+ pretty shard.
Definition consumer_name (shard : Z) : string := "shard-" +:+ pretty shard.
Definition shard_lease_key (shard : Z) : string := PREFIX +:+ "lease:shard:" +:+ pretty shard.
Definition user_channel (user_id : Z) : string := PREFIX +:+ "ch:user:" +:+ uuid_str user_id.
Definition sessions_zset_key (user_id : Z) : string := PREFIX +:+ "sessions:" +:+ uuid_str user_id.
Definition sessions_meta_key (user_id : Z) : string :=
  PREFIX +:+ "sessions:" +:+ uuid_str user_id +:+ ":meta".

(** [UUID(channel.rsplit(":", 1)[1])]. *)
Definition user_id_from_channel (channel : string) : res Z :=
  match after_last ":"%char channel with
  | Some text => uuid_of_str text
  | None => Raise IndexError
  end.

(** ** CRC-32 and shard placement *)

Definition crc_bit (c : Z) : Z :=
  if Z.testbit c 0 then Z.lxor (Z.shiftr c 1) 0xEDB88320 else Z.shiftr c 1.
Definition crc_byte (crc : Z) (b : ascii) : Z :=
  Nat.iter 8 crc_bit (Z.lxor crc (code b)).
(** [zlib.crc32]: the reflected CRC-32 of ISO-HDLC. *)
Definition crc32 (s : string) : Z :=
  Z.lxor (foldl crc_byte 0xFFFFFFFF (chars s)) 0xFFFFFFFF.

Definition shard_for (device_id : string) (shards : Z) : res Z :=
  if shards <? 1 then Raise (ValueError "shards must be a positive integer")
  else Ok (crc32 device_id mod shards).

(** The check value every CRC-32 implementation must produce. *)
Example crc32_check : crc32 "123456789" = 0xCBF43926.
Proof. vm_compute. reflexivity. Qed.

(** ** Lemmas *)

Lemma shard_for_range d shards s : shard_for d shards = Ok s → 0 ≤ s < shards.
Proof.
  unfold shard_for. destruct (Z.ltb_spec shards 1); [done|]. intros [= <-].
  apply Z.mod_pos_bound; lia.
Qed.
Lemma shard_for_total d shards : 1 ≤ shards → ∃ s, shard_for d shards = Ok s.
Proof. intros H. unfold shard_for. destruct (Z.ltb_spec shards 1); [lia|eauto]. Qed.

Lemma ingest_stream_inj : Inj (=) (=) ingest_stream.
Proof. intros a b H. unfold ingest_stream in H. by apply string_app_inv_l, string_app_inv_l, (inj pretty) in H. Qed.

Definition hexish (c : ascii) : Prop := between 48 57 c || between 97 102 c = true.

Lemma hex_digit_spec n : 0 ≤ n < 16 → hex_value (hex_digit n) = Some n ∧ hexish (hex_digit n).
Proof.
  intros H.
  assert (n ∈ seqZ 0 16) as Hn by (apply elem_of_seqZ; lia).
  revert n H Hn. unfold hexish.
  cut (Forall (λ n, hex_value (hex_digit n) = Some n ∧
        between 48 57 (hex_digit n) || between 97 102 (hex_digit n) = true) (seqZ 0 16)).
  { intros Hf n _ Hn. by eapply Forall_forall in Hf. }
  repeat constructor.
Qed.

Lemma hex_fixed_length k v : length (hex_fixed k v) = k.
Proof. revert v. induction k as [|k IH]; intros v; [done|]. cbn. rewrite length_app, IH. cbn. lia. Qed.
Lemma hex_fixed_hexish k v : Forall hexish (hex_fixed k v).
Proof.
  revert v. induction k as [|k IH]; intros v; [constructor|]. cbn. apply Forall_app; split; [done|].
  constructor; [|constructor]. apply hex_digit_spec, Z.mod_pos_bound; lia.
Qed.
Lemma int16_hex_fixed k v : 0 ≤ v < 16 ^ Z.of_nat k → int16 (hex_fixed k v) = Some v.
Proof.
  revert v. induction k as [|k IH]; intros v Hv.
  - cbn in *. f_equal. lia.
  - cbn. unfold int16. rewrite foldl_app. fold (int16 (hex_fixed k (v / 16))).
    rewrite Nat2Z.inj_succ, Z.pow_succ_r in Hv by lia.
    rewrite IH by (split; [apply Z.div_pos; lia|apply Z.div_lt_upper_bound; lia]).
    cbn. destruct (hex_digit_spec (v mod 16)) as [-> _]; [apply Z.mod_pos_bound; lia|].
    cbn. f_equal. rewrite (Z.div_mod v 16) at 3 by lia. lia.
Qed.

Lemma chars_of_chars l : chars (of_chars l) = l.
Proof. induction l as [|c l IH]; [done|]. cbn. by rewrite IH. Qed.

(** The characters of a UUID's text: lower-case hexadecimal digits and dashes. *)
Definition uuid_char (c : ascii) : Prop := hexish c ∨ c = "-"%char.

Lemma uuid_str_chars v : Forall uuid_char (chars (uuid_str v)).
Proof.
  unfold uuid_str. rewrite chars_of_chars.
  assert (Hh : Forall uuid_char (hex_fixed 32 v))
    by (eapply Forall_impl; [apply hex_fixed_hexish|by left]).
  generalize dependent (hex_fixed 32 v). intros h Hh.
  repeat first [apply Forall_app; split | apply Forall_cons; split; [by right|]
               | apply Forall_take | apply Forall_drop]; done.
Qed.

Lemma not_uuid_char c l : ¬ uuid_char c → Forall uuid_char l → c ∉ l.
Proof. intros Hc Hl Hin. eapply Forall_forall in Hl; eauto. Qed.

Ltac not_uuid := intros [H|H]; [vm_compute in H; discriminate H | discriminate H].

Lemma remove_all_id fuel c p s : c ∉ chars s → remove_all fuel (String c p) s = s.
Proof.
  revert s. induction fuel as [|fuel IH]; intros [|d s] Hc; [done..|]. cbn in Hc.
  cbn. case_decide; [set_solver|]. rewrite IH; [done|set_solver].
Qed.

Lemma drop_while_none f l : Forall (λ c, f c = false) l → drop_while f l = l.
Proof. destruct 1 as [|c l Hc]; [done|]. cbn. by rewrite Hc. Qed.

Lemma filter_hexish l : Forall hexish l → filter (λ c, c ≠ "-"%char) l = l.
Proof.
  induction 1 as [|c l Hc _ IH]; [done|]. rewrite filter_cons_True, IH; [done|].
  intros ->. vm_compute in Hc. discriminate.
Qed.

Lemma no_digits l : foldl (λ acc c, a ← acc; d ← hex_value c; Some (16 * a + d)) None l = None.
Proof. by induction l. Qed.

Lemma underscored_hex l acc :
  Forall hexish l → underscored acc true l = foldl (λ acc c, a ← acc; d ← hex_value c; Some (16 * a + d)) (Some acc) l.
Proof.
  intros Hl. revert acc. induction Hl as [|c l Hc Hl IH]; intros acc; [done|]. cbn [underscored foldl].
  rewrite decide_False by (by intros ->). cbn. destruct (hex_value c) as [d|]; cbn; [apply IH|].
  by rewrite no_digits.
Qed.

Lemma int_base16_hex l : l ≠ [] → Forall hexish l → int_base16 l = int16 l.
Proof.
  intros Hne Hl. assert (Hs : ∀ k, Forall hexish k → Forall (λ c, py_space c = false) k).
  { intros k Hk. eapply Forall_impl; [exact Hk|]. intros c Hc. unfold hexish, py_space, is_space, between in *. lia. }
  unfold int_base16. rewrite (drop_while_none py_space (reverse l)) by by apply Hs, Forall_reverse.
  rewrite reverse_involutive, drop_while_none by by apply Hs.
  destruct Hl as [|c l Hc Hl]; [done|]. unfold after_plus. rewrite decide_False by (by intros ->).
  assert (after_0x (c :: l) = c :: l) as ->.
  { destruct Hl as [|x l Hx Hl]; [done|]. cbn [after_0x]. rewrite decide_False; [done|].
    intros [_ [->| ->]]; by vm_compute in Hx. }
  cbn [underscored]. rewrite decide_False by (by intros ->). unfold int16. cbn.
  destruct (hex_value c) as [d|]; cbn; [by rewrite underscored_hex|]. by rewrite no_digits.
Qed.

Lemma uuid_roundtrip v : 0 ≤ v < 2 ^ 128 → uuid_of_str (uuid_str v) = Ok v.
Proof.
  intros Hv. unfold uuid_of_str, str_remove. pose proof (uuid_str_chars v) as Hc.
  rewrite (remove_all_id _ "u"%char "rn:"); [|eapply not_uuid_char; [not_uuid|done]].
  rewrite (remove_all_id _ "u"%char "uid:"); [|eapply not_uuid_char; [not_uuid|done]].
  assert (Hb : ∀ l, Forall uuid_char l → Forall (λ c, brace c = false) l).
  { intros l Hl. eapply Forall_impl; [done|]. intros c [Hx| ->]; [|done].
    unfold brace. apply bool_decide_eq_false. by intros [->| ->]. }
  rewrite (drop_while_none brace (reverse (chars (uuid_str v)))) by by apply Hb, Forall_reverse.
  rewrite reverse_involutive, drop_while_none by by apply Hb.
  unfold uuid_str. rewrite chars_of_chars.
  pose proof (hex_fixed_hexish 32 v) as Hh. pose proof (hex_fixed_length 32 v) as Hl.
  set (h := hex_fixed 32 v) in *.
  repeat (rewrite filter_app || rewrite (filter_cons_False _ "-"%char) by auto).
  rewrite !filter_hexish by auto using Forall_take, Forall_drop.
  assert (take 8 h ++ take 4 (drop 8 h) ++ take 4 (drop 12 h) ++ take 4 (drop 16 h) ++ drop 20 h = h)
    as ->.
  { change (drop 12 h) with (drop (4 + 8) h). change (drop 16 h) with (drop (4 + (4 + 8)) h).
    change (drop 20 h) with (drop (4 + (4 + (4 + 8))) h).
    rewrite <- !drop_drop. by rewrite !take_drop. }
  rewrite decide_True, int_base16_hex by (done || by intros E; rewrite E in Hl).
  unfold h. rewrite int16_hex_fixed; [done|]. exact Hv.
Qed.

(** The gateway recovers the user a channel was named after. *)
Lemma user_channel_roundtrip user_id :
  0 ≤ user_id < 2 ^ 128 → user_id_from_channel (user_channel user_id) = Ok user_id.
Proof.
  intros Hv. unfold user_id_from_channel, user_channel, PREFIX.
  change ("geo:" +:+ "ch:user:" +:+ uuid_str user_id)
    with ("geo:ch:user" +:+ String ":" (uuid_str user_id)).
  rewrite after_last_app; [by apply uuid_roundtrip|].
  eapply not_uuid_char; [not_uuid|apply uuid_str_chars].
Qed.

Lemma user_channel_not_positions user_id : user_channel user_id ≠ POSITIONS_CHANNEL.
Proof. by intros [=]. Qed.

Lemma user_channel_utf8 user_id : utf8_valid (user_channel user_id) = true.
Proof.
  apply ascii_utf8. unfold ascii_only, user_channel, PREFIX. rewrite !chars_app, !forallb_app.
  apply andb_true_iff. split; [done|]. apply andb_true_iff. split; [done|].
  apply forallb_forall. intros c Hc%list_elem_of_In.
  pose proof (uuid_str_chars user_id) as Hu. rewrite Forall_forall in Hu.
  destruct (Hu c Hc) as [Hx| ->]; [|done]. unfold hexish, between in *. lia.
Qed.
