(* ===== verification/Shards.v ===== *)
(** * The shard count every replica has to agree on
    (src/geotrack/ingest/shards.py and _verify_shard_count of
    src/geotrack/processor/service.py)

    The value under [SHARDS_META_KEY] and the two ways a replica checks its own setting
    against it at start-up: the API in one command, the processor in two. Replicas
    start, fail and are started again with other settings in any order. *)
From S2P Require Import Prelude Text Json JsonRef Keys.

(** What Redis holds under [SHARDS_META_KEY]. *)
Definition Slot : Type := option string.

(** [SET key shards NX]; with [GET] the reply is what was there before. *)
Definition claim (shards : Z) (slot : Slot) : Slot :=
  match slot with None => Some (pretty shards) | Some _ => slot end.

Definition ShardCountMismatchError (shards : Z) (recorded : string) : exn :=
  RuntimeError ("configured for " +:+ pretty shards +:+ " ingest shards, but the queue is partitioned into "
                +:+ recorded +:+ ": drain the ingest streams and clear " +:+ SHARDS_META_KEY
                +:+ " before changing INGEST_SHARDS, or set it back to " +:+ recorded).

(** [verify_shard_count] of the API; text and text are compared. *)
Definition verify_shard_count (shards : Z) (slot : Slot) : Slot * res unit :=
  (claim shards slot,
   match slot with
   | None => Ok tt
   | Some recorded =>
       if utf8_valid recorded then
         if decide (recorded = pretty shards) then Ok tt else Raise (ShardCountMismatchError shards recorded)
       else Raise UnicodeDecodeError
   end).

Section processor.
(** [int(recorded)] of the bytes, [None] when it raises ValueError. *)
Variable int_of_str : string → option Z.

(** [_verify_shard_count] of the processor after its SET: the GET and the comparison. *)
Definition check_recorded (shards : Z) (slot : Slot) : res unit :=
  match slot with
  | None => Ok tt
  | Some recorded =>
      match int_of_str recorded with
      | None => Raise (ValueError "invalid literal for int()")
      | Some n =>
          if decide (n = shards) then Ok tt
          else Raise (RuntimeError ("this replica is configured for " +:+ pretty shards
                 +:+ " ingest shards, but the cluster is running " +:+ pretty n))
      end
  end.

(** ** Replicas starting over one Redis *)

Inductive Tier := Api | Processor.
Inductive Phase :=
  | Booting
  | Claimed                 (* the processor, between its two commands *)
  | Up
  | Refused (e : exn).

Record Replica := mkReplica { tier : Tier; configured : Z; phase : Phase }.
Record Cluster := mkCluster { slot : Slot; replicas : gmap nat Replica }.

Definition settled (r : res unit) : Phase := match r with Ok _ => Up | Raise e => Refused e end.
Definition with_phase (i : nat) (r : Replica) (p : Phase) (s : Slot) (c : Cluster) : Cluster :=
  mkCluster s (<[i := mkReplica (tier r) (configured r) p]> (replicas c)).

Inductive cluster_step : Cluster → Cluster → Prop :=
  (* a replica is deployed, or deployed again with another setting *)
  | cl_deploy c i t n : cluster_step c (mkCluster (slot c) (<[i := mkReplica t n Booting]> (replicas c)))
  | cl_stop c i : cluster_step c (mkCluster (slot c) (delete i (replicas c)))
  | cl_api c i r s' v : replicas c !! i = Some r → tier r = Api → phase r = Booting →
      verify_shard_count (configured r) (slot c) = (s', v) →
      cluster_step c (with_phase i r (settled v) s' c)
  | cl_claim c i r : replicas c !! i = Some r → tier r = Processor → phase r = Booting →
      cluster_step c (with_phase i r Claimed (claim (configured r) (slot c)) c)
  | cl_check c i r : replicas c !! i = Some r → phase r = Claimed →
      cluster_step c (with_phase i r (settled (check_recorded (configured r) (slot c))) (slot c) c)
  (* a command fails, before or after Redis ran it *)
  | cl_fail c i r s' : replicas c !! i = Some r → phase r = Booting ∨ phase r = Claimed →
      s' = slot c ∨ (phase r = Booting ∧ s' = claim (configured r) (slot c)) →
      cluster_step c (with_phase i r (Refused RedisError) s' c).

(** What is recorded, as a count. *)
Definition recorded_count (s : Slot) : option Z := s ≫= int_of_str.

Record cluster_ok (c : Cluster) : Prop := {
  up_agrees i r : replicas c !! i = Some r → phase r = Up → recorded_count (slot c) = Some (configured r);
  claimed_recorded i r : replicas c !! i = Some r → phase r = Claimed → is_Some (slot c) }.

Context (int_of_pretty : ∀ k, int_of_str (pretty k) = Some k).

Lemma recorded_stable (s s' : Slot) n m :
  s' = s ∨ s' = claim n s → recorded_count s = Some m → recorded_count s' = Some m.
Proof. intros [->| ->]; [done|]. by destruct s. Qed.

Lemma with_phase_ok c i r p s' :
  cluster_ok c → s' = slot c ∨ s' = claim (configured r) (slot c) →
  (p = Up → recorded_count s' = Some (configured r)) → (p = Claimed → is_Some s') →
  cluster_ok (with_phase i r p s' c).
Proof.
  intros [Hu Hc] Hs Hp Hp'. split; intros j x; cbn; rewrite lookup_insert; case_decide.
  - intros [= <-]. exact Hp.
  - intros Hj Hx. by eapply recorded_stable, Hu.
  - intros [= <-]. exact Hp'.
  - intros Hj Hx. destruct (Hc _ _ Hj Hx) as [t Ht]. destruct Hs as [->| ->]; rewrite Ht; eauto.
Qed.

Lemma verify_agrees n s s' : verify_shard_count n s = (s', Ok tt) → recorded_count s' = Some n.
Proof.
  unfold verify_shard_count, recorded_count. intros [= <- Hv]. destruct s as [t|]; cbn; [|by rewrite int_of_pretty].
  destruct (utf8_valid t); [|done]. case_decide as E; [|done]. subst t. apply int_of_pretty.
Qed.

Lemma check_agrees n s : is_Some s → check_recorded n s = Ok tt → recorded_count s = Some n.
Proof.
  unfold check_recorded, recorded_count. intros [t ->]. cbn. destruct (int_of_str t); [|done].
  by case_decide as E; [subst|].
Qed.

Lemma cluster_step_ok c c' : cluster_ok c → cluster_step c c' → cluster_ok c'.
Proof.
  intros Hok Hstep. destruct Hstep as [c0 i t n|c0 i|c0 i r s' v Hi Ht Hp Hv|c0 i r Hi Ht Hp|c0 i r Hi Hp|c0 i r s' Hi Hp Hs].
  - destruct Hok as [Hu Hc]. split; intros j x; cbn; rewrite lookup_insert; case_decide;
      (intros E Hx; first [injection E as <-; discriminate Hx|eapply Hu; eassumption|eapply Hc; eassumption]).
  - destruct Hok as [Hu Hc]. split; intros j x; cbn; intros [_ E]%lookup_delete_Some Hx; [eapply Hu|eapply Hc]; eassumption.
  - apply with_phase_ok; [done|right; by injection Hv as <- _|..]; destruct v as [[]|]; try done.
    intros _. by eapply verify_agrees.
  - apply with_phase_ok; [done|by right|done|]. intros _. destruct (slot c0); cbn; eauto.
  - apply with_phase_ok; [done|by left|..]; destruct (check_recorded _ _) as [[]|] eqn:E; try done.
    intros _. apply check_agrees; [by eapply claimed_recorded|done].
  - apply with_phase_ok; [done| |done..]. destruct Hs as [?|[_ ?]]; auto.
Qed.
End processor.

(** ** Properties *)

(** C30: the fleet agrees on the partitioning. Whatever Redis held at first and in
    whatever order API and processor replicas are deployed, fail, stop and are deployed
    again with other settings, all replicas that are up use the same shard count; so
    every stream an API replica can put a report on is one a processor looks for. *)
Theorem shard_count_agreed int_of_str s0 c i j r q d shard :
  (∀ k, int_of_str (pretty k) = Some k) →
  rtc (cluster_step int_of_str) (mkCluster s0 ∅) c →
  replicas c !! i = Some r → phase r = Up → replicas c !! j = Some q → phase q = Up →
  shard_for d (configured r) = Ok shard →
  configured r = configured q ∧
  ingest_stream shard ∈ (ingest_stream <$> seqZ 0 (configured q)).
Proof.
  intros Hpretty Hr Hi Hup Hj Huq Hd.
  assert (Hok : cluster_ok int_of_str c).
  { revert c Hr Hi Hj. intros c Hr _ _. revert c Hr.
    apply (rtc_ind_r (cluster_ok int_of_str)); [by split; intros *; cbn; rewrite lookup_empty|].
    intros c1 c2 _ Hstep H1. by eapply cluster_step_ok. }
  assert (E : configured r = configured q).
  { pose proof (up_agrees _ _ Hok _ _ Hi Hup). pose proof (up_agrees _ _ Hok _ _ Hj Huq). congruence. }
  split; [done|]. apply list_elem_of_fmap_2, elem_of_seqZ.
  pose proof (shard_for_range _ _ _ Hd). lia.
Qed.

(** The processor's check is the weaker one: it reads a number where the API compares
    texts, so a padded value is accepted by one tier and refused by the other. *)
Lemma tiers_read_differently int_of_str n recorded :
  utf8_valid recorded = true → recorded ≠ pretty n → int_of_str recorded = Some n →
  check_recorded int_of_str n (Some recorded) = Ok tt ∧
  (verify_shard_count n (Some recorded)).2 = Raise (ShardCountMismatchError n recorded).
Proof.
  intros Hu Hne Hi. unfold check_recorded, verify_shard_count. cbn.
  by rewrite Hi, Hu, decide_True, decide_False by done.
Qed.

(** ** A processor, an API replica, and an API replica with another setting *)
Module ShardSamples.
Definition processor : Replica := mkReplica Processor 8 Booting.
Definition api : Replica := mkReplica Api 8 Booting.
Definition c : Cluster :=
  mkCluster (Some "8") {[0%nat := mkReplica Processor 8 Up; 1%nat := mkReplica Api 8 Up]}.

Lemma c_reachable : rtc (cluster_step Ref.int_of) (mkCluster None ∅) c.
Proof.
  eapply rtc_l; [apply (cl_deploy _ _ 0 Processor 8)|].
  eapply rtc_l; [eapply (cl_claim _ _ 0 processor); vm_compute; reflexivity|].
  eapply rtc_l; [apply (cl_deploy _ _ 1 Api 8)|].
  eapply rtc_l; [eapply (cl_api _ _ 1 api); vm_compute; reflexivity|].
  eapply rtc_l; [eapply (cl_check _ _ 0 (mkReplica Processor 8 Claimed)); vm_compute; reflexivity|].
  match goal with |- rtc _ ?x _ => assert (x = c) as -> by (vm_compute; reflexivity) end. constructor.
Qed.
End ShardSamples.

Lemma shard_count_agreed_witness :
  (verify_shard_count 9 (slot ShardSamples.c)).2 = Raise (ShardCountMismatchError 9 "8") ∧
  8 = 8 ∧ ingest_stream 4 ∈ (ingest_stream <$> seqZ 0 8).
Proof.
  split; [vm_compute; reflexivity|].
  apply (shard_count_agreed Ref.int_of None ShardSamples.c 1 0 (mkReplica Api 8 Up) (mkReplica Processor 8 Up)
           "dev-00002" 4 Ref.int_of_pretty ShardSamples.c_reachable); vm_compute; reflexivity.
Defined.
