(* ===== verification/Codec.v ===== *)
(** * Wire formats of stream entries and position broadcasts
    (src/geotrack/messaging/codec.py) *)
From S2P Require Import Prelude Floats Geo Text Json JsonRef.

(** [PositionItem = tuple[str, float, float, int]]. *)
Record PositionItem := mkItem {
  item_id : string; item_lat : float64; item_lon : float64; item_ms : Z }.

Record LocationRecord := mkRecord {
  device_id : string; lat : float64; lon : float64; reported_ms : Z; received_ms : Z }.

#[export] Instance PositionItem_eq_dec : EqDecision PositionItem.
Proof. solve_decision. Defined.
#[export] Instance LocationRecord_eq_dec : EqDecision LocationRecord.
Proof. solve_decision. Defined.

Definition position_item (r : LocationRecord) : PositionItem :=
  mkItem (device_id r) (lat r) (lon r) (reported_ms r).

(** An item as the JSON array it is written as. *)
Definition item_json (i : PositionItem) : json :=
  JArr [JStr (item_id i); JFloat (item_lat i); JFloat (item_lon i); JInt (item_ms i)].

Definition nonempty_str (j : json) : option string :=
  match j with JStr s => if decide (s = "") then None else Some s | _ => None end.

Definition in_range (lo hi : Z) (x : float64) : bool :=
  fleb (flit lo) x && fleb x (flit hi).

Section codec.
Context `{Orjson}.
Variable float_of_str : string → option float64.
Variable int_of_str : string → option Z.

Definition record_json (r : LocationRecord) : json :=
  JArr [JStr (device_id r); JFloat (lat r); JFloat (lon r);
        JInt (reported_ms r); JInt (received_ms r)].
Definition encode_record (r : LocationRecord) : string := dumps (record_json r).

(** The checks of [decode_record] on a parsed payload, in order. *)
Definition record_of_json (payload : json) : res LocationRecord :=
  match payload with
  | JArr [jid; jlat; jlon; jrep; jrec] =>
      match nonempty_str jid with
      | None => Raise (CodecError "device_id must be a non-empty string")
      | Some d =>
      match as_number jlat, as_number jlon with
      | Some xlat, Some xlon =>
          if negb (isfinite xlat) || negb (isfinite xlon)
          then Raise (CodecError "latitude and longitude must be finite")
          else if negb (in_range (-90) 90 xlat) || negb (in_range (-180) 180 xlon)
          then Raise (CodecError "latitude or longitude out of range")
          else match as_int jrep, as_int jrec with
          | Some rep, Some rec =>
              let! flat := py_float float_of_str jlat in
              let! flon := py_float float_of_str jlon in
              Ok (mkRecord d flat flon rep rec)
          | _, _ => Raise (CodecError "timestamps must be integers")
          end
      | _, _ => Raise (CodecError "latitude and longitude must be numbers")
      end
      end
  | _ => Raise (CodecError "record must be a 5-element array")
  end.

Definition decode_record (raw : string) : res LocationRecord :=
  match loads raw with
  | None => Raise (CodecError "invalid json")
  | Some payload => record_of_json payload
  end.

Definition encode_positions (items : list PositionItem) : string :=
  dumps (JObj [("items", JArr (item_json <$> items))]).

Definition item_of_json (j : json) : res PositionItem :=
  match j with
  | JArr [JStr d; jlat; jlon; jrep] =>
      let! flat := py_float float_of_str jlat in
      let! flon := py_float float_of_str jlon in
      let! rep := py_int int_of_str jrep in
      Ok (mkItem d flat flon rep)
  | JArr [_; _; _; _] => Raise (CodecError "device_id must be a string")
  | _ => Raise (CodecError "position item must be a 4-element array")
  end.

Fixpoint items_of_json (l : list json) : res (list PositionItem) :=
  match l with
  | [] => Ok []
  | j :: l' => let! i := item_of_json j in
               let! rest := items_of_json l' in Ok (i :: rest)
  end.

Definition decode_positions (raw : string) : res (list PositionItem) :=
  match loads raw with
  | None => Raise (CodecError "invalid json")
  | Some (JObj fields) =>
      match assoc "items" fields with
      | Some (JArr items) => items_of_json items
      | _ => Raise (CodecError "positions payload must carry an items array")
      end
  | Some _ => Raise (CodecError "positions payload must carry an items array")
  end.

(** What the stream promises about an entry that decodes. *)
Definition record_ok (r : LocationRecord) : Prop :=
  device_id r ≠ "" ∧ in_range (-90) 90 (lat r) = true ∧ in_range (-180) 180 (lon r) = true.

(** What can be put on the stream: also valid text and 64-bit timestamps. *)
Definition encodable (r : LocationRecord) : Prop :=
  record_ok r ∧ utf8_valid (device_id r) = true ∧
  - 2 ^ 63 ≤ reported_ms r < 2 ^ 64 ∧ - 2 ^ 63 ≤ received_ms r < 2 ^ 64.

Lemma in_range_Fin lo hi x :
  in_range lo hi x = true → ∃ n, x = Fin n ∧ lo * u ≤ n ≤ hi * u.
Proof.
  unfold in_range. destruct x as [n|[]|]; unfold flit; cbn -[fleb]; try done.
  rewrite !fleb_Fin. intros. exists n. split; [done|lia].
Qed.

Lemma in_range_finite lo hi x : in_range lo hi x = true → isfinite x = true.
Proof. by intros (n & -> & _)%in_range_Fin. Qed.

(** The conversion to float keeps a number that passed the range check in range. *)
Lemma py_float_range j x lo hi :
  Z.abs lo < 2 ^ 53 → Z.abs hi < 2 ^ 53 →
  as_number j = Some x → in_range lo hi x = true →
  ∃ y, py_float float_of_str j = Ok y ∧ in_range lo hi y = true.
Proof.
  intros Hlo Hhi Hj Hr. destruct j; cbn in Hj |- *; simplify_eq; [by eauto| |by eauto].
  destruct (in_range_Fin _ _ _ Hr) as (n & [= <-] & Hn).
  assert (lo ≤ z ≤ hi) by (pose proof u_pos; nia).
  rewrite float_of_int_small by lia. eauto.
Qed.

(** Whatever bytes arrive, a record that decodes has a device and coordinates on
    the globe. *)
Lemma decode_record_ok raw r : decode_record raw = Ok r → record_ok r.
Proof.
  unfold decode_record, record_of_json. intros Hd. repeat case_match; simplify_eq.
  destruct (py_float float_of_str _) as [flat|] eqn:Elat in Hd; [|done].
  destruct (py_float float_of_str _) as [flon|] eqn:Elon in Hd; [|done].
  cbn in Hd. simplify_eq.
  match goal with
  | E1 : negb (in_range _ _ ?x) || negb (in_range _ _ ?y) = false,
    Ex : as_number ?jx = Some ?x, Ey : as_number ?jy = Some ?y |- _ =>
      apply orb_false_iff in E1 as [?%negb_false_iff ?%negb_false_iff];
      destruct (py_float_range jx x (-90) 90) as (? & E3 & ?); [done..|];
      destruct (py_float_range jy y (-180) 180) as (? & E4 & ?); [done..|]
  end.
  rewrite Elat in E3. rewrite Elon in E4. simplify_eq. unfold record_ok; cbn. split; [|done].
  unfold nonempty_str in *. repeat case_match; simplify_eq; done.
Qed.

(** Everything the API encodes, the processor decodes to the same record. *)
Lemma record_roundtrip_lemma `{!OrjsonRoundtrip} r :
  encodable r → decode_record (encode_record r) = Ok r.
Proof.
  destruct r as [d la lo rep rec]. intros ((Hne & Hla & Hlo) & Hu & Hrep & Hrec); cbn in *.
  unfold decode_record, encode_record, record_json; cbn.
  pose proof (in_range_finite _ _ _ Hla) as Fla. pose proof (in_range_finite _ _ _ Hlo) as Flo.
  rewrite loads_dumps by (cbn; rewrite Hu, Fla, Flo; lia). cbn.
  rewrite decide_False by done. by rewrite Fla, Flo, Hla, Hlo.
Qed.

Definition item_encodable (i : PositionItem) : Prop :=
  utf8_valid (item_id i) = true ∧ isfinite (item_lat i) = true ∧
  isfinite (item_lon i) = true ∧ - 2 ^ 63 ≤ item_ms i < 2 ^ 64.

Lemma items_of_json_map items : items_of_json (item_json <$> items) = Ok items.
Proof. induction items as [|[] items IH]; [done|]. cbn. rewrite IH. done. Qed.

Lemma item_json_dumpable i : item_encodable i → dumpable (item_json i) = true.
Proof. destruct i. intros (Hu & Hla & Hlo & Hm). cbn in *. rewrite Hu, Hla, Hlo. lia. Qed.

(** Every broadcast of positions is read back unchanged by every replica. *)
Lemma positions_roundtrip_lemma `{!OrjsonRoundtrip} items :
  Forall item_encodable items → decode_positions (encode_positions items) = Ok items.
Proof.
  intros Hi. unfold decode_positions, encode_positions.
  rewrite loads_dumps; [apply items_of_json_map|].
  cbn. rewrite !andb_true_r. apply andb_true_iff; split; [apply bool_decide_eq_true; repeat constructor; set_solver|].
  apply forallb_forall. intros j Hj. apply list_elem_of_In, list_elem_of_fmap in Hj as (i & -> & Hin).
  eapply item_json_dumpable. by eapply Forall_forall in Hin.
Qed.
End codec.

(** ** Properties *)

(** C35: everything the API puts on the stream, the processor reads back unchanged. *)
Theorem record_roundtrip `{Orjson} `{!OrjsonRoundtrip} float_of_str r :
  encodable r → decode_record float_of_str (encode_record r) = Ok r.
Proof. intros. by apply record_roundtrip_lemma. Qed.

(** whatever bytes an entry of the stream holds, a record that decodes has a device
    and coordinates on the globe. *)
Lemma decoded_record_on_globe `{Orjson} float_of_str raw r :
  decode_record float_of_str raw = Ok r → record_ok r.
Proof. intros. by eapply decode_record_ok. Qed.

Module Samples.
Definition no_floats (s : string) : option float64 := None.
Definition no_ints (s : string) : option Z := None.
Definition report : LocationRecord :=
  mkRecord "van-7" (flit 50) (flit 30) 1700000000000 1700000000250.
End Samples.

Lemma record_roundtrip_witness :
  encodable Samples.report ∧
  decode_record (H := Ref.orjson) Samples.no_floats (encode_record (H := Ref.orjson) Samples.report)
  = Ok Samples.report.
Proof.
  assert (He : encodable Samples.report)
    by (repeat split; try (vm_compute; reflexivity); vm_compute; discriminate).
  split; [exact He|]. apply (@record_roundtrip Ref.orjson Ref.orjson_roundtrip), He.
Defined.

Lemma decoded_record_on_globe_witness : record_ok Samples.report.
Proof.
  apply (decoded_record_on_globe (H := Ref.orjson) Samples.no_floats
           (encode_record (H := Ref.orjson) Samples.report)). vm_compute; reflexivity.
Defined.
