(* ===== verification/Protocol.v ===== *)
(** * The websocket wire protocol (src/geotrack/realtime/protocol.py)

    Control frames are rendered by orjson; position frames are assembled by hand
    from chunks that were rendered once per cell. *)
From S2P Require Import Prelude Floats Geo Text Json JsonRef Keys Codec.

Definition PROTOCOL_VERSION : Z := 1.
Definition CLOSE_SLOW_CONSUMER : Z := 1013.
Definition CLOSE_UNAUTHORIZED : Z := 4401.
Definition CLOSE_TOO_MANY_SESSIONS : Z := 4429.
Definition CLOSE_PROTOCOL_ERROR : Z := 1008.

Inductive ClientMessage :=
  | ViewportMessage (bbox : BBox)
  | PingMessage (t : Z).

(** A word between double quotes. *)
Definition quoted (s : string) : string := String "034" s +:+ String "034" "".

(** [round(x, 1)]: the decimal with one digit nearest to the float, as a float. *)
Definition round1 (x : float64) : float64 :=
  match x with
  | Fin n => of_rounded (rnd (round_half_even (10 * n) u * u) 10)
  | _ => x
  end.

Section protocol.
Context `{Orjson}.
Variable float_of_str : string → option float64.

Definition hello_frame (session_id user_id : Z) (username : string) (tick_ms server_t : Z) : string :=
  dumps (JObj [("type", JStr "hello"); ("protocol", JInt PROTOCOL_VERSION);
               ("session_id", JStr (uuid_str session_id));
               ("user", JObj [("id", JStr (uuid_str user_id)); ("username", JStr username)]);
               ("tick_ms", JInt tick_ms); ("server_t", JInt server_t)]).

Definition encode_position_item (item : PositionItem) : string := dumps (item_json item).

Definition positions_frame (full : bool) (t_ms : Z) (item_chunks : list string)
    (removed : list string) : string :=
  let body := join "," item_chunks in
  "{" +:+ quoted "type" +:+ ":" +:+ quoted "positions" +:+ "," +:+ quoted "full" +:+ ":"
  +:+ (if full then "true" else "false")
  +:+ "," +:+ quoted "t" +:+ ":"
  +:+ pretty t_ms
  +:+ "," +:+ quoted "items" +:+ ":["
  +:+ body
  +:+ "]," +:+ quoted "removed" +:+ ":"
  +:+ dumps (JArr (JStr <$> removed))
  +:+ "}".

Definition stats_frame (t_ms devices : Z) (updates_per_s : float64) (connections backlog : Z) : string :=
  dumps (JObj [("type", JStr "stats"); ("t", JInt t_ms); ("devices", JInt devices);
               ("updates_per_s", JFloat (round1 updates_per_s));
               ("connections", JInt connections); ("backlog", JInt backlog)]).

Definition pong_frame (t server_t : Z) : string :=
  dumps (JObj [("type", JStr "pong"); ("t", JInt t); ("server_t", JInt server_t)]).

Definition error_frame (code detail : string) (seq : option Z) : string :=
  dumps (JObj ([("type", JStr "error"); ("code", JStr code); ("detail", JStr detail)]
               ++ match seq with Some n => [("seq", JInt n)] | None => [] end)).

Definition ack_frame (seq accepted : Z) : string :=
  dumps (JObj [("type", JStr "ack"); ("seq", JInt seq); ("accepted", JInt accepted)]).

Definition throttle_frame (retry_after_ms : Z) : string :=
  dumps (JObj [("type", JStr "throttle"); ("retry_after_ms", JInt retry_after_ms)]).

(** A [float()] or [BBox()] failure inside the viewport branch. *)
Definition as_protocol_error {A} (m : res A) : res A :=
  match m with
  | Raise (TypeError | ValueError _) => Raise (ProtocolError "invalid bbox")
  | m => m
  end.

Definition parse_client_message (raw : string) : res ClientMessage :=
  match loads raw with
  | None => Raise (ProtocolError "invalid json")
  | Some (JObj payload) =>
      match assoc "type" payload with
      | Some (JStr "viewport") =>
          match assoc "bbox" payload with
          | Some (JArr [jw; js; je; jn]) =>
              as_protocol_error
                (let! w := py_float float_of_str jw in
                 let! s := py_float float_of_str js in
                 let! e := py_float float_of_str je in
                 let! n := py_float float_of_str jn in
                 let! b := new_bbox w s e n in
                 Ok (ViewportMessage b))
          | _ => Raise (ProtocolError "viewport requires bbox [west, south, east, north]")
          end
      | Some (JStr "ping") =>
          match default (JInt 0) (assoc "t" payload) with
          | JInt t => Ok (PingMessage t)
          | JBool b => Ok (PingMessage (Z.b2z b))
          | _ => Raise (ProtocolError "ping requires an integer t")
          end
      | _ => Raise (ProtocolError "unsupported message type")
      end
  | Some _ => Raise (ProtocolError "message must be a json object")
  end.

(** The object a position frame stands for. *)
Definition positions_json (full : bool) (t_ms : Z) (items : list PositionItem)
    (removed : list string) : json :=
  JObj [("type", JStr "positions"); ("full", JBool full); ("t", JInt t_ms);
        ("items", JArr (item_json <$> items)); ("removed", JArr (JStr <$> removed))].

(** The chunk of a group of items: what the hub serialises once per cell. *)
Definition chunk_of (items : list PositionItem) : string :=
  join "," (encode_position_item <$> items).

(** A frame assembled from chunks is, byte for byte, what serialising the whole
    object at once would produce. *)
Lemma positions_frame_json `{!OrjsonCompact} full t_ms groups removed :
  Forall (λ g, g ≠ []) groups →
  positions_frame full t_ms (chunk_of <$> groups) removed
  = dumps (positions_json full t_ms (concat groups) removed).
Proof.
  intros Hg. unfold positions_json. rewrite dumps_obj. cbn [fmap list_fmap join fst snd].
  rewrite !dumps_word by done. rewrite dumps_bool, dumps_int, dumps_arr.
  unfold positions_frame, quoted.
  assert (join "," (chunk_of <$> groups) = join "," (dumps <$> (item_json <$> concat groups))) as ->.
  { assert (chunk_of <$> groups = join "," <$> ((fmap encode_position_item) <$> groups)) as ->.
    { by rewrite <- list_fmap_compose. }
    rewrite join_groups; [|by apply Forall_fmap; eapply Forall_impl; [done|]; intros [] ?].
    f_equal. clear Hg. induction groups as [|g gs IH]; [done|].
    cbn. by rewrite !fmap_app, <- IH, <- list_fmap_compose. }
  by rewrite <- !string_app_assoc.
Qed.
End protocol.

(** ** Properties *)

(** a position frame assembled from chunks that were serialised once per cell is,
    byte for byte, what serialising the whole object for this one client would give. *)
Lemma positions_frame_bytes `{Orjson} `{!OrjsonCompact} full t_ms groups removed :
  Forall (λ g, g ≠ []) groups →
  positions_frame full t_ms (chunk_of <$> groups) removed
  = dumps (positions_json full t_ms (concat groups) removed).
Proof. intros. by apply positions_frame_json. Qed.

Lemma positions_frame_bytes_witness :
  let i := position_item Codec.Samples.report in
  positions_frame (H := Ref.orjson) false 5 (chunk_of (H := Ref.orjson) <$> [[i]; [i; i]]) ["a"]
  = dumps (Orjson := Ref.orjson) (positions_json false 5 [i; i; i] ["a"]).
Proof.
  apply (@positions_frame_bytes Ref.orjson Ref.orjson_compact false 5
    [[position_item Codec.Samples.report]; [position_item Codec.Samples.report; position_item Codec.Samples.report]]).
  repeat constructor; discriminate.
Defined.
