(* ===== verification/Hub.v ===== *)
(** * The gateway's picture of where every device is (src/geotrack/realtime/hub.py)

    Dictionaries are finite maps: their iteration order is not part of the model, and
    neither are the metrics and log lines. [apply] and [sweep] mutate the shared hub
    in place, so each returns the new hub together with how the call ended. *)
From S2P Require Import Prelude Floats Clock Geo Grid Text Json JsonRef Codec Protocol.

Record Departure := mkDeparture { departed_id : string; moved_to : option Cell }.

Record TickDelta := mkDelta {
  delta_t_ms : Z;
  chunks : gmap Cell string;
  departures : gmap Cell (list Departure) }.

Definition delta_is_empty (d : TickDelta) : bool :=
  bool_decide (chunks d = ∅) && bool_decide (dom (departures d) = ∅).

(** [TickDelta.removed]: gone entirely, whichever cell held it. *)
Definition delta_removed (d : TickDelta) : list string :=
  concat ((λ p : Cell * list Departure,
             departed_id <$> filter (λ q, moved_to q = None) p.2) <$> map_to_list (departures d)).

Record Entry := mkEntry { item : PositionItem; cell : Cell }.
Definition entry_reported_ms (e : Entry) : Z := item_ms (item e).

Record Pending := mkPending {
  changed : gmap Cell (gset string);
  departed : gmap Cell (gmap string (option Cell)) }.
Definition pending_clear : Pending := mkPending ∅ ∅.

Record PositionHub := mkHub {
  latest : gmap string Entry;
  cells : gmap Cell (gset string);
  pending : Pending;
  snapshots : gmap Cell string;
  updates : Z }.
Definition new_hub : PositionHub := mkHub ∅ ∅ pending_clear ∅ 0.
Definition device_count (h : PositionHub) : nat := size (latest h).

(** Departures noted for one cell. *)
Definition moves_at (h : PositionHub) (c : Cell) : gmap string (option Cell) :=
  default ∅ (departed (pending h) !! c).

Definition touch (c : Cell) (d : string) (h : PositionHub) : PositionHub :=
  mkHub (latest h) (cells h)
    (mkPending (set_add c d (changed (pending h)))
       (match departed (pending h) !! c with
        | Some moves => <[c := delete d moves]> (departed (pending h))
        | None => departed (pending h)
        end))
    (delete c (snapshots h)) (updates h).

Definition leave (c : Cell) (d : string) (to : option Cell) (h : PositionHub) : PositionHub :=
  mkHub (latest h) (set_drop c d (cells h))
    (mkPending (set_discard c d (changed (pending h)))
       (<[c := <[d := to]> (moves_at h c)]> (departed (pending h))))
    (delete c (snapshots h)) (updates h).

Definition set_latest (d : string) (e : Entry) (h : PositionHub) : PositionHub :=
  mkHub (<[d := e]> (latest h)) (cells h) (pending h) (snapshots h) (updates h).
Definition forget_latest (d : string) (h : PositionHub) : PositionHub :=
  mkHub (delete d (latest h)) (cells h) (pending h) (snapshots h) (updates h).
Definition add_cell (c : Cell) (d : string) (h : PositionHub) : PositionHub :=
  mkHub (latest h) (set_add c d (cells h)) (pending h) (snapshots h) (updates h).
Definition clear_pending (h : PositionHub) : PositionHub :=
  mkHub (latest h) (cells h) pending_clear (snapshots h) (updates h).
Definition count_updates (n : Z) (h : PositionHub) : PositionHub :=
  mkHub (latest h) (cells h) (pending h) (snapshots h) (updates h + n).
Definition cache (c : Cell) (s : string) (h : PositionHub) : PositionHub :=
  mkHub (latest h) (cells h) (pending h) (<[c := s]> (snapshots h)) (updates h).

(** The device moves to (or appears in) cell [c] with a newer item. *)
Definition place (i : PositionItem) (c : Cell) (h : PositionHub) : PositionHub :=
  let d := item_id i in
  let h1 := match latest h !! d with
            | Some e => if decide (cell e = c) then h else leave (cell e) d (Some c) h
            | None => h
            end in
  touch c d (add_cell c d (set_latest d (mkEntry i c) h1)).

Section hub.
Context `{Orjson}.
Variable cell_size_deg : float64.
Variable stale_after_ms : Z.

(** Whether an item is older than, or the same report as, what the hub holds. *)
Definition outdated (i : PositionItem) (h : PositionHub) : bool :=
  match latest h !! item_id i with
  | Some e => item_ms i <=? entry_reported_ms e
  | None => false
  end.

(** The loop of [apply]: the hub, the number applied, and the exception that ended
    it early, if any. *)
Fixpoint apply_loop (items : list PositionItem) (applied : Z) (h : PositionHub)
  : PositionHub * Z * option exn :=
  match items with
  | [] => (h, applied, None)
  | i :: rest =>
      if outdated i h then apply_loop rest applied h
      else match cell_of (item_lat i) (item_lon i) cell_size_deg with
           | Raise e => (h, applied, Some e)
           | Ok c => apply_loop rest (applied + 1) (place i c h)
           end
  end.

Definition apply (items : list PositionItem) (h : PositionHub) : PositionHub * option exn :=
  match apply_loop items 0 h with
  | (h', applied, None) => (if decide (applied = 0) then h' else count_updates applied h', None)
  | (h', _, Some e) => (h', Some e)
  end.

Definition item_of (h : PositionHub) (d : string) : res PositionItem :=
  match latest h !! d with Some e => Ok (item e) | None => Raise KeyError end.

(** [b",".join(encode_position_item(self._latest[d].item) for d in devices)]. *)
Definition render (h : PositionHub) (ds : gset string) : res string :=
  let! items := traverse (item_of h) (elements ds) in Ok (chunk_of items).

Definition drain (t_ms : Z) (h : PositionHub) : PositionHub * res TickDelta :=
  match map_traverse (render h) (filter (λ p : Cell * gset string, p.2 ≠ ∅) (changed (pending h))) with
  | Raise e => (h, Raise e)
  | Ok cs =>
      let ds := (λ moves, (λ p, mkDeparture p.1 p.2) <$> map_to_list moves)
                <$> filter (λ p : Cell * gmap string (option Cell), p.2 ≠ ∅) (departed (pending h)) in
      (clear_pending h, Ok (mkDelta t_ms cs ds))
  end.

Definition discard_pending (h : PositionHub) : PositionHub := clear_pending h.

Fixpoint snapshot_loop (rects : list CellRect) (l : list (Cell * gset string))
    (h : PositionHub) : PositionHub * res (list string) :=
  match l with
  | [] => (h, Ok [])
  | (c, ds) :: l' =>
      if negb (covers rects c) then snapshot_loop rects l' h
      else
        match snapshots h !! c with
        | Some s => let '(h', r) := snapshot_loop rects l' h in
                    (h', let! ss := r in Ok (s :: ss))
        | None =>
            match render h ds with
            | Raise e => (h, Raise e)
            | Ok s => let '(h', r) := snapshot_loop rects l' (cache c s h) in
                      (h', let! ss := r in Ok (s :: ss))
            end
        end
  end.

(** Consumed eagerly by [positions_frame], so the whole generator is one step. *)
Definition snapshot_chunks (rects : list CellRect) (h : PositionHub)
  : PositionHub * res (list string) :=
  snapshot_loop rects (map_to_list (cells h)) h.

Definition sweep_one (h : PositionHub) (d : string) : PositionHub :=
  match latest h !! d with
  | Some e => leave (cell e) d None (forget_latest d h)
  | None => h
  end.

Definition sweep (now : Z) (h : PositionHub) : PositionHub :=
  let cutoff := now - stale_after_ms in
  let stale := (filter (λ p : string * Entry, entry_reported_ms p.2 < cutoff) (map_to_list (latest h))).*1 in
  foldl sweep_one h stale.

(** A row of [_WARM_START_SQL]: device, latitude, longitude and report moment. *)
Definition Row : Type := string * float64 * float64 * Z.

Definition row_item (row : Row) : res PositionItem :=
  let '(d, la, lo, moment) := row in let! ms := to_epoch_ms moment in Ok (mkItem d la lo ms).

Fixpoint warm_start_loop (partitions : list (list Row)) (loaded : nat) (h : PositionHub)
  : PositionHub * res nat :=
  match partitions with
  | [] => (clear_pending h, Ok loaded)
  | rows :: rest =>
      match traverse row_item rows with
      | Raise e => (h, Raise e)
      | Ok items =>
          match apply items h with
          | (h', Some e) => (h', Raise e)
          | (h', None) => warm_start_loop rest (loaded + length rows)%nat h'
          end
      end
  end.

(** [query cutoff] is the result of the query, in partitions. *)
Definition warm_start (query : Z → list (list Row)) (time_ns : Z) (h : PositionHub)
  : PositionHub * res nat :=
  match from_epoch_ms (now_ms time_ns - stale_after_ms) with
  | Raise e => (h, Raise e)
  | Ok cutoff => warm_start_loop (query cutoff) 0 h
  end.
End hub.

(** ** The invariant *)

(** The items of a set of devices, in the order the hub renders them. *)
Definition items_in (h : PositionHub) (ds : gset string) : list PositionItem :=
  omap (λ d, item <$> latest h !! d) (elements ds).

Definition cell_items (h : PositionHub) (c : Cell) : list PositionItem :=
  items_in h (set_at (cells h) c).

(** A client's map: the devices it draws. *)
Notation View := (gmap string PositionItem).

Section hub_facts.
Context `{Orjson}.
Variable cell_size_deg : float64.

Definition entry_ok (d : string) (e : Entry) : Prop :=
  item_id (item e) = d ∧
  cell_of (item_lat (item e)) (item_lon (item e)) cell_size_deg = Ok (cell e).

Record hub_wf (h : PositionHub) : Prop := {
  (* the cell index holds exactly the known devices, and no empty cell *)
  wf_no_empty : no_empty (cells h);
  wf_index c d : d ∈ set_at (cells h) c ↔ ∃ e, latest h !! d = Some e ∧ cell e = c;
  (* a changed device is where the delta says it is *)
  wf_changed c d : d ∈ set_at (changed (pending h)) c →
    ∃ e, latest h !! d = Some e ∧ cell e = c;
  (* a departed device is gone, or elsewhere and in the same delta's items *)
  wf_departed c d m e : moves_at h c !! d = Some m → latest h !! d = Some e →
    cell e ≠ c ∧ d ∈ set_at (changed (pending h)) (cell e);
  (* a cached snapshot is what rendering the cell again would give *)
  wf_snapshots c s : snapshots h !! c = Some s → s = chunk_of (cell_items h c);
  wf_entries d e : latest h !! d = Some e → entry_ok d e }.

(** What [apply] and [sweep] do to the hub for one device: it goes from its current
    entry to [new] ([None]: forgotten). *)
Record device_step (d : string) (new : option Entry) (h h' : PositionHub) : Prop := {
  ds_latest : latest h' = partial_alter (λ _, new) d (latest h);
  ds_no_empty : no_empty (cells h) → no_empty (cells h');
  ds_cells c x : x ∈ set_at (cells h') c ↔
    (x ≠ d ∧ x ∈ set_at (cells h) c) ∨ (x = d ∧ cell <$> new = Some c);
  ds_changed c x : x ∈ set_at (changed (pending h')) c ↔
    (x ≠ d ∧ x ∈ set_at (changed (pending h)) c) ∨ (x = d ∧ cell <$> new = Some c);
  ds_others c x : x ≠ d → moves_at h' c !! x = moves_at h c !! x;
  ds_arrived c : cell <$> new = Some c → moves_at h' c !! d = None;
  ds_left c : cell <$> latest h !! d = Some c → cell <$> new ≠ Some c →
    moves_at h' c !! d = Some (cell <$> new);
  ds_elsewhere c : cell <$> latest h !! d ≠ Some c → cell <$> new ≠ Some c →
    moves_at h' c !! d = moves_at h c !! d;
  ds_snapshots c s : snapshots h' !! c = Some s →
    snapshots h !! c = Some s ∧ cell <$> latest h !! d ≠ Some c ∧ cell <$> new ≠ Some c }.

Lemma moves_at_touch c d h c' :
  moves_at (touch c d h) c' = if decide (c' = c) then delete d (moves_at h c) else moves_at h c'.
Proof.
  unfold moves_at, touch; cbn. case_decide as Hc; [subst c'|].
  - destruct (departed (pending h) !! c) eqn:E; [by rewrite lookup_insert_eq|].
    rewrite E. cbn. by rewrite delete_empty.
  - destruct (departed (pending h) !! c) eqn:E; [by rewrite lookup_insert_ne by done|done].
Qed.

Lemma moves_at_leave c d to h c' :
  moves_at (leave c d to h) c' = if decide (c' = c) then <[d := to]> (moves_at h c) else moves_at h c'.
Proof.
  unfold leave, moves_at at 1; cbn. case_decide as Hc; [subst c'|].
  - by rewrite lookup_insert_eq.
  - by rewrite lookup_insert_ne by done.
Qed.

Lemma moves_at_set c d e h : moves_at (add_cell c d (set_latest d e h)) = moves_at h.
Proof. done. Qed.

Lemma place_step i c h :
  hub_wf h → device_step (item_id i) (Some (mkEntry i c)) h (place i c h).
Proof.
  intros Hwf. set (d := item_id i).
  assert (Hcell : ∀ c', d ∈ set_at (cells h) c' → cell <$> latest h !! d = Some c').
  { intros c' Hd. apply wf_index in Hd as (e & -> & <-); done. }
  assert (Hch : ∀ c', d ∈ set_at (changed (pending h)) c' → cell <$> latest h !! d = Some c').
  { intros c' Hd. apply wf_changed in Hd as (e & -> & <-); done. }
  unfold place. fold d. destruct (latest h !! d) as [e|] eqn:E; [case_decide as Hc|].
  all: split; cbn; rewrite ?E; cbn; try done.
  all: try (intros Hn; auto with geotrack; done).
  all: intros c'; intros; rewrite ?moves_at_touch, ?moves_at_set, ?moves_at_leave,
    ?elem_set_add, ?elem_set_drop, ?elem_set_discard.
  all: try (destruct (decide (x = d)); naive_solver).
  all: try match goal with
    H : delete _ _ !! _ = Some _ |- _ =>
      rewrite ?lookup_delete_Some in H; destruct_and?; repeat split; congruence end.
  all: repeat case_decide; subst; try congruence; simplify_map_eq; congruence.
Qed.

Lemma sweep_one_step d e h :
  hub_wf h → latest h !! d = Some e → device_step d None h (sweep_one h d).
Proof.
  intros Hwf E.
  assert (Hcell : ∀ c', d ∈ set_at (cells h) c' → cell e = c').
  { intros c' Hd. apply wf_index in Hd as (e' & ? & <-); [congruence|done]. }
  assert (Hch : ∀ c', d ∈ set_at (changed (pending h)) c' → cell e = c').
  { intros c' Hd. apply wf_changed in Hd as (e' & ? & <-); [congruence|done]. }
  unfold sweep_one. rewrite E. split; cbn; rewrite ?E; cbn; try done.
  { auto with geotrack. }
  all: intros c'; intros; rewrite ?moves_at_leave, ?elem_set_add, ?elem_set_drop, ?elem_set_discard.
  all: try (destruct (decide (x = d)); naive_solver).
  all: try match goal with
    H : delete _ _ !! _ = Some _ |- _ =>
      rewrite ?lookup_delete_Some in H; destruct_and?; repeat split; congruence end.
  all: repeat case_decide; subst; try congruence; by simplify_map_eq.
Qed.

Lemma step_lookup d new h h' x :
  device_step d new h h' → latest h' !! x = if decide (x = d) then new else latest h !! x.
Proof.
  intros Hs. rewrite (ds_latest _ _ _ _ Hs). case_decide; subst.
  - by rewrite lookup_partial_alter_eq.
  - by rewrite lookup_partial_alter_ne by done.
Qed.

Lemma step_wf d new h h' :
  hub_wf h → (∀ e, new = Some e → entry_ok d e) → device_step d new h h' → hub_wf h'.
Proof.
  intros Hwf Hnew Hs. split.
  - apply (ds_no_empty _ _ _ _ Hs), Hwf.
  - intros c x. rewrite (ds_cells _ _ _ _ Hs), (wf_index _ Hwf), (step_lookup _ _ _ _ _ Hs).
    case_decide; [|naive_solver]. rewrite fmap_Some. naive_solver.
  - intros c x. rewrite (ds_changed _ _ _ _ Hs), (step_lookup _ _ _ _ _ Hs).
    case_decide; [rewrite fmap_Some; naive_solver|].
    intros [[_ Hx]|[]]; [by apply (wf_changed _ Hwf)|done].
  - intros c x m e. rewrite (step_lookup _ _ _ _ _ Hs), (ds_changed _ _ _ _ Hs).
    case_decide as Hx; [subst x|rewrite (ds_others _ _ _ _ Hs) by done].
    + intros Hm ->. split; [|naive_solver]. intros <-.
      rewrite (ds_arrived _ _ _ _ Hs) in Hm; done.
    + intros Hm He. destruct (wf_departed _ Hwf _ _ _ _ Hm He). naive_solver.
  - intros c s Hc. destruct (ds_snapshots _ _ _ _ Hs _ _ Hc) as (Hc' & Hold & Hn).
    rewrite (wf_snapshots _ Hwf _ _ Hc'). f_equal. unfold cell_items, items_in.
    assert (Hd : d ∉ set_at (cells h) c).
    { rewrite (wf_index _ Hwf). intros (e & He & Hce). rewrite He in Hold. cbn in Hold. congruence. }
    assert (set_at (cells h') c = set_at (cells h) c) as ->.
    { apply set_eq. intros x. rewrite (ds_cells _ _ _ _ Hs). naive_solver. }
    apply list_omap_ext, Forall2_same_length_lookup_2; [done|].
    intros j x y Hx Hy. simplify_eq. rewrite (step_lookup _ _ _ _ _ Hs), decide_False; [done|].
    intros ->. apply Hd. apply elem_of_elements. by eapply list_elem_of_lookup_2.
  - intros x e. rewrite (step_lookup _ _ _ _ _ Hs). case_decide; [subst; auto|apply Hwf].
Qed.

(** ** The operations preserve the invariant *)

Lemma new_hub_wf : hub_wf new_hub.
Proof.
  split; cbn; try done.
  - intros c d. split; [set_solver|]. by intros (e & He & _).
Qed.

Lemma same_picture_wf h h' :
  hub_wf h → latest h' = latest h → cells h' = cells h → pending h' = pending h →
  snapshots h' = snapshots h → hub_wf h'.
Proof.
  destruct h, h'; cbn. intros [] -> -> -> ->. by split.
Qed.

Lemma clear_wf h : hub_wf h → hub_wf (clear_pending h).
Proof.
  intros []. by split.
Qed.

(** [P] holds of the hub after every call made on behalf of a device, whatever
    ended the loop. *)
Lemma apply_ind (P : PositionHub → Prop) items h :
  (∀ g n, P g → P (count_updates n g)) →
  (∀ g i c, hub_wf g → P g → outdated i g = false →
     cell_of (item_lat i) (item_lon i) cell_size_deg = Ok c → i ∈ items → P (place i c g)) →
  hub_wf h → P h → hub_wf (apply cell_size_deg items h).1 ∧ P (apply cell_size_deg items h).1.
Proof.
  intros Hcount Hplace Hwf HP.
  assert (Hloop : ∀ rest n g, rest ⊆ items → hub_wf g → P g →
    hub_wf (apply_loop cell_size_deg rest n g).1.1 ∧ P (apply_loop cell_size_deg rest n g).1.1).
  { induction rest as [|i rest IH]; intros n g Hsub Hg HPg; [done|]. cbn.
    destruct (outdated i g) eqn:Ho; [apply IH; [set_solver|done..]|].
    destruct (cell_of _ _ _) as [c|] eqn:Ec; [|done].
    apply IH; [set_solver| |apply Hplace; set_solver].
    eapply step_wf; [done| |by apply place_step]. intros e [= <-]. done. }
  unfold apply. specialize (Hloop items 0 h). destruct (apply_loop _ _ _ _) as [[g n] [e|]]; cbn.
  - by apply Hloop.
  - destruct Hloop as [Hg HPg]; [done..|]. case_decide; [done|].
    split; [|by apply Hcount]. by apply (same_picture_wf g).
Qed.

Lemma apply_wf items h : hub_wf h → hub_wf (apply cell_size_deg items h).1.
Proof. intros Hwf. by apply (apply_ind (λ _, True)). Qed.

Lemma sweep_ind (P : PositionHub → Prop) stale_after_ms now h :
  (∀ g d e, hub_wf g → P g → latest g !! d = Some e →
     entry_reported_ms e < now - stale_after_ms → P (sweep_one g d)) →
  hub_wf h → P h → hub_wf (sweep stale_after_ms now h) ∧ P (sweep stale_after_ms now h).
Proof.
  intros Hone Hwf HP. unfold sweep.
  assert (Hst : Forall (λ p, latest h !! p.1 = Some p.2 ∧ entry_reported_ms p.2 < now - stale_after_ms)
            (filter (λ p, entry_reported_ms p.2 < now - stale_after_ms) (map_to_list (latest h)))).
  { apply Forall_forall. intros [d e] [? He]%list_elem_of_filter. cbn in *.
    by apply elem_of_map_to_list in He. }
  pose proof (NoDup_fst_map_to_list (latest h)) as Hnd.
  assert (Hnd' : NoDup (filter (λ p, entry_reported_ms p.2 < now - stale_after_ms)
                          (map_to_list (latest h))).*1).
  { eapply sublist_NoDup; [apply Hnd|]. apply fmap_sublist, sublist_filter. }
  revert Hst Hnd'. generalize (filter (λ p, entry_reported_ms p.2 < now - stale_after_ms)
                          (map_to_list (latest h))). clear Hnd. intros l.
  revert h Hwf HP. induction l as [|[d e] l IH]; intros h Hwf HP Hst Hnd; [done|].
  inversion_clear Hst as [|?? [He Hms] Hst']. inversion_clear Hnd as [|?? Hd Hnd']. cbn in *.
  pose proof (sweep_one_step d e h Hwf He) as Hs.
  apply IH; [by apply (step_wf d None h)|by eapply Hone| |done].
  rewrite Forall_forall in Hst' |- *. intros [y ey] Hin. destruct (Hst' _ Hin) as [Hx ?].
  split; [|done]; cbn in *.
  rewrite (step_lookup _ _ _ _ _ Hs), decide_False; [done|].
  intros ->. apply Hd. apply list_elem_of_fmap. by exists (d, ey).
Qed.

(** A sweep forgets exactly the devices whose report is older than the cutoff. *)
Lemma sweep_lookup stale_after_ms now h d :
  latest (sweep stale_after_ms now h) !! d
  = match latest h !! d with
    | Some e => if entry_reported_ms e <? now - stale_after_ms then None else Some e
    | None => None
    end.
Proof.
  unfold sweep.
  assert (Hfold : ∀ l g, latest (foldl sweep_one g l) !! d = if decide (d ∈ l) then None else latest g !! d).
  { induction l as [|x l IH]; intros g; cbn; [by case_decide as Hd; [apply elem_of_nil in Hd|]|].
    rewrite IH. unfold sweep_one at 1. destruct (decide (d = x)) as [->|Hx].
    - rewrite (decide_True (P := x ∈ x :: l)) by left.
      destruct (latest g !! x) eqn:E; cbn; rewrite ?lookup_delete_eq, ?E; by case_decide.
    - assert (latest (sweep_one g x) !! d = latest g !! d) as E.
      { unfold sweep_one. destruct (latest g !! x); cbn; by rewrite ?lookup_delete_ne. }
      unfold sweep_one in E. rewrite E. by repeat case_decide; set_solver. }
  rewrite Hfold. destruct (latest h !! d) as [e|] eqn:E; [|by case_decide].
  assert (d ∈ (filter (λ p : string * Entry, entry_reported_ms p.2 < now - stale_after_ms)
                 (map_to_list (latest h))).*1 ↔ entry_reported_ms e < now - stale_after_ms) as Hin.
  { rewrite list_elem_of_fmap. setoid_rewrite list_elem_of_filter. split.
    - intros ([x e'] & -> & Hlt & Hm%elem_of_map_to_list). cbn in *. by simplify_eq.
    - intros Hlt. exists (d, e). split_and!; [done..|]. by apply elem_of_map_to_list. }
  destruct (Z.ltb_spec (entry_reported_ms e) (now - stale_after_ms)); case_decide as Hd; [done| |apply Hin in Hd; lia|done].
  by destruct Hd; apply Hin.
Qed.

(** ** Rendering never raises *)

Lemma item_of_items h ds :
  (∀ d, d ∈ ds → is_Some (latest h !! d)) →
  traverse (item_of h) ds = Ok (omap (λ d, item <$> latest h !! d) ds).
Proof.
  induction ds as [|d ds IH]; intros Hd; [done|]. cbn. unfold item_of at 1.
  destruct (Hd d) as [e He]; [set_solver|]. rewrite He. cbn.
  rewrite IH by set_solver. done.
Qed.

Lemma render_ok h ds :
  (∀ d, d ∈ ds → is_Some (latest h !! d)) → render h ds = Ok (chunk_of (items_in h ds)).
Proof.
  intros Hd. unfold render. rewrite item_of_items; [done|].
  intros d. rewrite elem_of_elements. apply Hd.
Qed.

Lemma elem_items_in h ds i :
  i ∈ items_in h ds ↔ ∃ d e, d ∈ ds ∧ latest h !! d = Some e ∧ i = item e.
Proof.
  unfold items_in. rewrite list_elem_of_omap. setoid_rewrite elem_of_elements.
  setoid_rewrite fmap_Some. naive_solver.
Qed.

Lemma items_in_nonempty h ds :
  ds ≠ ∅ → (∀ d, d ∈ ds → is_Some (latest h !! d)) → items_in h ds ≠ [].
Proof.
  intros [d Hd]%set_choose_L Hds Hnil. destruct (Hds d Hd) as [e He].
  assert (Hi : item e ∈ items_in h ds) by (apply elem_items_in; eauto).
  rewrite Hnil in Hi. by apply elem_of_nil in Hi.
Qed.

(** The items of a delta, cell by cell, and its departures. *)
Definition changed_items (h : PositionHub) : gmap Cell (list PositionItem) :=
  items_in h <$> filter (λ p : Cell * gset string, p.2 ≠ ∅) (changed (pending h)).
Definition departures_of (h : PositionHub) : gmap Cell (list Departure) :=
  (λ moves, (λ p, mkDeparture p.1 p.2) <$> map_to_list moves)
  <$> filter (λ p : Cell * gmap string (option Cell), p.2 ≠ ∅) (departed (pending h)).

Lemma changed_known h c ds d :
  hub_wf h → changed (pending h) !! c = Some ds → d ∈ ds →
  ∃ e, latest h !! d = Some e ∧ cell e = c.
Proof. intros Hwf Hc Hd. apply (wf_changed _ Hwf). unfold set_at. by rewrite Hc. Qed.

Lemma drain_ok t_ms h :
  hub_wf h →
  drain t_ms h = (clear_pending h, Ok (mkDelta t_ms (chunk_of <$> changed_items h) (departures_of h))).
Proof.
  intros Hwf. unfold drain, changed_items.
  rewrite (map_traverse_ok _ (chunk_of ∘ items_in h)).
  - by rewrite map_fmap_compose.
  - intros c ds [Hc _]%map_lookup_filter_Some. apply render_ok. intros d Hd.
    destruct (changed_known h c ds d) as (e & He & _); eauto.
Qed.

Lemma changed_items_elem h c i :
  hub_wf h →
  (∃ items, changed_items h !! c = Some items ∧ i ∈ items) ↔
  ∃ d e, d ∈ set_at (changed (pending h)) c ∧ latest h !! d = Some e ∧ i = item e.
Proof.
  intros Hwf. unfold changed_items, set_at. setoid_rewrite lookup_fmap_Some.
  setoid_rewrite map_lookup_filter_Some. cbn. split.
  - intros (items & (ds & <- & Hc & _) & Hi). rewrite Hc. by apply elem_items_in.
  - intros (d & e & Hd & He & ->). destruct (changed _ !! c) as [ds|] eqn:Hc; [|set_solver].
    cbn in Hd. exists (items_in h ds). split.
    + exists ds. repeat split; set_solver.
    + apply elem_items_in. eauto.
Qed.

Lemma changed_items_nonempty h c items : hub_wf h → changed_items h !! c = Some items → items ≠ [].
Proof.
  intros Hwf (ds & <- & [Hc Hne]%map_lookup_filter_Some)%lookup_fmap_Some.
  apply items_in_nonempty; [done|]. intros d Hd.
  destruct (changed_known h c ds d) as (e & He & _); eauto.
Qed.

Lemma departures_elem h c q :
  (∃ l, departures_of h !! c = Some l ∧ q ∈ l) ↔
  moves_at h c !! departed_id q = Some (moved_to q).
Proof.
  unfold departures_of, moves_at. setoid_rewrite lookup_fmap_Some.
  setoid_rewrite map_lookup_filter_Some. cbn. split.
  - intros (l & (ms & <- & Hc & _) & ([d m] & -> & Hm%elem_of_map_to_list)%list_elem_of_fmap).
    by rewrite Hc.
  - destruct q as [d m]; cbn. destruct (departed _ !! c) as [ms|] eqn:Hc; [|done]. cbn. intros Hm.
    eexists. split; [exists ms; split; [done|split; [done|by intros ->]]|].
    apply list_elem_of_fmap. exists (d, m). by rewrite elem_of_map_to_list.
Qed.

Lemma cell_devices_known h c ds d :
  hub_wf h → cells h !! c = Some ds → d ∈ ds → is_Some (latest h !! d).
Proof.
  intros Hwf Hc Hd. assert (Hi : d ∈ set_at (cells h) c) by (unfold set_at; by rewrite Hc).
  apply (wf_index _ Hwf) in Hi as (e & He & _). eauto.
Qed.

Lemma cache_wf h c ds :
  hub_wf h → cells h !! c = Some ds → hub_wf (cache c (chunk_of (items_in h ds)) h).
Proof.
  intros Hwf Hc. split; try apply Hwf. cbn. intros c' s.
  destruct (decide (c' = c)) as [->|].
  - rewrite lookup_insert_eq. intros [= <-]. unfold cell_items, set_at. cbn. by rewrite Hc.
  - rewrite lookup_insert_ne by done. apply Hwf.
Qed.

(** The cells of a snapshot: every visible cell of the index. *)
Definition visible_cells (rects : list CellRect) (h : PositionHub) : list (Cell * gset string) :=
  filter (λ p, covers rects p.1 = true) (map_to_list (cells h)).

Lemma snapshot_loop_ok rects l h :
  hub_wf h → (∀ c ds, (c, ds) ∈ l → cells h !! c = Some ds) →
  ∃ h', snapshot_loop rects l h
        = (h', Ok ((λ p, chunk_of (items_in h p.2)) <$> filter (λ p, covers rects p.1 = true) l)) ∧
    hub_wf h' ∧ latest h' = latest h ∧ cells h' = cells h ∧ pending h' = pending h ∧
    updates h' = updates h.
Proof.
  revert h. induction l as [|[c ds] l IH]; intros h Hwf Hl; [by exists h|]. cbn.
  assert (Hc : cells h !! c = Some ds) by (apply Hl; set_solver).
  destruct (covers rects c) eqn:Ec; cbn.
  - rewrite decide_True by done. destruct (snapshots h !! c) as [s|] eqn:Es.
    + destruct (IH h Hwf) as (h' & -> & Hh'); [set_solver|]. exists h'. cbn. split; [|done].
      do 3 f_equal. rewrite (wf_snapshots _ Hwf _ _ Es). unfold cell_items, set_at. by rewrite Hc.
    + rewrite render_ok by (intros d; by eapply cell_devices_known).
      destruct (IH _ (cache_wf h c ds Hwf Hc)) as (h' & -> & Hh'); [set_solver|].
      exists h'. done.
  - rewrite decide_False by done. destruct (IH h Hwf) as (h' & -> & Hh'); [set_solver|]. by exists h'.
Qed.

Lemma snapshot_chunks_ok rects h :
  hub_wf h →
  ∃ h', snapshot_chunks rects h
        = (h', Ok (chunk_of <$> ((λ p, items_in h p.2) <$> visible_cells rects h))) ∧
    hub_wf h' ∧ latest h' = latest h ∧ cells h' = cells h ∧ pending h' = pending h ∧
    updates h' = updates h.
Proof.
  intros Hwf. rewrite <- list_fmap_compose. apply snapshot_loop_ok; [done|].
  intros c ds. apply elem_of_map_to_list.
Qed.

(** ** What a client should be showing *)

Definition visible (V : Cell → bool) (h : PositionHub) : View :=
  item <$> filter (λ p : string * Entry, V (cell p.2) = true) (latest h).

Definition put (v : View) (i : PositionItem) : View := <[item_id i := i]> v.
Definition show (v : View) (items : list PositionItem) (removed : list string) : View :=
  foldl put (foldl (λ v d, delete d v) v removed) items.

Lemma visible_lookup V h d i :
  visible V h !! d = Some i ↔ ∃ e, latest h !! d = Some e ∧ V (cell e) = true ∧ i = item e.
Proof.
  unfold visible. rewrite lookup_fmap_Some. setoid_rewrite map_lookup_filter_Some. naive_solver.
Qed.

Lemma put_all_lookup v items d :
  (∀ i j, i ∈ items → j ∈ items → item_id i = item_id j → i = j) →
  (∀ i, i ∈ items → item_id i = d → foldl put v items !! d = Some i) ∧
  ((∀ i, i ∈ items → item_id i ≠ d) → foldl put v items !! d = v !! d).
Proof.
  revert v. induction items as [|i items IH]; intros v Hu; [set_solver|]. cbn.
  destruct (IH (put v i)) as [IH1 IH2]; [set_solver|]. split.
  - intros j Hj Hd. destruct (decide (Exists (λ k, item_id k = d) items)) as [Hex|Hnex].
    + apply Exists_exists in Hex as (k & Hk & Hkd). rewrite (Hu j k); [auto|set_solver..|congruence].
    + rewrite IH2; [|rewrite Exists_exists in Hnex; naive_solver].
      apply elem_of_cons in Hj as [->|Hj]; [by unfold put; rewrite Hd, lookup_insert_eq|].
      exfalso. apply Hnex, Exists_exists. eauto.
  - intros Hne. rewrite IH2 by set_solver. unfold put. rewrite lookup_insert_ne; [done|set_solver].
Qed.

Lemma delete_all_lookup (v : View) removed d :
  foldl (λ v d, delete d v) v removed !! d = if decide (d ∈ removed) then None else v !! d.
Proof.
  revert v. induction removed as [|x removed IH]; intros v; cbn; [done|]. rewrite IH.
  repeat case_decide; try set_solver.
  - destruct (decide (d = x)) as [->|]; [by rewrite lookup_delete_eq|set_solver].
  - rewrite lookup_delete_ne; [done|set_solver].
Qed.

(** A view is in sync with the hub when the delta pending there covers everything
    that separates the two. *)
Definition out_of (V : Cell → bool) (m : option Cell) : Prop :=
  match m with None => True | Some c => V c = false end.

Definition synced (V : Cell → bool) (v : View) (h : PositionHub) : Prop :=
  (∀ d e, latest h !! d = Some e → V (cell e) = true → v !! d ≠ Some (item e) →
     d ∈ set_at (changed (pending h)) (cell e)) ∧
  (∀ d, is_Some (v !! d) → out_of V (cell <$> latest h !! d) →
     ∃ c m, V c = true ∧ moves_at h c !! d = Some m ∧ out_of V m).

Lemma synced_visible V h : synced V (visible V h) h.
Proof.
  split.
  - intros d e He HV Hne. exfalso. apply Hne, visible_lookup. eauto.
  - intros d [i (e & He & HV & _)%visible_lookup]. rewrite He. cbn. congruence.
Qed.

Lemma synced_step V v d new h h' :
  hub_wf h → device_step d new h h' → synced V v h → synced V v h'.
Proof.
  intros Hwf Hs [HA HB]. split.
  - intros x e. rewrite (step_lookup _ _ _ _ _ Hs), (ds_changed _ _ _ _ Hs).
    case_decide; [intros ->; naive_solver|]. intros. left. auto.
  - intros x Hx. rewrite (step_lookup _ _ _ _ _ Hs). case_decide as Hxd; [subst x|].
    + intros Hout. destruct (latest h !! d) as [e|] eqn:He.
      2:{ destruct (HB d Hx) as (c & m & HV & Hm & Hmo); [by rewrite He|].
          exists c, m. split_and!; [done| |done].
          rewrite (ds_elsewhere _ _ _ _ Hs); [done|by rewrite He|].
          intros Hc. rewrite Hc in Hout. cbn in Hout. congruence. }
      destruct (V (cell e)) eqn:HV.
      * exists (cell e), (cell <$> new). split_and!; [done| |done].
        apply (ds_left _ _ _ _ Hs); [by rewrite He|].
        intros Hc. rewrite Hc in Hout. cbn in Hout. congruence.
      * destruct (HB d Hx) as (c & m & HVc & Hm & Hmo); [by rewrite He|].
        exists c, m. split_and!; [done| |done].
        rewrite (ds_elsewhere _ _ _ _ Hs); [done|rewrite He; cbn; congruence|].
        intros Hc. rewrite Hc in Hout. cbn in Hout. congruence.
    + intros Hout. destruct (HB x Hx Hout) as (c & m & ? & ? & ?).
      exists c, m. split_and!; [done| |done]. by rewrite (ds_others _ _ _ _ Hs).
Qed.

Lemma synced_apply V v items h :
  hub_wf h → synced V v h → synced V v (apply cell_size_deg items h).1.
Proof.
  intros Hwf Hs. apply (apply_ind (synced V v)); [done| |done..].
  intros g i c Hg Hsg _ _ _. eapply synced_step; [done|by apply place_step|done].
Qed.

Lemma synced_sweep V v stale_after_ms now h :
  hub_wf h → synced V v h → synced V v (sweep stale_after_ms now h).
Proof.
  intros Hwf Hs. apply (sweep_ind (synced V v)); [|done..].
  intros g d e Hg Hsg He _. eapply synced_step; [done|by eapply sweep_one_step|done].
Qed.

(** Applying a delta to a view in sync gives exactly the visible devices. *)
Lemma show_delta V v h items removed :
  hub_wf h → synced V v h →
  (∀ i, i ∈ items ↔ ∃ c d e, V c = true ∧ d ∈ set_at (changed (pending h)) c ∧
                      latest h !! d = Some e ∧ i = item e) →
  (∀ d, d ∈ removed ↔ ∃ c m, V c = true ∧ moves_at h c !! d = Some m ∧ out_of V m) →
  show v items removed = visible V h.
Proof.
  intros Hwf [HA HB] Hitems Hremoved. apply map_eq. intros d. unfold show.
  assert (Hid : ∀ i, i ∈ items → ∃ e, latest h !! item_id i = Some e ∧ i = item e ∧
                  V (cell e) = true).
  { intros i (c & x & e & HV & Hc & He & ->)%Hitems. destruct (wf_entries _ Hwf _ _ He) as [-> _].
    apply (wf_changed _ Hwf) in Hc as (e' & He' & <-). simplify_eq. eauto. }
  destruct (put_all_lookup (foldl (λ v d, delete d v) v removed) items d) as [Hin Hout].
  { intros i j Hi Hj Hij. destruct (Hid i Hi) as (e & He & -> & _), (Hid j Hj) as (f & Hf & -> & _).
    rewrite Hij, Hf in He. congruence. }
  destruct (decide (Exists (λ k, item_id k = d) items)) as [Hex|Hnex].
  { apply Exists_exists in Hex as (i & Hi & <-). rewrite (Hin i) by done. symmetry.
    destruct (Hid i Hi) as (e & He & Hie & HV). apply visible_lookup. eauto. }
  rewrite Exists_exists in Hnex. rewrite Hout by naive_solver. rewrite delete_all_lookup.
  destruct (visible V h !! d) as [i|] eqn:Ev.
  - apply visible_lookup in Ev as (e & He & HV & ->).
    assert (Hnc : d ∉ set_at (changed (pending h)) (cell e)).
    { intros Hc. apply Hnex. exists (item e). split; [apply Hitems; naive_solver|].
      by apply (wf_entries _ Hwf). }
    rewrite decide_False.
    + destruct (decide (v !! d = Some (item e))); [done|]. exfalso. naive_solver.
    + intros (c & m & _ & Hm & _)%Hremoved. by destruct (wf_departed _ Hwf _ _ _ _ Hm He).
  - case_decide as Hr; [done|]. destruct (v !! d) eqn:Hv; [|done]. exfalso. apply Hr, Hremoved.
    apply HB; [done|]. destruct (latest h !! d) as [e|] eqn:He; [|done]. cbn.
    destruct (V (cell e)) eqn:HV; [|done]. exfalso.
    assert (visible V h !! d = Some (item e)) by (apply visible_lookup; eauto). congruence.
Qed.

(** A snapshot replaces whatever the client had. *)
Lemma show_snapshot rects h :
  hub_wf h →
  show ∅ (concat ((λ p, items_in h p.2) <$> visible_cells rects h)) [] = visible (covers rects) h.
Proof.
  intros Hwf. unfold show. cbn. apply map_eq. intros d.
  set (items := concat _).
  assert (Hitems : ∀ i, i ∈ items ↔ ∃ x e, latest h !! x = Some e ∧ covers rects (cell e) = true ∧ i = item e).
  { intros i. subst items. rewrite list_elem_of_concat. setoid_rewrite list_elem_of_fmap.
    unfold visible_cells. setoid_rewrite list_elem_of_filter. setoid_rewrite elem_of_map_to_list'.
    split.
    - intros (l & Hi & [c ds] & -> & Hcov & Hc). cbn in *.
      apply elem_items_in in Hi as (x & e & Hx & He & ->).
      assert (Hx' : x ∈ set_at (cells h) c) by (unfold set_at; by rewrite Hc).
      apply (wf_index _ Hwf) in Hx' as (e' & He' & <-). simplify_eq. eauto.
    - intros (x & e & He & HV & ->).
      assert (Hx : x ∈ set_at (cells h) (cell e)) by (apply (wf_index _ Hwf); eauto).
      unfold set_at in Hx. destruct (cells h !! cell e) as [ds|] eqn:Hc; [|set_solver].
      exists (items_in h ds). split; [apply elem_items_in; eauto|]. by exists (cell e, ds). }
  destruct (put_all_lookup ∅ items d) as [Hin Hout].
  { intros i j (x & e & He & _ & ->)%Hitems (y & f & Hf & _ & ->)%Hitems.
    destruct (wf_entries _ Hwf _ _ He) as [-> _], (wf_entries _ Hwf _ _ Hf) as [-> _].
    intros ->. congruence. }
  destruct (visible (covers rects) h !! d) as [i|] eqn:Ev.
  - apply visible_lookup in Ev as (e & He & HV & ->). apply Hin; [apply Hitems; eauto|].
    by apply (wf_entries _ Hwf).
  - rewrite Hout; [done|]. intros i (x & e & He & HV & ->)%Hitems.
    destruct (wf_entries _ Hwf _ _ He) as [-> _]. intros ->.
    assert (visible (covers rects) h !! d = Some (item e)) by (apply visible_lookup; eauto).
    congruence.
Qed.

(** ** Newest report wins *)

Definition picture (h : PositionHub) : View := item <$> latest h.

Definition newest (v : View) (i : PositionItem) : View :=
  match v !! item_id i with
  | Some j => if item_ms i <=? item_ms j then v else put v i
  | None => put v i
  end.

Definition locatable (i : PositionItem) : Prop :=
  ∃ c, cell_of (item_lat i) (item_lon i) cell_size_deg = Ok c.

Lemma picture_place i c h : picture (place i c h) = put (picture h) i.
Proof.
  unfold picture, place, put. cbn.
  assert (∀ g, latest g = latest h →
    item <$> <[item_id i := mkEntry i c]> (latest g) = <[item_id i := i]> (item <$> latest h)) as Hg.
  { intros g ->. by rewrite fmap_insert. }
  destruct (latest h !! item_id i); [case_decide|]; by apply Hg.
Qed.

Lemma newest_outdated i h :
  newest (picture h) i = if outdated i h then picture h else put (picture h) i.
Proof.
  unfold newest, outdated, picture. rewrite lookup_fmap. destruct (latest h !! item_id i); done.
Qed.

Lemma apply_loop_newest items n h :
  Forall locatable items →
  ∃ h' k, apply_loop cell_size_deg items n h = (h', n + k, None) ∧ 0 ≤ k ∧
    picture h' = foldl newest (picture h) items ∧ updates h' = updates h.
Proof.
  revert n h. induction items as [|i items IH]; intros n h Hl.
  { exists h, 0. rewrite Z.add_0_r. done. }
  inversion_clear Hl as [|?? [c Hc] Hl']. cbn. rewrite newest_outdated.
  destruct (outdated i h); [by apply IH|]. rewrite Hc.
  destruct (IH (n + 1) (place i c h) Hl') as (h' & k & -> & Hk & Hp & Hu).
  exists h', (k + 1). split_and!; [do 2 f_equal; lia|lia| |].
  - by rewrite Hp, picture_place.
  - rewrite Hu. unfold place. cbn. destruct (latest h !! item_id i); [case_decide|]; done.
Qed.

(** ** Every state the hub can reach *)

Inductive reachable (stale_after_ms : Z) : PositionHub → Prop :=
  | reach_new : reachable stale_after_ms new_hub
  | reach_apply items h : reachable stale_after_ms h →
      reachable stale_after_ms (apply cell_size_deg items h).1
  | reach_sweep now h : reachable stale_after_ms h →
      reachable stale_after_ms (sweep stale_after_ms now h)
  | reach_drain t_ms h : reachable stale_after_ms h →
      reachable stale_after_ms (drain t_ms h).1
  | reach_discard h : reachable stale_after_ms h →
      reachable stale_after_ms (discard_pending h)
  | reach_snapshot rects h : reachable stale_after_ms h →
      reachable stale_after_ms (snapshot_chunks rects h).1
  | reach_warm query time_ns h : reachable stale_after_ms h →
      reachable stale_after_ms (warm_start cell_size_deg stale_after_ms query time_ns h).1.

Lemma warm_start_loop_wf ps n h : hub_wf h → hub_wf (warm_start_loop cell_size_deg ps n h).1.
Proof.
  revert n h. induction ps as [|rows ps IH]; intros n h Hwf; cbn; [by apply clear_wf|].
  destruct (traverse row_item rows) as [items|]; [|done].
  pose proof (apply_wf items h Hwf). by destruct (apply _ items h) as [h' [e|]]; [|apply IH].
Qed.

Lemma reachable_wf stale_after_ms h : reachable stale_after_ms h → hub_wf h.
Proof.
  induction 1 as [|items h _ IH|now h _ IH|t h _ IH|h _ IH|rects h _ IH|q t h _ IH].
  - apply new_hub_wf.
  - by apply apply_wf.
  - by apply (sweep_ind (λ _, True)).
  - rewrite drain_ok by done. by apply clear_wf.
  - by apply clear_wf.
  - by destruct (snapshot_chunks_ok rects h IH) as (h' & -> & ? & _).
  - unfold warm_start. destruct (from_epoch_ms _); [by apply warm_start_loop_wf|done].
Qed.
End hub_facts.

(** ** Properties *)

(** C19: the index, the pending delta and the snapshot cache stay consistent through
    every sequence of operations, so serialising a tick or a snapshot never fails. *)
Theorem hub_reachable_ok `{Orjson} cell_size_deg stale_after_ms h t_ms rects :
  reachable cell_size_deg stale_after_ms h →
  hub_wf cell_size_deg h ∧
  (∃ delta, (drain t_ms h).2 = Ok delta) ∧
  (snapshot_chunks rects h).2
    = Ok (chunk_of <$> (cell_items h <$> (visible_cells rects h).*1)).
Proof.
  intros Hr%reachable_wf. split; [done|split].
  - rewrite (drain_ok cell_size_deg) by done. eauto.
  - destruct (snapshot_chunks_ok cell_size_deg rects h Hr) as (h' & -> & _). cbn. do 2 f_equal.
    rewrite <- list_fmap_compose. apply list_fmap_ext. intros j [c ds] Hj. cbn.
    apply list_elem_of_lookup_2, list_elem_of_filter in Hj as [_ Hc%elem_of_map_to_list].
    unfold cell_items, set_at. by rewrite Hc.
Qed.

(** whatever order batches arrive in, the hub keeps for each device the newest
    report, the first of equals. *)
Lemma apply_keeps_newest `{Orjson} cell_size_deg items h :
  Forall (locatable cell_size_deg) items →
  (apply cell_size_deg items h).2 = None ∧
  picture (apply cell_size_deg items h).1 = foldl newest (picture h) items.
Proof.
  intros Hl. unfold apply.
  destruct (apply_loop_newest cell_size_deg items 0 h Hl) as (h' & k & -> & _ & Hp & _).
  case_decide; done.
Qed.

(** ** A hub with one device that moves to another cell and reports out of order *)
Module HubSamples.
Definition cell_size : float64 := Eval vm_compute in Fin (rnd (5 * u) 100).
Definition van (lon ms : Z) : PositionItem := mkItem "van-7" (flit 0) (flit lon) ms.
Definition items : list PositionItem := Eval vm_compute in [van 0 1000; van 1 3000; van 2 2000].
Definition newest : PositionItem := Eval vm_compute in van 1 3000.
Definition h : PositionHub := (Hub.apply cell_size items new_hub).1.
End HubSamples.

Lemma hub_reachable_ok_witness :
  dom (latest HubSamples.h) = {["van-7"]} ∧
  hub_wf (H := Ref.orjson) HubSamples.cell_size HubSamples.h ∧
  (∃ delta, (drain (H := Ref.orjson) 5000 HubSamples.h).2 = Ok delta) ∧
  (snapshot_chunks (H := Ref.orjson) [] HubSamples.h).2
    = Ok (chunk_of (H := Ref.orjson) <$> (cell_items HubSamples.h <$> (visible_cells [] HubSamples.h).*1)).
Proof.
  split; [vm_compute; reflexivity|].
  apply (hub_reachable_ok (H := Ref.orjson) HubSamples.cell_size 60000 HubSamples.h 5000 []).
  apply reach_apply, reach_new.
Defined.

Lemma apply_keeps_newest_witness :
  (Hub.apply HubSamples.cell_size HubSamples.items new_hub).2 = None ∧
  picture HubSamples.h = {["van-7" := HubSamples.newest]}.
Proof.
  change (picture HubSamples.h) with (picture (Hub.apply HubSamples.cell_size HubSamples.items new_hub).1).
  apply (apply_keeps_newest (H := Ref.orjson) HubSamples.cell_size HubSamples.items new_hub).
  unfold HubSamples.items. repeat constructor; eexists; vm_compute; reflexivity.
Defined.
