(* ===== verification/Connection.v ===== *)
(** * One dashboard client (src/geotrack/realtime/connection.py)

    The connection object is shared by the tick loop, the pub/sub bridge, the receive
    loop and its own sender task. Each definition below is the code between two
    awaits, so an interleaving of tasks is a sequence of these steps (Fanout.v). *)
From S2P Require Import Prelude Floats Geo Grid Text Json JsonRef Codec Protocol Hub.

Definition FRAME_TYPES : list string :=
  ["hello"; "positions"; "alert"; "zone"; "sessions"; "stats"; "pong"; "error"; "ack"; "throttle"].

(** What comes before the first double quote, [None] without one. *)
Fixpoint until_quote (s : string) : option string :=
  match s with
  | "" => None
  | String c s' => if decide (c = "034"%char) then Some ""
                   else String c <$> until_quote s'
  end.

Record ClientConnection := mkConn {
  close_code : Z;
  close_reason : string;
  control : list string;
  wake : bool;
  viewport : option (list CellRect);
  viewport_cells : Z;
  pending_delta : option string;
  needs_snapshot : bool;
  closing : bool;
  writable : bool }.

Definition new_connection : ClientConnection :=
  mkConn 1000 "" [] false None 0 None false false true.

Definition wants_positions (c : ClientConnection) : bool :=
  bool_decide (is_Some (viewport c)) && negb (closing c).

(** How the socket answered a write. *)
Inductive SendOutcome := Sent | TimedOut | PeerGone.

(** [range(lo, hi)]. *)
Definition range (lo hi : Z) : list Z := seqZ lo (hi - lo).

#[export] Instance out_of_dec V m : Decision (out_of V m).
Proof. destruct m; cbn; apply _. Defined.

Section connection.
Context `{Orjson}.
Variable cell_size_deg : float64.
Variable control_max : nat.

(** [kind in _FRAME_TYPES] hashes its operand: lists and dicts are unhashable. *)
Definition parsed_frame_type (frame : string) : res string :=
  match loads frame with
  | None => Ok "unknown"
  | Some (JObj payload) =>
      match assoc "type" payload with
      | Some (JStr kind) => Ok (if decide (kind ∈ FRAME_TYPES) then kind else "unknown")
      | Some (JArr _ | JObj _) => Raise TypeError
      | _ => Ok "unknown"
      end
  | Some _ => Ok "unknown"
  end.

Definition frame_type (frame : string) : res string :=
  match drop_prefix ("{" +:+ quoted "type" +:+ ":" +:+ String "034" "") frame with
  | Some rest =>
      match until_quote rest with
      | Some kind => if decide (kind ∈ FRAME_TYPES) then Ok kind else parsed_frame_type frame
      | None => parsed_frame_type frame
      end
  | None => parsed_frame_type frame
  end.

Definition cells_in (r : CellRect) : Z :=
  (max_x r - min_x r + 1) * (max_y r - min_y r + 1).

Definition set_viewport (bbox : BBox) (c : ClientConnection) : res ClientConnection :=
  let! rects := rects_for bbox cell_size_deg in
  Ok (mkConn (close_code c) (close_reason c) (control c) true
        (Some rects) (foldr Z.add 0 (cells_in <$> rects)) None true (closing c) (writable c)).

(** The join of a window of [cells_n] cells with the cells of a delta, from
    whichever side is smaller. *)
Definition join_window {A} (cells_n : Z) (m : gmap Cell A) (rects : list CellRect) : list A :=
  if cells_n <=? Z.of_nat (size m) then
    rect ← rects;
    x ← range (min_x rect) (max_x rect + 1);
    y ← range (min_y rect) (max_y rect + 1);
    match m !! ((x, y) : Cell) with Some chunk => [chunk] | None => [] end
  else (filter (λ p, covers rects p.1 = true) (map_to_list m)).*2.

Definition visible_chunks (c : ClientConnection) (delta : TickDelta) (rects : list CellRect)
  : list string :=
  join_window (viewport_cells c) (chunks delta) rects.

(** Departures of visible cells that did not end in a visible cell. *)
Definition removed_for (rects : list CellRect) (delta : TickDelta) : list string :=
  p ← filter (λ p, covers rects p.1 = true) (map_to_list (departures delta));
  departed_id <$> filter (λ q, out_of (covers rects) (moved_to q)) p.2.

Definition offer_positions (delta : TickDelta) (c : ClientConnection) : ClientConnection :=
  match viewport c with
  | None => c
  | Some rects =>
      if closing c || needs_snapshot c then c
      else
        let chunks := visible_chunks c delta rects in
        let removed := removed_for rects delta in
        match chunks, removed with
        | [], [] => c
        | _, _ =>
            match pending_delta c with
            | None =>
                mkConn (close_code c) (close_reason c) (control c) true (viewport c)
                  (viewport_cells c)
                  (Some (positions_frame false (delta_t_ms delta) chunks removed))
                  false (closing c) (writable c)
            | Some _ =>
                mkConn (close_code c) (close_reason c) (control c) true (viewport c)
                  (viewport_cells c) None true (closing c) (writable c)
            end
        end
  end.

Definition request_close (code : Z) (reason : string) (c : ClientConnection) : ClientConnection :=
  if closing c then c
  else mkConn code reason [] true (viewport c) (viewport_cells c) None false true (writable c).

Definition send_control (frame : string) (c : ClientConnection) : ClientConnection :=
  if closing c then c
  else if decide (control_max ≤ length (control c))%nat
  then request_close CLOSE_SLOW_CONSUMER "client is not keeping up" c
  else mkConn (close_code c) (close_reason c) (control c ++ [frame]) true (viewport c)
         (viewport_cells c) (pending_delta c) (needs_snapshot c) (closing c) (writable c).

Definition next_frame (now : Z) (c : ClientConnection) (h : PositionHub)
  : ClientConnection * PositionHub * res (option string) :=
  match control c, viewport c with
  | frame :: rest, _ =>
      (mkConn (close_code c) (close_reason c) rest (wake c) (viewport c) (viewport_cells c)
         (pending_delta c) (needs_snapshot c) (closing c) (writable c), h, Ok (Some frame))
  | [], vp =>
      match needs_snapshot c, vp with
      | true, Some rects =>
          let c' := mkConn (close_code c) (close_reason c) [] (wake c) (viewport c)
                      (viewport_cells c) (pending_delta c) false (closing c) (writable c) in
          let '(h', r) := snapshot_chunks rects h in
          (c', h', let! ss := r in Ok (Some (positions_frame true now ss [])))
      | _, _ =>
          match pending_delta c with
          | Some frame =>
              (mkConn (close_code c) (close_reason c) [] (wake c) (viewport c)
                 (viewport_cells c) None (needs_snapshot c) (closing c) (writable c), h,
               Ok (Some frame))
          | None => (c, h, Ok None)
          end
      end
  end.

(** [_write] up to the socket: what is sent, if anything. *)
Inductive Prepared :=
  | NotWritable                       (* return False *)
  | Undecodable                       (* dropped, return True *)
  | AsBytes (frame : string)          (* send_bytes *)
  | AsText (frame : string).          (* send_text *)

Definition prepare_write (frame : string) (c : ClientConnection) : res Prepared :=
  if negb (writable c) then Ok NotWritable
  else
    let! kind := frame_type frame in
    if decide (kind = "positions") then Ok (AsBytes frame)
    else if utf8_valid frame then Ok (AsText frame)
    else Ok Undecodable.

(** [_write] after the socket answered: the connection and the return value. *)
Definition finish_write (o : SendOutcome) (c : ClientConnection) : ClientConnection * bool :=
  let unwritable := mkConn (close_code c) (close_reason c) (control c) (wake c) (viewport c)
                      (viewport_cells c) (pending_delta c) (needs_snapshot c) (closing c) false in
  match o with
  | Sent => (c, true)
  | TimedOut => (request_close CLOSE_SLOW_CONSUMER "write timed out" unwritable, false)
  | PeerGone => (request_close 1000 "peer disconnected" unwritable, false)
  end.

(** [aclose]: the connection, and the close frame written to the socket, if any. *)
Definition aclose (c : ClientConnection) : ClientConnection * option (Z * string) :=
  let closed w := mkConn (close_code c) (close_reason c) (control c) (wake c) (viewport c)
                    (viewport_cells c) (pending_delta c) (needs_snapshot c) true w in
  if writable c then (closed false, Some (close_code c, close_reason c))
  else (closed false, None).

(** ** Lemmas *)

Lemma covers_iff rects x y :
  covers rects (x, y) = true ↔
  ∃ r, r ∈ rects ∧ min_x r ≤ x ≤ max_x r ∧ min_y r ≤ y ≤ max_y r.
Proof.
  unfold covers. rewrite existsb_exists. setoid_rewrite list_elem_of_In.
  split; intros (r & Hr & Hc); exists r; (split; [done|]);
    unfold rect_contains in *; lia.
Qed.

(** Both ways of joining the window with the delta pick the same chunks. *)
Lemma join_window_elem {A} (n : Z) (m : gmap Cell A) (rects : list CellRect) (s : A) :
  s ∈ join_window n m rects ↔ ∃ c, covers rects c = true ∧ m !! c = Some s.
Proof.
  unfold join_window. case_match.
  - rewrite list_elem_of_bind. setoid_rewrite list_elem_of_bind.
    setoid_rewrite list_elem_of_bind. unfold range. setoid_rewrite elem_of_seqZ. split.
    + intros (r & (x & (y & Hs & Hy) & Hx) & Hr). exists (x, y).
      split; [apply covers_iff; exists r; split; [done|lia]|].
      destruct (m !! _); [|by apply elem_of_nil in Hs].
      apply list_elem_of_singleton in Hs. by subst.
    + intros ([x y] & (r & Hr & Hx & Hy)%covers_iff & Hs).
      exists r. split; [|done]. exists x. split; [|lia]. exists y. split; [|lia].
      rewrite Hs. by apply list_elem_of_singleton.
  - rewrite list_elem_of_fmap. split.
    + intros ([c s'] & -> & [Hc Hs%elem_of_map_to_list]%list_elem_of_filter). eauto.
    + intros (c & Hc & Hs). exists (c, s). split; [done|].
      by rewrite list_elem_of_filter, elem_of_map_to_list.
Qed.

Lemma join_window_fmap {A B} (f : A → B) (n : Z) (m : gmap Cell A) rects :
  join_window n (f <$> m) rects = f <$> join_window n m rects.
Proof.
  unfold join_window. rewrite map_size_fmap. case_match.
  - rewrite fmap_bind. apply list_bind_ext; [|done]. intros r. cbn.
    rewrite fmap_bind. apply list_bind_ext; [|done]. intros x. cbn.
    rewrite fmap_bind. apply list_bind_ext; [|done]. intros y. cbn.
    rewrite lookup_fmap. by destruct (m !! _).
  - rewrite map_to_list_fmap. induction (map_to_list m) as [|[c a] l IH]; [done|].
    cbn. repeat case_decide; cbn; [by f_equal|done].
Qed.

Lemma removed_for_elem rects delta d :
  d ∈ removed_for rects delta ↔
  ∃ c l q, covers rects c = true ∧ departures delta !! c = Some l ∧ q ∈ l ∧
           departed_id q = d ∧ out_of (covers rects) (moved_to q).
Proof.
  unfold removed_for. rewrite list_elem_of_bind. split.
  - intros ([c l] & Hd & [Hc Hl%elem_of_map_to_list]%list_elem_of_filter).
    apply list_elem_of_fmap in Hd as (q & -> & [Hq Hin]%list_elem_of_filter).
    exists c, l, q. split_and!; done.
  - intros (c & l & q & Hc & Hl & Hq & <- & Hout). exists (c, l).
    rewrite list_elem_of_filter, elem_of_map_to_list. split; [|done].
    apply list_elem_of_fmap. exists q. by rewrite list_elem_of_filter.
Qed.
End connection.

(** ** Memory per client *)

Section bounded.
Context `{Orjson}.
Variable cell_size_deg : float64.
Variable control_max : nat.

(** Everything that changes a connection's queues. *)
Inductive conn_step : ClientConnection → ClientConnection → Prop :=
  | conn_viewport c bbox c' : set_viewport cell_size_deg bbox c = Ok c' → conn_step c c'
  | conn_offer c delta : conn_step c (offer_positions delta c)
  | conn_control c frame : conn_step c (send_control control_max frame c)
  | conn_close c code reason : conn_step c (request_close code reason c)
  | conn_next c now h : conn_step c (next_frame now c h).1.1
  | conn_written c o : conn_step c (finish_write o c).1
  | conn_closed c : conn_step c (aclose c).1.

Lemma conn_step_control c c' :
  conn_step c c' → (length (control c) ≤ control_max)%nat → (length (control c') ≤ control_max)%nat.
Proof.
  intros Hs Hc. destruct Hs as [c bbox c' E|c delta|c frame|c code reason|c now h|c o|c].
  - unfold set_viewport in E. destruct (rects_for bbox cell_size_deg); [|done]. by injection E as <-.
  - unfold offer_positions. destruct (viewport c); [|done]. destruct (closing c || needs_snapshot c); [done|].
    destruct (visible_chunks _ _ _), (removed_for _ _), (pending_delta c); done.
  - unfold send_control, request_close. destruct (closing c); [done|]. case_decide; cbn; [lia|].
    rewrite length_app. cbn. lia.
  - unfold request_close. destruct (closing c); [done|]. cbn. lia.
  - unfold next_frame. destruct (control c) as [|f rest] eqn:E; cbn; [|cbn in Hc; lia].
    destruct (needs_snapshot c), (viewport c); cbn; try (destruct (snapshot_chunks _ _); cbn; lia);
      destruct (pending_delta c); cbn; rewrite ?E; cbn; lia.
  - unfold finish_write, request_close. destruct o; cbn; [done|destruct (closing c); cbn; lia..].
  - unfold aclose. destruct (writable c); done.
Qed.
End bounded.

(** ** Properties *)

(** a slow client costs bounded memory. Whatever happens to a connection, it never
    queues more than [control_max] control frames (and one position frame), and the
    control frame that does not fit closes it with the slow-consumer code. *)
Lemma queues_bounded `{Orjson} cell_size_deg control_max c :
  rtc (conn_step cell_size_deg control_max) new_connection c →
  (length (control c) ≤ control_max)%nat ∧
  ∀ frame, closing c = false → length (control c) = control_max →
    let c' := send_control control_max frame c in
    closing c' = true ∧ close_code c' = CLOSE_SLOW_CONSUMER ∧ control c' = [] ∧ pending_delta c' = None.
Proof.
  intros Hr. split.
  - revert c Hr. apply (rtc_ind_r (λ c, (length (control c) ≤ control_max)%nat)); [cbn; lia|].
    intros c1 c2 _ Hs. by eapply conn_step_control.
  - intros frame Hc Hl. unfold send_control. rewrite Hc, decide_True by lia.
    unfold request_close. by rewrite Hc.
Qed.

(** a device that leaves the window and comes back within one tick is named twice in
    the frame, as an item and as removed; so a client must apply the removals first. *)
Lemma moved_away_and_back :
  let size := HubSamples.cell_size in
  let rects := [mkRect 0 0 200 200] in
  let h1 := (drain (H := Ref.orjson) 1 (Hub.apply size [HubSamples.van 0 1000] new_hub).1).1 in
  let h2 := (Hub.apply size [HubSamples.van 100 2000; HubSamples.van 1 3000] h1).1 in
  ∃ delta, (drain (H := Ref.orjson) 2 h2).2 = Ok delta ∧
    visible_chunks (mkConn 1000 "" [] false (Some rects) 40401 None false false true) delta rects
      = [chunk_of (H := Ref.orjson) [HubSamples.van 1 3000]] ∧
    removed_for rects delta = ["van-7"].
Proof. eexists. split; [vm_compute; reflexivity|]. split; vm_compute; reflexivity. Qed.

(** a relayed frame whose type is an array or an object is not skipped: classifying
    it raises inside the sender. *)
Lemma unhashable_type_raises `{Orjson} `{!OrjsonRoundtrip} `{!OrjsonCompact} c :
  writable c = true →
  let frame := dumps (JObj [("type", JArr [])]) in
  utf8_valid frame = true ∧ prepare_write frame c = Raise TypeError.
Proof.
  intros Hw. cbn zeta. unfold prepare_write, frame_type, parsed_frame_type. rewrite Hw. cbn [negb].
  assert (E : dumps (JObj [("type", JArr [])]) = "{" +:+ quoted "type" +:+ ":[]}").
  { rewrite dumps_obj. cbn [fmap list_fmap join fst snd]. rewrite dumps_word by done. rewrite dumps_arr. done. }
  rewrite loads_dumps by done. rewrite E. split; vm_compute; reflexivity.
Qed.

Lemma queues_bounded_witness :
  let c := send_control 2 "b" (send_control 2 "a" new_connection) in
  (length (control c) ≤ 2)%nat ∧
  ∀ frame, closing c = false → length (control c) = 2%nat →
    let c' := send_control 2 frame c in
    closing c' = true ∧ close_code c' = CLOSE_SLOW_CONSUMER ∧ control c' = [] ∧ pending_delta c' = None.
Proof.
  apply (queues_bounded (H := Ref.orjson) HubSamples.cell_size 2).
  apply (rtc_l _ _ (send_control 2 "a" new_connection)); [apply conn_control|].
  apply rtc_once, conn_control.
Defined.

Lemma unhashable_type_raises_witness :
  let frame := dumps (Orjson := Ref.orjson) (JObj [("type", JArr [])]) in
  utf8_valid frame = true ∧ prepare_write (H := Ref.orjson) frame new_connection = Raise TypeError.
Proof.
  apply (@unhashable_type_raises Ref.orjson Ref.orjson_roundtrip Ref.orjson_compact new_connection). reflexivity.
Defined.
