(* ===== verification/Dashboard.v ===== *)
(** * The map a page draws
    (src/frontend/js: [onPositions] of main.js, [DeviceStore] of devices.js)

    The only reader of the gateway's frames in this repository. It keeps one entry per
    device over every socket the page opens; a frame is merged newest first, a full one
    drops what it does not name, and only then what the frame removes is taken out; a
    timer forgets devices that have not reported for five minutes. A [Screen] is the
    history of that store, and [drawn] runs the page's code over it. [replayed] is what
    the frames mean when the removals are applied before the items; the page follows it
    except for the devices of [blinked] and [forgotten]. *)
From S2P Require Import Prelude Floats Geo Grid Text Json JsonRef Codec Protocol Hub Connection.

(** ** A frame *)

Record Frame := mkFrame { frame_full : bool; frame_items : list PositionItem; frame_removed : list string }.

Definition read_item (j : json) : option PositionItem :=
  match j with
  | JArr [JStr d; JFloat la; JFloat lo; JInt ms] => Some (mkItem d la lo ms)
  | _ => None
  end.
Definition read_id (j : json) : option string :=
  match j with JStr d => Some d | _ => None end.

(** What reaches [onPositions]: [#dispatch] of ws.js emits by the frame's type. *)
Definition read_positions (j : json) : option Frame :=
  match j with
  | JObj fields =>
      match assoc "type" fields, assoc "full" fields, assoc "items" fields, assoc "removed" fields with
      | Some (JStr kind), Some (JBool full), Some (JArr items), Some (JArr removed) =>
          if decide (kind = "positions")
          then Some (mkFrame full (omap read_item items) (omap read_id removed)) else None
      | _, _, _, _ => None
      end
  | _ => None
  end.

(** ** The store *)

Definition DEVICE_STALE_MS : Z := 300000.

(** [apply(items, {full})]: an entry as new as the item stays; a full frame then drops
    every entry it did not name. *)
Definition store_apply (full : bool) (items : list PositionItem) (entries : View) : View :=
  let merged := foldl newest entries items in
  if full then filter (λ p : string * PositionItem, p.1 ∈ item_id <$> items) merged else merged.
Definition store_remove (ids : list string) (entries : View) : View :=
  foldl (λ entries d, delete d entries) entries ids.
Definition stale_at (now : Z) (i : PositionItem) : Prop := DEVICE_STALE_MS < now - item_ms i.
#[export] Instance stale_at_dec now i : Decision (stale_at now i) := Z.lt_dec _ _.
Definition store_sweep (now : Z) (entries : View) : View :=
  filter (λ p : string * PositionItem, ¬ stale_at now p.2) entries.

Definition on_positions (f : Frame) (entries : View) : View :=
  store_remove (frame_removed f) (store_apply (frame_full f) (frame_items f) entries).

(** ** A page's history *)

Inductive Screen :=
  | Kept (entries : View)                 (* what the store held when the socket was opened *)
  | Heard (frame : string) (s : Screen)   (* a binary message arrived *)
  | Swept (now : Z) (s : Screen).         (* the page's own timer *)

Section screen.
Context `{Orjson}.

Definition content (frame : string) : option Frame := loads frame ≫= read_positions.

Fixpoint drawn (s : Screen) : View :=
  match s with
  | Kept entries => entries
  | Heard frame s => match content frame with Some f => on_positions f (drawn s) | None => drawn s end
  | Swept now s => store_sweep now (drawn s)
  end.

(** What the frames say, read with the removals first. *)
Definition replay (frame : string) (v : View) : View :=
  match content frame with
  | Some f => show (if frame_full f then ∅ else v) (frame_items f) (frame_removed f)
  | None => v
  end.
Fixpoint replayed (s : Screen) : View :=
  match s with
  | Kept entries => entries
  | Heard frame s => replay frame (replayed s)
  | Swept _ s => replayed s
  end.

(** The devices whose last mention was in a frame that both brought and removed them. *)
Definition named (f : Frame) : gset string := list_to_set (item_id <$> frame_items f).
Definition dropped (f : Frame) : gset string := list_to_set (frame_removed f).
Definition unmentioned (f : Frame) (ds : gset string) : gset string :=
  if frame_full f then ∅ else ds ∖ (named f ∪ dropped f).
Fixpoint blinked (s : Screen) : gset string :=
  match s with
  | Kept _ => ∅
  | Heard frame s => match content frame with
                     | Some f => named f ∩ dropped f ∪ unmentioned f (blinked s)
                     | None => blinked s
                     end
  | Swept _ s => blinked s
  end.
(** The devices the page's timer took out and no frame has mentioned since. *)
Fixpoint forgotten (s : Screen) : gset string :=
  match s with
  | Kept _ => ∅
  | Heard frame s => match content frame with Some f => unmentioned f (forgotten s) | None => forgotten s end
  | Swept now s => forgotten s ∪ dom (filter (λ p : string * PositionItem, stale_at now p.2) (drawn s))
  end.
End screen.

(** ** Merging *)

Lemma newest_lookup v i d :
  newest v i !! d = if decide (d = item_id i) then
                      match v !! d with
                      | Some j => if item_ms i <=? item_ms j then Some j else Some i
                      | None => Some i
                      end
                    else v !! d.
Proof.
  unfold newest, put. destruct (decide (d = item_id i)) as [->|Hd].
  - destruct (v !! item_id i) as [j|] eqn:E; [|by rewrite lookup_insert_eq].
    destruct (item_ms i <=? item_ms j); [done|by rewrite lookup_insert_eq].
  - destruct (v !! item_id i) as [j|]; [case_match; [done|]|]; by rewrite lookup_insert_ne.
Qed.

Lemma merge_grows items v d i j :
  foldl newest v items !! d = Some i → v !! d = Some j → item_ms j ≤ item_ms i.
Proof.
  revert v j. induction items as [|x items IH]; intros v j; cbn; [intros; simplify_eq; lia|].
  intros Hi Hj. pose proof (IH (newest v x)) as Hx. rewrite newest_lookup in Hx.
  case_decide; [|by eauto]. rewrite Hj in Hx.
  destruct (Z.leb_spec (item_ms x) (item_ms j)); [by eauto|]. specialize (Hx x Hi eq_refl). lia.
Qed.

(** Every entry after a merge is an item or was there, and outdoes the items of its device. *)
Lemma merged_entry items v d i :
  foldl newest v items !! d = Some i →
  (v !! d = Some i ∨ i ∈ items ∧ item_id i = d) ∧ ∀ j, j ∈ items → item_id j = d → item_ms j ≤ item_ms i.
Proof.
  revert v. induction items as [|x items IH]; intros v; [set_solver|]. cbn. intros Hi.
  destruct (IH _ Hi) as [Hfrom Hle]. pose proof (λ j, merge_grows items (newest v x) d i j Hi) as Hx.
  rewrite newest_lookup in Hfrom. rewrite newest_lookup in Hx. case_decide as Hd; [subst d|].
  - split.
    + destruct Hfrom as [Hfrom|[? ?]]; [|by right; split; [right|]].
      destruct (v !! item_id x) as [j|] eqn:E; [case_match; [left; congruence|]|];
        simplify_eq; right; (split; [left|done]).
    + intros j [->|Hj]%elem_of_cons Hid; [|by apply Hle].
      destruct (v !! item_id x) as [j|]; [|by apply Hx].
      destruct (Z.leb_spec (item_ms x) (item_ms j)); [|by apply Hx]. specialize (Hx j eq_refl). lia.
  - split; [set_solver|]. intros j [->|Hj]%elem_of_cons Hid; [congruence|by apply Hle].
Qed.

Lemma merged_dom items v : dom (foldl newest v items) = dom v ∪ list_to_set (item_id <$> items).
Proof.
  revert v. induction items as [|x items IH]; intros v; cbn; [set_solver|]. rewrite IH.
  assert (dom (newest v x) = {[item_id x]} ∪ dom v) as ->; [|set_solver].
  unfold newest, put. destruct (v !! item_id x) as [j|] eqn:E; [|apply dom_insert_L].
  apply elem_of_dom_2 in E. case_match; [set_solver|apply dom_insert_L].
Qed.

Lemma store_apply_lookup full items v d :
  store_apply full items v !! d
  = if full && negb (bool_decide (d ∈ item_id <$> items)) then None else foldl newest v items !! d.
Proof.
  unfold store_apply. destruct full; [|done]. cbn. case_bool_decide as Hd; cbn.
  - destruct (foldl newest v items !! d) as [i|] eqn:E.
    + by apply map_lookup_filter_Some.
    + apply map_lookup_filter_None. by left.
  - apply map_lookup_filter_None. right. intros i _. done.
Qed.

(** What reading a frame removals first leaves of a device. *)
Lemma shown_lookup v items removed d :
  (d ∉ item_id <$> items → show v items removed !! d = if decide (d ∈ removed) then None else v !! d) ∧
  (d ∈ item_id <$> items → ∃ j, j ∈ items ∧ item_id j = d ∧ show v items removed !! d = Some j).
Proof.
  unfold show. rewrite <- delete_all_lookup. generalize (foldl (λ v d, delete d v) v removed). clear v.
  induction items as [|x items IH] using rev_ind; intros v; [set_solver|].
  rewrite foldl_app, fmap_app. cbn. unfold put at 1 3. destruct (IH v) as [IH1 IH2]. split.
  - intros Hd. rewrite lookup_insert_ne by set_solver. apply IH1. set_solver.
  - intros Hd. destruct (decide (d = item_id x)) as [->|Hne].
    + exists x. rewrite lookup_insert_eq. set_solver.
    + destruct IH2 as (j & ? & ? & ?); [set_solver|]. exists j. rewrite lookup_insert_ne by done. set_solver.
Qed.

(** Entries under their own device, all with a property. *)
Definition keyed (P : PositionItem → Prop) (v : View) : Prop :=
  ∀ d i, v !! d = Some i → item_id i = d ∧ P i.

Lemma newest_keyed (P : PositionItem → Prop) items v :
  keyed P v → (∀ i, i ∈ items → P i) → keyed P (foldl newest v items).
Proof.
  intros Hv Hi d i [[Hd|[Hin Hd]] _]%merged_entry; [by apply Hv|]. split; [done|by apply Hi].
Qed.

(** ** The page against the frames *)

(** The page's entry for a device against the frames': what it misses, and how new what it
    draws is. *)
Definition follows (v w : View) (lost : gset string) : Prop :=
  ∀ d, match v !! d, w !! d with
       | Some i, Some j => item_ms j ≤ item_ms i ∧ d ∉ lost
       | None, Some _ => d ∈ lost
       | Some _, None => False
       | None, None => True
       end.

Lemma frame_follows f v w b g :
  follows v w (b ∪ g) →
  follows (on_positions f v) (show (if frame_full f then ∅ else w) (frame_items f) (frame_removed f))
    (named f ∩ dropped f ∪ unmentioned f b ∪ unmentioned f g).
Proof.
  intros Hf d. unfold on_positions, store_remove. rewrite delete_all_lookup, store_apply_lookup.
  destruct f as [full items removed]. unfold unmentioned, named, dropped. cbn [frame_full frame_items frame_removed].
  destruct (shown_lookup (if full then ∅ else w) items removed d) as [Hout Hin].
  destruct (decide (d ∈ item_id <$> items)) as [Hd|Hd].
  - destruct (Hin Hd) as (j & Hj & Hid & ->). rewrite bool_decide_true by done. rewrite andb_false_r.
    destruct (decide (d ∈ removed)) as [Hr|Hr]; [set_solver|].
    destruct (foldl newest v items !! d) as [i|] eqn:E.
    + split; [by apply (merged_entry _ _ _ _ E)|]. destruct full; set_solver.
    + apply not_elem_of_dom in E. rewrite merged_dom in E. set_solver.
  - rewrite (Hout Hd). rewrite bool_decide_false by done. destruct full; cbn.
    { rewrite lookup_empty. by repeat case_decide. }
    destruct (decide (d ∈ removed)) as [Hr|Hr]; [done|]. specialize (Hf d).
    assert (foldl newest v items !! d = v !! d) as ->.
    { clear -Hd. revert v Hd. induction items as [|x items IH]; intros v Hd; [done|]. cbn.
      rewrite IH by set_solver. rewrite newest_lookup, decide_False; [done|set_solver]. }
    destruct (v !! d), (w !! d); set_solver.
Qed.

Section follows.
Context `{Orjson}.

Lemma drawn_follows s : follows (drawn s) (replayed s) (blinked s ∪ forgotten s).
Proof.
  induction s as [v|frame s IH|now s IH]; cbn.
  - intros d. destruct (v !! d); [|done]. split; [done|set_solver].
  - unfold replay. destruct (content frame) as [f|]; [by apply frame_follows|done].
  - intros d. specialize (IH d). unfold store_sweep. destruct (drawn s !! d) as [i|] eqn:E.
    + destruct (decide (stale_at now i)) as [Hst|Hst].
      * rewrite (proj2 (map_lookup_filter_None _ _ d)) by (right; intros i' Hi'; simplify_eq; cbn; tauto).
        destruct (replayed s !! d); [|done]. apply elem_of_union_r, elem_of_union_r, elem_of_dom.
        exists i. by apply map_lookup_filter_Some.
      * rewrite (proj2 (map_lookup_filter_Some _ _ d i)) by done. destruct (replayed s !! d); [|done].
        split; [apply IH|]. intros [Hb|[Hg|[j [Hj Hs]%map_lookup_filter_Some]%elem_of_dom]%elem_of_union]%elem_of_union;
          [destruct IH; set_solver..|]. cbn in Hs. congruence.
    + rewrite (proj2 (map_lookup_filter_None _ _ d)) by by left. destruct (replayed s !! d); set_solver.
Qed.

Lemma drawn_exactly s w :
  replayed s = w →
  dom (drawn s) = dom w ∖ (blinked s ∪ forgotten s) ∧
  ∀ d i, drawn s !! d = Some i → ∃ j, w !! d = Some j ∧ item_ms j ≤ item_ms i.
Proof.
  intros <-. pose proof (drawn_follows s) as Hf. split.
  - apply set_eq. intros d. specialize (Hf d). rewrite elem_of_difference, !elem_of_dom, <- !not_eq_None_Some.
    destruct (drawn s !! d), (replayed s !! d); naive_solver.
  - intros d i Hi. specialize (Hf d). rewrite Hi in Hf. destruct (replayed s !! d); [|done]. naive_solver.
Qed.

(** What a property of everything the page kept and was told gives of what it draws. *)
Definition frame_holds (P : PositionItem → Prop) (frame : string) : Prop :=
  ∀ f, content frame = Some f → ∀ i, i ∈ frame_items f → P i.
Fixpoint screen_holds (P : PositionItem → Prop) (s : Screen) : Prop :=
  match s with
  | Kept entries => keyed P entries
  | Heard frame s => frame_holds P frame ∧ screen_holds P s
  | Swept _ s => screen_holds P s
  end.

Lemma drawn_keyed P s : screen_holds P s → keyed P (drawn s).
Proof.
  induction s as [v|frame s IH|now s IH]; cbn; [done| |].
  - intros [Hf Hs]. specialize (IH Hs). unfold frame_holds in Hf. destruct (content frame) as [f|]; [|done]. specialize (Hf f eq_refl).
    intros d i. unfold on_positions, store_remove. rewrite delete_all_lookup. case_decide; [done|].
    rewrite store_apply_lookup. case_match; [done|]. by apply newest_keyed.
  - intros Hs d i [Hi _]%map_lookup_filter_Some. by apply IH.
Qed.

Lemma screen_holds_mono (P Q : PositionItem → Prop) s :
  (∀ i, P i → Q i) → screen_holds P s → screen_holds Q s.
Proof.
  intros Hpq. induction s as [v|frame s IH|now s IH]; cbn; [|intros [Hf ?]; split; [|by apply IH]|done].
  - intros Hk d i Hi. destruct (Hk d i Hi). auto.
  - intros f Hc i Hi. by eapply Hpq, Hf.
Qed.
End follows.

(** Five hundred kilometres there and back within one tick: the gateway sends a frame that
    brings and removes the device, and the page, which merges first, takes it off the map. *)
Lemma re_entry_hides_device :
  let van := HubSamples.van in
  let f := mkFrame false [van 1 3000] ["van-7"] in
  on_positions f {["van-7" := van 0 1000]} = ∅ ∧
  show {["van-7" := van 0 1000]} (frame_items f) (frame_removed f) = {["van-7" := van 1 3000]}.
Proof. split; vm_compute; reflexivity. Qed.
