(* ===== verification/Fanout.v ===== *)
(** * Ticks, clients and the map they end up drawing
    (fan_out of src/geotrack/realtime/gateway.py over connection.py and hub.py)

    The gateway is a transition system: the hub, and one record per client with its
    connection object, the place its sender task is suspended at, and the page at the
    other end of the socket ([Dashboard]). A step is the code one task runs between two
    awaits. *)
From S2P Require Import Prelude Floats Geo Grid Text Json JsonRef Codec Protocol Hub Connection Dashboard.

(** Where the sender task of a connection is. *)
Inductive Sender :=
  | Idle                                   (* await self._wake.wait() *)
  | Pumping                                (* about to run the inner loop's body *)
  | Writing (binary : bool) (frame : string)  (* await self._socket.send_... *)
  | Done.

Record Client := mkClient { conn : ClientConnection; sender : Sender; screen : Screen }.
Record System := mkSystem { hub : PositionHub; clients : gmap Z Client }.

Section fanout.
Context `{Orjson}.
Variable cell_size_deg : float64.
Variable stale_after_ms : Z.
Variable control_max : nat.

Definition fan_out (t_ms : Z) (h : PositionHub) (conns : gmap Z ClientConnection)
  : PositionHub * gmap Z ClientConnection * option exn :=
  if decide (map_Forall (λ _ c, wants_positions c = false) conns)
  then (discard_pending h, conns, None)
  else match drain t_ms h with
       | (h', Raise e) => (h', conns, Some e)
       | (h', Ok delta) =>
           if delta_is_empty delta then (h', conns, None)
           else (h', (λ c, if wants_positions c then offer_positions delta c else c) <$> conns, None)
       end.

(** The sender wakes up: [self._wake.clear()]. *)
Definition cleared (c : ClientConnection) : ClientConnection :=
  mkConn (close_code c) (close_reason c) (control c) false (viewport c) (viewport_cells c)
    (pending_delta c) (needs_snapshot c) (closing c) (writable c).

(** One round of the sender's inner loop, up to the write it awaits. *)
Definition pump (now : Z) (c : ClientConnection) (h : PositionHub)
  : ClientConnection * PositionHub * Sender :=
  if closing c then (c, h, Done)
  else match next_frame now c h with
       | (c', h', Raise _) => (c', h', Done)
       | (c', h', Ok None) => (c', h', Idle)
       | (c', h', Ok (Some frame)) =>
           (c', h', match prepare_write frame c' with
                    | Raise _ | Ok NotWritable => Done
                    | Ok Undecodable => Pumping
                    | Ok (AsBytes f) => Writing true f
                    | Ok (AsText f) => Writing false f
                    end)
       end.

Definition timestamp_ok (t : Z) : Prop := - 2 ^ 63 ≤ t < 2 ^ 64.

Definition with_conn (k : Z) (cl : Client) (c : ClientConnection) (s : System) : System :=
  mkSystem (hub s) (<[k := mkClient c (sender cl) (screen cl)]> (clients s)).

Inductive step : System → System → Prop :=
  (* the bridge delivers a batch of positions *)
  | step_apply items s : Forall item_encodable items →
      step s (mkSystem (apply cell_size_deg items (hub s)).1 (clients s))
  | step_sweep now s :
      step s (mkSystem (sweep stale_after_ms now (hub s)) (clients s))
  (* one iteration of the position loop *)
  | step_tick t_ms s h' conns' e : timestamp_ok t_ms →
      fan_out t_ms (hub s) (conn <$> clients s) = (h', conns', e) →
      step s (mkSystem h' (map_zip_with (λ c cl, mkClient c (sender cl) (screen cl)) conns' (clients s)))
  | step_connect k entries s : clients s !! k = None →
      step s (mkSystem (hub s) (<[k := mkClient new_connection Idle (Kept entries)]> (clients s)))
  (* the receive loop and the other producers of control frames *)
  | step_viewport k cl bbox c' s : clients s !! k = Some cl →
      set_viewport cell_size_deg bbox (conn cl) = Ok c' → step s (with_conn k cl c' s)
  | step_control k cl frame s : clients s !! k = Some cl →
      frame_type frame ≠ Ok "positions" →
      step s (with_conn k cl (send_control control_max frame (conn cl)) s)
  | step_close k cl code reason s : clients s !! k = Some cl →
      step s (with_conn k cl (request_close code reason (conn cl)) s)
  (* the sender task *)
  | step_wake k cl s : clients s !! k = Some cl → sender cl = Idle → wake (conn cl) = true →
      step s (mkSystem (hub s) (<[k := mkClient (cleared (conn cl)) Pumping (screen cl)]> (clients s)))
  | step_pump k cl now c' h' snd s : clients s !! k = Some cl → sender cl = Pumping →
      timestamp_ok now → pump now (conn cl) (hub s) = (c', h', snd) →
      step s (mkSystem h' (<[k := mkClient c' snd (screen cl)]> (clients s)))
  | step_sent k cl binary frame s : clients s !! k = Some cl → sender cl = Writing binary frame →
      step s (mkSystem (hub s)
        (<[k := mkClient (finish_write Sent (conn cl)).1 Pumping
                  (if binary then Heard frame (screen cl) else screen cl)]> (clients s)))
  | step_failed k cl binary frame o s : clients s !! k = Some cl →
      sender cl = Writing binary frame → o ≠ Sent →
      step s (mkSystem (hub s)
        (<[k := mkClient (finish_write o (conn cl)).1 Done (screen cl)]> (clients s)))
  (* the page's own timer *)
  | step_page_sweep k cl now s : clients s !! k = Some cl →
      step s (mkSystem (hub s) (<[k := mkClient (conn cl) (sender cl) (Swept now (screen cl))]> (clients s)))
  (* the end of [serve] *)
  | step_leave k cl s : clients s !! k = Some cl → closing (conn cl) = true →
      step s (mkSystem (hub s) (delete k (clients s))).

Definition start : System := mkSystem new_hub ∅.
End fanout.

(** ** The invariant *)

Section invariant.
Context `{Orjson} `{!OrjsonRoundtrip} `{!OrjsonCompact}.
Variable cell_size_deg : float64.
Variable stale_after_ms : Z.
Variable control_max : nat.

Local Notation step := (step cell_size_deg stale_after_ms control_max).

(** Everything the hub could put into a frame can be rendered. *)
Definition hub_text (h : PositionHub) : Prop :=
  (∀ d e, latest h !! d = Some e → item_encodable (item e)) ∧
  (∀ c d m, moves_at h c !! d = Some m → utf8_valid d = true).

(** The map after the frame being written, and then the delta that waits, arrive. *)
Definition in_flight (cl : Client) : View :=
  match sender cl with
  | Writing true frame => replay frame (replayed (screen cl))
  | _ => replayed (screen cl)
  end.
Definition eventual (cl : Client) : View :=
  match pending_delta (conn cl) with
  | Some frame => replay frame (in_flight cl)
  | None => in_flight cl
  end.

Record client_ok (h : PositionHub) (cl : Client) : Prop := {
  ok_synced rects : sender cl ≠ Done → closing (conn cl) = false →
    needs_snapshot (conn cl) = false → viewport (conn cl) = Some rects →
    synced (covers rects) (eventual cl) h;
  ok_snapshot : needs_snapshot (conn cl) = true →
    pending_delta (conn cl) = None ∧ is_Some (viewport (conn cl));
  ok_delta frame : pending_delta (conn cl) = Some frame → frame_type frame = Ok "positions";
  ok_control : Forall (λ frame, frame_type frame ≠ Ok "positions") (control (conn cl));
  (* a sender that sleeps with nothing signalled has nothing to do *)
  ok_idle : sender cl = Idle → wake (conn cl) = false →
    closing (conn cl) = false ∧ control (conn cl) = [] ∧
    needs_snapshot (conn cl) = false ∧ pending_delta (conn cl) = None }.

Record system_ok (s : System) : Prop := {
  sys_wf : hub_wf cell_size_deg (hub s);
  sys_text : hub_text (hub s);
  sys_clients k cl : clients s !! k = Some cl → client_ok (hub s) cl }.

Lemma text_step d new h h' :
  hub_wf cell_size_deg h → hub_text h → device_step d new h h' → utf8_valid d = true →
  (∀ e, new = Some e → item_encodable (item e)) → hub_text h'.
Proof.
  intros Hwf [Hi Hm] Hs Hd Hnew. split.
  - intros x e. rewrite (step_lookup _ _ _ _ _ Hs). case_decide; eauto.
  - intros c x m. destruct (decide (x = d)) as [->|]; [done|].
    rewrite (ds_others _ _ _ _ Hs) by done. apply Hm.
Qed.

Lemma text_apply items h :
  hub_wf cell_size_deg h → hub_text h → Forall item_encodable items →
  hub_text (apply cell_size_deg items h).1.
Proof.
  intros Hwf Ht Hi. rewrite Forall_forall in Hi.
  apply (apply_ind cell_size_deg hub_text); [done| |done..].
  intros g i c Hg Htg _ _ Hin.
  eapply text_step; [done|done|by apply (place_step cell_size_deg)|by apply Hi|].
  intros e [= <-]. by apply Hi.
Qed.

Lemma text_sweep now h :
  hub_wf cell_size_deg h → hub_text h → hub_text (sweep stale_after_ms now h).
Proof.
  intros Hwf Ht. apply (sweep_ind cell_size_deg hub_text); [|done..].
  intros g d e Hg Htg He _.
  eapply text_step; [done|done|by eapply sweep_one_step| |done].
  destruct (wf_entries _ _ Hg _ _ He) as [<- _]. by apply Htg in He as [? _].
Qed.

(** *** A frame read back *)

Lemma read_items_back (items : list PositionItem) : omap read_item (item_json <$> items) = items.
Proof. induction items as [|[] items IH]; [done|]. cbn. by f_equal. Qed.
Lemma read_ids_back (ids : list string) : omap read_id (JStr <$> ids) = ids.
Proof. induction ids as [|d ids IH]; [done|]. cbn. by f_equal. Qed.

Lemma positions_dumpable full t_ms items removed :
  timestamp_ok t_ms → Forall item_encodable items → Forall (λ d, utf8_valid d = true) removed →
  dumpable (positions_json full t_ms items removed) = true.
Proof.
  intros Ht Hi Hr. unfold positions_json. cbn [dumpable]. apply andb_true_iff.
  split; [by vm_compute|]. cbn. rewrite !andb_true_r. repeat (apply andb_true_iff; split); try done.
  - unfold timestamp_ok in Ht. lia.
  - unfold timestamp_ok in Ht. lia.
  - apply forallb_forall. intros j Hj.
    apply list_elem_of_In, list_elem_of_fmap in Hj as (i & -> & Hin).
    eapply item_json_dumpable. by eapply Forall_forall in Hin.
  - apply forallb_forall. intros j Hj.
    apply list_elem_of_In, list_elem_of_fmap in Hj as (i & -> & Hin).
    rewrite Forall_forall in Hr. by apply Hr.
Qed.

Lemma frame_content full t_ms groups removed :
  timestamp_ok t_ms → Forall (λ g, g ≠ []) groups →
  Forall item_encodable (concat groups) → Forall (λ d, utf8_valid d = true) removed →
  content (positions_frame full t_ms (chunk_of <$> groups) removed)
  = Some (mkFrame full (concat groups) removed).
Proof.
  intros Ht Hg Hi Hr. unfold content. rewrite positions_frame_json by done.
  rewrite loads_dumps by by apply positions_dumpable.
  change (Some (mkFrame full (omap read_item (item_json <$> concat groups)) (omap read_id (JStr <$> removed)))
          = Some (mkFrame full (concat groups) removed)).
  by rewrite read_items_back, read_ids_back.
Qed.

Lemma replay_frame full t_ms groups removed v :
  timestamp_ok t_ms → Forall (λ g, g ≠ []) groups →
  Forall item_encodable (concat groups) → Forall (λ d, utf8_valid d = true) removed →
  replay (positions_frame full t_ms (chunk_of <$> groups) removed) v
  = show (if full then ∅ else v) (concat groups) removed.
Proof. intros. unfold replay. by rewrite frame_content. Qed.

Lemma positions_frame_type full t_ms cs removed :
  frame_type (positions_frame full t_ms cs removed) = Ok "positions".
Proof.
  unfold frame_type, positions_frame, quoted.
  rewrite <- !string_app_assoc. reflexivity.
Qed.

Lemma synced_same V v h h' :
  latest h' = latest h → pending h' = pending h → synced V v h → synced V v h'.
Proof. destruct h, h'; cbn. intros -> ->. done. Qed.

Lemma client_ok_hub h h' cl :
  (∀ V v, synced V v h → synced V v h') → client_ok h cl → client_ok h' cl.
Proof. intros Hs []. split; eauto. Qed.

(** *** A tick *)

Lemma delta_items n rects h i :
  hub_wf cell_size_deg h →
  i ∈ concat (join_window n (changed_items h) rects) ↔
  ∃ c d e, covers rects c = true ∧ d ∈ set_at (changed (pending h)) c ∧ latest h !! d = Some e ∧ i = item e.
Proof.
  intros Hwf. rewrite list_elem_of_concat. setoid_rewrite join_window_elem.
  pose proof (λ c, changed_items_elem cell_size_deg h c i Hwf) as Hc. split.
  - intros (l & Hi & c & HV & Hl). destruct (proj1 (Hc c)) as (d & e & ? & ? & ?); eauto 10.
  - intros (c & d & e & HV & Hd & He & ->). destruct (proj2 (Hc c)) as (l & ? & ?); eauto 10.
Qed.

(** What a delta brings to a window, and what receiving it makes of a synced map. *)
Lemma delta_view n rects v h t_ms :
  hub_wf cell_size_deg h → hub_text h → synced (covers rects) v h →
  let groups := join_window n (changed_items h) rects in
  let removed := removed_for rects (mkDelta t_ms (chunk_of <$> changed_items h) (departures_of h)) in
  Forall (λ g, g ≠ []) groups ∧ Forall item_encodable (concat groups) ∧
  Forall (λ d, utf8_valid d = true) removed ∧
  show v (concat groups) removed = visible (covers rects) h.
Proof.
  intros Hwf [Hti Htm] Hs groups removed.
  pose proof (λ i, delta_items n rects h i Hwf) as Hitems. fold groups in Hitems.
  assert (Hremoved : ∀ d, d ∈ removed ↔ ∃ c m, covers rects c = true ∧
            moves_at h c !! d = Some m ∧ out_of (covers rects) m).
  { intros d. subst removed. rewrite removed_for_elem. cbn. split.
    - intros (c & l & q & HV & Hl & Hq & <- & Ho). exists c, (moved_to q).
      split_and!; [done| |done]. apply departures_elem. eauto.
    - intros (c & m & HV & Hm & Ho).
      destruct (proj2 (departures_elem h c (mkDeparture d m)) Hm) as (l & Hl & Hq).
      by exists c, l, (mkDeparture d m). }
  split_and!.
  - apply Forall_forall. intros g (c & _ & Hg)%join_window_elem.
    by eapply changed_items_nonempty.
  - apply Forall_forall. intros i (c & d & e & _ & _ & He & ->)%Hitems. eauto.
  - apply Forall_forall. intros d (c & m & _ & Hm & _)%Hremoved. eauto.
  - by apply (show_delta cell_size_deg).
Qed.

Definition drained (t_ms : Z) (h : PositionHub) : TickDelta :=
  mkDelta t_ms (chunk_of <$> changed_items h) (departures_of h).

Lemma offer_ok t_ms h cl :
  hub_wf cell_size_deg h → hub_text h → timestamp_ok t_ms → client_ok h cl →
  client_ok (clear_pending h)
    (mkClient (offer_positions (drained t_ms h) (conn cl)) (sender cl) (screen cl)).
Proof.
  intros Hwf Ht Hts Hok. destruct cl as [c snd v]. destruct Hok as [Hs Hsn Hd Hc Hi]; cbn in *.
  unfold offer_positions. destruct (viewport c) as [rects|] eqn:Ev.
  2:{ split; cbn; rewrite ?Ev; auto. intros; congruence. }
  destruct (closing c) eqn:Ecl; cbn.
  { split; cbn; rewrite ?Ev, ?Ecl; auto. intros; congruence. }
  destruct (needs_snapshot c) eqn:En.
  { split; cbn; rewrite ?Ev, ?En, ?Ecl; auto. intros; congruence. }
  unfold visible_chunks, drained; cbn. rewrite join_window_fmap.
  set (groups := join_window _ _ _). set (removed := removed_for _ _).
  assert (Hsame : chunk_of <$> groups = [] → removed = [] →
    client_ok (clear_pending h) (mkClient c snd v)).
  { intros Hg0 Hr0. split; cbn; rewrite ?Ev, ?En, ?Ecl; auto. intros rects' Hnd _ _ [= <-].
    destruct (delta_view (viewport_cells c) rects (eventual (mkClient c snd v)) h t_ms)
      as (_ & _ & _ & Hshow); [by auto..|]. fold groups removed in Hshow.
    apply fmap_nil_inv in Hg0. rewrite Hg0, Hr0 in Hshow.
    unfold show in Hshow. cbn in Hshow. rewrite Hshow. apply (synced_visible _ (clear_pending h)). }
  assert (Hnew : client_ok (clear_pending h) (mkClient
    (match pending_delta c with
     | None => mkConn (close_code c) (close_reason c) (control c) true (Some rects) (viewport_cells c)
                 (Some (positions_frame false t_ms (chunk_of <$> groups) removed)) false false (writable c)
     | Some _ => mkConn (close_code c) (close_reason c) (control c) true (Some rects) (viewport_cells c)
                 None true false (writable c)
     end) snd v)).
  { destruct (pending_delta c) as [f|] eqn:Ep; split; cbn; auto; try (intros; congruence).
    2:{ intros f [= <-]. apply positions_frame_type. }
    intros rects' Hnd _ _ [= <-]. specialize (Hs rects Hnd eq_refl eq_refl eq_refl).
    unfold eventual in Hs; cbn in Hs. rewrite Ep in Hs.
    destruct (delta_view (viewport_cells c) rects (in_flight (mkClient c snd v)) h t_ms)
      as (Hg & Hi' & Hr & Hshow); [done..|]. fold groups removed in Hg, Hi', Hr, Hshow.
    unfold eventual; cbn. rewrite replay_frame by done.
    change (in_flight (mkClient _ snd v)) with (in_flight (mkClient c snd v)).
    rewrite Hshow. apply (synced_visible _ (clear_pending h)). }
  destruct (chunk_of <$> groups) eqn:Eg, removed eqn:Er; auto.
Qed.

Lemma offer_empty delta c : delta_is_empty delta = true → offer_positions delta c = c.
Proof.
  intros [Hc Hd]%andb_true_iff. apply bool_decide_eq_true in Hc, Hd.
  apply dom_empty_inv_L in Hd. unfold offer_positions. destruct (viewport c) as [rects|]; [|done].
  destruct (closing c || needs_snapshot c); [done|].
  assert (visible_chunks c delta rects = []) as ->.
  { apply elem_of_nil_inv. intros x. unfold visible_chunks. rewrite join_window_elem, Hc.
    by intros (? & _ & ?). }
  assert (removed_for rects delta = []) as ->; [|done].
  apply elem_of_nil_inv. intros d. rewrite removed_for_elem, Hd. by intros (? & ? & ? & _ & ? & _).
Qed.

Lemma offer_unwatched h cl :
  wants_positions (conn cl) = false → client_ok h cl → client_ok (clear_pending h) cl.
Proof.
  unfold wants_positions. intros Hw []. split; auto. intros rects _ Hcl _ Hv.
  rewrite Hcl, Hv in Hw. done.
Qed.

Lemma text_clear h : hub_text h → hub_text (clear_pending h).
Proof. intros [Hi _]. split; [done|]. intros c d m. unfold moves_at. cbn. by rewrite lookup_empty. Qed.

Lemma tick_ok t_ms s h' conns' e :
  system_ok s → timestamp_ok t_ms →
  fan_out t_ms (hub s) (conn <$> clients s) = (h', conns', e) →
  system_ok (mkSystem h'
    (map_zip_with (λ c cl, mkClient c (sender cl) (screen cl)) conns' (clients s))).
Proof.
  intros [Hwf Ht Hcl] Hts. unfold fan_out. rewrite (drain_ok cell_size_deg) by done.
  assert (Hclear : hub_wf cell_size_deg (clear_pending (hub s))) by by apply clear_wf.
  assert (Htclear : hub_text (clear_pending (hub s))) by by apply text_clear.
  assert (Hgoal : ∀ f : ClientConnection → ClientConnection,
    (∀ k cl, clients s !! k = Some cl →
       client_ok (clear_pending (hub s)) (mkClient (f (conn cl)) (sender cl) (screen cl))) →
    system_ok (mkSystem (clear_pending (hub s))
      (map_zip_with (λ c cl, mkClient c (sender cl) (screen cl)) (f <$> (conn <$> clients s)) (clients s)))).
  { intros f Hf. split; [done..|]. cbn. intros k cl. rewrite map_lookup_zip_with, !lookup_fmap.
    destruct (clients s !! k) as [cl0|] eqn:E; [|done]. intros [= <-]. by apply (Hf k). }
  assert (Heta : ∀ cl, mkClient (conn cl) (sender cl) (screen cl) = cl) by by intros [].
  case_decide as Hw.
  - intros [= <- <- <-]. rewrite <- (map_fmap_id (conn <$> clients s)). apply Hgoal.
    intros k cl Hk. cbn. rewrite Heta. apply offer_unwatched; [|by apply (Hcl k)].
    apply (map_Forall_lookup_1 _ _ k (conn cl) Hw). by rewrite lookup_fmap, Hk.
  - fold (drained t_ms (hub s)). destruct (delta_is_empty (drained t_ms (hub s))) eqn:Ee.
    + intros [= <- <- <-]. rewrite <- (map_fmap_id (conn <$> clients s)). apply Hgoal.
      intros k cl Hk. unfold id. rewrite <- (offer_empty (drained t_ms (hub s)) (conn cl)) by done.
      apply offer_ok; [done..|by apply (Hcl k)].
    + intros [= <- <- <-]. apply Hgoal. intros k cl Hk. case_match eqn:Ew.
      * apply offer_ok; [done..|by apply (Hcl k)].
      * rewrite Heta. apply offer_unwatched; [done|by apply (Hcl k)].
Qed.

(** *** The sender *)

Lemma pump_snapshot h rects now v :
  hub_wf cell_size_deg h → hub_text h → timestamp_ok now →
  ∃ h' ss, snapshot_chunks rects h = (h', Ok ss) ∧ hub_wf cell_size_deg h' ∧
    latest h' = latest h ∧ pending h' = pending h ∧
    replay (positions_frame true now ss []) v = visible (covers rects) h' ∧
    ∃ items, content (positions_frame true now ss []) = Some (mkFrame true items []) ∧
             ∀ i, i ∈ items → ∃ d e, latest h !! d = Some e ∧ i = item e.
Proof.
  intros Hwf [Hti _] Hts.
  destruct (snapshot_chunks_ok cell_size_deg rects h Hwf) as (h' & Hsn & Hwf' & Hl & Hc & Hp & _).
  set (groups := (λ p : Cell * gset string, items_in h p.2) <$> visible_cells rects h).
  assert (Hlatest : ∀ i, i ∈ concat groups → ∃ d e, latest h !! d = Some e ∧ i = item e).
  { intros i (g & Hi & ([c ds] & -> & _)%list_elem_of_fmap)%list_elem_of_concat.
    apply elem_items_in in Hi as (d & e & _ & He & ->). eauto. }
  assert (Hg : Forall (λ g, g ≠ []) groups).
  { apply Forall_forall. intros g ([c ds] & -> & [_ Hc']%list_elem_of_filter)%list_elem_of_fmap.
    apply elem_of_map_to_list in Hc'. apply items_in_nonempty.
    + by apply (wf_no_empty _ _ Hwf) in Hc'.
    + intros d. by eapply cell_devices_known. }
  assert (Hi : Forall item_encodable (concat groups)).
  { apply Forall_forall. intros i (d & e & He & ->)%Hlatest. eauto. }
  eexists h', (chunk_of <$> groups). split_and!; [done..| |].
  - rewrite replay_frame by done. subst groups. rewrite (show_snapshot cell_size_deg) by done.
    unfold visible. by rewrite Hl.
  - exists (concat groups). split; [by apply frame_content|exact Hlatest].
Qed.

Lemma text_same h h' :
  latest h' = latest h → pending h' = pending h → hub_text h → hub_text h'.
Proof. destruct h, h'; cbn. intros -> ->. done. Qed.

Lemma prepare_positions c frame :
  frame_type frame = Ok "positions" →
  prepare_write frame c = Ok (if writable c then AsBytes frame else NotWritable).
Proof. intros Hf. unfold prepare_write. rewrite Hf. by destruct (writable c). Qed.

Lemma prepare_control c frame f :
  frame_type frame ≠ Ok "positions" → prepare_write frame c ≠ Ok (AsBytes f).
Proof.
  intros Hf. unfold prepare_write. destruct (writable c); [|done].
  destruct (frame_type frame) as [kind|]; [|done]. cbn. case_decide; [congruence|]. by case_match.
Qed.

Lemma pump_ok now c v h c' h' snd :
  hub_wf cell_size_deg h → hub_text h → timestamp_ok now →
  client_ok h (mkClient c Pumping v) → pump now c h = (c', h', snd) →
  hub_wf cell_size_deg h' ∧ latest h' = latest h ∧ pending h' = pending h ∧
  client_ok h' (mkClient c' snd v).
Proof.
  intros Hwf Ht Hts [Hs Hsn Hd Hc _]; cbn in *. unfold pump.
  destruct (closing c) eqn:Ecl.
  { intros [= <- <- <-]. split_and!; [done..|]. split; cbn; auto; intros; congruence. }
  unfold next_frame. destruct (control c) as [|f rest] eqn:Ec.
  - destruct (needs_snapshot c) eqn:En.
    + destruct (Hsn eq_refl) as [Ep [rects Ev]]. rewrite Ev.
      destruct (pump_snapshot h rects now (replayed v)) as (g & ss & Hsnap & Hg & Hl & Hp & Hrec & _); [done..|].
      rewrite Hsnap. cbn. rewrite prepare_positions by apply positions_frame_type. cbn.
      intros [= <- <- <-]. split_and!; try done.
      split; cbn; rewrite ?Ep; auto; try (intros; by destruct (writable c)).
      intros rects' Hnd _ _ [= <-]. unfold eventual, in_flight. cbn. rewrite ?Ep.
      destruct (writable c); [|done]. rewrite Hrec. apply synced_visible.
    + destruct (pending_delta c) as [f|] eqn:Ep.
      * rewrite prepare_positions by auto. cbn.
        assert (Hgoal : client_ok h (mkClient (mkConn (close_code c) (close_reason c) [] (wake c)
          (viewport c) (viewport_cells c) None false (closing c) (writable c))
          (if writable c then Writing true f else Done) v)).
        { split; cbn; auto; try (intros; by destruct (writable c)).
          intros rects Hnd _ _ Ev. specialize (Hs rects ltac:(done) eq_refl eq_refl Ev).
          unfold eventual, in_flight in *. cbn in *. rewrite Ep in Hs.
          by destruct (writable c). }
        rewrite Ecl in Hgoal |- *. destruct (writable c); intros [= <- <- <-]; done.
      * assert (Hgoal : client_ok h (mkClient c Idle v)).
        { split; cbn; rewrite ?Ec, ?En, ?Ep, ?Ecl; auto. }
        intros [= <- <- <-]; done.
  - set (c1 := mkConn _ _ _ _ _ _ _ _ _ _). intros [= <- <- <-]. split_and!; try done.
    apply Forall_cons in Hc as [Hf Hrest].
    destruct (prepare_write f c1) as [[]|] eqn:Epw; try (by apply prepare_control in Epw).
    all: split; cbn; auto; intros; try done.
    all: by apply (Hs _ ltac:(done) eq_refl).
Qed.

Lemma system_insert s k cl h :
  hub_wf cell_size_deg h → latest h = latest (hub s) → pending h = pending (hub s) →
  system_ok s → client_ok h cl → system_ok (mkSystem h (<[k := cl]> (clients s))).
Proof.
  intros Hwf Hl Hp [_ Ht Hcl] Hok. split; cbn; [done|by eapply text_same|].
  intros k' cl'. destruct (decide (k' = k)) as [->|].
  - rewrite lookup_insert_eq. by intros [= <-].
  - rewrite lookup_insert_ne by done. intros Hk. eapply client_ok_hub; [|by eapply Hcl].
    intros V v. by apply synced_same.
Qed.

Lemma request_close_ok code reason h c sn v :
  client_ok h (mkClient c sn v) → client_ok h (mkClient (request_close code reason c) sn v).
Proof.
  intros [Hs Hsn Hd Hc Hi]; cbn in *. unfold request_close. destruct (closing c) eqn:E.
  - split; cbn; rewrite ?E; auto.
  - split; cbn; auto; intros; congruence.
Qed.

Lemma send_control_ok frame h c sn v :
  frame_type frame ≠ Ok "positions" →
  client_ok h (mkClient c sn v) → client_ok h (mkClient (send_control control_max frame c) sn v).
Proof.
  intros Hf Hok. unfold send_control. destruct (closing c) eqn:E; [done|].
  case_decide; [by apply request_close_ok|]. destruct Hok as [Hs Hsn Hd Hc Hi]; cbn in *.
  split; cbn; auto; [|intros; congruence]. apply Forall_app. split; [done|]. by apply Forall_singleton.
Qed.

Lemma set_viewport_ok bbox h c sn v c' :
  set_viewport cell_size_deg bbox c = Ok c' →
  client_ok h (mkClient c sn v) → client_ok h (mkClient c' sn v).
Proof.
  unfold set_viewport. destruct (rects_for bbox cell_size_deg); [|done]. intros [= <-].
  intros [Hs Hsn Hd Hc Hi]; cbn in *. split; cbn; auto; intros; try congruence.
Qed.

Lemma failed_write_ok o h c sn v :
  o ≠ Sent → client_ok h (mkClient c sn v) →
  client_ok h (mkClient (finish_write o c).1 Done v).
Proof.
  intros Ho [Hs Hsn Hd Hc Hi]; cbn in *.
  destruct o; [done|..]; cbn; unfold request_close; cbn; destruct (closing c) eqn:E;
    split; cbn; auto; intros; congruence.
Qed.

Lemma step_ok s s' : system_ok s → step s s' → system_ok s'.
Proof.
  intros Hok Hstep. pose proof Hok as [Hwf Ht Hcl].
  destruct Hstep as [items s Hi|now s|t s h' cs e Hts Hf|k es s Hk|k cl bbox c' s Hk Hv
    |k cl f s Hk Hf|k cl code reason s Hk|k cl s Hk Hsn Hw|k cl now c' h' sn s Hk Hsn Hts Hp
    |k cl bin f s Hk Hsn|k cl bin f o s Hk Hsn Ho|k cl now s Hk|k cl s Hk Hc].
  - split; cbn; [by apply apply_wf|by apply text_apply|]. intros k cl Hk.
    eapply client_ok_hub; [|by eapply Hcl]. intros V v. by apply synced_apply.
  - split; cbn; [by apply (sweep_ind cell_size_deg (λ _, True))|by apply text_sweep|].
    intros k cl Hk. eapply client_ok_hub; [|by eapply Hcl].
    intros V v. by apply (synced_sweep cell_size_deg).
  - by eapply tick_ok.
  - apply system_insert; [done..|]. split; cbn; try done; intros; congruence.
  - apply system_insert; [done..|]. eapply set_viewport_ok; [done|].
    destruct cl. by eapply Hcl.
  - apply system_insert; [done..|]. apply send_control_ok; [done|]. destruct cl. by eapply Hcl.
  - apply system_insert; [done..|]. apply request_close_ok. destruct cl. by eapply Hcl.
  - apply system_insert; [done..|]. apply Hcl in Hk. destruct cl as [c sn v]. cbn in *. subst sn.
    destruct Hk as [Hs Hn Hd Hc Hi]; cbn in *. split; cbn; auto; done.
  - apply Hcl in Hk. destruct cl as [c sn0 v]. cbn in *. subst sn0.
    destruct (pump_ok now c v (hub s) c' h' sn) as (Hwf' & Hl & Hpe & Hcok); [done..|].
    by apply system_insert.
  - apply system_insert; [done..|]. apply Hcl in Hk. destruct cl as [c sn v]. cbn in *. subst sn.
    destruct Hk as [Hs Hn Hd Hc Hi]; cbn in *. destruct bin; split; cbn; auto; try done.
  - apply system_insert; [done..|]. apply Hcl in Hk. destruct cl as [c sn v]. by apply (failed_write_ok o _ c sn).
  - apply system_insert; [done..|]. apply Hcl in Hk. destruct cl as [c sn v].
    destruct Hk as [Hs Hn Hd Hc Hi]. by split.
  - split; cbn; [done..|]. intros k' cl'. rewrite lookup_delete_Some. intros [_ Hk']. eauto.
Qed.

(** *** Where the items of the frames come from *)

Record client_told (P : PositionItem → Prop) (cl : Client) : Prop := {
  told_screen : screen_holds P (screen cl);
  told_pending frame : pending_delta (conn cl) = Some frame → frame_holds P frame;
  told_writing frame : sender cl = Writing true frame → frame_holds P frame }.

Lemma client_told_mono (P Q : PositionItem → Prop) cl :
  (∀ i, P i → Q i) → client_told P cl → client_told Q cl.
Proof.
  intros Hpq [Hs Hd Hw]. split; [by eapply screen_holds_mono|..]; intros f Hf fr Hc i Hi.
  - by eapply Hpq, (Hd f).
  - by eapply Hpq, (Hw f).
Qed.

Lemma told_insert P (m : gmap Z Client) k cl :
  (∀ k cl, m !! k = Some cl → client_told P cl) → client_told P cl →
  ∀ k' cl', <[k := cl]> m !! k' = Some cl' → client_told P cl'.
Proof. intros Hm Hcl k' cl'. rewrite lookup_insert_Some. intros [[_ <-]|[_ ?]]; eauto. Qed.

Lemma told_conn P c c' snd v :
  (pending_delta c' = pending_delta c ∨ pending_delta c' = None) →
  client_told P (mkClient c snd v) → client_told P (mkClient c' snd v).
Proof. intros Hp [Hs Hd Hw]. split; [done| |done]. cbn in *. intros f Hf. apply Hd. destruct Hp; congruence. Qed.

Lemma drained_told (P : PositionItem → Prop) n rects h t_ms :
  hub_wf cell_size_deg h → hub_text h → timestamp_ok t_ms →
  (∀ d e, latest h !! d = Some e → P (item e)) →
  frame_holds P (positions_frame false t_ms (join_window n (chunks (drained t_ms h)) rects)
    (removed_for rects (drained t_ms h))).
Proof.
  intros Hwf Ht Hts HP f. unfold drained; cbn [chunks]. rewrite join_window_fmap.
  destruct (delta_view n rects (visible (covers rects) h) h t_ms Hwf Ht (synced_visible _ _)) as (Hg & Hi & Hr & _).
  rewrite frame_content by done. intros [= <-] i (c & d & e & _ & _ & He & ->)%delta_items; [by eapply HP|done].
Qed.

Lemma offer_told (P : PositionItem → Prop) t_ms h c snd v :
  hub_wf cell_size_deg h → hub_text h → timestamp_ok t_ms →
  (∀ d e, latest h !! d = Some e → P (item e)) →
  client_told P (mkClient c snd v) → client_told P (mkClient (offer_positions (drained t_ms h) c) snd v).
Proof.
  intros Hwf Ht Hts HP Hcl. unfold offer_positions. destruct (viewport c) as [rects|]; [|done].
  destruct (closing c || needs_snapshot c); [done|].
  pose proof (drained_told P (viewport_cells c) rects h t_ms Hwf Ht Hts HP) as Hf.
  unfold visible_chunks. destruct (join_window _ _ _) as [|x xs], (removed_for _ _) as [|y ys]; [done|..];
    (destruct (pending_delta c) as [g|] eqn:Ep; [apply told_conn with c; [by right|done]|]);
    destruct Hcl as [Hs Hd Hw]; (split; [done| |done]); by intros g [= <-].
Qed.

Lemma pump_told (P : PositionItem → Prop) now c h v c' h' snd :
  hub_wf cell_size_deg h → hub_text h → timestamp_ok now →
  (∀ d e, latest h !! d = Some e → P (item e)) → client_ok h (mkClient c Pumping v) →
  client_told P (mkClient c Pumping v) → pump now c h = (c', h', snd) → client_told P (mkClient c' snd v).
Proof.
  intros Hwf Ht Hts HP [_ Hsn _ Hctl _] [Hs Hd _]; cbn in *.
  assert (Hplain : ∀ c1 snd1, (pending_delta c1 = pending_delta c ∨ pending_delta c1 = None) →
    (∀ f, snd1 = Writing true f → frame_holds P f) → client_told P (mkClient c1 snd1 v)).
  { intros c1 snd1 Hp Hw. split; [done| |done]. cbn. intros f Hf. apply Hd. destruct Hp; congruence. }
  assert (Hwrite : ∀ f c1 f', match prepare_write f c1 with
      | Raise _ | Ok NotWritable => Done | Ok Undecodable => Pumping
      | Ok (AsBytes f) => Writing true f | Ok (AsText f) => Writing false f end = Writing true f' →
      prepare_write f c1 = Ok (AsBytes f')).
  { intros f c1 f'. destruct (prepare_write f c1) as [[]|]; congruence. }
  unfold pump. destruct (closing c); [intros [= <- <- <-]; apply Hplain; [by left|done]|].
  unfold next_frame. destruct (control c) as [|f rest].
  - destruct (needs_snapshot c) eqn:En.
    + destruct (Hsn eq_refl) as [Ep [rects Ev]]. rewrite Ev.
      destruct (pump_snapshot h rects now ∅) as (g & ss & -> & _ & _ & _ & _ & items & Hc & Hi); [done..|]. cbn.
      intros [= <- <- <-]. apply Hplain; [by left|]. intros f' Hf%Hwrite.
      unfold prepare_write in Hf. rewrite positions_frame_type in Hf. cbn in Hf.
      destruct (writable c); [|done]. injection Hf as <-. intros fr. rewrite Hc. intros [= <-] i Hin.
      destruct (Hi i Hin) as (d & e & He & ->). by eapply HP.
    + destruct (pending_delta c) as [f|] eqn:Ep; intros [= <- <- <-].
      2:{ apply Hplain; [by left|done]. }
      apply Hplain; [by right|]. intros f' Hf%Hwrite. unfold prepare_write in Hf.
      destruct (negb _); [done|]. destruct (frame_type f); [|done]. cbn in Hf. case_decide; [|by repeat case_match].
      injection Hf as <-. by apply Hd.
  - intros [= <- <- <-]. apply Hplain; [by left|]. intros f' Hf%Hwrite.
    apply Forall_cons in Hctl as [Hf0 _]. by apply prepare_control in Hf.
Qed.

(** A step shows its clients nothing but what the hub holds and what they were told. *)
Lemma step_told (P : PositionItem → Prop) s s' :
  system_ok s → step s s' →
  (∀ d e, latest (hub s) !! d = Some e → P (item e)) →
  (∀ k cl, clients s !! k = None → clients s' !! k = Some cl → screen_holds P (screen cl)) →
  (∀ k cl, clients s !! k = Some cl → client_told P cl) →
  ∀ k cl, clients s' !! k = Some cl → client_told P cl.
Proof.
  intros [Hwf Ht Hok] Hstep HP Hnew Hcl.
  destruct Hstep as [items s Hi|now s|t s h' cs e Hts Hf|k es s Hk|k cl bbox c' s Hk Hv
    |k cl f s Hk Hf|k cl code reason s Hk|k cl s Hk Hsn Hw|k cl now c' h' sn s Hk Hsn Hts Hp
    |k cl bin f s Hk Hsn|k cl bin f o s Hk Hsn Ho|k cl now s Hk|k cl s Hk Hc]; cbn [clients] in *.
  1, 2: exact Hcl.
  - intros k cl Hk. unfold fan_out in Hf. rewrite (drain_ok cell_size_deg) in Hf by done.
    fold (drained t (hub s)) in Hf. rewrite map_lookup_zip_with in Hk.
    destruct (clients s !! k) as [cl0|] eqn:E; [|by destruct (cs !! k)]. specialize (Hcl k cl0 E).
    assert (Hcs : cs !! k = Some (conn cl0) ∨ cs !! k = Some (offer_positions (drained t (hub s)) (conn cl0))).
    { repeat case_match; simplify_eq; rewrite ?lookup_fmap, ?E; cbn; [by left..|]. case_match; auto. }
    destruct cl0 as [c sn v]. destruct Hcs as [Hcs|Hcs]; rewrite Hcs in Hk; injection Hk as <-; [done|].
    by apply offer_told.
  - apply told_insert; [done|]. split; cbn; [|done..]. apply (Hnew k (mkClient new_connection Idle (Kept es))); [done|].
    apply lookup_insert_eq.
  - apply told_insert; [done|]. apply (told_conn _ (conn cl)); [|destruct cl; by eapply Hcl].
    unfold set_viewport in Hv. destruct (rects_for _ _); [|done]. injection Hv as <-. by right.
  - apply told_insert; [done|]. apply (told_conn _ (conn cl)); [|destruct cl; by eapply Hcl].
    unfold send_control, request_close. repeat case_match; cbn; auto.
  - apply told_insert; [done|]. apply (told_conn _ (conn cl)); [|destruct cl; by eapply Hcl].
    unfold request_close. case_match; cbn; auto.
  - apply told_insert; [done|]. destruct (Hcl k cl Hk) as [? ? _]. by split.
  - apply told_insert; [done|]. destruct cl as [c sn0 v]. cbn in *. subst sn0. eapply pump_told; eauto.
  - apply told_insert; [done|]. destruct (Hcl k cl Hk) as [Hs Hd Hw]. split; [|done..]. cbn.
    destruct bin; [split; auto|done].
  - apply told_insert; [done|]. destruct (Hcl k cl Hk) as [Hs Hd Hw]. split; [done| |done]. cbn. intros f'.
    destruct o; cbn; unfold request_close; try case_match; cbn; auto; done.
  - apply told_insert; [done|]. destruct (Hcl k cl Hk) as [Hs Hd Hw]. by split.
  - intros k' cl' [_ Hk']%lookup_delete_Some. eauto.
Qed.

Lemma start_ok : system_ok start.
Proof.
  split; cbn; [apply new_hub_wf|split; cbn; [done|]|done].
  intros c d m. unfold moves_at. cbn. by rewrite lookup_empty.
Qed.

Lemma reachable_ok s : rtc step start s → system_ok s.
Proof.
  apply (rtc_ind_r (λ s, system_ok s)); [apply start_ok|]. intros s1 s2 _ Hstep Hok. by eapply step_ok.
Qed.

Lemma synced_settled V v h :
  hub_wf cell_size_deg h → pending h = pending_clear → synced V v h → v = visible V h.
Proof.
  intros Hwf Hp Hs. symmetry. rewrite <- (show_delta cell_size_deg V v h [] []); try done.
  - intros i. rewrite Hp. cbn. split; [by intros ?%elem_of_nil|].
    intros (c & d & e & _ & Hd & _). set_solver.
  - intros d. unfold moves_at. rewrite Hp. cbn. split; [by intros ?%elem_of_nil|].
    intros (c & m & _ & Hm & _). by rewrite lookup_empty in Hm.
Qed.

Lemma quiescent_view s k cl rects :
  rtc step start s → clients s !! k = Some cl → sender cl = Idle → wake (conn cl) = false →
  viewport (conn cl) = Some rects → pending (hub s) = pending_clear →
  replayed (screen cl) = visible (covers rects) (hub s).
Proof.
  intros Hr Hk Hsn Hw Hv Hp. apply reachable_ok in Hr as [Hwf Ht Hcl].
  destruct (Hcl k cl Hk) as [Hs _ _ _ Hi]. destruct (Hi Hsn Hw) as (Hc & _ & Hn & Hd).
  eapply synced_settled; [done..|]. specialize (Hs rects ltac:(congruence) Hc Hn Hv).
  unfold eventual, in_flight in Hs. by rewrite Hd, Hsn in Hs.
Qed.
End invariant.

(** ** Properties *)

(** C2: no client is left with a stale map. In every state the gateway can reach by any
    interleaving of deliveries, sweeps, ticks, window changes and writes, a client whose
    sender sleeps with nothing signalled, and whose hub has no pending delta, has been
    sent frames that add up to exactly the devices of its window at their newest position,
    whatever was coalesced or dropped on the way. What the page draws of them is: every
    device of the window but those its last frame both brought and removed and those its
    own timer has forgotten since, no other device, and each at a report no older than the
    hub's; whatever the page kept from earlier sockets. *)
Theorem quiescent_map `{Orjson} `{!OrjsonRoundtrip} `{!OrjsonCompact}
    cell_size_deg stale_after_ms control_max s k cl rects :
  rtc (step cell_size_deg stale_after_ms control_max) start s →
  clients s !! k = Some cl → sender cl = Idle → wake (conn cl) = false →
  viewport (conn cl) = Some rects → pending (hub s) = pending_clear →
  let window := visible (covers rects) (hub s) in
  replayed (screen cl) = window ∧
  dom (drawn (screen cl)) = dom window ∖ (blinked (screen cl) ∪ forgotten (screen cl)) ∧
  ∀ d i, drawn (screen cl) !! d = Some i → ∃ j, window !! d = Some j ∧ item_ms j ≤ item_ms i.
Proof.
  intros Hr Hk Hsn Hw Hv Hp window. subst window.
  pose proof (quiescent_view _ _ _ _ _ _ _ Hr Hk Hsn Hw Hv Hp) as E.
  split; [exact E|exact (drawn_exactly _ _ E)].
Qed.

(** C16: no wake-up is lost: a connection whose sender sleeps with nothing signalled
    has nothing queued for its client. *)
Theorem no_lost_wakeup `{Orjson} `{!OrjsonRoundtrip} `{!OrjsonCompact}
    cell_size_deg stale_after_ms control_max s k cl :
  rtc (step cell_size_deg stale_after_ms control_max) start s →
  clients s !! k = Some cl → sender cl = Idle → wake (conn cl) = false →
  ∀ now h, next_frame now (conn cl) h = (conn cl, h, Ok None) ∧ closing (conn cl) = false.
Proof.
  intros Hr Hk Hsn Hw now h. apply reachable_ok in Hr as [_ _ Hcl].
  destruct (ok_idle _ _ (Hcl k cl Hk) Hsn Hw) as (Hc & Hctl & Hn & Hd).
  unfold next_frame. by rewrite Hctl, Hn, Hd.
Qed.

(** ** One client, one device, from the connection to the drawn map *)
Module Demo.
#[local] Existing Instance Ref.orjson.
Definition size_deg : float64 := Eval vm_compute in HubSamples.cell_size.
Definition van (ms : Z) : PositionItem := mkItem "van-7" (flit 0) (flit 0) ms.
Definition items : list PositionItem := Eval vm_compute in [van 1000; van 3000; van 2000].
Definition newest : PositionItem := Eval vm_compute in van 3000.
Definition box : BBox := Eval vm_compute in mkBBox (flit (-1)) (flit (-1)) (flit 1) (flit 1).
Definition ok_or {A} (d : A) (m : res A) : A := match m with Ok a => a | Raise _ => d end.
Definition frame_of (s : Sender) : string := match s with Writing _ f => f | _ => "" end.
Definition rects : list CellRect := Eval vm_compute in ok_or [] (rects_for box size_deg).
Definition client (s : System) : Client := default (mkClient new_connection Done (Kept ∅)) (clients s !! 1).
Definition set (c : ClientConnection) (snd : Sender) (v : Screen) (s : System) : System :=
  mkSystem (hub s) (<[1 := mkClient c snd v]> (clients s)).
Definition ticking (s : System) : System :=
  let '(h', conns', _) := fan_out 5000 (hub s) (conn <$> clients s) in
  mkSystem h' (map_zip_with (λ c cl, mkClient c (sender cl) (screen cl)) conns' (clients s)).
Definition pumped (s : System) : System :=
  let '(c', h', snd) := pump 6000 (conn (client s)) (hub s) in
  mkSystem h' (<[1 := mkClient c' snd (screen (client s))]> (clients s)).
Definition delivered (s : System) (f : string) : System :=
  set (finish_write Sent (conn (client s))).1 Pumping (Heard f (screen (client s))) s.

(** The states of the run, each evaluated once. *)
Definition connected : System :=
  Eval vm_compute in mkSystem (hub start) (<[1 := mkClient new_connection Idle (Kept ∅)]> (clients start)).
Definition windowed : System :=
  Eval vm_compute in with_conn 1 (client connected)
    (ok_or new_connection (set_viewport size_deg box (conn (client connected))))
    connected.
Definition reported : System :=
  Eval vm_compute in mkSystem (Hub.apply size_deg items (hub windowed)).1 (clients windowed).
Definition ticked : System := Eval vm_compute in ticking reported.
Definition woken : System :=
  Eval vm_compute in set (cleared (conn (client ticked))) Pumping (screen (client ticked)) ticked.
Definition writing : System := Eval vm_compute in pumped woken.
Definition frame : string := Eval vm_compute in frame_of (sender (client writing)).
Definition sent : System := Eval vm_compute in delivered writing frame.
Definition settled : System := Eval vm_compute in pumped sent.

Lemma step_to s s' s'' : step size_deg 60000 10 s s'' → s'' = s' → step size_deg 60000 10 s s'.
Proof. by intros ? <-. Qed.

Lemma ticking_step s : step size_deg 60000 10 s (ticking s).
Proof.
  unfold ticking. destruct (fan_out _ _ _) as [[h' conns'] e] eqn:E.
  apply step_tick with 5000 e; [split; vm_compute; congruence|exact E].
Qed.

Lemma pumped_step s : clients s !! 1 = Some (client s) → sender (client s) = Pumping →
  step size_deg 60000 10 s (pumped s).
Proof.
  intros Hs Hp. unfold pumped. destruct (pump _ _ _) as [[c' h'] snd] eqn:E.
  apply step_pump with 6000; [done|done|split; vm_compute; congruence|done].
Qed.

Lemma delivered_step s f : clients s !! 1 = Some (client s) → sender (client s) = Writing true f →
  step size_deg 60000 10 s (delivered s f).
Proof. intros Hs Hp. exact (step_sent size_deg 60000 10 1 (client s) true f s Hs Hp). Qed.

Ltac computed := vm_compute; reflexivity.

Lemma settled_reachable : rtc (step size_deg 60000 10) start settled.
Proof.
  apply (rtc_l _ _ connected).
  { eapply step_to; [apply step_connect with (k := 1) (entries := ∅); reflexivity|computed]. }
  apply (rtc_l _ _ windowed).
  { eapply step_to; [apply (step_viewport _ _ _ 1 (client connected) box (conn (client windowed))); computed|computed]. }
  apply (rtc_l _ _ reported).
  { apply (step_to _ _ (mkSystem (Hub.apply size_deg items (hub windowed)).1 (clients windowed)));
      [apply step_apply|computed].
    repeat constructor; try (vm_compute; reflexivity); vm_compute; discriminate. }
  apply (rtc_l _ _ ticked); [apply (step_to _ _ (ticking reported)); [apply ticking_step|computed]|].
  apply (rtc_l _ _ woken).
  { eapply step_to; [apply (step_wake _ _ _ 1 (client ticked)); computed|computed]. }
  apply (rtc_l _ _ writing).
  { apply (step_to _ _ (pumped woken)); [apply pumped_step; computed|computed]. }
  apply (rtc_l _ _ sent).
  { apply (step_to _ _ (delivered writing frame)); [apply delivered_step; computed|computed]. }
  apply rtc_once, (step_to _ _ (pumped sent)); [apply pumped_step; computed|computed].
Qed.
End Demo.

Lemma quiescent_map_witness :
  rtc (step (H := Ref.orjson) Demo.size_deg 60000 10) start Demo.settled ∧
  replayed (H := Ref.orjson) (screen (Demo.client Demo.settled)) = visible (covers Demo.rects) (hub Demo.settled) ∧
  drawn (H := Ref.orjson) (screen (Demo.client Demo.settled)) = {["van-7" := Demo.newest]}.
Proof.
  split; [exact Demo.settled_reachable|split; [|vm_compute; reflexivity]].
  apply (@quiescent_map Ref.orjson Ref.orjson_roundtrip Ref.orjson_compact Demo.size_deg 60000 10
           Demo.settled 1 (Demo.client Demo.settled) Demo.rects Demo.settled_reachable);
    vm_compute; reflexivity.
Defined.

Lemma no_lost_wakeup_witness :
  next_frame (H := Ref.orjson) 7000 (conn (Demo.client Demo.settled)) (hub Demo.settled)
    = (conn (Demo.client Demo.settled), hub Demo.settled, Ok None) ∧
  closing (conn (Demo.client Demo.settled)) = false.
Proof.
  apply (@no_lost_wakeup Ref.orjson Ref.orjson_roundtrip Ref.orjson_compact Demo.size_deg 60000 10
           Demo.settled 1 (Demo.client Demo.settled) Demo.settled_reachable);
    vm_compute; reflexivity.
Defined.
