(* ===== verification/Loops.v ===== *)
(** * The loops of a gateway replica
    (start, stop, [_position_loop] and [_stats_loop] of src/geotrack/realtime/gateway.py)

    When the position loop wakes up, which of its ticks sweep, what a tick and a
    statistics round do to the hub and the connections. Both refine the steps of
    [Fanout], where ticks, sweeps and control frames come at any moment. *)
From stdpp Require Import relations.
From S2P Require Import Prelude Floats Clock Geo Grid Text Json JsonRef Keys Codec Protocol Hub Connection Motion Fanout.

(** ** The schedule of the position loop *)

(** [round(x)] of a float without digits. *)
Definition py_round (x : float64) : res Z :=
  match x with
  | Fin a => Ok (if a <? 0 then - round_half_even (- a) u else round_half_even a u)
  | Inf _ => Raise OverflowError
  | NaN => Raise (ValueError "cannot convert float NaN to integer")
  end.

Definition SWEEP_INTERVAL_S : float64 := flit 5.

(** The local variables of the loop; moments are those of [loop.time()]. *)
Record PositionLoop := mkLoop { interval_s : float64; sweep_every : Z; next_tick : float64; ticks : Z }.

Definition position_loop (ws_tick_ms : Z) (now : float64) : res PositionLoop :=
  let! interval := int_truediv ws_tick_ms 1000 in
  let! ratio := fdiv SWEEP_INTERVAL_S interval in
  let! n := py_round ratio in
  Ok (mkLoop interval (Z.max 1 n) now 0).

(** Up to the sleep: [now] and [again] are the two readings of the clock. *)
Definition schedule_tick (now : float64) (l : PositionLoop) : PositionLoop :=
  mkLoop (interval_s l) (sweep_every l) (fmax (fadd (next_tick l) (interval_s l)) now) (ticks l).
Definition sleep_s (again : float64) (l : PositionLoop) : float64 := fsub (next_tick l) again.
Definition counted (l : PositionLoop) : PositionLoop :=
  mkLoop (interval_s l) (sweep_every l) (next_tick l) (ticks l + 1).
Definition sweeps (l : PositionLoop) : bool := ticks l mod sweep_every l =? 0.

(** ** A tick, a statistics round, and the end *)

Section loops.
Context `{Orjson}.
Variable cell_size_deg : float64.
Variable stale_after_ms : Z.
Variable control_max : nat.

(** What [_position_loop] does when it wakes up at [moment] of [now_ms()]. An exception
    of the body is logged and swallowed by [_keep_running]. *)
Definition position_tick (moment : Z) (l : PositionLoop) (s : System) : PositionLoop * System :=
  let l' := counted l in
  let h := if sweeps l' then sweep stale_after_ms moment (hub s) else hub s in
  let '(h', conns', _) := fan_out moment h (conn <$> clients s) in
  (l', mkSystem h' (map_zip_with (λ c cl, mkClient c (sender cl) (screen cl)) conns' (clients s))).

(** [_backlog]: the samples of the gauge; [int] of the first. *)
Definition backlog (samples : list float64) : res Z :=
  match samples with [] => Ok 0 | x :: _ => trunc x end.

Definition EPSILON : float64 := fdec 1 (10 ^ 6).
(** [updates_per_s]: the difference of two counts over the time between them. *)
Definition rate (mark : Z * float64) (count : Z) (now : float64) : res float64 :=
  let! n := float_of_int (count - mark.1) in
  fdiv n (fmax (fsub now mark.2) EPSILON).

Definition to_all (frame : string) (s : System) : System :=
  mkSystem (hub s) ((λ cl, mkClient (send_control control_max frame (conn cl)) (sender cl) (screen cl)) <$> clients s).

(** What [_stats_loop] does when it wakes up: the new mark, the system, and the
    exception [_keep_running] swallowed. *)
Definition stats_tick (now : float64) (t_ms : Z) (samples : list float64) (mark : Z * float64) (s : System)
  : (Z * float64) * System * option exn :=
  let mark' := (updates (hub s), now) in
  if decide (clients s = ∅) then (mark', s, None)
  else
    match
      let! per_s := rate mark (updates (hub s)) now in
      let! queued := backlog samples in
      Ok (stats_frame t_ms (Z.of_nat (device_count (hub s))) per_s (Z.of_nat (size (clients s))) queued)
    with
    | Ok frame => (mark', to_all frame s, None)
    | Raise e => (mark', s, Some e)
    end.

(** The partitions of the warm start's query that arrived before it broke off. *)
Fixpoint partial_loop (partitions : list (list Row)) (h : PositionHub) : PositionHub :=
  match partitions with
  | [] => h
  | rows :: rest =>
      match traverse row_item rows with
      | Raise _ => h
      | Ok items => match apply cell_size_deg items h with
                    | (h', Some _) => h'
                    | (h', None) => partial_loop rest h'
                    end
      end
  end.

(** [start]: [_warm_start], in full or, when the database fails or the fifteen seconds are
    over, with the first partitions only; then the mark of the statistics. *)
Definition gateway_start (query : Z → list (list Row)) (broken_after : option nat) (time_ns : Z) (now : float64)
  : (Z * float64) * PositionHub :=
  let h := match broken_after with
           | None => (warm_start cell_size_deg stale_after_ms query time_ns new_hub).1
           | Some n => match from_epoch_ms (now_ms time_ns - stale_after_ms) with
                       | Ok cutoff => partial_loop (take n (query cutoff)) new_hub
                       | Raise _ => new_hub
                       end
           end in
  ((updates h, now), h).

(** [stop]: every connection is told; the loops are cancelled before. *)
Definition stop_clients (s : System) : System :=
  mkSystem (hub s) ((λ cl, mkClient (request_close 1001 "server shutting down" (conn cl)) (sender cl) (screen cl))
                    <$> clients s).
End loops.

(** ** The loops take the steps of [Fanout] *)

Section refinement.
Context `{Orjson} `{!OrjsonCompact}.
Variable cell_size_deg : float64.
Variable stale_after_ms : Z.
Variable control_max : nat.
Local Notation step := (Fanout.step cell_size_deg stale_after_ms control_max).

Lemma stats_frame_type t_ms devices per_s connections queued :
  frame_type (stats_frame t_ms devices per_s connections queued) = Ok "stats".
Proof.
  unfold frame_type, stats_frame, quoted. rewrite dumps_obj. cbn [fmap list_fmap].
  rewrite join_cons by done. cbn [fst snd]. rewrite (dumps_word "type"), (dumps_word "stats") by done.
  rewrite <- !string_app_assoc. reflexivity.
Qed.

Lemma position_tick_steps moment l s :
  timestamp_ok moment → rtc step s (position_tick stale_after_ms moment l s).2.
Proof.
  intros Hm. unfold position_tick.
  assert (Htick : ∀ v, rtc step v (let '(h', conns', _) := fan_out moment (hub v) (conn <$> clients v) in
     mkSystem h' (map_zip_with (λ c cl, mkClient c (sender cl) (screen cl)) conns' (clients v)))).
  { intros v. destruct (fan_out moment (hub v) (conn <$> clients v)) as [[h' conns'] e] eqn:E.
    by eapply rtc_once, step_tick. }
  destruct (sweeps (counted l)).
  - eapply rtc_l; [by apply (step_sweep _ _ _ moment)|].
    specialize (Htick (mkSystem (sweep stale_after_ms moment (hub s)) (clients s))). cbn in Htick.
    by destruct (fan_out moment _ _) as [[h' conns'] e].
  - specialize (Htick s). by destruct (fan_out moment _ _) as [[h' conns'] e].
Qed.

(** The same control step for every client, one after the other. *)
Lemma each_client (f : Client → Client) h (m : gmap Z Client) :
  (∀ k cl cs, cs !! k = Some cl → step (mkSystem h cs) (mkSystem h (<[k := f cl]> cs))) →
  rtc step (mkSystem h m) (mkSystem h (f <$> m)).
Proof.
  intros Hf. assert (Hg : ∀ todo done : gmap Z Client, done ##ₘ todo →
    rtc step (mkSystem h (done ∪ todo)) (mkSystem h (done ∪ (f <$> todo)))).
  { induction todo as [|k cl todo Hk IH] using map_ind; intros done Hd; [by rewrite fmap_empty|].
    apply map_disjoint_insert_r in Hd as [Hdk Hd].
    rewrite fmap_insert, <- !insert_union_r by done. rewrite insert_union_l. etransitivity.
    - apply rtc_once, (Hf k cl). by rewrite <- insert_union_l, lookup_insert_eq.
    - rewrite insert_union_l, insert_insert_eq, <- insert_union_l, insert_union_r by done.
      rewrite <- insert_union_r by done. rewrite insert_union_l.
      rewrite (insert_union_l done). apply IH. by apply map_disjoint_insert_l_2. }
  specialize (Hg m ∅). rewrite !(left_id_L ∅ (∪)) in Hg. apply Hg, map_disjoint_empty_l.
Qed.

Lemma stats_tick_steps now t_ms samples mark s :
  rtc step s (stats_tick control_max now t_ms samples mark s).1.2.
Proof.
  unfold stats_tick. case_decide; [done|]. destruct (bind _ _) as [frame|e] eqn:E; [|done].
  assert (Hf : frame_type frame ≠ Ok "positions").
  { destruct (rate mark (updates (hub s)) now); [|done]. cbn in E.
    destruct (backlog samples); [|done]. injection E as <-. by rewrite stats_frame_type. }
  destruct s as [h cs]. apply each_client. intros k cl cs' Hk.
  by apply (step_control _ _ _ k cl frame (mkSystem h cs')).
Qed.

(** However far the warm start got, the replica starts in a state its loops can reach. *)
Lemma partitions_steps partitions h :
  (∀ rows items, rows ∈ partitions → traverse row_item rows = Ok items → Forall item_encodable items) →
  rtc step (mkSystem h ∅) (mkSystem (partial_loop cell_size_deg partitions h) ∅).
Proof.
  revert h. induction partitions as [|rows rest IH]; intros h Hr; [done|]. cbn [partial_loop].
  destruct (traverse row_item rows) as [items|e] eqn:Ei; [|done].
  assert (Hs : step (mkSystem h ∅) (mkSystem (apply cell_size_deg items h).1 ∅)).
  { apply (step_apply _ _ _ items (mkSystem h ∅)). apply (Hr rows); [by left|done]. }
  destruct (apply cell_size_deg items h) as [h' [e|]]; [by apply rtc_once|].
  eapply rtc_l; [exact Hs|]. apply IH. intros rows' items' Hin. apply Hr. by right.
Qed.

Lemma warm_start_loop_partial partitions n h :
  (warm_start_loop cell_size_deg partitions n h).1 = partial_loop cell_size_deg partitions h ∨
  (warm_start_loop cell_size_deg partitions n h).1 = clear_pending (partial_loop cell_size_deg partitions h).
Proof.
  revert n h. induction partitions as [|rows rest IH]; intros n h; [by right|]. cbn.
  destruct (traverse row_item rows) as [items|e]; [|by left].
  destruct (apply cell_size_deg items h) as [h' [e|]]; [by left|apply IH].
Qed.

Lemma start_steps query broken_after time_ns now :
  (∀ cutoff rows items, rows ∈ query cutoff → traverse row_item rows = Ok items → Forall item_encodable items) →
  rtc step Fanout.start (mkSystem (gateway_start cell_size_deg stale_after_ms query broken_after time_ns now).2 ∅).
Proof.
  intros Hq. unfold gateway_start, warm_start. cbn [snd].
  destruct (from_epoch_ms (now_ms time_ns - stale_after_ms)) as [cutoff|e]; [|by destruct broken_after].
  destruct broken_after as [n|].
  - apply partitions_steps. intros rows items Hin. apply (Hq cutoff).
    rewrite <- (take_drop n (query cutoff)). apply elem_of_app. by left.
  - pose proof (partitions_steps (query cutoff) new_hub (Hq cutoff)) as Hp.
    destruct (warm_start_loop_partial (query cutoff) 0 new_hub) as [->| ->]; [exact Hp|].
    eapply rtc_r; [exact Hp|].
    set (h := partial_loop cell_size_deg (query cutoff) new_hub).
    pose proof (step_tick cell_size_deg stale_after_ms control_max 0 (mkSystem h ∅) (clear_pending h) ∅ None) as Ht.
    cbn [clients hub] in Ht. rewrite map_zip_with_empty_l in Ht. apply Ht; [by unfold timestamp_ok|].
    rewrite fmap_empty. unfold fan_out. by rewrite decide_True by apply map_Forall_empty.
Qed.

Lemma stop_steps s : rtc step s (stop_clients s).
Proof.
  destruct s as [h cs]. apply each_client. intros k cl cs' Hk.
  by apply (step_close _ _ _ k cl _ _ (mkSystem h cs')).
Qed.
End refinement.

(** ** A replica's loops and everything else it does *)

Record Replica := mkReplica { loop : PositionLoop; mark : Z * float64; system : System }.

Section replica.
Context `{Orjson}.
Variable cell_size_deg : float64.
Variable stale_after_ms : Z.
Variable control_max : nat.

Definition ticked (moment : Z) (r : Replica) : Replica :=
  let '(l, s) := position_tick stale_after_ms moment (loop r) (system r) in mkReplica l (mark r) s.
Definition reported (now : float64) (t_ms : Z) (samples : list float64) (r : Replica) : Replica :=
  let '(m, s, _) := stats_tick control_max now t_ms samples (mark r) (system r) in mkReplica (loop r) m s.

(** Between two iterations of its loops a replica applies batches, serves its clients
    and runs their senders. *)
Inductive replica_step : Replica → Replica → Prop :=
  | rp_plan now r : replica_step r (mkReplica (schedule_tick now (loop r)) (mark r) (system r))
  | rp_tick moment r : timestamp_ok moment → replica_step r (ticked moment r)
  | rp_stats now t_ms samples r : replica_step r (reported now t_ms samples r)
  | rp_other r s' : Fanout.step cell_size_deg stale_after_ms control_max (system r) s' →
      replica_step r (mkReplica (loop r) (mark r) s').

Lemma ticked_loop moment r : loop (ticked moment r) = counted (loop r).
Proof. unfold ticked, position_tick. by destruct (fan_out _ _ _) as [[h' conns'] e]. Qed.
Lemma reported_loop now t_ms samples r : loop (reported now t_ms samples r) = loop r.
Proof. unfold reported. by destruct (stats_tick _ _ _ _ _ _) as [[m s] e]. Qed.

Lemma replica_step_loop r r' :
  replica_step r r' →
  sweep_every (loop r') = sweep_every (loop r) ∧
  (ticks (loop r') = ticks (loop r) ∨
   ∃ moment, r' = ticked moment r ∧ ticks (loop r') = ticks (loop r) + 1).
Proof.
  destruct 1 as [now r|moment r Hm|now t_ms samples r|r s' Hs].
  - split; [done|by left].
  - rewrite ticked_loop. split; [done|]. right. by exists moment.
  - rewrite reported_loop. split; [done|by left].
  - split; [done|by left].
Qed.

(** The number of ticks passes through every value. *)
Lemma tick_reached r r' K :
  rtc replica_step r r' → ticks (loop r) < K ≤ ticks (loop r') →
  ∃ moment r1, rtc replica_step r r1 ∧ rtc replica_step (ticked moment r1) r' ∧
    sweep_every (loop r1) = sweep_every (loop r) ∧ ticks (loop r1) + 1 = K.
Proof.
  intros Hr. induction Hr as [r|r v r' Hs Hr IH]; [lia|]. intros HK.
  destruct (replica_step_loop r v Hs) as [He [Et|(moment & -> & Et)]].
  - destruct IH as (moment & r1 & H1 & H2 & H3 & H4); [lia|]. exists moment, r1.
    split_and!; [by eapply rtc_l|done|congruence|done].
  - destruct (decide (K = ticks (loop r) + 1)) as [->|Hne].
    + exists moment, r. split_and!; done.
    + destruct IH as (m & r1 & H1 & H2 & H3 & H4); [lia|]. exists m, r1.
      split_and!; [by eapply rtc_l|done|congruence|done].
Qed.

Lemma fan_out_latest t_ms h conns : latest (fan_out t_ms h conns).1.1 = latest h.
Proof.
  unfold fan_out. case_decide; [done|]. unfold drain.
  repeat case_match; simplify_eq/=; done.
Qed.

Lemma ticked_fresh moment r d e :
  sweeps (counted (loop r)) = true → latest (hub (system (ticked moment r))) !! d = Some e →
  moment - stale_after_ms ≤ entry_reported_ms e.
Proof.
  intros Hs. unfold ticked, position_tick. rewrite Hs.
  pose proof (fan_out_latest moment (sweep stale_after_ms moment (hub (system r))) (conn <$> clients (system r))) as Hl.
  destruct (fan_out _ _ _) as [[h' conns'] x]. cbn in *. rewrite Hl, sweep_lookup.
  destruct (latest (hub (system r)) !! d) as [e'|]; [|done].
  case_match eqn:E; [done|]. intros [= <-]. lia.
Qed.

Lemma replica_steps_refine `{!OrjsonCompact} r r' :
  rtc replica_step r r' → rtc (Fanout.step cell_size_deg stale_after_ms control_max) (system r) (system r').
Proof.
  induction 1 as [r|r v r' Hs _ IH]; [done|]. etransitivity; [|exact IH].
  destruct Hs as [now r|moment r Hm|now t_ms samples r|r s' Hs]; [done| | |by apply rtc_once].
  - pose proof (position_tick_steps cell_size_deg stale_after_ms control_max moment (loop r) (system r) Hm) as Ht.
    unfold ticked. by destruct (position_tick _ _ _ _) as [l s].
  - pose proof (stats_tick_steps cell_size_deg stale_after_ms control_max now t_ms samples (mark r) (system r)) as Ht.
    unfold reported. by destruct (stats_tick _ _ _ _ _ _) as [[m s] e].
Qed.
End replica.

(** ** The schedule *)

Lemma schedule_forward now l :
  fleb (fadd (next_tick l) (interval_s l)) (fadd (next_tick l) (interval_s l)) = true →
  fleb (fadd (next_tick l) (interval_s l)) (next_tick (schedule_tick now l)) = true.
Proof.
  intros Hr. cbn. unfold fmax. destruct (fltb _ now) eqn:E; [|done].
  unfold fltb in E. unfold fleb. destruct (fcompare _ now) as [[]|]; done.
Qed.

(** While every tick is over before the next is due, the n-th tick is planned n intervals
    after the start, however long each of them took. *)
Lemma on_time_no_drift l nows :
  (∀ i now, nows !! i = Some now →
     fleb now (Nat.iter (S i) (λ t, fadd t (interval_s l)) (next_tick l)) = true) →
  next_tick (foldl (λ l now, schedule_tick now l) l nows)
  = Nat.iter (length nows) (λ t, fadd t (interval_s l)) (next_tick l).
Proof.
  revert l. induction nows as [|now nows IH]; intros l Hn; [done|]. cbn [foldl length].
  assert (E : next_tick (schedule_tick now l) = fadd (next_tick l) (interval_s l)).
  { pose proof (Hn 0%nat now eq_refl) as H0. cbn in *. unfold fmax. unfold fleb in H0. unfold fltb.
    destruct now as [a|[]|], (fadd (next_tick l) (interval_s l)) as [b|[]|]; cbn in *; try done.
    destruct (Z.compare_spec a b), (Z.compare_spec b a); try done; lia. }
  assert (Hit : ∀ n t, Nat.iter n (λ t, fadd t (interval_s l)) (fadd t (interval_s l))
                     = Nat.iter (S n) (λ t, fadd t (interval_s l)) t).
  { intros n t. induction n as [|n IHn]; [done|]. apply (f_equal (λ x, fadd x (interval_s l))) in IHn. exact IHn. }
  rewrite IH.
  - rewrite E. apply Hit.
  - intros i x Hx. rewrite E. cbn [interval_s schedule_tick]. rewrite Hit. by apply (Hn (S i)).
Qed.

(** The default tick of 250 ms sweeps every 20th time, every five seconds. *)
Lemma default_sweeps : position_loop 250 (flit 100) = Ok (mkLoop (Fin (u / 4)) 20 (flit 100) 0).
Proof. vm_compute. reflexivity. Qed.

(** A tick that outlasts the interval moves all later ones: after one that runs from
    100.25 to 101.375 the schedule goes on at 101.625 and 101.875, not at the multiples of
    a quarter second after 100 where an absolute schedule would be. *)
Lemma slow_tick_shifts :
  let l := foldl (λ l now, schedule_tick now l) (mkLoop (Fin (u / 4)) 20 (flit 100) 0)
             [flit 100; Fin (101 * u + 3 * u / 8); Fin (101 * u + 3 * u / 8); Fin (101 * u + 5 * u / 8)] in
  next_tick l = Fin (101 * u + 7 * u / 8).
Proof. vm_compute. reflexivity. Qed.

(** ** Properties *)

(** C18: the map shows no ghosts. Among as many ticks as the loop counts between two
    sweeps (20 by default) there is one after which the hub holds no position older than
    the stale limit, whatever batches, clients, statistics rounds and further ticks come
    in between; and all of it is a run of the hub, its clients and their senders in which
    every invariant of theirs holds. *)
Theorem no_ghosts `{Orjson} `{!OrjsonCompact} cell_size_deg stale_after_ms control_max r r' :
  1 ≤ sweep_every (loop r) →
  rtc (replica_step cell_size_deg stale_after_ms control_max) r r' →
  rtc (Fanout.step cell_size_deg stale_after_ms control_max) (system r) (system r') ∧
  (ticks (loop r) + sweep_every (loop r) ≤ ticks (loop r') →
   ∃ moment r1, rtc (replica_step cell_size_deg stale_after_ms control_max) r r1 ∧
     rtc (replica_step cell_size_deg stale_after_ms control_max) (ticked stale_after_ms moment r1) r' ∧
     ∀ d e, latest (hub (system (ticked stale_after_ms moment r1))) !! d = Some e →
            moment - stale_after_ms ≤ entry_reported_ms e).
Proof.
  intros Hs Hr. split; [by eapply replica_steps_refine|]. intros Ht.
  set (n := sweep_every (loop r)) in *. set (K := n * (ticks (loop r) / n + 1)).
  pose proof (Z.div_mod (ticks (loop r)) n) as Hd. pose proof (Z.mod_pos_bound (ticks (loop r)) n) as Hb.
  destruct (tick_reached cell_size_deg stale_after_ms control_max r r' K Hr) as (moment & r1 & H1 & H2 & H3 & H4);
    [unfold K; lia|].
  exists moment, r1. split_and!; [done|done|]. intros d e. apply ticked_fresh.
  unfold sweeps. cbn. rewrite H3, H4. fold n. unfold K. rewrite Z.mul_comm, Z_mod_mult. done.
Qed.

(** ** A van that fell silent *)

Module LoopsSamples.
Definition silent : PositionItem := mkItem "van-7" (flit 50) (flit 30) 1000.
Definition begin : Replica :=
  mkReplica (mkLoop (Fin (u / 4)) 20 (flit 100) 0) (0, flit 100)
    (mkSystem (Hub.apply (flit 1) [silent] new_hub).1 ∅).
Definition ghost_free (moment stale_after_ms : Z) (r : Replica) : Prop :=
  ∀ d e, latest (hub (system r)) !! d = Some e → moment - stale_after_ms ≤ entry_reported_ms e.

Lemma ticks_run n r :
  rtc (replica_step (H := Ref.orjson) (flit 1) 300000 10) r (Nat.iter n (ticked (H := Ref.orjson) 300000 400000) r).
Proof.
  induction n as [|n IH]; [apply rtc_refl|]. eapply rtc_r; [exact IH|].
  apply (rp_tick (H := Ref.orjson)). split; vm_compute; congruence.
Qed.
End LoopsSamples.

Lemma no_ghosts_witness :
  is_Some (latest (hub (system LoopsSamples.begin)) !! "van-7") ∧
  ∃ moment r1, rtc (replica_step (H := Ref.orjson) (flit 1) 300000 10) LoopsSamples.begin r1 ∧
    LoopsSamples.ghost_free moment 300000 (ticked (H := Ref.orjson) 300000 moment r1).
Proof.
  split; [vm_compute; eexists; reflexivity|].
  destruct (@no_ghosts Ref.orjson Ref.orjson_compact (flit 1) 300000 10 LoopsSamples.begin
              (Nat.iter 20 (ticked (H := Ref.orjson) 300000 400000) LoopsSamples.begin)) as [_ Hg].
  - vm_compute. discriminate.
  - apply LoopsSamples.ticks_run.
  - destruct Hg as (moment & r1 & H1 & _ & H2); [vm_compute; discriminate|]. exists moment, r1. split; [exact H1|exact H2].
Defined.
