(* ===== verification/Batch.v ===== *)
(** * The statement that turns a batch of reports into committed state
    (src/geotrack/processor/batch.py, schema of migrations/versions/0001_initial.py)

    Tables are finite maps on their primary keys, timestamps are microseconds. Every
    CTE of [APPLY_BATCH_SQL] is a definition on the snapshot the statement started
    from, as PostgreSQL evaluates data-modifying CTEs. PostGIS is a parameter. *)
From stdpp Require Import sorting.
From S2P Require Import Prelude Floats Clock Text Json Codec.

Inductive AlertKind := Enter | Exit | Dwell.
#[export] Instance AlertKind_eq_dec : EqDecision AlertKind.
Proof. solve_decision. Defined.

(** A point as (latitude, longitude). *)
Definition Point : Type := float64 * float64.

Record Geozone := mkZone {
  zone_user : Z; zone_name : string; color : string; center : Point; radius_m : float64;
  alert_on_enter : bool; alert_on_exit : bool; dwell_alert_interval_s : option Z;
  version : Z; zone_created_at : Z; zone_updated_at : Z }.

Record DevicePosition := mkPosition {
  position : Point; reported_at : Z; received_at : Z; updated_at : Z }.

Record ZonePresence := mkPresence { entered_at : Z; last_seen_at : Z; last_alert_at : Z }.

(** [zone_id] becomes NULL when the zone is deleted. *)
Record AlertRow := mkAlert {
  alert_id : Z; alert_user : Z; alert_zone : option Z; alert_zone_name : string; alert_device : string;
  alert_kind : AlertKind; alert_position : Point; occurred_at : Z; created_at : Z }.

(** The sequence behind the identity column of the alerts. All shards draw from it at once,
    it is not transactional and its numbers need not become visible in order, so all that
    is known is what each statement is given: [drawn n i] is the [i]-th number the [n]-th
    statement that draws any gets. *)
Record IdentitySequence := mkIdentity { drawn : nat → nat → Z; draws : nat }.
Definition given (q : IdentitySequence) : nat → Z := drawn q (draws q).
Definition advance (n : nat) (q : IdentitySequence) : IdentitySequence :=
  match n with 0%nat => q | _ => mkIdentity (drawn q) (S (draws q)) end.
(** The numbers one statement gets increase; those of others may lie between them. *)
Definition increasing (q : IdentitySequence) : Prop :=
  ∀ n i j, (i < j)%nat → drawn q n i < drawn q n j.

(** The committed state. Zone and user ids are UUIDs, as integers; [history] is keyed
    by (device_id, reported_at). *)
Record Db := mkDb {
  geozones : gmap Z Geozone;
  device_positions : gmap string DevicePosition;
  zone_presence : gmap (Z * string) ZonePresence;
  alerts : list AlertRow;
  alerts_identity : IdentitySequence;
  location_history : gmap (string * Z) (Point * Z) }.

Record RejectedRecord := mkRejected { index : nat; record : LocationRecord; reason : string }.

Record BatchResult := mkResult {
  accepted_items : list PositionItem; result_alerts : list AlertRow;
  stale : Z; rejected : list RejectedRecord }.

Definition result_is_empty (r : BatchResult) : bool :=
  bool_decide (length (accepted_items r) = 0%nat) && bool_decide (length (result_alerts r) = 0%nat).

(** ** Choosing what to store *)

(** One iteration of [latest_per_device]: a dictionary keeps the place of a key whose
    value is replaced. *)
Fixpoint keep_newest (newest : list LocationRecord) (r : LocationRecord) : list LocationRecord :=
  match newest with
  | [] => [r]
  | x :: rest =>
      if decide (device_id x = device_id r)
      then if reported_ms x <? reported_ms r then r :: rest else newest
      else x :: keep_newest rest r
  end.
Definition latest_per_device (records : list LocationRecord) : list LocationRecord :=
  foldl keep_newest [] records.

Definition MAX_ATTEMPTS : nat := 5.
Definition BATCH_RETRYABLE_SQLSTATES : list string := ["40001"; "40P01"; "23503"; "55P03"].

Definition should_retry (sqlstate : option string) (attempt max_attempts : nat) : bool :=
  match sqlstate with
  | Some s => bool_decide (s ∈ BATCH_RETRYABLE_SQLSTATES)
  | None => false
  end && (attempt <? max_attempts)%nat.

(** [RETRY_BASE_DELAY_S * 2 ** (attempt - 1)], and the jitter window below it. *)
Definition retry_ceiling (attempt : Z) : float64 :=
  fmul (of_rounded (rnd (25 * u) 1000)) (flit (2 ^ (attempt - 1))).
Definition retry_window (attempt : Z) : res (float64 * float64) :=
  let! half := fdiv (retry_ceiling attempt) (flit 2) in Ok (half, retry_ceiling attempt).

(** [[A-Za-z0-9._:-]{1,64}], matched in full. *)
Definition device_id_char (c : ascii) : bool :=
  between 65 90 c || between 97 122 c || between 48 57 c ||
  (code c =? 46) || (code c =? 95) || (code c =? 58) || (code c =? 45).
Definition device_id_ok (d : string) : bool :=
  forallb device_id_char (chars d) && (1 <=? Z.of_nat (length (chars d)))
  && (Z.of_nat (length (chars d)) <=? 64).

Definition unstorable_reason (r : LocationRecord) (oldest newest : Z) : option string :=
  if negb (device_id_ok (device_id r)) then
    Some "device_id must be between 1 and 64 characters long and made of A-Z a-z 0-9 . _ : -"
  else if reported_ms r <? oldest then
    Some "report timestamp is older than the history retention window"
  else if newest <? reported_ms r then
    Some "report timestamp is too far in the future"
  else None.

Definition split_loop (oldest newest : Z) : nat → list LocationRecord →
    list LocationRecord * list RejectedRecord :=
  fix go i records :=
    match records with
    | [] => ([], [])
    | r :: rest =>
        let '(ok, bad) := go (S i) rest in
        match unstorable_reason r oldest newest with
        | None => (r :: ok, bad)
        | Some why => (ok, mkRejected i r why :: bad)
        end
    end.
Definition split_storable (now retention_days skew_s : Z) (records : list LocationRecord)
  : list LocationRecord * list RejectedRecord :=
  split_loop (now - retention_days * 86400 * 1000) (now + skew_s * 1000) 0 records.

(** ** The statement *)

(** [to_timestamp(ms / 1000.0)]. *)
Definition to_timestamp (ms : Z) : Z := ms * 1000.

Record AcceptedRow := mkAccepted { acc_device : string; acc_position : Point; acc_reported_at : Z }.

Inductive TransitionState := SEnter | SStay | SExit.
#[export] Instance TransitionState_eq_dec : EqDecision TransitionState.
Proof. solve_decision. Defined.

Record Transition := mkTransition {
  tr_zone : Z; tr_device : string; tr_geozone : Geozone; tr_position : Point;
  tr_reported_at : Z; tr_last_alert_at : option Z; tr_state : TransitionState }.

Section statement.
(** [ST_DWithin(center, position, radius)] and [search_area && position]. *)
Variable st_dwithin : Point → Point → float64 → bool.
Variable search_overlaps : Point → float64 → Point → bool.

Definition row_of_record (now : Z) (r : LocationRecord) : DevicePosition :=
  mkPosition (lat r, lon r) (to_timestamp (reported_ms r)) (to_timestamp (received_ms r)) now.

(** The guard of the conditional upsert. *)
Definition newer (db : Db) (r : LocationRecord) : bool :=
  match device_positions db !! device_id r with
  | Some dp => reported_at dp <? to_timestamp (reported_ms r)
  | None => true
  end.

Definition accepted (db : Db) (input : list LocationRecord) : list AcceptedRow :=
  (λ r, mkAccepted (device_id r) (lat r, lon r) (to_timestamp (reported_ms r)))
  <$> filter (λ r, newer db r = true) input.

Definition positions_after (now : Z) (db : Db) (input : list LocationRecord)
  : gmap string DevicePosition :=
  foldl (λ m r, <[device_id r := row_of_record now r]> m) (device_positions db)
    (filter (λ r, newer db r = true) input).

Definition inside (z : Geozone) (p : Point) : bool :=
  search_overlaps (center z) (radius_m z) p && st_dwithin (center z) p (radius_m z).

(** [hits]: the zones of one accepted row. *)
Definition hits (db : Db) (a : AcceptedRow) : list (Z * Geozone) :=
  filter (λ kz, inside kz.2 (acc_position a) = true) (map_to_list (geozones db)).

Definition transitions_in (db : Db) (a : AcceptedRow) : list Transition :=
  (λ kz, let p := zone_presence db !! (kz.1, acc_device a) in
         mkTransition kz.1 (acc_device a) kz.2 (acc_position a) (acc_reported_at a)
           (last_alert_at <$> p) (match p with None => SEnter | Some _ => SStay end))
  <$> hits db a.

Definition transitions_out (db : Db) (a : AcceptedRow) : list Transition :=
  omap (λ kp : Z * string * ZonePresence,
          let '((zid, d), p) := kp in
          if decide (d = acc_device a) then
            match geozones db !! zid with
            | None => None
            | Some z => if decide (zid ∈ (hits db a).*1) then None
                        else Some (mkTransition zid d z (acc_position a) (acc_reported_at a)
                                     (Some (last_alert_at p)) SExit)
            end
          else None)
    (map_to_list (zone_presence db)).

Definition transitions (db : Db) (rows : list AcceptedRow) : list Transition :=
  (rows ≫= transitions_in db) ++ (rows ≫= transitions_out db).

(** [events.kind]; comparing with a NULL [last_alert_at] is not true. *)
Definition event_kind (t : Transition) : option AlertKind :=
  match tr_state t with
  | SEnter => if alert_on_enter (tr_geozone t) then Some Enter else None
  | SExit => if alert_on_exit (tr_geozone t) then Some Exit else None
  | SStay =>
      match dwell_alert_interval_s (tr_geozone t), tr_last_alert_at t with
      | Some s, Some last =>
          if last + s * 1000000 <=? tr_reported_at t then Some Dwell else None
      | _, _ => None
      end
  end.

(** The [last_alert_at] of the presence upsert. *)
Definition next_alert_at (t : Transition) : Z :=
  default (tr_reported_at t)
    (if decide (event_kind t = Some Dwell) then Some (tr_reported_at t) else tr_last_alert_at t).

Definition upsert_presence (m : gmap (Z * string) ZonePresence) (t : Transition)
  : gmap (Z * string) ZonePresence :=
  let k := (tr_zone t, tr_device t) in
  match tr_state t with
  | SExit => m
  | _ => match m !! k with
         | Some p => <[k := mkPresence (entered_at p) (tr_reported_at t) (next_alert_at t)]> m
         | None => <[k := mkPresence (tr_reported_at t) (tr_reported_at t) (next_alert_at t)]> m
         end
  end.
Definition delete_presence (m : gmap (Z * string) ZonePresence) (t : Transition)
  : gmap (Z * string) ZonePresence :=
  match tr_state t with
  | SExit => delete (tr_zone t, tr_device t) m
  | _ => m
  end.

(** [ORDER BY reported_at, zone_id, device_id]. *)
Definition alert_le (s t : Transition) : Prop :=
  tr_reported_at s < tr_reported_at t ∨
  (tr_reported_at s = tr_reported_at t ∧
   (tr_zone s < tr_zone t ∨ (tr_zone s = tr_zone t ∧ String.leb (tr_device s) (tr_device t) = true))).

#[global] Instance alert_le_dec s t : Decision (alert_le s t).
Proof. unfold alert_le. apply _. Defined.

Fixpoint number_alerts (now : Z) (ids : nat → Z) (ts : list Transition) : list AlertRow :=
  match ts with
  | [] => []
  | t :: ts' =>
      match event_kind t with
      | None => number_alerts now ids ts'
      | Some k =>
          mkAlert (ids 0%nat) (zone_user (tr_geozone t)) (Some (tr_zone t)) (zone_name (tr_geozone t))
            (tr_device t) k (tr_position t) (tr_reported_at t) now
          :: number_alerts now (λ i, ids (S i)) ts'
      end
  end.

Definition new_alerts (now : Z) (db : Db) (ts : list Transition) : list AlertRow :=
  number_alerts now (given (alerts_identity db))
    (merge_sort alert_le (filter (λ t, event_kind t ≠ None) ts)).

(** [APPLY_BATCH_SQL]: the new state, the accepted rows and the new alerts. *)
Definition apply_batch_sql (now : Z) (db : Db) (input : list LocationRecord)
  : Db * list AcceptedRow * list AlertRow :=
  let rows := accepted db input in
  let ts := transitions db rows in
  let als := new_alerts now db ts in
  (mkDb (geozones db) (positions_after now db input)
     (foldl delete_presence (foldl upsert_presence (zone_presence db) ts) ts)
     (alerts db ++ als) (advance (length als) (alerts_identity db)) (location_history db),
   rows, als).

(** [INSERT_HISTORY_SQL]: [ON CONFLICT DO NOTHING] keeps the first row of a key. *)
Definition insert_history (db : Db) (records : list LocationRecord) : Db :=
  mkDb (geozones db) (device_positions db) (zone_presence db) (alerts db) (alerts_identity db)
    (foldl (λ m r, let k := (device_id r, to_timestamp (reported_ms r)) in
              match m !! k with
              | Some _ => m
              | None => <[k := ((lat r, lon r), to_timestamp (received_ms r))]> m
              end) (location_history db) records).

(** [_apply_once] once the shard lock is held. [timestamp()] of a row read back is
    truncated to milliseconds. *)
Definition item_of_row (a : AcceptedRow) : res PositionItem :=
  let! ms := to_epoch_ms (acc_reported_at a) in
  Ok (mkItem (acc_device a) (acc_position a).1 (acc_position a).2 ms).

Definition apply_once (now : Z) (db : Db) (storable deduped : list LocationRecord)
  : Db * res (list PositionItem * list AlertRow) :=
  let '(db', rows, als) := apply_batch_sql now (insert_history db storable) deduped in
  (db', let! items := traverse item_of_row rows in Ok (items, als)).

(** How a transaction ended: committed, committed although the driver raised an error
    because the answer was lost, or rolled back with a driver error. *)
Inductive TxOutcome :=
  | Commits
  | CommitsUnanswered (sqlstate : option string)
  | Aborts (sqlstate : option string).
Definition took_effect (o : TxOutcome) : bool := match o with Aborts _ => false | _ => true end.

(** [BatchProcessor.apply]. [now] is the database's clock, [now_ms] the replica's;
    [outcomes] is what the database answers, attempt by
    attempt; [None] means it has not answered the last one yet. *)
Inductive ApplyEnd :=
  | Applied (r : BatchResult)
  | DBAPIError (sqlstate : option string)
  | Failed (e : exn).

(** What the caller gets once a commit is answered. *)
Definition finished (storable : list LocationRecord) (bad : list RejectedRecord)
    (r : res (list PositionItem * list AlertRow)) : ApplyEnd :=
  match r with
  | Ok (items, als) =>
      Applied (mkResult items als (Z.of_nat (length storable) - Z.of_nat (length items)) bad)
  | Raise e => Failed e
  end.

Fixpoint attempts (now : Z) (max_attempts : nat) (attempt : nat) (outcomes : list TxOutcome)
    (db : Db) (storable deduped : list LocationRecord) (bad : list RejectedRecord)
  : option (Db * ApplyEnd * nat) :=
  match outcomes with
  | [] => None
  | Commits :: _ =>
      let '(db', r) := apply_once now db storable deduped in
      Some (db', finished storable bad r, S attempt)
  | (CommitsUnanswered sqlstate | Aborts sqlstate) as o :: rest =>
      let db' := if took_effect o then (apply_once now db storable deduped).1 else db in
      let attempt' := S attempt in
      if should_retry sqlstate attempt' max_attempts
      then attempts now max_attempts attempt' rest db' storable deduped bad
      else Some (db', DBAPIError sqlstate, attempt')
  end.

Definition apply (now now_ms retention_days skew_s : Z) (max_attempts : nat) (outcomes : list TxOutcome)
    (db : Db) (records : list LocationRecord) : option (Db * ApplyEnd * nat) :=
  let '(storable, bad) := split_storable now_ms retention_days skew_s records in
  match storable with
  | [] => Some (db, Applied (mkResult [] [] 0 bad), 0%nat)
  | _ => attempts now max_attempts 0 outcomes db storable (latest_per_device storable) bad
  end.
End statement.

(** ** Lookups by key in lists *)

Section find_key.
Context {A K : Type} `{EqDecision K} (key : A → K).

Fixpoint find_key (k : K) (l : list A) : option A :=
  match l with
  | [] => None
  | x :: l' => if decide (key x = k) then Some x else find_key k l'
  end.

Lemma find_key_Some k l x : find_key k l = Some x → x ∈ l ∧ key x = k.
Proof.
  induction l as [|y l IH]; cbn; [done|]. case_decide; intros; simplify_eq; [set_solver|].
  destruct IH; set_solver.
Qed.
Lemma find_key_elem l x : NoDup (key <$> l) → x ∈ l → find_key (key x) l = Some x.
Proof.
  induction l as [|y l IH]; cbn; intros Hnd Hx; [by apply elem_of_nil in Hx|].
  apply NoDup_cons in Hnd as [Hy Hnd]. apply elem_of_cons in Hx as [->|Hx].
  - by rewrite decide_True.
  - case_decide as E; [|by auto]. exfalso. apply Hy. rewrite E. by apply list_elem_of_fmap_2.
Qed.
Lemma find_key_None k l : find_key k l = None ↔ k ∉ key <$> l.
Proof.
  induction l as [|y l IH]; cbn; [set_solver|]. case_decide; set_solver.
Qed.
Lemma find_key_filter (P : A → Prop) `{∀ x, Decision (P x)} k l :
  NoDup (key <$> l) →
  find_key k (filter P l)
  = match find_key k l with Some x => if decide (P x) then Some x else None | None => None end.
Proof.
  induction l as [|y l IH]; cbn; [done|]. intros [Hy Hnd]%NoDup_cons.
  assert (Hno : key y = k → find_key k l = None) by (intros <-; by apply find_key_None).
  case_decide as HP; cbn; destruct (decide (key y = k)) as [E|E].
  - by rewrite decide_True.
  - by apply IH.
  - rewrite (decide_False (P := P y)) by done. etransitivity; [by apply IH|]. by rewrite Hno.
  - by apply IH.
Qed.
Lemma NoDup_key_filter (P : A → Prop) `{∀ x, Decision (P x)} l :
  NoDup (key <$> l) → NoDup (key <$> filter P l).
Proof. intros Hnd. eapply sublist_NoDup; [apply Hnd|]. apply fmap_sublist, sublist_filter. Qed.
End find_key.

(** ** One report per device *)

Lemma keep_newest_find acc r d :
  find_key device_id d (keep_newest acc r)
  = if decide (device_id r = d)
    then Some (match find_key device_id d acc with
               | Some x => if reported_ms x <? reported_ms r then r else x
               | None => r
               end)
    else find_key device_id d acc.
Proof.
  induction acc as [|x acc IH]; cbn; [done|].
  destruct (decide (device_id x = device_id r)) as [Hxr|Hxr].
  - destruct (decide (device_id r = d)) as [Hd|Hd].
    + rewrite (decide_True (P := device_id x = d)) by congruence.
      destruct (reported_ms x <? reported_ms r); cbn; by rewrite decide_True by congruence.
    + rewrite (decide_False (P := device_id x = d)) by congruence.
      destruct (reported_ms x <? reported_ms r); cbn; by rewrite decide_False by congruence.
  - cbn. repeat case_decide; try done; try congruence.
Qed.

Lemma keep_newest_ids acc r :
  device_id <$> keep_newest acc r = (device_id <$> acc) ∨
  (device_id r ∉ device_id <$> acc ∧ device_id <$> keep_newest acc r = (device_id <$> acc) ++ [device_id r]).
Proof.
  induction acc as [|x acc IH]; cbn; [right; set_solver|]. case_decide as E.
  - left. case_match; cbn; congruence.
  - cbn. destruct IH as [->|[Hr ->]]; [by left|]. right. set_solver.
Qed.

Lemma latest_NoDup records : NoDup (device_id <$> latest_per_device records).
Proof.
  unfold latest_per_device. induction records as [|r records IH] using rev_ind; [constructor|].
  rewrite foldl_snoc. destruct (keep_newest_ids (foldl keep_newest [] records) r) as [->|[Hr ->]]; [done|].
  apply NoDup_app. split_and!; [done| |by apply NoDup_singleton]. set_solver.
Qed.

Section positions.
(** [INSERT ... ON CONFLICT DO UPDATE ... WHERE] for a single report. *)
Definition upsert_report (now : Z) (m : gmap string DevicePosition) (r : LocationRecord)
  : gmap string DevicePosition :=
  match m !! device_id r with
  | Some dp => if reported_at dp <? to_timestamp (reported_ms r)
               then <[device_id r := row_of_record now r]> m else m
  | None => <[device_id r := row_of_record now r]> m
  end.

Lemma upserts_lookup now m records d :
  foldl (upsert_report now) m records !! d
  = match find_key device_id d (latest_per_device records) with
    | None => m !! d
    | Some r => match m !! d with
                | Some dp => if reported_at dp <? to_timestamp (reported_ms r)
                             then Some (row_of_record now r) else Some dp
                | None => Some (row_of_record now r)
                end
    end.
Proof.
  unfold latest_per_device. induction records as [|r records IH] using rev_ind; [done|].
  rewrite !foldl_snoc, keep_newest_find. unfold upsert_report at 1.
  destruct (decide (device_id r = d)) as [<-|Hd].
  - rewrite IH. destruct (find_key device_id (device_id r) (foldl keep_newest [] records)) as [x|].
    + destruct (m !! device_id r) as [dp|]; cbn;
        repeat (case_match; cbn in *); try rewrite lookup_insert_eq; try done;
        rewrite ?IH; repeat case_match; simplify_eq/=; unfold to_timestamp in *; try done; lia.
    + destruct (m !! device_id r) as [dp|]; cbn;
        repeat (case_match; cbn in *); try rewrite lookup_insert_eq; try done.
  - repeat case_match; rewrite ?lookup_insert_ne by done; done.
Qed.
End positions.

(** ** What the statement does, row by row *)

Section statement_facts.
Variable st_dwithin : Point → Point → float64 → bool.
Variable search_overlaps : Point → float64 → Point → bool.
Local Notation inside := (inside st_dwithin search_overlaps).
Local Notation transitions := (transitions st_dwithin search_overlaps).
Local Notation apply_batch_sql := (apply_batch_sql st_dwithin search_overlaps).
Local Notation apply_once := (apply_once st_dwithin search_overlaps).

Lemma inserts_lookup now (m : gmap string DevicePosition) (l : list LocationRecord) d :
  NoDup (device_id <$> l) →
  foldl (λ m r, <[device_id r := row_of_record now r]> m) m l !! d
  = match find_key device_id d l with Some r => Some (row_of_record now r) | None => m !! d end.
Proof.
  revert m. induction l as [|r l IH]; intros m; [done|]. cbn. intros [Hr Hnd]%NoDup_cons.
  rewrite IH by done. destruct (decide (device_id r = d)) as [<-|Hd].
  - rewrite (proj2 (find_key_None device_id (device_id r) l)) by done. by rewrite lookup_insert_eq.
  - by rewrite lookup_insert_ne by done.
Qed.

(** The upsert of the newest reports is the upsert of all of them, one by one. *)
Lemma positions_newest now db records :
  positions_after now db (latest_per_device records)
  = foldl (upsert_report now) (device_positions db) records.
Proof.
  apply map_eq. intros d. unfold positions_after. rewrite upserts_lookup.
  rewrite inserts_lookup by apply NoDup_key_filter, latest_NoDup.
  rewrite find_key_filter by apply latest_NoDup.
  destruct (find_key device_id d _) as [r|] eqn:Er; [|done].
  apply find_key_Some in Er as [_ <-]. unfold newer.
  destruct (device_positions db !! device_id r) as [dp|]; [|by rewrite decide_True].
  destruct (reported_at dp <? _); [by rewrite decide_True|by rewrite decide_False].
Qed.

Lemma accepted_NoDup db input : NoDup (device_id <$> input) → NoDup (acc_device <$> accepted db input).
Proof.
  intros Hnd. unfold accepted. rewrite <- list_fmap_compose. by apply NoDup_key_filter.
Qed.

Definition tr_key (t : Transition) : Z * string := (tr_zone t, tr_device t).

Lemma elem_hits db a zid z :
  (zid, z) ∈ hits st_dwithin search_overlaps db a ↔
  geozones db !! zid = Some z ∧ inside z (acc_position a) = true.
Proof. unfold hits. rewrite list_elem_of_filter, elem_of_map_to_list. naive_solver. Qed.

Lemma hit_ids db a zid z :
  geozones db !! zid = Some z →
  zid ∈ (hits st_dwithin search_overlaps db a).*1 ↔ inside z (acc_position a) = true.
Proof.
  intros Hz. rewrite list_elem_of_fmap. split.
  - intros ([zid' z'] & -> & [Hz' Hin]%elem_hits). cbn in *. congruence.
  - intros Hin. exists (zid, z). split; [done|]. by apply elem_hits.
Qed.

(** The transition of a zone and an accepted row, if there is one. *)
Definition transition_of (db : Db) (a : AcceptedRow) (zid : Z) (z : Geozone) : option Transition :=
  let p := zone_presence db !! (zid, acc_device a) in
  let mk st := mkTransition zid (acc_device a) z (acc_position a) (acc_reported_at a)
                 (last_alert_at <$> p) st in
  match inside z (acc_position a), p with
  | true, None => Some (mk SEnter)
  | true, Some _ => Some (mk SStay)
  | false, Some _ => Some (mk SExit)
  | false, None => None
  end.

Lemma elem_transitions db rows t :
  t ∈ transitions db rows ↔
  ∃ a zid z, a ∈ rows ∧ geozones db !! zid = Some z ∧ transition_of db a zid z = Some t.
Proof.
  unfold transitions. rewrite elem_of_app, !list_elem_of_bind. split.
  - intros [(a & Ht & Ha)|(a & Ht & Ha)].
    + unfold transitions_in in Ht. apply list_elem_of_fmap in Ht as ([zid z] & -> & [Hz Hin]%elem_hits).
      exists a, zid, z. split_and!; [done..|]. unfold transition_of. cbn. rewrite Hin.
      by destruct (zone_presence db !! (zid, acc_device a)).
    + unfold transitions_out in Ht.
      apply list_elem_of_omap in Ht as ([[zid d] p] & Hp%elem_of_map_to_list & Ht).
      case_decide as Hd; [subst d|done]. destruct (geozones db !! zid) as [z|] eqn:Hz; [|done].
      case_decide as Hh; [done|]. simplify_eq. rewrite (hit_ids db a zid z) in Hh by done.
      exists a, zid, z. split_and!; [done..|]. unfold transition_of. rewrite Hp.
      by destruct (inside z (acc_position a)).
  - intros (a & zid & z & Ha & Hz & Ht). unfold transition_of in Ht.
    destruct (inside z (acc_position a)) eqn:Hin.
    + left. exists a. split; [|done]. apply list_elem_of_fmap. exists (zid, z).
      split; [|by apply elem_hits]. cbn. by destruct (zone_presence db !! (zid, acc_device a)); simplify_eq.
    + right. exists a. split; [|done].
      destruct (zone_presence db !! (zid, acc_device a)) as [p|] eqn:Hp; [|done]. simplify_eq.
      apply list_elem_of_omap. exists (zid, acc_device a, p). rewrite elem_of_map_to_list.
      split; [done|]. cbn. rewrite decide_True, Hz by done. rewrite decide_False; [done|].
      rewrite (hit_ids db a zid z) by done. congruence.
Qed.

Lemma transition_of_key db a zid z t :
  transition_of db a zid z = Some t → tr_key t = (zid, acc_device a) ∧ tr_reported_at t = acc_reported_at a.
Proof. unfold transition_of. repeat case_match; intros; simplify_eq; done. Qed.

(** *** One transition per zone and device *)

Lemma NoDup_bind_key (rows : list AcceptedRow) (f : AcceptedRow → list Transition) :
  NoDup (acc_device <$> rows) → (∀ a, NoDup (tr_key <$> f a)) →
  (∀ a t, t ∈ f a → tr_device t = acc_device a) → NoDup (tr_key <$> (rows ≫= f)).
Proof.
  intros Hnd Hf Hd. induction rows as [|a rows IH]; cbn; [constructor|].
  apply NoDup_cons in Hnd as [Ha Hnd]. rewrite fmap_app. apply NoDup_app.
  split_and!; [done| |by apply IH]. intros k (t & -> & Ht)%list_elem_of_fmap.
  intros (t' & Hk & (a' & Ht' & Ha')%list_elem_of_bind)%list_elem_of_fmap.
  apply Hd in Ht, Ht'. apply Ha. unfold tr_key in Hk. injection Hk as _ Hk.
  apply list_elem_of_fmap. exists a'. split; congruence.
Qed.

Lemma NoDup_omap_key {A B K} (g : A → option B) (f : A → K) (key : B → K) (l : list A) :
  NoDup (f <$> l) → (∀ x y, g x = Some y → key y = f x) → NoDup (key <$> omap g l).
Proof.
  intros Hnd Hg. induction l as [|x l IH]; cbn; [constructor|].
  apply NoDup_cons in Hnd as [Hx Hnd]. destruct (g x) as [y|] eqn:Ey; [|by apply IH].
  cbn. apply NoDup_cons. split; [|by apply IH]. rewrite (Hg x y Ey).
  intros (y' & Hy & (x' & Hx' & Hgx)%list_elem_of_omap)%list_elem_of_fmap.
  apply Hx. rewrite Hy, (Hg x' y' Hgx). by apply list_elem_of_fmap_2.
Qed.

Lemma transitions_NoDup db rows :
  NoDup (acc_device <$> rows) → NoDup (tr_key <$> transitions db rows).
Proof.
  intros Hnd. unfold transitions. rewrite fmap_app. apply NoDup_app. split_and!.
  - apply NoDup_bind_key; [done| |].
    + intros a. unfold transitions_in. rewrite <- list_fmap_compose.
      apply (NoDup_fmap_2_strong (λ kz : Z * Geozone, (kz.1, acc_device a))).
      * intros [z1 g1] [z2 g2] H1%elem_hits H2%elem_hits [= ->]. f_equal. naive_solver.
      * unfold hits. apply NoDup_filter, NoDup_map_to_list.
    + intros a t (kz & -> & _)%list_elem_of_fmap. done.
  - intros k (t & -> & (a & Ht & Ha)%list_elem_of_bind)%list_elem_of_fmap.
    intros (t' & Hk & (a' & Ht' & Ha')%list_elem_of_bind)%list_elem_of_fmap.
    apply list_elem_of_fmap in Ht as ([zid z] & -> & [Hz Hin]%elem_hits).
    apply list_elem_of_omap in Ht' as ([[zid' d] p] & _ & Ht'). cbn in Ht'.
    case_decide as Hd; [|done]. case_match eqn:Hz'; [|done]. case_decide as Hh; [done|].
    injection Ht' as <-. unfold tr_key in Hk; cbn in Hk. simplify_eq.
    apply Hh, (hit_ids db a' zid' _ Hz).
    assert (a = a') as ->; [|done].
    pose proof (find_key_elem acc_device rows a Hnd Ha) as E1.
    pose proof (find_key_elem acc_device rows a' Hnd Ha') as E2. congruence.
  - apply NoDup_bind_key; [done| |].
    + intros a. unfold transitions_out. apply (NoDup_omap_key _ fst); [apply NoDup_fst_map_to_list|].
      intros [[zid d] p] t. repeat case_match; intros; simplify_eq. done.
    + intros a t ([[zid d] p] & _ & Ht)%list_elem_of_omap. repeat case_match; simplify_eq. done.
Qed.

(** The transition the batch finds for a zone and a device. *)
Lemma find_transition db rows zid z a :
  NoDup (acc_device <$> rows) → geozones db !! zid = Some z → a ∈ rows →
  find_key tr_key (zid, acc_device a) (transitions db rows) = transition_of db a zid z.
Proof.
  intros Hnd Hz Ha. destruct (transition_of db a zid z) as [t|] eqn:Et.
  - destruct (transition_of_key _ _ _ _ _ Et) as [<- _].
    apply find_key_elem; [by apply transitions_NoDup|]. apply elem_transitions. eauto 10.
  - apply find_key_None. intros (t & Hk & Ht)%list_elem_of_fmap.
    apply elem_transitions in Ht as (a' & zid' & z' & Ha' & Hz' & Ht).
    destruct (transition_of_key _ _ _ _ _ Ht) as [Hk' _]. rewrite Hk' in Hk. simplify_eq.
    assert (a = a') as ->; [|congruence].
    pose proof (find_key_elem acc_device rows a Hnd Ha) as E1.
    pose proof (find_key_elem acc_device rows a' Hnd Ha') as E2. congruence.
Qed.

Lemma find_transition_none db rows zid d :
  d ∉ acc_device <$> rows → find_key tr_key (zid, d) (transitions db rows) = None.
Proof.
  intros Hd. apply find_key_None. intros (t & Hk & Ht)%list_elem_of_fmap.
  apply elem_transitions in Ht as (a & zid' & z & Ha & _ & Ht).
  destruct (transition_of_key _ _ _ _ _ Ht) as [Hk' _]. rewrite Hk' in Hk. simplify_eq.
  apply Hd, list_elem_of_fmap_2, Ha.
Qed.

(** *** Presence *)

Definition presence_of (old : option ZonePresence) (t : Transition) : ZonePresence :=
  mkPresence (match old with Some p => entered_at p | None => tr_reported_at t end)
    (tr_reported_at t) (next_alert_at t).

Lemma upsert_presence_lookup m ts k :
  NoDup (tr_key <$> ts) →
  foldl upsert_presence m ts !! k
  = match find_key tr_key k ts with
    | Some t => if decide (tr_state t = SExit) then m !! k else Some (presence_of (m !! k) t)
    | None => m !! k
    end.
Proof.
  revert m. induction ts as [|t ts IH]; intros m; [done|]. cbn. intros [Ht Hnd]%NoDup_cons.
  rewrite IH by done. fold (tr_key t) in *. destruct (decide (tr_key t = k)) as [<-|Hk].
  - rewrite (proj2 (find_key_None tr_key (tr_key t) ts)) by done.
    unfold upsert_presence. fold (tr_key t). unfold presence_of.
    destruct (tr_state t); [| |by rewrite decide_True by done];
      rewrite decide_False by done; destruct (m !! tr_key t); by rewrite lookup_insert_eq.
  - assert (upsert_presence m t !! k = m !! k) as ->; [|done].
    unfold upsert_presence. fold (tr_key t).
    repeat case_match; try done; by rewrite lookup_insert_ne by done.
Qed.

Lemma delete_presence_lookup m ts k :
  NoDup (tr_key <$> ts) →
  foldl delete_presence m ts !! k
  = match find_key tr_key k ts with
    | Some t => if decide (tr_state t = SExit) then None else m !! k
    | None => m !! k
    end.
Proof.
  revert m. induction ts as [|t ts IH]; intros m; [done|]. cbn. intros [Ht Hnd]%NoDup_cons.
  rewrite IH by done. fold (tr_key t) in *. destruct (decide (tr_key t = k)) as [<-|Hk].
  - rewrite (proj2 (find_key_None tr_key (tr_key t) ts)) by done.
    unfold delete_presence. fold (tr_key t).
    destruct (tr_state t); [done|done|]. by rewrite lookup_delete_eq.
  - assert (delete_presence m t !! k = m !! k) as ->; [|done].
    unfold delete_presence. fold (tr_key t).
    destruct (tr_state t); [done|done|]. by rewrite lookup_delete_ne by done.
Qed.

Lemma presence_after m ts k :
  NoDup (tr_key <$> ts) →
  foldl delete_presence (foldl upsert_presence m ts) ts !! k
  = match find_key tr_key k ts with
    | Some t => if decide (tr_state t = SExit) then None else Some (presence_of (m !! k) t)
    | None => m !! k
    end.
Proof.
  intros Hnd. rewrite delete_presence_lookup, upsert_presence_lookup by done.
  destruct (find_key tr_key k ts); [|done]. by case_decide.
Qed.

(** *** A whole batch *)

(** What the statement makes of the newest report of a device. *)
Definition row_of_report (r : LocationRecord) : AcceptedRow :=
  mkAccepted (device_id r) (lat r, lon r) (to_timestamp (reported_ms r)).

Lemma elem_accepted db input a :
  a ∈ accepted db input ↔ ∃ r, r ∈ input ∧ newer db r = true ∧ a = row_of_report r.
Proof.
  unfold accepted. rewrite list_elem_of_fmap. setoid_rewrite list_elem_of_filter. naive_solver.
Qed.

Lemma accepted_latest db records : NoDup (acc_device <$> accepted db (latest_per_device records)).
Proof. apply accepted_NoDup, latest_NoDup. Qed.

(** The stored row of a device changes exactly when its newest report is accepted. *)
Lemma stored_row now db records d dp :
  positions_after now db (latest_per_device records) !! d = Some dp →
  (device_positions db !! d = Some dp ∧ d ∉ acc_device <$> accepted db (latest_per_device records)) ∨
  (device_positions db !! d ≠ Some dp ∧
   ∃ a, a ∈ accepted db (latest_per_device records) ∧ acc_device a = d ∧
        acc_position a = position dp ∧ acc_reported_at a = reported_at dp).
Proof.
  unfold positions_after. rewrite inserts_lookup by apply NoDup_key_filter, latest_NoDup.
  destruct (find_key device_id d (filter _ _)) as [r|] eqn:Er.
  - apply find_key_Some in Er as [[Hn Hr]%list_elem_of_filter <-]. intros [= <-]. right. split.
    + unfold newer in Hn. intros E. rewrite E in Hn. cbn in Hn. lia.
    + exists (row_of_report r). split; [|done]. apply elem_accepted. eauto.
  - intros Hdp. left. split; [done|]. apply find_key_None in Er.
    unfold accepted. by rewrite <- list_fmap_compose.
Qed.

Definition batch_db (now : Z) (db : Db) (storable : list LocationRecord) : Db :=
  (apply_once now db storable (latest_per_device storable)).1.
Definition batch_alerts (now : Z) (db : Db) (storable : list LocationRecord) : list AlertRow :=
  (apply_batch_sql now (insert_history db storable) (latest_per_device storable)).2.

Lemma batch_db_positions now db storable :
  device_positions (batch_db now db storable) = positions_after now db (latest_per_device storable).
Proof. done. Qed.

Lemma batch_db_presence now db storable zid d :
  zone_presence (batch_db now db storable) !! (zid, d)
  = match find_key tr_key (zid, d) (transitions db (accepted db (latest_per_device storable))) with
    | Some t => if decide (tr_state t = SExit) then None
                else Some (presence_of (zone_presence db !! (zid, d)) t)
    | None => zone_presence db !! (zid, d)
    end.
Proof.
  etransitivity; [|apply presence_after, transitions_NoDup, accepted_latest]. done.
Qed.

(** *** Alerts *)

Lemma number_alerts_keys now ids ts :
  (λ al, (alert_zone al, alert_device al, alert_kind al)) <$> number_alerts now ids ts
  = omap (λ t, (λ k, (Some (tr_zone t), tr_device t, k)) <$> event_kind t) ts.
Proof.
  revert ids. induction ts as [|t ts IH]; intros ids; [done|]. cbn.
  destruct (event_kind t); cbn; [f_equal|]; apply IH.
Qed.

Lemma number_alerts_zone now ids ts al :
  al ∈ number_alerts now ids ts → is_Some (alert_zone al).
Proof.
  revert ids. induction ts as [|t ts IH]; intros ids; cbn; [by intros ?%elem_of_nil|].
  destruct (event_kind t); [|apply IH]. intros [->|H]%elem_of_cons; [by eexists|by eapply IH].
Qed.

Lemma number_alerts_ids now ids ts :
  alert_id <$> number_alerts now ids ts = ids <$> seq 0 (length (number_alerts now ids ts)).
Proof.
  revert ids. induction ts as [|t ts IH]; intros ids; [done|]. cbn.
  destruct (event_kind t); [|apply IH]. cbn. rewrite IH, <- fmap_S_seq, <- list_fmap_compose. done.
Qed.

Lemma fmap_seq_increasing (ids : nat → Z) k n :
  (∀ i j, (i < j)%nat → ids i < ids j) → StronglySorted Z.lt (ids <$> seq k n).
Proof.
  intros Hids. revert k. induction n as [|n IH]; intros k; cbn; constructor; [apply IH|].
  apply Forall_forall. intros x (i & -> & Hi%elem_of_seq)%list_elem_of_fmap. apply Hids. lia.
Qed.

(** What the owner of a zone should hear about an accepted report. *)
Definition alert_due (db : Db) (zid : Z) (z : Geozone) (a : AcceptedRow) : option AlertKind :=
  match zone_presence db !! (zid, acc_device a), inside z (acc_position a) with
  | None, true => if alert_on_enter z then Some Enter else None
  | Some _, false => if alert_on_exit z then Some Exit else None
  | Some p, true =>
      match dwell_alert_interval_s z with
      | Some s => if last_alert_at p + s * 1000000 <=? acc_reported_at a then Some Dwell else None
      | None => None
      end
  | None, false => None
  end.

Lemma alert_due_kind db zid z a :
  alert_due db zid z a = transition_of db a zid z ≫= event_kind.
Proof.
  unfold alert_due, transition_of, event_kind. cbn.
  destruct (inside z (acc_position a)), (zone_presence db !! (zid, acc_device a)); done.
Qed.

Lemma batch_alerts_elem now db storable zid d k :
  (∃ al, al ∈ batch_alerts now db storable ∧ alert_zone al = Some zid ∧ alert_device al = d ∧ alert_kind al = k)
  ↔ ∃ t, t ∈ transitions db (accepted db (latest_per_device storable)) ∧
         tr_key t = (zid, d) ∧ event_kind t = Some k.
Proof.
  set (ts := transitions _ _).
  assert (Hk : ∀ x, x ∈ (λ al, (alert_zone al, alert_device al, alert_kind al))
                   <$> batch_alerts now db storable ↔
                 ∃ t, t ∈ ts ∧ (λ k, (Some (tr_zone t), tr_device t, k)) <$> event_kind t = Some x).
  { intros x. unfold batch_alerts. cbn. unfold new_alerts. rewrite number_alerts_keys.
    rewrite list_elem_of_omap. setoid_rewrite merge_sort_Permutation.
    setoid_rewrite list_elem_of_filter. change (transitions (insert_history db storable)) with (transitions db).
    split; [naive_solver|]. intros (t & Ht & Hx). exists t. split; [|done]. split; [|done].
    intros E. by rewrite E in Hx. }
  specialize (Hk (Some zid, d, k)). rewrite list_elem_of_fmap in Hk. split.
  - intros (al & Hal & E1 & <- & <-). destruct (proj1 Hk) as (t & Ht & E); [rewrite <- E1; eauto|].
    apply fmap_Some in E as (k' & E & [= -> -> ->]). eauto.
  - intros (t & Ht & [= <- <-] & E). destruct (proj2 Hk) as (al & [= E1 -> ->] & Hal); [|by eauto 10].
    exists t. split; [done|]. by rewrite E.
Qed.

#[export] Instance alert_le_total : Total alert_le.
Proof.
  intros s t. unfold alert_le.
  destruct (String.leb_total (tr_device s) (tr_device t)) as [Hd|Hd]; rewrite Hd;
    destruct (Z.lt_trichotomy (tr_reported_at s) (tr_reported_at t)) as [?|[?|?]];
    destruct (Z.lt_trichotomy (tr_zone s) (tr_zone t)) as [?|[?|?]]; naive_solver.
Qed.

Lemma number_alerts_sorted now ids ts :
  Sorted alert_le ts → (∀ t, t ∈ ts → event_kind t ≠ None) →
  Sorted Z.le (occurred_at <$> number_alerts now ids ts).
Proof.
  revert ids. induction ts as [|t ts IH]; intros ids Hs Hk; [constructor|].
  apply Sorted_inv in Hs as [Hs Hhd]. cbn. destruct (event_kind t) eqn:E; [|set_solver].
  cbn. constructor; [apply IH; [done|set_solver]|].
  destruct ts as [|t' ts]; cbn; [constructor|]. apply HdRel_inv in Hhd.
  destruct (event_kind t') eqn:E'; [|set_solver]. cbn. constructor. unfold alert_le in Hhd. lia.
Qed.

Lemma batch_alerts_sorted now db storable :
  Sorted Z.le (occurred_at <$> batch_alerts now db storable).
Proof.
  unfold batch_alerts. cbn. unfold new_alerts. apply number_alerts_sorted.
  - apply Sorted_merge_sort, _.
  - intros t. rewrite merge_sort_Permutation, list_elem_of_filter. naive_solver.
Qed.

Lemma batch_alerts_ids now db storable :
  alert_id <$> batch_alerts now db storable
  = given (alerts_identity db) <$> seq 0 (length (batch_alerts now db storable)).
Proof. apply number_alerts_ids. Qed.

(** *** Replays *)

Definition no_identity : IdentitySequence := mkIdentity (λ _ _, 0) 0.

(** A report whose effects the database already holds. *)
Definition covered (db : Db) (r : LocationRecord) : Prop :=
  (∃ dp, device_positions db !! device_id r = Some dp ∧
         to_timestamp (reported_ms r) ≤ reported_at dp) ∧
  is_Some (location_history db !! (device_id r, to_timestamp (reported_ms r))).

Lemma latest_subset records : latest_per_device records ⊆ records.
Proof.
  unfold latest_per_device. induction records as [|r records IH] using rev_ind; [done|].
  rewrite foldl_snoc. assert (∀ acc, keep_newest acc r ⊆ r :: acc) as Hk; [|set_solver].
  induction acc as [|x acc IHa]; cbn; [done|]. repeat case_match; set_solver.
Qed.

Lemma history_monotone records m k :
  is_Some (m !! k) → is_Some (location_history (insert_history
    (mkDb ∅ ∅ ∅ [] no_identity m) records) !! k).
Proof.
  cbn. revert m. induction records as [|r records IH]; intros m Hk; [done|]. cbn. apply IH.
  case_match; [done|]. destruct (decide (k = (device_id r, to_timestamp (reported_ms r)))) as [->|].
  - by rewrite lookup_insert_eq.
  - by rewrite lookup_insert_ne by done.
Qed.

Lemma history_present records m r :
  r ∈ records → is_Some (location_history (insert_history (mkDb ∅ ∅ ∅ [] no_identity m) records)
                  !! (device_id r, to_timestamp (reported_ms r))).
Proof.
  revert m. induction records as [|x records IH]; intros m Hr; [by apply elem_of_nil in Hr|].
  apply elem_of_cons in Hr as [->|Hr]; [|by apply IH].
  apply (history_monotone records). case_match eqn:E; [by eauto|]. by rewrite lookup_insert_eq.
Qed.

Lemma history_covered records m :
  Forall (λ r, is_Some (m !! (device_id r, to_timestamp (reported_ms r)))) records →
  location_history (insert_history (mkDb ∅ ∅ ∅ [] no_identity m) records) = m.
Proof.
  cbn. induction 1 as [|r records [x Hx] _ IH]; [done|]. cbn. by rewrite Hx.
Qed.

Lemma upserts_monotone now m records d dp :
  m !! d = Some dp →
  ∃ dp', foldl (upsert_report now) m records !! d = Some dp' ∧ reported_at dp ≤ reported_at dp'.
Proof.
  intros Hd. rewrite upserts_lookup, Hd. destruct (find_key _ _ _) as [r|]; [|by exists dp].
  case_match eqn:E; [|by exists dp]. eexists. split; [done|]. cbn. lia.
Qed.

Lemma upserts_covers now m records r :
  r ∈ records →
  ∃ dp, foldl (upsert_report now) m records !! device_id r = Some dp ∧
        to_timestamp (reported_ms r) ≤ reported_at dp.
Proof.
  revert m. induction records as [|x records IH]; intros m Hr; [by apply elem_of_nil in Hr|].
  apply elem_of_cons in Hr as [->|Hr]; [|by apply IH]. cbn.
  assert (∃ dp, upsert_report now m x !! device_id x = Some dp ∧
                to_timestamp (reported_ms x) ≤ reported_at dp) as (dp & Hdp & Hle).
  { unfold upsert_report. destruct (m !! device_id x) as [dp|] eqn:E.
    - case_match eqn:El; [rewrite lookup_insert_eq; by eexists; split|]. exists dp. split; [done|lia].
    - rewrite lookup_insert_eq. by eexists; split. }
  destruct (upserts_monotone now (upsert_report now m x) records _ _ Hdp) as (dp' & ? & ?).
  exists dp'. split; [done|lia].
Qed.

Lemma batch_covers now db storable : Forall (covered (batch_db now db storable)) storable.
Proof.
  apply Forall_forall. intros r Hr. split.
  - rewrite batch_db_positions, positions_newest. by apply upserts_covers.
  - by apply (history_present storable (location_history db)).
Qed.

(** The two halves of [covered]. *)
Definition reflected (db : Db) (r : LocationRecord) : Prop :=
  ∃ dp, device_positions db !! device_id r = Some dp ∧ to_timestamp (reported_ms r) ≤ reported_at dp.
Definition archived (db : Db) (r : LocationRecord) : Prop :=
  is_Some (location_history db !! (device_id r, to_timestamp (reported_ms r))).

Lemma batch_keeps_reflected now db storable r : reflected db r → reflected (batch_db now db storable) r.
Proof.
  intros (dp & Hdp & Hle). unfold reflected. rewrite batch_db_positions, positions_newest.
  destruct (upserts_monotone now _ storable _ _ Hdp) as (dp' & ? & ?). exists dp'. split; [done|lia].
Qed.
Lemma batch_keeps_archived now db storable r : archived db r → archived (batch_db now db storable) r.
Proof. by apply (history_monotone storable (location_history db)). Qed.

Lemma batch_keeps_covered now db storable r : covered db r → covered (batch_db now db storable) r.
Proof. intros [Hr Ha]. split; [by apply batch_keeps_reflected|by apply batch_keeps_archived]. Qed.

Lemma covered_not_newer db r : covered db r → newer db r = false.
Proof. intros [(dp & Hdp & Hle) _]. unfold newer. rewrite Hdp. lia. Qed.

Lemma covered_noop now db records :
  Forall (covered db) records →
  apply_once now db records (latest_per_device records) = (db, Ok ([], [])).
Proof.
  intros Hc. unfold apply_once, apply_batch_sql.
  assert (Hh : insert_history db records = db).
  { destruct db as [gz dps zp als idn hist]. unfold insert_history. f_equal.
    apply (history_covered records hist). eapply Forall_impl; [done|]. intros r [_ ?]. done. }
  rewrite Hh.
  assert (Hf : filter (λ r, newer db r = true) (latest_per_device records) = []).
  { apply elem_of_nil_inv. intros r [Hn Hr]%list_elem_of_filter.
    apply latest_subset in Hr. rewrite Forall_forall in Hc.
    rewrite (covered_not_newer db r) in Hn by auto. done. }
  unfold accepted, positions_after. rewrite Hf. cbn. rewrite app_nil_r. by destruct db.
Qed.
End statement_facts.

(** ** Splitting and retrying *)

Lemma split_loop_spec oldest newest i records :
  (split_loop oldest newest i records).1
  = filter (λ r, unstorable_reason r oldest newest = None) records ∧
  ∀ rj, rj ∈ (split_loop oldest newest i records).2 ↔
    ∃ j, index rj = (i + j)%nat ∧ records !! j = Some (record rj) ∧
         unstorable_reason (record rj) oldest newest = Some (reason rj).
Proof.
  revert i. induction records as [|r records IH]; intros i.
  { split; [done|]. intros rj. split; [by intros ?%elem_of_nil|]. by intros (j & _ & ? & _). }
  cbn. specialize (IH (S i)). destruct (split_loop oldest newest (S i) records) as [ok bad].
  cbn in IH. destruct IH as [-> IH]. destruct (unstorable_reason r oldest newest) as [why|] eqn:Er; cbn.
  - rewrite decide_False by congruence. split; [done|]. intros rj. rewrite elem_of_cons, IH. split.
    + intros [->|(j & Hj & Hr & Hw)]; [by exists 0%nat; rewrite Nat.add_0_r|].
      exists (S j). split; [lia|done].
    + intros ([|j] & Hj & Hr & Hw); cbn in Hr.
      * left. simplify_eq. destruct rj. cbn in *. rewrite Nat.add_0_r in Hj. congruence.
      * right. exists j. split; [lia|done].
  - rewrite decide_True by done. split; [done|]. intros rj. rewrite IH. split.
    + intros (j & Hj & Hr & Hw). exists (S j). split; [lia|done].
    + intros ([|j] & Hj & Hr & Hw); cbn in Hr; [congruence|]. exists j. split; [lia|done].
Qed.

Section retries.
Variable st_dwithin : Point → Point → float64 → bool.
Variable search_overlaps : Point → float64 → Point → bool.
Local Notation attempts := (attempts st_dwithin search_overlaps).

Local Notation apply_once := (apply_once st_dwithin search_overlaps).
Local Notation batch_db := (batch_db st_dwithin search_overlaps).

Lemma batch_again now db storable :
  apply_once now (batch_db now db storable) storable (latest_per_device storable)
  = (batch_db now db storable, Ok ([], [])).
Proof. apply covered_noop, batch_covers. Qed.

(** Enough outcomes end the loop. *)
Lemma attempts_end now max_attempts n outcomes db storable deduped bad :
  (n < max_attempts)%nat → (max_attempts - n ≤ length outcomes)%nat →
  ∃ db' e k, attempts now max_attempts n outcomes db storable deduped bad = Some (db', e, k) ∧
    (n < k ≤ max_attempts)%nat.
Proof.
  revert n db. induction outcomes as [|o outcomes IH]; intros n db Hn Hl; [cbn in Hl; lia|].
  assert (Hrest : ∀ s db1, ∃ db' e k,
    (if should_retry s (S n) max_attempts then attempts now max_attempts (S n) outcomes db1 storable deduped bad
     else Some (db1, DBAPIError s, S n)) = Some (db', e, k) ∧ (n < k ≤ max_attempts)%nat).
  { intros s db1. destruct (should_retry s (S n) max_attempts) eqn:Er; [|eexists _, _, _; split; [done|lia]].
    assert (S n < max_attempts)%nat.
    { unfold should_retry in Er. apply andb_true_iff in Er as [_ Er]. by apply Nat.ltb_lt in Er. }
    destruct (IH (S n) db1) as (db' & e & k & -> & Hk); [done|cbn in Hl; lia|].
    exists db', e, k. split; [done|lia]. }
  destruct o as [|s|s]; cbn -[should_retry Batch.apply_once]; [|apply Hrest..].
  destruct (apply_once _ _ _ _) as [db' r]. eexists _, _, _. split; [done|lia].
Qed.

(** How the loop ended: what was tried, and what that left. *)
Lemma attempts_spec now max_attempts n outcomes db storable bad db' e k :
  attempts now max_attempts n outcomes db storable (latest_per_device storable) bad = Some (db', e, k) →
  ∃ tried o rest, outcomes = tried ++ o :: rest ∧ k = (n + S (length tried))%nat ∧
    db' = (if existsb took_effect (tried ++ [o]) then batch_db now db storable else db) ∧
    match o with
    | Commits =>
        e = if existsb took_effect tried then Applied (mkResult [] [] (Z.of_nat (length storable)) bad)
            else finished storable bad (apply_once now db storable (latest_per_device storable)).2
    | CommitsUnanswered s | Aborts s => e = DBAPIError s ∧ should_retry s k max_attempts = false
    end.
Proof.
  revert n db. induction outcomes as [|o outcomes IH]; intros n db; [done|].
  assert (Hrest : ∀ s db1, took_effect o = true ∧ db1 = batch_db now db storable ∨ took_effect o = false ∧ db1 = db →
    o = CommitsUnanswered s ∨ o = Aborts s →
    (if should_retry s (S n) max_attempts
     then attempts now max_attempts (S n) outcomes db1 storable (latest_per_device storable) bad
     else Some (db1, DBAPIError s, S n)) = Some (db', e, k) →
    ∃ tried o' rest, o :: outcomes = tried ++ o' :: rest ∧ k = (n + S (length tried))%nat ∧
      db' = (if existsb took_effect (tried ++ [o']) then batch_db now db storable else db) ∧
      match o' with
      | Commits =>
          e = if existsb took_effect tried then Applied (mkResult [] [] (Z.of_nat (length storable)) bad)
              else finished storable bad (apply_once now db storable (latest_per_device storable)).2
      | CommitsUnanswered s | Aborts s => e = DBAPIError s ∧ should_retry s k max_attempts = false
      end).
  { intros s db1 Hdb1 Ho. destruct (should_retry s (S n) max_attempts) eqn:Er.
    - intros (tried & o' & rest & -> & -> & -> & He)%IH. exists (o :: tried), o', rest.
      split; [done|]. split; [cbn; lia|]. cbn [app existsb]. destruct Hdb1 as [[Ht ->]|[Ht ->]]; rewrite Ht; cbn [orb].
      + split.
        { destruct (existsb took_effect (tried ++ [o'])); [|done]. exact (f_equal fst (batch_again now db storable)). }
        destruct o'; [|by replace (n + S (length (o :: tried)))%nat with (S n + S (length tried))%nat by (cbn; lia)..].
        rewrite He. rewrite batch_again. cbn. rewrite Z.sub_0_r. by destruct (existsb _ tried).
      + split; [done|]. destruct o'; [done|by replace (n + S (length (o :: tried)))%nat with (S n + S (length tried))%nat by (cbn; lia)..].
    - intros [= <- <- <-]. exists [], o, outcomes. split; [done|]. split; [cbn; lia|]. cbn [app existsb].
      rewrite orb_false_r. split; [by destruct Hdb1 as [[-> ->]|[-> ->]]|].
      by destruct Ho as [->| ->]. }
  destruct o as [|s|s]; cbn -[should_retry Batch.apply_once]; [|apply Hrest; auto..].
  unfold Batch.batch_db in *. destruct (apply_once _ _ _ _) as [d1 r] eqn:E. intros [= <- <- <-].
  exists [], Commits, outcomes. split; [done|]. split; [cbn; lia|]. done.
Qed.
End retries.

(** ** Properties *)

(** C8: the set-based upsert of a deduplicated batch stores exactly what upserting
    every report one after the other would: for each device the newest report, the
    first of equals, and never an older one over a newer one. *)
Theorem batch_newest_wins st_dwithin search_overlaps now db storable :
  device_positions (batch_db st_dwithin search_overlaps now db storable)
  = foldl (upsert_report now) (device_positions db) storable.
Proof. rewrite batch_db_positions. apply positions_newest. Qed.

(** the presence table is exact. If a zone's presence rows are precisely the
    devices stored inside it, they still are after any batch, provided the stored
    search polygon contains every point within the radius. *)
Lemma presence_stays_exact st_dwithin search_overlaps now db storable zid z :
  (∀ c r p, st_dwithin c p r = true → search_overlaps c r p = true) →
  geozones db !! zid = Some z →
  let exact db' := ∀ d, is_Some (zone_presence db' !! (zid, d)) ↔
    ∃ dp, device_positions db' !! d = Some dp ∧ st_dwithin (center z) (position dp) (radius_m z) = true in
  exact db → exact (batch_db st_dwithin search_overlaps now db storable).
Proof.
  intros Hsearch Hz exact Hex d. rewrite batch_db_presence, batch_db_positions.
  assert (Hin : ∀ p, inside st_dwithin search_overlaps z p = st_dwithin (center z) p (radius_m z)).
  { intros p. unfold inside. destruct (st_dwithin _ _ _) eqn:E; [by rewrite Hsearch|by rewrite andb_false_r]. }
  destruct (positions_after now db (latest_per_device storable) !! d) as [dp|] eqn:Edp.
  - destruct (stored_row _ _ _ _ _ Edp) as [[Hold Hna]|(Hnew & a & Ha & <- & Hpos & Hrep)].
    + rewrite find_transition_none by done. rewrite (Hex d), Hold. naive_solver.
    + rewrite (find_transition _ _ _ _ _ z) by (done || apply accepted_latest).
      unfold transition_of. rewrite Hin.
      destruct (st_dwithin (center z) (acc_position a) (radius_m z)) eqn:Ein; rewrite Hpos in Ein.
      * destruct (zone_presence db !! _); cbn; rewrite decide_False by done;
          (split; [|by eauto]); intros _; exists dp; split; congruence.
      * destruct (zone_presence db !! _) as [p|] eqn:Ep; cbn;
          rewrite ?decide_True, ?Ep by done; (split; [by intros []|]);
          intros (dp' & [= <-] & ?); congruence.
  - assert (Hnone : device_positions db !! d = None ∧ d ∉ acc_device <$> accepted db (latest_per_device storable)).
    { unfold positions_after in Edp.
      rewrite inserts_lookup in Edp by apply NoDup_key_filter, latest_NoDup.
      destruct (find_key _ _ _) eqn:Ef; [done|]. split; [done|]. apply find_key_None in Ef.
      unfold accepted. by rewrite <- list_fmap_compose. }
    destruct Hnone as [Hpn Hna]. rewrite find_transition_none by done. rewrite (Hex d), Hpn. naive_solver.
Qed.


(** C5: delivery is at least once, effects are exactly once. Replaying any selection
    of the reports of a committed batch, in any grouping and after any number of
    later batches, changes nothing and raises no alert. *)
Theorem replay_is_noop st_dwithin search_overlaps now db storable later replayed now' :
  replayed ⊆ storable →
  let db1 := batch_db st_dwithin search_overlaps now db storable in
  let db2 := foldl (λ db' b, batch_db st_dwithin search_overlaps b.1 db' b.2) db1 later in
  apply_once st_dwithin search_overlaps now' db2 replayed (latest_per_device replayed)
  = (db2, Ok ([], [])).
Proof.
  intros Hsub db1 db2. apply covered_noop. apply Forall_forall. intros r Hr%Hsub.
  pose proof (batch_covers st_dwithin search_overlaps now db storable) as Hc.
  rewrite Forall_forall in Hc. specialize (Hc r Hr). fold db1 in Hc. unfold db2. clear db2.
  induction later as [|b later IH] using rev_ind; [done|].
  rewrite foldl_snoc. by apply batch_keeps_covered.
Qed.

(** every report of a batch is either stored or handed back with its reason and
    its place in the batch, so that its stream entry can be found. *)
Lemma split_partitions now_ms retention_days skew_s records :
  let oldest := now_ms - retention_days * 86400 * 1000 in
  let newest := now_ms + skew_s * 1000 in
  let '(storable, bad) := split_storable now_ms retention_days skew_s records in
  storable = filter (λ r, unstorable_reason r oldest newest = None) records ∧
  ∀ rj, rj ∈ bad ↔ records !! index rj = Some (record rj) ∧
                   unstorable_reason (record rj) oldest newest = Some (reason rj).
Proof.
  cbn zeta. unfold split_storable.
  destruct (split_loop_spec (now_ms - retention_days * 86400 * 1000) (now_ms + skew_s * 1000) 0 records)
    as [H1 H2]. destruct (split_loop _ _ _ _) as [ok bad]. cbn in *. split; [done|].
  intros rj. rewrite H2. split; [by intros (j & -> & ?)|]. intros. by exists (index rj).
Qed.

(** C21: a batch always ends, within its attempts, and is all or nothing, also when the
    answer of a commit is lost. The database is as it was when no attempt committed, and
    as one committed attempt leaves it otherwise, however many committed; a driver error
    is reported only when it is not worth repeating or the attempts are used up (and may
    hide a commit); and the batch reports what it changed, or nothing when an attempt
    before had already committed. *)
Theorem apply_ends st_dwithin search_overlaps now now_ms retention_days skew_s max_attempts outcomes db records :
  (1 ≤ max_attempts ≤ length outcomes)%nat →
  let '(storable, bad) := split_storable now_ms retention_days skew_s records in
  let committed := apply_once st_dwithin search_overlaps now db storable (latest_per_device storable) in
  ∃ db' e k, apply st_dwithin search_overlaps now now_ms retention_days skew_s max_attempts outcomes db records
             = Some (db', e, k) ∧ (k ≤ max_attempts)%nat ∧
    (storable = [] ∧ db' = db ∧ e = Applied (mkResult [] [] 0 bad) ∨
     ∃ tried o rest, outcomes = tried ++ o :: rest ∧ k = S (length tried) ∧
       db' = (if existsb took_effect (tried ++ [o]) then committed.1 else db) ∧
       match o with
       | Commits =>
           e = if existsb took_effect tried then Applied (mkResult [] [] (Z.of_nat (length storable)) bad)
               else finished storable bad committed.2
       | CommitsUnanswered s | Aborts s => e = DBAPIError s ∧ should_retry s k max_attempts = false
       end).
Proof.
  intros Hm. unfold apply. destruct (split_storable _ _ _ _) as [ok bad].
  destruct ok as [|r ok]; [eexists _, _, _; split; [done|]; split; [lia|]; by left|].
  destruct (attempts_end st_dwithin search_overlaps now max_attempts 0 outcomes db (r :: ok)
              (latest_per_device (r :: ok)) bad) as (db' & e & k & Ha & Hk); [lia..|].
  exists db', e, k. split; [done|]. split; [lia|]. right. exact (attempts_spec _ _ _ _ _ _ _ _ _ _ _ _ Ha).
Qed.

(** ** A zone at Kyiv and a van that drives into it *)
Module BatchSamples.
Definition dwithin (c p : Point) (r : float64) : bool := bool_decide (c = p).
Definition overlaps (c : Point) (r : float64) (p : Point) : bool := bool_decide (c = p).
Definition zone : Geozone :=
  mkZone 9 "depot" "#3fb1ff" (flit 50, flit 30) (flit 100) true true (Some 60) 1 0 0.
(** Every statement finds that others drew numbers in between. *)
Definition identities : IdentitySequence := mkIdentity (λ n i, Z.of_nat (1 + 1000 * n + 2 * i)) 0.
Lemma identities_increase : increasing identities.
Proof. intros n i j Hij. cbn [drawn identities]. lia. Qed.
Definition db : Db := mkDb {[1 := zone]} ∅ ∅ [] identities ∅.
Definition early : LocationRecord := mkRecord "van-7" (flit 40) (flit 20) 1699999999000 1700000000250.
Definition bad : LocationRecord := mkRecord "no spaces" (flit 40) (flit 20) 1699999999000 1700000000250.
Definition batch : list LocationRecord := [Samples.report; early].
Definition after : Db := batch_db dwithin overlaps 1700000001000000 db batch.
End BatchSamples.

Lemma presence_stays_exact_witness :
  zone_presence BatchSamples.after !! (1, "van-7")
    = Some (mkPresence 1700000000000000 1700000000000000 1700000000000000) ∧
  ∀ d, is_Some (zone_presence BatchSamples.after !! (1, d)) ↔
    ∃ dp, device_positions BatchSamples.after !! d = Some dp ∧
          BatchSamples.dwithin (center BatchSamples.zone) (position dp) (radius_m BatchSamples.zone) = true.
Proof.
  split; [vm_compute; reflexivity|].
  apply (presence_stays_exact BatchSamples.dwithin BatchSamples.overlaps 1700000001000000
           BatchSamples.db BatchSamples.batch 1 BatchSamples.zone); [done|reflexivity|].
  intros d. cbn. rewrite !lookup_empty. split; [by intros []|by intros (? & [=] & _)].
Defined.

Lemma replay_is_noop_witness :
  [BatchSamples.early] ⊆ BatchSamples.batch ∧
  apply_once BatchSamples.dwithin BatchSamples.overlaps 1700000009000000 BatchSamples.after
    [BatchSamples.early] (latest_per_device [BatchSamples.early])
  = (BatchSamples.after, Ok ([], [])).
Proof.
  assert (Hsub : [BatchSamples.early] ⊆ BatchSamples.batch) by (unfold BatchSamples.batch; set_solver).
  split; [exact Hsub|].
  apply (replay_is_noop BatchSamples.dwithin BatchSamples.overlaps 1700000001000000 BatchSamples.db
           BatchSamples.batch [] [BatchSamples.early] 1700000009000000 Hsub).
Defined.


(** The second attempt commits and its answer is lost; the error is the third's. *)
Lemma apply_ends_witness :
  ∃ db' e k, apply BatchSamples.dwithin BatchSamples.overlaps 1700000001000000 1700000001000 30 60 5
               [Aborts (Some "40001"); CommitsUnanswered (Some "40001"); Aborts None; Commits; Commits] BatchSamples.db
               (BatchSamples.bad :: BatchSamples.batch) = Some (db', e, k) ∧ (k ≤ 5)%nat.
Proof.
  destruct (apply_ends BatchSamples.dwithin BatchSamples.overlaps 1700000001000000 1700000001000 30 60 5
              [Aborts (Some "40001"); CommitsUnanswered (Some "40001"); Aborts None; Commits; Commits] BatchSamples.db
              (BatchSamples.bad :: BatchSamples.batch) ltac:(cbn; lia)) as (db' & e & k & E & Hk & _).
  exists db', e, k. split; [exact E|exact Hk].
Defined.
