(* ===== verification/Devicewise.v ===== *)
(** * A batch acts device by device
    (facts of [Batch] used where batches of several shards meet)

    What [APPLY_BATCH_SQL] and [INSERT_HISTORY_SQL] do for a device depends on that
    device's rows and on the zones alone, and they leave the rows of other devices as
    they are. Databases are compared up to the identities of their alerts. *)
From stdpp Require Import sorting.
From S2P Require Import Prelude Floats Clock Text Json Codec Batch.

(** An alert without its identity. *)
Definition blank_id (al : AlertRow) : AlertRow :=
  mkAlert 0 (alert_user al) (alert_zone al) (alert_zone_name al) (alert_device al)
    (alert_kind al) (alert_position al) (occurred_at al) (created_at al).

(** The rows of one device, and the zones, are the same. *)
Definition same_device (d : string) (a b : Db) : Prop :=
  device_positions a !! d = device_positions b !! d ∧
  (∀ zid, zone_presence a !! (zid, d) = zone_presence b !! (zid, d)) ∧
  (∀ t, location_history a !! (d, t) = location_history b !! (d, t)).

(** Every row of every table, up to the identities of alerts and their sequence. *)
#[export] Instance db_equiv : Equiv Db := λ a b,
  geozones a = geozones b ∧ (∀ d, same_device d a b) ∧ blank_id <$> alerts a = blank_id <$> alerts b.

#[export] Instance db_equivalence : Equivalence (≡@{Db}).
Proof.
  split.
  - done.
  - intros a b (Hg & Hd & Ha). split_and!; [done| |done]. intros d. specialize (Hd d) as (? & ? & ?). done.
  - intros a b c (Hg & Hd & Ha) (Hg' & Hd' & Ha'). split_and!; [congruence| |congruence].
    intros d. specialize (Hd d) as (H1 & H2 & H3). specialize (Hd' d) as (H1' & H2' & H3').
    split_and!; [congruence|intros zid; by rewrite H2|intros t; by rewrite H3].
Qed.

Lemma same_device_sym d a b : same_device d a b → same_device d b a.
Proof. by intros (? & ? & ?). Qed.
Lemma same_device_trans d a b c : same_device d a b → same_device d b c → same_device d a c.
Proof.
  intros (H1 & H2 & H3) (H1' & H2' & H3').
  split_and!; [congruence|intros zid; by rewrite H2|intros t; by rewrite H3].
Qed.

Lemma db_equiv_maps a b :
  (∀ d, same_device d a b) →
  device_positions a = device_positions b ∧ zone_presence a = zone_presence b ∧
  location_history a = location_history b.
Proof.
  intros H. split_and!; apply map_eq.
  - intros d. apply (H d).
  - intros [zid d]. apply (H d).
  - intros [d t]. apply (H d).
Qed.

(** The devices a batch has reports of. *)
Definition devices_of (records : list LocationRecord) : list string := device_id <$> records.

Lemma latest_devices records r : r ∈ latest_per_device records → device_id r ∈ devices_of records.
Proof. intros Hr%latest_subset. by apply list_elem_of_fmap_2. Qed.

(** ** The order of a batch's alerts does not depend on the order of its rows *)

Lemma string_compare_trans s t v :
  String.compare s t ≠ Gt → String.compare t v ≠ Gt → String.compare s v ≠ Gt.
Proof.
  revert t v. induction s as [|a s IH]; intros [|b t] [|c v]; cbn; try done.
  change (a ?= b)%char with (N.compare (N_of_ascii a) (N_of_ascii b)).
  change (b ?= c)%char with (N.compare (N_of_ascii b) (N_of_ascii c)).
  change (a ?= c)%char with (N.compare (N_of_ascii a) (N_of_ascii c)).
  destruct (N.compare_spec (N_of_ascii a) (N_of_ascii b)),
    (N.compare_spec (N_of_ascii b) (N_of_ascii c)),
    (N.compare_spec (N_of_ascii a) (N_of_ascii c)); try done; try lia.
  apply IH.
Qed.
Lemma string_leb_trans s t v : String.leb s t = true → String.leb t v = true → String.leb s v = true.
Proof.
  unfold String.leb. pose proof (string_compare_trans s t v) as H.
  destruct (String.compare s t), (String.compare t v), (String.compare s v); try done;
    by destruct H.
Qed.

#[local] Instance alert_le_trans : Transitive alert_le.
Proof.
  intros s t u [?|[? [?|[? ?]]]] [?|[? [?|[? ?]]]]; unfold alert_le; try lia.
  right. split; [lia|]. right. split; [lia|]. by eapply string_leb_trans.
Qed.
Lemma alert_le_key s t : alert_le s t → alert_le t s → tr_key s = tr_key t.
Proof.
  intros [?|[? [?|[? ?]]]] [?|[? [?|[? ?]]]]; try lia. unfold tr_key. f_equal; [done|].
  by apply String.leb_antisym.
Qed.

Lemma sort_unique (l l' : list Transition) :
  NoDup (tr_key <$> l) → l ≡ₚ l' → merge_sort alert_le l = merge_sort alert_le l'.
Proof.
  intros Hnd Hp. apply (StronglySorted_unique_strong alert_le).
  - intros s t. rewrite !merge_sort_Permutation, <- Hp. intros Hs Ht Hst Hts.
    pose proof (find_key_elem tr_key l s Hnd Hs). pose proof (find_key_elem tr_key l t Hnd Ht).
    pose proof (alert_le_key s t Hst Hts). congruence.
  - apply Sorted_StronglySorted; [apply _|]. apply Sorted_merge_sort, _.
  - apply Sorted_StronglySorted; [apply _|]. apply Sorted_merge_sort, _.
  - by rewrite !merge_sort_Permutation.
Qed.

Lemma blank_number now id id' ts :
  blank_id <$> number_alerts now id ts = blank_id <$> number_alerts now id' ts.
Proof.
  revert id id'. induction ts as [|t ts IH]; intros id id'; [done|]. cbn.
  destruct (event_kind t); [|done]. cbn. f_equal. apply IH.
Qed.

(** ** One device at a time *)

Section devicewise.
Variable st_dwithin : Point → Point → float64 → bool.
Variable search_overlaps : Point → float64 → Point → bool.
Local Notation transitions := (transitions st_dwithin search_overlaps).
Local Notation batch_db := (batch_db st_dwithin search_overlaps).
Local Notation batch_alerts := (batch_alerts st_dwithin search_overlaps).
Local Notation apply_batch_sql := (apply_batch_sql st_dwithin search_overlaps).

Definition same_devices (records : list LocationRecord) (a b : Db) : Prop :=
  geozones a = geozones b ∧ ∀ d, d ∈ devices_of records → same_device d a b.

Lemma newer_same a b r : same_device (device_id r) a b → newer a r = newer b r.
Proof. intros (Hp & _). unfold newer. by rewrite Hp. Qed.

Lemma accepted_same a b records :
  same_devices records a b →
  filter (λ r, newer a r = true) (latest_per_device records)
  = filter (λ r, newer b r = true) (latest_per_device records).
Proof.
  intros [_ Hd]. apply filter_ext_in. intros r Hr%latest_devices. by rewrite (newer_same a b r) by auto.
Qed.

Lemma accepted_devices a records row :
  row ∈ accepted a (latest_per_device records) → acc_device row ∈ devices_of records.
Proof. intros (r & Hr & _ & ->)%elem_accepted. by apply latest_devices. Qed.

Lemma transitions_same a b records :
  same_devices records a b →
  transitions a (accepted a (latest_per_device records))
  ≡ₚ transitions b (accepted b (latest_per_device records)).
Proof.
  intros Hs. assert (Hr : accepted a (latest_per_device records) = accepted b (latest_per_device records)).
  { unfold accepted. by rewrite (accepted_same a b). }
  apply NoDup_Permutation.
  - eapply NoDup_fmap_1, transitions_NoDup, accepted_latest.
  - eapply NoDup_fmap_1, transitions_NoDup, accepted_latest.
  - intros t. rewrite !elem_transitions, Hr. destruct Hs as [Hg Hd].
    assert (He : ∀ row zid z, row ∈ accepted b (latest_per_device records) →
      transition_of st_dwithin search_overlaps a row zid z = transition_of st_dwithin search_overlaps b row zid z).
    { intros row zid z Hrow%accepted_devices. destruct (Hd _ Hrow) as (_ & Hz & _).
      unfold transition_of. by rewrite Hz. }
    rewrite Hg. split; intros (row & zid & z & Hrow & Hz & Ht); exists row, zid, z;
      (split_and!; [done..|]); [rewrite <- He|rewrite He]; done.
Qed.

Lemma find_key_perm {A K} `{EqDecision K} (key : A → K) (k : K) (l l' : list A) :
  NoDup (key <$> l) → l ≡ₚ l' → find_key key k l = find_key key k l'.
Proof.
  intros Hnd Hp. assert (Hnd' : NoDup (key <$> l')) by (by rewrite <- Hp).
  destruct (find_key key k l') as [x|] eqn:E.
  - apply find_key_Some in E as [Hx <-]. apply find_key_elem; [done|]. by rewrite Hp.
  - apply find_key_None. rewrite Hp. by apply find_key_None.
Qed.

(** *** The archive *)

Definition archive (m : gmap (string * Z) (Point * Z)) (r : LocationRecord) : gmap (string * Z) (Point * Z) :=
  let k := (device_id r, to_timestamp (reported_ms r)) in
  match m !! k with
  | Some _ => m
  | None => <[k := ((lat r, lon r), to_timestamp (received_ms r))]> m
  end.

Lemma insert_history_archive db records :
  location_history (insert_history db records) = foldl archive (location_history db) records.
Proof. done. Qed.

Lemma archive_same m m' records k :
  m !! k = m' !! k → foldl archive m records !! k = foldl archive m' records !! k.
Proof.
  revert m m'. induction records as [|r records IH]; intros m m' Hk; [done|]. cbn. apply IH.
  unfold archive. destruct (decide (k = (device_id r, to_timestamp (reported_ms r)))) as [->|Hne].
  - rewrite Hk. destruct (m' !! _) eqn:E; [congruence|]. by rewrite !lookup_insert_eq.
  - destruct (m !! (device_id r, _)), (m' !! (device_id r, _)); rewrite ?lookup_insert_ne by done; done.
Qed.

Lemma archive_other m records d t :
  d ∉ devices_of records → foldl archive m records !! (d, t) = m !! (d, t).
Proof.
  revert m. induction records as [|r records IH]; intros m Hd; [done|]. cbn in *.
  rewrite IH by set_solver. unfold archive.
  case_match; [done|]. apply lookup_insert_ne. set_solver.
Qed.

(** *** Whole batches *)

Lemma positions_other now a records d :
  d ∉ devices_of records →
  positions_after now a (latest_per_device records) !! d = device_positions a !! d.
Proof.
  intros Hd. unfold positions_after. rewrite inserts_lookup by apply NoDup_key_filter, latest_NoDup.
  destruct (find_key _ _ _) as [r|] eqn:E; [|done].
  apply find_key_Some in E as [[_ Hr%latest_devices]%list_elem_of_filter <-]. done.
Qed.

(** A batch does not touch the devices it has no report of. *)
Lemma batch_other now a records d :
  d ∉ devices_of records → same_device d (batch_db now a records) a.
Proof.
  intros Hd. split_and!.
  - rewrite batch_db_positions. by apply positions_other.
  - intros zid. rewrite batch_db_presence, find_transition_none; [done|].
    intros (row & -> & Hrow%accepted_devices)%list_elem_of_fmap. done.
  - intros t. apply (archive_other (location_history a)). done.
Qed.

(** What it does to a device depends on the rows of its own devices. *)
Lemma batch_same now a b records d :
  same_devices records a b → d ∈ devices_of records →
  same_device d (batch_db now a records) (batch_db now b records).
Proof.
  intros Hs Hd. pose proof (transitions_same a b records Hs) as Ht.
  pose proof (accepted_same a b records Hs) as Ha. destruct Hs as [Hg Hs].
  destruct (Hs d Hd) as (Hp & Hz & Hh). split_and!.
  - rewrite !batch_db_positions. unfold positions_after. rewrite Ha.
    rewrite !inserts_lookup by apply NoDup_key_filter, latest_NoDup. by rewrite Hp.
  - intros zid. rewrite !batch_db_presence, Hz.
    rewrite (find_key_perm _ _ _ _ (transitions_NoDup _ _ _ _ (accepted_latest _ _)) Ht). done.
  - intros t. apply (archive_same (location_history a) (location_history b)), Hh.
Qed.

Lemma batch_alerts_same now a b records :
  same_devices records a b →
  blank_id <$> batch_alerts now a records = blank_id <$> batch_alerts now b records.
Proof.
  intros Hs. pose proof (transitions_same a b records Hs) as Ht.
  unfold batch_alerts. cbn. unfold new_alerts.
  change (transitions (insert_history a records)) with (transitions a).
  change (transitions (insert_history b records)) with (transitions b).
  change (accepted (insert_history a records)) with (accepted a).
  change (accepted (insert_history b records)) with (accepted b).
  rewrite (sort_unique (filter _ (transitions a _))
             (filter (λ t, event_kind t ≠ None) (transitions b (accepted b (latest_per_device records))))).
  - apply blank_number.
  - apply NoDup_key_filter, transitions_NoDup, accepted_latest.
  - by rewrite Ht.
Qed.

Lemma batch_db_alerts now a records :
  alerts (batch_db now a records) = alerts a ++ batch_alerts now a records.
Proof. done. Qed.

Lemma batch_rows_same a b records :
  same_devices records a b →
  accepted a (latest_per_device records) = accepted b (latest_per_device records).
Proof. intros Hs. unfold accepted. by rewrite (accepted_same a b). Qed.

Lemma equiv_same_devices records a b : a ≡ b → same_devices records a b.
Proof. intros (Hg & Hd & _). split; auto. Qed.

#[export] Instance batch_db_proper now : Proper ((≡) ==> (=) ==> (≡)) (batch_db now).
Proof.
  intros a b Hab records _ <-. pose proof (equiv_same_devices records a b Hab) as Hs. split_and!.
  - apply Hab.
  - intros d. destruct (decide (d ∈ devices_of records)); [by apply batch_same|].
    eapply same_device_trans; [by apply batch_other|]. eapply same_device_trans; [apply Hab|].
    by apply same_device_sym, batch_other.
  - rewrite !batch_db_alerts, !fmap_app. f_equal; [apply Hab|by apply batch_alerts_same].
Qed.
End devicewise.
