(* ===== verification/Locks.v ===== *)
(** * Batches of every shard on one database, statement by statement
    ([take_shard_lock], [_apply_once] and the retry loop of
    src/geotrack/processor/batch.py)

    [Batch.apply] runs a batch on the database as if it were alone. Here any number of
    [BatchProcessor.apply] calls, for the same shard or for different ones, run at once:
    each is a transaction of five statements, every statement sees what is committed when
    it starts and what its own transaction wrote (READ COMMITTED), a commit writes the
    changed rows over whatever is committed by then, identities of alerts are taken from
    the sequence at once and for good, and any statement may fail. The shard lock makes
    the result the same as one batch after the other. *)
From stdpp Require Import sorting relations.
From S2P Require Import Prelude Floats Clock Text Json Keys Codec Batch Devicewise.

(** ** Budgets *)

Definition LOCK_NOT_AVAILABLE : string := "55P03".
(** PostgreSQL's [query_canceled], what [statement_timeout] raises. *)
Definition QUERY_CANCELED : string := "57014".
Definition LOCK_WAIT_STATEMENTS : Z := 3.

(** [lock_wait_ms or LOCK_WAIT_STATEMENTS * statement_ms]. *)
Definition lock_wait (lock_wait_ms : option Z) (statement_ms : Z) : Z :=
  match lock_wait_ms with
  | Some w => if decide (w = 0) then LOCK_WAIT_STATEMENTS * statement_ms else w
  | None => LOCK_WAIT_STATEMENTS * statement_ms
  end.

(** The two settings a transaction may change for itself, in milliseconds; 0 is no limit.
    [pooled] is what the engine gives every connection. *)
Record TxSettings := mkTx { lock_timeout : Z; statement_timeout : Z }.
Definition pooled (statement_ms : Z) : TxSettings := mkTx 0 statement_ms.
Definition BEGIN_LOCK_WAIT (wait : Z) (g : TxSettings) : TxSettings := mkTx wait 0.
Definition END_LOCK_WAIT (statement : Z) (g : TxSettings) : TxSettings := mkTx (lock_timeout g) statement.

(** A statement fails with these codes only under the setting that raises them. *)
Definition may_fail (g : TxSettings) (sqlstate : option string) : Prop :=
  (sqlstate = Some LOCK_NOT_AVAILABLE → lock_timeout g ≠ 0) ∧
  (sqlstate = Some QUERY_CANCELED → statement_timeout g ≠ 0).

(** ** What a transaction has written *)

#[export] Instance DevicePosition_eq_dec : EqDecision DevicePosition.
Proof. solve_decision. Defined.
#[export] Instance ZonePresence_eq_dec : EqDecision ZonePresence.
Proof. solve_decision. Defined.

Section rows.
Context {K A : Type} `{Countable K} `{EqDecision A}.

(** The rows in which [mine] differs from [base]; [Some None] is a deleted row. *)
Definition changed_rows (base mine : gmap K A) : gmap K (option A) :=
  merge (λ b m, if decide (b = m) then None else Some m) base mine.
(** Those rows written over a table. *)
Definition write_rows (w : gmap K (option A)) (t : gmap K A) : gmap K A :=
  merge (λ o a, match o with Some m => m | None => a end) w t.

Lemma changed_rows_lookup base mine k :
  changed_rows base mine !! k = if decide (base !! k = mine !! k) then None else Some (mine !! k).
Proof. unfold changed_rows. rewrite lookup_merge. by destruct (base !! k), (mine !! k). Qed.
Lemma write_rows_lookup w t k :
  write_rows w t !! k = match w !! k with Some m => m | None => t !! k end.
Proof. unfold write_rows. rewrite lookup_merge. by destruct (w !! k), (t !! k). Qed.
Lemma write_changed base mine : write_rows (changed_rows base mine) base = mine.
Proof.
  apply map_eq. intros k. rewrite write_rows_lookup, changed_rows_lookup. by case_decide.
Qed.
End rows.
#[global] Arguments changed_rows : simpl never.
#[global] Arguments write_rows : simpl never.

Record WriteSet := mkWrites {
  w_positions : gmap string (option DevicePosition);
  w_presence : gmap (Z * string) (option ZonePresence);
  w_history : gmap (string * Z) (option (Point * Z));
  w_alerts : list AlertRow }.

(** What a transaction that turned [base] into [mine] has written. *)
Definition writes (base mine : Db) : WriteSet :=
  mkWrites (changed_rows (device_positions base) (device_positions mine))
    (changed_rows (zone_presence base) (zone_presence mine))
    (changed_rows (location_history base) (location_history mine))
    (drop (length (alerts base)) (alerts mine)).

(** The database a transaction with these writes sees, and leaves when it commits. *)
Definition see (w : WriteSet) (db : Db) : Db :=
  mkDb (geozones db) (write_rows (w_positions w) (device_positions db))
    (write_rows (w_presence w) (zone_presence db)) (alerts db ++ w_alerts w) (alerts_identity db)
    (write_rows (w_history w) (location_history db)).

(** A sequence is not transactional. *)
Definition with_identity (id : IdentitySequence) (db : Db) : Db :=
  mkDb (geozones db) (device_positions db) (zone_presence db) (alerts db) id (location_history db).

(** ** The calls in progress *)

Inductive Stage :=
  | Waiting                   (* before the first attempt, or asleep before another *)
  | Begun
  | Armed                     (* BEGIN_LOCK_WAIT_SQL done, LOCK_SHARD_SQL sent *)
  | Locked
  | Ready                     (* END_LOCK_WAIT_SQL done *)
  | Archived (w : WriteSet)   (* INSERT_HISTORY_SQL done *)
  | Written (w : WriteSet) (rows : list AcceptedRow) (als : list AlertRow)
  | Ended (e : ApplyEnd).

Definition holds_lock (s : Stage) : bool :=
  match s with Locked | Ready | Archived _ | Written _ _ _ => true | _ => false end.
Definition in_transaction (s : Stage) : bool :=
  match s with Waiting | Ended _ => false | _ => true end.

(** One [apply] call; [called_ms] is the replica's clock when it was made, [clock] the
    [now()] of the current transaction, [outcomes] how its transactions ended so far. *)
Record Call := mkCall {
  call_shard : Z; call_records : list LocationRecord; called_ms : Z;
  clock : Z; settings : TxSettings; attempt : nat; outcomes : list TxOutcome; stage : Stage }.

(** Kept for the statements only: who committed what, in which order. *)
Record Commit := mkCommit { committed_by : nat; commit_clock : Z; committed : list LocationRecord }.

(** A transaction that ends gives back what it held. *)
Definition released (c : Call) (l : gmap Z nat) : gmap Z nat :=
  if holds_lock (stage c) then delete (call_shard c) l else l.

Record World := mkWorld {
  db : Db; locks : gmap Z nat; calls : gmap nat Call; commits : list Commit }.

Section system.
Variable st_dwithin : Point → Point → float64 → bool.
Variable search_overlaps : Point → float64 → Point → bool.
(** The settings of the replicas: INGEST_SHARDS, the retention and the allowed skew,
    the attempts, the wait for the lock and the statement timeout. *)
Variable shards retention_days skew_s : Z.
Variable max_attempts : nat.
Variable wait statement_ms : Z.
Local Notation apply := (apply st_dwithin search_overlaps).
Local Notation attempts := (attempts st_dwithin search_overlaps).
Local Notation apply_batch_sql := (apply_batch_sql st_dwithin search_overlaps).
Local Notation batch_db := (batch_db st_dwithin search_overlaps).
Local Notation batch_alerts := (batch_alerts st_dwithin search_overlaps).

Definition storable_of (c : Call) : list LocationRecord :=
  (split_storable (called_ms c) retention_days skew_s (call_records c)).1.
Definition rejected_of (c : Call) : list RejectedRecord :=
  (split_storable (called_ms c) retention_days skew_s (call_records c)).2.

(** A call enters [apply]: with nothing to store it returns at once. *)
Definition entered (shard : Z) (records : list LocationRecord) (now_ms : Z) : Call :=
  let '(storable, bad) := split_storable now_ms retention_days skew_s records in
  mkCall shard records now_ms 0 (pooled statement_ms) 0 []
    (match storable with [] => Ended (Applied (mkResult [] [] 0 bad)) | _ => Waiting end).

Definition at_stage (s : Stage) (c : Call) : Call :=
  mkCall (call_shard c) (call_records c) (called_ms c) (clock c) (settings c) (attempt c) (outcomes c) s.
Definition under (g : TxSettings) (c : Call) : Call :=
  mkCall (call_shard c) (call_records c) (called_ms c) (clock c) g (attempt c) (outcomes c) (stage c).
Definition begun (now : Z) (c : Call) : Call :=
  mkCall (call_shard c) (call_records c) (called_ms c) now (pooled statement_ms) (attempt c) (outcomes c) Begun.

(** The except clause of the retry loop, whether the transaction was rolled back or
    committed unheard; its settings went with it. *)
Definition failed (committed : bool) (sqlstate : option string) (c : Call) : Call :=
  mkCall (call_shard c) (call_records c) (called_ms c) (clock c) (pooled statement_ms) (S (attempt c))
    (outcomes c ++ [if committed then CommitsUnanswered sqlstate else Aborts sqlstate])
    (if should_retry sqlstate (S (attempt c)) max_attempts then Waiting else Ended (DBAPIError sqlstate)).

(** After the commit: the rows become items, the counts the result. *)
Definition answer (c : Call) (rows : list AcceptedRow) (als : list AlertRow) : ApplyEnd :=
  match traverse item_of_row rows with
  | Ok items => Applied (mkResult items als
                  (Z.of_nat (length (storable_of c)) - Z.of_nat (length items)) (rejected_of c))
  | Raise e => Failed e
  end.
Definition succeeded (rows : list AcceptedRow) (als : list AlertRow) (c : Call) : Call :=
  mkCall (call_shard c) (call_records c) (called_ms c) (clock c) (pooled statement_ms) (S (attempt c))
    (outcomes c ++ [Commits]) (Ended (answer c rows als)).

Definition put (i : nat) (c : Call) (w : World) : World :=
  mkWorld (db w) (locks w) (<[i := c]> (calls w)) (commits w).
Definition drop_call (i : nat) (w : World) : World :=
  mkWorld (db w) (locks w) (delete i (calls w)) (commits w).
Definition unlock (c : Call) (w : World) : World :=
  mkWorld (db w) (released c (locks w)) (calls w) (commits w).
Definition commit (i : nat) (c : Call) (ws : WriteSet) (w : World) : World :=
  mkWorld (see ws (db w)) (released c (locks w)) (calls w)
    (commits w ++ [mkCommit i (clock c) (storable_of c)]).

Inductive step : World → World → Prop :=
  (* a batch of the shard's stream; a device's reports are in the stream of its shard *)
  | st_call w i shard records now_ms :
      calls w !! i = None →
      Forall (λ r, shard_for (device_id r) shards = Ok shard) records →
      step w (put i (entered shard records now_ms) w)
  | st_begin w i c now :
      calls w !! i = Some c → stage c = Waiting → step w (put i (begun now c) w)
  | st_arm w i c :
      calls w !! i = Some c → stage c = Begun →
      step w (put i (at_stage Armed (under (BEGIN_LOCK_WAIT wait (settings c)) c)) w)
  | st_lock w i c :
      calls w !! i = Some c → stage c = Armed → locks w !! call_shard c = None →
      step w (put i (at_stage Locked c)
                (mkWorld (db w) (<[call_shard c := i]> (locks w)) (calls w) (commits w)))
  | st_ready w i c :
      calls w !! i = Some c → stage c = Locked →
      step w (put i (at_stage Ready (under (END_LOCK_WAIT statement_ms (settings c)) c)) w)
  | st_archive w i c :
      calls w !! i = Some c → stage c = Ready →
      step w (put i (at_stage (Archived (writes (db w) (insert_history (db w) (storable_of c)))) c) w)
  | st_write w i c ws mine rows als :
      calls w !! i = Some c → stage c = Archived ws →
      apply_batch_sql (clock c) (see ws (db w)) (latest_per_device (storable_of c)) = (mine, rows, als) →
      step w (put i (at_stage (Written (writes (db w) mine) rows als) c)
                (mkWorld (with_identity (alerts_identity mine) (db w)) (locks w) (calls w) (commits w)))
  | st_commit w i c ws rows als :
      calls w !! i = Some c → stage c = Written ws rows als →
      step w (put i (succeeded rows als c) (commit i c ws w))
  (* a statement fails, or COMMIT does *)
  | st_fail w i c sqlstate :
      calls w !! i = Some c → in_transaction (stage c) = true → may_fail (settings c) sqlstate →
      step w (put i (failed false sqlstate c) (unlock c w))
  (* the answer of COMMIT is lost with the connection: not an error a server reports
     after it rolled back *)
  | st_commit_unanswered w i c ws rows als sqlstate :
      calls w !! i = Some c → stage c = Written ws rows als →
      (∀ s, sqlstate = Some s → s ∉ BATCH_RETRYABLE_SQLSTATES) →
      step w (put i (failed true sqlstate c) (commit i c ws w))
  (* the task is cancelled, the pool has no connection, or the replica dies: before its
     transaction committed, or after *)
  | st_gone w i c :
      calls w !! i = Some c →
      step w (drop_call i (unlock c w))
  | st_gone_committed w i c ws rows als :
      calls w !! i = Some c → stage c = Written ws rows als →
      step w (drop_call i (commit i c ws w)).

Definition start (d : Db) : World := mkWorld d ∅ ∅ [].
Definition reachable (d : Db) : World → Prop := rtc step (start d).

(** One after the other, in the order of the commits. *)
Definition run (d : Db) (c : Commit) : Db := batch_db (commit_clock c) d (committed c).
Definition in_turn (d : Db) (cs : list Commit) : Db := foldl run d cs.
End system.

(** ** Write sets *)

Section writes.
Variable st_dwithin : Point → Point → float64 → bool.
Variable search_overlaps : Point → float64 → Point → bool.
Local Notation batch_db := (batch_db st_dwithin search_overlaps).
Local Notation batch_alerts := (batch_alerts st_dwithin search_overlaps).
Local Notation apply_batch_sql := (apply_batch_sql st_dwithin search_overlaps).

(** A device of which nothing was written. *)
Definition untouched (d : string) (ws : WriteSet) : Prop :=
  w_positions ws !! d = None ∧ (∀ zid, w_presence ws !! (zid, d) = None) ∧
  (∀ t, w_history ws !! (d, t) = None).

Lemma see_untouched d ws db : untouched d ws → same_device d (see ws db) db.
Proof.
  intros (Hp & Hz & Hh). split_and!; [|intros zid|intros t]; cbn; rewrite write_rows_lookup;
    by rewrite ?Hp, ?Hz, ?Hh.
Qed.
Lemma see_same_device d ws a b : same_device d a b → same_device d (see ws a) (see ws b).
Proof.
  intros (Hp & Hz & Hh). split_and!; [|intros zid|intros t]; cbn; rewrite !write_rows_lookup;
    by rewrite ?Hp, ?Hz, ?Hh.
Qed.
#[export] Instance see_proper ws : Proper ((≡) ==> (≡)) (see ws).
Proof.
  intros a b (Hg & Hd & Ha). split_and!; [done| |].
  - intros d. by apply see_same_device.
  - cbn. by rewrite !fmap_app, Ha.
Qed.

Lemma writes_untouched d base mine : same_device d mine base → untouched d (writes base mine).
Proof.
  intros (Hp & Hz & Hh). split_and!; [|intros zid|intros t]; cbn; rewrite changed_rows_lookup;
    by rewrite ?Hp, ?Hz, ?Hh, decide_True.
Qed.

Lemma see_writes base mine als :
  geozones mine = geozones base → alerts mine = alerts base ++ als →
  see (writes base mine) base = with_identity (alerts_identity base) mine ∧
  w_alerts (writes base mine) = als.
Proof.
  intros Hg Ha. assert (Hw : w_alerts (writes base mine) = als) by (cbn; by rewrite Ha, drop_app_length).
  split; [|done]. unfold see. rewrite Hw. cbn. rewrite !write_changed, <- Ha, <- Hg. by destruct mine.
Qed.

Lemma with_identity_equiv id db : with_identity id db ≡ db.
Proof. done. Qed.

(** The two statements of a batch in one: [batch_db]. *)
Lemma batch_db_statements now db records :
  apply_batch_sql now (insert_history db records) (latest_per_device records)
  = (batch_db now db records, accepted db (latest_per_device records), batch_alerts now db records).
Proof. done. Qed.

(** Writing what another shard's batch wrote first does not change a batch's effect. *)
Definition disjoint_from (records : list LocationRecord) (ws : WriteSet) : Prop :=
  ∀ d, d ∈ devices_of records → untouched d ws.
Definition only_touches (records : list LocationRecord) (ws : WriteSet) : Prop :=
  ∀ d, d ∉ devices_of records → untouched d ws.

Lemma see_same_devices records ws db : disjoint_from records ws → same_devices records (see ws db) db.
Proof. intros Hd. split; [done|]. intros d Hin. by apply see_untouched, Hd. Qed.

Lemma only_touches_disjoint records records' ws :
  only_touches records ws → (∀ d, d ∈ devices_of records' → d ∉ devices_of records) →
  disjoint_from records' ws.
Proof. intros Ho Hd d Hin. by apply Ho, Hd. Qed.

Lemma batch_db_commutes now db records ws ws' :
  only_touches records ws → disjoint_from records ws' →
  see ws db ≡ batch_db now db records →
  see ws (see ws' db) ≡ batch_db now (see ws' db) records.
Proof.
  intros Ho Hd (Hg & He & Ha). pose proof (see_same_devices records ws' db Hd) as Hs. split_and!.
  - done.
  - intros d. destruct (decide (d ∈ devices_of records)) as [Hin|Hin].
    + eapply same_device_trans; [apply see_same_device, Hs, Hin|].
      eapply same_device_trans; [apply He|]. by apply same_device_sym, batch_same.
    + eapply same_device_trans; [by apply see_untouched, Ho|]. by apply same_device_sym, batch_other.
  - rewrite batch_db_alerts, fmap_app, (batch_alerts_same _ _ now _ _ records Hs).
    rewrite batch_db_alerts in Ha. cbn [alerts see] in *. rewrite !fmap_app in *. apply (inj _) in Ha.
    by rewrite Ha.
Qed.

Lemma archive_commutes db records ws ws' :
  only_touches records ws → disjoint_from records ws' →
  see ws db = insert_history db records →
  see ws (see ws' db) = insert_history (see ws' db) records.
Proof.
  intros Ho Hd He.
  assert (Hmaps : ∀ d, same_device d (see ws (see ws' db)) (insert_history (see ws' db) records)).
  { assert (Hi : ∀ x d, device_positions (insert_history x records) !! d = device_positions x !! d
                     ∧ (∀ zid, zone_presence (insert_history x records) !! (zid, d) = zone_presence x !! (zid, d)))
      by done.
    intros d. destruct (decide (d ∈ devices_of records)) as [Hin|Hin].
    - pose proof (see_untouched d ws' db (Hd d Hin)) as Hs.
      eapply same_device_trans; [by apply see_same_device|]. rewrite He. destruct Hs as (Hp & Hz & Hh).
      split_and!; [done..|]. intros t. symmetry. by apply (archive_same (location_history (see ws' db))).
    - eapply same_device_trans; [by apply see_untouched, Ho|]. split_and!; [done..|].
      intros t. symmetry. by apply (archive_other (location_history (see ws' db))). }
  apply db_equiv_maps in Hmaps as (Hp & Hz & Hh).
  assert (Ha : w_alerts ws = []).
  { assert (E : alerts (see ws db) = alerts (insert_history db records)) by (by rewrite He).
    cbn in E. rewrite <- (app_nil_r (alerts db)) in E at 2. by apply (inj _) in E. }
  destruct (see ws (see ws' db)) eqn:E1, (insert_history (see ws' db) records) eqn:E2.
  unfold see in E1. unfold insert_history in E2. cbn in *. simplify_eq. rewrite Ha, app_nil_r. congruence.
Qed.
End writes.

(** ** The lock table *)

Definition locks_ok (l : gmap Z nat) (cs : gmap nat Call) : Prop :=
  ∀ s i, l !! s = Some i ↔ ∃ c, cs !! i = Some c ∧ call_shard c = s ∧ holds_lock (stage c) = true.

Lemma locks_put l cs i c c' :
  locks_ok l cs → cs !! i = Some c → call_shard c' = call_shard c →
  holds_lock (stage c') = holds_lock (stage c) → locks_ok l (<[i := c']> cs).
Proof.
  intros Hl Hc Hs Hh s j. rewrite (Hl s j). destruct (decide (i = j)) as [<-|Hij].
  - rewrite lookup_insert_eq. split; intros (x & Hx & <- & Hhx); simplify_eq; eexists; split; [done| |done|];
      split; congruence.
  - by rewrite lookup_insert_ne.
Qed.

Lemma locks_new l cs i c' :
  locks_ok l cs → cs !! i = None → holds_lock (stage c') = false → locks_ok l (<[i := c']> cs).
Proof.
  intros Hl Hc Hh s j. rewrite (Hl s j). destruct (decide (i = j)) as [<-|Hij].
  - rewrite lookup_insert_eq. split; intros (x & Hx & _ & Hhx); congruence.
  - by rewrite lookup_insert_ne.
Qed.

Lemma locks_take l cs i c c' :
  locks_ok l cs → cs !! i = Some c → holds_lock (stage c) = false → l !! call_shard c = None →
  call_shard c' = call_shard c → holds_lock (stage c') = true →
  locks_ok (<[call_shard c := i]> l) (<[i := c']> cs).
Proof.
  intros Hl Hc Hh Hn Hs Hh' s j. destruct (decide (call_shard c = s)) as [<-|Hne].
  - rewrite lookup_insert_eq. split.
    + intros [= <-]. exists c'. by rewrite lookup_insert_eq.
    + intros (x & Hx & Hsx & Hhx). destruct (decide (i = j)) as [<-|Hij]; [done|].
      rewrite lookup_insert_ne in Hx by done. pose proof (proj2 (Hl (call_shard c) j)) as E.
      rewrite Hn in E. discriminate E. eauto.
  - rewrite lookup_insert_ne, (Hl s j) by done. destruct (decide (i = j)) as [<-|Hij].
    + rewrite lookup_insert_eq. split; intros (x & Hx & Hsx & _); congruence.
    + by rewrite lookup_insert_ne.
Qed.

Lemma locks_gone l cs i c :
  locks_ok l cs → cs !! i = Some c → locks_ok (released c l) (delete i cs).
Proof.
  intros Hl Hc s j. unfold released. destruct (decide (i = j)) as [<-|Hij].
  - rewrite lookup_delete_eq. split; [|by intros (? & [=] & _)]. intros E. exfalso.
    destruct (holds_lock (stage c)) eqn:Eh.
    + apply lookup_delete_Some in E as [Hne (x & Hx & Hs & _)%Hl]. congruence.
    + apply Hl in E as (x & Hx & _ & Hhx). congruence.
  - rewrite lookup_delete_ne by done. destruct (holds_lock (stage c)) eqn:Eh; [|apply Hl].
    rewrite lookup_delete_Some, (Hl s j). split; [by intros [_ ?]|]. intros Hx. split; [|done]. intros <-.
    pose proof (proj2 (Hl (call_shard c) i)) as Ei. pose proof (proj2 (Hl (call_shard c) j) Hx) as Ej.
    rewrite Ej in Ei. specialize (Ei ltac:(by exists c)). congruence.
Qed.

Lemma locks_end l cs i c c' :
  locks_ok l cs → cs !! i = Some c → holds_lock (stage c') = false →
  locks_ok (released c l) (<[i := c']> cs).
Proof.
  intros Hl Hc Hh. rewrite <- insert_delete_eq. apply locks_new; [by apply locks_gone| |done].
  apply lookup_delete_eq.
Qed.

(** ** Every call is where the database and its own history say it is *)

(** The same answer, up to the identities of the alerts in it. *)
Definition end_equiv (e e' : ApplyEnd) : Prop :=
  match e, e' with
  | Applied r, Applied r' =>
      accepted_items r = accepted_items r' ∧
      blank_id <$> result_alerts r = blank_id <$> result_alerts r' ∧
      stale r = stale r' ∧ rejected r = rejected r'
  | _, _ => e = e'
  end.

Section serial.
Variable st_dwithin : Point → Point → float64 → bool.
Variable search_overlaps : Point → float64 → Point → bool.
Variable shards retention_days skew_s : Z.
Variable max_attempts : nat.
Variable wait statement_ms : Z.
Local Notation apply := (apply st_dwithin search_overlaps).
Local Notation attempts := (attempts st_dwithin search_overlaps).
Local Notation apply_batch_sql := (apply_batch_sql st_dwithin search_overlaps).
Local Notation batch_db := (batch_db st_dwithin search_overlaps).
Local Notation batch_alerts := (batch_alerts st_dwithin search_overlaps).
Local Notation storable_of := (storable_of retention_days skew_s).
Local Notation rejected_of := (rejected_of retention_days skew_s).
Local Notation step := (step st_dwithin search_overlaps shards retention_days skew_s max_attempts wait statement_ms).
Local Notation in_turn := (in_turn st_dwithin search_overlaps).

Definition progress (d : Db) (c : Call) : Prop :=
  match stage c with
  | Archived ws => only_touches (storable_of c) ws ∧ see ws d = insert_history d (storable_of c)
  | Written ws rows als =>
      only_touches (storable_of c) ws ∧ see ws d ≡ batch_db (clock c) d (storable_of c) ∧
      rows = accepted d (latest_per_device (storable_of c)) ∧ w_alerts ws = als
  | _ => True
  end.

(** The attempts made so far were all worth repeating. *)
Definition retried (c : Call) : Prop :=
  ∀ now d rest deduped, attempts now max_attempts 0 (outcomes c ++ rest) d (storable_of c) deduped (rejected_of c)
    = attempts now max_attempts (attempt c) rest d (storable_of c) deduped (rejected_of c).

(** An ended call answered what [Batch.apply] answers on the database at its turn: a
    prefix of the commits, followed by its own when it stored anything. *)
Definition answered (d0 : Db) (cs : list Commit) (i : nat) (c : Call) (e : ApplyEnd) : Prop :=
  ∃ before after d' e', cs = before ++ after ∧
    apply (clock c) (called_ms c) retention_days skew_s max_attempts (outcomes c)
      (in_turn d0 before) (call_records c) = Some (d', e', attempt c) ∧
    end_equiv e e' ∧
    match e with
    | DBAPIError _ => True
    | _ => storable_of c = [] ∨ ∃ rest, after = mkCommit i (clock c) (storable_of c) :: rest
    end.

Definition settings_ok (c : Call) : Prop :=
  settings c = match stage c with
               | Waiting | Begun | Ended _ => pooled statement_ms
               | Armed | Locked => mkTx wait 0
               | Ready | Archived _ | Written _ _ _ => mkTx wait statement_ms
               end.

Record call_ok (d0 d : Db) (cs : list Commit) (i : nat) (c : Call) : Prop := {
  ok_shard : Forall (λ r, shard_for (device_id r) shards = Ok (call_shard c)) (call_records c);
  ok_settings : settings_ok c;
  ok_progress : progress d c;
  ok_stage : match stage c with
             | Ended e => answered d0 cs i c e
             | _ => storable_of c ≠ [] ∧ retried c
             end }.

Record world_ok (d0 : Db) (w : World) : Prop := {
  ok_db : db w ≡ in_turn d0 (commits w);
  ok_locks : locks_ok (locks w) (calls w);
  ok_calls : ∀ i c, calls w !! i = Some c → call_ok d0 (db w) (commits w) i c }.

Lemma storable_records c r : r ∈ storable_of c → r ∈ call_records c.
Proof.
  unfold storable_of. pose proof (split_partitions (called_ms c) retention_days skew_s (call_records c)) as H.
  cbn zeta in H. destruct (split_storable _ _ _ _) as [ok bad]. destruct H as [-> _]. cbn.
  by intros [_ ?]%list_elem_of_filter.
Qed.

Lemma apply_stores now c outs d :
  storable_of c ≠ [] →
  apply now (called_ms c) retention_days skew_s max_attempts outs d (call_records c)
  = attempts now max_attempts 0 outs d (storable_of c) (latest_per_device (storable_of c)) (rejected_of c).
Proof.
  unfold apply, storable_of, rejected_of. destruct (split_storable _ _ _ _) as [[|r ok] bad]; done.
Qed.

Lemma answered_mono d0 cs l i c e : answered d0 cs i c e → answered d0 (cs ++ l) i c e.
Proof.
  intros (before & after & d' & e' & -> & Ha & He & Hm). exists before, (after ++ l), d', e'.
  split_and!; [by rewrite app_assoc|done..|]. destruct e; [|done|];
    (destruct Hm as [?|[rest ->]]; [by left|right; by exists (rest ++ l)]).
Qed.

(** *** Calls that do not take the step *)

Lemma call_ok_identity d0 d cs i c id : call_ok d0 d cs i c → call_ok d0 (with_identity id d) cs i c.
Proof.
  intros [Hs Hg Hp Ht]. split; [done..| |done]. unfold progress in *.
  destruct (stage c) as [| | | | |ws|ws rows als|e]; try done.
  - destruct Hp as [Ho He]. split; [done|].
    change (see ws (with_identity id d)) with (with_identity id (see ws d)). by rewrite He.
  - destruct Hp as (Ho & He & Hr & Ha). split_and!; [done| |done..].
    etransitivity; [by apply see_proper, with_identity_equiv|]. rewrite He.
    apply batch_db_proper; [|done]. symmetry. apply with_identity_equiv.
Qed.

Lemma other_devices c c' r :
  Forall (λ r, shard_for (device_id r) shards = Ok (call_shard c)) (call_records c) →
  Forall (λ r, shard_for (device_id r) shards = Ok (call_shard c')) (call_records c') →
  call_shard c ≠ call_shard c' →
  device_id r ∈ devices_of (storable_of c) → device_id r ∉ devices_of (storable_of c').
Proof.
  rewrite !Forall_forall. intros H H' Hne (x & Ex & Hx%storable_records)%list_elem_of_fmap
    (x' & Ex' & Hx'%storable_records)%list_elem_of_fmap.
  apply H in Hx. apply H' in Hx'. apply Hne. congruence.
Qed.

Lemma call_ok_commit d0 d cs i c c' ws k :
  call_ok d0 d cs i c →
  Forall (λ r, shard_for (device_id r) shards = Ok (call_shard c')) (call_records c') →
  only_touches (storable_of c') ws →
  (holds_lock (stage c) = true → call_shard c ≠ call_shard c') →
  call_ok d0 (see ws d) (cs ++ [k]) i c.
Proof.
  intros [Hs Hg Hp Ht] Hs' Ho Hne.
  assert (Hd : holds_lock (stage c) = true → disjoint_from (storable_of c) ws).
  { intros Hh. eapply only_touches_disjoint; [done|].
    intros d' Hin. pose proof Hin as (r & -> & _)%list_elem_of_fmap. apply (other_devices c c'); auto. }
  split; [done..| |].
  - unfold progress in *. destruct (stage c) as [| | | | |ws'|ws' rows als|e]; try done; specialize (Hd eq_refl).
    + destruct Hp as [Ho' He]. split; [done|]. by apply archive_commutes.
    + destruct Hp as (Ho' & He & Hr & Ha). split_and!; [done| |by rewrite (batch_rows_same _ _ _ (see_same_devices _ _ d Hd))|done].
      by apply batch_db_commutes.
  - destruct (stage c); try done. by apply answered_mono.
Qed.

(** *** The call that does *)

Local Notation entered := (entered retention_days skew_s statement_ms).
Local Notation failed := (failed max_attempts statement_ms).
Local Notation succeeded := (succeeded retention_days skew_s statement_ms).
Local Notation commit := (commit retention_days skew_s).

Lemma entered_ok d0 d cs i shard records now_ms :
  Forall (λ r, shard_for (device_id r) shards = Ok shard) records →
  call_ok d0 d cs i (entered shard records now_ms) ∧
  holds_lock (stage (entered shard records now_ms)) = false.
Proof.
  intros Hs. unfold entered, Locks.entered.
  destruct (split_storable now_ms retention_days skew_s records) as [[|r storable] bad] eqn:E.
  - split; [|done]. split; [done..|]. exists cs, [], (in_turn d0 cs), (Applied (mkResult [] [] 0 bad)).
    split_and!; [by rewrite app_nil_r|cbn [clock called_ms outcomes call_records attempt]; unfold Batch.apply; by rewrite E|done|].
    left. unfold Locks.storable_of. cbn [called_ms call_records]. by rewrite E.
  - split; [|done]. split; [done..|]. split; [|done].
    unfold Locks.storable_of. cbn [called_ms call_records]. by rewrite E.
Qed.

Lemma retried_again c sqlstate :
  retried c → should_retry sqlstate (S (attempt c)) max_attempts = true → retried (failed false sqlstate c).
Proof.
  intros Hr Hs now d rest deduped. cbn [outcomes Locks.failed attempt]. rewrite <- app_assoc.
  etransitivity; [apply Hr|]. cbn [app Batch.attempts]. by rewrite Hs.
Qed.

Lemma unanswered_final sqlstate n :
  (∀ s, sqlstate = Some s → s ∉ BATCH_RETRYABLE_SQLSTATES) → should_retry sqlstate n max_attempts = false.
Proof.
  intros Hs. unfold should_retry. destruct sqlstate as [s|]; [|done].
  rewrite bool_decide_eq_false_2 by (by apply Hs). done.
Qed.

Lemma failed_ok d0 d cs i c committed sqlstate d' cs' :
  call_ok d0 d cs i c → in_transaction (stage c) = true →
  (committed = true → should_retry sqlstate (S (attempt c)) max_attempts = false) →
  call_ok d0 d' cs' i (failed committed sqlstate c) ∧ holds_lock (stage (failed committed sqlstate c)) = false.
Proof.
  intros [Hs Hg Hp Ht] Hin Hno.
  assert (Hst : storable_of c ≠ [] ∧ retried c) by (destruct (stage c); done). clear Ht.
  destruct (should_retry sqlstate (S (attempt c)) max_attempts) eqn:E.
  - destruct committed; [specialize (Hno eq_refl); congruence|].
    assert (Ew : stage (failed false sqlstate c) = Waiting) by (cbn; by rewrite E).
    split; [|by rewrite Ew]. split; [done| | |]; unfold settings_ok, progress; rewrite Ew; try done.
    split; [apply Hst|]. apply retried_again; [apply Hst|done].
  - assert (Ew : stage (failed committed sqlstate c) = Ended (DBAPIError sqlstate)) by (cbn; by rewrite E).
    split; [|by rewrite Ew]. split; [done| | |]; unfold settings_ok, progress; rewrite Ew; try done.
    exists cs', [], (if committed then batch_db (clock c) (in_turn d0 cs') (storable_of c) else in_turn d0 cs'),
      (DBAPIError sqlstate).
    split_and!; [by rewrite app_nil_r| |done|done].
    rewrite (apply_stores _ (failed committed sqlstate c)) by apply Hst. cbn [outcomes Locks.failed attempt].
    etransitivity; [apply Hst|]. destruct committed; cbn -[should_retry apply_once]; by rewrite E.
Qed.

Lemma succeeded_ok d0 d cs i c ws rows als d' :
  call_ok d0 d cs i c → stage c = Written ws rows als → d ≡ in_turn d0 cs →
  call_ok d0 d' (cs ++ [mkCommit i (clock c) (storable_of c)]) i (succeeded rows als c).
Proof.
  intros [Hs Hg Hp Ht] Hst Hd. unfold progress in Hp. rewrite Hst in Hp, Ht.
  destruct Hp as (Ho & He & -> & <-), Ht as [Hne Hr]. split; [done..|]. cbn [stage Locks.succeeded].
  set (t := in_turn d0 cs) in *.
  pose proof (equiv_same_devices (storable_of c) _ _ Hd) as Hsame.
  exists cs, [mkCommit i (clock c) (storable_of c)], (batch_db (clock c) t (storable_of c)),
    (answer retention_days skew_s c (accepted t (latest_per_device (storable_of c)))
       (batch_alerts (clock c) t (storable_of c))).
  split_and!; [done| | |].
  - rewrite (apply_stores _ (succeeded _ _ c)) by done. cbn [outcomes Locks.succeeded attempt].
    etransitivity; [apply (Hr _ _ [Commits])|]. cbn [Batch.attempts clock Locks.succeeded].
    unfold apply_once. rewrite batch_db_statements. unfold answer.
    by destruct (traverse item_of_row _).
  - rewrite (batch_rows_same _ _ _ Hsame). unfold answer. destruct (traverse item_of_row _); [|done].
    split_and!; [done| |done|done]. cbn [result_alerts].
    rewrite <- (batch_alerts_same st_dwithin search_overlaps (clock c) _ _ _ Hsame).
    destruct He as (_ & _ & Ha). rewrite batch_db_alerts in Ha. cbn [alerts see] in Ha.
    rewrite !fmap_app in Ha. by apply (inj _) in Ha.
  - unfold answer. destruct (traverse item_of_row _); right; by exists [].
Qed.

Lemma archived_ok d0 d cs i c :
  call_ok d0 d cs i c → stage c = Ready →
  call_ok d0 d cs i (at_stage (Archived (writes d (insert_history d (storable_of c)))) c).
Proof.
  intros [Hs Hg Hp Ht] Hst. unfold settings_ok in Hg. rewrite Hst in *. split; [done..| |done].
  unfold progress. cbn [stage at_stage]. change (storable_of (at_stage _ c)) with (storable_of c). split.
  - intros d' Hd'. apply writes_untouched. split_and!; [done..|]. intros t.
    by apply (archive_other (location_history d)).
  - destruct (see_writes d (insert_history d (storable_of c)) []) as [-> _]; [done|by rewrite app_nil_r|done].
Qed.

Lemma written_ok d0 d cs i c ws mine rows als :
  call_ok d0 d cs i c → stage c = Archived ws →
  apply_batch_sql (clock c) (see ws d) (latest_per_device (storable_of c)) = (mine, rows, als) →
  call_ok d0 (with_identity (alerts_identity mine) d) cs i (at_stage (Written (writes d mine) rows als) c).
Proof.
  intros [Hs Hg Hp Ht] Hst. unfold settings_ok, progress in Hg, Hp. rewrite Hst in Hg, Hp, Ht.
  destruct Hp as [Ho ->]. rewrite batch_db_statements. intros [= Em Er Ea]. split; [done..| |done].
  unfold progress. cbn [stage at_stage clock]. change (storable_of (at_stage _ c)) with (storable_of c).
  destruct (see_writes d mine als) as [Hsee Hals]; [by rewrite <- Em|by rewrite <- Em, <- Ea, batch_db_alerts|].
  split_and!; [|  |done|done].
  - intros d' Hd'. apply writes_untouched. rewrite <- Em. by apply batch_other.
  - change (see ?x (with_identity ?id d)) with (with_identity id (see x d)). rewrite Hsee, with_identity_equiv.
    rewrite with_identity_equiv, <- Em. apply batch_db_proper; [|done]. symmetry. apply with_identity_equiv.
Qed.

(** *** Commits *)

Lemma commit_in_turn d0 w i c ws rows als :
  world_ok d0 w → calls w !! i = Some c → stage c = Written ws rows als →
  db (commit i c ws w) ≡ in_turn d0 (commits (commit i c ws w)).
Proof.
  intros [Hd Hl Hc] Hi Hst. destruct (Hc i c Hi) as [_ _ Hp _]. unfold progress in Hp. rewrite Hst in Hp.
  destruct Hp as (_ & He & _). cbn [db commits Locks.commit]. unfold in_turn, Locks.in_turn.
  rewrite foldl_snoc, He. by apply batch_db_proper.
Qed.

Lemma commit_others d0 w i c ws rows als j c' :
  world_ok d0 w → calls w !! i = Some c → stage c = Written ws rows als →
  i ≠ j → calls w !! j = Some c' →
  call_ok d0 (db (commit i c ws w)) (commits (commit i c ws w)) j c'.
Proof.
  intros [Hd Hl Hc] Hi Hst Hij Hj. destruct (Hc i c Hi) as [Hs _ Hp _]. unfold progress in Hp.
  rewrite Hst in Hp. destruct Hp as (Ho & _). eapply call_ok_commit; [by apply Hc|done|done|].
  intros Hh Hshard. pose proof (proj2 (Hl (call_shard c) i)) as Ei. pose proof (proj2 (Hl (call_shard c) j)) as Ej.
  rewrite Ei in Ej by (exists c; by rewrite Hst). specialize (Ej ltac:(by exists c')). congruence.
Qed.

Lemma put_ok d0 w i c :
  db w ≡ in_turn d0 (commits w) → locks_ok (locks w) (<[i := c]> (calls w)) →
  call_ok d0 (db w) (commits w) i c →
  (∀ j c', i ≠ j → calls w !! j = Some c' → call_ok d0 (db w) (commits w) j c') →
  world_ok d0 (put i c w).
Proof.
  intros Hd Hl Hc Ho. split; [done|done|]. intros j c'. cbn. destruct (decide (i = j)) as [<-|Hij].
  - rewrite lookup_insert_eq. by intros [= <-].
  - rewrite lookup_insert_ne by done. by apply Ho.
Qed.

Lemma lock_step_ok d0 w w' : world_ok d0 w → step w w' → world_ok d0 w'.
Proof.
  intros Hw Hstep. pose proof Hw as [Hd Hl Hc].
  destruct Hstep as [w i shard records now_ms Hi Hs|w i c now Hi Hst|w i c Hi Hst|w i c Hi Hst Hn|w i c Hi Hst
    |w i c Hi Hst|w i c ws mine rows als Hi Hst E|w i c ws rows als Hi Hst|w i c sqlstate Hi Hin Hf
    |w i c ws rows als sqlstate Hi Hst Hq|w i c Hi|w i c ws rows als Hi Hst];
    try (pose proof (Hc i c Hi) as Hok).
  - destruct (entered_ok d0 (db w) (commits w) i shard records now_ms Hs) as [Hok Hh].
    apply put_ok; [done|by apply locks_new|done|auto].
  - apply put_ok; [done|eapply locks_put; [done..|by rewrite Hst]| |auto].
    destruct Hok as [Hs Hg Hp Ht]. rewrite Hst in Ht. by split.
  - apply put_ok; [done|eapply locks_put; [done..|by rewrite Hst]| |auto].
    destruct Hok as [Hs Hg Hp Ht]. rewrite Hst in Ht. by split.
  - apply put_ok; [done| | |by auto].
    + cbn. eapply locks_take; try done. by rewrite Hst.
    + destruct Hok as [Hs Hg Hp Ht]. unfold settings_ok in Hg. rewrite Hst in *. by split.
  - apply put_ok; [done|eapply locks_put; [done..|by rewrite Hst]| |auto].
    destruct Hok as [Hs Hg Hp Ht]. unfold settings_ok in Hg. rewrite Hst in *. split; [done| |done|done].
    unfold settings_ok. cbn. by rewrite Hg.
  - apply put_ok; [done|eapply locks_put; [done..|by rewrite Hst]|by apply archived_ok|auto].
  - apply put_ok; [|eapply locks_put; [done..|by rewrite Hst]|by eapply written_ok|].
    + etransitivity; [apply with_identity_equiv|done].
    + intros j c' _ Hj. by apply call_ok_identity, Hc.
  - apply put_ok.
    + by eapply commit_in_turn.
    + cbn. by eapply locks_end.
    + by eapply succeeded_ok.
    + intros j c' Hij Hj. by eapply commit_others.
  - destruct (failed_ok _ _ _ _ _ false sqlstate (db w) (commits w) Hok Hin) as [Hok' Hh]; [done|].
    apply put_ok; [done|by eapply locks_end|done|auto].
  - destruct (failed_ok _ _ _ _ _ true sqlstate (db (commit i c ws w)) (commits (commit i c ws w)) Hok) as [Hok' Hh];
      [by rewrite Hst|by intros _; apply unanswered_final|].
    apply put_ok.
    + by eapply commit_in_turn.
    + by eapply locks_end.
    + done.
    + intros j c' Hij Hj. by eapply commit_others.
  - split; [done|by apply locks_gone|]. intros j c' Hj. cbn in Hj. apply lookup_delete_Some in Hj as [_ Hj]. by apply Hc.
  - split.
    + by eapply (commit_in_turn d0 w).
    + by apply locks_gone.
    + intros j c' Hj. cbn in Hj. apply lookup_delete_Some in Hj as [Hij Hj]. by eapply (commit_others d0 w).
Qed.

Lemma serial_reachable_ok d w :
  reachable st_dwithin search_overlaps shards retention_days skew_s max_attempts wait statement_ms d w →
  world_ok d w.
Proof.
  apply (rtc_ind_r (world_ok d)).
  - split; [done| |done]. intros s i. cbn. rewrite lookup_empty. split; [done|]. by intros (c & ? & _).
  - intros x y _ Hs Hx. by eapply lock_step_ok.
Qed.

(** *** No lock is left behind *)

Definition finished (w : World) (i : nat) : Prop := ∃ c e, calls w !! i = Some c ∧ stage c = Ended e.

(** The call [i] can end by steps of its own, and its lock is free then. *)
Definition can_finish (w : World) (i : nat) (c : Call) : Prop :=
  ∃ w', rtc step w w' ∧ finished w' i ∧ locks w' = delete (call_shard c) (locks w) ∧
        ∀ j, i ≠ j → calls w' !! j = calls w !! j.

Lemma can_finish_step i c c' w w' :
  step w w' → calls w' = <[i := c']> (calls w) → locks w' = locks w → call_shard c' = call_shard c →
  can_finish w' i c' → can_finish w i c.
Proof.
  intros Hs Hc Hl He (v & Hr & Hf & Hlv & Ho). exists v. split_and!; [by eapply rtc_l|done|congruence|].
  intros j Hj. by rewrite (Ho j Hj), Hc, lookup_insert_ne.
Qed.

Lemma written_finishes w i c ws rows als :
  calls w !! i = Some c → stage c = Written ws rows als → can_finish w i c.
Proof.
  intros Hi Hst. eexists. split_and!; [eapply rtc_once, st_commit; done| |cbn; unfold released; by rewrite Hst|].
  - eexists _, _. cbn. rewrite lookup_insert_eq. done.
  - intros j Hj. cbn. by rewrite lookup_insert_ne.
Qed.

Lemma archived_finishes w i c ws :
  calls w !! i = Some c → stage c = Archived ws → can_finish w i c.
Proof.
  intros Hi Hst.
  destruct (apply_batch_sql (clock c) (see ws (db w)) (latest_per_device (storable_of c))) as [[mine rows] als] eqn:E.
  eapply can_finish_step; [eapply st_write; done|done|done|done|].
  eapply written_finishes; [apply lookup_insert_eq|done].
Qed.

Lemma holder_finishes w i c :
  calls w !! i = Some c → holds_lock (stage c) = true → can_finish w i c.
Proof.
  assert (Hready : ∀ w c, calls w !! i = Some c → stage c = Ready → can_finish w i c).
  { intros v x Hi Hst. eapply can_finish_step; [eapply st_archive; done|done|done|done|].
    eapply archived_finishes; [apply lookup_insert_eq|done]. }
  intros Hi Hh. destruct (stage c) eqn:Hst; try done.
  - eapply can_finish_step; [eapply st_ready; done|done|done|done|].
    apply Hready; [apply lookup_insert_eq|done].
  - by apply Hready.
  - by eapply archived_finishes.
  - by eapply written_finishes.
Qed.

Definition can_end (w : World) (i : nat) : Prop := ∃ w', rtc step w w' ∧ finished w' i.
Lemma can_end_steps w w' i : rtc step w w' → can_end w' i → can_end w i.
Proof. intros Hr (v & Hv & Hf). exists v. split; [by etransitivity|done]. Qed.

Lemma free_can_end w i c :
  calls w !! i = Some c → holds_lock (stage c) = false → locks w !! call_shard c = None → can_end w i.
Proof.
  assert (Harmed : ∀ w c, calls w !! i = Some c → stage c = Armed → locks w !! call_shard c = None → can_end w i).
  { intros v x Hi Hst Hn. pose proof (st_lock st_dwithin search_overlaps shards retention_days skew_s max_attempts
      wait statement_ms v i x Hi Hst Hn) as H. eapply can_end_steps; [by apply rtc_once|].
    match type of H with step _ ?v' =>
      destruct (holder_finishes v' i (at_stage Locked x)) as (w' & Hr & Hf & _); [apply lookup_insert_eq|done|] end.
    by exists w'. }
  assert (Hbegun : ∀ w c, calls w !! i = Some c → stage c = Begun → locks w !! call_shard c = None → can_end w i).
  { intros v x Hi Hst Hn. eapply can_end_steps; [by eapply rtc_once, st_arm|].
    eapply Harmed; [apply lookup_insert_eq|done|done]. }
  intros Hi Hh Hn. destruct (stage c) eqn:Hst; try done.
  - eapply can_end_steps; [by eapply (rtc_once _ (put i (begun statement_ms 0 c) w)), st_begin|].
    eapply Hbegun; [apply lookup_insert_eq|done|done].
  - by eapply Hbegun.
  - by eapply Harmed.
  - exists w. split; [done|]. by exists c, e.
Qed.

(** Running out of time before the lock is granted leaves the call to try again, while
    it has attempts left. *)
Lemma lock_timeout_retries c :
  (S (attempt c) < max_attempts)%nat →
  stage (failed false (Some LOCK_NOT_AVAILABLE) c) = Waiting.
Proof.
  intros Ha. cbn. unfold should_retry. rewrite bool_decide_eq_true_2 by (unfold LOCK_NOT_AVAILABLE; set_solver).
  by rewrite (proj2 (Nat.ltb_lt _ _) Ha).
Qed.

Lemma settings_stage d w i c :
  reachable st_dwithin search_overlaps shards retention_days skew_s max_attempts wait statement_ms d w →
  calls w !! i = Some c → settings_ok c.
Proof. intros Hr%serial_reachable_ok Hi. apply (ok_calls _ _ Hr i c Hi). Qed.
End serial.

(** ** Two turns of one device *)

Section turns.
Variable st_dwithin : Point → Point → float64 → bool.
Variable search_overlaps : Point → float64 → Point → bool.
Local Notation batch_db := (batch_db st_dwithin search_overlaps).
Local Notation batch_alerts := (batch_alerts st_dwithin search_overlaps).
Local Notation in_turn := (in_turn st_dwithin search_overlaps).

Lemma two_turns {A} (b b' r r' : list A) x y :
  b ++ x :: r = b' ++ y :: r' → x ≠ y → (∃ m, b' = b ++ x :: m) ∨ (∃ m, b = b' ++ y :: m).
Proof.
  revert b'. induction b as [|a b IH]; intros [|a' b'] E Hne; simplify_eq/=.
  - left. by exists b'.
  - right. by exists b.
  - destruct (IH b') as [[m ->]|[m ->]]; [done..|left|right]; by exists m.
Qed.

Lemma alert_row now id ts al :
  al ∈ number_alerts now id ts → ∃ t, t ∈ ts ∧ tr_device t = alert_device al ∧ tr_reported_at t = occurred_at al.
Proof.
  revert id. induction ts as [|t ts IH]; intros id; cbn; [by intros ?%elem_of_nil|].
  destruct (event_kind t); [intros [->|H]%elem_of_cons|intros H].
  - exists t. by split_and!; [left|..].
  - destruct (IH _ H) as (t' & ? & ? & ?). exists t'. by split_and!; [right|..].
  - destruct (IH _ H) as (t' & ? & ? & ?). exists t'. by split_and!; [right|..].
Qed.

(** An alert comes from a report its batch was the first to store. *)
Lemma batch_alert_row now db records al :
  al ∈ batch_alerts now db records →
  ∃ r, r ∈ records ∧ newer db r = true ∧ device_id r = alert_device al ∧
       to_timestamp (reported_ms r) = occurred_at al.
Proof.
  intros (t & Ht & <- & <-)%alert_row. rewrite merge_sort_Permutation in Ht.
  apply list_elem_of_filter in Ht as [_ (row & zid & z & Hrow & _ & Ht)%elem_transitions].
  apply transition_of_key in Ht as [Hk ->]. injection Hk as _ ->.
  apply elem_accepted in Hrow as (r & Hr%latest_subset & Hn & ->). by exists r.
Qed.

Lemma in_turn_covered d r cs :
  covered d r → covered (in_turn d cs) r.
Proof.
  induction cs as [|k cs IH] using rev_ind; [done|]. intros H. unfold in_turn, Locks.in_turn.
  rewrite foldl_snoc. by apply batch_keeps_covered, IH.
Qed.

(** A later batch raises no alert from a report that an earlier one had. *)
Lemma later_alert_is_newer d before k mid now records al al' :
  al ∈ batch_alerts (commit_clock k) (in_turn d before) (committed k) →
  al' ∈ batch_alerts now (in_turn d (before ++ k :: mid)) records →
  alert_device al = alert_device al' → occurred_at al < occurred_at al'.
Proof.
  intros (r & Hr & _ & Hd & Ho)%batch_alert_row (r' & _ & Hn & Hd' & Ho')%batch_alert_row E.
  assert (Hc : covered (in_turn d (before ++ k :: mid)) r).
  { replace (in_turn d (before ++ k :: mid)) with (in_turn (batch_db (commit_clock k) (in_turn d before) (committed k)) mid)
      by (unfold in_turn, Locks.in_turn; by rewrite foldl_app).
    apply in_turn_covered. pose proof (batch_covers st_dwithin search_overlaps (commit_clock k) (in_turn d before) (committed k)) as H.
    rewrite Forall_forall in H. by apply H. }
  destruct Hc as [(dp & Hdp & Hle) _]. unfold newer in Hn.
  rewrite Hd', <- E, <- Hd, Hdp in Hn. lia.
Qed.
End turns.

(** ** Properties *)

Section serial_facts.
Variable st_dwithin : Point → Point → float64 → bool.
Variable search_overlaps : Point → float64 → Point → bool.
Variable shards retention_days skew_s : Z.
Variable max_attempts : nat.
Variable wait statement_ms : Z.
Local Notation reachable := (reachable st_dwithin search_overlaps shards retention_days skew_s max_attempts wait statement_ms).
Local Notation batch_alerts := (batch_alerts st_dwithin search_overlaps).
Local Notation in_turn := (in_turn st_dwithin search_overlaps).
Local Notation storable_of := (storable_of retention_days skew_s).

Lemma attempts_alerts now n outs d storable bad d' r k :
  attempts st_dwithin search_overlaps now max_attempts n outs d storable (latest_per_device storable) bad
  = Some (d', Applied r, k) →
  result_alerts r = batch_alerts now d storable ∨ result_alerts r = [].
Proof.
  intros (tried & o & rest & _ & _ & _ & Hr)%attempts_spec. destruct o as [|s|s]; [|by destruct Hr..].
  destruct (existsb took_effect tried); [simplify_eq; by right|left].
  unfold finished, apply_once in Hr. rewrite batch_db_statements in Hr. cbn [snd] in Hr.
  destruct (traverse item_of_row _); [|done]. cbn in Hr. by simplify_eq.
Qed.

(** The turn of a call that raised alerts. *)
Lemma applied_turn d w i c r :
  reachable d w → calls w !! i = Some c → stage c = Ended (Applied r) → result_alerts r ≠ [] →
  ∃ before rest, commits w = before ++ mkCommit i (clock c) (storable_of c) :: rest ∧
    blank_id <$> result_alerts r = blank_id <$> batch_alerts (clock c) (in_turn d before) (storable_of c).
Proof.
  intros [_ _ Hc]%serial_reachable_ok Hi Hst Hne. destruct (Hc i c Hi) as [_ _ _ Ha]. rewrite Hst in Ha.
  destruct Ha as (before & after & d' & e' & Hcs & Ha & He & Ht).
  destruct e' as [r'| |]; [|done|done]. destruct He as (_ & Hal & _).
  destruct (decide (storable_of c = [])) as [Hs|Hs].
  - unfold Batch.apply in Ha. unfold Locks.storable_of in Hs. destruct (split_storable _ _ _ _) as [st bad].
    cbn in Hs. subst st. injection Ha as _ <- _. by destruct (result_alerts r).
  - destruct Ht as [?|[rest ->]]; [done|]. exists before, rest. split; [done|].
    rewrite (apply_stores st_dwithin search_overlaps) in Ha by done. apply attempts_alerts in Ha as [Ha|Ha]; [by rewrite Hal, Ha|].
    rewrite Ha in Hal. by destruct (result_alerts r).
Qed.

(** C4: batches of all shards are serialisable. Whatever calls run at once, are retried,
    cancelled or lose the answer of their commit, the tables hold what the committed
    batches leave when they run one after the other in the order of their commits (up to
    the identities of alerts), two calls never hold the lock of one shard, and a call
    that ended answered what the batch answers at its turn. *)
Theorem batches_serialise d w :
  reachable d w →
  db w ≡ in_turn d (commits w) ∧
  (∀ i j c c', calls w !! i = Some c → calls w !! j = Some c' →
     holds_lock (stage c) = true → holds_lock (stage c') = true → call_shard c = call_shard c' → i = j) ∧
  (∀ i c e, calls w !! i = Some c → stage c = Ended e →
     answered st_dwithin search_overlaps retention_days skew_s max_attempts d (commits w) i c e).
Proof.
  intros [Hd Hl Hc]%serial_reachable_ok. split_and!; [done| |].
  - intros i j c c' Hi Hj Hh Hh' Hs.
    pose proof (proj2 (Hl (call_shard c) i) ltac:(by exists c)) as Ei.
    pose proof (proj2 (Hl (call_shard c) j) ltac:(by exists c')) as Ej. congruence.
  - intros i c e Hi Hst. destruct (Hc i c Hi) as [_ _ _ Ha]. by rewrite Hst in Ha.
Qed.

(** C7: no transition is replayed. However the owners of a shard overlap and whatever
    reports they share, two calls never raise an alert of the same device at the same
    moment: the one whose turn comes second finds those reports stale. *)
Theorem no_alert_twice d w i j c c' r r' al al' :
  reachable d w → i ≠ j →
  calls w !! i = Some c → stage c = Ended (Applied r) → al ∈ result_alerts r →
  calls w !! j = Some c' → stage c' = Ended (Applied r') → al' ∈ result_alerts r' →
  alert_device al = alert_device al' → occurred_at al ≠ occurred_at al'.
Proof.
  intros Hr Hij Hi Hst Hal Hj Hst' Hal' Hd.
  destruct (applied_turn d w i c r) as (b & x & Hb & Ha); [done..|by intros E; rewrite E in Hal; apply elem_of_nil in Hal|].
  destruct (applied_turn d w j c' r') as (b' & x' & Hb' & Ha'); [done..|by intros E; rewrite E in Hal'; apply elem_of_nil in Hal'|].
  assert (Hin : ∀ (l l' : list AlertRow) y, blank_id <$> l = blank_id <$> l' → y ∈ l →
            ∃ z, z ∈ l' ∧ alert_device y = alert_device z ∧ occurred_at y = occurred_at z).
  { intros l l' y E Hy. apply (list_elem_of_fmap_2 blank_id) in Hy. rewrite E in Hy.
    apply list_elem_of_fmap in Hy as (z & Hz & ?). exists z. split; [done|]. by injection Hz. }
  destruct (Hin _ _ _ Ha Hal) as (z & Hz & Ed & ->). destruct (Hin _ _ _ Ha' Hal') as (z' & Hz' & Ed' & ->).
  destruct (two_turns b b' x x' (mkCommit i (clock c) (storable_of c)) (mkCommit j (clock c') (storable_of c')))
    as [[m ->]|[m ->]].
  - by rewrite <- Hb, <- Hb'.
  - by intros [= E _ _].
  - assert (occurred_at z < occurred_at z'); [|lia]. apply (later_alert_is_newer st_dwithin search_overlaps d b
      (mkCommit i (clock c) (storable_of c)) m (clock c') (storable_of c') z z' Hz Hz'). by rewrite <- Ed, <- Ed'.
  - assert (occurred_at z' < occurred_at z); [|lia]. apply (later_alert_is_newer st_dwithin search_overlaps d b'
      (mkCommit j (clock c') (storable_of c')) m (clock c) (storable_of c) z' z Hz' Hz). by rewrite <- Ed, <- Ed'.
Qed.

(** nobody waits for ever for a shard. In every reachable state a call that has not
    ended can: at most the holder of its shard's lock has to end first. *)
Lemma every_call_can_end d w i c :
  reachable d w → calls w !! i = Some c →
  ∃ w', rtc (step st_dwithin search_overlaps shards retention_days skew_s max_attempts wait statement_ms) w w' ∧
        finished w' i.
Proof.
  intros [_ Hl _]%serial_reachable_ok Hi.
  destruct (holds_lock (stage c)) eqn:Hh.
  { destruct (holder_finishes st_dwithin search_overlaps shards retention_days skew_s max_attempts wait statement_ms
                w i c Hi Hh) as (w' & ? & ? & _). by exists w'. }
  destruct (locks w !! call_shard c) as [j|] eqn:Ej; [|by eapply free_can_end].
  apply Hl in Ej as (c' & Hj & Hs & Hh').
  destruct (holder_finishes st_dwithin search_overlaps shards retention_days skew_s max_attempts wait statement_ms
              w j c' Hj Hh') as (w1 & Hr & _ & Hl1 & Ho).
  eapply can_end_steps; [exact Hr|]. eapply free_can_end; [|exact Hh|].
  - rewrite Ho; [exact Hi|]. intros <-. congruence.
  - rewrite Hl1, Hs. apply lookup_delete_eq.
Qed.

(** The wait for the lock has a budget of its own and is the only statement that
    statement_timeout cannot cancel; the statements that follow run under both limits,
    and the connection goes back to the pool as it came. *)
Lemma lock_wait_budget d w i c :
  reachable d w → calls w !! i = Some c →
  match stage c with
  | Armed | Locked => settings c = mkTx wait 0 ∧ ¬ may_fail (settings c) (Some QUERY_CANCELED)
  | Ready | Archived _ | Written _ _ _ => settings c = mkTx wait statement_ms
  | _ => settings c = pooled statement_ms
  end.
Proof.
  intros Hr Hi. pose proof (settings_stage st_dwithin search_overlaps shards retention_days skew_s max_attempts
    wait statement_ms d w i c Hr Hi) as H. unfold settings_ok in H.
  destruct (stage c); try done; (split; [done|]); rewrite H; intros [_ Hq]; by apply Hq.
Qed.
End serial_facts.

(** ** A van whose shard changes hands *)

Module LocksSamples.
Local Notation step := (step BatchSamples.dwithin BatchSamples.overlaps 4 30 60 5 15000 5000).
Local Notation reachable := (reachable BatchSamples.dwithin BatchSamples.overlaps 4 30 60 5 15000 5000).

(** What one call does next. *)
Inductive Action :=
  | Enter (shard : Z) (records : list LocationRecord) (now_ms : Z)
  | Begin (now : Z)
  | Statement
  | LockTimeout.

Definition in_shard (shard : Z) (records : list LocationRecord) : bool :=
  forallb (λ r, match shard_for (device_id r) 4 with Ok s => s =? shard | Raise _ => false end) records.

Definition next (i : nat) (a : Action) (w : World) : option World :=
  match a, calls w !! i with
  | Enter shard records now_ms, None =>
      if in_shard shard records then Some (put i (entered 30 60 5000 shard records now_ms) w) else None
  | Begin now, Some c =>
      match stage c with Waiting => Some (put i (begun 5000 now c) w) | _ => None end
  | LockTimeout, Some c =>
      match stage c with
      | Armed => if decide (lock_timeout (settings c) = 0) then None
                 else Some (put i (failed 5 5000 false (Some LOCK_NOT_AVAILABLE) c) (unlock c w))
      | _ => None
      end
  | Statement, Some c =>
      match stage c with
      | Begun => Some (put i (at_stage Armed (under (BEGIN_LOCK_WAIT 15000 (settings c)) c)) w)
      | Armed => match locks w !! call_shard c with
                 | None => Some (put i (at_stage Locked c)
                             (mkWorld (db w) (<[call_shard c := i]> (locks w)) (calls w) (commits w)))
                 | Some _ => None
                 end
      | Locked => Some (put i (at_stage Ready (under (END_LOCK_WAIT 5000 (settings c)) c)) w)
      | Ready => Some (put i (at_stage (Archived (writes (db w) (insert_history (db w) (storable_of 30 60 c)))) c) w)
      | Archived ws =>
          let '(mine, rows, als) := apply_batch_sql BatchSamples.dwithin BatchSamples.overlaps (clock c)
                                      (see ws (db w)) (latest_per_device (storable_of 30 60 c)) in
          Some (put i (at_stage (Written (writes (db w) mine) rows als) c)
                  (mkWorld (with_identity (alerts_identity mine) (db w)) (locks w) (calls w) (commits w)))
      | Written ws rows als => Some (put i (succeeded 30 60 5000 rows als c) (commit 30 60 i c ws w))
      | _ => None
      end
  | _, _ => None
  end.

Lemma next_step i a w w' : next i a w = Some w' → step w w'.
Proof.
  unfold next. destruct a as [shard records now_ms|now| |], (calls w !! i) as [c|] eqn:Ec; try done.
  - destruct (in_shard shard records) eqn:E; [|done]. intros [= <-]. apply st_call; [done|].
    apply Forall_forall. intros r Hr. unfold in_shard in E. rewrite forallb_forall in E.
    apply list_elem_of_In in Hr. specialize (E r Hr). destruct (shard_for _ _); [|done].
    f_equal. by apply Z.eqb_eq.
  - destruct (stage c) eqn:Es; try done. intros [= <-]. by apply st_begin.
  - destruct (stage c) eqn:Es; try done.
    + intros [= <-]. by apply st_arm.
    + destruct (locks w !! call_shard c) eqn:El; [done|]. intros [= <-]. by apply st_lock.
    + intros [= <-]. by apply st_ready.
    + intros [= <-]. by apply st_archive.
    + destruct (apply_batch_sql _ _ _ _ _) as [[mine rows] als] eqn:E. intros [= <-]. by eapply st_write.
    + intros [= <-]. by eapply st_commit.
  - destruct (stage c) eqn:Es; try done. case_decide as Hl; [done|]. intros [= <-].
    apply st_fail; [done|by rewrite Es|]. split; [done|]. by intros [=].
Qed.

Fixpoint play (script : list (nat * Action)) (w : World) : option World :=
  match script with
  | [] => Some w
  | (i, a) :: rest => match next i a w with Some w' => play rest w' | None => None end
  end.
Lemma play_steps script w w' : play script w = Some w' → rtc step w w'.
Proof.
  revert w. induction script as [|[i a] script IH]; intros w; cbn; [by intros [= ->]|].
  destruct (next i a w) as [v|] eqn:E; [|done]. intros H%IH. eapply rtc_l; [by eapply next_step|done].
Qed.

(** The old owner of the van's shard enters the zone's alert. The new one arms its lock
    meanwhile, runs out of time once, and then finds the first report stale and raises
    the dwell alert of a later one. *)
Definition later : LocationRecord :=
  mkRecord "van-7" (flit 50) (flit 30) 1700000061000 1700000061250.
Definition home : Z := match shard_for "van-7" 4 with Ok s => s | Raise _ => 0 end.
Definition script : list (nat * Action) :=
  [(0%nat, Enter home BatchSamples.batch 1700000001000);
   (1%nat, Enter home [Samples.report; later] 1700000062000);
   (0%nat, Begin 1700000001000000); (1%nat, Begin 1700000062000000);
   (0%nat, Statement); (1%nat, Statement); (0%nat, Statement); (0%nat, Statement);
   (1%nat, LockTimeout);
   (0%nat, Statement); (0%nat, Statement);
   (1%nat, Begin 1700000063000000); (1%nat, Statement);
   (0%nat, Statement);
   (1%nat, Statement); (1%nat, Statement); (1%nat, Statement); (1%nat, Statement); (1%nat, Statement)].
(** The world after the first [n] steps. *)
Definition played (n : nat) : World := default (start BatchSamples.db) (play (take n script) (start BatchSamples.db)).
Definition alerts_of (i : nat) (w : World) : list (string * AlertKind * Z) :=
  match calls w !! i with
  | Some c => match stage c with
              | Ended (Applied r) => (λ al, (alert_device al, alert_kind al, occurred_at al)) <$> result_alerts r
              | _ => []
              end
  | None => []
  end.

Lemma played_reachable n : reachable BatchSamples.db (played n).
Proof.
  unfold played. destruct (play (take n script) _) as [w|] eqn:E; [by eapply play_steps|apply rtc_refl].
Qed.
Lemma alerts_of_call i w d k t rest :
  alerts_of i w = (d, k, t) :: rest →
  ∃ c r al, calls w !! i = Some c ∧ stage c = Ended (Applied r) ∧ al ∈ result_alerts r ∧
            alert_device al = d ∧ occurred_at al = t.
Proof.
  unfold alerts_of. destruct (calls w !! i) as [c|] eqn:Ec; [|done].
  destruct (stage c) as [| | | | | | |[r| |]] eqn:Es; try done.
  destruct (result_alerts r) as [|al l] eqn:Er; [done|]. cbn. intros [= <- _ <- _].
  exists c, r, al. rewrite Er. split_and!; [done|done|left|done|done].
Qed.
End LocksSamples.

Lemma batches_serialise_witness :
  (commits (LocksSamples.played 19) ≠ []) ∧
  LocksSamples.alerts_of 1 (LocksSamples.played 19) = [("van-7", Dwell, 1700000061000000)] ∧
  db (LocksSamples.played 19)
    ≡ in_turn BatchSamples.dwithin BatchSamples.overlaps BatchSamples.db (commits (LocksSamples.played 19)).
Proof.
  split; [vm_compute; discriminate|]. split; [vm_compute; reflexivity|].
  exact (proj1 (batches_serialise BatchSamples.dwithin BatchSamples.overlaps 4 30 60 5 15000 5000
           BatchSamples.db _ (LocksSamples.played_reachable 19))).
Defined.

Lemma no_alert_twice_witness :
  LocksSamples.alerts_of 0 (LocksSamples.played 19) = [("van-7", Enter, 1700000000000000)] ∧
  LocksSamples.alerts_of 1 (LocksSamples.played 19) = [("van-7", Dwell, 1700000061000000)] ∧
  1700000000000000 ≠ 1700000061000000.
Proof.
  assert (H0 : LocksSamples.alerts_of 0 (LocksSamples.played 19) = [("van-7", Enter, 1700000000000000)])
    by (vm_compute; reflexivity).
  assert (H1 : LocksSamples.alerts_of 1 (LocksSamples.played 19) = [("van-7", Dwell, 1700000061000000)])
    by (vm_compute; reflexivity).
  split; [exact H0|]. split; [exact H1|].
  destruct (LocksSamples.alerts_of_call _ _ _ _ _ _ H0) as (c & r & al & Hc & Hs & Hal & Hd & <-).
  destruct (LocksSamples.alerts_of_call _ _ _ _ _ _ H1) as (c' & r' & al' & Hc' & Hs' & Hal' & Hd' & <-).
  refine (no_alert_twice BatchSamples.dwithin BatchSamples.overlaps 4 30 60 5 15000 5000
            BatchSamples.db _ 0 1 c c' r r' al al' (LocksSamples.played_reachable 19) _ Hc Hs Hal Hc' Hs' Hal' _).
  - discriminate.
  - congruence.
Defined.

Lemma every_call_can_end_witness :
  locks (LocksSamples.played 8) !! LocksSamples.home = Some 0%nat ∧
  ∃ w', rtc (step BatchSamples.dwithin BatchSamples.overlaps 4 30 60 5 15000 5000) (LocksSamples.played 8) w' ∧
        finished w' 1.
Proof.
  split; [vm_compute; reflexivity|].
  destruct (calls (LocksSamples.played 8) !! 1%nat) as [c|] eqn:Ec; [|exfalso; vm_compute in Ec; discriminate Ec].
  exact (every_call_can_end BatchSamples.dwithin BatchSamples.overlaps 4 30 60 5 15000 5000
           BatchSamples.db _ 1 c (LocksSamples.played_reachable 8) Ec).
Defined.
