(* ===== verification/Alerts.v ===== *)
(** * The alert feed (src/geotrack/db/repositories/alerts.py, the route of
    src/geotrack/api/routes/alerts.py and src/geotrack/processor/publisher.py)

    Alert history is read page by page while alerts keep arriving; a committed batch is
    announced in chunks. *)
From stdpp Require Import sorting.
From S2P Require Import Prelude Floats Text Json JsonRef Keys Codec Batch.

(** ** The REST and websocket representation of an alert *)

Record AlertZoneRef := mkZoneRef { ref_id : option Z; ref_name : string }.
Record AlertOut := mkAlertOut {
  out_id : Z; out_kind : AlertKind; out_zone : AlertZoneRef; out_device : string;
  out_latitude : float64; out_longitude : float64; out_occurred_at : Z; out_created_at : Z }.

(** [AlertOut(...)] from a row of the table. *)
Definition alert_out (r : AlertRow) : AlertOut :=
  mkAlertOut (alert_id r) (alert_kind r) (mkZoneRef (alert_zone r) (alert_zone_name r)) (alert_device r)
    (alert_position r).1 (alert_position r).2 (occurred_at r) (created_at r).

(** ** One page *)

Record AlertQuery := mkQuery {
  before_id : option Z; after_id : option Z; by_zone : option Z; by_device : option string }.

(** A bound filter: a missing one contributes no condition. *)
Definition bound {A} (f : option A) (P : A → Prop) : Prop :=
  match f with Some a => P a | None => True end.
#[export] Instance bound_dec {A} (f : option A) (P : A → Prop) `{∀ a, Decision (P a)} : Decision (bound f P).
Proof. destruct f; cbn; apply _. Defined.

(** The WHERE clause. *)
Definition matches (user : Z) (q : AlertQuery) (r : AlertRow) : Prop :=
  alert_user r = user ∧ bound (before_id q) (λ b, alert_id r < b) ∧ bound (after_id q) (λ a, a < alert_id r) ∧
  bound (by_zone q) (λ z, alert_zone r = Some z) ∧ bound (by_device q) (λ d, alert_device r = d).
#[export] Instance matches_dec user q r : Decision (matches user q r).
Proof. unfold matches. apply _. Defined.

Definition newer_first (a b : AlertRow) : Prop := alert_id b ≤ alert_id a.
#[export] Instance newer_first_dec a b : Decision (newer_first a b).
Proof. unfold newer_first. apply _. Defined.

Record AlertPage := mkPage { items : list AlertOut; next_before_id : option Z }.

(** [ORDER BY id DESC], before the LIMIT. *)
Definition selected (table : list AlertRow) (user : Z) (q : AlertQuery) : list AlertRow :=
  merge_sort newer_first (filter (matches user q) table).

Definition page (table : list AlertRow) (user : Z) (q : AlertQuery) (limit : nat) : res AlertPage :=
  let items := alert_out <$> take limit (selected table user q) in
  if decide (length items = limit) then
    match last items with
    | Some it => Ok (mkPage items (Some (out_id it)))
    | None => Raise IndexError
    end
  else Ok (mkPage items None).

(** The route: query parameters outside their ranges answer 422. *)
Definition list_alerts (table : list AlertRow) (user : Z) (q : AlertQuery) (limit : Z) : option (res AlertPage) :=
  if decide (bound (before_id q) (λ b, 1 ≤ b) ∧ bound (after_id q) (λ a, 0 ≤ a) ∧
             bound (by_device q) (λ d, device_id_ok d = true) ∧ 1 ≤ limit ≤ 500)
  then Some (page table user q (Z.to_nat limit)) else None.

(** ** Following the cursor *)

Definition with_before (b : Z) (q : AlertQuery) : AlertQuery :=
  mkQuery (Some b) (after_id q) (by_zone q) (by_device q).

(** A client that asks for the next page until there is no cursor; each page is read
    from the table as it is at that moment. *)
Fixpoint crawl (tables : list (list AlertRow)) (user : Z) (q : AlertQuery) (limit : nat)
  : res (list AlertOut * bool) :=
  match tables with
  | [] => Ok ([], false)
  | table :: later =>
      let! p := page table user q limit in
      match next_before_id p with
      | None => Ok (items p, true)
      | Some b => let! (rest, complete) := crawl later user (with_before b q) limit in
                  Ok (items p ++ rest, complete)
      end
  end.

Section paging.
Context (user : Z) (limit : nat) (Hlimit : (1 ≤ limit)%nat).

#[local] Instance newer_first_total : Total newer_first.
Proof. intros a b. unfold newer_first. lia. Qed.
#[local] Instance newer_first_trans : Transitive newer_first.
Proof. intros a b c. unfold newer_first. lia. Qed.

Definition descending (l : list AlertRow) : Prop := StronglySorted (λ a b, alert_id b < alert_id a) l.

Lemma NoDup_ids_eq (l : list AlertRow) a b :
  NoDup (alert_id <$> l) → a ∈ l → b ∈ l → alert_id a = alert_id b → a = b.
Proof.
  intros Hnd Ha Hb E. pose proof (find_key_elem alert_id l a Hnd Ha).
  pose proof (find_key_elem alert_id l b Hnd Hb). congruence.
Qed.

Lemma NoDup_ids_filter (P : AlertRow → Prop) `{∀ r, Decision (P r)} l :
  NoDup (alert_id <$> l) → NoDup (alert_id <$> filter P l).
Proof.
  induction l as [|r l IH]; [done|]. rewrite fmap_cons, NoDup_cons. intros [Hr Hl].
  rewrite filter_cons. case_decide; [|auto]. rewrite fmap_cons. constructor; [|auto].
  rewrite list_elem_of_fmap in *. intros (x & E & [_ Hx]%list_elem_of_filter). eauto.
Qed.

Lemma selected_descending table q :
  NoDup (alert_id <$> table) → descending (selected table user q).
Proof.
  intros Hnd%(NoDup_ids_filter (matches user q)). unfold descending, selected.
  set (l := filter _ _) in *.
  assert (Hs : StronglySorted newer_first (merge_sort newer_first l))
    by (apply StronglySorted_merge_sort; apply _).
  assert (Hn : NoDup (alert_id <$> merge_sort newer_first l)) by (by rewrite merge_sort_Permutation).
  revert Hs Hn. generalize (merge_sort newer_first l). intros s.
  induction 1 as [|a s Hs IH Ha]; [constructor|]. rewrite fmap_cons, NoDup_cons. intros [Hna Hn].
  constructor; [auto|]. rewrite Forall_forall in *. intros b Hb. specialize (Ha b Hb).
  assert (alert_id a ≠ alert_id b); [|unfold newer_first in Ha; lia].
  intros E. apply Hna. rewrite E. apply list_elem_of_fmap. eauto.
Qed.

(** A descending list is determined by its members. *)
Lemma descending_unique l k :
  descending l → descending k → (∀ a, a ∈ l ↔ a ∈ k) → l = k.
Proof.
  intros Hl. revert k. induction Hl as [|a l Hl IH Ha]; intros k Hk Hin.
  - destruct k as [|b k]; [done|]. exfalso. apply (not_elem_of_nil b), Hin. by left.
  - destruct k as [|b k]; [exfalso; apply (not_elem_of_nil a), Hin; by left|].
    apply StronglySorted_inv in Hk as [Hk Hb]. rewrite Forall_forall in Ha, Hb.
    assert (a = b) as <-.
    { pose proof (proj1 (Hin a) ltac:(by left)) as [->|H1]%elem_of_cons; [done|].
      pose proof (proj2 (Hin b) ltac:(by left)) as [->|H2]%elem_of_cons; [done|].
      specialize (Ha b H2). specialize (Hb a H1). cbn in *. lia. }
    f_equal. apply IH; [done|]. intros x. specialize (Hin x). rewrite !elem_of_cons in Hin.
    split; intros Hx.
    + destruct (proj1 Hin ltac:(by right)) as [->|]; [|done]. specialize (Ha a Hx). cbn in Ha. lia.
    + destruct (proj2 Hin ltac:(by right)) as [->|]; [|done]. specialize (Hb a Hx). cbn in Hb. lia.
Qed.

(** The rows after a page's last one are those below its cursor. *)
Lemma drop_below l r :
  descending l → last (take limit l) = Some r →
  ∀ a, a ∈ drop limit l ↔ a ∈ l ∧ alert_id a < alert_id r.
Proof.
  intros Hl Hr a. destruct (last_Some (take limit l) r) as [Hlr _].
  destruct (Hlr Hr) as [t Ht]. assert (El : l = (t ++ [r]) ++ drop limit l) by (by rewrite <- Ht, take_drop).
  assert (Hs : StronglySorted (λ a b, alert_id b < alert_id a) ((t ++ [r]) ++ drop limit l)) by (by rewrite <- El).
  split.
  - intros Ha. split; [rewrite El; set_solver|].
    apply (StronglySorted_app_1_elem_of _ _ _ _ _ Hs); [set_solver|done].
  - intros [Ha Hlt]. rewrite El in Ha. apply elem_of_app in Ha as [Ha|]; [|done]. exfalso.
    apply StronglySorted_app_1_l in Hs. apply elem_of_app in Ha as [Ha|Ha%list_elem_of_singleton].
    + pose proof (StronglySorted_app_1_elem_of _ _ _ _ _ Hs Ha ltac:(by apply list_elem_of_singleton)). cbn in *. lia.
    + subst. lia.
Qed.

Lemma elem_selected table q a : a ∈ selected table user q ↔ a ∈ table ∧ matches user q a.
Proof. unfold selected. rewrite merge_sort_Permutation, list_elem_of_filter. tauto. Qed.

Lemma matches_before q r a :
  matches user q r → matches user (with_before (alert_id r) q) a ↔ matches user q a ∧ alert_id a < alert_id r.
Proof.
  unfold matches. intros (_ & Hb & _). cbn. unfold bound in *.
  destruct (before_id q), (after_id q), (by_zone q), (by_device q); naive_solver lia.
Qed.

(** One page: the newest matching rows, and a cursor below which the others are. *)
Lemma page_spec t q :
  NoDup (alert_id <$> t) →
  ∃ rows, descending rows ∧ (∀ a, a ∈ rows → a ∈ t ∧ matches user q a) ∧
    ((length rows < limit)%nat ∧ page t user q limit = Ok (mkPage (alert_out <$> rows) None) ∧
       (∀ a, a ∈ t → matches user q a → a ∈ rows) ∨
     length rows = limit ∧ ∃ r, r ∈ rows ∧ (∀ a, a ∈ rows → alert_id r ≤ alert_id a) ∧
       page t user q limit = Ok (mkPage (alert_out <$> rows) (Some (alert_id r))) ∧
       ∀ a, a ∈ t → matches user q a → a ∈ rows ∨ alert_id a < alert_id r).
Proof.
  intros Hnd. pose proof (selected_descending t q Hnd) as Hd. set (sel := selected t user q) in *.
  assert (Hsub : ∀ a, a ∈ take limit sel → a ∈ t ∧ matches user q a).
  { intros a Ha%subseteq_take. by apply elem_selected. }
  assert (Hdr : descending (take limit sel)).
  { rewrite <- (take_drop limit sel) in Hd. by apply StronglySorted_app_1_l in Hd. }
  exists (take limit sel). split; [done|]. split; [done|]. unfold page. fold sel. rewrite length_fmap.
  destruct (decide (length (take limit sel) = limit)) as [Hl|Hl].
  - right. split; [done|]. destruct (last (take limit sel)) as [r|] eqn:Er.
    2:{ apply last_None in Er. rewrite Er in Hl. cbn in Hl. lia. }
    exists r. pose proof (drop_below sel r Hd Er) as Hdrop.
    assert (Hr : r ∈ take limit sel) by (by apply last_Some_elem_of).
    split_and!; [done| |by rewrite fmap_last, Er|].
    + intros a Ha. destruct (Z.le_gt_cases (alert_id r) (alert_id a)) as [?|Hlt]; [done|].
      apply last_Some in Er as [l Hl']. rewrite Hl' in Hdr, Ha.
      apply elem_of_app in Ha as [Ha|Ha%list_elem_of_singleton]; [|subst; lia].
      pose proof (StronglySorted_app_1_elem_of _ _ _ _ _ Hdr Ha ltac:(by apply list_elem_of_singleton)). cbn in *. lia.
    + intros a Ha Hm. assert (Hs : a ∈ sel) by (by apply elem_selected).
      destruct (Z.lt_ge_cases (alert_id a) (alert_id r)) as [?|Hge]; [by right|left].
      rewrite <- (take_drop limit sel) in Hs. apply elem_of_app in Hs as [?|Hs%Hdrop]; [done|lia].
  - left. rewrite length_take in Hl. rewrite take_ge by lia.
    split_and!; [|done|intros a Ha Hm; by apply elem_selected]. lia.
Qed.

Definition out_descending (l : list AlertOut) : Prop := StronglySorted (λ a b, out_id b < out_id a) l.

Lemma descending_out l : descending l → out_descending (alert_out <$> l).
Proof.
  induction 1 as [|a l Hl IH Ha]; cbn; constructor; [done|].
  apply Forall_fmap. eapply Forall_impl; [exact Ha|done].
Qed.

Lemma crawl_spec tables q :
  Forall (λ t, NoDup (alert_id <$> t)) tables →
  ∃ got complete k, crawl tables user q limit = Ok (got, complete) ∧ (k ≤ length tables)%nat ∧
    out_descending got ∧
    (∀ it, it ∈ got → ∃ t r, t ∈ take k tables ∧ r ∈ t ∧ matches user q r ∧ it = alert_out r) ∧
    (complete = true → k = (length got / limit + 1)%nat ∧
       ∀ r, (∀ t, t ∈ take k tables → r ∈ t) → matches user q r → alert_out r ∈ got) ∧
    (complete = false → length got = (limit * length tables)%nat).
Proof.
  revert q. induction tables as [|t tables IH]; intros q Hnd.
  { exists [], false, 0%nat. split_and!; [done|done|constructor|by intros it Hit%elem_of_nil|done|cbn; lia]. }
  apply Forall_cons in Hnd as [Ht Hnd].
  destruct (page_spec t q Ht) as (rows & Hd & Hin & [(Hl & Hp & Hall)|(Hl & r & Hr & Hlow & Hp & Hall)]);
    cbn [crawl]; rewrite Hp; cbn [bind next_before_id items].
  - exists (alert_out <$> rows), true, 1%nat. split_and!; [done|cbn; lia|by apply descending_out| | |done].
    + intros it (a & -> & Ha)%list_elem_of_fmap. destruct (Hin a Ha). exists t, a. split; [by left|done].
    + intros _. rewrite length_fmap, Nat.div_small by lia. split; [done|].
      intros a Ha Hm. apply list_elem_of_fmap_2, Hall; [apply Ha; by left|done].
  - destruct (IH (with_before (alert_id r) q) Hnd) as (got & complete & k & -> & Hk & Hs & Hfrom & Hc & Hi).
    destruct (Hin r Hr) as [Hrt Hrm]. cbn [bind].
    exists ((alert_out <$> rows) ++ got), complete, (S k). split_and!; [done|cbn; lia| | | |].
    + apply StronglySorted_app. split_and!; [|by apply descending_out|done].
      intros a b (a' & -> & Ha)%list_elem_of_fmap (t' & b' & _ & _ & Hm & ->)%Hfrom.
      apply (matches_before q r b' Hrm) in Hm as [_ Hlt]. specialize (Hlow a' Ha). cbn. lia.
    + intros it [Hit|Hit]%elem_of_app.
      * apply list_elem_of_fmap in Hit as (a & -> & Ha). destruct (Hin a Ha). exists t, a. split; [by left|done].
      * destruct (Hfrom it Hit) as (t' & a & Ht' & Ha & Hm & ->). apply (matches_before q r a Hrm) in Hm as [Hm _].
        exists t', a. split; [by right|done].
    + intros Ec. destruct (Hc Ec) as [-> Hcov]. rewrite length_app, length_fmap, Hl. split.
      * replace (limit + length got)%nat with (length got + 1 * limit)%nat by lia. rewrite Nat.div_add by lia. lia.
      * intros a Ha Hm. destruct (Hall a) as [Hrow|Hlt]; [apply Ha; by left|done| |].
        -- apply elem_of_app. left. by apply list_elem_of_fmap_2.
        -- apply elem_of_app. right. apply Hcov; [intros t' Ht'; apply Ha; by right|]. by apply matches_before.
    + intros Ec. rewrite length_app, length_fmap, Hl, (Hi Ec). cbn. lia.
Qed.
End paging.

(** ** Announcing a committed batch *)

Section publisher.
Context `{Orjson}.
(** [alert.model_dump(mode="json")], [None] when the row is not a valid [AlertOut]. *)
Variable model_dump : AlertOut → option json.

Definition PUBLISH_CHUNK : nat := 256.

Definition alert_frame (body : json) : string := dumps (JObj [("type", JStr "alert"); ("alert", body)]).
(** [_frame_for]: a row that cannot be rendered costs only its own frame. *)
Definition frame_for (a : AlertRow) : option string := alert_frame <$> model_dump (alert_out a).

(** The loop of [_fan_out]: the flushes, in order. *)
Fixpoint fan_out_loop (pending : list (string * string)) (als : list AlertRow) : list (list (string * string)) :=
  match als with
  | [] => match pending with [] => [] | _ => [pending] end
  | a :: rest =>
      let pending' := match frame_for a with
                      | Some f => pending ++ [(user_channel (alert_user a), f)]
                      | None => pending
                      end in
      if decide (PUBLISH_CHUNK ≤ length pending')%nat then pending' :: fan_out_loop [] rest
      else fan_out_loop pending' rest
  end.

Definition fan_out_chunks (r : BatchResult) : list (list (string * string)) :=
  fan_out_loop (match accepted_items r with
                | [] => []
                | l => [(POSITIONS_CHANNEL, encode_positions l)]
                end) (result_alerts r).

(** [publish]: what reaches Redis when [flushed] of the flushes succeed before one
    fails. It never raises. *)
Definition publish (r : BatchResult) (flushed : nat) : list (string * string) :=
  if result_is_empty r then [] else concat (take flushed (fan_out_chunks r)).

(** Everything there is to announce, in order. *)
Definition announcements (r : BatchResult) : list (string * string) :=
  (match accepted_items r with [] => [] | l => [(POSITIONS_CHANNEL, encode_positions l)] end)
  ++ omap (λ a, pair (user_channel (alert_user a)) <$> frame_for a) (result_alerts r).

Lemma fan_out_loop_spec pending als :
  (length pending < PUBLISH_CHUNK)%nat →
  concat (fan_out_loop pending als)
    = pending ++ omap (λ a, pair (user_channel (alert_user a)) <$> frame_for a) als ∧
  Forall (λ c, c ≠ [] ∧ length c ≤ PUBLISH_CHUNK)%nat (fan_out_loop pending als).
Proof.
  revert pending. induction als as [|a als IH]; intros pending Hp; cbn [fan_out_loop omap list_omap].
  { destruct pending; cbn; rewrite ?app_nil_r; [done|]. split; [done|].
    constructor; [|constructor]. split; [done|cbn in *; lia]. }
  destruct (frame_for a) as [f|]; cbn [fmap option_fmap option_map].
  - case_decide as Hc.
    + destruct (IH []) as [IH1 IH2]; [cbn; lia|]. cbn [concat]. rewrite IH1, <- app_assoc. split; [done|].
      constructor; [|done]. rewrite length_app in *. cbn in *. split; [by destruct pending|lia].
    + destruct (IH (pending ++ [(user_channel (alert_user a), f)])) as [IH1 IH2]; [lia|].
      rewrite IH1, <- app_assoc. done.
  - rewrite decide_False by lia. apply IH, Hp.
Qed.
End publisher.

(** ** Properties *)

(** C15: paging through the alerts is complete and repeats nothing, whatever happens to
    the table between two pages: alerts of other shards commit in any order, also below
    the cursor, and zones are deleted. Following [next_before_id] gives alerts newest
    first, none of them twice, each one a match of the query in the table its page was
    read from; when the cursor ends, after [n / limit + 1] pages for [n] alerts, every match
    that was in all the tables read is among them; and it ends unless matches keep
    appearing: within [p] pages when fewer than [p * limit] numbers ever match. *)
Theorem alerts_crawl_complete user q limit tables :
  (1 ≤ limit)%nat → Forall (λ t, NoDup (alert_id <$> t)) tables →
  ∃ got complete k, crawl tables user q limit = Ok (got, complete) ∧ (k ≤ length tables)%nat ∧
    StronglySorted (λ a b, out_id b < out_id a) got ∧
    (∀ it, it ∈ got → ∃ t r, t ∈ take k tables ∧ r ∈ t ∧ matches user q r ∧ it = alert_out r) ∧
    (complete = true → k = (length got / limit + 1)%nat ∧
       ∀ r, (∀ t, t ∈ take k tables → r ∈ t) → matches user q r → alert_out r ∈ got) ∧
    (∀ ids, (∀ t r, t ∈ tables → r ∈ t → matches user q r → alert_id r ∈ ids) →
       (length ids < limit * length tables)%nat → complete = true).
Proof.
  intros Hl Hnd. destruct (crawl_spec user limit Hl tables q Hnd) as (got & complete & k & Hg & Hk & Hs & Hfrom & Hc & Hi).
  exists got, complete, k. split_and!; [done..|]. intros ids Hids Hlen.
  destruct complete; [done|]. specialize (Hi eq_refl).
  assert (Hn : NoDup (out_id <$> got)).
  { clear -Hs. induction Hs as [|a l Hs IH Ha]; cbn; constructor; [|done].
    intros (b & E & Hb)%list_elem_of_fmap. rewrite Forall_forall in Ha. specialize (Ha b Hb). cbn in Ha. lia. }
  assert (Hsub : (out_id <$> got) ⊆ ids).
  { intros x (it & -> & Hit)%list_elem_of_fmap. destruct (Hfrom it Hit) as (t & r & Ht & Hr & Hm & ->).
    apply (Hids t r); [by eapply subseteq_take|done|done]. }
  pose proof (NoDup_submseteq _ _ Hn Hsub) as Hle%submseteq_length. rewrite length_fmap in Hle. lia.
Qed.

Module AlertSamples.
Definition alert (id user : Z) : AlertRow :=
  mkAlert id user (Some 1) "depot" "van-7" Enter (flit 50, flit 30) 0 0.
Definition table : list AlertRow := [alert 1 9; alert 2 8; alert 3 9; alert 4 9].
Definition query : AlertQuery := mkQuery None None None None.
End AlertSamples.

(** Alert 0 of another shard becomes visible only after the first page, below its cursor. *)
Lemma alerts_crawl_complete_witness :
  let tables := [AlertSamples.table; AlertSamples.alert 0 9 :: AlertSamples.table ++ [AlertSamples.alert 5 9]] in
  crawl tables 9 AlertSamples.query 2
    = Ok (alert_out <$> [AlertSamples.alert 4 9; AlertSamples.alert 3 9; AlertSamples.alert 1 9; AlertSamples.alert 0 9], false) ∧
  ∃ got complete k, crawl tables 9 AlertSamples.query 2 = Ok (got, complete) ∧ (k ≤ 2)%nat ∧
    StronglySorted (λ a b, out_id b < out_id a) got.
Proof.
  split; [vm_compute; reflexivity|].
  destruct (alerts_crawl_complete 9 AlertSamples.query 2
    [AlertSamples.table; AlertSamples.alert 0 9 :: AlertSamples.table ++ [AlertSamples.alert 5 9]])
    as (got & complete & k & Hg & Hk & Hs & _).
  - lia.
  - repeat constructor; cbn; rewrite ?elem_of_cons, ?elem_of_nil; lia.
  - exists got, complete, k. split; [exact Hg|]. split; [exact Hk|exact Hs].
Defined.

(** What the backfill after a lost connection can miss: the dashboard has rendered alert 5
    and asks for what is newer; alert 4 of a shard that commits after that has the lower
    number and is never among the answers. *)
Lemma late_commit_missed :
  let seen := [AlertSamples.alert 3 9; AlertSamples.alert 5 9] in
  let after := mkQuery None (Some 5) None None in
  crawl [seen ++ [AlertSamples.alert 4 9]; seen ++ [AlertSamples.alert 4 9]] 9 after 100 = Ok ([], true) ∧
  matches 9 AlertSamples.query (AlertSamples.alert 4 9).
Proof. split; [vm_compute; reflexivity|]. split_and!; exact I || reflexivity. Qed.

(** a committed batch is announced completely and in order: the positions first,
    then every alert that can be rendered to its owner's channel, in flushes of at most
    256 messages, none of them empty; when Redis fails part way, what was published is a
    prefix of that. *)
Lemma publish_in_order `{Orjson} model_dump r flushed :
  Forall (λ c, c ≠ [] ∧ length c ≤ PUBLISH_CHUNK)%nat (fan_out_chunks model_dump r) ∧
  concat (fan_out_chunks model_dump r) = announcements model_dump r ∧
  publish model_dump r flushed `prefix_of` announcements model_dump r ∧
  ((length (fan_out_chunks model_dump r) ≤ flushed)%nat →
   publish model_dump r flushed = announcements model_dump r).
Proof.
  assert (Hs : concat (fan_out_chunks model_dump r) = announcements model_dump r ∧
               Forall (λ c, c ≠ [] ∧ length c ≤ PUBLISH_CHUNK)%nat (fan_out_chunks model_dump r)).
  { apply fan_out_loop_spec. destruct (accepted_items r); cbn; unfold PUBLISH_CHUNK; lia. }
  destruct Hs as [H1 H2]. split; [done|]. split; [done|]. unfold publish.
  destruct (result_is_empty r) eqn:E.
  - assert (announcements model_dump r = []) as ->; [|split; [apply prefix_nil|done]].
    unfold result_is_empty in E. apply andb_true_iff in E as [Ea%bool_decide_eq_true Eb%bool_decide_eq_true].
    apply nil_length_inv in Ea, Eb. unfold announcements. by rewrite Ea, Eb.
  - rewrite <- H1. split.
    + exists (concat (drop flushed (fan_out_chunks model_dump r))). by rewrite <- concat_app, take_drop.
    + intros Hf. by rewrite take_ge.
Qed.
