(* ===== verification/Devices.v ===== *)
(** * Device positions and tracks (src/geotrack/db/repositories/devices.py, the routes
    of src/geotrack/api/routes/devices.py and [devices_inside] of geozones.py)

    Reads of the tables the batch statement writes. Timestamps are microseconds. *)
From stdpp Require Import sorting.
From S2P Require Import Prelude Floats Geo Text Json Codec Batch.

Record DevicePositionOut := mkPositionOut {
  d_device : string; d_latitude : float64; d_longitude : float64; d_reported_at : Z; d_received_at : Z }.

Definition position_out (kp : string * DevicePosition) : DevicePositionOut :=
  mkPositionOut kp.1 (position kp.2).1 (position kp.2).2 (reported_at kp.2) (received_at kp.2).

(** [ORDER BY device_id]. *)
Definition device_le (a b : string * DevicePosition) : Prop := String.leb a.1 b.1 = true.
#[export] Instance device_le_dec a b : Decision (device_le a b).
Proof. unfold device_le. apply _. Defined.

(** ** Latest positions *)

(** One [BETWEEN] pair of the WHERE clause. *)
Definition in_part (p : BBox) (pos : Point) : bool :=
  fleb (west p) pos.2 && fleb pos.2 (east p) && (fleb (south p) pos.1 && fleb pos.1 (north p)).

Definition select_positions (P : Point → bool) (limit : nat) (db : Db) : list DevicePositionOut :=
  position_out <$> take limit (merge_sort device_le
    (filter (λ kp : string * DevicePosition, P (position kp.2) = true) (map_to_list (device_positions db)))).

Definition in_bbox (bbox : option BBox) (limit : nat) (db : Db) : res (list DevicePositionOut) :=
  match bbox with
  | None => Ok (select_positions (λ _, true) limit db)
  | Some b => let! ps := parts b in
              Ok (select_positions (λ pos, existsb (λ p, in_part p pos) ps) limit db)
  end.

Definition get (device : string) (db : Db) : option DevicePositionOut :=
  (λ p, position_out (device, p)) <$> device_positions db !! device.

(** [devices_inside]: [ST_DWithin(position, center, radius)]. *)
Definition devices_inside (st_dwithin : Point → Point → float64 → bool)
    (latitude longitude radius : float64) (limit : nat) (db : Db) : list DevicePositionOut :=
  select_positions (λ pos, st_dwithin pos (latitude, longitude) radius) limit db.

(** ** Tracks *)

Record TrackPoint := mkPoint { t_latitude : float64; t_longitude : float64; t_reported_at : Z }.

Definition track_point (r : Z * (Point * Z)) : TrackPoint := mkPoint r.2.1.1 r.2.1.2 r.1.

Definition later_first (a b : Z * (Point * Z)) : Prop := b.1 ≤ a.1.
Definition earlier_first (a b : Z * (Point * Z)) : Prop := a.1 ≤ b.1.
#[export] Instance later_first_dec a b : Decision (later_first a b).
Proof. unfold later_first. apply _. Defined.
#[export] Instance earlier_first_dec a b : Decision (earlier_first a b).
Proof. unfold earlier_first. apply _. Defined.

(** [WHERE device_id = :device_id AND reported_at >= :since AND reported_at < :until]. *)
Definition window (device : string) (since until : Z) (db : Db) : list (Z * (Point * Z)) :=
  omap (λ kv : string * Z * (Point * Z),
          if decide (kv.1.1 = device ∧ since ≤ kv.1.2 < until) then Some (kv.1.2, kv.2) else None)
    (map_to_list (location_history db)).

(** The inner query walks backwards from [until], the outer one puts the result in order. *)
Definition recent (device : string) (since until : Z) (limit : nat) (db : Db) : list (Z * (Point * Z)) :=
  merge_sort earlier_first (take limit (merge_sort later_first (window device since until db))).
Definition track (device : string) (since until : Z) (limit : nat) (db : Db) : list TrackPoint :=
  track_point <$> recent device since until limit db.

Definition DEFAULT_TRACK_WINDOW : Z := 3600 * 1000000.

(** [get_device_track]: [None] is the 422 answer. *)
Definition get_device_track (device : string) (now retention_days : Z) (since until : option Z) (limit : nat)
    (db : Db) : option (list TrackPoint) :=
  let window_end := default now until in
  let window_start := default (window_end - DEFAULT_TRACK_WINDOW) since in
  let window_start := Z.max window_start (now - retention_days * 86400 * 1000000) in
  if decide (window_end ≤ window_start) then None
  else Some (track device window_start window_end limit db).

(** [list_devices]: a box that does not parse answers 422. *)
Inductive ListReply := Devices (items : list DevicePositionOut) | Unprocessable | Crashed (e : exn).
Definition list_devices (float_of_str : string → option float64) (bbox : option string) (limit : nat) (db : Db)
  : ListReply :=
  match bbox with
  | None => match in_bbox None limit db with Ok l => Devices l | Raise e => Crashed e end
  | Some raw =>
      match bbox_parse float_of_str raw with
      | Raise (ValueError _) => Unprocessable
      | Raise e => Crashed e
      | Ok b => match in_bbox (Some b) limit db with Ok l => Devices l | Raise e => Crashed e end
      end
  end.

(** ** What the reads return *)

#[local] Instance device_le_total : Total device_le.
Proof. intros a b. unfold device_le. destruct (String.leb_total a.1 b.1); auto. Qed.
#[local] Instance later_first_total : Total later_first.
Proof. intros a b. unfold later_first. lia. Qed.
#[local] Instance later_first_trans : Transitive later_first.
Proof. intros a b c. unfold later_first. lia. Qed.
#[local] Instance earlier_first_total : Total earlier_first.
Proof. intros a b. unfold earlier_first. lia. Qed.
#[local] Instance earlier_first_trans : Transitive earlier_first.
Proof. intros a b c. unfold earlier_first. lia. Qed.

(** The specification of a bounded, ordered read of the positions satisfying [P]. *)
Definition reads (P : Point → bool) (limit : nat) (db : Db) (items : list DevicePositionOut) : Prop :=
  (length items ≤ limit)%nat ∧ Sorted (λ a b, String.leb a b = true) (d_device <$> items) ∧
  (∀ it, it ∈ items → ∃ d dp, device_positions db !! d = Some dp ∧ it = position_out (d, dp) ∧ P (position dp) = true) ∧
  ((length items < limit)%nat → ∀ d dp, device_positions db !! d = Some dp → P (position dp) = true →
     position_out (d, dp) ∈ items).

Lemma Sorted_take {A} (R : A → A → Prop) n l : Sorted R l → Sorted R (take n l).
Proof.
  revert n. induction l as [|a l IH]; intros [|n] Hs; try constructor.
  - apply IH. by apply Sorted_inv in Hs as [? _].
  - apply Sorted_inv in Hs as [_ Hh]. destruct l, n; cbn; constructor. by apply HdRel_inv in Hh.
Qed.

Lemma select_reads P limit db : reads P limit db (select_positions P limit db).
Proof.
  unfold select_positions. set (l := filter _ _). assert (Hl : ∀ kp, kp ∈ merge_sort device_le l ↔
    device_positions db !! kp.1 = Some kp.2 ∧ P (position kp.2) = true).
  { intros [k p]. rewrite merge_sort_Permutation. unfold l. rewrite list_elem_of_filter, elem_of_map_to_list. cbn. tauto. }
  split; [|split; [|split]].
  - rewrite length_fmap, length_take. lia.
  - assert (Hs : Sorted device_le (take limit (merge_sort device_le l)))
      by (apply Sorted_take, Sorted_merge_sort; apply _).
    revert Hs. generalize (take limit (merge_sort device_le l)). intros k. induction 1 as [|a k _ IH Hh]; [constructor|].
    cbn. constructor; [done|]. by destruct Hh; constructor.
  - intros it (kp & -> & Hk)%list_elem_of_fmap. apply subseteq_take in Hk. apply Hl in Hk as [? ?].
    destruct kp as [d dp]. eauto.
  - rewrite length_fmap, length_take. intros Hlt d dp Hd HP. apply list_elem_of_fmap. exists (d, dp).
    split; [done|]. rewrite take_ge by lia. by apply Hl.
Qed.

Lemma in_part_contains p pos :
  crosses_antimeridian p = false → Geo.contains p pos.1 pos.2 = in_part p pos.
Proof.
  intros Hc. unfold Geo.contains, in_part. rewrite Hc.
  destruct (fleb (south p) pos.1), (fleb pos.1 (north p)), (fleb (west p) pos.2), (fleb pos.2 (east p)); done.
Qed.

Lemma elem_window device since until db t v :
  (t, v) ∈ window device since until db ↔ location_history db !! (device, t) = Some v ∧ since ≤ t < until.
Proof.
  unfold window. rewrite list_elem_of_omap. split.
  - intros ([[d t'] v'] & Hin%elem_of_map_to_list & E). cbn in E. case_decide as Hc; [|done].
    destruct Hc as [-> ?]. simplify_eq. done.
  - intros [Hl Hr]. exists ((device, t), v). split; [by apply elem_of_map_to_list|]. cbn. by rewrite decide_True.
Qed.

Lemma window_NoDup device since until db : NoDup (window device since until db).*1.
Proof.
  unfold window. pose proof (NoDup_fst_map_to_list (location_history db)) as Hnd.
  induction (map_to_list (location_history db)) as [|[[d t] v] l IH]; [constructor|].
  cbn in Hnd. apply NoDup_cons in Hnd as [Hn Hnd]. cbn. case_decide as Hc; [|by apply IH].
  destruct Hc as [-> Hr]. cbn. constructor; [|by apply IH].
  intros ([t' v'] & -> & Hin)%list_elem_of_fmap. cbn in Hn. apply Hn.
  apply list_elem_of_omap in Hin as ([[d' t''] v''] & Hin & E). cbn in E. case_decide as Hc'; [|done].
  destruct Hc' as [-> _]. simplify_eq. apply list_elem_of_fmap. by exists ((device, t'), v').
Qed.

(** ** Properties *)

(** a box query returns the devices inside the box, across the antimeridian too:
    ordered by device, at most [limit], each of them inside, and all of them when the
    limit was not reached. *)
Lemma devices_in_box b limit db :
  post_init b = Ok tt →
  (∀ d dp, device_positions db !! d = Some dp →
     fleb (flit (-180)) (position dp).2 = true ∧ fleb (position dp).2 (flit 180) = true) →
  ∃ items, in_bbox (Some b) limit db = Ok items ∧
           reads (λ pos, Geo.contains b pos.1 pos.2) limit db items.
Proof.
  intros Hb Hpos.
  destruct (parts_cover b (flit 0) (flit 0) Hb) as (ps & Hps & Hok & _); [vm_compute; reflexivity..|].
  cbn [in_bbox]. rewrite Hps. cbn. eexists. split; [done|].
  destruct (select_reads (λ pos, existsb (λ p, in_part p pos) ps) limit db) as (H1 & H2 & H3 & H4).
  assert (Heq : ∀ d dp, device_positions db !! d = Some dp →
    Geo.contains b (position dp).1 (position dp).2 = existsb (λ p, in_part p (position dp)) ps).
  { intros d dp Hd. destruct (Hpos d dp Hd) as [Hlo Hhi].
    destruct (parts_cover b (position dp).1 (position dp).2 Hb Hlo Hhi) as (ps' & Hps' & Hok' & ->).
    rewrite Hps in Hps'. simplify_eq. clear -Hok. induction Hok as [|p ps [_ Hc] _ IH]; [done|].
    cbn. by rewrite IH, in_part_contains. }
  split; [done|]. split; [done|]. split.
  - intros it Hit. destruct (H3 it Hit) as (d & dp & Hd & -> & Hin). exists d, dp. by rewrite (Heq d dp).
  - intros Hlt d dp Hd Hin. apply H4; [done|done|]. by rewrite <- (Heq d dp).
Qed.

(** a track is the most recent part of the window, oldest first: the points are
    history points of the device inside the window, ordered by time; no more than
    [limit]; and a point that was left out is older than every point returned, and only
    left out because the limit was reached. *)
Lemma track_is_most_recent device since until limit db :
  let pts := recent device since until limit db in
  track device since until limit db = track_point <$> pts ∧
  Sorted Z.le pts.*1 ∧ length pts = Nat.min limit (length (window device since until db)) ∧
  (∀ t v, (t, v) ∈ pts → location_history db !! (device, t) = Some v ∧ since ≤ t < until) ∧
  (∀ t v, location_history db !! (device, t) = Some v → since ≤ t < until → (t, v) ∉ pts →
     length pts = limit ∧ ∀ q, q ∈ pts → t < q.1).
Proof.
  cbn zeta. split; [done|]. unfold recent. set (w := window device since until db).
  set (ls := merge_sort later_first w). split; [|split; [|split]].
  - assert (Hs : Sorted earlier_first (merge_sort earlier_first (take limit ls)))
      by (apply Sorted_merge_sort; apply _).
    induction Hs as [|a k _ IH Hh]; [constructor|]. cbn. constructor; [done|]. by destruct Hh; constructor.
  - rewrite merge_sort_Permutation, length_take. unfold ls. by rewrite merge_sort_Permutation.
  - intros t v. rewrite merge_sort_Permutation. intros H%subseteq_take. unfold ls in H.
    rewrite merge_sort_Permutation in H. by apply elem_window.
  - intros t v Hl Hr. rewrite merge_sort_Permutation. intros Hn.
    assert (Hw : (t, v) ∈ ls) by (unfold ls; rewrite merge_sort_Permutation; by apply elem_window).
    assert (Hd : (t, v) ∈ drop limit ls).
    { rewrite <- (take_drop limit ls) in Hw. by apply elem_of_app in Hw as [?|?]. }
    split.
    { rewrite length_take. assert (drop limit ls ≠ []) by (intros E; rewrite E in Hd; by apply elem_of_nil in Hd).
      assert (length (drop limit ls) ≠ 0)%nat by (by intros ?%nil_length_inv). rewrite length_drop in *. lia. }
    intros q. rewrite merge_sort_Permutation. intros Hq.
    assert (Hs : StronglySorted later_first (take limit ls ++ drop limit ls))
      by (rewrite take_drop; apply StronglySorted_merge_sort; apply _).
    pose proof (StronglySorted_app_1_elem_of _ _ _ _ _ Hs Hq Hd) as Hle. unfold later_first in Hle. cbn in Hle.
    assert (Hnd : NoDup (take limit ls ++ drop limit ls).*1).
    { rewrite take_drop. unfold ls. rewrite merge_sort_Permutation. apply window_NoDup. }
    rewrite fmap_app in Hnd. apply NoDup_app in Hnd as (_ & Hdis & _).
    destruct (decide (t = q.1)) as [->|]; [|lia]. exfalso. apply (Hdis q.1).
    + apply list_elem_of_fmap. eauto.
    + apply list_elem_of_fmap. by exists (q.1, v).
Qed.

Lemma devices_in_box_witness :
  ∃ items, in_bbox (Some pacific) 10 (mkDb ∅ {["van-7" := mkPosition (flit 0, flit 175) 1 1 1]} ∅ [] no_identity ∅) = Ok items ∧
           reads (λ pos, Geo.contains pacific pos.1 pos.2) 10
             (mkDb ∅ {["van-7" := mkPosition (flit 0, flit 175) 1 1 1]} ∅ [] no_identity ∅) items.
Proof.
  apply (devices_in_box pacific 10); [vm_compute; reflexivity|].
  intros d dp Hd. cbn in Hd. apply lookup_singleton_Some in Hd as [_ <-]. split; vm_compute; reflexivity.
Defined.
