(* ===== verification/Leases.v ===== *)
(** * Shard ownership (src/geotrack/processor/leases.py)

    Redis is the interface below: a key holds a value until its deadline. The two Lua
    scripts are part of the source and are written out. *)
From stdpp Require Import sorting.
From S2P Require Import Prelude Floats Text Keys.

(** ** The part of Redis the leases use *)

(** [holds s now k] is the value and the deadline of a key at a moment. *)
Class LeaseStore (S : Type) := {
  holds : S → Z → string → option (string * Z);
  set_nx_px : S → Z → string → string → Z → S * bool;  (* SET k v NX PX ttl *)
  pexpire : S → Z → string → Z → S * bool;             (* PEXPIRE k ttl *)
  del : S → Z → string → S * bool                       (* DEL k *)
}.

Class LeaseStoreLaws (S : Type) `{LeaseStore S} : Prop := {
  holds_later s now now' k : now ≤ now' →
    holds s now' k = match holds s now k with
                     | Some (v, e) => if now' <? e then Some (v, e) else None
                     | None => None
                     end;
  holds_set s now k v ttl k' : 0 < ttl →
    (set_nx_px s now k v ttl).2 = bool_decide (holds s now k = None) ∧
    holds (set_nx_px s now k v ttl).1 now k'
    = if decide (k' = k ∧ holds s now k = None) then Some (v, now + ttl) else holds s now k';
  holds_pexpire s now k ttl k' : 0 < ttl →
    (pexpire s now k ttl).2 = bool_decide (holds s now k ≠ None) ∧
    holds (pexpire s now k ttl).1 now k'
    = if decide (k' = k)
      then (λ ve, (ve.1, now + ttl)) <$> holds s now k else holds s now k';
  holds_del s now k k' :
    (del s now k).2 = bool_decide (holds s now k ≠ None) ∧
    holds (del s now k).1 now k' = if decide (k' = k) then None else holds s now k'
}.

(** Redis as a finite map with deadlines. *)
Notation Redis := (gmap string (string * Z)).

#[export] Instance redis_store : LeaseStore Redis := {
  holds s now k := s !! k ≫= λ ve, if now <? ve.2 then Some ve else None;
  set_nx_px s now k v ttl :=
    match s !! k ≫= λ ve, if now <? ve.2 then Some ve else None with
    | Some _ => (s, false)
    | None => (<[k := (v, now + ttl)]> s, true)
    end;
  pexpire s now k ttl :=
    match s !! k ≫= λ ve, if now <? ve.2 then Some ve else None with
    | Some ve => (<[k := (ve.1, now + ttl)]> s, true)
    | None => (s, false)
    end;
  del s now k :=
    match s !! k ≫= λ ve, if now <? ve.2 then Some ve else None with
    | Some _ => (delete k s, true)
    | None => (s, false)
    end }.

#[export] Instance redis_store_laws : LeaseStoreLaws Redis.
Proof.
  split.
  - intros s now now' k Hle. cbn. destruct (s !! k) as [[v e]|]; cbn; [|done].
    destruct (now <? e) eqn:E1, (now' <? e) eqn:E2; cbn; rewrite ?E2; try done; lia.
  - intros s now k v ttl k' Ht. cbn.
    destruct (s !! k ≫= _) as [ve|] eqn:E; cbn; (split; [by rewrite ?bool_decide_eq_true_2, ?bool_decide_eq_false_2|]).
    + rewrite decide_False by naive_solver. done.
    + destruct (decide (k' = k)) as [->|].
      * rewrite decide_True by done. rewrite lookup_insert_eq. cbn. rewrite (proj2 (Z.ltb_lt _ _)); [done|lia].
      * rewrite decide_False by naive_solver. by rewrite lookup_insert_ne by done.
  - intros s now k ttl k' Ht. cbn.
    destruct (s !! k ≫= _) as [ve|] eqn:E; cbn; (split; [by rewrite ?bool_decide_eq_true_2, ?bool_decide_eq_false_2 by naive_solver|]).
    + case_decide; [subst|by rewrite lookup_insert_ne by done].
      rewrite lookup_insert_eq. cbn. rewrite (proj2 (Z.ltb_lt _ _)); [done|lia].
    + case_decide; [by subst|done].
  - intros s now k k'. cbn.
    destruct (s !! k ≫= _) as [ve|] eqn:E; cbn; (split; [by rewrite ?bool_decide_eq_true_2, ?bool_decide_eq_false_2 by naive_solver|]).
    + case_decide; [subst; by rewrite lookup_delete_eq|by rewrite lookup_delete_ne by done].
    + case_decide; [by subst|done].
Qed.

(** ** Fair shares *)

Record RebalancePlan := mkPlan {
  live : Z; target : Z; candidates : list Z; release : list Z }.

(** [math.ceil]. *)
Definition ceil (x : float64) : res Z := let! f := floor (fneg x) in Ok (- f).

Definition fair_share_plan (shards : Z) (owned : gset Z) (live offset : Z) : res RebalancePlan :=
  let live := Z.max live 1 in
  let! q := int_truediv shards live in
  let! target := ceil q in
  let surplus := Z.of_nat (size owned) - target in
  if 0 <? surplus then
    Ok (mkPlan live target []
          (take (Z.to_nat surplus) (merge_sort Z.ge (elements owned))))
  else
    let rotation := if decide (shards = 0) then 0 else offset mod shards in
    let order := (λ step, (rotation + step) mod shards) <$> seqZ 0 shards in
    let candidates := if surplus <? 0 then filter (λ s, s ∉ owned) order else [] in
    Ok (mkPlan live target candidates []).

(** [math.ceil(a / b)] is the integer ceiling: the division rounds, but not across an
    integer. *)
Lemma ceil_truediv a b :
  0 ≤ a < 2 ^ 53 → 0 < b < 2 ^ 53 →
  ∃ q, int_truediv a b = Ok q ∧ ceil q = Ok ((a + b - 1) / b).
Proof.
  intros Ha Hb. pose proof u_pos as Hu. unfold int_truediv. rewrite (proj2 (Z.eqb_neq b 0)) by lia.
  rewrite Z.sgn_pos, Z.abs_eq, Z.mul_1_l by lia.
  set (k := (a + b - 1) / b). set (R := rnd (a * u) b).
  pose proof (Z.div_mod (a + b - 1) b ltac:(lia)) as Hdm.
  pose proof (Z.mod_pos_bound (a + b - 1) b ltac:(lia)) as Hmod. fold k in Hdm.
  assert (Hk : 0 ≤ k ≤ a) by nia.
  assert (HR : R ≤ k * u).
  { unfold R. transitivity (rnd (b * (k * u)) (b * 1)).
    - rewrite Z.mul_1_r. apply rnd_mono; nia.
    - rewrite rnd_scale by lia. pose proof (rnd_exact k 1074 ltac:(lia) ltac:(lia)) as E.
      fold u in E. lia. }
  assert (Hlow : (k - 1) * u < R).
  { unfold R, rnd. destruct (a * u <? 0) eqn:E; [nia|].
    pose proof (round_pos_error (a * u) b ltac:(nia) ltac:(lia)) as Herr.
    assert (Hexp : b * 2 ^ expo (a * u) b < 2 * u).
    { destruct (decide (0 < expo (a * u) b)) as [He|He].
      - pose proof (expo_lower (a * u) b ltac:(nia) ltac:(lia) He) as Hl.
        rewrite Z.pow_add_r in Hl by lia.
        assert (b * 2 ^ expo (a * u) b * 2 ^ 52 < 2 * u * 2 ^ 52) by nia. nia.
      - pose proof (expo_nonneg (a * u) b). replace (expo (a * u) b) with 0 by lia.
        unfold u. change (2 ^ 0) with 1. assert (2 ^ 53 < 2 * 2 ^ 1074) by (by vm_compute). lia. }
    nia. }
  assert (HRabs : Z.abs R < 2 ^ 2098).
  { assert (k * u < 2 ^ 53 * u) by nia. assert (2 ^ 53 * u < 2 ^ 2098) by (by vm_compute). nia. }
  rewrite of_rounded_Fin by done. eexists. split; [done|]. cbn. f_equal.
  assert (E : (- R) / u = - k); [|lia]. symmetry. apply (Z.div_unique _ _ _ (k * u - R)); nia.
Qed.

Section plan.
Lemma rotation_elem shards rotation s :
  0 < shards → s ∈ (λ step, (rotation + step) mod shards) <$> seqZ 0 shards ↔ 0 ≤ s < shards.
Proof.
  intros Hs. rewrite list_elem_of_fmap. setoid_rewrite elem_of_seqZ. split.
  - intros (x & -> & _). apply Z.mod_pos_bound. lia.
  - intros Hr. exists ((s - rotation) mod shards). pose proof (Z.mod_pos_bound (s - rotation) shards Hs).
    split; [|lia]. rewrite Zplus_mod_idemp_r. replace (rotation + (s - rotation)) with s by lia.
    by rewrite Z.mod_small.
Qed.

Lemma rotation_NoDup shards rotation :
  0 < shards → NoDup ((λ step, (rotation + step) mod shards) <$> seqZ 0 shards).
Proof.
  intros Hs. apply NoDup_fmap_2_strong; [|apply NoDup_seqZ].
  intros x y Hx%elem_of_seqZ Hy%elem_of_seqZ E.
  pose proof (Z.div_mod (rotation + x) shards ltac:(lia)) as Ex.
  pose proof (Z.div_mod (rotation + y) shards ltac:(lia)) as Ey.
  rewrite E in Ex. generalize dependent ((rotation + x) / shards).
  generalize dependent ((rotation + y) / shards). intros q Ey q' Ex.
  destruct (Z.lt_trichotomy q q') as [?|[->|?]]; nia.
Qed.

#[local] Instance ge_total : Total Z.ge.
Proof. intros x y. lia. Qed.
#[local] Instance ge_trans : Transitive Z.ge.
Proof. intros x y z. lia. Qed.

Lemma release_highest (owned : gset Z) n r k :
  r ∈ take n (merge_sort Z.ge (elements owned)) → k ∈ owned →
  k ∉ take n (merge_sort Z.ge (elements owned)) → k < r.
Proof.
  intros Hr Hk Hnk. set (l := merge_sort Z.ge (elements owned)) in *.
  assert (Hl : k ∈ l) by (unfold l; rewrite merge_sort_Permutation; by apply elem_of_elements).
  rewrite <- (take_drop n l) in Hl. apply elem_of_app in Hl as [?|Hl]; [done|].
  assert (Hs : StronglySorted Z.ge (take n l ++ drop n l)).
  { rewrite take_drop. apply StronglySorted_merge_sort; apply _. }
  pose proof (StronglySorted_app_1_elem_of _ _ _ _ _ Hs Hr Hl) as Hge.
  destruct (decide (r = k)) as [->|]; [done|lia].
Qed.

Lemma release_owned (owned : gset Z) n :
  (n ≤ size owned)%nat →
  NoDup (take n (merge_sort Z.ge (elements owned))) ∧
  length (take n (merge_sort Z.ge (elements owned))) = n ∧
  ∀ s, s ∈ take n (merge_sort Z.ge (elements owned)) → s ∈ owned.
Proof.
  intros Hn. set (l := merge_sort Z.ge (elements owned)).
  assert (Hp : l ≡ₚ elements owned) by apply merge_sort_Permutation.
  assert (Hnd : NoDup l) by (rewrite Hp; apply NoDup_elements).
  split_and!.
  - eapply sublist_NoDup; [apply Hnd|apply sublist_take].
  - rewrite length_take, Hp. change (length (elements owned)) with (size owned). lia.
  - intros s Hs. apply (elem_of_elements owned). rewrite <- Hp.
    eapply subseteq_take, Hs.
Qed.
End plan.

(** ** The lease manager *)

Section manager.
Context {S : Type} `{LeaseStoreLaws S}.

(** [GET KEYS[1] == ARGV[1]], then the command. *)
Definition RENEW_SCRIPT (s : S) (now : Z) (key value : string) (ttl : Z) : S * bool :=
  if decide (fst <$> holds s now key = Some value) then pexpire s now key ttl else (s, false).
Definition RELEASE_SCRIPT (s : S) (now : Z) (key value : string) : S * bool :=
  if decide (fst <$> holds s now key = Some value) then del s now key else (s, false).

Definition acquire (ttl_ms : Z) (instance : string) (s : S) (now shard : Z) : S * bool :=
  set_nx_px s now (shard_lease_key shard) instance ttl_ms.
Definition renew (ttl_ms : Z) (instance : string) (s : S) (now shard : Z) : S * bool :=
  RENEW_SCRIPT s now (shard_lease_key shard) instance ttl_ms.
Definition release_lease (instance : string) (s : S) (now shard : Z) : S :=
  (RELEASE_SCRIPT s now (shard_lease_key shard) instance).1.

(** What each replica last heard: the shard is its own until a moment. *)
Record World := mkWorld { store : S; clock : Z; believes : gmap (string * Z) Z }.

Variable ttl_ms : Z.
Hypothesis Httl : 0 < ttl_ms.

(** Replicas call Redis in any order; time passes. A replica believes it owns a
    shard from the moment Redis confirmed it until the lease can have run out. *)
Inductive lease_step : World → World → Prop :=
  | lease_tick w now : clock w ≤ now → lease_step w (mkWorld (store w) now (believes w))
  | lease_acquire w i shard s ok : acquire ttl_ms i (store w) (clock w) shard = (s, ok) →
      lease_step w (mkWorld s (clock w)
        (if ok then <[(i, shard) := clock w + ttl_ms]> (believes w) else believes w))
  | lease_renew w i shard s ok : renew ttl_ms i (store w) (clock w) shard = (s, ok) →
      lease_step w (mkWorld s (clock w)
        (if ok then <[(i, shard) := clock w + ttl_ms]> (believes w) else delete (i, shard) (believes w)))
  (* the consumer has finished before the lease is released *)
  | lease_release w i shard :
      lease_step w (mkWorld (release_lease i (store w) (clock w) shard) (clock w)
        (delete (i, shard) (believes w))).

Definition owns (w : World) (i : string) (shard : Z) : Prop :=
  ∃ until, believes w !! (i, shard) = Some until ∧ clock w < until.

Definition leases_ok (w : World) : Prop :=
  ∀ i shard until, believes w !! (i, shard) = Some until → clock w < until →
    ∃ e, holds (store w) (clock w) (shard_lease_key shard) = Some (i, e) ∧ until ≤ e.

Lemma shard_lease_key_inj a b : shard_lease_key a = shard_lease_key b → a = b.
Proof.
  unfold shard_lease_key. intros E. apply string_app_inv_l in E.
  autorewrite with geotrack in E. by simplify_eq.
Qed.

Lemma lease_step_ok w w' : leases_ok w → lease_step w w' → leases_ok w'.
Proof.
  intros Hok Hstep. destruct Hstep as [w now Hle|w i sh s ok Ha|w i sh s ok Hr|w i sh];
    intros j shard until Hb Hc; cbn in *.
  - destruct (Hok j shard until Hb ltac:(lia)) as (e & He & Hue).
    exists e. split; [|done]. rewrite (holds_later _ (clock w)) by done. rewrite He.
    rewrite (proj2 (Z.ltb_lt now e)) by lia. done.
  - unfold acquire in Ha.
    destruct (holds_set (store w) (clock w) (shard_lease_key sh) i ttl_ms (shard_lease_key shard) Httl)
      as [H1 H2]. rewrite Ha in H1, H2. cbn in H1, H2. subst ok. rewrite H2.
    case_bool_decide as Hn.
    + destruct (decide ((j, shard) = (i, sh))) as [[= -> ->]|Hne].
      * rewrite lookup_insert_eq in Hb. simplify_eq. rewrite decide_True by done. eauto with lia.
      * rewrite lookup_insert_ne in Hb by done. destruct (Hok j shard until Hb Hc) as (e & He & Hue).
        rewrite decide_False; [eauto|]. intros [E _]. rewrite E in He. congruence.
    + rewrite decide_False by naive_solver. eauto.
  - unfold renew, RENEW_SCRIPT in Hr. case_decide as Hv.
    + destruct (holds_pexpire (store w) (clock w) (shard_lease_key sh) ttl_ms (shard_lease_key shard) Httl)
        as [H1 H2]. rewrite Hr in H1, H2. cbn in H1, H2. subst ok. rewrite H2.
      apply fmap_Some in Hv as ([v e] & Hv & ->). cbn in *. rewrite Hv in *.
      rewrite bool_decide_eq_true_2 in Hb by done. cbn.
      destruct (decide ((j, shard) = (v, sh))) as [[= -> ->]|Hne].
      * rewrite lookup_insert_eq in Hb. simplify_eq. rewrite decide_True by done. eauto with lia.
      * rewrite lookup_insert_ne in Hb by done. destruct (Hok j shard until Hb Hc) as (e' & He & Hue).
        rewrite decide_False; [eauto|]. intros E%shard_lease_key_inj. subst. congruence.
    + simplify_eq. apply lookup_delete_Some in Hb as [Hne Hb]. eauto.
  - apply lookup_delete_Some in Hb as [Hne Hb]. destruct (Hok j shard until Hb Hc) as (e & He & Hue).
    exists e. split; [|done]. unfold release_lease, RELEASE_SCRIPT. case_decide as Hv; [|done].
    destruct (holds_del (store w) (clock w) (shard_lease_key sh) (shard_lease_key shard)) as [_ ->].
    rewrite decide_False; [done|]. intros E%shard_lease_key_inj. subst.
    rewrite He in Hv. cbn in Hv. congruence.
Qed.
End manager.

(** *** Membership: [heartbeat], [rebalance] and [deregister] *)

(** The sorted set of live processors: instance id to the moment of its last beat. *)
Notation Members := (gmap string Z).

(** [ZADD], [ZREMRANGEBYSCORE -inf (now - ttl)] and [ZCARD] in one transaction. *)
Definition heartbeat (membership_ttl_ms : Z) (instance : string) (now : Z) (m : Members) : Members * Z :=
  let m' := filter (λ p : string * Z, now - membership_ttl_ms < p.2) (<[instance := now]> m) in
  (m', Z.max (Z.of_nat (size m')) 1).

Definition lease_offset (instance : string) (shards : Z) : Z := crc32 instance mod shards.

Definition rebalance (shards membership_ttl_ms : Z) (instance : string) (now : Z)
    (owned : gset Z) (m : Members) : Members * res RebalancePlan :=
  let '(m', live) := heartbeat membership_ttl_ms instance now m in
  (m', fair_share_plan shards owned live (lease_offset instance shards)).

Definition deregister (instance : string) (m : Members) : Members := delete instance m.

Lemma fair_share_plan_spec shards owned live offset :
  1 ≤ shards < 2 ^ 53 → live < 2 ^ 53 →
  (∀ s, s ∈ owned → 0 ≤ s < shards) →
  ∃ p, fair_share_plan shards owned live offset = Ok p ∧
    Leases.live p = Z.max live 1 ∧ shards ≤ target p * Leases.live p ∧ (target p - 1) * Leases.live p < shards ∧
    let n := Z.of_nat (size owned) in
    (target p < n →
       candidates p = [] ∧ NoDup (release p) ∧ Z.of_nat (length (release p)) = n - target p ∧
       (∀ r, r ∈ release p → r ∈ owned) ∧
       (∀ r k, r ∈ release p → k ∈ owned → k ∉ release p → k < r)) ∧
    (n ≤ target p → release p = []) ∧
    (n = target p → candidates p = []) ∧
    (n < target p →
       NoDup (candidates p) ∧ ∀ s, s ∈ candidates p ↔ 0 ≤ s < shards ∧ s ∉ owned).
Proof.
  intros Hs Hl Hown. unfold fair_share_plan. set (L := Z.max live 1).
  destruct (ceil_truediv shards L) as (q & -> & Hq); [lia..|]. cbn. rewrite Hq. cbn.
  set (T := (shards + L - 1) / L).
  assert (HT : shards ≤ T * L ∧ (T - 1) * L < shards).
  { pose proof (Z.div_mod (shards + L - 1) L ltac:(lia)). pose proof (Z.mod_pos_bound (shards + L - 1) L ltac:(lia)).
    fold T in H. nia. }
  set (n := Z.of_nat (size owned)). destruct (0 <? n - T) eqn:En.
  - eexists. split; [done|]. cbn. split_and!; try lia. intros _.
    destruct (release_owned owned (Z.to_nat (n - T))) as (Hnd & Hlen & Hin).
    { assert (0 < T) by nia. lia. }
    split_and!; [done|done|rewrite Hlen; lia|done|]. intros r k. apply release_highest.
  - eexists. split; [done|]. cbn. split_and!; try lia; try done.
    + intros En'. by rewrite (proj2 (Z.ltb_ge _ _)) by lia.
    + intros Hn. rewrite (proj2 (Z.ltb_lt _ _)) by lia. split.
      * apply NoDup_filter, rotation_NoDup. lia.
      * intros s. rewrite list_elem_of_filter, rotation_elem by lia. naive_solver.
Qed.

(** ** Properties *)

(** C28: a fair share covers the ring and hands back no more than the surplus. The
    targets of the live replicas add up to at least every shard and no replica's
    target could be one less; a replica above its target gives back exactly the
    surplus, its highest shards, and takes none; one below its target is offered
    every shard it does not hold, once each. *)
Theorem fair_share_plan_ok shards owned live offset :
  1 ≤ shards < 2 ^ 53 → live < 2 ^ 53 →
  (∀ s, s ∈ owned → 0 ≤ s < shards) →
  ∃ p, fair_share_plan shards owned live offset = Ok p ∧
    Leases.live p = Z.max live 1 ∧ shards ≤ target p * Leases.live p ∧ (target p - 1) * Leases.live p < shards ∧
    let n := Z.of_nat (size owned) in
    (target p < n →
       candidates p = [] ∧ NoDup (release p) ∧ Z.of_nat (length (release p)) = n - target p ∧
       (∀ r, r ∈ release p → r ∈ owned) ∧
       (∀ r k, r ∈ release p → k ∈ owned → k ∉ release p → k < r)) ∧
    (n ≤ target p → release p = []) ∧
    (n = target p → candidates p = []) ∧
    (n < target p →
       NoDup (candidates p) ∧ ∀ s, s ∈ candidates p ↔ 0 ≤ s < shards ∧ s ∉ owned).
Proof. apply fair_share_plan_spec. Qed.

(** C6: a shard has at most one owner. However replicas interleave acquisitions,
    renewals and releases and however time passes, two replicas never both hold a
    confirmed, unexpired lease of the same shard. *)
Theorem lease_exclusive {S} `{LeaseStoreLaws S} ttl_ms s0 t0 w i j shard :
  0 < ttl_ms →
  rtc (lease_step ttl_ms) (mkWorld s0 t0 ∅) w →
  owns w i shard → owns w j shard → i = j.
Proof.
  intros Httl Hr. assert (Hok : leases_ok w).
  { revert w Hr. apply (rtc_ind_r leases_ok).
    - intros ? ? ? Hb. cbn in Hb. by rewrite lookup_empty in Hb.
    - intros w1 w2 _ Hstep Hok. by eapply lease_step_ok. }
  intros (u1 & Hb1 & Hc1) (u2 & Hb2 & Hc2).
  destruct (Hok _ _ _ Hb1 Hc1) as (e1 & He1 & _), (Hok _ _ _ Hb2 Hc2) as (e2 & He2 & _). congruence.
Qed.

(** [heartbeat] counts exactly the replicas that beat within the membership window,
    this one among them, whatever the set held before. *)
Lemma heartbeat_counts_live membership_ttl_ms instance now m :
  0 < membership_ttl_ms →
  let '(m', live) := heartbeat membership_ttl_ms instance now m in
  live = Z.of_nat (size m') ∧
  ∀ i t, m' !! i = Some t ↔
    (i = instance ∧ t = now) ∨ (i ≠ instance ∧ m !! i = Some t ∧ now - membership_ttl_ms < t).
Proof.
  intros Ht. unfold heartbeat. cbn. set (m' := filter _ _).
  assert (Hi : ∀ i t, m' !! i = Some t ↔
    (i = instance ∧ t = now) ∨ (i ≠ instance ∧ m !! i = Some t ∧ now - membership_ttl_ms < t)).
  { intros i t. unfold m'. rewrite map_lookup_filter_Some. cbn.
    destruct (decide (i = instance)) as [->|Hne].
    - rewrite lookup_insert_eq. split; [intros [[= <-] _]; by left|].
      intros [[_ ->]|[[] _]]; [|done]. split; [done|lia].
    - rewrite lookup_insert_ne by done. naive_solver. }
  split; [|done]. assert (size m' ≠ 0)%nat; [|lia].
  intros E%map_size_empty_inv. specialize (Hi instance now). rewrite E, lookup_empty in Hi. naive_solver.
Qed.

Lemma fair_share_plan_ok_witness :
  ∃ p, fair_share_plan 8 {[0; 1; 2; 3; 4]} 2 3 = Ok p ∧ target p = 4 ∧ release p = [4].
Proof.
  destruct (fair_share_plan_ok 8 {[0; 1; 2; 3; 4]} 2 3) as (p & Hp & _); [lia..| |].
  { intros s Hs. rewrite !elem_of_union, !elem_of_singleton in Hs. lia. }
  exists p. split; [exact Hp|]. vm_compute in Hp. injection Hp as <-. done.
Defined.

(** Replica "a" acquires shard 3; the attempt of "b" is refused. *)
Module LeaseDemo.
Definition w0 : World := mkWorld (∅ : Redis) 100 ∅.
Definition w1 : World :=
  mkWorld (acquire 5000 "a" (store w0) 100 3).1 100 (<[("a", 3) := clock w0 + 5000]> (believes w0)).
Definition w2 : World := mkWorld (acquire 5000 "b" (store w1) 100 3).1 100 (believes w1).

Lemma w2_reachable : rtc (lease_step 5000) w0 w2.
Proof.
  apply (rtc_l _ _ w1).
  - apply (lease_acquire 5000 w0 "a" 3 _ true). vm_compute; reflexivity.
  - apply rtc_once, (lease_acquire 5000 w1 "b" 3 _ false). vm_compute; reflexivity.
Qed.
End LeaseDemo.

Lemma lease_exclusive_witness :
  owns LeaseDemo.w2 "a" 3 ∧ ∀ j, owns LeaseDemo.w2 j 3 → "a" = j.
Proof.
  assert (Ha : owns LeaseDemo.w2 "a" 3) by (exists 5100; split; [vm_compute; reflexivity|cbn; lia]).
  split; [exact Ha|]. intros j Hj.
  apply (lease_exclusive 5000 (∅ : Redis) 100 LeaseDemo.w2 "a" j 3);
    [lia|exact LeaseDemo.w2_reachable|exact Ha|exact Hj].
Defined.
