(* ===== verification/Ingest.v ===== *)
(** * Accepting reports (src/geotrack/ingest, src/geotrack/schemas/ingest.py and the
    ingest routes of src/geotrack/api/routes)

    Pydantic's validators are parameters of the parsers; the monotonic clock is read
    in nanoseconds and wall-clock datetimes in microseconds. *)
From stdpp Require Import sorting.
From S2P Require Import Prelude Floats Clock Text Json JsonRef Keys Codec Protocol.

(** ** The gate (ingest/backlog.py) *)

Record BacklogMonitor := mkMonitor {
  high : Z; low : Z; poll_ms : Z; throttled : bool; backlog : Z }.

Definition new_monitor (high low poll_ms : Z) : res BacklogMonitor :=
  if high <=? low then Raise (ValueError "backlog low watermark must be below the high watermark")
  else Ok (mkMonitor high low poll_ms false 0).

(** [max(1000, int(poll_s * 2000))] with [poll_s = poll_ms / 1000.0]. *)
Definition retry_after_ms (m : BacklogMonitor) : res Z :=
  let! s := fdiv (flit (poll_ms m)) (flit 1000) in
  let! ms := trunc (fmul s (flit 2000)) in
  Ok (Z.max 1000 ms).

(** [refresh] with the lengths the pipeline returned. *)
Definition refresh (lengths : list Z) (m : BacklogMonitor) : BacklogMonitor :=
  let total := foldr Z.add 0 lengths in
  let throttled' := if (high m <=? total) && negb (throttled m) then true
                    else if (total <=? low m) && throttled m then false
                    else throttled m in
  mkMonitor (high m) (low m) (poll_ms m) throttled' total.

(** One round of the polling loop: a failed sample keeps the previous verdict. *)
Definition poll (sample : option (list Z)) (m : BacklogMonitor) : BacklogMonitor :=
  match sample with Some lengths => refresh lengths m | None => m end.

(** ** Parsing (schemas/ingest.py) *)

Record LocationReport := mkReport {
  report_device : string; latitude : float64; longitude : float64; timestamp : Z }.

Definition MAX_REPORT_BYTES : Z := 256.
Definition MIN_PAYLOAD_BYTES : Z := 8 * 1024.
Definition max_payload_bytes (max_items : Z) : Z := Z.max MIN_PAYLOAD_BYTES (max_items * MAX_REPORT_BYTES).

(** One entry of [ValidationError.errors()]. *)
Record PydanticError := mkPydantic {
  error_type : string; error_loc : list string; error_msg : string; actual_length : option Z }.

Inductive ParseError :=
  | EmptyPayload
  | NoReports
  | BatchTooLarge (offered limit : Z)
  | Validation (errors : list PydanticError).

Fixpoint lstrip (s : string) : string :=
  match s with
  | String c s' => if is_space c then lstrip s' else s
  | "" => ""
  end.
Definition batch_limit_error (errors : list PydanticError) (limit : Z) : option ParseError :=
  match filter (λ e, error_type e = "too_long") errors with
  | e :: _ => Some (BatchTooLarge (default (limit + 1) (actual_length e)) limit)
  | [] => None
  end.

Section parsing.
(** [_REPORT_ADAPTER], and the adapters of [_batch_adapters(max_items)]. *)
Variable validate_report : string → list PydanticError + LocationReport.
Variable validate_items : Z → string → list PydanticError + list LocationReport.
Variable validate_envelope : Z → string → list PydanticError + option Z * list LocationReport.

Definition parse_ingest_payload (raw : string) (max_items : Z)
  : ParseError + option Z * list LocationReport :=
  let stripped := lstrip raw in
  match stripped with
  | "" => inl EmptyPayload
  | String c _ =>
      let result :=
        if decide (c = "["%char) then
          match validate_items max_items raw with
          | inl errors => inl errors
          | inr items => inr (None, items)
          end
        else if contains (quoted "items") stripped then validate_envelope max_items raw
        else match validate_report raw with
             | inl errors => inl errors
             | inr report => inr (None, [report])
             end in
      match result with
      | inl errors =>
          match batch_limit_error errors max_items with
          | Some too_large => inl too_large
          | None => inl (Validation errors)
          end
      | inr (seq, []) => inl NoReports
      | inr (seq, items) => inr (seq, items)
      end
  end.
End parsing.

(** [check_report_window]: the index of the first report outside, and the side. *)
Fixpoint check_window_from (index : nat) (reports : list LocationReport) (oldest newest : Z)
  : option (nat * bool) :=
  match reports with
  | [] => None
  | r :: rest =>
      if timestamp r <? oldest then Some (index, false)
      else if newest <? timestamp r then Some (index, true)
      else check_window_from (S index) rest oldest newest
  end.
Definition check_report_window (reports : list LocationReport) (now max_age max_future : Z)
  : option (nat * bool) :=
  check_window_from 0 reports (now - max_age) (now + max_future).

(** [report_window(settings)], in microseconds. *)
Definition report_window (retention_days skew_s : Z) : Z * Z :=
  (retention_days * 86400 * 1000000, skew_s * 1000000).

(** ** Submitting (ingest/service.py) *)

(** Stream names to their entries, oldest first. *)
Notation STREAMS := (gmap string (list string)).

(** How the pipeline ended: all commands ran, or the connection broke after some. *)
Inductive PipeOutcome := Executed | Broken (applied : nat).

Inductive SubmitResult :=
  | Accepted (n : Z)
  | Backpressure (retry_after_ms : Z)
  | RedisDown
  | SubmitRaised (e : exn).

Definition xadd (s : STREAMS) (cmd : string * string) : STREAMS :=
  <[cmd.1 := default [] (s !! cmd.1) ++ [cmd.2]]> s.

Section submit.
Context `{Orjson}.

Definition record_of_report (received_ms : Z) (r : LocationReport) : res LocationRecord :=
  let! ms := to_epoch_ms (timestamp r) in
  Ok (mkRecord (report_device r) (latitude r) (longitude r) ms received_ms).

Definition command_of_report (shards received_ms : Z) (r : LocationReport) : res (string * string) :=
  let! rec := record_of_report received_ms r in
  let! shard := shard_for (report_device r) shards in
  Ok (ingest_stream shard, encode_record rec).

Definition submit (shards : Z) (m : BacklogMonitor) (time_ns : Z) (o : PipeOutcome)
    (reports : list LocationReport) (s : STREAMS) : STREAMS * SubmitResult :=
  match reports with
  | [] => (s, Accepted 0)
  | _ =>
      if throttled m then
        (s, match retry_after_ms m with Ok ms => Backpressure ms | Raise e => SubmitRaised e end)
      else
        match traverse (command_of_report shards (now_ms time_ns)) reports with
        | Raise e => (s, SubmitRaised e)
        | Ok cmds =>
            match o with
            | Executed => (foldl xadd s cmds, Accepted (Z.of_nat (length reports)))
            | Broken n => (foldl xadd s (take n cmds), RedisDown)
            end
        end
  end.
End submit.

(** ** Bad frames (api/routes/ws_ingest.py, Gateway._reject) *)

(** [while events and events[0] is too old: events.popleft()]. *)
Fixpoint pop_while (old : Z → bool) (events : list Z) : list Z :=
  match events with
  | t :: rest => if old t then pop_while old rest else events
  | [] => []
  end.

Definition MALFORMED_LIMIT : nat := 20.
Definition MALFORMED_WINDOW : Z := 60 * 1000000000.

(** [MalformedBudget.record]: the events kept, and whether the budget still holds. *)
Definition budget_record (limit : nat) (window now : Z) (events : list Z) : list Z * bool :=
  let events' := pop_while (λ t, window <? now - t) (events ++ [now]) in
  (events', bool_decide (length events' ≤ limit)%nat).

(** ** One device connection *)

Inductive Out := SendText (frame : string) | CloseWith (code : Z) (reason : string).

Record DeviceSession := mkSession { budget : list Z; quiet_until : Z }.

(** What [describe_errors] makes of the errors. *)
Definition describe_error (e : PydanticError) : string :=
  match error_loc e with
  | [] => error_msg e
  | loc => join "." loc +:+ ": " +:+ error_msg e
  end.
Definition describe_errors (errors : list PydanticError) : string :=
  join "; " (describe_error <$> errors).

Definition parse_error_text (e : ParseError) : string :=
  match e with
  | EmptyPayload => "empty payload"
  | NoReports => "payload contains no reports"
  | BatchTooLarge offered limit =>
      "payload contains " +:+ pretty offered +:+ " reports, the limit is " +:+ pretty limit
  | Validation errors => describe_errors errors
  end.

Section session.
Context `{Orjson}.
Variable validate_report : string → list PydanticError + LocationReport.
Variable validate_items : Z → string → list PydanticError + list LocationReport.
Variable validate_envelope : Z → string → list PydanticError + option Z * list LocationReport.
(** The rendering of a [timedelta] in an out-of-window message. *)
Variable window_text : nat → bool → string.
Variables (shards ingest_max_batch retention_days skew_s : Z).

(** What the outside world shows the handler of one frame: the monotonic clock, the
    wall clock in microseconds and nanoseconds, the gate when the reports are
    submitted, and how the pipeline ends. *)
Record Moment := mkMoment {
  monotonic : Z; utc_now : Z; time_ns : Z; gate : BacklogMonitor; pipe : PipeOutcome }.

Definition notify_throttled (force : bool) (m : Moment) (st : DeviceSession)
  : DeviceSession * res (list Out) :=
  if (monotonic m <? quiet_until st) && negb force then (st, Ok [])
  else match retry_after_ms (gate m) with
       | Raise e => (st, Raise e)
       | Ok ms => (mkSession (budget st) (monotonic m + ms * 1000000),
                   Ok [SendText (throttle_frame ms)])
       end.

(** [_reject]: the answer, and whether the connection goes on. *)
Definition reject (code detail : string) (m : Moment) (st : DeviceSession)
  : DeviceSession * list Out * bool :=
  let '(events, ok) := budget_record MALFORMED_LIMIT MALFORMED_WINDOW (monotonic m) (budget st) in
  let st' := mkSession events (quiet_until st) in
  let answer := SendText (error_frame code detail None) in
  if ok then (st', [answer], true)
  else (st', [answer; CloseWith CLOSE_PROTOCOL_ERROR "too many malformed frames"], false).

(** [_handle]. *)
Definition handle (raw : string) (m : Moment) (st : DeviceSession) (s : STREAMS)
  : DeviceSession * STREAMS * res (list Out * bool) :=
  let max_frame := max_payload_bytes ingest_max_batch in
  let rejected code detail :=
    let '(st', out, go) := reject code detail m st in (st', s, Ok (out, go)) in
  if max_frame <? Z.of_nat (String.length raw) then
    rejected "payload_too_large"
      ("Frame exceeds " +:+ pretty max_frame +:+ " bytes; send smaller batches.")
  else
    match parse_ingest_payload validate_report validate_items validate_envelope raw ingest_max_batch with
    | inl (BatchTooLarge _ _ as e) => rejected "payload_too_large" (parse_error_text e)
    | inl e => rejected "validation_error" (parse_error_text e)
    | inr (seq, reports) =>
        let '(max_age, max_future) := report_window retention_days skew_s in
        match check_report_window reports (utc_now m) max_age max_future with
        | Some (i, future) =>
            (st, s, Ok ([SendText (error_frame "out_of_window"
                           ("items[" +:+ pretty i +:+ "]: " +:+ window_text i future) seq)], true))
        | None =>
            match submit shards (gate m) (time_ns m) (pipe m) reports s with
            | (s', Accepted n) =>
                (st, s', Ok (match seq with Some q => [SendText (ack_frame q n)] | None => [] end, true))
            | (s', Backpressure _) =>
                let '(st', r) := notify_throttled true m st in
                (st', s', let! out := r in Ok (out, true))
            | (s', RedisDown) =>
                (st, s', Ok ([SendText (error_frame "ingest_unavailable"
                                "The ingestion queue is not reachable." seq)], true))
            | (s', SubmitRaised e) => (st, s', Raise e)
            end
        end
    end.

(** One turn of the loop of [run] on a received frame. *)
Definition on_frame (gate_shut : bool) (raw : string) (m : Moment) (st : DeviceSession) (s : STREAMS)
  : DeviceSession * STREAMS * res (list Out * bool) :=
  if gate_shut then
    let '(st', r) := notify_throttled false m st in
    (st', s, let! out := r in Ok (out, true))
  else handle raw m st s.
End session.

(** ** HTTP (api/routes/ingest.py) *)

Inductive Response :=
  | Accepted202 (n : Z)
  | Problem (status : Z) (code detail : string) (retry_after : option Z)
  | Unhandled (e : exn).

Definition throttled_problem (retry_after_ms : Z) : Response :=
  Problem 503 "ingest_throttled" "The ingestion backlog is above its high watermark. Retry shortly."
    (Some (Z.max 1 (round_half_even retry_after_ms 1000))).

Definition too_large (ceiling max_batch : Z) : Response :=
  Problem 413 "payload_too_large"
    ("Bodies above " +:+ pretty ceiling +:+ " bytes are refused; a request carries at most "
     +:+ pretty max_batch +:+ " reports.") None.

(** The body as it arrives: chunks, then the end or a disconnect. *)
Inductive BodyEnd := Complete | Disconnected.

Section http.
Context `{Orjson}.
Variable validate_report : string → list PydanticError + LocationReport.
Variable validate_items : Z → string → list PydanticError + list LocationReport.
Variable validate_envelope : Z → string → list PydanticError + option Z * list LocationReport.
Variable window_text : nat → bool → string.
Variable int_of_str : string → option Z.
Variables (shards ingest_max_batch retention_days skew_s : Z).

Definition check_declared_length (declared : option string) (ceiling max_batch : Z) : option Response :=
  match declared with
  | None => None
  | Some text =>
      match int_of_str text with
      | None => Some (Problem 400 "bad_request" "Content-Length is not a number." None)
      | Some n => if ceiling <? n then Some (too_large ceiling max_batch) else None
      end
  end.

Fixpoint read_chunks (ceiling max_batch : Z) (body : string) (chunks : list string) (e : BodyEnd)
  : Response + string :=
  match chunks with
  | [] => match e with
          | Complete => inr body
          | Disconnected => inl (Problem 408 "client_disconnected"
                                   "The connection closed before the whole body arrived." None)
          end
  | c :: rest =>
      let body' := body +:+ c in
      if ceiling <? Z.of_nat (String.length body') then inl (too_large ceiling max_batch)
      else read_chunks ceiling max_batch body' rest e
  end.

Definition read_bounded_body (declared : option string) (chunks : list string) (e : BodyEnd)
    (max_batch : Z) : Response + string :=
  let ceiling := max_payload_bytes max_batch in
  match check_declared_length declared ceiling max_batch with
  | Some problem => inl problem
  | None => read_chunks ceiling max_batch "" chunks e
  end.

Definition validation_problem (detail : string) : Response :=
  Problem 422 "validation_error" detail None.

Definition ingest_locations (gate_at_entry : BacklogMonitor) (declared : option string)
    (chunks : list string) (e : BodyEnd) (m : Moment) (s : STREAMS) : STREAMS * Response :=
  if throttled gate_at_entry then
    (s, match retry_after_ms gate_at_entry with Ok ms => throttled_problem ms | Raise x => Unhandled x end)
  else
    match read_bounded_body declared chunks e ingest_max_batch with
    | inl problem => (s, problem)
    | inr raw =>
        match parse_ingest_payload validate_report validate_items validate_envelope raw ingest_max_batch with
        | inl (Validation _) =>
            (s, validation_problem "One or more reports did not pass validation.")
        | inl e => (s, validation_problem (parse_error_text e))
        | inr (_, reports) =>
            let '(max_age, max_future) := report_window retention_days skew_s in
            match check_report_window reports (utc_now m) max_age max_future with
            | Some (i, future) =>
                (s, validation_problem ("items[" +:+ pretty i +:+ "]: " +:+ window_text i future))
            | None =>
                match submit shards (gate m) (time_ns m) (pipe m) reports s with
                | (s', Accepted n) => (s', Accepted202 n)
                | (s', Backpressure ms) => (s', throttled_problem ms)
                | (s', RedisDown) =>
                    (s', Problem 503 "ingest_unavailable"
                           "The ingestion queue is not reachable. Retry shortly." (Some 1))
                | (s', SubmitRaised x) => (s', Unhandled x)
                end
            end
        end
    end.
End http.

(** ** Lemmas *)

Lemma foldl_poll_const samples m :
  high (foldl (λ m s, poll s m) m samples) = high m ∧ low (foldl (λ m s, poll s m) m samples) = low m.
Proof.
  revert m. induction samples as [|[ls|] samples IH]; intros m; cbn; [done| |apply IH].
  destruct (IH (refresh ls m)) as [-> ->]. done.
Qed.

Lemma xadd_lookup (s : STREAMS) cmds k :
  default [] (foldl xadd s cmds !! k)
  = default [] (s !! k) ++ (filter (λ c : string * string, c.1 = k) cmds).*2.
Proof.
  revert s. induction cmds as [|[k' p] cmds IH]; intros s; cbn; [by rewrite app_nil_r|].
  rewrite IH. unfold xadd. cbn. case_decide as E.
  - subst. rewrite lookup_insert_eq. cbn. by rewrite <- app_assoc.
  - by rewrite lookup_insert_ne by done.
Qed.

Lemma traverse_Forall2 {A B} (f : A → res B) l l' :
  traverse f l = Ok l' ↔ Forall2 (λ a b, f a = Ok b) l l'.
Proof.
  split.
  - revert l'. induction l as [|a l IH]; intros l'; cbn; [by intros [= <-]|].
    destruct (f a) as [b|] eqn:E; cbn; [|done]. destruct (traverse f l) as [bs|]; cbn; [|done].
    intros [= <-]. constructor; auto.
  - induction 1 as [|a b l l' E _ IH]; [done|]. cbn. rewrite E. cbn. by rewrite IH.
Qed.

Lemma StronglySorted_filter {A} (R : relation A) (P : A → Prop) `{∀ x, Decision (P x)} l :
  StronglySorted R l → StronglySorted R (filter P l).
Proof.
  induction 1 as [|x l Hl IH Hx]; [constructor|]. cbn. case_decide; [|done]. constructor; [done|].
  rewrite Forall_forall in Hx |- *. intros y [_ Hy]%list_elem_of_filter. auto.
Qed.

Lemma pop_while_sorted old events :
  StronglySorted Z.le events → (∀ t t', t ≤ t' → old t' = true → old t = true) →
  pop_while old events = filter (λ t, old t = false) events.
Proof.
  intros Hs Hold. induction Hs as [|t events _ IH Ht]; [done|]. cbn. destruct (old t) eqn:E.
  - by rewrite decide_False.
  - rewrite decide_True by done. f_equal. symmetry. apply filter_keeps.
    eapply Forall_impl; [done|]. intros x Hle. cbn. destruct (old x) eqn:Ex; [|done].
    rewrite (Hold t x) in E; done.
Qed.

(** The budget after a sequence of bad frames. *)
Definition record_all (limit : nat) (window : Z) (ts : list Z) : list Z :=
  foldl (λ events now, (budget_record limit window now events).1) [] ts.

Lemma record_all_window limit window ts now :
  0 ≤ window → StronglySorted Z.le (ts ++ [now]) →
  record_all limit window (ts ++ [now]) = filter (λ t, now - t ≤ window) (ts ++ [now]).
Proof.
  revert now. induction ts as [|t ts IH] using rev_ind; intros now Hw Hs; unfold record_all in *.
  - cbn. destruct (window <? now - now) eqn:E; [lia|]. by rewrite decide_True by lia.
  - rewrite foldl_snoc. pose proof (StronglySorted_app_1_l _ _ _ Hs) as Hts.
    assert (Hle : ∀ x, x ∈ ts ++ [t] → x ≤ now).
    { intros x Hx. apply (StronglySorted_app_1_elem_of _ _ _ x now Hs Hx). set_solver. }
    rewrite IH by done. unfold budget_record. cbn [fst]. rewrite pop_while_sorted.
    + rewrite (filter_app _ (filter _ _)), (filter_app _ (ts ++ [t])). f_equal.
      * rewrite list_filter_filter. apply filter_ext_in. intros x Hx.
        assert (t ≤ now) by (apply Hle; set_solver). lia.
      * apply filter_ext_in. intros x _. lia.
    + apply StronglySorted_app_2; [|by apply StronglySorted_filter|by repeat constructor].
      intros x y [_ Hx]%list_elem_of_filter ->%list_elem_of_singleton. auto.
    + intros x y ? ?. lia.
Qed.

Section submit_facts.
Context `{Orjson}.

(** The entries of one shard's stream. *)
Definition shard_entries (s : STREAMS) (shard : Z) : list string := default [] (s !! ingest_stream shard).

Lemma commands_for_shard shards cmds recs shard :
  1 ≤ shards →
  Forall2 (λ r c, ∃ k, shard_for (device_id r) shards = Ok k ∧ c = (ingest_stream k, encode_record r)) recs cmds →
  (filter (λ c : string * string, c.1 = ingest_stream shard) cmds).*2
  = encode_record <$> filter (λ r, shard_for (device_id r) shards = Ok shard) recs.
Proof.
  intros Hs. induction 1 as [|r c recs cmds (k & Hk & ->) _ IH]; [done|].
  rewrite !filter_cons. cbn. repeat case_decide; cbn; try (by f_equal); try done.
  - exfalso. match goal with E : ingest_stream _ = _ |- _ => apply (inj ingest_stream) in E end. congruence.
  - exfalso. congruence.
Qed.

Lemma commands_records shards received_ms reports recs :
  1 ≤ shards → Forall2 (λ a b, record_of_report received_ms a = Ok b) reports recs →
  ∃ cmds, traverse (command_of_report shards received_ms) reports = Ok cmds ∧
    Forall2 (λ r c, ∃ k, shard_for (device_id r) shards = Ok k ∧ c = (ingest_stream k, encode_record r)) recs cmds.
Proof.
  intros Hs. induction 1 as [|a b reports recs E _ (cmds & IH & Hf)]; [by exists []|].
  destruct (shard_for_total (device_id b) shards Hs) as [k Hk].
  exists ((ingest_stream k, encode_record b) :: cmds). split; [|by constructor; eauto].
  cbn. unfold command_of_report at 1. rewrite E. cbn.
  assert (report_device a = device_id b) as ->.
  { unfold record_of_report in E. destruct (to_epoch_ms _); [|done]. by injection E as <-. }
  rewrite Hk. cbn. by rewrite IH.
Qed.
End submit_facts.

(** ** Properties *)

(** C31: the gate has hysteresis. Starting open, it is shut after a sequence of samples
    exactly when some sample reached the high watermark and no later one fell to the
    low watermark; failed samples change nothing. *)
Theorem gate_hysteresis samples m :
  low m < high m → throttled m = false →
  let total ls := foldr Z.add 0 ls in
  throttled (foldl (λ m s, poll s m) m samples) = true ↔
  ∃ i ls, samples !! i = Some (Some ls) ∧ high m ≤ total ls ∧
    ∀ j ls', (i < j)%nat → samples !! j = Some (Some ls') → low m < total ls'.
Proof.
  intros Hlh H0 total. induction samples as [|x samples IH] using rev_ind.
  { cbn. rewrite H0. split; [done|]. by intros (i & ls & ? & _). }
  rewrite foldl_snoc. destruct (foldl_poll_const samples m) as [Hh Hl].
  set (g := foldl _ _ samples) in *.
  assert (Hlast : (samples ++ [x]) !! length samples = Some x) by (by rewrite lookup_app_r, Nat.sub_diag by lia).
  assert (Hpast : ∀ i y, (samples ++ [x]) !! i = Some y → samples !! i = Some y ∨ (i = length samples ∧ y = x)).
  { intros i y Hi. apply lookup_app_Some in Hi as [Hi|[Hle Hi]]; [by left|right].
    apply list_lookup_singleton_Some in Hi as [? ->]. split; [lia|done]. }
  assert (Hkeep : throttled g = true → (∀ ls, x = Some ls → low m < total ls) →
    ∃ i ls, (samples ++ [x]) !! i = Some (Some ls) ∧ high m ≤ total ls ∧
      ∀ j ls', (i < j)%nat → (samples ++ [x]) !! j = Some (Some ls') → low m < total ls').
  { intros Hg Hx. destruct (proj1 IH Hg) as (i & ls & Hi & Hhi & Hlater).
    exists i, ls. split; [by apply lookup_app_l_Some|split; [done|]].
    intros j ls' Hij [Hj|[_ Hj]]%Hpast; [by eapply Hlater|by apply Hx]. }
  assert (Hback : (∀ ls, x = Some ls → total ls < high m) →
    (∃ i ls, (samples ++ [x]) !! i = Some (Some ls) ∧ high m ≤ total ls ∧
      ∀ j ls', (i < j)%nat → (samples ++ [x]) !! j = Some (Some ls') → low m < total ls') →
    throttled g = true ∧ ∀ ls, x = Some ls → low m < total ls).
  { intros Hx (i & ls & [Hi|[_ Hi]]%Hpast & Hhi & Hlater); [|specialize (Hx ls (eq_sym Hi)); lia]. split.
    - apply IH. exists i, ls. split; [done|split; [done|]]. intros j ls' Hij Hj.
      apply (Hlater j); [done|by apply lookup_app_l_Some].
    - intros ls' ->. apply (Hlater (length samples)); [by apply lookup_lt_Some in Hi|done]. }
  destruct x as [ls|]; cbn; [|split; [intros; by apply Hkeep|intros Hb; by apply Hback in Hb as [? _]]].
  rewrite Hh, Hl. fold (total ls). destruct (high m <=? total ls) eqn:Ehi.
  - assert (Elo : (total ls <=? low m) = false) by lia. rewrite Elo.
    split; [intros _|by destruct (throttled g)]. exists (length samples), ls. split; [done|split; [lia|]].
    intros j ls' Hj Hjs. apply lookup_lt_Some in Hjs. rewrite length_app in Hjs. cbn in Hjs. lia.
  - cbn. destruct (total ls <=? low m) eqn:Elo; cbn.
    + split; [by destruct (throttled g)|]. intros Hb.
      apply Hback in Hb as [_ Hb]; [specialize (Hb ls eq_refl); lia|]. intros ? [= <-]. lia.
    + split.
      * intros Hg. apply Hkeep; [done|]. intros ? [= <-]. lia.
      * intros Hb. apply Hback in Hb as [? _]; [done|]. intros ? [= <-]. lia.
Qed.

(** C29: an accepted batch reaches the streams in order and by device. With the gate
    open, every shard's stream grows by exactly the encodings of the reports whose
    device hashes to it, in the order they were submitted (of a prefix of the batch,
    when the connection breaks half way), and nothing else changes. *)
Theorem submit_routes_in_order `{Orjson} shards m time_ns o reports recs s :
  1 ≤ shards → throttled m = false → reports ≠ [] →
  Forall2 (λ a b, record_of_report (now_ms time_ns) a = Ok b) reports recs →
  let applied := match o with Executed => recs | Broken n => take n recs end in
  let '(s', r) := submit shards m time_ns o reports s in
  r = match o with Executed => Accepted (Z.of_nat (length reports)) | Broken _ => RedisDown end ∧
  (∀ shard, shard_entries s' shard
     = shard_entries s shard ++
       (encode_record <$> filter (λ r, shard_for (device_id r) shards = Ok shard) applied)) ∧
  (∀ k, (∀ shard, k ≠ ingest_stream shard) → default [] (s' !! k) = default [] (s !! k)).
Proof.
  intros Hs Hm Hne Hf applied. destruct (commands_records shards (now_ms time_ns) reports recs Hs Hf)
    as (cmds & Hc & Hcmds). unfold submit. destruct reports as [|a reports]; [done|].
  rewrite Hm, Hc.
  assert (Hother : ∀ cs, cs ⊆ cmds → ∀ k, (∀ shard, k ≠ ingest_stream shard) →
    filter (λ c : string * string, c.1 = k) cs = []).
  { intros cs Hsub k Hk. apply elem_of_nil_inv. intros c [Hck Hin]%list_elem_of_filter.
    apply Hsub in Hin. apply list_elem_of_lookup in Hin as [i Hi].
    destruct (Forall2_lookup_r _ _ _ _ _ Hcmds Hi) as (r & _ & shard & _ & ->). by apply (Hk shard). }
  destruct o as [|n]; (split; [done|split]).
  - intros shard. unfold shard_entries. rewrite xadd_lookup. f_equal. by apply commands_for_shard.
  - intros k Hk. rewrite xadd_lookup, Hother by done. by rewrite app_nil_r.
  - intros shard. unfold shard_entries. rewrite xadd_lookup. f_equal.
    apply commands_for_shard; [done|]. by apply Forall2_take.
  - intros k Hk. rewrite xadd_lookup, Hother; [by rewrite app_nil_r| |done].
    apply subseteq_take.
Qed.

(** The malformed-frame budget is a sliding window: after bad frames at the moments
    [ts], ending [now], the connection is kept exactly when at most [limit] of them
    happened within the window that ends now. *)
Lemma budget_is_sliding_window limit window ts now :
  0 ≤ window → StronglySorted Z.le (ts ++ [now]) →
  let '(_, ok) := budget_record limit window now (record_all limit window ts) in
  ok = true ↔ (length (filter (λ t, (now - t ≤ window)%Z) (ts ++ [now])) ≤ limit)%nat.
Proof.
  intros Hw Hs. pose proof (record_all_window limit window ts now Hw Hs) as E.
  unfold record_all in E. rewrite foldl_snoc in E. fold (record_all limit window ts) in E.
  rewrite <- E. unfold budget_record. cbn. apply bool_decide_eq_true.
Qed.

(** a frame that carries a sequence number is answered exactly once, and is
    acknowledged exactly when all of its reports were queued. *)
Lemma sequenced_frame_answered `{Orjson} vr vi ve window_text shards max_batch days skew raw m st s q reports :
  parse_ingest_payload vr vi ve raw max_batch = inr (Some q, reports) →
  Z.of_nat (String.length raw) ≤ max_payload_bytes max_batch →
  let '(st', s', r) := handle vr vi ve window_text shards max_batch days skew raw m st s in
  (∃ e, r = Raise e) ∨
  ∃ f, r = Ok ([SendText f], true) ∧
    (submit shards (gate m) (time_ns m) (pipe m) reports s = (s', Accepted (Z.of_nat (length reports))) ∧
       f = ack_frame q (Z.of_nat (length reports)) ∨
     (∃ code detail, f = error_frame code detail (Some q)) ∨ (∃ ms, f = throttle_frame ms)).
Proof.
  intros Hp Hlen. unfold handle. rewrite Hp. destruct (Z.ltb_spec (max_payload_bytes max_batch)
    (Z.of_nat (String.length raw))); [lia|]. cbn.
  destruct (check_report_window _ _ _ _) as [[i fut]|]; [right; eexists; split; [done|]; eauto|].
  destruct (submit _ _ _ _ _ _) as [s' [n|ms| |e]] eqn:Es.
  - right. eexists. split; [done|]. left. assert (n = Z.of_nat (length reports)) as ->; [|done].
    unfold submit in Es. destruct reports; [by simplify_eq|]. destruct (throttled (gate m)).
    { by destruct (retry_after_ms (gate m)). }
    destruct (traverse _ _); [|done]. destruct (pipe m); by simplify_eq.
  - unfold notify_throttled. rewrite andb_false_r. destruct (retry_after_ms (gate m)) as [ms'|e]; [|by left; eauto].
    right. eexists. split; [done|]. eauto.
  - right. eexists. split; [done|]. eauto.
  - by left; eauto.
Qed.

Module IngestSamples.
Definition monitor : BacklogMonitor := mkMonitor 100 50 500 false 0.
Definition report : LocationReport := mkReport "van-7" (flit 50) (flit 30) 1700000000000000.
Definition ns : Z := 1700000000250000000.
Definition envelope : string := "{" +:+ quoted "items" +:+ "}".
Definition vr (raw : string) : list PydanticError + LocationReport := inr report.
Definition vi (max : Z) (raw : string) : list PydanticError + list LocationReport := inr [report].
Definition ve (max : Z) (raw : string) : list PydanticError + option Z * list LocationReport :=
  inr (Some 7, [report]).
Definition moment : Moment := mkMoment 0 1700000000250000 ns monitor Executed.
End IngestSamples.

Lemma gate_hysteresis_witness :
  let samples := [Some [60; 50]; None; Some [70]] in
  throttled (foldl (λ m s, poll s m) IngestSamples.monitor samples) = true ↔
  ∃ i ls, samples !! i = Some (Some ls) ∧ 100 ≤ foldr Z.add 0 ls ∧
    ∀ j ls', (i < j)%nat → samples !! j = Some (Some ls') → 50 < foldr Z.add 0 ls'.
Proof.
  apply (gate_hysteresis [Some [60; 50]; None; Some [70]] IngestSamples.monitor); [cbn; lia|reflexivity].
Defined.

Lemma submit_routes_in_order_witness :
  let '(s', r) := submit (H := Ref.orjson) 4 IngestSamples.monitor IngestSamples.ns Executed [IngestSamples.report] ∅ in
  r = Accepted 1 ∧
  (∀ shard, shard_entries s' shard
     = shard_entries ∅ shard ++
       (encode_record (H := Ref.orjson) <$> filter (λ r, shard_for (device_id r) 4 = Ok shard) [Samples.report])) ∧
  (∀ k, (∀ shard, k ≠ ingest_stream shard) → default [] (s' !! k) = default [] ((∅ : STREAMS) !! k)).
Proof.
  apply (submit_routes_in_order (H := Ref.orjson) 4 IngestSamples.monitor IngestSamples.ns Executed
           [IngestSamples.report] [Samples.report] ∅); [lia|reflexivity|discriminate|].
  constructor; [vm_compute; reflexivity|constructor].
Defined.

Lemma sequenced_frame_answered_witness :
  let '(st', s', r) :=
    handle (H := Ref.orjson) IngestSamples.vr IngestSamples.vi IngestSamples.ve (λ _ _, EmptyString) 4 500 30 60
      IngestSamples.envelope IngestSamples.moment (mkSession [] 0) ∅ in
  (∃ e, r = Raise e) ∨
  ∃ f, r = Ok ([SendText f], true) ∧
    (submit (H := Ref.orjson) 4 IngestSamples.monitor IngestSamples.ns Executed [IngestSamples.report] ∅
       = (s', Accepted 1) ∧ f = ack_frame (H := Ref.orjson) 7 1 ∨
     (∃ code detail, f = error_frame (H := Ref.orjson) code detail (Some 7)) ∨
     (∃ ms, f = throttle_frame (H := Ref.orjson) ms)).
Proof.
  apply (sequenced_frame_answered (H := Ref.orjson) IngestSamples.vr IngestSamples.vi IngestSamples.ve
           (λ _ _, EmptyString) 4 500 30 60 IngestSamples.envelope IngestSamples.moment (mkSession [] 0) ∅ 7
           [IngestSamples.report]); vm_compute; [reflexivity|discriminate].
Defined.
