(* ===== verification/Load.v ===== *)
(** * The load generator's transports and their accounts

    [src/generator.py]: the counters of [Stats], the latency [Reservoir], the websocket
    worker with its outstanding frames, the HTTP runner with its bounded queue and its
    retries, and the restarts of [supervise]. *)
From stdpp Require Import sorting.
From S2P Require Import Prelude Floats Sizes Text Json JsonRef Protocol Ingest Motion Fleet.

(** ** Reservoir and percentiles *)

Record Reservoir {R : Type} := mkReservoir { capacity : nat; count : nat; values : list float64; res_rng : R }.
Arguments Reservoir : clear implicits.
Arguments mkReservoir {R}.

Section reservoir.
Context `{Random}.

Definition new_reservoir (capacity : nat) (r : rng) : Reservoir rng := mkReservoir capacity 0 [] r.

Definition observe (value : float64) (v : Reservoir rng) : Reservoir rng :=
  let n := S (count v) in
  if (length (values v) <? capacity v)%nat
  then mkReservoir (capacity v) n (values v ++ [value]) (res_rng v)
  else let '(index, r) := randrange (Z.of_nat n) (res_rng v) in
       mkReservoir (capacity v) n
         (if index <? Z.of_nat (capacity v) then <[Z.to_nat index := value]> (values v) else values v) r.
End reservoir.

#[export] Instance fleb_dec x y : Decision (fleb x y = true) := decide (fleb x y = true).

(** [math.ceil(x)]. *)
Definition ceil (x : float64) : res Z := let! n := floor (fneg x) in Ok (- n).

Definition percentile (values : list float64) (q : float64) : res (option float64) :=
  match values with
  | [] => Ok None
  | _ =>
      let ordered := merge_sort (λ x y, fleb x y = true) values in
      let! top := float_of_int (Z.of_nat (length ordered) - 1) in
      let position := fmul top q in
      let! lower := floor position in
      let! upper := ceil position in
      let! low := nth_of ordered (Z.to_nat lower) in
      if lower =? upper then Ok (Some low)
      else
        let! l := float_of_int lower in
        let weight := fsub position l in
        let! high := nth_of ordered (Z.to_nat upper) in
        Ok (Some (fadd (fmul low (fsub (flit 1) weight)) (fmul high weight)))
  end.

(** ** Stats *)

Record Stats {R : Type} := mkStats {
  started_at : float64;
  produced : Z; sent : Z; accepted : Z; rejected : Z; dropped : Z;
  failures : Z; reconnects : Z; throttles : Z; in_flight : Z; queued : Z;
  latency : Reservoir R; window_at : float64; window_sent : Z
}.
Arguments Stats : clear implicits.
Arguments mkStats {R}.

Definition LATENCY_SAMPLES : nat := 4096.
Definition new_stats `{Random} (r : rng) (started : float64) : Stats rng :=
  mkStats started 0 0 0 0 0 0 0 0 0 0 (new_reservoir LATENCY_SAMPLES r) started 0.

(** The counters one event moves. *)
Record Delta := mkDelta {
  d_produced : Z; d_sent : Z; d_accepted : Z; d_rejected : Z; d_dropped : Z;
  d_failures : Z; d_reconnects : Z; d_throttles : Z; d_in_flight : Z }.
Definition no_change : Delta := mkDelta 0 0 0 0 0 0 0 0 0.
Definition bump {R} (d : Delta) (s : Stats R) : Stats R :=
  mkStats (started_at s) (produced s + d_produced d) (sent s + d_sent d) (accepted s + d_accepted d)
    (rejected s + d_rejected d) (dropped s + d_dropped d) (failures s + d_failures d)
    (reconnects s + d_reconnects d) (throttles s + d_throttles d) (in_flight s + d_in_flight d)
    (queued s) (latency s) (window_at s) (window_sent s).
Definition set_queued {R} (n : Z) (s : Stats R) : Stats R :=
  mkStats (started_at s) (produced s) (sent s) (accepted s) (rejected s) (dropped s) (failures s)
    (reconnects s) (throttles s) (in_flight s) n (latency s) (window_at s) (window_sent s).
Definition time_latency `{Random} (ms : float64) (s : Stats rng) : Stats rng :=
  mkStats (started_at s) (produced s) (sent s) (accepted s) (rejected s) (dropped s) (failures s)
    (reconnects s) (throttles s) (in_flight s) (queued s) (observe ms (latency s)) (window_at s) (window_sent s).

Definition add_produced (n : Z) : Delta := mkDelta n 0 0 0 0 0 0 0 0.
Definition add_sent (n : Z) : Delta := mkDelta 0 n 0 0 0 0 0 0 0.
Definition add_accepted (n : Z) : Delta := mkDelta 0 0 n 0 0 0 0 0 0.
Definition add_rejected (n : Z) : Delta := mkDelta 0 0 0 n 0 0 0 0 0.
Definition add_dropped (n : Z) : Delta := mkDelta 0 0 0 0 n 0 0 0 0.
Definition one_failure : Delta := mkDelta 0 0 0 0 0 1 0 0 0.
Definition one_reconnect : Delta := mkDelta 0 0 0 0 0 0 1 0 0.
Definition one_throttle : Delta := mkDelta 0 0 0 0 0 0 0 1 0.
Definition add_in_flight (n : Z) : Delta := mkDelta 0 0 0 0 0 0 0 0 n.

(** The rates of [Stats.snapshot] and the new window; the counters are copied. *)
Record Rates := mkRates { sent_per_s : float64; produced_per_s : float64; window_per_s : float64 }.
Definition TINY : float64 := fdec 1 (10 ^ 9).
Definition snapshot {R} (now : float64) (s : Stats R) : res (Rates * Stats R) :=
  let elapsed := fmax (fsub now (started_at s)) TINY in
  let window := fmax (fsub now (window_at s)) TINY in
  let! w := float_of_int (sent s - window_sent s) in
  let s' := mkStats (started_at s) (produced s) (sent s) (accepted s) (rejected s) (dropped s) (failures s)
              (reconnects s) (throttles s) (in_flight s) (queued s) (latency s) now (sent s) in
  let! n := float_of_int (sent s) in
  let! a := fdiv n elapsed in
  let! p := float_of_int (produced s) in
  let! b := fdiv p elapsed in
  let! c := fdiv w window in
  Ok (mkRates a b c, s').

(** ** Retry helpers *)

Definition RETRY_AFTER_MAX_S : float64 := flit 30.
Definition RECONNECT_BASE_S : float64 := fdec 5 10.
Definition RECONNECT_MAX_S : float64 := flit 30.

(** [int(text)], and [(parsedate_to_datetime(text) - now).total_seconds()], [None] when they
    raise [ValueError] or [TypeError]. *)
Definition parse_retry_after (strip : string → string) (int_of_str : string → option Z)
    (seconds_until : string → option float64) (value : option string) : res (option float64) :=
  match value with
  | None | Some "" => Ok None
  | Some value =>
      let raw := strip value in
      match int_of_str raw with
      | Some n => let! x := float_of_int n in Ok (Some (fmax x (flit 0)))
      | None => match seconds_until raw with
                | None => Ok None
                | Some secs => Ok (Some (fmax secs (flit 0)))
                end
      end
  end.

Definition retry_pause (retry_after : option float64) (fallback : float64) : float64 :=
  fmin (default fallback retry_after) RETRY_AFTER_MAX_S.

(** The back-off of [_session], [_post] and [supervise] after one more failure. *)
Definition next_backoff (delay : float64) : float64 := fmin (fmul delay (flit 2)) RECONNECT_MAX_S.

(** ** The websocket worker *)

Definition PENDING_ACKS_MAX : nat := 1024.

(** A tick's reports on their way: the frame inside [await socket.send], those behind it,
    and how many reports have not been delivered. *)
Record Sending := mkSending { current : list Report; waiting : list (list Report); undelivered : nat }.

Record Worker {R : Type} := mkWorker {
  w_stats : Stats R;
  pending : gmap Z (float64 * nat);
  pause_until : float64;
  w_seq : Z;
  connected_once : bool;
  sending : option Sending
}.
Arguments Worker : clear implicits.
Arguments mkWorker {R}.

Section worker.
Context `{Random}.
Implicit Types w : Worker rng.

Definition with_stats (s : Stats rng) w : Worker rng :=
  mkWorker s (pending w) (pause_until w) (w_seq w) (connected_once w) (sending w).
Definition with_pending (p : gmap Z (float64 * nat)) w : Worker rng :=
  mkWorker (w_stats w) p (pause_until w) (w_seq w) (connected_once w) (sending w).
Definition with_sending (x : option Sending) w : Worker rng :=
  mkWorker (w_stats w) (pending w) (pause_until w) (w_seq w) (connected_once w) x.
Definition with_pause (t : float64) w : Worker rng :=
  mkWorker (w_stats w) (pending w) t (w_seq w) (connected_once w) (sending w).
Definition note (d : Delta) w : Worker rng := with_stats (bump d (w_stats w)) w.

(** [sorted(pending)[:len(pending) - PENDING_ACKS_MAX]] is deleted. *)
Definition remember (seq : Z) (at_ : float64) (n : nat) (p : gmap Z (float64 * nat)) : gmap Z (float64 * nat) :=
  let p := <[seq := (at_, n)]> p in
  if (PENDING_ACKS_MAX <? base.size p)%nat
  then foldr delete p (take (base.size p - PENDING_ACKS_MAX) (merge_sort Z.le (elements (dom p))))
  else p.

Definition forget (seq : Z) (p : gmap Z (float64 * nat)) : Z * gmap Z (float64 * nat) :=
  (match p !! seq with None => 0 | Some (_, n) => Z.of_nat n end, delete seq p).

(** Up to the next [await socket.send]: the sequence number and the outstanding entry of
    the next frame; with no frame left, [_send] returns. *)
Definition send_next (now : float64) (rest : list (list Report)) (undelivered : nat) w : Worker rng :=
  match rest with
  | [] => with_sending None w
  | chunk :: rest =>
      let seq := w_seq w + 1 in
      mkWorker (w_stats w) (remember seq now (length chunk) (pending w)) (pause_until w) seq
        (connected_once w) (Some (mkSending chunk rest undelivered))
  end.

(** The end of a tick of [_send_forever]: the reports exist now. *)
Definition begin_send (max_batch : nat) (now : float64) (reports : list Report) w : Worker rng :=
  send_next now (chunked reports max_batch) (length reports)
    (note (add_produced (Z.of_nat (length reports))) w).

(** [socket.send] returned, or raised: the latter ends [_send], and the session. *)
Definition send_returned (ok : bool) (now : float64) w : Worker rng :=
  match sending w with
  | None => w
  | Some x =>
      if ok then
        send_next now (waiting x) (undelivered x - length (current x))
          (note (add_sent (Z.of_nat (length (current x)))) w)
      else with_sending None (note (add_dropped (Z.of_nat (undelivered x))) w)
  end.

Definition default_retry_ms : json := JInt 1000.

(** [frame.get("type")] compared with a literal. *)
Definition frame_is (kind : string) (frame : list (string * json)) : bool :=
  match assoc "type" frame with Some (JStr s) => bool_decide (s = kind) | _ => false end.

(** [_handle]. *)
Definition handle `{Orjson} (message : string) (now : float64) w : res (Worker rng) :=
  match loads message with
  | None => Ok (note one_failure w)
  | Some (JObj frame) =>
      if frame_is "ack" frame then
          let seq := assoc "seq" frame ≫= as_int in
          let '(outstanding, p) :=
            match seq with Some q => (pending w !! q, delete q (pending w)) | None => (None, pending w) end in
          let w := with_pending p w in
          let w := match outstanding with
                   | Some (sent_at, _) =>
                       with_stats (time_latency (fmul (fsub now sent_at) (flit 1000)) (w_stats w)) w
                   | None => w
                   end in
          Ok (note (add_accepted (default 0 (assoc "accepted" frame ≫= as_int))) w)
      else if frame_is "throttle" frame then
          let number j := match j with
                          | JInt z => float_of_int z
                          | JBool b => Ok (flit (Z.b2z b))
                          | JFloat x => Ok x
                          | _ => Ok (flit 1000)
                          end in
          let! ms := number (default JNull (assoc "retry_after_ms" frame)) in
          let! retry_s := fdiv ms (flit 1000) in
          let pause := retry_pause (Some retry_s) RECONNECT_BASE_S in
          Ok (note one_throttle (with_pause (fmax (pause_until w) (fadd now pause)) w))
      else if frame_is "error" frame then
          let seq := default (w_seq w) (assoc "seq" frame ≫= as_int) in
          let '(n, p) := forget seq (pending w) in
          Ok (note (add_rejected n) (with_pending p w))
      else Ok w
  | Some _ => Ok w
  end.

(** [_session]: the socket opened; the session raised and will be repeated. *)
Definition opened w : Worker rng :=
  let w := if connected_once w then note one_reconnect w else w in
  let w := note (add_in_flight 1) w in
  mkWorker (w_stats w) (pending w) (pause_until w) (w_seq w) true (sending w).
Definition closed w : Worker rng := note (add_in_flight (-1)) w.
Definition session_failed (delay : float64) w : Worker rng * float64 := (note one_failure w, next_backoff delay).
End worker.

(** ** The HTTP runner *)

Definition QUEUE_DEPTH_FACTOR : nat := 4.
Definition HTTP_ATTEMPTS : nat := 3.

(** One sender between two awaits: inside a request, or waiting to try again; with the
    attempts it has left and its back-off. *)
Inductive Sender :=
  | InRequest (batch : list Report) (tries : nat) (delay started : float64)
  | Pausing (batch : list Report) (tries : nat) (delay : float64).
Definition sender_batch (x : Sender) : list Report :=
  match x with InRequest b _ _ _ | Pausing b _ _ => b end.

Record Runner {R : Type} := mkRunner {
  h_stats : Stats R;
  h_batcher : Batcher;
  queue : list (list Report);
  senders : gmap nat Sender
}.
Arguments Runner : clear implicits.
Arguments mkRunner {R}.

(** What came back for one request: [httpx.HTTPError], or a response. *)
Inductive Answer :=
  | NoResponse
  | Response (status : Z) (content : string) (retry_after : option string).

(** [_accepted_count]. *)
Definition accepted_count `{Orjson} (content : string) (fallback : Z) : Z :=
  match loads content with
  | Some (JObj body) => default fallback (assoc "accepted" body ≫= as_int)
  | _ => fallback
  end.

Section runner.
Context `{Random} `{Orjson}.
Variable retry_after_of : option string → res (option float64).
Implicit Types r : Runner rng.

Definition hnote (d : Delta) r : Runner rng := mkRunner (bump d (h_stats r)) (h_batcher r) (queue r) (senders r).
Definition with_senders (x : gmap nat Sender) r : Runner rng := mkRunner (h_stats r) (h_batcher r) (queue r) x.

(** [_offer]: a full queue sheds its oldest batch.  A queue with [maxsize = 0] has no limit. *)
Definition offer (maxsize : nat) r (batch : list Report) : Runner rng :=
  let full := (0 <? maxsize)%nat && (maxsize <=? length (queue r))%nat in
  let '(r, q) :=
    if full then match queue r with
                 | old :: q => (hnote (add_dropped (Z.of_nat (length old))) r, q ++ [batch])
                 | [] => (r, [batch])
                 end
    else (r, queue r ++ [batch]) in
  mkRunner (set_queued (Z.of_nat (length q)) (h_stats r)) (h_batcher r) q (senders r).

(** What [_produce] does with the reports of one tick. *)
Definition produce (maxsize : nat) (now : float64) (reports_made : list Report) r : Runner rng :=
  let r := hnote (add_produced (Z.of_nat (length reports_made))) r in
  let b := foldl (λ b rep, add rep now b) (h_batcher r) reports_made in
  let '(batches, b) := drain_ready (length (reports b)) now b in
  foldl (offer maxsize) (mkRunner (h_stats r) b (queue r) (senders r)) batches.

(** The head of the loop of [_post]: one more attempt, or the end of them. *)
Definition attempt (i : nat) (now : float64) (batch : list Report) (tries : nat) (delay : float64) r : Runner rng :=
  match tries with
  | O => with_senders (delete i (senders r)) (hnote (add_dropped (Z.of_nat (length batch))) r)
  | S tries => with_senders (<[i := InRequest batch tries delay now]> (senders r)) (hnote (add_in_flight 1) r)
  end.

(** [_consume] takes the oldest batch. *)
Definition pick_up (i : nat) (now : float64) r : Runner rng :=
  match queue r with
  | [] => r
  | batch :: q =>
      attempt i now batch HTTP_ATTEMPTS RECONNECT_BASE_S
        (mkRunner (set_queued (Z.of_nat (length q)) (h_stats r)) (h_batcher r) q (senders r))
  end.

Definition settled (i : nat) (d : Delta) r : Runner rng := with_senders (delete i (senders r)) (hnote d r).
Definition both (d1 d2 : Delta) : Delta :=
  mkDelta (d_produced d1 + d_produced d2) (d_sent d1 + d_sent d2) (d_accepted d1 + d_accepted d2)
    (d_rejected d1 + d_rejected d2) (d_dropped d1 + d_dropped d2) (d_failures d1 + d_failures d2)
    (d_reconnects d1 + d_reconnects d2) (d_throttles d1 + d_throttles d2) (d_in_flight d1 + d_in_flight d2).

(** The rest of the loop body, once the request has come back. *)
Definition answered (i : nat) (now : float64) (a : Answer) r : res (Runner rng) :=
  match senders r !! i with
  | Some (InRequest batch tries delay started) =>
      let n := Z.of_nat (length batch) in
      let r := hnote (add_in_flight (-1)) r in
      match a with
      | NoResponse =>
          Ok (with_senders (<[i := Pausing batch tries delay]> (senders r)) (hnote one_failure r))
      | Response status content retry_after =>
          if status <? 300 then
            let r := mkRunner (time_latency (fmul (fsub now started) (flit 1000)) (h_stats r))
                       (h_batcher r) (queue r) (senders r) in
            Ok (settled i (both (add_sent n) (add_accepted (accepted_count content n))) r)
          else if (status =? 429) || (status =? 503) then
            let r := hnote one_throttle r in
            let! _ := retry_after_of retry_after in
            Ok (with_senders (<[i := Pausing batch tries delay]> (senders r)) r)
          else Ok (settled i (both (add_sent n) (add_rejected n)) r)
      end
  | _ => Ok r
  end.

(** The pause is over; how long it was depends on [retry_pause] or the back-off. *)
Definition resumed (i : nat) (now : float64) r : Runner rng :=
  match senders r !! i with
  | Some (Pausing batch tries delay) => attempt i now batch tries (next_backoff delay) r
  | _ => r
  end.

(** A task that raises is restarted by [supervise] with nothing in hand; the [finally] of
    [_post] takes a request it was waiting for out of [in_flight]. *)
Definition sender_crashed (i : nat) r : Runner rng :=
  let left := match senders r !! i with
              | Some (InRequest _ _ _ _) => both (add_in_flight (-1)) one_failure
              | _ => one_failure
              end in
  with_senders (delete i (senders r)) (hnote left r).
Definition producer_crashed r : Runner rng :=
  mkRunner (bump one_failure (h_stats r)) (new_batcher (size (h_batcher r)) (window (h_batcher r)))
    (queue r) (senders r).

(** [_post] on its own: the answers to its attempts, one after the other. *)
Fixpoint post_loop (i : nat) (answers : list (float64 * Answer)) r : res (Runner rng) :=
  match answers with
  | [] => Ok r
  | (now, a) :: answers =>
      let! r := answered i now a r in
      post_loop i answers (resumed i now r)
  end.
Definition post (i : nat) (now : float64) (batch : list Report) (answers : list (float64 * Answer)) r : res (Runner rng) :=
  post_loop i answers (attempt i now batch HTTP_ATTEMPTS RECONNECT_BASE_S r).

Definition in_hand (m : gmap nat Sender) : nat := map_fold (λ _ x n, length (sender_batch x) + n)%nat 0%nat m.
Definition held r : nat :=
  (length (reports (h_batcher r)) + sum_list (length <$> queue r) + in_hand (senders r))%nat.

(** Runs: the state, and how many reports were in the hands of a task that crashed. *)
Inductive run_step (maxsize : nat) : Runner rng * nat → Runner rng * nat → Prop :=
  | run_produce now rs r lost : run_step maxsize (r, lost) (produce maxsize now rs r, lost)
  | run_pick_up i now r lost : senders r !! i = None → run_step maxsize (r, lost) (pick_up i now r, lost)
  | run_answered i now a r r' lost : answered i now a r = Ok r' → run_step maxsize (r, lost) (r', lost)
  | run_answer_raised i now a batch tries delay started r e lost :
      senders r !! i = Some (InRequest batch tries delay started) → answered i now a r = Raise e →
      run_step maxsize (r, lost)
        (sender_crashed i (hnote one_throttle r), lost + length batch)%nat
  | run_resumed i now r lost : run_step maxsize (r, lost) (resumed i now r, lost)
  | run_sender_crash i x r lost : senders r !! i = Some x →
      run_step maxsize (r, lost) (sender_crashed i r, lost + length (sender_batch x))%nat
  | run_producer_crash r lost :
      run_step maxsize (r, lost) (producer_crashed r, lost + length (reports (h_batcher r)))%nat.

Definition new_runner (s : Stats rng) (batch_size : nat) (batch_window : float64) : Runner rng :=
  mkRunner s (new_batcher batch_size batch_window) [] ∅.
End runner.

(** ** Lemmas on the HTTP runner *)

Lemma in_hand_insert m i x : m !! i = None → in_hand (<[i := x]> m) = (length (sender_batch x) + in_hand m)%nat.
Proof. intros Hi. unfold in_hand. apply (map_fold_insert_L (λ _ x n, length (sender_batch x) + n)%nat); [lia|done]. Qed.

Lemma in_hand_delete m i x : m !! i = Some x → in_hand m = (length (sender_batch x) + in_hand (delete i m))%nat.
Proof.
  intros Hi. rewrite <- (in_hand_insert (delete i m) i x) by apply lookup_delete_eq.
  by rewrite insert_delete_id.
Qed.

Lemma in_hand_delete_idle m i : m !! i = None → in_hand (delete i m) = in_hand m.
Proof. intros Hi. by rewrite delete_id. Qed.

Lemma in_hand_replace m i x y : m !! i = Some x →
  (in_hand (<[i := y]> m) + length (sender_batch x) = in_hand m + length (sender_batch y))%nat.
Proof.
  intros Hi. rewrite <- insert_delete_eq. rewrite in_hand_insert by apply lookup_delete_eq.
  rewrite (in_hand_delete m i x Hi). lia.
Qed.

Lemma drain_ready_concat now b fuel batches b' : drain_ready fuel now b = (batches, b') →
  concat batches ++ reports b' = reports b.
Proof.
  revert b batches b'. induction fuel as [|fuel IH]; intros b batches b' E; cbn in E; [by simplify_eq|].
  destruct (ready now b); [|by simplify_eq].
  assert (Ht : ∀ batch b1, take_batch b = (batch, b1) → batch ++ reports b1 = reports b).
  { unfold take_batch. intros batch b1 Et. destruct (_ <=? _)%nat; simplify_eq/=; [by rewrite app_nil_r|apply take_drop]. }
  destruct (take_batch b) as [batch b1]. destruct (drain_ready fuel now b1) as [bs b2] eqn:Ed. simplify_eq.
  cbn. rewrite <- app_assoc, (IH _ _ _ Ed). by apply Ht.
Qed.

Lemma add_all_reports now b rs : reports (foldl (λ b rep, add rep now b) b rs) = reports b ++ rs.
Proof.
  revert b. induction rs as [|rep rs IH]; intros b; cbn; [by rewrite app_nil_r|].
  rewrite IH. cbn. by rewrite <- app_assoc.
Qed.

Section accounts.
Context `{Random} `{Orjson}.
Variable retry_after_of : option string → res (option float64).
Variable maxsize : nat.
Implicit Types r : Runner rng.

(** What every step keeps: where each produced report is, and what the queue may hold. *)
Definition balanced (x : Runner rng * nat) : Prop :=
  let '(r, lost) := x in
  produced (h_stats r) = sent (h_stats r) + dropped (h_stats r) + Z.of_nat (held r) + Z.of_nat lost ∧
  0 ≤ rejected (h_stats r) ≤ sent (h_stats r) ∧
  ((0 < maxsize)%nat → (length (queue r) ≤ maxsize)%nat) ∧
  queued (h_stats r) = Z.of_nat (length (queue r)).

(** A step that leaves the batcher and the queue alone keeps the balance when the counters
    move by what left the senders' hands. *)
Lemma senders_balanced d st m r lost lost' :
  balanced (r, lost) →
  d_produced d = d_sent d + d_dropped d + (Z.of_nat (in_hand m) - Z.of_nat (in_hand (senders r)))
                 + (Z.of_nat lost' - Z.of_nat lost) →
  0 ≤ d_rejected d ≤ d_sent d →
  produced st = produced (h_stats r) + d_produced d → sent st = sent (h_stats r) + d_sent d →
  dropped st = dropped (h_stats r) + d_dropped d → rejected st = rejected (h_stats r) + d_rejected d →
  queued st = queued (h_stats r) →
  balanced (mkRunner st (h_batcher r) (queue r) m, lost').
Proof.
  intros (Hb & Hr & Hq & Hg) Hd Hrd E1 E2 E3 E4 E5. unfold balanced, held in *. cbn in *.
  rewrite E1, E2, E3, E4, E5. repeat split; try lia; done.
Qed.

Lemma attempt_balanced i now batch tries delay r lost : senders r !! i = None →
  produced (h_stats r) = sent (h_stats r) + dropped (h_stats r) + Z.of_nat (held r + length batch) + Z.of_nat lost →
  0 ≤ rejected (h_stats r) ≤ sent (h_stats r) →
  ((0 < maxsize)%nat → (length (queue r) ≤ maxsize)%nat) → queued (h_stats r) = Z.of_nat (length (queue r)) →
  balanced (attempt i now batch tries delay r, lost).
Proof.
  intros Hi Hb Hr Hq Hg. unfold attempt, balanced, held in *. destruct tries as [|tries]; cbn in *.
  - rewrite in_hand_delete_idle by done. repeat split; try lia; done.
  - rewrite in_hand_insert by done. cbn. repeat split; try lia; done.
Qed.

Lemma offer_balanced batch r lost :
  produced (h_stats r) = sent (h_stats r) + dropped (h_stats r) + Z.of_nat (held r + length batch) + Z.of_nat lost →
  0 ≤ rejected (h_stats r) ≤ sent (h_stats r) →
  ((0 < maxsize)%nat → (length (queue r) ≤ maxsize)%nat) →
  balanced (offer maxsize r batch, lost).
Proof.
  intros Hb Hr Hq. unfold offer, balanced, held in *.
  destruct (Nat.ltb_spec 0 maxsize); cbn [andb].
  - destruct (Nat.leb_spec maxsize (length (queue r))).
    + destruct (queue r) as [|old q] eqn:Eq; [cbn in *; lia|]. cbn in *.
      rewrite fmap_app, sum_list_with_app. cbn. rewrite length_app. cbn. repeat split; try lia.
    + cbn. rewrite fmap_app, sum_list_with_app. cbn. rewrite length_app. cbn. repeat split; try lia.
  - cbn. rewrite fmap_app, sum_list_with_app. cbn. rewrite length_app. cbn. repeat split; try lia.
Qed.

Lemma offer_all_balanced batches r lost :
  produced (h_stats r) = sent (h_stats r) + dropped (h_stats r) + Z.of_nat (held r + length (concat batches)) + Z.of_nat lost →
  0 ≤ rejected (h_stats r) ≤ sent (h_stats r) →
  ((0 < maxsize)%nat → (length (queue r) ≤ maxsize)%nat) → queued (h_stats r) = Z.of_nat (length (queue r)) →
  balanced (foldl (offer maxsize) r batches, lost).
Proof.
  revert r. induction batches as [|batch batches IH]; intros r Hb Hr Hq Hg.
  { unfold balanced. cbn in *. repeat split; try lia; done. }
  cbn [foldl concat] in *. rewrite length_app in Hb.
  assert (Hoff : balanced (offer maxsize r batch, (lost + length (concat batches))%nat)).
  { apply offer_balanced; [lia|done|done]. }
  unfold balanced in Hoff. destruct Hoff as (Hb' & Hr' & Hq' & Hg'). apply IH; [lia|done..].
Qed.

Lemma produce_balanced now rs r lost : balanced (r, lost) → balanced (produce maxsize now rs r, lost).
Proof.
  intros (Hb & Hr & Hq & Hg). unfold produce.
  destruct (drain_ready _ _ _) as [batches b'] eqn:Ed.
  pose proof (f_equal length (drain_ready_concat _ _ _ _ _ Ed)) as Hcat. cbn [h_batcher hnote] in Hcat.
  rewrite add_all_reports, !length_app in Hcat.
  apply offer_all_balanced; unfold held in *; cbn in *; [lia|lia|done|done].
Qed.

Lemma pick_up_balanced i now r lost : senders r !! i = None → balanced (r, lost) → balanced (pick_up i now r, lost).
Proof.
  intros Hi (Hb & Hr & Hq & Hg). unfold pick_up. destruct (queue r) as [|batch q] eqn:Eq; [by unfold balanced; rewrite Eq|].
  apply attempt_balanced; unfold held in *; cbn in *; [done|rewrite Eq in *; cbn in *; lia|lia| |done].
  intros Hm. specialize (Hq Hm). lia.
Qed.

Lemma answered_balanced i now a r r' lost : balanced (r, lost) →
  answered retry_after_of i now a r = Ok r' → balanced (r', lost).
Proof.
  intros Hb. unfold answered. destruct (senders r !! i) as [[batch tries delay started|]|] eqn:Ei; [|by intros [= <-]..].
  pose proof (in_hand_delete _ _ _ Ei) as Hdel. cbn [sender_batch] in Hdel.
  pose proof (in_hand_replace _ _ _ (Pausing batch tries delay) Ei) as Hrep. cbn [sender_batch] in Hrep.
  destruct a as [|status content retry_after]; [intros [= <-]|].
  - eapply (senders_balanced no_change _ _ r lost); [done|cbn; lia..].
  - destruct (status <? 300); [intros [= <-]|destruct (_ || _)].
    + eapply (senders_balanced (add_sent (Z.of_nat (length batch))) _ _ r lost); [done|cbn; lia..].
    + destruct (retry_after_of retry_after); [intros [= <-]|done].
      eapply (senders_balanced no_change _ _ r lost); [done|cbn; lia..].
    + intros [= <-]. eapply (senders_balanced (both (add_sent (Z.of_nat (length batch))) (add_rejected (Z.of_nat (length batch)))) _ _ r lost);
        [done|cbn; lia..].
Qed.

Lemma resumed_balanced i now r lost : balanced (r, lost) → balanced (resumed i now r, lost).
Proof.
  intros Hb. unfold resumed. destruct (senders r !! i) as [[|batch tries delay]|] eqn:Ei; [done| |done].
  pose proof (in_hand_delete _ _ _ Ei) as Hdel. cbn [sender_batch] in Hdel. unfold attempt. destruct tries as [|tries].
  - eapply (senders_balanced (add_dropped (Z.of_nat (length batch))) _ _ r lost); [done|cbn; lia..].
  - pose proof (in_hand_replace _ _ _ (InRequest batch tries (next_backoff delay) now) Ei) as Hrep. cbn [sender_batch] in Hrep.
    eapply (senders_balanced no_change _ _ r lost); [done|cbn; lia..].
Qed.

Lemma sender_crashed_balanced i x d r lost : senders r !! i = Some x → balanced (r, lost) →
  d_produced d = 0 → d_sent d = 0 → d_dropped d = 0 → d_rejected d = 0 →
  balanced (sender_crashed i (hnote d r), (lost + length (sender_batch x))%nat).
Proof.
  intros Ei Hb H1 H2 H3 H4. pose proof (in_hand_delete _ _ _ Ei) as Hdel.
  unfold sender_crashed. cbn [senders hnote]. rewrite Ei. destruct x; cbn [sender_batch] in *;
    (eapply (senders_balanced no_change _ _ r lost); [done|cbn; lia..]).
Qed.

Lemma run_step_balanced x y : run_step retry_after_of maxsize x y → balanced x → balanced y.
Proof.
  intros Hstep Hb. destruct Hstep as [now rs r lost|i now r lost Hi|i now a r r' lost E|i now a batch tries delay started r e lost Hi E|i now r lost|i x r lost Hi|r lost].
  - by apply produce_balanced.
  - by apply pick_up_balanced.
  - by eapply answered_balanced.
  - by eapply (sender_crashed_balanced i (InRequest batch tries delay started)).
  - by apply resumed_balanced.
  - pose proof (sender_crashed_balanced i x no_change r lost Hi Hb) as Hc.
    unfold balanced, held in *. cbn in *. rewrite !Z.add_0_r in *. by apply Hc.
  - destruct Hb as (Hb & Hr & Hq & Hg). unfold balanced, held in *. cbn in *. repeat split; try lia; done.
Qed.
End accounts.

(** ** Lemmas on the websocket worker *)

(** The reports in the frames that nobody has answered for. *)
Definition outstanding (p : gmap Z (float64 * nat)) : nat := map_fold (λ _ x n, x.2 + n)%nat 0%nat p.

Lemma outstanding_insert p q x : p !! q = None → outstanding (<[q := x]> p) = (x.2 + outstanding p)%nat.
Proof. intros Hq. unfold outstanding. apply (map_fold_insert_L (λ _ (x : float64 * nat) n, x.2 + n)%nat); [lia|done]. Qed.

Lemma outstanding_delete p q x : p !! q = Some x → outstanding p = (x.2 + outstanding (delete q p))%nat.
Proof.
  intros Hq. rewrite <- (outstanding_insert (delete q p) q x) by apply lookup_delete_eq. by rewrite insert_delete_id.
Qed.

Lemma outstanding_delete_le p q : (outstanding (delete q p) ≤ outstanding p)%nat.
Proof.
  destruct (p !! q) as [x|] eqn:E; [rewrite (outstanding_delete p q x E); lia|by rewrite delete_id].
Qed.

Lemma forget_outstanding q p n p' : forget q p = (n, p') → 0 ≤ n ∧ Z.of_nat (outstanding p') + n = Z.of_nat (outstanding p).
Proof.
  unfold forget. intros [= <- <-]. destruct (p !! q) as [[t n]|] eqn:E; [|rewrite delete_id by done; lia].
  rewrite (outstanding_delete p q _ E). cbn. lia.
Qed.

Lemma in_take {A} k (l : list A) x : x ∈ take k l → x ∈ l.
Proof. intros Hx. rewrite <- (take_drop k l). apply elem_of_app. by left. Qed.
Lemma in_drop {A} k (l : list A) x : x ∈ drop k l → x ∈ l.
Proof. intros Hx. rewrite <- (take_drop k l). apply elem_of_app. by right. Qed.
Lemma NoDup_taken {A} k (l : list A) : NoDup l → NoDup (take k l).
Proof. rewrite <- (take_drop k l) at 1. by intros [? _]%NoDup_app. Qed.

Section evict.
Implicit Types p : gmap Z (float64 * nat).

Lemma lookup_foldr_delete p ks q : q ∉ ks → foldr delete p ks !! q = p !! q.
Proof.
  induction ks as [|k ks IH]; [done|]. rewrite not_elem_of_cons. intros [Hk Hks]. cbn.
  rewrite lookup_delete_ne by done. by apply IH.
Qed.
Lemma dom_foldr_delete p ks : dom (foldr delete p ks) = dom p ∖ list_to_set ks.
Proof. induction ks as [|k ks IH]; cbn; [set_solver|]. rewrite dom_delete_L, IH. set_solver. Qed.
Lemma outstanding_foldr_le p ks : (outstanding (foldr delete p ks) ≤ outstanding p)%nat.
Proof.
  induction ks as [|k ks IH]; [done|]. cbn. pose proof (outstanding_delete_le (foldr delete p ks) k). lia.
Qed.

(** The outstanding frames in the order of their numbers. *)
Definition in_order p : list Z := merge_sort Z.le (elements (dom p)).
Lemma in_order_perm p : in_order p ≡ₚ elements (dom p).
Proof. apply merge_sort_Permutation. Qed.
Lemma in_order_NoDup p : NoDup (in_order p).
Proof. rewrite in_order_perm. apply NoDup_elements. Qed.
Lemma in_order_length p : length (in_order p) = base.size p.
Proof. rewrite in_order_perm. exact (size_dom p). Qed.

(** Whatever [remember] drops is older than whatever it keeps. *)
Lemma in_order_split p k a b : a ∈ take k (in_order p) → b ∈ drop k (in_order p) → a < b.
Proof.
  intros Ha Hb. assert (Hs : StronglySorted Z.le (in_order p)) by (apply (StronglySorted_merge_sort Z.le)).
  rewrite <- (take_drop k (in_order p)) in Hs. pose proof (StronglySorted_app_1_elem_of _ _ _ _ _ Hs Ha Hb) as Hle.
  assert (a ≠ b); [|lia]. intros ->. pose proof (in_order_NoDup p) as Hn.
  rewrite <- (take_drop k (in_order p)), NoDup_app in Hn. naive_solver.
Qed.

Lemma remember_spec seq t n p : (∀ q, q ∈ dom p → q < seq) → (base.size p ≤ PENDING_ACKS_MAX)%nat →
  let p' := remember seq t n p in
  (base.size p' ≤ PENDING_ACKS_MAX)%nat ∧ p' !! seq = Some (t, n) ∧
  (∀ q, q ∈ dom p' → q = seq ∨ q ∈ dom p) ∧
  (∀ q, q ∈ dom p → p' !! q = p !! q ∨ q ∉ dom p' ∧ ∀ q', q' ∈ dom p' → q < q') ∧
  (outstanding p' ≤ outstanding p + n)%nat.
Proof.
  intros Hlt Hsz. unfold remember. cbn zeta. fold (in_order (<[seq:=(t, n)]> p)).
  assert (Hfresh : p !! seq = None).
  { apply not_elem_of_dom. intros Hin. specialize (Hlt seq Hin). lia. }
  set (p1 := <[seq := (t, n)]> p).
  assert (Hsz1 : base.size p1 = S (base.size p)) by (by apply map_size_insert_None).
  assert (Hout : outstanding p1 = (n + outstanding p)%nat) by (by apply outstanding_insert).
  assert (Hdom1 : dom p1 = {[seq]} ∪ dom p) by apply dom_insert_L.
  destruct (Nat.ltb_spec PENDING_ACKS_MAX (base.size p1)) as [Hlt1|Hge1].
  2: { split; [done|]. split; [apply lookup_insert_eq|]. split; [set_solver|]. split; [|lia].
       intros q Hq. left. unfold p1. rewrite lookup_insert_ne; [done|]. specialize (Hlt q Hq). lia. }
  set (k := (base.size p1 - PENDING_ACKS_MAX)%nat). set (ks := take k (in_order p1)).
  assert (Hks : ∀ q, q ∈ ks → q ∈ dom p1).
  { intros q Hq. apply elem_of_elements. rewrite <- in_order_perm. by eapply in_take. }
  assert (Hseq : seq ∉ ks).
  { intros Hin. assert (Hd : drop k (in_order p1) ≠ []).
    { intros E. pose proof (f_equal length E) as El. rewrite length_drop, in_order_length in El.
      unfold k, PENDING_ACKS_MAX in *. cbn in El. lia. }
    destruct (drop k (in_order p1)) as [|b l] eqn:Ed; [done|].
    assert (Hb : b ∈ drop k (in_order p1)) by (rewrite Ed; set_solver).
    pose proof (in_order_split p1 k seq b Hin Hb).
    assert (b ∈ dom p1) by (apply elem_of_elements; rewrite <- in_order_perm; by eapply in_drop).
    rewrite Hdom1 in *. assert (b = seq ∨ b ∈ dom p) as [->|Hbp] by set_solver; [lia|]. specialize (Hlt b Hbp). lia. }
  split; [|split; [|split; [|split]]].
  - rewrite <- size_dom, dom_foldr_delete, size_difference by set_solver.
    rewrite size_dom, size_list_to_set by (apply NoDup_taken, in_order_NoDup).
    unfold ks. rewrite length_take, in_order_length. lia.
  - rewrite lookup_foldr_delete by done. apply lookup_insert_eq.
  - intros q. rewrite dom_foldr_delete, Hdom1. set_solver.
  - intros q Hq. destruct (decide (q ∈ ks)) as [Hin|Hnin].
    + right. split; [rewrite dom_foldr_delete; set_solver|]. intros q' Hq'. rewrite dom_foldr_delete in Hq'.
      apply (in_order_split p1 k); [done|].
      assert (Hq1 : q' ∈ in_order p1) by (rewrite in_order_perm; set_solver).
      rewrite <- (take_drop k (in_order p1)) in Hq1. set_solver.
    + left. rewrite lookup_foldr_delete by done. unfold p1. rewrite lookup_insert_ne; [done|].
      specialize (Hlt q Hq). lia.
  - pose proof (outstanding_foldr_le p1 ks). lia.
Qed.
End evict.

Lemma chunked_concat {A} (l : list A) (n : nat) : (0 < n)%nat → concat (chunked l n) = l.
Proof.
  intros Hn. assert (Hm : ∀ m, concat ((λ k, take n (drop (k * n) l)) <$> seq 0 m) = take (m * n) l).
  { induction m as [|m IH]; [done|]. rewrite seq_S, fmap_app, concat_app, IH. cbn [fmap list_fmap concat].
    rewrite app_nil_r. rewrite (Nat.mul_succ_l m n). apply take_take_drop. }
  unfold chunked. rewrite Hm. apply take_ge.
  pose proof (Nat.div_mod_eq (length l + n - 1) n). pose proof (Nat.mod_upper_bound (length l + n - 1) n ltac:(lia)). nia.
Qed.

Lemma chunked_sizes {A} (l : list A) (n : nat) : Forall (λ c, length c ≤ n)%nat (chunked l n).
Proof. unfold chunked. apply Forall_fmap, Forall_forall. intros k _. cbn. rewrite length_take. lia. Qed.

Section worker_accounts.
Context `{Random} `{Orjson}.
Variable max_batch : nat.
Implicit Types w : Worker rng.

(** Runs of one worker: ticks, the returns of [socket.send], messages and sessions. *)
Inductive ws_step : Worker rng → Worker rng → Prop :=
  | ws_begin now reports w : sending w = None → ws_step w (begin_send max_batch now reports w)
  | ws_returned ok now w : ws_step w (send_returned ok now w)
  | ws_message message now w w' : handle message now w = Ok w' → ws_step w w'
  | ws_opened w : sending w = None → ws_step w (opened w)
  | ws_closed w : ws_step w (closed w)
  | ws_failed delay w : ws_step w (session_failed delay w).1.

Definition new_worker (s : Stats rng) : Worker rng := mkWorker s ∅ (flit 0) 0 false None.

Definition undelivered_now w : nat := match sending w with Some x => undelivered x | None => 0 end.
Definition on_the_wire w : nat := match sending w with Some x => length (current x) | None => 0 end.

(** Every report that was produced is sent, dropped, or still in the hands of [_send]; the
    frames nobody answered for, with what was rejected, never exceed what was tried. *)
Definition ws_ok w : Prop :=
  produced (w_stats w) = sent (w_stats w) + dropped (w_stats w) + Z.of_nat (undelivered_now w) ∧
  (∀ x, sending w = Some x →
     undelivered x = (length (current x) + length (concat (waiting x)))%nat) ∧
  0 ≤ rejected (w_stats w) ∧ 0 ≤ sent (w_stats w) ∧ 0 ≤ dropped (w_stats w) ∧
  rejected (w_stats w) + Z.of_nat (outstanding (pending w))
    ≤ sent (w_stats w) + dropped (w_stats w) + Z.of_nat (on_the_wire w) ∧
  (base.size (pending w) ≤ PENDING_ACKS_MAX)%nat ∧ ∀ q, q ∈ dom (pending w) → q ≤ w_seq w.

Lemma send_next_ok now rest n w :
  produced (w_stats w) = sent (w_stats w) + dropped (w_stats w) + Z.of_nat n →
  n = length (concat rest) →
  0 ≤ rejected (w_stats w) → 0 ≤ sent (w_stats w) → 0 ≤ dropped (w_stats w) →
  rejected (w_stats w) + Z.of_nat (outstanding (pending w)) ≤ sent (w_stats w) + dropped (w_stats w) →
  (base.size (pending w) ≤ PENDING_ACKS_MAX)%nat → (∀ q, q ∈ dom (pending w) → q ≤ w_seq w) →
  ws_ok (send_next now rest n w).
Proof.
  intros Hp Hn Hr Hs Hd Hout Hsz Hq. destruct rest as [|chunk rest]; cbn [send_next].
  { unfold ws_ok, undelivered_now, on_the_wire. cbn in *. split; [lia|]. split; [done|]. do 4 (split; [lia|]). done. }
  destruct (remember_spec (w_seq w + 1) now (length chunk) (pending w)) as (Hsz' & _ & Hdom & _ & Hout'); [|done|].
  { intros q Hin. specialize (Hq q Hin). lia. }
  unfold ws_ok, undelivered_now, on_the_wire. cbn. cbn [concat] in Hn; rewrite length_app in Hn.
  split; [lia|]. split; [intros x [= <-]; cbn; lia|]. do 4 (split; [lia|]). split; [done|].
  intros q Hin. destruct (Hdom q Hin) as [->|Hq']; [lia|]. specialize (Hq q Hq'). lia.
Qed.

(** Events that only settle outstanding frames or move other counters. *)
Lemma settle_ok p s t o w : ws_ok w →
  (∀ q, q ∈ dom p → q ∈ dom (pending w)) →
  produced s = produced (w_stats w) → sent s = sent (w_stats w) → dropped s = dropped (w_stats w) →
  rejected (w_stats w) ≤ rejected s → rejected s + Z.of_nat (outstanding p) ≤ rejected (w_stats w) + Z.of_nat (outstanding (pending w)) →
  ws_ok (mkWorker s p t (w_seq w) o (sending w)).
Proof.
  intros (Hp & Hu & Hr & Hs & Hd & Hout & Hsz & Hq) Hdom E1 E2 E3 Hr1 Hr2.
  unfold ws_ok, undelivered_now, on_the_wire in *. cbn. rewrite E1, E2, E3.
  split; [lia|]. split; [done|]. do 4 (split; [lia|]). split.
  - etrans; [|exact Hsz]. rewrite <- !size_dom. by apply subseteq_size.
  - intros q Hin. by apply Hq, Hdom.
Qed.

Lemma handle_ok message now w w' : ws_ok w → handle message now w = Ok w' → ws_ok w'.
Proof.
  intros Hok. unfold handle.
  assert (Hsame : ∀ s t o, produced s = produced (w_stats w) → sent s = sent (w_stats w) →
    dropped s = dropped (w_stats w) → rejected s = rejected (w_stats w) →
    ws_ok (mkWorker s (pending w) t (w_seq w) o (sending w))).
  { intros. apply settle_ok; try done; lia. }
  destruct (loads message) as [[| | | | | |frame]|]; try (by intros [= <-]).
  2: { intros [= <-]. apply Hsame; cbn; lia. }
  cbn zeta. destruct (frame_is "ack" frame); [|destruct (frame_is "throttle" frame); [|destruct (frame_is "error" frame)]].
  - intros E. destruct (assoc "seq" frame ≫= as_int) as [q|].
    + assert (Hs : ∀ s, produced s = produced (w_stats w) → sent s = sent (w_stats w) →
        dropped s = dropped (w_stats w) → rejected s = rejected (w_stats w) →
        ws_ok (mkWorker s (delete q (pending w)) (pause_until w) (w_seq w) (connected_once w) (sending w))).
      { intros s E1 E2 E3 E4. apply settle_ok; try done; [rewrite dom_delete_L; set_solver|lia|].
        rewrite E4. pose proof (outstanding_delete_le (pending w) q). lia. }
      destruct (pending w !! q) as [[t n]|]; simplify_eq/=; apply Hs; cbn; lia.
    + simplify_eq/=. apply Hsame; cbn; lia.
  - destruct (match default JNull (assoc "retry_after_ms" frame) with JInt z => _ | _ => _ end) as [ms|]; [|done].
    cbn [bind]. destruct (fdiv ms (flit 1000)); [|done]. cbn [bind]. intros [= <-]. apply Hsame; cbn; lia.
  - destruct (forget _ _) as [cnt p] eqn:Ef. destruct (forget_outstanding _ _ _ _ Ef) as [Hn Hp].
    intros [= <-]. apply (settle_ok p _ _ _ w); cbn; try done; try lia.
    intros q. unfold forget in Ef. simplify_eq. rewrite dom_delete_L. set_solver.
  - by intros [= <-].
Qed.

Lemma ws_step_ok w w' : (0 < max_batch)%nat → ws_step w w' → ws_ok w → ws_ok w'.
Proof.
  intros Hmax Hstep Hok. pose proof Hok as (Hp & Hu & Hr & Hs & Hd & Hout & Hsz & Hq).
  destruct Hstep as [now reports w Hn|ok now w|message now w w' E|w Hn|w|delay w].
  - unfold undelivered_now, on_the_wire in *. rewrite Hn in *.
    apply send_next_ok; cbn; try lia; try done. by rewrite chunked_concat.
  - unfold send_returned. destruct (sending w) as [x|] eqn:Ex; [|done].
    specialize (Hu x eq_refl). unfold undelivered_now, on_the_wire in *. rewrite Ex in *. destruct ok.
    + apply send_next_ok; cbn; try lia; try done.
    + unfold ws_ok, undelivered_now, on_the_wire. cbn. split; [lia|]. split; [done|]. do 4 (split; [lia|]). done.
  - by eapply handle_ok.
  - unfold opened. destruct (connected_once w); apply (settle_ok (pending w) _ _ _ w); cbn; try done; lia.
  - apply (settle_ok (pending w) _ _ _ w); cbn; try done; lia.
  - apply (settle_ok (pending w) _ _ _ w); cbn; try done; lia.
Qed.

Lemma new_worker_ok s : produced s = 0 → sent s = 0 → dropped s = 0 → rejected s = 0 → ws_ok (new_worker s).
Proof.
  intros E1 E2 E3 E4. unfold ws_ok, undelivered_now, on_the_wire. cbn. rewrite E1, E2, E3, E4.
  split; [lia|]. split; [done|]. do 3 (split; [lia|]). split; [by cbn|]. split; [unfold PENDING_ACKS_MAX; rewrite map_size_empty; lia|].
  intros q. rewrite dom_empty_L. set_solver.
Qed.
End worker_accounts.

(** ** The claims *)

(** the accounts of the websocket transport are a partition.  After any interleaving of
    ticks, sends that return or raise, frames from the server, reconnects and failures, every
    report the worker produced is counted sent, counted dropped, or is in the hands of the
    send under way; no more reports are rejected than were put on the wire; and at most 1024
    frames are remembered, whatever the server does or does not answer. *)
Lemma ws_accounts_balance `{Random} `{Orjson} max_batch s w :
  (0 < max_batch)%nat → produced s = 0 → sent s = 0 → dropped s = 0 → rejected s = 0 →
  rtc (ws_step max_batch) (new_worker s) w →
  produced (w_stats w) = sent (w_stats w) + dropped (w_stats w) + Z.of_nat (undelivered_now w) ∧
  0 ≤ rejected (w_stats w) ∧
  rejected (w_stats w) + Z.of_nat (outstanding (pending w)) ≤ produced (w_stats w) ∧
  (base.size (pending w) ≤ PENDING_ACKS_MAX)%nat.
Proof.
  intros Hmax E1 E2 E3 E4 Hr.
  assert (Hok : ws_ok w).
  { revert w Hr. apply (rtc_ind_r ws_ok); [by apply new_worker_ok|]. intros w1 w2 _ Hstep Hok. by eapply ws_step_ok. }
  destruct Hok as (Hp & Hu & Hr1 & Hs & Hd & Hout & Hsz & _).
  split; [done|]. split; [done|]. split; [|done].
  unfold on_the_wire, undelivered_now in *. destruct (sending w) as [x|]; [|lia]. specialize (Hu x eq_refl). lia.
Qed.

(** C39: the accounts of the HTTP transport balance, crashes included.  After any interleaving
    of the producer, of the senders with whatever the server answers, and of tasks that crash
    and are restarted, every produced report is sent, dropped, waiting in the batcher or the
    queue, in the hands of one sender - or was in the hands of a task that crashed, which is
    the one way a report leaves the books.  Once everything has been settled and nothing has
    crashed, produced equals sent plus dropped.  The queue keeps within its limit. *)
Theorem http_accounts_balance `{Random} `{Orjson} retry_after_of maxsize s batch_size batch_window r lost :
  produced s = 0 → sent s = 0 → dropped s = 0 → rejected s = 0 → queued s = 0 →
  rtc (run_step retry_after_of maxsize) (new_runner s batch_size batch_window, 0%nat) (r, lost) →
  produced (h_stats r) = sent (h_stats r) + dropped (h_stats r) + Z.of_nat (held r) + Z.of_nat lost ∧
  0 ≤ rejected (h_stats r) ≤ sent (h_stats r) ∧
  ((0 < maxsize)%nat → (length (queue r) ≤ maxsize)%nat) ∧
  queued (h_stats r) = Z.of_nat (length (queue r)).
Proof.
  intros E1 E2 E3 E4 E5 Hr.
  enough (Hb : balanced maxsize (r, lost)) by exact Hb.
  revert Hr. generalize (r, lost). clear r lost.
  apply (rtc_ind_r (balanced maxsize)); [|intros x y _ Hstep Hb; by eapply run_step_balanced].
  unfold balanced, held. cbn. rewrite E1, E2, E3, E4, E5. repeat split; try lia; done.
Qed.

Section posting.
Context `{Random} `{Orjson}.
Variable retry_after_of : option string → res (option float64).
Implicit Types r : Runner rng.

Lemma post_loop_idle i answers r : senders r !! i = None → post_loop retry_after_of i answers r = Ok r.
Proof.
  intros Hi. induction answers as [|[now a] answers IH]; [done|]. cbn [post_loop].
  unfold answered. rewrite Hi. cbn [bind]. unfold resumed. by rewrite Hi.
Qed.

(** The header never makes the pause computation raise. *)
Definition header_fine (a : Answer) : Prop :=
  match a with NoResponse => True | Response _ _ h => ∃ x, retry_after_of h = Ok x end.

(** What settling a batch does to the counters. *)
Definition settles (i : nat) (n : Z) r r' : Prop :=
  senders r' = delete i (senders r) ∧ queue r' = queue r ∧ h_batcher r' = h_batcher r ∧
  produced (h_stats r') = produced (h_stats r) ∧
  (sent (h_stats r') = sent (h_stats r) + n ∧ dropped (h_stats r') = dropped (h_stats r) ∨
   sent (h_stats r') = sent (h_stats r) ∧ dropped (h_stats r') = dropped (h_stats r) + n ∧
   accepted (h_stats r') = accepted (h_stats r) ∧ rejected (h_stats r') = rejected (h_stats r)).

(** An unsettled attempt: the report counters stand still. *)
Definition still (k : Z) r r' : Prop :=
  queue r' = queue r ∧ h_batcher r' = h_batcher r ∧ produced (h_stats r') = produced (h_stats r) ∧
  sent (h_stats r') = sent (h_stats r) ∧ dropped (h_stats r') = dropped (h_stats r) ∧
  accepted (h_stats r') = accepted (h_stats r) ∧ rejected (h_stats r') = rejected (h_stats r) ∧
  in_flight (h_stats r') = in_flight (h_stats r) + k.

Lemma answered_cases i now a batch tries delay started r :
  senders r !! i = Some (InRequest batch tries delay started) → header_fine a →
  ∃ r1, answered retry_after_of i now a r = Ok r1 ∧
    (settles i (Z.of_nat (length batch)) r r1 ∧ in_flight (h_stats r1) = in_flight (h_stats r) - 1 ∨
     senders r1 = <[i := Pausing batch tries delay]> (senders r) ∧ still (-1) r r1).
Proof.
  intros Hi Ha. unfold answered. rewrite Hi. destruct a as [|status content h].
  { eexists. split; [done|]. right. split; [done|]. unfold still. cbn. repeat split; lia. }
  destruct (status <? 300); [|destruct (_ || _)].
  - eexists. split; [done|]. left. unfold settles. cbn. repeat split; lia.
  - destruct Ha as [x Ha]. rewrite Ha. eexists. split; [done|]. right. split; [done|]. unfold still. cbn. repeat split; lia.
  - eexists. split; [done|]. left. unfold settles. cbn. repeat split; lia.
Qed.

Lemma settles_still i n k r r1 r2 : still k r r1 → delete i (senders r1) = delete i (senders r) →
  settles i n r1 r2 → settles i n r r2.
Proof.
  intros (E1 & E2 & E3 & E4 & E5 & E6 & E7 & _) Hs (F1 & F2 & F3 & F4 & F5).
  unfold settles. rewrite F1, F2, F3, F4, Hs, E1, E2, E3. repeat split; try done. lia.
Qed.

Lemma post_loop_settles i batch tries delay started answers r :
  senders r !! i = Some (InRequest batch tries delay started) → (tries < length answers)%nat →
  Forall (λ x, header_fine x.2) answers →
  ∃ r', post_loop retry_after_of i answers r = Ok r' ∧ settles i (Z.of_nat (length batch)) r r' ∧
    in_flight (h_stats r') = in_flight (h_stats r) - 1.
Proof.
  revert delay started answers r. induction tries as [|tries IH]; intros delay started answers r Hi Hlen Hf;
    (destruct answers as [|[now a] answers]; [cbn in Hlen; lia|]); cbn [post_loop length] in *;
    apply Forall_cons in Hf as [Ha Hf]; cbn [snd] in Ha;
    destruct (answered_cases i now a _ _ _ _ r Hi Ha) as (r1 & -> & [[Hs Hin]|[Hsend Hst]]); cbn [bind];
    try (exists r1; assert (Hn : senders r1 !! i = None) by (destruct Hs as [-> _]; apply lookup_delete_eq);
         unfold resumed; rewrite Hn; rewrite post_loop_idle by done; done);
    unfold resumed; rewrite Hsend, lookup_insert_eq; cbn [attempt].
  - eexists. rewrite post_loop_idle by apply lookup_delete_eq. split; [done|].
    unfold settles, still in *. cbn. rewrite Hsend, delete_insert_eq. repeat split; try tauto; lia.
  - destruct (IH (next_backoff delay) now answers
      (with_senders (<[i:=InRequest batch tries (next_backoff delay) now]> (senders r1)) (hnote (add_in_flight 1) r1)))
      as (r' & -> & Hs & Hin); [apply lookup_insert_eq|lia|done|].
    exists r'. split; [done|]. split.
    + eapply (settles_still i _ 0); [|..|exact Hs].
      * unfold still in *. cbn. repeat split; try tauto; lia.
      * cbn. by rewrite Hsend, !delete_insert_eq.
    + unfold still in Hst. cbn in *. lia.
Qed.
End posting.

(** a batch settles exactly once, within three attempts.  Whatever the server answers -
    errors, congestion, refusals - [_post] comes back to the queue, the batch is counted sent
    or dropped and not both, a dropped one moves neither [accepted] nor [rejected], and no
    request is left counted in flight. *)
Lemma post_settles_once `{Random} `{Orjson} retry_after_of i now batch answers (r : Runner rng) :
  senders r !! i = None → length answers = HTTP_ATTEMPTS →
  Forall (λ x, header_fine retry_after_of x.2) answers →
  ∃ r', post retry_after_of i now batch answers r = Ok r' ∧ settles i (Z.of_nat (length batch)) r r' ∧
    in_flight (h_stats r') = in_flight (h_stats r).
Proof.
  intros Hi Hlen Hf. unfold post, HTTP_ATTEMPTS in *. cbn [attempt].
  set (r0 := with_senders _ _).
  destruct (post_loop_settles retry_after_of i batch 2 RECONNECT_BASE_S now answers r0) as (r' & -> & Hs & Hin);
    [apply lookup_insert_eq|lia|done|].
  exists r'. split; [done|]. split; [|cbn in Hin; lia].
  eapply (settles_still i _ 1); [|..|exact Hs].
  - unfold still. cbn. repeat split; lia.
  - cbn. by rewrite delete_insert_eq.
Qed.

(** ** Pauses *)

Lemma fmin_range x n hi : 0 ≤ n ≤ hi → x = Fin n ∨ x = Inf false → ∃ m, fmin x (Fin hi) = Fin m ∧ 0 ≤ m ≤ hi.
Proof.
  intros Hn [->| ->]; unfold fmin, fltb, fcompare; [|by exists hi; split; [|lia]].
  destruct (Z.compare_spec hi n); eexists; (split; [done|lia]).
Qed.

Lemma fmax_zero x : number x → fmax x (flit 0) = Inf false ∨ ∃ n, fmax x (flit 0) = Fin n ∧ 0 ≤ n.
Proof.
  intros Hx. unfold fmax, fltb, fcompare, flit. destruct x as [n|[]|]; [|right; by exists (0 * u)|by left|done].
  right. destruct (Z.compare_spec n (0 * u)); eexists; (split; [done|lia]).
Qed.

Lemma float_of_int_cases k : float_of_int k = Raise OverflowError ∧ 2 ^ 1000 ≤ Z.abs k ∨
  ∃ n, float_of_int k = Ok (Fin n).
Proof.
  unfold float_of_int, of_rounded. destruct (Z.leb_spec (2 ^ 2098) (Z.abs (rnd (k * u) 1))) as [Hle|Hlt].
  - left. split; [done|]. destruct (Z.lt_ge_cases (Z.abs k) (2 ^ 1000)) as [Hk|]; [|done]. exfalso.
    assert (Z.abs (rnd (k * u) 1) ≤ 2 ^ 2074); [|assert (2 ^ 2074 < 2 ^ 2098) by (by vm_compute); lia].
    apply rnd_abs_le; [done|by apply representable_pow|].
    assert (2 ^ 2074 = 2 ^ 1000 * u) as -> by (by vm_compute). rewrite Z.abs_mul, (Z.abs_eq u) by (pose proof u_pos; lia).
    pose proof u_pos. nia.
  - right. by eexists.
Qed.

(** backpressure holds a sender for at most half a minute.  For any [Retry-After] header,
    absent, garbage, a number of seconds, a date, however large, the pause is between zero
    and 30 seconds - unless the header is an integer too large for a float, where reading it
    raises [OverflowError]. *)
Lemma retry_pause_bounded strip int_of_str seconds_until header fallback :
  (∀ raw x, seconds_until raw = Some x → isfinite x = true) →
  within 0 (30 * u) fallback →
  match parse_retry_after strip int_of_str seconds_until header with
  | Ok o => within 0 (30 * u) (retry_pause o fallback)
  | Raise e => e = OverflowError ∧ ∃ text n, header = Some text ∧ int_of_str (strip text) = Some n ∧ 2 ^ 1000 ≤ Z.abs n
  end.
Proof.
  intros Hfin (f & -> & Hf). unfold parse_retry_after, retry_pause, RETRY_AFTER_MAX_S, flit.
  assert (Hpause : ∀ x, number x → within 0 (30 * u) (fmin (fmax x (flit 0)) (Fin (30 * u)))).
  { intros x Hx. pose proof u_pos. destruct (fmax_zero x Hx) as [E|(n & -> & Hn)].
    - rewrite E. destruct (fmin_range (Inf false) 0 (30 * u)) as (m & -> & Hm); [lia|by right|]. by exists m.
    - unfold fmin, fltb, fcompare. destruct (Z.compare_spec (30 * u) n); eexists; (split; [done|lia]). }
  assert (Hnone : within 0 (30 * u) (fmin (Fin f) (Fin (30 * u)))).
  { destruct (fmin_range (Fin f) f (30 * u)) as (m & E & Hm); [lia|by left|]. exists m. split; [exact E|done]. }
  destruct header as [[|c text]|]; [done| |done].
  destruct (int_of_str _) as [n|] eqn:En.
  - destruct (float_of_int_cases n) as [[-> Hn]|[m ->]]; cbn [bind]; [|by apply Hpause].
    split; [done|]. by eexists _, n.
  - destruct (seconds_until _) as [x|] eqn:Ex; [|done]. apply Hpause. apply Hfin in Ex. by destruct x.
Qed.

(** The doubling back-off stays between half a second and half a minute. *)
Lemma next_backoff_range x : within (2 ^ 1073) (30 * u) x → within (2 ^ 1073) (30 * u) (next_backoff x).
Proof.
  intros (n & -> & Hn). unfold next_backoff, fmul, flit, RECONNECT_MAX_S, flit.
  assert (H60 : 2 * (30 * u) < 2 ^ 2098) by (by vm_compute). assert (H2 : 2 * 2 ^ 1073 ≤ 2 * (30 * u)) by (by vm_compute).
  assert (E : rnd (n * (2 * u)) u = rnd (2 * n) 1) by (rewrite <- rnd_scale_u; f_equal; lia).
  rewrite E.
  assert (Hr : 2 ^ 1073 ≤ rnd (2 * n) 1 ≤ 60 * u).
  { apply rnd_between; [done|by apply representable_pow|by apply representable_lit|lia]. }
  rewrite of_rounded_Fin by lia. unfold fmin, fltb, fcompare.
  destruct (Z.compare_spec (30 * u) (rnd (2 * n) 1)); eexists; (split; [done|lia]).
Qed.

(** ** The reservoir *)

Section sampling.
Context `{Random}.

Definition observe_all (vs : list float64) (v : Reservoir rng) : Reservoir rng := foldl (λ v x, observe x v) v vs.

Lemma observe_ok v x seen :
  (length (values v) = Nat.min (count v) (capacity v))%nat → count v = length seen →
  (∀ y, y ∈ values v → y ∈ seen) →
  let v' := observe x v in
  capacity v' = capacity v ∧ (length (values v') = Nat.min (count v') (capacity v'))%nat ∧
  count v' = length (seen ++ [x]) ∧ ∀ y, y ∈ values v' → y ∈ seen ++ [x].
Proof.
  intros Hlen Hc Hin. unfold observe. cbn zeta.
  destruct (Nat.ltb_spec (length (values v)) (capacity v)).
  - cbn [capacity count values]. rewrite !length_app. cbn [length]. repeat split; [lia|lia|]. set_solver.
  - destruct (randrange _ _) as [index r'] eqn:E. cbn [capacity count values]. rewrite length_app. cbn [length]. repeat split; [|lia|].
    + destruct (_ <? _); [rewrite length_insert|]; lia.
    + intros y Hy. destruct (Z.ltb_spec index (Z.of_nat (capacity v))); [|set_solver].
      apply list_elem_of_lookup in Hy as [k Hk]. rewrite list_lookup_insert_Some in Hk.
      destruct Hk as [(_ & -> & _)|[_ Hk]]; [set_solver|]. apply elem_of_app. left. apply Hin.
      by eapply list_elem_of_lookup_2.
Qed.
End sampling.

(** the latency sample is bounded and honest.  After any number of observations it holds
    the smaller of that number and the capacity, every sample is a value that was observed,
    and the count is the number of observations. *)
Lemma reservoir_bounded `{Random} cap r vs :
  let v := observe_all vs (new_reservoir cap r) in
  count v = length vs ∧ length (values v) = Nat.min (length vs) cap ∧ ∀ y, y ∈ values v → y ∈ vs.
Proof.
  assert (Hgen : ∀ vs seen v, (length (values v) = Nat.min (count v) (capacity v))%nat → count v = length seen →
    (∀ y, y ∈ values v → y ∈ seen) → let v' := observe_all vs v in
    capacity v' = capacity v ∧ (length (values v') = Nat.min (count v') (capacity v'))%nat ∧
    count v' = length (seen ++ vs) ∧ ∀ y, y ∈ values v' → y ∈ seen ++ vs).
  { clear vs. induction vs as [|x vs IH]; intros seen v Hlen Hc Hin; cbn; [rewrite app_nil_r; auto|].
    destruct (observe_ok v x seen Hlen Hc Hin) as (Ec & Hlen' & Hc' & Hin').
    destruct (IH (seen ++ [x]) (observe x v) Hlen' Hc' Hin') as (Ec2 & H1 & H2 & H3).
    rewrite <- app_assoc in H2, H3. rewrite Ec in Ec2. auto. }
  destruct (Hgen vs [] (new_reservoir cap r)) as (Ec & Hlen & Hc & Hin); [done|done|set_solver|].
  cbn zeta. rewrite Hc, Ec in *. cbn in *. rewrite Hlen. auto.
Qed.

(** ** Percentiles and rates *)

Lemma floor_range a k : 0 ≤ a ≤ k * u → ∃ z, floor (Fin a) = Ok z ∧ 0 ≤ z ≤ k.
Proof.
  intros Ha. exists (a / u). split; [done|]. pose proof u_pos.
  split; [apply Z.div_pos; lia|apply Z.div_le_upper_bound; lia].
Qed.

Lemma ceil_range a k : 0 ≤ a ≤ k * u → ∃ z, ceil (Fin a) = Ok z ∧ 0 ≤ z ≤ k.
Proof.
  intros Ha. exists (- ((- a) / u)). split; [done|]. pose proof u_pos.
  assert (- k ≤ (- a) / u) by (apply Z.div_le_lower_bound; lia).
  assert ((- a) / u ≤ 0) by (apply Z.div_le_upper_bound; lia). lia.
Qed.

Lemma nth_of_in_range {A} (l : list A) z : 0 ≤ z < Z.of_nat (length l) → ∃ a, nth_of l (Z.to_nat z) = Ok a ∧ a ∈ l.
Proof.
  intros Hz. destruct (lookup_lt_is_Some_2 l (Z.to_nat z)) as [a Ha]; [lia|].
  exists a. unfold nth_of. rewrite Ha. split; [done|]. by eapply list_elem_of_lookup_2.
Qed.

(** a percentile is always defined.  For any sample and any rank between 0 and 1 the
    computation never raises - both ranks it reads exist -, it answers [None] exactly for an
    empty sample, and the percentile of a single value is that value. *)
Lemma percentile_defined vs n : 0 ≤ n ≤ u → Z.of_nat (length vs) < 2 ^ 53 →
  (vs = [] ∧ percentile vs (Fin n) = Ok None ∨
   vs ≠ [] ∧ ∃ x, percentile vs (Fin n) = Ok (Some x)) ∧
  ∀ v, vs = [v] → percentile vs (Fin n) = Ok (Some v).
Proof.
  intros Hn Hlen. assert (Hone : ∀ v, percentile [v] (Fin n) = Ok (Some v)).
  { intros v. unfold percentile. change (merge_sort _ [v]) with [v]. cbn [length].
    rewrite (float_of_int_small (Z.of_nat 1 - 1)) by lia. cbn [bind].
    assert (E : fmul (flit (Z.of_nat 1 - 1)) (Fin n) = Fin 0).
    { unfold flit, fmul. replace ((Z.of_nat 1 - 1) * u * n) with (0 * u) by lia.
      rewrite rnd_representable by (auto with geotrack). done. }
    rewrite E. unfold ceil, floor, fneg. cbn [bind]. change (0 / u) with 0. change (- 0 / u) with 0. done. }
  split; [|by intros v ->]. destruct vs as [|v vs]; [by left|]. right. split; [done|].
  unfold percentile. set (ordered := merge_sort _ (v :: vs)).
  assert (Hol : length ordered = S (length vs)) by (unfold ordered; by rewrite merge_sort_Permutation).
  rewrite Hol. cbn [length] in Hlen. set (k := Z.of_nat (S (length vs)) - 1).
  rewrite (float_of_int_small k) by lia. cbn [bind].
  assert (Hpos : ∃ p, fmul (flit k) (Fin n) = Fin p ∧ 0 ≤ p ≤ k * u).
  { pose proof u_pos. exists (rnd (k * u * n) u).
    assert (Hr : 0 ≤ rnd (k * u * n) u ≤ k * u).
    { apply rnd_between; [done|auto with geotrack|apply representable_lit; lia|unfold k in *; nia]. }
    split; [|done]. unfold fmul, flit. apply of_rounded_Fin.
    assert (2 ^ 53 * u < 2 ^ 2098) by (by vm_compute). unfold k in *. nia. }
  destruct Hpos as (p & -> & Hp).
  destruct (floor_range p k Hp) as (lower & -> & Hlo). destruct (ceil_range p k Hp) as (upper & -> & Hup). cbn [bind].
  destruct (nth_of_in_range ordered lower) as (low & -> & _); [rewrite Hol; lia|]. cbn [bind].
  destruct (lower =? upper); [by eexists|].
  rewrite (float_of_int_small lower) by lia. cbn [bind].
  destruct (nth_of_in_range ordered upper) as (high & -> & _); [rewrite Hol; lia|]. by eexists.
Qed.

(** ** With the server's side of the conversation *)

Section conversation.
Context `{Random} `{OrjsonRoundtrip}.

Definition int64 (z : Z) : Prop := 0 ≤ z < 2 ^ 63.

Lemma dumpable_int z : int64 z → dumpable (JInt z) = true.
Proof. unfold int64. intros Hz. cbn [dumpable]. apply andb_true_iff. split; lia. Qed.

(** A flat object of known keys, integers and valid text. *)
Ltac dumpable_frame :=
  lazymatch goal with |- dumpable (JObj ?l) = true =>
    change (bool_decide (NoDup l.*1) && forallb (λ kv, utf8_valid kv.1 && dumpable kv.2) l = true) end;
  cbn [forallb fst snd]; rewrite !andb_true_iff; repeat split;
  first [assumption | by apply dumpable_int | reflexivity].
Ltac fields :=
  unfold frame_is; cbn [assoc];
  repeat first [rewrite decide_True by done | rewrite decide_False by done
               | rewrite bool_decide_true by done | rewrite bool_decide_false by done].

Lemma handle_ack seq n now (w : Worker rng) : int64 seq → int64 n →
  ∃ w', handle (ack_frame seq n) now w = Ok w' ∧
    pending w' = delete seq (pending w) ∧ accepted (w_stats w') = accepted (w_stats w) + n ∧
    sent (w_stats w') = sent (w_stats w) ∧ rejected (w_stats w') = rejected (w_stats w) ∧
    dropped (w_stats w') = dropped (w_stats w).
Proof.
  intros Hs Hn. unfold handle, ack_frame. rewrite loads_dumps by dumpable_frame. fields. cbn.
  destruct (pending w !! seq) as [[t k]|]; eexists; (split; [reflexivity|]); cbn; repeat split; lia.
Qed.

Lemma handle_error code detail seq now (w : Worker rng) : int64 seq → utf8_valid code = true → utf8_valid detail = true →
  ∃ w', handle (error_frame code detail (Some seq)) now w = Ok w' ∧
    pending w' = delete seq (pending w) ∧
    rejected (w_stats w') = rejected (w_stats w) + (forget seq (pending w)).1 ∧
    accepted (w_stats w') = accepted (w_stats w) ∧ sent (w_stats w') = sent (w_stats w) ∧
    dropped (w_stats w') = dropped (w_stats w).
Proof.
  intros Hs Hc Hd. unfold handle, error_frame. cbn [app].
  rewrite loads_dumps by dumpable_frame. fields. cbn.
  eexists. split; [reflexivity|]. cbn. repeat split; lia.
Qed.

Lemma handle_throttle ms now (w : Worker rng) : int64 ms →
  ∃ w', handle (throttle_frame ms) now w = Ok w' ∧
    pending w' = pending w ∧ accepted (w_stats w') = accepted (w_stats w) ∧
    sent (w_stats w') = sent (w_stats w) ∧ rejected (w_stats w') = rejected (w_stats w) ∧
    dropped (w_stats w') = dropped (w_stats w) ∧ throttles (w_stats w') = throttles (w_stats w) + 1.
Proof.
  intros Hm. unfold handle, throttle_frame. rewrite loads_dumps by dumpable_frame. fields.
  cbn [default from_option id]. destruct (float_of_int_cases ms) as [[_ Hbig]|[x ->]].
  { unfold int64 in Hm. assert (2 ^ 63 < 2 ^ 1000) by (by vm_compute). lia. }
  cbn [bind]. assert (Hdiv : ∃ y, fdiv (Fin x) (flit 1000) = Ok y) by (by eexists). destruct Hdiv as [y ->].
  eexists. split; [reflexivity|]. cbn. repeat split; lia.
Qed.
End conversation.

(** a frame is settled by its first answer.  The server's acknowledgement of a frame
    counts the accepted reports and forgets the frame, its refusal counts exactly the reports
    the frame carried, and a further refusal of a frame already settled counts nothing. *)
Lemma answer_settles_frame `{Random} `{OrjsonRoundtrip} (w : Worker rng) seq sent_at k n code detail now now' :
  int64 seq → int64 n → utf8_valid code = true → utf8_valid detail = true →
  pending w !! seq = Some (sent_at, k) →
  ∃ wa we, handle (ack_frame seq n) now w = Ok wa ∧ handle (error_frame code detail (Some seq)) now w = Ok we ∧
    accepted (w_stats wa) = accepted (w_stats w) + n ∧ rejected (w_stats wa) = rejected (w_stats w) ∧
    rejected (w_stats we) = rejected (w_stats w) + Z.of_nat k ∧ accepted (w_stats we) = accepted (w_stats w) ∧
    ∀ w1, w1 = wa ∨ w1 = we →
      pending w1 !! seq = None ∧
      ∃ w2, handle (error_frame code detail (Some seq)) now' w1 = Ok w2 ∧ rejected (w_stats w2) = rejected (w_stats w1).
Proof.
  intros Hs Hn Hc Hd Hp.
  destruct (handle_ack seq n now w Hs Hn) as (wa & Ea & Pa & Aa & _ & Ra & _).
  destruct (handle_error code detail seq now w Hs Hc Hd) as (we & Ee & Pe & Re & Ae & _).
  exists wa, we. rewrite Re. unfold forget. rewrite Hp. repeat (split; [done|]).
  intros w1 Hw1. assert (Hpend : pending w1 !! seq = None) by (destruct Hw1 as [->| ->]; [rewrite Pa|rewrite Pe]; apply lookup_delete_eq).
  split; [done|]. destruct (handle_error code detail seq now' w1 Hs Hc Hd) as (w2 & E2 & _ & R2 & _).
  exists w2. split; [done|]. rewrite R2. unfold forget. rewrite Hpend. cbn. lia.
Qed.

(** a throttled frame leaves the books.  While the ingest gate is shut the server writes
    nothing to the queue for a frame it receives and answers with a throttle frame or not at
    all; and the generator, which counted the reports of the frame as sent, counts them
    neither accepted nor rejected when that answer arrives. *)
Lemma throttled_reports_uncounted `{Random} `{OrjsonRoundtrip}
    validate_report validate_items validate_envelope window_text shards max_items days skew raw m st s ms :
  retry_after_ms (gate m) = Ok ms → int64 ms →
  ∃ st' outs, on_frame validate_report validate_items validate_envelope window_text shards max_items days skew
      true raw m st s = (st', s, Ok (outs, true)) ∧
    (outs = [] ∨ outs = [SendText (throttle_frame ms)]) ∧
    ∀ now (w : Worker rng), ∃ w', handle (throttle_frame ms) now w = Ok w' ∧
      pending w' = pending w ∧ sent (w_stats w') = sent (w_stats w) ∧ accepted (w_stats w') = accepted (w_stats w) ∧
      rejected (w_stats w') = rejected (w_stats w) ∧ dropped (w_stats w') = dropped (w_stats w).
Proof.
  intros Hms Hint. unfold on_frame, notify_throttled. rewrite Hms.
  assert (Hh : ∀ now (w : Worker rng), ∃ w', handle (throttle_frame ms) now w = Ok w' ∧
      pending w' = pending w ∧ sent (w_stats w') = sent (w_stats w) ∧ accepted (w_stats w') = accepted (w_stats w) ∧
      rejected (w_stats w') = rejected (w_stats w) ∧ dropped (w_stats w') = dropped (w_stats w)).
  { intros now w. destruct (handle_throttle ms now w Hint) as (w' & E & E1 & E2 & E3 & E4 & E5 & _). by exists w'. }
  destruct (_ && _); eexists _, _; (split; [reflexivity|]); (split; [|exact Hh]); auto.
Qed.

(** ** Where the books do not close *)

Lemma float_of_int_overflow n : 2 ^ 1024 ≤ n → float_of_int n = Raise OverflowError.
Proof.
  intros Hn. unfold float_of_int, of_rounded.
  assert (2 ^ 2098 ≤ rnd (n * u) 1).
  { rewrite <- (rnd_representable (2 ^ 2098) 1) by (auto with geotrack; by apply representable_pow).
    apply rnd_mono; [|done]. assert (2 ^ 2098 = 2 ^ 1024 * u) as -> by (by vm_compute). pose proof u_pos. nia. }
  destruct (Z.leb_spec (2 ^ 2098) (Z.abs (rnd (n * u) 1))); [done|lia].
Qed.

(** a congested answer can take a batch off the books.  A 429 or a 503 whose
    [Retry-After] is an integer of more than 308 digits - a legal header, the code says the
    other side may send anything - makes [float] overflow inside [_post]: the sender dies and
    is restarted, and its batch is neither sent nor dropped nor in anybody's hands. *)
Lemma long_retry_after_loses_batch `{Random} `{Orjson} strip int_of_str seconds_until maxsize
    i now batch tries delay started status content text n (r : Runner rng) lost :
  senders r !! i = Some (InRequest batch tries delay started) →
  status = 429 ∨ status = 503 → text ≠ "" → int_of_str (strip text) = Some n → 2 ^ 1024 ≤ n →
  let header := parse_retry_after strip int_of_str seconds_until in
  answered header i now (Response status content (Some text)) r = Raise OverflowError ∧
  ∃ r', run_step header maxsize (r, lost) (r', lost + length batch)%nat ∧
    (held r' + length batch = held r)%nat ∧ produced (h_stats r') = produced (h_stats r) ∧
    sent (h_stats r') = sent (h_stats r) ∧ dropped (h_stats r') = dropped (h_stats r).
Proof.
  intros Hi Hst Ht Hn Hbig header.
  assert (Hh : header (Some text) = Raise OverflowError).
  { unfold header, parse_retry_after. destruct text as [|c text]; [done|]. rewrite Hn.
    by rewrite float_of_int_overflow. }
  assert (E : answered header i now (Response status content (Some text)) r = Raise OverflowError).
  { unfold answered. rewrite Hi. assert (status <? 300 = false) as -> by lia.
    assert ((status =? 429) || (status =? 503) = true) as -> by lia. by rewrite Hh. }
  split; [done|]. eexists. split; [by eapply run_answer_raised|].
  pose proof (in_hand_delete _ _ _ Hi) as Hdel. cbn [sender_batch] in Hdel.
  unfold held, sender_crashed. cbn [senders hnote]. rewrite Hi. cbn. repeat split; lia.
Qed.

(** ** Concrete runs *)

Module LoadDemo.
Import MotionRef.
#[local] Existing Instance Ref.orjson.
Definition rep : Report := mkReport "dev-00007" (flit 50) (flit 30) 1700000000000000.
Definition stats : Stats rng := new_stats (seeded "") (flit 0).

(** One report is sent and refused. *)
Definition w1 : Worker rng := begin_send 2 (flit 1) [rep] (opened (new_worker stats)).
Definition w2 : Worker rng := send_returned true (flit 2) w1.
Definition refusal : string := error_frame "out_of_window" "too old" (Some 1).
Definition ok_or {A} (d : A) (m : res A) : A := match m with Ok a => a | Raise _ => d end.
Definition w3 : Worker rng := ok_or w2 (handle refusal (flit 3) w2).

Lemma worker_run : rtc (ws_step 2) (new_worker stats) w3.
Proof.
  apply (rtc_l _ _ (opened (new_worker stats))); [by apply ws_opened|].
  apply (rtc_l _ _ w1); [by apply ws_begin|]. apply (rtc_l _ _ w2); [apply ws_returned|].
  apply rtc_once. apply (ws_message 2 refusal (flit 3)). vm_compute. reflexivity.
Qed.

(** The refusal overtakes the failure of the send: the report is counted twice. *)
Definition w4 : Worker rng := send_returned false (flit 4) (ok_or w1 (handle refusal (flit 3) w1)).

(** Three reports over HTTP: one request is accepted, one report is still waiting. *)
Definition no_header : option string → res (option float64) := λ _, Ok None.
Definition r0 : Runner rng := new_runner stats 2 (flit 1).
Definition r1 : Runner rng := produce 4 (flit 0) [rep; rep; rep] r0.
Definition r2 : Runner rng := pick_up 0 (flit 0) r1.
Definition accepted_body : string := dumps (JObj [("accepted", JInt 2)]).
Definition r3 : Runner rng := ok_or r2 (answered no_header 0 (flit 1) (Response 202 accepted_body None) r2).

Lemma runner_run : rtc (run_step no_header 4) (r0, 0%nat) (r3, 0%nat).
Proof.
  apply (rtc_l _ _ (r1, 0%nat)); [apply run_produce|]. apply (rtc_l _ _ (r2, 0%nat)); [by apply run_pick_up|].
  apply rtc_once. apply (run_answered no_header 4 0 (flit 1) (Response 202 accepted_body None)).
  vm_compute. reflexivity.
Qed.
End LoadDemo.

#[local] Existing Instance MotionRef.counter.
#[local] Existing Instance Ref.orjson.
#[local] Existing Instance Ref.orjson_roundtrip.

(** A run that stops here prints that every produced report was either sent or dropped. *)
Lemma stopped_run_holds_reports :
  produced (h_stats LoadDemo.r3) = 3 ∧ sent (h_stats LoadDemo.r3) = 2 ∧ dropped (h_stats LoadDemo.r3) = 0 ∧
  held LoadDemo.r3 = 1%nat.
Proof. vm_compute. repeat split. Qed.

(** The same report is counted dropped and rejected. *)
Lemma dropped_and_rejected :
  produced (w_stats LoadDemo.w4) = 1 ∧ sent (w_stats LoadDemo.w4) = 0 ∧
  dropped (w_stats LoadDemo.w4) = 1 ∧ rejected (w_stats LoadDemo.w4) = 1.
Proof. vm_compute. repeat split. Qed.

Lemma ws_accounts_balance_witness :
  produced (w_stats LoadDemo.w3) = sent (w_stats LoadDemo.w3) + dropped (w_stats LoadDemo.w3) + Z.of_nat (undelivered_now LoadDemo.w3) ∧
  0 ≤ rejected (w_stats LoadDemo.w3) ∧
  rejected (w_stats LoadDemo.w3) + Z.of_nat (outstanding (pending LoadDemo.w3)) ≤ produced (w_stats LoadDemo.w3) ∧
  (base.size (pending LoadDemo.w3) ≤ PENDING_ACKS_MAX)%nat.
Proof. apply (ws_accounts_balance 2 LoadDemo.stats); [lia|reflexivity..|exact LoadDemo.worker_run]. Defined.

Lemma http_accounts_balance_witness :
  produced (h_stats LoadDemo.r3) = sent (h_stats LoadDemo.r3) + dropped (h_stats LoadDemo.r3) + Z.of_nat (held LoadDemo.r3) + Z.of_nat 0 ∧
  0 ≤ rejected (h_stats LoadDemo.r3) ≤ sent (h_stats LoadDemo.r3) ∧
  ((0 < 4)%nat → (length (queue LoadDemo.r3) ≤ 4)%nat) ∧
  queued (h_stats LoadDemo.r3) = Z.of_nat (length (queue LoadDemo.r3)).
Proof.
  apply (http_accounts_balance LoadDemo.no_header 4 LoadDemo.stats 2 (flit 1)); [reflexivity..|exact LoadDemo.runner_run].
Defined.

Lemma post_settles_once_witness :
  ∃ r', post LoadDemo.no_header 0 (flit 0) [LoadDemo.rep]
          [(flit 1, NoResponse); (flit 2, Response 429 "" None); (flit 3, Response 400 "" None)] LoadDemo.r1 = Ok r' ∧
    settles 0 1 LoadDemo.r1 r' ∧ in_flight (h_stats r') = in_flight (h_stats LoadDemo.r1).
Proof.
  apply (post_settles_once LoadDemo.no_header 0 (flit 0) [LoadDemo.rep]); [reflexivity..|].
  repeat constructor; by eexists.
Defined.

Lemma retry_pause_bounded_witness :
  within 0 (30 * u) (retry_pause (Some (flit 3600)) RECONNECT_BASE_S).
Proof.
  pose proof (retry_pause_bounded id (λ _, Some 3600) (λ _, None) (Some "3600") RECONNECT_BASE_S) as Hp.
  assert (E : parse_retry_after id (λ _, Some 3600) (λ _, None) (Some "3600") = Ok (Some (flit 3600))) by (vm_compute; reflexivity).
  rewrite E in Hp. apply Hp; [done|]. exists (rnd (5 * u) 10). split; [reflexivity|split; vm_compute; discriminate].
Defined.

Lemma percentile_defined_witness :
  let vs := [flit 3; flit 1; flit 2] in
  (vs = [] ∧ percentile vs (Fin (2 ^ 1073)) = Ok None ∨
   vs ≠ [] ∧ ∃ x, percentile vs (Fin (2 ^ 1073)) = Ok (Some x)) ∧
  ∀ v, vs = [v] → percentile vs (Fin (2 ^ 1073)) = Ok (Some v).
Proof. apply (percentile_defined [flit 3; flit 1; flit 2] (2 ^ 1073)); by vm_compute. Defined.

Lemma answer_settles_frame_witness :
  ∃ wa we, handle (ack_frame 1 1) (flit 3) LoadDemo.w2 = Ok wa ∧
    handle (error_frame "out_of_window" "too old" (Some 1)) (flit 3) LoadDemo.w2 = Ok we ∧
    accepted (w_stats wa) = 0 + 1 ∧ rejected (w_stats wa) = 0 ∧
    rejected (w_stats we) = 0 + 1 ∧ accepted (w_stats we) = 0 ∧
    ∀ w1, w1 = wa ∨ w1 = we →
      pending w1 !! 1 = None ∧
      ∃ w2, handle (error_frame "out_of_window" "too old" (Some 1)) (flit 4) w1 = Ok w2 ∧
            rejected (w_stats w2) = rejected (w_stats w1).
Proof.
  apply (answer_settles_frame LoadDemo.w2 1 (flit 1) 1 1 "out_of_window" "too old" (flit 3) (flit 4));
    try reflexivity; by vm_compute.
Defined.

Lemma throttled_reports_uncounted_witness :
  let m := mkMoment 5 0 0 (mkMonitor 100 50 500 true 200) Executed in
  ∃ st' outs, on_frame (λ _, inl []) (λ _ _, inl []) (λ _ _, inl []) (λ _ _, "") 4 10 30 60
      true "{}" m (mkSession [] 0) ∅ = (st', ∅, Ok (outs, true)) ∧
    (outs = [] ∨ outs = [SendText (throttle_frame 1000)]) ∧
    ∀ now (w : Worker rng), ∃ w', handle (throttle_frame 1000) now w = Ok w' ∧
      pending w' = pending w ∧ sent (w_stats w') = sent (w_stats w) ∧ accepted (w_stats w') = accepted (w_stats w) ∧
      rejected (w_stats w') = rejected (w_stats w) ∧ dropped (w_stats w') = dropped (w_stats w).
Proof.
  apply (throttled_reports_uncounted (λ _, inl []) (λ _ _, inl []) (λ _ _, inl []) (λ _ _, "") 4 10 30 60
           "{}" (mkMoment 5 0 0 (mkMonitor 100 50 500 true 200) Executed) (mkSession [] 0) ∅ 1000); by vm_compute.
Defined.

Lemma long_retry_after_loses_batch_witness :
  let header := parse_retry_after id (λ _, Some (10 ^ 400)) (λ _, None) in
  answered header 0 (flit 1) (Response 503 "" (Some "1...")) LoadDemo.r2 = Raise OverflowError ∧
  ∃ r', run_step header 4 (LoadDemo.r2, 0%nat) (r', 0 + 2)%nat ∧
    (held r' + 2 = held LoadDemo.r2)%nat ∧ produced (h_stats r') = 3 ∧ sent (h_stats r') = 0 ∧ dropped (h_stats r') = 0.
Proof.
  apply (long_retry_after_loses_batch id (λ _, Some (10 ^ 400)) (λ _, None) 4 0 (flit 1)
           [LoadDemo.rep; LoadDemo.rep] 2 RECONNECT_BASE_S (flit 0) 503 "" "1..." (10 ^ 400) LoadDemo.r2 0);
    [reflexivity|by right|done|reflexivity|by vm_compute].
Defined.
