(* ===== verification/GenConfig.v ===== *)
(** * How a load run is configured (parse_config, ensure_file_limit and the set-up of run
    in src/generator.py)

    The options as argparse hands them over, the environment, and the checks that turn
    them into a [Config]; the slices of the fleet that [run] gives to its workers. *)
From S2P Require Import Prelude Floats Geo Text Motion Fleet.
From S2P Require Load.

(** [parser.error(message)] ends the program; other exceptions end it with a traceback. *)
Inductive Stop :=
  | UsageError (message : string)
  | Uncaught (e : exn).
Definition bind_or {A B} (m : Stop + A) (k : A → Stop + B) : Stop + B :=
  match m with inl e => inl e | inr a => k a end.
Declare Scope config_scope.
Notation "'let?' x ':=' m 'in' k" := (bind_or m (fun x => k))
  (at level 10, x pattern, m at level 100, k at level 200) : config_scope.
Notation "'refuse' b 'with' m ';' k" := (if (b : bool) then inl (UsageError m) else k)
  (at level 10, b at level 100, m at level 100, k at level 200) : config_scope.
#[local] Open Scope config_scope.

Inductive Transport := Ws | Http.

Definition DEFAULT_URL : string := "http://localhost:8080".
Definition DEFAULT_DEVICES : Z := 10000.
Definition DEFAULT_INTERVAL_S : float64 := flit 3.
Definition DEFAULT_CENTER : string := "50.4501,30.5234".
Definition DEFAULT_RADIUS_KM : float64 := flit 25.
Definition DEFAULT_RAMP_UP_S : float64 := flit 30.
Definition DEFAULT_STATS_INTERVAL_S : float64 := flit 5.
Definition DEFAULT_MAX_CONNECTIONS : Z := 10000.
Definition DEFAULT_HTTP_CONNECTIONS : Z := 32.
Definition DEFAULT_BATCH_SIZE : Z := 100.
Definition DEFAULT_BATCH_WINDOW_MS : Z := 100.
Definition DEFAULT_SEED : Z := 1.
Definition DEFAULT_PREFIX : string := "dev-".
Definition DEFAULT_MAX_BATCH : Z := 1000.
Definition FD_HEADROOM : Z := 256.

(** [args]: every option defaults to [None]; argparse has converted the values. *)
Record Args := mkArgs {
  a_url : option string; a_transport : option Transport; a_devices : option Z;
  a_interval : option float64; a_connections : option Z; a_max_connections : option Z;
  a_batch_size : option Z; a_batch_window_ms : option Z; a_max_batch : option Z;
  a_center : option (float64 * float64); a_radius_km : option float64; a_duration : option float64;
  a_ramp_up : option float64; a_seed : option Z; a_ingest_key : option string;
  a_device_prefix : option string; a_stats_interval : option float64;
  a_json_summary : option string; a_verbose : option bool }.
Definition no_args : Args :=
  mkArgs None None None None None None None None None None None None None None None None None None None.

Record Config := mkConfig {
  url : string; transport : Transport; devices : Z; interval : float64; connections : Z;
  batch_size : Z; batch_window_s : float64; max_batch : Z; area : Area; duration : float64;
  ramp_up : float64; seed : Z; ingest_key : string; device_prefix : string;
  stats_interval : float64; json_summary : option string; verbose : bool }.

Definition ENV_ALIASES : list (string * list string) :=
  [("GEOTRACK_URL", ["GENERATOR_BASE_URL"; "GENERATOR_URL"]);
   ("TRANSPORT", ["GENERATOR_TRANSPORT"]);
   ("DEVICES", ["GENERATOR_DEVICES"]);
   ("INTERVAL", ["GENERATOR_INTERVAL_S"; "GENERATOR_INTERVAL"]);
   ("CONNECTIONS", ["GENERATOR_CONCURRENCY"; "GENERATOR_CONNECTIONS"]);
   ("MAX_CONNECTIONS", ["GENERATOR_MAX_CONNECTIONS"]);
   ("BATCH_SIZE", ["GENERATOR_BATCH_SIZE"]);
   ("BATCH_WINDOW_MS", ["GENERATOR_BATCH_WINDOW_MS"]);
   ("MAX_BATCH", ["GENERATOR_MAX_BATCH"; "INGEST_MAX_BATCH"]);
   ("CENTER", ["GENERATOR_CENTER"]);
   ("RADIUS_KM", ["GENERATOR_RADIUS_KM"]);
   ("DURATION", ["GENERATOR_DURATION_S"; "GENERATOR_DURATION"]);
   ("RAMP_UP", ["GENERATOR_RAMP_UP_S"; "GENERATOR_RAMP_UP"]);
   ("SEED", ["GENERATOR_SEED"]);
   ("DEVICE_PREFIX", ["GENERATOR_DEVICE_PREFIX"]);
   ("STATS_INTERVAL", ["GENERATOR_STATS_INTERVAL"]);
   ("JSON_SUMMARY", ["GENERATOR_JSON_SUMMARY"]);
   ("VERBOSE", ["GENERATOR_VERBOSE"])].
Definition aliases (key : string) : list string :=
  match filter (λ p : string * list string, p.1 = key) ENV_ALIASES with (_, l) :: _ => l | [] => [] end.

Notation Env := (gmap string string).

(** The first of the names that is set to something but white space. *)
Fixpoint first_set (env : Env) (names : list string) : string :=
  match names with
  | [] => ""
  | name :: rest =>
      let value := strip py_space (default "" (env !! name)) in
      if decide (value = "") then first_set env rest else value
  end.
Definition env_raw (env : Env) (key : string) : string := first_set env (key :: aliases key).
(** [a or b] of texts. *)
Definition or_else (a b : string) : string := if decide (a = "") then b else a.
Definition env_str (env : Env) (key fallback : string) : string := or_else (env_raw env key) fallback.
(** [flag or text]: an empty flag counts as absent. *)
Definition flag_or (flag : option string) (text : string) : string := or_else (default "" flag) text.

Definition rstrip_slash (s : string) : string :=
  of_chars (rev (drop_leading (λ c, bool_decide (c = "/"%char)) (rev (chars s)))).

Section parsing.
(** [int(text)], [float(text)] and [repr(text)]. *)
Variable int_of_str : string → option Z.
Variable float_of_str : string → option float64.
Variable repr : string → string.

Definition parse_center (raw : string) : res (float64 * float64) :=
  match split_on ","%char raw with
  | [a; b] =>
      match float_of_str a, float_of_str b with
      | Some lat, Some lon =>
          if fleb (flit (-90)) lat && fleb lat (flit 90) && (fleb (flit (-180)) lon && fleb lon (flit 180))
          then Ok (lat, lon)
          else Raise (ValueError ("center is outside [-90,90],[-180,180]: " +:+ repr raw))
      | _, _ => Raise (ValueError ("center must be LAT,LON with numbers: " +:+ repr raw))
      end
  | _ => Raise (ValueError ("center must be LAT,LON: " +:+ repr raw))
  end.

Definition number {T} (cast : string → option T) (flag : option T) (env : Env) (key : string) (fallback : T)
  : Stop + T :=
  match flag with
  | Some v => inr v
  | None =>
      let raw := env_raw env key in
      if decide (raw = "") then inr fallback
      else match cast raw with
           | Some v => inr v
           | None => inl (UsageError (key +:+ "=" +:+ repr raw +:+ " is not a number"))
           end
  end.

Definition transport_of (text : string) : option Transport :=
  if decide (text = "ws") then Some Ws else if decide (text = "http") then Some Http else None.

Definition truthy (text : string) : bool := bool_decide (lower text ∈ ["1"; "true"; "yes"; "on"]).

(** [ms / 1000.0] of an integer. *)
Definition seconds_of_ms (ms : Z) : Stop + float64 :=
  match (let! x := float_of_int ms in fdiv x (flit 1000)) with
  | Ok s => inr s
  | Raise e => inl (Uncaught e)
  end.

Definition parse_config (args : Args) (env : Env) : Stop + Config :=
  let url := rstrip_slash (flag_or (a_url args) (env_str env "GEOTRACK_URL" DEFAULT_URL)) in
  refuse negb (startswith "http://" url || startswith "https://" url)
    with ("--url must start with http:// or https://, got " +:+ repr url);
  let? transport := match a_transport args with
    | Some t => inr t
    | None =>
        let text := env_str env "TRANSPORT" "ws" in
        match transport_of text with
        | Some t => inr t
        | None => inl (UsageError ("--transport must be ws or http, got " +:+ repr text))
        end
    end in
  let? devices := number int_of_str (a_devices args) env "DEVICES" DEFAULT_DEVICES in
  let? interval := number float_of_str (a_interval args) env "INTERVAL" DEFAULT_INTERVAL_S in
  let? max_connections := number int_of_str (a_max_connections args) env "MAX_CONNECTIONS" DEFAULT_MAX_CONNECTIONS in
  let? batch_size := number int_of_str (a_batch_size args) env "BATCH_SIZE" DEFAULT_BATCH_SIZE in
  let? batch_window_ms := number int_of_str (a_batch_window_ms args) env "BATCH_WINDOW_MS" DEFAULT_BATCH_WINDOW_MS in
  let? max_batch := number int_of_str (a_max_batch args) env "MAX_BATCH" DEFAULT_MAX_BATCH in
  let? radius_km := number float_of_str (a_radius_km args) env "RADIUS_KM" DEFAULT_RADIUS_KM in
  let? duration := number float_of_str (a_duration args) env "DURATION" (flit 0) in
  let? ramp_up := number float_of_str (a_ramp_up args) env "RAMP_UP" DEFAULT_RAMP_UP_S in
  let? seed := number int_of_str (a_seed args) env "SEED" DEFAULT_SEED in
  let? stats_interval := number float_of_str (a_stats_interval args) env "STATS_INTERVAL" DEFAULT_STATS_INTERVAL_S in
  let? requested := number int_of_str (a_connections args) env "CONNECTIONS" 0 in
  let? center := match a_center args with
    | Some c => inr c
    | None => match parse_center (env_str env "CENTER" DEFAULT_CENTER) with
              | Ok c => inr c
              | Raise e => inl (Uncaught e)
              end
    end in
  let prefix := flag_or (a_device_prefix args) (env_str env "DEVICE_PREFIX" DEFAULT_PREFIX) in
  let ingest_key := flag_or (a_ingest_key args) (env_str env "INGEST_API_KEY" "") in
  let summary := env_str env "JSON_SUMMARY" "" in
  let summary_path := match a_json_summary args with
                      | Some p => Some p
                      | None => if decide (summary = "") then None else Some summary
                      end in
  let verbose := match a_verbose args with
                 | Some b => b
                 | None => truthy (env_str env "VERBOSE" "")
                 end in
  refuse devices <? 1 with "--devices must be at least 1";
  refuse fleb interval (flit 0) with "--interval must be positive";
  refuse max_batch <? 1 with "--max-batch must be at least 1";
  refuse batch_size <? 1 with "--batch-size must be at least 1";
  refuse (max_batch <? batch_size) &&
         (bool_decide (is_Some (a_batch_size args)) || negb (bool_decide (env_raw env "BATCH_SIZE" = "")))
    with ("--batch-size must not exceed --max-batch (" +:+ pretty max_batch +:+ ")");
  let batch_size := if max_batch <? batch_size then max_batch else batch_size in
  refuse batch_window_ms <? 0 with "--batch-window-ms must not be negative";
  refuse fleb radius_km (flit 0) with "--radius-km must be positive";
  refuse fltb duration (flit 0) || fltb ramp_up (flit 0) with "--duration and --ramp-up must not be negative";
  refuse fleb stats_interval (flit 0) with "--stats-interval must be positive";
  refuse max_connections <? 1 with "--max-connections must be at least 1";
  refuse requested <? 0 with "--connections must not be negative";
  refuse bool_decide (ingest_key = "") with "--ingest-key (or INGEST_API_KEY) is required";
  let requested := if requested =? 0
                   then match transport with Ws => devices | Http => DEFAULT_HTTP_CONNECTIONS end
                   else requested in
  let connections := Z.max (Z.min (Z.min requested devices) max_connections) 1 in
  let? window := seconds_of_ms batch_window_ms in
  inr (mkConfig url transport devices interval connections batch_size window max_batch
         (mkArea center.1 center.2 (fmul radius_km (flit 1000))) duration ramp_up seed ingest_key prefix
         stats_interval summary_path verbose).
End parsing.

(** [http_url] and [ws_url]. *)
Definition http_url (c : Config) : string := url c +:+ "/api/v1/ingest/locations".
Fixpoint partition (sep s : string) : string * string :=
  match drop_prefix sep s, s with
  | Some rest, _ => ("", rest)
  | None, "" => ("", "")
  | None, String c s' => let '(scheme, rest) := partition sep s' in (String c scheme, rest)
  end.
Definition ws_url (c : Config) : string :=
  let '(scheme, rest) := partition "://" (url c) in
  (if decide (scheme = "https") then "wss" else "ws") +:+ "://" +:+ rest +:+ "/ws/ingest".

(** ** The descriptor limit: [None] is RLIM_INFINITY *)

(** [allowed] tells whether [setrlimit] raises, and then the reason it gives. *)
Definition ensure_file_limit (connections soft : Z) (hard : option Z) (refused : option string) : res Z :=
  let required := connections + FD_HEADROOM in
  if required <=? soft then Ok soft
  else
    let target := match hard with None => required | Some h => Z.min required h end in
    match refused with
    | Some why => Raise (RuntimeError ("the file descriptor limit is " +:+ pretty soft +:+ ", this run needs "
        +:+ pretty required +:+ " and raising it failed (" +:+ why +:+ "). Try `ulimit -n " +:+ pretty required
        +:+ "`, fewer --connections, or run the generator in its container."))
    | None =>
        if target <? required
        then Raise (RuntimeError ("the file descriptor limit is " +:+ pretty target +:+ ", this run needs "
               +:+ pretty required +:+ ". Lower --connections or raise the hard limit."))
        else Ok target
    end.

(** ** The workers of a run *)

(** [fleet[skip::step]]. *)
Fixpoint every {A} (skip step : nat) (fleet : list A) : list A :=
  match fleet with
  | [] => []
  | x :: rest => match skip with
                 | O => x :: every (pred step) step rest
                 | S skip => every skip step rest
                 end
  end.
(** The states of the workers [run] creates. *)
Definition workers {A} (c : Config) (fleet : list A) : list (list A) :=
  match transport c with
  | Ws => (λ index, every index (Z.to_nat (connections c)) fleet) <$> seq 0 (Z.to_nat (connections c))
  | Http => [fleet]
  end.

(** ** Inversion of the checks *)

Lemma bind_or_inr {A B} (m : Stop + A) (k : A → Stop + B) b :
  bind_or m k = inr b → ∃ a, m = inr a ∧ k a = inr b.
Proof. destruct m as [|a]; [done|]. cbn. eauto. Qed.

Lemma refuse_inr {A} (test : bool) e (k : Stop + A) b : (if test then inl e else k) = inr b → test = false ∧ k = inr b.
Proof. by destruct test. Qed.

Ltac pass H :=
  match type of H with
  | bind_or _ _ = inr _ => let a := fresh "v" in let E := fresh "E" in apply bind_or_inr in H as (a & E & H)
  | (if _ then inl _ else _) = inr _ => let E := fresh "R" in apply refuse_inr in H as [E H]
  end.

Lemma parse_center_range float_of_str repr raw lat lon :
  parse_center float_of_str repr raw = Ok (lat, lon) →
  fleb (flit (-90)) lat = true ∧ fleb lat (flit 90) = true ∧ fleb (flit (-180)) lon = true ∧ fleb lon (flit 180) = true.
Proof.
  unfold parse_center. destruct (split_on _ _) as [|a [|b [|]]]; try done.
  destruct (float_of_str a), (float_of_str b); try done. case_match eqn:E; [|done].
  intros [= <- <-]. rewrite !andb_true_iff in E. tauto.
Qed.

(** What every accepted configuration satisfies. *)
Lemma config_bounds int_of_str float_of_str repr args env c :
  parse_config int_of_str float_of_str repr args env = inr c →
  1 ≤ devices c ∧ 1 ≤ connections c ≤ devices c ∧ 1 ≤ batch_size c ≤ max_batch c ∧ ingest_key c ≠ "" ∧
  fleb (interval c) (flit 0) = false ∧ (∀ asked, a_batch_size args = Some asked → batch_size c = asked).
Proof.
  unfold parse_config. intros H. repeat pass H.
  match type of H with inr ?c0 = _ => injection H as <- end. cbn.
  assert (Hb : 1 ≤ (if v5 <? v3 then v5 else v3) ≤ v5) by (destruct (Z.ltb_spec v5 v3); lia).
  split_and!; try lia; try done.
  - match goal with E : bool_decide (flag_or _ _ = "") = false |- _ => by apply bool_decide_eq_false in E end.
  - intros asked Ha. rewrite Ha in *. cbn in *. destruct (Z.ltb_spec v5 v3); [|congruence].
    match goal with E : (_ && _)%bool = false |- _ => cbn in E; discriminate E end.
Qed.

(** ** The slices of the fleet *)

Section slices.
Context {A : Type}.

Lemma every_permutation (n : nat) (l : list A) :
  (0 < n)%nat → concat ((λ i, every i n l) <$> seq 0 n) ≡ₚ l.
Proof.
  intros Hn. induction l as [|x l IH].
  - clear. induction (seq 0 n); [done|]. done.
  - destruct n as [|n]; [lia|]. cbn [seq fmap list_fmap concat every pred].
    rewrite <- fmap_S_seq, <- list_fmap_compose.
    change ((λ i, every i (S n) (x :: l)) ∘ S) with (λ i, every i (S n) l).
    cbn [app]. f_equiv. etrans; [|exact IH].
    replace (seq 0 (S n)) with (seq 0 n ++ [n]) by (rewrite seq_S; done).
    rewrite fmap_app, concat_app. cbn. rewrite app_nil_r. apply Permutation_app_comm.
Qed.

Lemma every_nonempty i n (l : list A) : (i < length l)%nat → every i n l ≠ [].
Proof.
  revert i. induction l as [|x l IH]; intros i Hi; cbn in *; [lia|]. destruct i; [done|]. apply IH. lia.
Qed.
End slices.

(** ** Properties *)

(** a run is configured consistently. Whatever the flags and the environment are, a
    configuration that is accepted has devices, connections between one and the number of
    devices, and a request size between one and the server's limit; so no request of the
    HTTP transport and no frame of the websocket transport carries more reports than
    [max_batch], and a request size somebody asked for is refused rather than reduced. *)
Lemma config_consistent int_of_str float_of_str repr args env c :
  parse_config int_of_str float_of_str repr args env = inr c →
  1 ≤ devices c ∧ 1 ≤ connections c ≤ devices c ∧ 1 ≤ batch_size c ≤ max_batch c ∧ ingest_key c ≠ "" ∧
  fleb (interval c) (flit 0) = false ∧
  (∀ asked, a_batch_size args = Some asked → batch_size c = asked) ∧
  (∀ now fuel b, size b = Z.to_nat (batch_size c) → (length (reports b) ≤ fuel)%nat →
     Forall (λ l, Z.of_nat (length l) ≤ max_batch c) (drain_ready fuel now b).1) ∧
  ∀ (l : list Report), Forall (λ frame, Z.of_nat (length frame) ≤ max_batch c) (chunked l (Z.to_nat (max_batch c))).
Proof.
  intros H. destruct (config_bounds _ _ _ _ _ _ H) as (H1 & H2 & H3 & H4 & H5 & H6).
  split_and!; try done; try lia.
  - intros now fuel b Hs Hf. pose proof (batches_drain now b fuel ltac:(lia) Hf) as Hd.
    destruct (drain_ready fuel now b) as [batches b']. destruct Hd as (_ & _ & Hd & _). cbn.
    eapply Forall_impl; [exact Hd|]. intros l Hl. cbn in Hl. lia.
  - intros l. eapply Forall_impl; [apply Load.chunked_sizes|]. intros x Hx. cbn in Hx. lia.
Qed.

(** every device has one worker. The slices [run] hands out are a partition of the
    fleet: with one socket per connection no worker is without a device and none drives a
    device of another. *)
Lemma workers_partition {A} int_of_str float_of_str repr args env c (fleet : list A) :
  parse_config int_of_str float_of_str repr args env = inr c → Z.of_nat (length fleet) = devices c →
  concat (workers c fleet) ≡ₚ fleet ∧ Forall (λ states, states ≠ []) (workers c fleet) ∧
  (transport c = Ws → Z.of_nat (length (workers c fleet)) = connections c).
Proof.
  intros H Hlen. destruct (config_bounds _ _ _ _ _ _ H) as (H1 & H2 & _).
  unfold workers. destruct (transport c).
  - split_and!.
    + apply every_permutation. lia.
    + apply Forall_fmap, Forall_forall. intros i Hi%elem_of_seq. cbn. apply every_nonempty. lia.
    + intros _. rewrite length_fmap, length_seq. lia.
  - split_and!; [cbn; by rewrite app_nil_r| |done]. constructor; [|done]. intros ->. cbn in Hlen. lia.
Qed.

(** ** An interval that is not a number passes the checks *)

Definition never_due (e : float64 * nat) : Prop := e.1 = NaN.

Lemma push_never_due e h : never_due e → Forall never_due h → Forall never_due (push_entry e h).
Proof.
  intros He. induction 1 as [|x h Hx Hh IH]; [by constructor|]. cbn. case_decide; repeat constructor; auto.
Qed.

Lemma fadd_nan x : fadd x NaN = NaN.
Proof. by destruct x. Qed.
Lemma fmul_nan x : fmul x NaN = NaN.
Proof. by destruct x. Qed.

Section not_a_number.
Context `{Libm} `{Random}.

Lemma arm_all_never_due now spread count l (d d' : Devices rng) :
  Fleet.interval d = NaN → Forall never_due (schedule d) → arm_all now spread count l d = Ok d' →
  Forall never_due (schedule d').
Proof.
  revert d. induction l as [|i l IH]; intros d Hi Hd; cbn; [by intros [= <-]|]. unfold arm.
  destruct (float_of_int (Z.of_nat i)); cbn; [|done]. destruct (float_of_int (Z.of_nat count)); cbn; [|done].
  destruct (fdiv _ _); cbn; [|done]. destruct (random (stream d)) as [x r]. cbn. apply IH; [done|].
  cbn. apply push_never_due; [|done]. unfold never_due. cbn. by rewrite Hi, fmul_nan, fadd_nan.
Qed.

(** [--interval nan] is accepted, since a comparison with it is false, and then every
    deadline is not a number: no device is ever due and the run offers no load, without
    an error. *)
Lemma nan_interval_offers_nothing int_of_str float_of_str repr args env c :
  a_interval args = Some NaN → parse_config int_of_str float_of_str repr args env = inr c →
  interval c = NaN ∧
  ∀ now spread (d d' : Devices rng), Fleet.interval d = interval c → start now spread d = Ok d' →
    ∀ t, pop_due t (schedule d') = ([], schedule d').
Proof.
  intros Ha Hc. assert (Hn : interval c = NaN).
  { unfold parse_config in Hc. repeat pass Hc. rewrite Ha in *. injection Hc as <-. cbn in *. congruence. }
  split; [done|]. intros now spread d d' Hi Hs t. rewrite Hn in Hi.
  pose proof (arm_all_never_due _ _ _ _ (with_schedule [] (stream d) d) _ Hi ltac:(constructor) Hs) as Hall.
  destruct (schedule d') as [|[due i] h]; [done|]. apply Forall_cons in Hall as [Hdue _]. unfold never_due in Hdue.
  cbn in *. by subst due.
Qed.
End not_a_number.

(** ** A websocket run of five devices over two sockets *)
Module ConfigSamples.
Definition args : Args :=
  mkArgs (Some "http://localhost:8080/") None (Some 5) None (Some 2) None None None (Some 60) (Some (flit 50, flit 30))
    None None None None (Some "sixteen-chars-ok") None None None None.
Definition no_number {A} (s : string) : option A := None.
Definition config : Config :=
  Eval vm_compute in
    match parse_config no_number no_number id args ∅ with
    | inr c => c
    | inl _ => mkConfig "" Ws 0 NaN 0 0 NaN 0 (mkArea NaN NaN NaN) NaN NaN 0 "" "" NaN None false
    end.
Lemma accepted : parse_config no_number no_number id args ∅ = inr config.
Proof. vm_compute. reflexivity. Qed.
End ConfigSamples.

Lemma config_consistent_witness :
  batch_size ConfigSamples.config = 60 ∧ ws_url ConfigSamples.config = "ws://localhost:8080/ws/ingest" ∧
  1 ≤ batch_size ConfigSamples.config ≤ max_batch ConfigSamples.config.
Proof.
  split; [reflexivity|]. split; [reflexivity|].
  apply (config_consistent ConfigSamples.no_number ConfigSamples.no_number id ConfigSamples.args ∅
           ConfigSamples.config ConfigSamples.accepted).
Defined.

Lemma workers_partition_witness :
  workers ConfigSamples.config [0; 1; 2; 3; 4] = [[0; 2; 4]; [1; 3]] ∧
  concat (workers ConfigSamples.config [0; 1; 2; 3; 4]) ≡ₚ [0; 1; 2; 3; 4].
Proof.
  split; [reflexivity|].
  apply (workers_partition ConfigSamples.no_number ConfigSamples.no_number id ConfigSamples.args ∅
           ConfigSamples.config [0; 1; 2; 3; 4] ConfigSamples.accepted eq_refl).
Defined.
