(* ===== verification/Report.v ===== *)
(** * What a load run prints, and how its tasks are kept alive
    (format_stats, format_summary, [Console], [supervise] and the sessions' back-off of
    src/generator.py)

    Numbers are formatted as Python formats them: the exact binary value, rounded half to
    even at the last digit shown. *)
From stdpp Require Import sorting.
From S2P Require Import Prelude Floats Sizes Text Json JsonRef Motion Fleet.
From S2P Require Import Load.
From S2P Require GenConfig.

(** ** Numbers with a fixed number of digits *)

(** The last [d] decimal digits of [r]. *)
Fixpoint padded (d : nat) (r : N) : string :=
  match d with
  | O => ""
  | S d' => padded d' (r / 10) +:+ String (pretty_N_char (r mod 10)) ""
  end.

(** [f"{x:.df}"]; a negative zero, which [Floats] does not have, would print a sign. *)
Definition scaled (d : nat) (a : Z) : N := Z.to_N (round_half_even (Z.abs a * 10 ^ Z.of_nat d) u).
Definition fixed (d : nat) (x : float64) : string :=
  match x with
  | Fin a =>
      let n := scaled d a in let m := (10 ^ N.of_nat d)%N in
      (if a <? 0 then "-" else "") +:+ pretty (n / m)%N
      +:+ (match d with O => "" | S _ => "." +:+ padded d (n mod m) end)
  | Inf s => if s then "-inf" else "inf"
  | NaN => "nan"
  end.

(** [round(x, 1)]: the number nearest to the decimal with one digit. *)
Definition round1 (x : float64) : float64 :=
  match x with
  | Fin a => Fin ((if a <? 0 then -1 else 1) * rnd (Z.of_N (scaled 1 a) * u) 10)
  | _ => x
  end.

Fixpoint spaces (n : nat) : string := match n with O => "" | S n' => String " " (spaces n') end.
(** [f"{s:<n}"] and [f"{s:>n}"]. *)
Definition left_aligned (n : nat) (s : string) : string := s +:+ spaces (n - String.length s).
Definition right_aligned (n : nat) (s : string) : string := spaces (n - String.length s) +:+ s.
Definition int_cell (n : nat) (z : Z) : string := left_aligned n (pretty z).

(** ** The statistics line and the summary *)

Record Snapshot {R : Type} := mkSnapshot {
  elapsed_s : float64; counters : Stats R; rates : Rates;
  p50 : option float64; p95 : option float64; p99 : option float64; samples : Z }.
Arguments Snapshot : clear implicits.
Arguments mkSnapshot {R}.

(** [Stats.snapshot] in full: the dictionary, and the statistics with their new window. *)
Definition take_snapshot {R} (now : float64) (s : Stats R) : res (Snapshot R * Stats R) :=
  let! (r, s') := snapshot now s in
  let vs := values (latency s) in
  let! a := percentile vs (fdec 5 10) in
  let! b := percentile vs (fdec 95 100) in
  let! c := percentile vs (fdec 99 100) in
  Ok (mkSnapshot (round1 (fsub now (started_at s))) s r a b c (Z.of_nat (count (latency s))), s').

Definition format_ms (value : option float64) : string :=
  match value with None => "-" | Some v => fixed 1 v end.

Definition live_gauge {R} (snap : Snapshot R) (config : GenConfig.Config) : string :=
  let c := GenConfig.connections config in
  match GenConfig.transport config with
  | GenConfig.Ws => "conn " +:+ pretty (in_flight (counters snap)) +:+ "/" +:+ pretty c
  | GenConfig.Http =>
      "busy " +:+ pretty (in_flight (counters snap)) +:+ "/" +:+ pretty c +:+ " q "
      +:+ pretty (queued (counters snap)) +:+ "/" +:+ pretty (c * Z.of_nat QUEUE_DEPTH_FACTOR)
  end.

Definition format_stats {R} (snap : Snapshot R) (config : GenConfig.Config) : string :=
  let s := counters snap in
  "[" +:+ right_aligned 7 (fixed 1 (elapsed_s snap)) +:+ "s] "
  +:+ left_aligned 22 (live_gauge snap config) +:+ " "
  +:+ "sent " +:+ int_cell 9 (sent s) +:+ " "
  +:+ "(" +:+ fixed 0 (window_per_s (rates snap)) +:+ "/s now, " +:+ fixed 0 (sent_per_s (rates snap)) +:+ "/s avg)  "
  +:+ "ok " +:+ int_cell 9 (accepted s) +:+ " "
  +:+ "made " +:+ int_cell 9 (produced s) +:+ " "
  +:+ "rej " +:+ int_cell 7 (rejected s) +:+ " "
  +:+ "drop " +:+ int_cell 7 (dropped s) +:+ " "
  +:+ "fail " +:+ int_cell 5 (failures s) +:+ " "
  +:+ "reconn " +:+ int_cell 5 (reconnects s) +:+ " "
  +:+ "thr " +:+ int_cell 5 (throttles s) +:+ " "
  +:+ "ack p50 " +:+ format_ms (p50 snap) +:+ " "
  +:+ "p95 " +:+ format_ms (p95 snap) +:+ " "
  +:+ "p99 " +:+ format_ms (p99 snap) +:+ " ms".

Definition newline : string := String "010" "".
Definition transport_name (t : GenConfig.Transport) : string :=
  match t with GenConfig.Ws => "ws" | GenConfig.Http => "http" end.

Definition summary_rows {R} (snap : Snapshot R) (config : GenConfig.Config) : list (string * string) :=
  let s := counters snap in
  let pool := match GenConfig.transport config with
              | GenConfig.Ws => "sockets" | GenConfig.Http => "pooled connections" end in
  [("transport", transport_name (GenConfig.transport config));
   ("devices", pretty (GenConfig.devices config));
   ("connections", pretty (GenConfig.connections config) +:+ " " +:+ pool);
   ("elapsed", fixed 1 (elapsed_s snap) +:+ " s");
   ("produced", pretty (produced s) +:+ " reports (" +:+ fixed 0 (produced_per_s (rates snap)) +:+ "/s offered)");
   ("sent", pretty (sent s) +:+ " reports (" +:+ fixed 0 (sent_per_s (rates snap)) +:+ "/s on the wire)");
   ("accepted", pretty (accepted s) +:+ " reports");
   ("rejected", pretty (rejected s) +:+ " reports");
   ("dropped", pretty (dropped s) +:+ " reports");
   ("failures", pretty (failures s) +:+ " transport failures");
   ("reconnects", pretty (reconnects s));
   ("throttles", pretty (throttles s));
   ("ack latency",
    "p50 " +:+ format_ms (p50 snap) +:+ " ms  p95 " +:+ format_ms (p95 snap) +:+ " ms  "
    +:+ "p99 " +:+ format_ms (p99 snap) +:+ " ms  (" +:+ pretty (samples snap) +:+ " accepted responses)")].

Definition format_summary {R} (snap : Snapshot R) (config : GenConfig.Config) : string :=
  let body := join newline ((λ r, "  " +:+ left_aligned 12 r.1 +:+ " " +:+ r.2) <$> summary_rows snap config) in
  newline +:+ "--- load summary ---" +:+ newline +:+ body +:+ newline
  +:+ "  every produced report is either sent or dropped".

(** ** The console *)

Definition ERROR_INTERVAL_S : float64 := flit 10.
Definition VERBOSE_ERROR_INTERVAL_S : float64 := fdec 5 10.

Record Console := mkConsole { c_interval : float64; next_error_at : float64 }.
Definition new_console (verbose : bool) : Console :=
  mkConsole (if verbose then VERBOSE_ERROR_INTERVAL_S else ERROR_INTERVAL_S) (flit 0).

(** [error] at [now]: the console, and whether the line is written. *)
Definition error (now : float64) (c : Console) : Console * bool :=
  if fltb now (next_error_at c) then (c, false)
  else (mkConsole (c_interval c) (fadd now (c_interval c)), true).

(** The moments at which the errors of a run are written. *)
Fixpoint written (moments : list float64) (c : Console) : list float64 :=
  match moments with
  | [] => []
  | now :: rest => let '(c', shown) := error now c in
                   if shown then now :: written rest c' else written rest c'
  end.

(** ** Tasks that are restarted *)

(** How one run of a task ends, short of its cancellation. *)
Inductive Run := Returned | Crashed.
#[export] Instance Run_eq_dec : EqDecision Run.
Proof. solve_decision. Defined.

(** [supervise]: the pauses it makes, the failures it counts, and whether it returned. *)
Fixpoint supervise (delay : float64) (runs : list Run) : list float64 * Z * bool :=
  match runs with
  | [] => ([], 0, false)
  | Returned :: _ => ([], 0, true)
  | Crashed :: rest =>
      let '(pauses, n, ended) := supervise (next_backoff delay) rest in (delay :: pauses, n + 1, ended)
  end.

(** One [_session] of the websocket worker: whether the socket opened, and whether the
    session failed; the draw of [random()]. It returns the delay of the next one, and how
    long it sleeps first. *)
Definition session (opened failed : bool) (draw delay : float64) : float64 * option float64 :=
  let d := if opened then RECONNECT_BASE_S else delay in
  if failed then (next_backoff d, Some (fmul d (fadd (fdec 5 10) draw))) else (d, None).

Fixpoint sessions (history : list (bool * bool * float64)) (delay : float64) : list (option float64) :=
  match history with
  | [] => []
  | (opened, failed, draw) :: rest =>
      let '(d, pause) := session opened failed draw delay in pause :: sessions rest d
  end.

(** ** Lemmas: what is printed can be read back *)

Lemma padded_digits d r q rest :
  (r < 10 ^ N.of_nat d)%N → Ref.digits q (padded d r +:+ rest) = Ref.digits (q * 10 ^ N.of_nat d + r) rest.
Proof.
  revert r rest. induction d as [|d IH]; intros r rest Hr.
  { cbn [padded]. rewrite string_nil_app. f_equal. cbn in *. lia. }
  rewrite Nat2N.inj_succ, N.pow_succ_r' in *. cbn [padded].
  rewrite <- string_app_assoc, IH by (apply N.Div0.div_lt_upper_bound; lia).
  rewrite string_cons_app, string_nil_app. cbn [Ref.digits].
  rewrite Ref.digit_char by (apply N.mod_lt; lia). f_equal.
  pose proof (N.div_mod r 10 ltac:(lia)). lia.
Qed.

Lemma padded_length d r : String.length (padded d r) = d.
Proof. revert r. induction d as [|d IH]; intros r; [done|]. cbn. rewrite Ref.length_string_app, IH. cbn. lia. Qed.

(** A reader of decimals with [d] digits: the number, in units of the last digit. *)
Definition read_fixed (d : nat) (s : string) : option Z :=
  let negative := match s with String "-" _ => true | _ => false end in
  let s := match s with String "-" s' => s' | _ => s end in
  let '(q, rest) := Ref.digits 0 s in
  match d, rest with
  | O, "" => Some (if negative then - Z.of_N q else Z.of_N q)
  | S _, String "." frac =>
      let '(n, tail) := Ref.digits q frac in
      if decide (tail = "" ∧ String.length frac = d)
      then Some (if negative then - Z.of_N n else Z.of_N n) else None
  | _, _ => None
  end.

Lemma scaled_error d a : 2 * Z.abs (Z.of_N (scaled d a) * u - Z.abs a * 10 ^ Z.of_nat d) ≤ u.
Proof.
  unfold scaled. pose proof (round_half_even_error (Z.abs a * 10 ^ Z.of_nat d) u u_pos) as He.
  pose proof (round_half_even_mono 0 (Z.abs a * 10 ^ Z.of_nat d) u u_pos ltac:(nia)) as Hm.
  rewrite <- (Z.mul_0_l u), round_half_even_exact in Hm by apply u_pos.
  rewrite Z2N.id by lia. lia.
Qed.

Lemma fixed_digits d n rest :
  let m := (10 ^ N.of_nat d)%N in
  Ref.digits (n / m) (padded d (n mod m) +:+ rest) = Ref.digits n rest.
Proof.
  intros m. assert (Hm : m ≠ 0%N) by (apply N.pow_nonzero; lia).
  rewrite padded_digits by (by apply N.mod_lt). f_equal. fold m.
  pose proof (N.div_mod n m Hm). lia.
Qed.

Lemma read_unsigned d n negative (s : string) :
  let m := (10 ^ N.of_nat d)%N in
  s = pretty (n / m)%N +:+ (match d with O => "" | S _ => "." +:+ padded d (n mod m) end) →
  read_fixed d ((if negative : bool then "-" else "") +:+ s)
  = Some ((if negative then -1 else 1) * Z.of_N n).
Proof.
  intros m Hs.
  assert (Hstart : Ref.starts_digit s) by (rewrite Hs; apply Ref.pretty_N_text).
  assert (E : read_fixed d ((if negative then "-" else "") +:+ s) =
    let '(q, rest) := Ref.digits 0 s in
    match d, rest with
    | O, "" => Some (if negative then - Z.of_N q else Z.of_N q)
    | S _, String "." frac =>
        let '(n, tail) := Ref.digits q frac in
        if decide (tail = "" ∧ String.length frac = d)
        then Some (if negative then - Z.of_N n else Z.of_N n) else None
    | _, _ => None
    end).
  { destruct negative; [done|]. rewrite string_nil_app. unfold read_fixed.
    destruct Hstart as (c & r & x & -> & Hc).
    by destruct c as [[] [] [] [] [] [] [] []]. }
  rewrite E, Hs. destruct (Ref.pretty_N_text (n / m)%N (match d with O => "" | S _ => "." +:+ padded d (n mod m) end))
    as [_ ->].
  destruct d as [|d].
  - cbn. unfold m. cbn. rewrite N.div_1_r. destruct negative; f_equal; lia.
  - rewrite string_cons_app, string_nil_app. cbn [Ref.digits]. change (Ref.digit ".") with (@None N). cbn iota.
    rewrite <- (string_app_nil_r (padded (S d) (n mod m))) at 1. unfold m.
    rewrite fixed_digits. cbn [Ref.digits].
    rewrite decide_True by (split; [done|apply padded_length]). destruct negative; f_equal; lia.
Qed.

(** ** Lemmas: back-off *)

(** The pauses of a back-off: half a second, doubled, up to thirty seconds. *)
Definition backoff (k : nat) : float64 := Fin (Z.min (2 ^ Z.of_nat k) 60 * 2 ^ 1073).

Lemma base_backoff : RECONNECT_BASE_S = backoff 0.
Proof. vm_compute. reflexivity. Qed.

Lemma half_u : u = 2 * 2 ^ 1073.
Proof. unfold u. by rewrite <- Z.pow_succ_r by lia. Qed.

Lemma small_half k : 0 ≤ k < 2 ^ 53 → representable (k * 2 ^ 1073) ∧ k * 2 ^ 1073 < 2 ^ 2098.
Proof.
  intros Hk. split; [apply rnd_exact; lia|].
  replace (2 ^ 2098) with (2 ^ 1025 * 2 ^ 1073) by by rewrite <- Z.pow_add_r by lia.
  apply Z.mul_lt_mono_pos_r; [by apply Z.pow_pos_nonneg|]. etrans; [apply Hk|]. by apply Z.pow_lt_mono_r.
Qed.

Lemma next_backoff_step k : next_backoff (backoff k) = backoff (S k).
Proof.
  unfold next_backoff, backoff, flit, fmul. set (j := Z.min (2 ^ Z.of_nat k) 60).
  assert (Hj : 1 ≤ j ≤ 60) by (unfold j; pose proof (Z.pow_pos_nonneg 2 (Z.of_nat k)); lia).
  destruct (small_half (2 * j) ltac:(lia)) as [Hr Hl].
  replace (j * 2 ^ 1073 * (2 * u)) with (2 * j * 2 ^ 1073 * u) by ring.
  rewrite rnd_representable by (apply u_pos || done). rewrite of_rounded_Fin by lia.
  assert (Hs : Z.min (2 ^ Z.of_nat (S k)) 60 = Z.min (2 * j) 60).
  { rewrite Nat2Z.inj_succ, Z.pow_succ_r by lia. unfold j. lia. }
  rewrite Hs. unfold RECONNECT_MAX_S, flit, fmin, fltb, fcompare. rewrite half_u.
  assert (0 < 2 ^ 1073) by (by apply Z.pow_pos_nonneg). generalize dependent (2 ^ 1073). intros h **.
  destruct (Z.compare_spec (30 * (2 * h)) (2 * j * h)); f_equal; nia.
Qed.

(** The runs before the first that returned. *)
Fixpoint crashes (runs : list Run) : nat :=
  match runs with Crashed :: rest => S (crashes rest) | _ => 0%nat end.

Lemma supervise_from k runs :
  supervise (backoff k) runs = (backoff <$> seq k (crashes runs), Z.of_nat (crashes runs),
                                bool_decide (Returned ∈ runs)).
Proof.
  revert k. induction runs as [|[] runs IH]; intros k; [done| |].
  - cbn. by rewrite bool_decide_true by left.
  - cbn [supervise crashes]. rewrite next_backoff_step, IH. cbn. f_equal; [f_equal; lia|].
    apply bool_decide_ext. rewrite elem_of_cons. naive_solver.
Qed.

Lemma session_pause k x :
  0 ≤ x < u → ∃ p, fmul (backoff k) (fadd (fdec 5 10) (Fin x)) = Fin p ∧ 2 ^ 1072 ≤ p ≤ 45 * u.
Proof.
  intros Hx. change (fdec 5 10) with RECONNECT_BASE_S. rewrite base_backoff.
  unfold backoff at 2. change (Z.min (2 ^ Z.of_nat 0) 60) with 1. rewrite Z.mul_1_l.
  unfold fadd. pose proof half_u as Hu. pose proof (Z.pow_pos_nonneg 2 1073 ltac:(lia) ltac:(lia)) as Hh.
  destruct (small_half 1 ltac:(lia)) as [R1 _]. destruct (small_half 3 ltac:(lia)) as [R3 L3].
  assert (Hy : 2 ^ 1073 ≤ rnd (2 ^ 1073 + x) 1 ≤ 3 * 2 ^ 1073) by (apply rnd_between; rewrite ?Z.mul_1_l in R1; [lia|done..|lia]).
  set (y := rnd (2 ^ 1073 + x) 1) in *. rewrite of_rounded_Fin by lia.
  unfold backoff, fmul. set (j := Z.min (2 ^ Z.of_nat k) 60).
  assert (Hj : 1 ≤ j ≤ 60) by (unfold j; pose proof (Z.pow_pos_nonneg 2 (Z.of_nat k)); lia).
  destruct (small_half 90 ltac:(lia)) as [R90 L90].
  assert (Hq : 2 ^ 1073 = 2 * 2 ^ 1072) by by rewrite <- Z.pow_succ_r by lia.
  assert (Hp : 2 ^ 1072 ≤ rnd (j * 2 ^ 1073 * y) u ≤ 90 * 2 ^ 1073).
  { apply rnd_between; [apply u_pos|apply representable_pow; lia|done|]. rewrite Hu. nia. }
  exists (rnd (j * 2 ^ 1073 * y) u). rewrite of_rounded_Fin by lia. split; [done|]. lia.
Qed.

(** ** Properties *)

(** A printed number reads back as itself, to half a unit of its last digit. *)
Lemma fixed_reads_back d a :
  ∃ n, read_fixed d (fixed d (Fin a)) = Some n ∧ 2 * Z.abs (n * u - a * 10 ^ Z.of_nat d) ≤ u.
Proof.
  exists ((if a <? 0 then -1 else 1) * Z.of_N (scaled d a)). split.
  - unfold fixed. by apply read_unsigned.
  - pose proof (scaled_error d a). destruct (Z.ltb_spec a 0); lia.
Qed.

(** A failing service cannot flood the console: two lines written one after the other are
    at least the interval apart. *)
Lemma errors_are_rate_limited moments c :
  Sorted (λ x y, fltb y (fadd x (c_interval c)) = false) (written moments c).
Proof.
  assert (Hgen : Sorted (λ x y, fltb y (fadd x (c_interval c)) = false) (written moments c) ∧
    ∀ y, head (written moments c) = Some y → fltb y (next_error_at c) = false); [|by apply Hgen].
  revert c. induction moments as [|now moments IH]; intros c; [by split|].
  cbn [written]. unfold error. destruct (fltb now (next_error_at c)) eqn:E; [apply IH|].
  destruct (IH (mkConsole (c_interval c) (fadd now (c_interval c)))) as [Hs Hh]. split.
  - constructor; [done|]. cbn in Hh. destruct (written moments _) as [|y l]; constructor. by apply Hh.
  - by intros y [= <-].
Qed.

(** A supervised task runs until it returns: it is started again after every crash, each
    counted as one failure, with pauses of half a second, doubled each time up to thirty
    seconds. The pauses never start over, however long a run lasted. *)
Lemma supervise_backs_off runs :
  supervise RECONNECT_BASE_S runs
  = (backoff <$> seq 0 (crashes runs), Z.of_nat (crashes runs), bool_decide (Returned ∈ runs)).
Proof. rewrite base_backoff. apply supervise_from. Qed.

(** A websocket worker never sleeps less than a quarter of a second nor more than 45
    between two sessions, whatever fails and whatever is drawn. *)
Lemma session_pauses_bounded history :
  Forall (λ s, ∃ x, s.2 = Fin x ∧ 0 ≤ x < u) history →
  Forall (λ p, ∀ s, p = Some s → ∃ n, s = Fin n ∧ 2 ^ 1072 ≤ n ≤ 45 * u) (sessions history RECONNECT_BASE_S).
Proof.
  rewrite base_backoff. generalize 0%nat as k.
  induction history as [|[[opened failed] draw] rest IH]; intros k; [by constructor|].
  intros [(x & Hx & Hr) Hrest]%Forall_cons. cbn in Hx. subst draw. cbn [sessions]. unfold session.
  assert (Hd : ∃ j, (if opened then RECONNECT_BASE_S else backoff k) = backoff j)
    by (destruct opened; [exists 0%nat; apply base_backoff|by exists k]).
  destruct Hd as [j ->]. destruct failed.
  - rewrite next_backoff_step. constructor; [|by apply IH]. intros s Es. apply (inj Some) in Es. rewrite <- Es. exact (session_pause j x Hr).
  - constructor; [done|by apply IH].
Qed.

(** ** A run as it is printed *)
Module ReportSamples.
Definition latencies : Reservoir unit := mkReservoir 8 3 [flit 12; fdec 125 10; flit 250] tt.
Definition stats : Stats unit := mkStats (flit 100) 1200 1150 1100 50 50 2 1 3 4 7 latencies (flit 100) 0.
Definition config : GenConfig.Config :=
  GenConfig.mkConfig "http://localhost:8080" GenConfig.Http 600 (flit 3) 32 100 (fdec 1 10) 1000
    (mkArea (flit 50) (flit 30) (flit 25000)) (flit 0) (flit 0) 1 "key" "dev-" (flit 5) None false.
Definition printed : res string :=
  let! (snap, _) := take_snapshot (flit 110) stats in Ok (format_stats snap config).
End ReportSamples.

Example printed_line : ReportSamples.printed = Ok
  "[   10.0s] busy 4/32 q 7/128      sent 1150      (115/s now, 115/s avg)  ok 1100      made 1200      rej 50      drop 50      fail 2     reconn 1     thr 3     ack p50 12.5 p95 226.2 p99 245.2 ms".
Proof. vm_compute. reflexivity. Qed.

Example formatted :
  fixed 1 (fdec (-25) 100) = "-0.2" ∧ fixed 1 (fdec 35 100) = "0.3" ∧ fixed 0 (fdec 25 10) = "2" ∧
  fixed 2 (fdec 2675 1000) = "2.67" ∧ fixed 1 (flit 1000000) = "1000000.0".
Proof. vm_compute. done. Qed.

Lemma session_pauses_bounded_witness :
  Forall (λ p, ∀ s, p = Some s → ∃ n, s = Fin n ∧ 2 ^ 1072 ≤ n ≤ 45 * u)
    (sessions [(false, true, Fin 0); (true, true, fdec 9 10)] RECONNECT_BASE_S).
Proof.
  apply session_pauses_bounded. repeat constructor.
  - exists 0. split; [done|]. vm_compute. by split.
  - eexists. split; [reflexivity|]. vm_compute. by split.
Defined.
