(* ===== verification/Consumer.v ===== *)
(** * One shard's consumer loop (src/geotrack/processor/consumer.py)

    A stream is what Redis holds for the consumer group: the entries delivered to the
    shard's consumer name and not acknowledged, then the entries never delivered. *)
From S2P Require Import Prelude Floats Clock Text Json JsonRef Keys Codec Batch.

Record StreamEntry := mkStreamEntry { entry_id : string; raw : string }.
Record Stream := mkStream { pending_entries : list StreamEntry; new_entries : list StreamEntry }.
Record DeadLetter := mkDead { dead_id : string; dead_raw : string; dead_error : string }.

Inductive Cursor := PENDING | NEW.

Definition DB_BACKOFF_MIN : Z := 250.
Definition DB_BACKOFF_MAX : Z := 2000.

Record ShardConsumer := mkConsumer {
  cursor : Cursor; backoff : Z; stopping : bool; supports_xackdel : bool }.

Definition new_consumer : ShardConsumer := mkConsumer PENDING DB_BACKOFF_MIN false true.

(** [XREADGROUP ... COUNT count]: the entries read, and the stream after it. *)
Definition xreadgroup (c : Cursor) (count : nat) (s : Stream) : list StreamEntry * Stream :=
  match c with
  | PENDING => (take count (pending_entries s), s)
  | NEW => (take count (new_entries s),
            mkStream (pending_entries s ++ take count (new_entries s)) (drop count (new_entries s)))
  end.

(** [XACKDEL] (or [XACK] and [XDEL]) of some ids. *)
Definition ackdel (ids : list string) (s : Stream) : Stream :=
  mkStream (filter (λ e, entry_id e ∉ ids) (pending_entries s))
           (filter (λ e, entry_id e ∉ ids) (new_entries s)).

Section consumer.
Context `{Orjson}.
Variable float_of_str : string → option float64.
Variable st_dwithin : Point → Point → float64 → bool.
Variable search_overlaps : Point → float64 → Point → bool.
Variables (batch_size : nat) (retention_days skew_s : Z).

(** [_decode]. Only a [CodecError] is caught. *)
Fixpoint decode_entries (entries : list StreamEntry)
  : res (list LocationRecord * list string * list DeadLetter) :=
  match entries with
  | [] => Ok ([], [], [])
  | e :: rest =>
      match decode_record float_of_str (raw e) with
      | Ok r => let! (records, sources, dead) := decode_entries rest in
                Ok (r :: records, entry_id e :: sources, dead)
      | Raise (CodecError msg) =>
          let! (records, sources, dead) := decode_entries rest in
          Ok (records, sources, mkDead (entry_id e) (raw e) msg :: dead)
      | Raise x => Raise x
      end
  end.

(** The dead letters of the records the schema cannot hold. *)
Definition rejected_letter (sources : list string) (rj : RejectedRecord) : res DeadLetter :=
  match sources !! index rj with
  | Some id => Ok (mkDead id (encode_record (record rj)) (reason rj))
  | None => Raise IndexError
  end.

(** How Redis and PostgreSQL answer the calls of one batch. *)
(** A call that fails may still have been executed: its answer was lost, or came late. *)
Inductive AckAnswer := AckDone | AckUnknownCommand (fallback_done : bool) | AckFailed (executed : bool).
Record Answers := mkAnswers {
  db_now : Z; wall_ms : Z; tx : list TxOutcome;
  dlq_written : option nat;     (* None: all; Some n: the pipeline broke after n *)
  ack : AckAnswer }.

(** [dlq]: the shard's dead letters, oldest first. Redis trims the stream they are written
    to, and keeps at least the newest DLQ_MAX_LEN of it. *)
Record World := mkWorld { db : Db; stream : Stream; dlq : list DeadLetter }.

(** [_acknowledge]: whether the server knows XACKDEL afterwards, the stream, and
    whether the call succeeded. *)
Definition acknowledge (ids : list string) (a : AckAnswer) (xackdel : bool) (s : Stream)
  : bool * Stream * bool :=
  match xackdel, a with
  | true, AckDone => (true, ackdel ids s, true)
  | true, AckUnknownCommand true => (false, ackdel ids s, true)
  | true, AckUnknownCommand false => (false, s, false)
  | true, AckFailed executed => (true, if executed then ackdel ids s else s, false)
  | false, AckFailed executed => (false, if executed then ackdel ids s else s, false)
  | false, AckUnknownCommand ok => (false, if ok then ackdel ids s else s, ok)
  | false, AckDone => (false, ackdel ids s, true)
  end.

(** [_handle]: the world, the fallback flag and whether it ended normally. Publishing
    never raises and changes nothing here. *)
Definition handle (entries : list StreamEntry) (a : Answers) (xackdel : bool) (w : World)
  : World * bool * bool :=
  match decode_entries entries with
  | Raise _ => (w, xackdel, false)
  | Ok (records, sources, dead) =>
      let applied := match records with
                     | [] => Some (db w, Applied (mkResult [] [] 0 []), 0%nat)
                     | _ => apply st_dwithin search_overlaps (db_now a) (wall_ms a)
                              retention_days skew_s MAX_ATTEMPTS (tx a) (db w) records
                     end in
      match applied with
      | Some (db', Applied r, _) =>
          match traverse (rejected_letter sources) (rejected r) with
          | Raise _ => (mkWorld db' (stream w) (dlq w), xackdel, false)
          | Ok more =>
              let letters := dead ++ more in
              match letters, dlq_written a with
              | _ :: _, Some n =>
                  (mkWorld db' (stream w) (dlq w ++ take n letters), xackdel, false)
              | _, _ =>
                  let '(x, s', ok) := acknowledge (entry_id <$> entries) (ack a) xackdel (stream w) in
                  (mkWorld db' s' (dlq w ++ letters), x, ok)
              end
          end
      | Some (db', _, _) => (mkWorld db' (stream w) (dlq w), xackdel, false)
      | None => (w, xackdel, false)
      end
  end.

(** [_sleep_backoff]. *)
Definition next_backoff (b : Z) : Z := Z.min (b * 2) DB_BACKOFF_MAX.

(** How XGROUP CREATE ends: the group is created, it was there (BUSYGROUP), or the call
    fails, possibly after creating it. *)
Inductive GroupAnswer := GroupCreated | GroupExists | GroupFails (created : bool).

(** A group created at id 0 has nothing pending and delivers the whole stream. *)
Definition group_at_start (s : Stream) : Stream := mkStream [] (pending_entries s ++ new_entries s).

(** [_create_group_when_ready]: attempt after attempt, until a stop is requested while it
    waits. *)
Fixpoint create_group_when_ready (answers : list GroupAnswer) (c : ShardConsumer) (s : Stream)
  : ShardConsumer * Stream :=
  match answers with
  | [] => (mkConsumer (cursor c) (backoff c) true (supports_xackdel c), s)
  | GroupCreated :: _ => (mkConsumer (cursor c) DB_BACKOFF_MIN (stopping c) (supports_xackdel c), group_at_start s)
  | GroupExists :: _ => (mkConsumer (cursor c) DB_BACKOFF_MIN (stopping c) (supports_xackdel c), s)
  | GroupFails created :: rest =>
      create_group_when_ready rest
        (mkConsumer (cursor c) (next_backoff (backoff c)) (stopping c) (supports_xackdel c))
        (if created then group_at_start s else s)
  end.

(** [run] before its loop. *)
Definition run_start (answers : list GroupAnswer) (c : ShardConsumer) (w : World) : ShardConsumer * World :=
  let c := mkConsumer PENDING (backoff c) (stopping c) (supports_xackdel c) in
  if stopping c then (c, w)
  else let '(c', s') := create_group_when_ready answers c (stream w) in (c', mkWorld (db w) s' (dlq w)).

(** What the read and the lease renewal of one round meet. When the read fails its
    entries may have been delivered to the consumer's name all the same: the answer was
    lost, or XLEN failed after it. *)
Inductive ReadAnswer := ReadOk | ReadResponseError (groups : list GroupAnswer) | ReadRedisError (delivered : bool).
Inductive LeaseAnswer := LeaseHeld | LeaseLost | LeaseError.

(** One round of the loop of [run]; [stop_asked] is [request_stop] seen before it. *)
Definition round (stop_asked : bool) (rd : ReadAnswer) (le : LeaseAnswer) (a : Answers)
    (c : ShardConsumer) (w : World) : ShardConsumer * World :=
  if stopping c || stop_asked then
    (mkConsumer (cursor c) (backoff c) true (supports_xackdel c), w)
  else
    match rd with
    | ReadResponseError groups =>
        let '(c', s') := create_group_when_ready groups c (stream w) in
        (mkConsumer PENDING (backoff c') (stopping c') (supports_xackdel c'), mkWorld (db w) s' (dlq w))
    | ReadRedisError delivered =>
        (mkConsumer PENDING (next_backoff (backoff c)) false (supports_xackdel c),
         if delivered then mkWorld (db w) (xreadgroup (cursor c) batch_size (stream w)).2 (dlq w) else w)
    | ReadOk =>
        let '(entries, s') := xreadgroup (cursor c) batch_size (stream w) in
        let w1 := mkWorld (db w) s' (dlq w) in
        match entries with
        | [] => (mkConsumer NEW (backoff c) false (supports_xackdel c), w1)
        | _ =>
            match le with
            | LeaseLost => (mkConsumer (cursor c) (backoff c) true (supports_xackdel c), w1)
            | LeaseError =>
                (mkConsumer PENDING (next_backoff (backoff c)) false (supports_xackdel c), w1)
            | LeaseHeld =>
                match handle entries a (supports_xackdel c) w1 with
                | (w2, x, true) => (mkConsumer (cursor c) DB_BACKOFF_MIN false x, w2)
                | (w2, x, false) => (mkConsumer PENDING (next_backoff (backoff c)) false x, w2)
                end
            end
        end
    end.
End consumer.

(** ** Nothing is lost *)

Section accounting.
Context `{Orjson}.
Variable float_of_str : string → option float64.
Variable st_dwithin : Point → Point → float64 → bool.
Variable search_overlaps : Point → float64 → Point → bool.
Variables (batch_size : nat) (retention_days skew_s : Z).
Local Notation decode_entries := (decode_entries float_of_str).
Local Notation handle := (handle float_of_str st_dwithin search_overlaps retention_days skew_s).
Local Notation round := (round float_of_str st_dwithin search_overlaps batch_size retention_days skew_s).
Local Notation batch_db := (batch_db st_dwithin search_overlaps).
Local Notation apply := (apply st_dwithin search_overlaps).

(** *** Decoding keeps every entry *)

Lemma decode_entries_ok entries records sources dead :
  decode_entries entries = Ok (records, sources, dead) →
  ∀ e, e ∈ entries →
    (∃ j r, decode_record float_of_str (raw e) = Ok r ∧ records !! j = Some r ∧
            sources !! j = Some (entry_id e)) ∨
    (∃ dl msg, dl ∈ dead ∧ decode_record float_of_str (raw e) = Raise (CodecError msg) ∧
               dl = mkDead (entry_id e) (raw e) msg).
Proof.
  revert records sources dead.
  induction entries as [|x entries IH]; intros records sources dead Hd e He; [by apply elem_of_nil in He|].
  cbn in Hd. destruct (decode_record float_of_str (raw x)) as [r|exc] eqn:Er.
  - destruct (decode_entries entries) as [[[rs ss] ds]|] eqn:Es; [|done]. cbn in Hd. simplify_eq.
    apply elem_of_cons in He as [->|He]; [left; by exists 0%nat, r|].
    destruct (IH _ _ _ eq_refl e He) as [(j & r' & ? & ? & ?)|?]; [left; by exists (S j), r'|by right].
  - destruct exc; try done.
    destruct (decode_entries entries) as [[[rs ss] ds]|] eqn:Es; [|done]. cbn in Hd. simplify_eq.
    apply elem_of_cons in He as [->|He].
    + right. eexists _, _. split; [by left|done].
    + destruct (IH _ _ _ eq_refl e He) as [?|(dl & m & ? & ?)]; [by left|right]. exists dl, m.
      split; [by right|done].
Qed.

Lemma decode_entries_lengths entries records sources dead :
  decode_entries entries = Ok (records, sources, dead) → length sources = length records.
Proof.
  revert records sources dead. induction entries as [|x entries IH]; intros records sources dead Hd.
  { by simplify_eq/=. }
  cbn in Hd. destruct (decode_record _ _) as [r|exc].
  2: destruct exc; try done.
  all: destruct (decode_entries entries) as [[[rs ss] ds]|] eqn:Es; [|done]; cbn in Hd; simplify_eq;
    specialize (IH _ _ _ eq_refl); cbn; lia.
Qed.

(** Every decoded record comes from an entry. *)
Lemma decode_entries_records entries records sources dead :
  decode_entries entries = Ok (records, sources, dead) →
  ∀ r, r ∈ records → ∃ e, e ∈ entries ∧ decode_record float_of_str (raw e) = Ok r.
Proof.
  revert records sources dead. induction entries as [|x entries IH]; intros records sources dead Hd r Hr.
  { cbn in Hd. simplify_eq. by apply elem_of_nil in Hr. }
  cbn in Hd. destruct (decode_record float_of_str (raw x)) as [r'|exc] eqn:Er; [|destruct exc; try done].
  all: destruct (decode_entries entries) as [[[rs ss] ds]|] eqn:Es; [|done]; cbn in Hd; simplify_eq.
  1: apply elem_of_cons in Hr as [->|Hr]; [exists x; split; [left|done]|].
  all: destruct (IH _ _ _ eq_refl r Hr) as (e & ? & ?); exists e; split; [by right|done].
Qed.

(** *** What a batch leaves behind *)

Lemma attempts_db now max n outcomes d storable bad d' e k :
  attempts st_dwithin search_overlaps now max n outcomes d storable (latest_per_device storable) bad
  = Some (d', e, k) →
  (d' = d ∧ ∃ s, e = DBAPIError s) ∨
  (d' = batch_db now d storable ∧ ∀ r, e = Applied r → rejected r = bad).
Proof.
  intros (tried & o & rest & _ & _ & -> & He)%attempts_spec. rewrite existsb_app.
  destruct o as [|s|s]; cbn [existsb took_effect]; rewrite ?orb_true_r.
  - right. split; [done|]. subst e. intros r. destruct (existsb took_effect tried); [by intros [= <-]|].
    unfold finished. destruct (apply_once _ _ _ _ _ _).2 as [[items als]|]; [by intros [= <-]|done].
  - right. split; [done|]. destruct He as [-> _]. done.
  - rewrite !orb_false_r. destruct He as [-> _]. destruct (existsb took_effect tried); [by right|left; eauto].
Qed.

Lemma apply_db now now_ms max outcomes d records d' e k :
  apply now now_ms retention_days skew_s max outcomes d records = Some (d', e, k) →
  let '(storable, bad) := split_storable now_ms retention_days skew_s records in
  (d' = d ∧ ∃ s, e = DBAPIError s) ∨
  ((d' = batch_db now d storable ∨ (storable = [] ∧ d' = d)) ∧ ∀ r, e = Applied r → rejected r = bad).
Proof.
  unfold Batch.apply. destruct (split_storable _ _ _ _) as [[|r storable] bad].
  - intros [= <- <- <-]. right. split; [by right|]. by intros r [= <-].
  - intros Ha. apply attempts_db in Ha as [?|[? ?]]; [by left|by right; split; [left|]].
Qed.

(** The days whose partition of the history has been dropped. *)
Variable gone : Z → Prop.
Definition archive_day (ts : Z) : Z := ts / 86400000000.
(** What is left of a report that was stored. *)
Definition survives (d : Db) (r : LocationRecord) : Prop :=
  reflected d r ∧ (archived d r ∨ gone (archive_day (to_timestamp (reported_ms r)))).

Lemma covered_survives d r : covered d r → survives d r.
Proof. intros [Hr Ha]. split; [done|by left]. Qed.

Lemma batch_keeps_survives now d storable r : survives d r → survives (batch_db now d storable) r.
Proof.
  intros [Hr Ha]. split; [by apply batch_keeps_reflected|].
  destruct Ha as [Ha|Ha]; [left; by apply batch_keeps_archived|by right].
Qed.

Lemma apply_keeps_survives now now_ms max outcomes d records d' e k r :
  apply now now_ms retention_days skew_s max outcomes d records = Some (d', e, k) →
  survives d r → survives d' r.
Proof.
  intros Ha Hc. apply apply_db in Ha. destruct (split_storable _ _ _ _) as [storable bad].
  destruct Ha as [[-> _]|[[->|[_ ->]] _]]; [done| |done]. by apply batch_keeps_survives.
Qed.

(** After a successful batch each of its records is stored or rejected. *)
Lemma apply_accounts now now_ms max outcomes d records d' res k j r :
  apply now now_ms retention_days skew_s max outcomes d records = Some (d', Applied res, k) →
  records !! j = Some r →
  covered d' r ∨ ∃ rj, rj ∈ rejected res ∧ index rj = j ∧ record rj = r ∧
    unstorable_reason r (now_ms - retention_days * 86400 * 1000) (now_ms + skew_s * 1000) = Some (reason rj).
Proof.
  intros Ha Hj. apply apply_db in Ha. unfold split_storable in Ha.
  pose proof (split_loop_spec (now_ms - retention_days * 86400 * 1000) (now_ms + skew_s * 1000) 0 records)
    as [Hs Hb]. destruct (split_loop _ _ _ _) as [storable bad]. cbn in Hs, Hb.
  destruct Ha as [[_ [s [=]]]|[Hd' Hres]]. rewrite (Hres res eq_refl).
  destruct (unstorable_reason r (now_ms - retention_days * 86400 * 1000) (now_ms + skew_s * 1000)) as [why|] eqn:Er.
  - right. exists (mkRejected j r why). split; [|done]. apply Hb. by exists j.
  - left. assert (Hin : r ∈ storable).
    { rewrite Hs, list_elem_of_filter. split; [done|]. by eapply list_elem_of_lookup_2. }
    destruct Hd' as [->|[-> _]]; [|by apply elem_of_nil in Hin].
    pose proof (batch_covers st_dwithin search_overlaps now d storable) as Hc.
    rewrite Forall_forall in Hc. auto.
Qed.

Lemma letters_of_rejected sources rejs letters rj :
  traverse (rejected_letter sources) rejs = Ok letters → rj ∈ rejs →
  ∃ id, mkDead id (encode_record (record rj)) (reason rj) ∈ letters ∧ sources !! index rj = Some id.
Proof.
  revert letters. induction rejs as [|x rejs IH]; intros letters Ht Hrj; [by apply elem_of_nil in Hrj|].
  cbn in Ht. unfold rejected_letter in Ht at 1. destruct (sources !! index x) as [id|] eqn:Ex; [|done].
  cbn in Ht. destruct (traverse _ rejs) as [ls|] eqn:El; [|done]. cbn in Ht. simplify_eq.
  apply elem_of_cons in Hrj as [->|Hrj].
  - exists id. split; [by left|done].
  - destruct (IH ls eq_refl Hrj) as (id' & ? & ?). exists id'. split; [by right|done].
Qed.

(** *** Every entry that was ever added *)

Definition in_stream (w : World) (e : StreamEntry) : Prop :=
  e ∈ pending_entries (stream w) ++ new_entries (stream w).

(** A letter that says truly what is wrong with an entry. *)
Definition explains (dl : DeadLetter) (e : StreamEntry) : Prop :=
  dead_id dl = entry_id e ∧
  match decode_record float_of_str (raw e) with
  | Ok r => dead_raw dl = encode_record r ∧
      ∃ wall, unstorable_reason r (wall - retention_days * 86400 * 1000) (wall + skew_s * 1000) = Some (dead_error dl)
  | Raise (CodecError msg) => dead_raw dl = raw e ∧ dead_error dl = msg
  | Raise _ => False
  end.

Definition accounted (w : World) (e : StreamEntry) : Prop :=
  in_stream w e ∨ (∃ dl, dl ∈ dlq w ∧ explains dl e) ∨
  (∃ r, decode_record float_of_str (raw e) = Ok r ∧ survives (db w) r).

(** The shard and its surroundings: producers append, any consumer (the owner, a
    previous one, a new one starting over) runs a round with any answers from its
    dependencies, other shards commit their batches, users edit zones, the maintenance
    drops days of the history. *)
Inductive shard_step : World * list StreamEntry → World * list StreamEntry → Prop :=
  | shard_add w all e : entry_id e ∉ entry_id <$> all →
      shard_step (w, all)
        (mkWorld (db w) (mkStream (pending_entries (stream w)) (new_entries (stream w) ++ [e])) (dlq w),
         all ++ [e])
  | shard_start w all c answers : shard_step (w, all) ((run_start answers c w).2, all)
  | shard_round w all c stop rd le a :
      shard_step (w, all) ((round stop rd le a c w).2, all)
  | shard_other w all now storable :
      shard_step (w, all) (mkWorld (batch_db now (db w) storable) (stream w) (dlq w), all)
  | shard_zones w all d' : device_positions d' = device_positions (db w) →
      (∀ k v, location_history (db w) !! k = Some v →
         location_history d' !! k = Some v ∨ gone (archive_day k.2)) →
      shard_step (w, all) (mkWorld d' (stream w) (dlq w), all).

Record shard_ok (wa : World * list StreamEntry) : Prop := {
  ok_ids : NoDup (entry_id <$> wa.2);
  ok_stream e : in_stream wa.1 e → e ∈ wa.2;
  ok_accounted e : e ∈ wa.2 → accounted wa.1 e }.

Lemma same_id_same all e e' :
  NoDup (entry_id <$> all) → e ∈ all → e' ∈ all → entry_id e = entry_id e' → e = e'.
Proof.
  intros Hnd He He' E. pose proof (find_key_elem entry_id all e Hnd He) as E1.
  pose proof (find_key_elem entry_id all e' Hnd He') as E2. congruence.
Qed.

Lemma ackdel_stream ids st e :
  e ∈ pending_entries (ackdel ids st) ++ new_entries (ackdel ids st) ↔
  e ∈ pending_entries st ++ new_entries st ∧ entry_id e ∉ ids.
Proof. clear. cbn. rewrite !elem_of_app, !list_elem_of_filter. tauto. Qed.

Lemma acknowledge_stream ids a x st x' st' ok :
  acknowledge ids a x st = (x', st', ok) → st' = st ∨ st' = ackdel ids st.
Proof. unfold acknowledge. repeat case_match; intros; simplify_eq; auto. Qed.

(** What a batch does to the world: it only grows the database and the dead letters,
    and drops from the stream only entries it accounted for. *)
Lemma handle_accounts all entries a x w w' x' ok :
  NoDup (entry_id <$> all) → (∀ e, e ∈ entries → e ∈ all) → (∀ e, in_stream w e → e ∈ all) →
  handle entries a x w = (w', x', ok) →
  (∀ e, in_stream w' e → in_stream w e) ∧ (∀ e, e ∈ all → accounted w e → accounted w' e).
Proof.
  intros Hnd Hent Hst. unfold handle.
  assert (Hgrow : ∀ d' more, (∀ r, survives (db w) r → survives d' r) →
    ∀ e, accounted w e → accounted (mkWorld d' (stream w) (dlq w ++ more)) e).
  { intros d' more Hc e [Hs|[(dl & Hdl & He)|(r & Hr & Hcr)]]; [by left| |].
    - right; left. exists dl. split; [by apply elem_of_app; left|done].
    - right; right. eauto. }
  destruct (decode_entries entries) as [[[records sources] dead]|] eqn:Ed; [|intros [= <- <- <-]; done].
  set (applied := match records with [] => _ | _ => _ end).
  destruct applied as [[[d' e] k]|] eqn:Ea; [|intros [= <- <- <-]; done].
  assert (Hcov : ∀ r, survives (db w) r → survives d' r).
  { intros r Hr. subst applied. destruct records; [by simplify_eq|]. by eapply apply_keeps_survives. }
  pose proof (Hgrow d' [] Hcov) as Hgrow0. rewrite app_nil_r in Hgrow0.
  destruct e as [res|s|exc]; [|intros [= <- <- <-]; auto..].
  destruct (traverse _ _) as [more|] eqn:Et; [|intros [= <- <- <-]; auto].
  assert (Hacc : ∀ e, e ∈ entries →
    (∃ dl, dl ∈ dlq w ++ dead ++ more ∧ explains dl e) ∨
    (∃ r, decode_record float_of_str (raw e) = Ok r ∧ survives d' r)).
  { intros e He. destruct (decode_entries_ok _ _ _ _ Ed e He) as [(j & r & Hr & Hj & Hsj)|(dl & msg & Hdl & Hr & ->)].
    - assert (Hca : covered d' r ∨ ∃ rj, rj ∈ rejected res ∧ index rj = j ∧ record rj = r ∧
        unstorable_reason r (wall_ms a - retention_days * 86400 * 1000) (wall_ms a + skew_s * 1000) = Some (reason rj)).
      { subst applied. destruct records as [|r0 records]; [done|]. by eapply apply_accounts. }
      destruct Hca as [Hc%covered_survives|(rj & Hrj & Hi & Hrec & Hwhy)]; [right; eauto|left].
      destruct (letters_of_rejected _ _ _ _ Et Hrj) as (id & Hdl & Hid).
      eexists. split; [apply elem_of_app; right; apply elem_of_app; right; exact Hdl|].
      split; [cbn; congruence|]. rewrite Hr. cbn. split; [congruence|eauto].
    - left. eexists. split; [apply elem_of_app; right; apply elem_of_app; left; exact Hdl|].
      split; [done|]. by rewrite Hr. }
  assert (Hack : ∀ st', st' = stream w ∨ st' = ackdel (entry_id <$> entries) (stream w) →
    let w1 := mkWorld d' st' (dlq w ++ dead ++ more) in
    (∀ e, in_stream w1 e → in_stream w e) ∧ (∀ e, e ∈ all → accounted w e → accounted w1 e)).
  { intros st' [->| ->] w1; (split; [intros e; unfold in_stream, w1; cbn [stream];
      rewrite ?ackdel_stream; naive_solver|]); intros e He Hae.
    { by apply Hgrow. }
    destruct (decide (entry_id e ∈ entry_id <$> entries)) as [Hid|Hid].
    - apply list_elem_of_fmap in Hid as (e' & Hid & Hin).
      assert (e = e') as -> by (apply (same_id_same all); auto).
      destruct (Hacc e' Hin) as [?|?]; [by right; left|by right; right].
    - destruct (Hgrow d' (dead ++ more) Hcov e Hae) as [Hin|[?|?]]; [left|by right; left|by right; right].
      unfold in_stream in *. by apply ackdel_stream. }
  cbn zeta in Hack. revert Hack. destruct (dead ++ more) as [|l ls]; intros Hack Hw'.
  - destruct (acknowledge _ _ _ _) as [[x1 st'] ok1] eqn:Eack. injection Hw' as <- <- <-.
    by apply Hack, (acknowledge_stream _ _ _ _ _ _ _ Eack).
  - destruct (dlq_written a) as [n|].
    + injection Hw' as <- <- <-. split; [done|]. intros e' _. by apply Hgrow.
    + destruct (acknowledge _ _ _ _) as [[x1 st'] ok1] eqn:Eack. injection Hw' as <- <- <-.
      by apply Hack, (acknowledge_stream _ _ _ _ _ _ _ Eack).
Qed.

Lemma xreadgroup_stream c w entries s' :
  xreadgroup c batch_size (stream w) = (entries, s') →
  (∀ e, e ∈ entries → in_stream w e) ∧
  (∀ e, e ∈ pending_entries s' ++ new_entries s' ↔ in_stream w e).
Proof.
  unfold in_stream. destruct c; cbn; intros [= <- <-]; cbn.
  - split; [|done]. intros e He%subseteq_take. apply elem_of_app. by left.
  - split; [intros e He%subseteq_take; apply elem_of_app; by right|]. intros e.
    by rewrite <- app_assoc, take_drop.
Qed.

Lemma create_group_stream answers c s e :
  let s' := (create_group_when_ready answers c s).2 in
  e ∈ pending_entries s' ++ new_entries s' ↔ e ∈ pending_entries s ++ new_entries s.
Proof.
  revert c s. induction answers as [|[| |[]] answers IH]; intros c s; try done; cbn; by rewrite IH.
Qed.

(** A change of what is pending and what is new accounts for the same entries. *)
Lemma same_stream_ok w s' all :
  (∀ e, e ∈ pending_entries s' ++ new_entries s' ↔ in_stream w e) →
  shard_ok (w, all) → shard_ok (mkWorld (db w) s' (dlq w), all).
Proof.
  intros Hs [Hnd Hst Hacc]; cbn in *. split; cbn; [done| |]; intros e He; [by apply Hst, Hs|].
  destruct (Hacc e He) as [?|?]; [left; by apply Hs|by right].
Qed.

Lemma round_accounts all c stop rd le a w :
  shard_ok (w, all) → shard_ok ((round stop rd le a c w).2, all).
Proof.
  intros Hok. pose proof Hok as [Hnd Hst Hacc]; cbn in *. unfold round.
  destruct (stopping c || stop); [by split|].
  assert (Hgroup : ∀ groups, shard_ok ((let '(c', s') := create_group_when_ready groups c (stream w) in
    (mkConsumer PENDING (backoff c') (stopping c') (supports_xackdel c'), mkWorld (db w) s' (dlq w))).2, all)).
  { intros groups. pose proof (create_group_stream groups c (stream w)) as Hg.
    destruct (create_group_when_ready _ _ _) as [c' s']. by apply same_stream_ok. }
  destruct (xreadgroup _ _ _) as [entries s'] eqn:Ex.
  destruct (xreadgroup_stream _ _ _ _ Ex) as [Hin Hs'].
  set (w1 := mkWorld (db w) s' (dlq w)).
  assert (Hw1 : ∀ e, in_stream w1 e ↔ in_stream w e) by apply Hs'.
  assert (Hok1 : shard_ok (w1, all)) by (by apply same_stream_ok).
  destruct rd as [|groups|delivered]; [|apply Hgroup|by destruct delivered].
  destruct entries as [|e0 entries]; [done|]. destruct le; [|done..].
  destruct (handle (e0 :: entries) a (supports_xackdel c) w1) as [[w2 x] ok] eqn:Eh.
  destruct (handle_accounts all (e0 :: entries) a (supports_xackdel c) w1 w2 x ok) as [H1 H2]; try done.
  { intros e He. by apply Hst, Hin. }
  { intros e He. by apply Hst, Hw1. }
  assert (shard_ok (w2, all)) by (split; cbn; [done| |]; intros e He;
    [by apply Hst, Hw1, H1|by apply H2, (ok_accounted _ Hok1)]).
  by destruct ok.
Qed.

Lemma shard_step_ok wa wa' : shard_ok wa → shard_step wa wa' → shard_ok wa'.
Proof.
  intros Hok Hstep. destruct Hstep as [w all e He|w all c answers|w all c stop rd le a|w all now storable|w all d' Hp Hh].
  - destruct Hok as [Hnd Hst Hacc]; cbn in *. split; cbn.
    + rewrite fmap_app. apply NoDup_app. split; [done|]. split; [set_solver|by apply NoDup_singleton].
    + intros e'. unfold in_stream; cbn. rewrite app_assoc, !elem_of_app.
      intros [[?|?]|?]; [left; apply Hst; unfold in_stream; set_solver..|by right].
    + intros e' [He'|He']%elem_of_app.
      * destruct (Hacc e' He') as [?|?]; [left|by right]. unfold in_stream in *; cbn. set_solver.
      * left. unfold in_stream; cbn. set_solver.
  - unfold run_start. destruct (stopping _); [done|].
    match goal with |- context [create_group_when_ready ?l ?c ?s] =>
      pose proof (create_group_stream l c s) as Hg; destruct (create_group_when_ready l c s) as [c' s'] end.
    by apply same_stream_ok.
  - by apply round_accounts.
  - destruct Hok as [Hnd Hst Hacc]; cbn in *. split; cbn; [done|done|]. intros e He.
    destruct (Hacc e He) as [?|[?|(r & ? & ?)]]; [by left|by right; left|right; right].
    exists r. split; [done|]. by apply batch_keeps_survives.
  - destruct Hok as [Hnd Hst Hacc]; cbn in *. split; cbn; [done|done|]. intros e He.
    destruct (Hacc e He) as [?|[?|(r & ? & Hr & Ha)]]; [by left|by right; left|right; right].
    exists r. split; [done|]. split; [unfold reflected in *; cbn; by rewrite Hp|]. cbn.
    destruct Ha as [[v Hv]|?]; [|by right]. destruct (Hh _ _ Hv); [left; by eexists|by right].
Qed.

Lemma shard_reachable_ok d0 wa :
  rtc shard_step (mkWorld d0 (mkStream [] []) [], []) wa → shard_ok wa.
Proof.
  revert wa. apply (rtc_ind_r shard_ok).
  - split; cbn; [constructor| |]; intros x Hx; by apply elem_of_nil in Hx.
  - intros wa1 wa2 _ Hstep Hok. by eapply shard_step_ok.
Qed.
End accounting.

(** ** A round that meets no failure *)

Section progress.
Context `{Orjson}.
Variable float_of_str : string → option float64.

(** Whatever the bytes, decoding fails only with a [CodecError]. *)
Lemma decode_record_fails raw x :
  decode_record float_of_str raw = Raise x → ∃ msg, x = CodecError msg.
Proof.
  unfold decode_record, record_of_json. intros Hd. repeat case_match; simplify_eq; eauto.
  match goal with
  | E1 : negb (in_range _ _ ?a) || negb (in_range _ _ ?b) = false,
    Ex : as_number ?jx = Some ?a, Ey : as_number ?jy = Some ?b |- _ =>
      apply orb_false_iff in E1 as [?%negb_false_iff ?%negb_false_iff];
      destruct (py_float_range float_of_str jx a (-90) 90) as (? & E3 & ?); [done..|];
      destruct (py_float_range float_of_str jy b (-180) 180) as (? & E4 & ?); [done..|]
  end.
  by rewrite E3, E4 in Hd.
Qed.

Lemma decode_entries_total entries : ∃ out, decode_entries float_of_str entries = Ok out.
Proof.
  induction entries as [|e entries [[[rs ss] ds] IH]]; [by eexists|]. cbn. rewrite IH.
  destruct (decode_record float_of_str (raw e)) as [r|x] eqn:E; [by eexists|].
  apply decode_record_fails in E as [msg ->]. by eexists.
Qed.

Variable st_dwithin : Point → Point → float64 → bool.
Variable search_overlaps : Point → float64 → Point → bool.
Variables (retention_days skew_s : Z).

(** The clock of a replica between 2004 and 2038, retention and skew included. *)
Definition clock_ok (now_ms : Z) : Prop :=
  2 ^ 40 < now_ms - retention_days * 86400 * 1000 ∧ now_ms + skew_s * 1000 < 2 ^ 31 * 1000.

(** The item that is announced for an accepted row. *)
Definition committed_item (a : AcceptedRow) : PositionItem :=
  mkItem (acc_device a) (acc_position a).1 (acc_position a).2 (acc_reported_at a / 1000).

Lemma accepted_items_ok now_ms d records :
  clock_ok now_ms →
  (∀ r, r ∈ records → unstorable_reason r (now_ms - retention_days * 86400 * 1000)
                        (now_ms + skew_s * 1000) = None) →
  traverse item_of_row (accepted d (latest_per_device records))
    = Ok (committed_item <$> accepted d (latest_per_device records)).
Proof.
  intros [Hlo Hhi] Hr. apply traverse_ok.
  intros a (r & Hin & _ & ->)%elem_accepted. apply latest_subset in Hin. specialize (Hr r Hin).
  unfold unstorable_reason in Hr. repeat case_match; try done.
  unfold item_of_row, committed_item. cbn -[to_epoch_ms]. unfold to_timestamp.
  rewrite EpochRoundtrip.to_epoch_ms_exact by lia. cbn. by rewrite Z.div_mul by lia.
Qed.

Lemma apply_commits now now_ms outcomes d records :
  clock_ok now_ms →
  ∃ d' r k, apply st_dwithin search_overlaps now now_ms retention_days skew_s MAX_ATTEMPTS
              (Commits :: outcomes) d records = Some (d', Applied r, k) ∧
    rejected r = (split_storable now_ms retention_days skew_s records).2.
Proof.
  intros Hc. unfold Batch.apply.
  pose proof (split_loop_spec (now_ms - retention_days * 86400 * 1000) (now_ms + skew_s * 1000) 0 records)
    as [Hs _]. unfold split_storable. destruct (split_loop _ _ _ _) as [ok bad]. cbn in Hs |- *.
  destruct ok as [|r0 ok]; [by eexists _, _, _|].
  assert (Hi := accepted_items_ok now_ms (insert_history d (r0 :: ok)) (r0 :: ok) Hc).
  specialize (Hi ltac:(intros r Hr; rewrite Hs in Hr; by apply list_elem_of_filter in Hr as [? _])).
  unfold attempts, apply_once, apply_batch_sql. rewrite Hi. by eexists _, _, _.
Qed.

(** What [apply] changes and what it gives the publisher: no attempt committed and there
    is nothing to announce, or the database is as one commit of the batch leaves it, whose
    answer the caller got, or never got. *)
Lemma apply_announces now now_ms outcomes d records d' e k :
  clock_ok now_ms →
  apply st_dwithin search_overlaps now now_ms retention_days skew_s MAX_ATTEMPTS outcomes d records = Some (d', e, k) →
  (existsb took_effect (take k outcomes) = false ∧ d' = d ∧
   ∀ r, e = Applied r → accepted_items r = [] ∧ result_alerts r = []) ∨
  ∃ storable r,
    (∀ x, x ∈ storable → x ∈ records ∧ unstorable_reason x (now_ms - retention_days * 86400 * 1000)
                                         (now_ms + skew_s * 1000) = None) ∧
    existsb took_effect (take k outcomes) = true ∧
    d' = batch_db st_dwithin search_overlaps now d storable ∧
    apply st_dwithin search_overlaps now now_ms retention_days skew_s MAX_ATTEMPTS [Commits] d records
      = Some (d', Applied r, 1%nat) ∧
    accepted_items r = committed_item <$> accepted d (latest_per_device storable) ∧
    (e = Applied r ∨ ∀ r', e = Applied r' → accepted_items r' = [] ∧ result_alerts r' = []).
Proof.
  intros Hc. unfold Batch.apply.
  pose proof (split_loop_spec (now_ms - retention_days * 86400 * 1000) (now_ms + skew_s * 1000) 0 records)
    as [Hs _]. unfold split_storable. destruct (split_loop _ _ _ _) as [ok bad]. cbn in Hs.
  assert (Hok : ∀ x, x ∈ ok → x ∈ records ∧ unstorable_reason x (now_ms - retention_days * 86400 * 1000)
    (now_ms + skew_s * 1000) = None).
  { intros x Hx. rewrite Hs in Hx. by apply list_elem_of_filter in Hx as [? ?]. }
  destruct ok as [|r0 ok]; [intros [= <- <- <-]; left; split_and!; [done..|by intros r [= <-]]|].
  intros (tried & o & rest & -> & -> & -> & He)%attempts_spec.
  assert (take (0 + S (length tried)) (tried ++ o :: rest) = tried ++ [o]) as ->.
  { rewrite cons_middle, app_assoc, take_app_length'; [done|]. rewrite length_app. cbn. lia. }
  set (once := apply_once _ _ _ _ _ _) in *.
  assert (Honce : ∃ r, finished (r0 :: ok) bad once.2 = Applied r ∧
            accepted_items r = committed_item <$> accepted d (latest_per_device (r0 :: ok))).
  { unfold once, apply_once, apply_batch_sql. cbn [snd].
    assert (Hi := accepted_items_ok now_ms (insert_history d (r0 :: ok)) (r0 :: ok) Hc).
    specialize (Hi ltac:(intros x Hx; by apply Hok)). rewrite Hi. cbn. by eexists. }
  destruct Honce as (r & Hr & Hacc). destruct (existsb took_effect (tried ++ [o])) eqn:Et.
  - right. exists (r0 :: ok), r. split_and!; [done..| |done|].
    + cbn -[apply_once latest_per_device]. fold once. destruct once as [d1 r1] eqn:E. cbn in Hr. rewrite Hr.
      unfold batch_db. fold once. by rewrite E.
    + destruct o as [|s|s]; [|right; destruct He as [-> _]; done..]. subst e.
      destruct (existsb took_effect tried); [right; by intros r' [= <-]|by left].
  - left. split_and!; [done..|]. rewrite existsb_app, orb_false_iff in Et. destruct Et as [_ Eo].
    destruct o as [|s|s]; [done..|]. destruct He as [-> _]. done.
Qed.

Lemma rejected_letters_ok now_ms records sources :
  length sources = length records →
  ∃ letters, traverse (rejected_letter sources) (split_storable now_ms retention_days skew_s records).2
             = Ok letters.
Proof.
  intros Hl.
  pose proof (split_loop_spec (now_ms - retention_days * 86400 * 1000) (now_ms + skew_s * 1000) 0 records)
    as [_ Hb]. unfold split_storable. destruct (split_loop _ _ _ _) as [ok bad]. cbn in Hb |- *.
  rewrite (traverse_ok _ (λ rj, mkDead (default EmptyString (sources !! index rj))
                            (encode_record (record rj)) (reason rj))); [by eexists|].
  intros rj Hrj. apply Hb in Hrj as (j & Ej & Hj & _). cbn in Ej. subst j. apply lookup_lt_Some in Hj.
  destruct (lookup_lt_is_Some_2 sources (index rj)) as [id Hid]; [lia|].
  unfold rejected_letter. by rewrite Hid.
Qed.
End progress.

(** ** Properties *)

(** no report is lost. Whatever fails, whoever owns the shard and however often
    batches are repeated, every entry that was ever put on the stream is still on it,
    or was written to the dead-letter stream with what is wrong with it, or its report is
    in the database: reflected by a stored position at least as new, and archived in the
    history unless its day has been dropped. *)
Lemma no_report_lost `{Orjson} float_of_str st_dwithin search_overlaps batch_size days skew gone d0 w all e :
  rtc (shard_step float_of_str st_dwithin search_overlaps batch_size days skew gone)
    (mkWorld d0 (mkStream [] []) [], []) (w, all) →
  e ∈ all → accounted float_of_str days skew gone w e.
Proof. intros Hr He. by apply (ok_accounted _ _ _ _ _ (shard_reachable_ok _ _ _ _ _ _ _ _ _ Hr)). Qed.

(** C20: no entry can wedge a shard. When the lease is held and every dependency answers,
    one round removes from the stream every entry it read, whatever bytes they hold. *)
Theorem round_makes_progress `{Orjson} float_of_str st_dwithin search_overlaps batch_size days skew c a w outcomes :
  stopping c = false → tx a = Commits :: outcomes → dlq_written a = None → ack a = AckDone →
  clock_ok days skew (wall_ms a) →
  let w' := (round float_of_str st_dwithin search_overlaps batch_size days skew
               false ReadOk LeaseHeld a c w).2 in
  let read := (xreadgroup (cursor c) batch_size (stream w)).1 in
  ∀ e, in_stream w' e ↔ in_stream w e ∧ entry_id e ∉ entry_id <$> read.
Proof.
  intros Hst Htx Hdlq Hack Hclock. cbn zeta. unfold round. rewrite Hst. cbn [orb].
  destruct (xreadgroup _ _ _) as [entries s'] eqn:Ex. cbn [fst].
  destruct (xreadgroup_stream batch_size _ _ _ _ Ex) as [_ Hs'].
  destruct entries as [|e0 entries].
  { intros e. unfold in_stream at 1. cbn [stream snd]. rewrite Hs'. set_solver. }
  assert (Hh : ∃ w2 x, handle float_of_str st_dwithin search_overlaps days skew (e0 :: entries) a
                 (supports_xackdel c) (mkWorld (db w) s' (dlq w)) = (w2, x, true) ∧
               stream w2 = ackdel (entry_id <$> (e0 :: entries)) s').
  { unfold handle. destruct (decode_entries_total float_of_str (e0 :: entries)) as [[[rs ss] ds] Hd].
    rewrite Hd, Htx, Hdlq, Hack. pose proof (decode_entries_lengths _ _ _ _ _ Hd) as Hlen.
    assert (Hfin : ∀ d' letters, ∃ w2 x,
      (let '(x, s1, ok) := acknowledge (entry_id <$> (e0 :: entries)) AckDone (supports_xackdel c) s' in
       (mkWorld d' s1 (dlq w ++ letters), x, ok)) = (w2, x, true) ∧
      stream w2 = ackdel (entry_id <$> (e0 :: entries)) s').
    { intros d' letters. unfold acknowledge. destruct (supports_xackdel c); by eexists _, _. }
    destruct rs as [|r rs].
    - cbn [rejected traverse]. rewrite app_nil_r. destruct ds; apply Hfin.
    - destruct (apply_commits st_dwithin search_overlaps days skew (db_now a) (wall_ms a) outcomes (db w) (r :: rs) Hclock)
        as (d' & res & k & Ha & Hrej). cbn [db]. rewrite Ha, Hrej.
      destruct (rejected_letters_ok days skew (wall_ms a) (r :: rs) ss Hlen) as [letters ->].
      destruct (ds ++ letters); apply Hfin. }
  destruct Hh as (w2 & x & -> & Hw2). intros e. unfold in_stream at 1. cbn [snd]. rewrite Hw2, ackdel_stream.
  by rewrite Hs'.
Qed.

(** ** A good entry and one that does not decode, read and settled in one round *)
Module ConsumerDemo.
#[local] Existing Instance Ref.orjson.
Definition good : StreamEntry := mkStreamEntry "1-0" (encode_record Samples.report).
Definition junk : StreamEntry := mkStreamEntry "2-0" "junk".
Definition empty : World := mkWorld BatchSamples.db (mkStream [] []) [].
Definition one : World := mkWorld BatchSamples.db (mkStream [] [good]) [].
Definition two : World := mkWorld BatchSamples.db (mkStream [] [good; junk]) [].
Definition answers : Answers := mkAnswers 1700000001000000 1700000001000 [Commits] None AckDone.
Definition consumer : ShardConsumer := mkConsumer NEW DB_BACKOFF_MIN false true.
Definition settled : World :=
  (Consumer.round Samples.no_floats BatchSamples.dwithin BatchSamples.overlaps 100 30 60
     false ReadOk LeaseHeld answers consumer two).2.

Lemma round_reachable :
  rtc (shard_step Samples.no_floats BatchSamples.dwithin BatchSamples.overlaps 100 30 60 (λ _, False))
    (empty, []) (settled, [good; junk]).
Proof.
  apply (rtc_l _ _ (one, [good])); [apply (shard_add _ _ _ 100 30 60 _ empty [] good); set_solver|].
  apply (rtc_l _ _ (two, [good; junk])).
  { apply (shard_add _ _ _ 100 30 60 _ one [good] junk). cbn. set_solver. }
  apply rtc_once, shard_round.
Qed.
End ConsumerDemo.

Lemma no_report_lost_witness :
  (stream ConsumerDemo.settled = mkStream [] [] ∧ length (dlq ConsumerDemo.settled) = 1%nat) ∧
  accounted Samples.no_floats (H := Ref.orjson) 30 60 (λ _, False) ConsumerDemo.settled ConsumerDemo.good.
Proof.
  split; [split; vm_compute; reflexivity|].
  apply (no_report_lost (H := Ref.orjson) Samples.no_floats BatchSamples.dwithin BatchSamples.overlaps 100 30 60 (λ _, False)
           BatchSamples.db ConsumerDemo.settled [ConsumerDemo.good; ConsumerDemo.junk] ConsumerDemo.good
           ConsumerDemo.round_reachable). left.
Defined.

Lemma round_makes_progress_witness :
  length (xreadgroup NEW 100 (stream ConsumerDemo.two)).1 = 2%nat ∧
  ∀ e, in_stream ConsumerDemo.settled e ↔
       in_stream ConsumerDemo.two e ∧
       entry_id e ∉ entry_id <$> (xreadgroup NEW 100 (stream ConsumerDemo.two)).1.
Proof.
  split; [vm_compute; reflexivity|].
  apply (round_makes_progress (H := Ref.orjson) Samples.no_floats BatchSamples.dwithin BatchSamples.overlaps
           100 30 60 ConsumerDemo.consumer ConsumerDemo.answers ConsumerDemo.two []); [reflexivity..|split; vm_compute; reflexivity].
Defined.
