(* ===== verification/Zones.v ===== *)
(** * Geozones (src/geotrack/db/repositories/geozones.py and the handlers of
    src/geotrack/api/routes/geozones.py)

    Zones live in the database of the batch statement. A repository call is one
    statement or two inside the request's transaction; a handler that raises commits
    nothing. Pydantic has validated the bodies; timestamps are microseconds. *)
From stdpp Require Import sorting.
From S2P Require Import Prelude Floats Text Json JsonRef Keys Codec Ingest Batch Devices.

(** The accounts and the tables. *)
Record Store := mkStore { users : gset Z; tables : Db }.

Record GeozoneCreate := mkCreate {
  p_name : string; p_latitude : float64; p_longitude : float64; p_radius_m : float64;
  p_color : option string; p_on_enter : bool; p_on_exit : bool; p_dwell : option Z }.

(** A partial update: an absent key is [None], a null [Some None]. *)
Record GeozonePatch := mkPatch {
  c_name : option (option string); c_latitude : option (option float64);
  c_longitude : option (option float64); c_radius_m : option (option float64);
  c_color : option (option string); c_on_enter : option (option bool);
  c_on_exit : option (option bool); c_dwell : option (option Z) }.
Definition no_changes : GeozonePatch := mkPatch None None None None None None None None.

#[export] Instance GeozonePatch_eq_dec : EqDecision GeozonePatch.
Proof. solve_decision. Defined.

Record GeozoneOut := mkZoneOut {
  o_id : Z; o_name : string; o_color : string; o_latitude : float64; o_longitude : float64;
  o_radius_m : float64; o_on_enter : bool; o_on_exit : bool; o_dwell : option Z;
  o_version : Z; o_created_at : Z; o_updated_at : Z }.

(** [_zone]: the projected columns of a row. *)
Definition zone_out (zid : Z) (z : Geozone) : GeozoneOut :=
  mkZoneOut zid (zone_name z) (color z) (center z).1 (center z).2 (radius_m z) (alert_on_enter z)
    (alert_on_exit z) (dwell_alert_interval_s z) (version z) (zone_created_at z) (zone_updated_at z).

Definition ZONE_PALETTE : list string :=
  ["#3fb1ff"; "#ff4d4f"; "#38d39f"; "#ffb020"; "#b980ff"; "#ff7ab6"; "#4ddbd0"; "#f2f26b"].
Definition default_zone_color (index : nat) : string :=
  default "" (ZONE_PALETTE !! (index mod length ZONE_PALETTE)%nat).

Definition set_zones (zs : gmap Z Geozone) (db : Db) : Db :=
  mkDb zs (device_positions db) (zone_presence db) (alerts db) (alerts_identity db) (location_history db).

(** ** The repository *)

Definition zones_of (user : Z) (db : Db) : gmap Z Geozone :=
  filter (λ kz : Z * Geozone, zone_user kz.2 = user) (geozones db).

Definition count_for_user (user : Z) (db : Db) : nat := size (zones_of user db).

(** [ORDER BY created_at, id]. *)
Definition zone_le (a b : Z * Geozone) : Prop :=
  zone_created_at a.2 < zone_created_at b.2 ∨ (zone_created_at a.2 = zone_created_at b.2 ∧ a.1 ≤ b.1).
#[export] Instance zone_le_dec a b : Decision (zone_le a b).
Proof. unfold zone_le. apply _. Defined.
Definition list_for_user (user : Z) (limit offset : nat) (db : Db) : list GeozoneOut :=
  (λ kz, zone_out kz.1 kz.2) <$>
    take limit (drop offset (merge_sort zone_le (map_to_list (zones_of user db)))).

(** [WHERE id = :id AND user_id = :user_id]. *)
Definition row_for (zid user : Z) (db : Db) : option Geozone :=
  match geozones db !! zid with
  | Some z => if decide (zone_user z = user) then Some z else None
  | None => None
  end.

Definition get_for_user (zid user : Z) (db : Db) : option GeozoneOut := zone_out zid <$> row_for zid user db.

Inductive CreateResult := Created (zone : GeozoneOut) (s : Store) | UnknownOwner | QuotaExceeded (quota : nat).

(** The INSERT: [version], [created_at] and [updated_at] take their defaults. *)
Definition insert_zone (now new_id user : Z) (payload : GeozoneCreate) (used : nat) (s : Store) : GeozoneOut * Store :=
  let z := mkZone user (p_name payload)
             (match p_color payload with
              | Some c => if decide (c = "") then default_zone_color used else c
              | None => default_zone_color used
              end)
             (p_latitude payload, p_longitude payload) (p_radius_m payload)
             (p_on_enter payload) (p_on_exit payload) (p_dwell payload) 1 now now in
  (zone_out new_id z, mkStore (users s) (set_zones (<[new_id := z]> (geozones (tables s))) (tables s))).

(** [SELECT 1 FROM users WHERE id = :user_id FOR UPDATE] finds a row, and takes its lock. *)
Definition owner_locked (user : Z) (s : Store) : bool := bool_decide (user ∈ users s).
(** [used >= quota]. *)
Definition quota_used_up (quota used : nat) : bool := Nat.leb quota used.

Definition create (now new_id user : Z) (payload : GeozoneCreate) (quota : nat) (s : Store) : CreateResult :=
  if owner_locked user s then
    let used := count_for_user user (tables s) in
    if quota_used_up quota used then QuotaExceeded quota
    else let '(zone, s') := insert_zone now new_id user payload used s in Created zone s'
  else UnknownOwner.

(** How a conditional write ends: [Missing] is "no such zone for this user". *)
Inductive WriteResult (A : Type) :=
  | Written (a : A) (s : Store)
  | Missing
  | VersionMismatch (current : Z)
  | DatabaseError.
Arguments Written {A}. Arguments Missing {A}. Arguments VersionMismatch {A}. Arguments DatabaseError {A}.

(** [_VERSION_GUARD]. *)
Definition version_guard (expected : option Z) (z : Geozone) : bool :=
  match expected with None => true | Some v => version z =? v end.

(** [_explain_missing_row]. *)
Definition explain_missing_row {A} (zid user : Z) (db : Db) : WriteResult A :=
  match row_for zid user db with
  | Some z => VersionMismatch (version z)
  | None => Missing
  end.

(** [UPDATE ... SET ..., version = version + 1, updated_at = now()]; the version column
    is a 32-bit integer. *)
Definition update_row (now zid user : Z) (expected : option Z) (f : Geozone → option Geozone) (s : Store)
  : WriteResult GeozoneOut :=
  match row_for zid user (tables s) with
  | Some z =>
      if version_guard expected z then
        match f z with
        | Some z' =>
            if version z + 1 <? 2 ^ 31 then
              let z'' := mkZone (zone_user z) (zone_name z') (color z') (center z') (radius_m z')
                           (alert_on_enter z') (alert_on_exit z') (dwell_alert_interval_s z')
                           (version z + 1) (zone_created_at z) now in
              Written (zone_out zid z'') (mkStore (users s) (set_zones (<[zid := z'']> (geozones (tables s))) (tables s)))
            else DatabaseError
        | None => DatabaseError
        end
      else explain_missing_row zid user (tables s)
  | None => explain_missing_row zid user (tables s)
  end.

Definition replace (now zid user : Z) (payload : GeozoneCreate) (expected : option Z) (s : Store)
  : WriteResult GeozoneOut :=
  update_row now zid user expected
    (λ z, Some (mkZone (zone_user z) (p_name payload) (default (color z) (p_color payload))
                  (p_latitude payload, p_longitude payload) (p_radius_m payload)
                  (p_on_enter payload) (p_on_exit payload) (p_dwell payload)
                  (version z) (zone_created_at z) (zone_updated_at z))) s.

(** The value a column gets: unchanged, set, or (a NOT NULL column set to NULL) refused. *)
Definition column {A} (current : A) (change : option (option A)) : option A :=
  match change with None => Some current | Some v => v end.
(** [COALESCE(:longitude, ST_X(center))]. *)
Definition coalesce {A} (current : A) (change : option (option A)) : A :=
  match change with Some (Some v) => v | _ => current end.

Definition patch_row (c : GeozonePatch) (z : Geozone) : option Geozone :=
  match column (zone_name z) (c_name c), column (color z) (c_color c), column (radius_m z) (c_radius_m c),
        column (alert_on_enter z) (c_on_enter c), column (alert_on_exit z) (c_on_exit c) with
  | Some name, Some col, Some radius, Some enter, Some exit_ =>
      Some (mkZone (zone_user z) name col
              (coalesce (center z).1 (c_latitude c), coalesce (center z).2 (c_longitude c))
              radius enter exit_
              (match c_dwell c with Some d => d | None => dwell_alert_interval_s z end)
              (version z) (zone_created_at z) (zone_updated_at z))
  | _, _, _, _, _ => None
  end.

Definition patch (now zid user : Z) (changes : GeozonePatch) (expected : option Z) (s : Store)
  : WriteResult GeozoneOut :=
  if decide (changes = no_changes) then
    match get_for_user zid user (tables s) with Some z => Written z s | None => Missing end
  else update_row now zid user expected (patch_row changes) s.

(** An alert whose zone is gone. *)
Definition unlinked (al : AlertRow) : AlertRow :=
  mkAlert (alert_id al) (alert_user al) None (alert_zone_name al) (alert_device al) (alert_kind al)
    (alert_position al) (occurred_at al) (created_at al).

(** The row's presence goes with it ([ON DELETE CASCADE]); its alerts stay, without
    the reference ([ON DELETE SET NULL]). *)
Definition forget_zone (zid : Z) (db : Db) : Db :=
  mkDb (base.delete zid (geozones db)) (device_positions db)
    (filter (λ kp : Z * string * ZonePresence, kp.1.1 ≠ zid) (zone_presence db))
    ((λ al, if decide (alert_zone al = Some zid) then unlinked al else al) <$> alerts db)
    (alerts_identity db) (location_history db).

Definition delete (zid user : Z) (expected : option Z) (s : Store) : WriteResult unit :=
  match row_for zid user (tables s) with
  | Some z => if version_guard expected z then Written tt (mkStore (users s) (forget_zone zid (tables s)))
              else explain_missing_row zid user (tables s)
  | None => explain_missing_row zid user (tables s)
  end.

(** [presence_for_user]: every zone of the user, with its devices, the pairs capped as
    a whole in the order of (zone, device). *)
Definition pair_le (a b : Z * string) : Prop :=
  a.1 < b.1 ∨ (a.1 = b.1 ∧ String.leb a.2 b.2 = true).
#[export] Instance pair_le_dec a b : Decision (pair_le a b).
Proof. unfold pair_le. apply _. Defined.
(** [zone_presence p JOIN owned o ON o.id = p.zone_id]. *)
Definition own_presence (user : Z) (db : Db) : gmap (Z * string) ZonePresence :=
  filter (λ kp : Z * string * ZonePresence, is_Some (zones_of user db !! kp.1.1)) (zone_presence db).
Definition presence_for_user (user : Z) (max_devices : nat) (db : Db) : gmap Z (list string) :=
  let inside := take max_devices (merge_sort pair_le (elements (dom (own_presence user db)))) in
  map_imap (λ zid _, Some (snd <$> filter (λ p : Z * string, p.1 = zid) inside)) (zones_of user db).

(** ** The handlers *)

(** A request of an authenticated user; the clock and the fresh identifier are what the
    database and [uuid] give it. *)
Inductive ZoneRequest :=
  | ListZones (limit offset : nat)
  | CreateZone (now new_id : Z) (payload : GeozoneCreate)
  | GetZone (zid : Z)
  | ReplaceZone (now zid : Z) (payload : GeozoneCreate) (if_match : option string)
  | PatchZone (now zid : Z) (changes : GeozonePatch) (if_match : option string)
  | DeleteZone (zid : Z) (if_match : option string)
  | ZonePresenceOf
  | DevicesInZone (zid : Z) (limit : nat).

Inductive Reply :=
  | ReplyZones (items : list GeozoneOut) (total : nat)
  | ReplyZone (status : Z) (etag : string) (zone : GeozoneOut)
  | ReplyNoContent
  | ReplyPresence (zones : gmap Z (list string))
  | ReplyDevices (items : list DevicePositionOut)
  | ReplyProblem (status : Z) (code : string) (current_version : option Z).

(** The quotes of an ETag. *)
Definition is_quote (c : ascii) : bool := bool_decide (c = "034"%char).

Definition etag (version : Z) : string := String "034" (pretty version) +:+ String "034" "".

Section handlers.
Context `{Orjson}.
Variable int_of_str : string → option Z.     (* int(text), [None] on ValueError *)
Variable model_dump : GeozoneOut → json.     (* GeozoneOut.model_dump(mode="json") *)
Variable quota : nat.
Variable st_dwithin : Point → Point → float64 → bool.   (* PostGIS *)

(** [parse_if_match]: [None] is the 400 answer. *)
Definition parse_if_match (raw : option string) : option (option Z) :=
  match raw with
  | None => Some None
  | Some raw =>
      let candidate := strip py_space raw in
      if decide (candidate = "*") then Some None
      else
        let candidate := default candidate (drop_prefix "W/" candidate) in
        match int_of_str (strip is_quote candidate) with
        | None => None
        | Some v => Some (Some (if (- 2 ^ 31 <=? v) && (v <? 2 ^ 31) then v else 0))
        end
  end.

Definition zone_frame (op : string) (body : json) : string :=
  dumps (JObj [("type", JStr "zone"); ("op", JStr op); ("zone", body)]).

Definition not_found : Reply := ReplyProblem 404 "not_found" None.
Definition bad_request : Reply := ReplyProblem 400 "bad_request" None.
Definition stale_reply (current : Z) : Reply := ReplyProblem 412 "precondition_failed" (Some current).
Definition failed_reply : Reply := ReplyProblem 500 "internal_error" None.
Definition tag (status : Z) (zone : GeozoneOut) : Reply := ReplyZone status (etag (o_version zone)) zone.

(** [_REQUIRED_ON_PATCH]: whether a required field is blanked out. *)
Definition blanks (c : GeozonePatch) : bool :=
  bool_decide (c_name c = Some None) || bool_decide (c_color c = Some None) ||
  bool_decide (c_latitude c = Some None) || bool_decide (c_longitude c = Some None) ||
  bool_decide (c_radius_m c = Some None) || bool_decide (c_on_enter c = Some None) ||
  bool_decide (c_on_exit c = Some None).

(** A write that ended: the store is the committed one, the frames are what
    [_announce] publishes to the owner's channel. *)
Definition finish_write {A} (s : Store) (w : WriteResult A)
    (ok : A → Reply * list (string * string)) : Store * Reply * list (string * string) :=
  match w with
  | Written a s' => (s', (ok a).1, (ok a).2)
  | Missing => (s, not_found, [])
  | VersionMismatch v => (s, stale_reply v, [])
  | DatabaseError => (s, failed_reply, [])
  end.

Definition announced (user : Z) (op : string) (body : json) : list (string * string) :=
  [(user_channel user, zone_frame op body)].

Definition create_zone (user now new_id : Z) (payload : GeozoneCreate) (s : Store)
  : Store * Reply * list (string * string) :=
  match create now new_id user payload quota s with
  | UnknownOwner => (s, ReplyProblem 401 "unauthorized" None, [])
  | QuotaExceeded _ => (s, ReplyProblem 409 "zone_quota_exceeded" None, [])
  | Created zone s' => (s', tag 201 zone, announced user "created" (model_dump zone))
  end.

Definition replace_zone (user now zid : Z) (payload : GeozoneCreate) (if_match : option string) (s : Store)
  : Store * Reply * list (string * string) :=
  match parse_if_match if_match with
  | None => (s, bad_request, [])
  | Some expected =>
      finish_write s (replace now zid user payload expected s)
        (λ zone, (tag 200 zone, announced user "updated" (model_dump zone)))
  end.

Definition patch_zone (user now zid : Z) (changes : GeozonePatch) (if_match : option string) (s : Store)
  : Store * Reply * list (string * string) :=
  match parse_if_match if_match with
  | None => (s, bad_request, [])
  | Some expected =>
      if blanks changes then (s, ReplyProblem 422 "validation_error" None, [])
      else if decide (changes = no_changes) then
        (s, match get_for_user zid user (tables s) with
            | None => not_found
            | Some zone =>
                match expected with
                | Some v => if decide (v = o_version zone) then tag 200 zone else stale_reply (o_version zone)
                | None => tag 200 zone
                end
            end, [])
      else
        finish_write s (patch now zid user changes expected s)
          (λ zone, (tag 200 zone, announced user "updated" (model_dump zone)))
  end.

Definition delete_zone (user zid : Z) (if_match : option string) (s : Store)
  : Store * Reply * list (string * string) :=
  match parse_if_match if_match with
  | None => (s, bad_request, [])
  | Some expected =>
      finish_write s (delete zid user expected s)
        (λ _, (ReplyNoContent, announced user "deleted" (JObj [("id", JStr (uuid_str zid))])))
  end.

Definition PRESENCE_DEVICE_LIMIT : nat := Z.to_nat 20000.
Definition zone_presence_view (user : Z) (db : Db) : gmap Z (list string) :=
  presence_for_user user PRESENCE_DEVICE_LIMIT db.

Definition devices_in_zone (zid user : Z) (limit : nat) (db : Db) : Reply :=
  match get_for_user zid user db with
  | None => not_found
  | Some zone =>
      ReplyDevices (devices_inside st_dwithin (o_latitude zone) (o_longitude zone) (o_radius_m zone) limit db)
  end.

Definition handle_zone (user : Z) (r : ZoneRequest) (s : Store) : Store * Reply * list (string * string) :=
  match r with
  | ListZones limit offset =>
      (s, ReplyZones (list_for_user user limit offset (tables s)) (count_for_user user (tables s)), [])
  | CreateZone now new_id payload => create_zone user now new_id payload s
  | GetZone zid =>
      (s, match get_for_user zid user (tables s) with Some z => tag 200 z | None => not_found end, [])
  | ReplaceZone now zid payload if_match => replace_zone user now zid payload if_match s
  | PatchZone now zid changes if_match => patch_zone user now zid changes if_match s
  | DeleteZone zid if_match => delete_zone user zid if_match s
  | ZonePresenceOf => (s, ReplyPresence (zone_presence_view user (tables s)), [])
  | DevicesInZone zid limit => (s, devices_in_zone zid user limit (tables s), [])
  end.
End handlers.

(** ** Isolation *)

(** The foreign keys: a presence row is of a zone that exists, and so is the zone of an
    alert, which belongs to the user the alert is for. *)
Definition references_ok (db : Db) : Prop :=
  (∀ k p, zone_presence db !! k = Some p → is_Some (geozones db !! k.1)) ∧
  (∀ al zid, al ∈ alerts db → alert_zone al = Some zid →
     ∃ z, geozones db !! zid = Some z ∧ zone_user z = alert_user al).

(** Two stores in which a user has the same account, zones and presence rows, and the
    devices, which belong to nobody, are at the same positions. *)
Definition same_for (user : Z) (s s' : Store) : Prop :=
  (user ∈ users s ↔ user ∈ users s') ∧ zones_of user (tables s) = zones_of user (tables s') ∧
  own_presence user (tables s) = own_presence user (tables s') ∧
  device_positions (tables s) = device_positions (tables s').

(** Everything but the zones of [user] and what refers to them is as it was: of the
    alerts only the user's own lose the reference to a zone. *)
Definition others_kept (user : Z) (s t : Store) : Prop :=
  users t = users s ∧
  (∀ v, v ≠ user → zones_of v (tables t) = zones_of v (tables s)) ∧
  (∀ k p, (∀ z, geozones (tables s) !! k.1 = Some z → zone_user z ≠ user) →
          zone_presence (tables t) !! k = Some p ↔ zone_presence (tables s) !! k = Some p) ∧
  Forall2 (λ al al', al' = al ∨ alert_user al = user ∧ al' = unlinked al)
    (alerts (tables s)) (alerts (tables t)) ∧
  alerts_identity (tables t) = alerts_identity (tables s) ∧
  device_positions (tables t) = device_positions (tables s) ∧
  location_history (tables t) = location_history (tables s).

Lemma alerts_kept_refl user (l : list AlertRow) :
  Forall2 (λ al al', al' = al ∨ alert_user al = user ∧ al' = unlinked al) l l.
Proof. induction l; constructor; auto. Qed.

Lemma others_kept_refl user s : others_kept user s s.
Proof. unfold others_kept. auto 10 using alerts_kept_refl. Qed.
#[export] Hint Resolve others_kept_refl : geotrack.

Lemma row_for_zones zid user db : row_for zid user db = zones_of user db !! zid.
Proof.
  unfold row_for, zones_of. destruct (geozones db !! zid) as [z|] eqn:E.
  - case_decide as Hu; symmetry.
    + by apply map_lookup_filter_Some.
    + apply map_lookup_filter_None. right. intros z' E' Hz. cbn in Hz. congruence.
  - symmetry. apply map_lookup_filter_None. by left.
Qed.

Lemma row_for_Some zid user db z :
  row_for zid user db = Some z ↔ geozones db !! zid = Some z ∧ zone_user z = user.
Proof. unfold row_for. split_cases; naive_solver. Qed.

(** Writing a row of [user] that is, or becomes, theirs. *)
Lemma write_own zid user z s :
  zone_user z = user → (∀ z0, geozones (tables s) !! zid = Some z0 → zone_user z0 = user) →
  references_ok (tables s) →
  let t := mkStore (users s) (set_zones (<[zid := z]> (geozones (tables s))) (tables s)) in
  zones_of user (tables t) = <[zid := z]> (zones_of user (tables s)) ∧
  own_presence user (tables t) = own_presence user (tables s) ∧
  others_kept user s t ∧ references_ok (tables t).
Proof.
  intros Hz Hold [Hpres Halerts] t.
  assert (Hw : zones_of user (tables t) = <[zid := z]> (zones_of user (tables s)))
    by (unfold zones_of, t; cbn; by rewrite map_filter_insert_True).
  split_and!; [done| | |].
  - apply map_filter_ext. intros [k d] p Hk. cbn [fst]. rewrite Hw. destruct (decide (k = zid)) as [->|Hne].
    + rewrite lookup_insert_eq. split; [|by eexists]. intros _.
      destruct (Hpres _ _ Hk) as [z0 E]. cbn in E. rewrite <- row_for_zones. exists z0. apply row_for_Some. auto.
    + by rewrite lookup_insert_ne.
  - split_and!; try done; [|apply alerts_kept_refl]. intros v Hv. unfold zones_of. cbn.
    rewrite map_filter_insert_False by (cbn; congruence).
    apply map_eq. intros k. rewrite !map_lookup_filter. destruct (decide (k = zid)) as [->|].
    + rewrite lookup_delete_eq. cbn. destruct (geozones (tables s) !! zid) as [z0|] eqn:E; [|done]. cbn.
      specialize (Hold z0 eq_refl). by rewrite option_guard_False by congruence.
    + by rewrite lookup_delete_ne.
  - split; cbn.
    + intros k p Hk. destruct (Hpres _ _ Hk) as [z0 E]. destruct (decide (k.1 = zid)) as [->|];
        [rewrite lookup_insert_eq; by eexists|rewrite lookup_insert_ne by done; by eexists].
    + intros al k Hal Ek. destruct (Halerts al k Hal Ek) as (z0 & E & Ez).
      destruct (decide (k = zid)) as [->|]; [rewrite lookup_insert_eq|rewrite lookup_insert_ne by done]; eauto.
      exists z. split; [done|]. by rewrite <- Ez, (Hold z0 E).
Qed.

Lemma forget_own zid user z s :
  row_for zid user (tables s) = Some z → references_ok (tables s) →
  let t := mkStore (users s) (forget_zone zid (tables s)) in
  zones_of user (tables t) = base.delete zid (zones_of user (tables s)) ∧
  own_presence user (tables t) =
    filter (λ kp : Z * string * ZonePresence, kp.1.1 ≠ zid) (own_presence user (tables s)) ∧
  others_kept user s t ∧ references_ok (tables t).
Proof.
  intros [Ez Hz]%row_for_Some [Hpres Halerts] t.
  assert (Hw : zones_of user (tables t) = base.delete zid (zones_of user (tables s)))
    by (unfold zones_of, t; cbn; by rewrite map_filter_delete).
  split_and!; [done| | |].
  - apply map_eq. intros [k d]. unfold own_presence. rewrite Hw. apply option_eq. intros p.
    rewrite !map_lookup_filter_Some. cbn. rewrite !map_lookup_filter_Some, lookup_delete_is_Some. cbn. naive_solver.
  - split_and!; try done.
    + intros v Hv. unfold zones_of; cbn. rewrite map_filter_delete. apply delete_id.
      apply map_lookup_filter_None. right. intros z' E'. cbn. congruence.
    + intros k p Hk. cbn. rewrite map_lookup_filter_Some. cbn. split; [by intros []|]. intros Hp.
      split; [done|]. intros E. rewrite E in Hk. by apply (Hk z Ez).
    + cbn. apply Forall2_fmap_r, Forall_Forall2_diag, Forall_forall. intros al Hal. cbn.
      case_decide as Eal; [|by left]. right. split; [|done].
      destruct (Halerts al zid Hal Eal) as (z0 & E & Eu). congruence.
  - split; cbn.
    + intros k p [Hk Hne]%map_lookup_filter_Some. cbn in Hne. rewrite lookup_delete_ne by done. by apply (Hpres k p).
    + intros al k (al0 & -> & Hal)%list_elem_of_fmap Ek. case_decide as Eal; [done|].
      destruct (Halerts al0 k Hal Ek) as (z0 & E & Eu). exists z0. rewrite lookup_delete_ne by congruence. done.
Qed.

(** The relation between the ends of the same write in two indistinguishable stores. *)
Definition same_write {A} (user : Z) (s s' : Store) (w w' : WriteResult A) : Prop :=
  match w, w' with
  | Written a t, Written a' t' =>
      a = a' ∧ same_for user t t' ∧ others_kept user s t ∧ references_ok (tables t)
  | Missing, Missing | DatabaseError, DatabaseError => True
  | VersionMismatch v, VersionMismatch v' => v = v'
  | _, _ => False
  end.

Section isolation.
Context (user : Z) (s s' : Store) (Hsame : same_for user s s').
Context (Href : references_ok (tables s)) (Href' : references_ok (tables s')).

Lemma same_row zid : row_for zid user (tables s') = row_for zid user (tables s).
Proof. rewrite !row_for_zones. by destruct Hsame as (_ & -> & _). Qed.

Lemma same_written zid z :
  zone_user z = user → (∀ z0, geozones (tables s) !! zid = Some z0 → zone_user z0 = user) →
  (∀ z0, geozones (tables s') !! zid = Some z0 → zone_user z0 = user) →
  let write s := mkStore (users s) (set_zones (<[zid := z]> (geozones (tables s))) (tables s)) in
  same_for user (write s) (write s') ∧ others_kept user s (write s) ∧ references_ok (tables (write s)).
Proof.
  intros Hz Hold Hold' write. destruct Hsame as (Hu & Hzs & Hp & Hd).
  destruct (write_own zid user z s) as (Hw & Hwp & Ho & Hr); [done..|].
  destruct (write_own zid user z s') as (Hw' & Hwp' & _); [done..|].
  split; [|done]. split_and!; [done| | |done].
  - unfold write. rewrite Hw, Hw'. by rewrite Hzs.
  - unfold write. by rewrite Hwp, Hwp'.
Qed.

Lemma same_explain {A} zid :
  same_write user s s' (explain_missing_row (A := A) zid user (tables s))
    (explain_missing_row zid user (tables s')).
Proof. unfold explain_missing_row. rewrite same_row. by destruct (row_for _ _ _). Qed.

Lemma same_update now zid expected f :
  same_write user s s' (update_row now zid user expected f s) (update_row now zid user expected f s').
Proof.
  unfold update_row. pose proof (@same_explain GeozoneOut zid) as He. rewrite same_row.
  destruct (row_for zid user (tables s)) as [z|] eqn:E; [|done].
  destruct (version_guard expected z); [|done]. destruct (f z) as [z'|]; [|done].
  destruct (_ <? _); [|done]. set (z'' := mkZone _ _ _ _ _ _ _ _ _ _ _).
  pose proof (same_row zid) as E'. rewrite E in E'.
  apply row_for_Some in E as [E Hz], E' as [E' _]. split; [done|].
  apply same_written; [done|congruence|congruence].
Qed.

Lemma same_delete zid expected :
  same_write user s s' (delete zid user expected s) (delete zid user expected s').
Proof.
  unfold delete. pose proof (@same_explain unit zid) as He. rewrite same_row.
  destruct (row_for zid user (tables s)) as [z|] eqn:E; [|done].
  destruct (version_guard expected z); [|done].
  destruct (forget_own zid user z s E Href) as (Hw & Hwp & Ho & Hr).
  destruct (forget_own zid user z s') as (Hw' & Hwp' & _); [by rewrite same_row|done|].
  destruct Hsame as (Hu & Hzs & Hp & Hd). split; [done|]. split; [|done].
  split_and!; [done| | |done]; [rewrite Hw, Hw'; by rewrite Hzs|rewrite Hwp, Hwp'; by rewrite Hp].
Qed.
End isolation.

(** ** Optimistic concurrency *)

(** The requests that write the zone [zid]. A PATCH without changes writes nothing. *)
Definition targets (zid : Z) (r : ZoneRequest) : bool :=
  match r with
  | ReplaceZone _ z _ _ | DeleteZone z _ => bool_decide (z = zid)
  | PatchZone _ z c _ => bool_decide (z = zid) && bool_decide (c ≠ no_changes)
  | _ => false
  end.
Definition if_match_of (r : ZoneRequest) : option string :=
  match r with
  | ReplaceZone _ _ _ m | PatchZone _ _ _ m | DeleteZone _ m => m
  | _ => None
  end.
Definition creates (zid : Z) (r : ZoneRequest) : bool :=
  match r with CreateZone _ z _ => bool_decide (z = zid) | _ => false end.

Definition succeeded (reply : Reply) : bool :=
  match reply with ReplyZone _ _ _ | ReplyNoContent => true | _ => false end.

(** The version a zone is at. *)
Definition version_of (zid : Z) (s : Store) : option Z := version <$> geozones (tables s) !! zid.

Section versions.
Context `{Orjson} (int_of_str : string → option Z) (model_dump : GeozoneOut → json) (quota : nat).
Context (st_dwithin : Point → Point → float64 → bool).
Local Notation handle_zone := (handle_zone int_of_str model_dump quota st_dwithin).
Local Notation parse_if_match := (parse_if_match int_of_str).

Lemma finish_ok {A} s (w : WriteResult A) ok :
  (∀ a, succeeded (ok a).1 = true) →
  let '(t, reply, _) := finish_write s w ok in
  (succeeded reply = false ∧ t = s) ∨ (succeeded reply = true ∧ ∃ a, w = Written a t).
Proof. intros Hok. destruct w; cbn; eauto. Qed.

(** What a successful update or deletion did to the zone. *)
Lemma update_version now zid user expected f s a t :
  update_row now zid user expected f s = Written a t →
  ∃ z, geozones (tables s) !! zid = Some z ∧ zone_user z = user ∧
       (∀ v, expected = Some v → v = version z) ∧ version_of zid t = Some (version z + 1) ∧
       o_version a = version z + 1 ∧ ∀ k, k ≠ zid → geozones (tables t) !! k = geozones (tables s) !! k.
Proof.
  unfold update_row, explain_missing_row. destruct (row_for zid user (tables s)) as [z|] eqn:E; [|done].
  destruct (version_guard expected z) eqn:Eg; [|done]. destruct (f z); [|done].
  destruct (_ <? _); [|done]. intros [= <- <-]. apply row_for_Some in E as [E Hz]. exists z.
  split_and!; [done|done| | |done|].
  - intros v ->. cbn in Eg. lia.
  - unfold version_of. cbn. by rewrite lookup_insert_eq.
  - intros k Hk. cbn. by rewrite lookup_insert_ne.
Qed.

Lemma delete_version zid user expected s a t :
  delete zid user expected s = Written a t →
  ∃ z, geozones (tables s) !! zid = Some z ∧ zone_user z = user ∧
       (∀ v, expected = Some v → v = version z) ∧ version_of zid t = None ∧
       ∀ k, k ≠ zid → geozones (tables t) !! k = geozones (tables s) !! k.
Proof.
  unfold delete, explain_missing_row. destruct (row_for zid user (tables s)) as [z|] eqn:E; [|done].
  destruct (version_guard expected z) eqn:Eg; [|done]. intros [= <- <-]. apply row_for_Some in E as [E Hz].
  exists z. split_and!; [done|done| | |].
  - intros v ->. cbn in Eg. lia.
  - unfold version_of. cbn. by rewrite lookup_delete_eq.
  - intros k Hk. cbn. by rewrite lookup_delete_ne.
Qed.

(** A request either fails and changes nothing, or moves its zone forward: to the next
    version or out of existence. *)
Lemma request_effect user r zid s :
  targets zid r = true →
  let '(t, reply, _) := handle_zone user r s in
  (succeeded reply = false ∧ t = s) ∨
  (succeeded reply = true ∧ ∃ z expected, geozones (tables s) !! zid = Some z ∧ zone_user z = user ∧
     parse_if_match (if_match_of r) = Some expected ∧ (∀ v, expected = Some v → v = version z) ∧
     (version_of zid t = Some (version z + 1) ∨ version_of zid t = None) ∧
     ∀ k, k ≠ zid → geozones (tables t) !! k = geozones (tables s) !! k).
Proof.
  intros Ht. destruct r as [| | |now z p m|now z c m|z m| |]; try done; cbn in Ht |- *.
  - apply bool_decide_eq_true in Ht as ->.
    unfold replace_zone. destruct (parse_if_match m) as [expected|] eqn:Em; [|by left].
    pose proof (finish_ok s (replace now zid user p expected s)
      (λ zone, (tag 200 zone, announced user "updated" (model_dump zone))) ltac:(done)) as Hf.
    destruct (finish_write _ _ _) as [[t reply] out]. destruct Hf as [?|[? [a Hw]]]; [by left|right].
    split; [done|]. apply update_version in Hw as (z & ? & ? & ? & ? & ? & ?). eauto 12.
  - apply andb_true_iff in Ht as [->%bool_decide_eq_true Hc%bool_decide_eq_true].
    unfold patch_zone. destruct (parse_if_match m) as [expected|] eqn:Em; [|by left].
    destruct (blanks c); [by left|]. rewrite decide_False by done. unfold patch. rewrite decide_False by done.
    pose proof (finish_ok s (update_row now zid user expected (patch_row c) s)
      (λ zone, (tag 200 zone, announced user "updated" (model_dump zone))) ltac:(done)) as Hf.
    destruct (finish_write _ _ _) as [[t reply] out]. destruct Hf as [?|[? [a Hw]]]; [by left|right].
    split; [done|]. apply update_version in Hw as (z & ? & ? & ? & ? & ? & ?). eauto 12.
  - apply bool_decide_eq_true in Ht as ->.
    unfold delete_zone. destruct (parse_if_match m) as [expected|] eqn:Em; [|by left].
    pose proof (finish_ok s (delete zid user expected s)
      (λ _, (ReplyNoContent, announced user "deleted" (JObj [("id", JStr (uuid_str zid))]))) ltac:(done)) as Hf.
    destruct (finish_write _ _ _) as [[t reply] out]. destruct Hf as [?|[? [a Hw]]]; [by left|right].
    split; [done|]. apply delete_version in Hw as (z & ? & ? & ? & ? & ?). eauto 12.
Qed.

Lemma untargeted_kept user r zid s :
  targets zid r = false → creates zid r = false →
  geozones (tables (handle_zone user r s).1.1) !! zid = geozones (tables s) !! zid.
Proof.
  intros Ht Hc.
  assert (Hk : ∀ k, targets k r = true →
    geozones (tables (handle_zone user r s).1.1) !! zid = geozones (tables s) !! zid).
  { intros k Hk. pose proof (request_effect user r k s Hk) as He.
    destruct (handle_zone user r s) as [[t reply] out]; cbn.
    destruct He as [[_ ->]|[_ (z & e & _ & _ & _ & _ & _ & Hkeep)]]; [done|].
    apply Hkeep. intros ->. congruence. }
  destruct r as [|now id p| |now z p m|now z c m|z m| |]; try done.
  - cbn. unfold create_zone, create. destruct (owner_locked _ _); [|done]. destruct (quota_used_up _ _); [done|].
    cbn in Hc. apply bool_decide_eq_false in Hc. cbn. by rewrite lookup_insert_ne.
  - apply (Hk z), bool_decide_eq_true. done.
  - destruct (decide (c = no_changes)) as [->|Hne].
    + cbn. unfold patch_zone. by destruct (parse_if_match m).
    + apply (Hk z). cbn. apply andb_true_iff. split; by apply bool_decide_eq_true.
  - apply (Hk z), bool_decide_eq_true. done.
Qed.

(** How many of the requests that name version [v] of zone [zid] succeed, when the
    requests are served one after the other. *)
Fixpoint wins (zid v : Z) (l : list (Z * ZoneRequest)) (s : Store) : nat :=
  match l with
  | [] => 0
  | (user, r) :: l' =>
      let '(t, reply, _) := handle_zone user r s in
      ((if targets zid r && bool_decide (parse_if_match (if_match_of r) = Some (Some v)) && succeeded reply
        then 1 else 0) + wins zid v l' t)%nat
  end.

(** Once the zone is past a version, or gone, naming that version never succeeds. *)
Definition past (zid v : Z) (s : Store) : Prop := ∀ v', version_of zid s = Some v' → v < v'.

Lemma past_step user r zid v s :
  creates zid r = false → past zid v s → past zid v (handle_zone user r s).1.1.
Proof.
  intros Hc Hp. destruct (targets zid r) eqn:Ht.
  - pose proof (request_effect user r zid s Ht) as He.
    destruct (handle_zone user r s) as [[t reply] out]; cbn.
    destruct He as [[_ ->]|[_ (z & e & Hz & _ & _ & _ & Hv & _)]]; [done|]. intros v' E.
    assert (v < version z) by (apply Hp; unfold version_of; by rewrite Hz).
    destruct Hv as [Hv|Hv]; rewrite Hv in E; simplify_eq. lia.
  - unfold past, version_of. by rewrite untargeted_kept.
Qed.

Lemma past_no_wins zid v l s :
  Forall (λ ur, creates zid ur.2 = false) l → past zid v s → wins zid v l s = 0%nat.
Proof.
  revert s. induction l as [|[user r] l IH]; intros s Hc Hp; [done|].
  apply Forall_cons in Hc as [Hc Hcs]. cbn in Hc |- *.
  pose proof (past_step user r zid v s Hc Hp) as Hp'.
  destruct (targets zid r) eqn:Ht; cbn.
  - pose proof (request_effect user r zid s Ht) as He.
    destruct (handle_zone user r s) as [[t reply] out]; cbn in Hp'. rewrite (IH t) by done.
    case_bool_decide as Hm; [|done]. destruct He as [[-> _]|[_ (z & e & Hz & _ & Hm' & Hv & _)]]; [done|].
    rewrite Hm in Hm'. simplify_eq. specialize (Hv v eq_refl). specialize (Hp (version z)).
    unfold version_of in Hp. rewrite Hz in Hp. specialize (Hp eq_refl). lia.
  - destruct (handle_zone user r s) as [[t reply] out]; cbn in Hp'. by rewrite (IH t).
Qed.
End versions.

(** ** The quota under concurrent requests *)

(** A create request in progress, at the points where it awaits the database. *)
Inductive CreateTx :=
  | Locked (user : Z)                  (* holds the owner's row lock *)
  | Counted (user : Z) (used : nat)    (* read the count *)
  | Inserted (user zid : Z) (z : Geozone).  (* inserted, not committed *)
Definition tx_user (t : CreateTx) : Z :=
  match t with Locked u | Counted u _ | Inserted u _ _ => u end.

(** The committed store, and the requests between lock and commit. Row locks of
    [SELECT ... FOR UPDATE] are held until the end of the transaction: a lock is taken
    only while no transaction in progress is of the same user. *)
Record QuotaState := mkQuota { committed : Store; txs : gmap nat CreateTx }.

Section quota.
Variable quota : nat.

Inductive quota_step : QuotaState → QuotaState → Prop :=
  | q_lock q t user : txs q !! t = None → owner_locked user (committed q) = true →
      (∀ t' tx, txs q !! t' = Some tx → tx_user tx ≠ user) →
      quota_step q (mkQuota (committed q) (<[t := Locked user]> (txs q)))
  | q_count q t user : txs q !! t = Some (Locked user) →
      quota_step q (mkQuota (committed q)
        (<[t := Counted user (count_for_user user (tables (committed q)))]> (txs q)))
  | q_insert q t user used now new_id payload : txs q !! t = Some (Counted user used) →
      quota_used_up quota used = false → geozones (tables (committed q)) !! new_id = None →
      ∀ z, geozones (tables (insert_zone now new_id user payload used (committed q)).2) !! new_id = Some z →
      quota_step q (mkQuota (committed q) (<[t := Inserted user new_id z]> (txs q)))
  | q_commit q t user new_id z : txs q !! t = Some (Inserted user new_id z) →
      quota_step q (mkQuota
        (mkStore (users (committed q))
           (set_zones (<[new_id := z]> (geozones (tables (committed q)))) (tables (committed q))))
        (base.delete t (txs q)))
  (* the quota is used up, the client goes away, the database fails *)
  | q_abort q t : quota_step q (mkQuota (committed q) (base.delete t (txs q)))
  (* any other request or batch: no zone of anyone appears *)
  | q_other q s' : users s' = users (committed q) →
      (∀ user, (count_for_user user (tables s') ≤ count_for_user user (tables (committed q)))%nat) →
      quota_step q (mkQuota s' (txs q)).

Record quota_ok (q : QuotaState) : Prop := {
  quota_bound user : (count_for_user user (tables (committed q)) ≤ quota)%nat;
  (* the lock: one transaction per user *)
  quota_locked t t' tx tx' : txs q !! t = Some tx → txs q !! t' = Some tx' →
    tx_user tx = tx_user tx' → t = t';
  (* a count that was read can only have gone down since *)
  quota_counted t user used : txs q !! t = Some (Counted user used) →
    (count_for_user user (tables (committed q)) ≤ used)%nat;
  quota_room t user zid z : txs q !! t = Some (Inserted user zid z) →
    zone_user z = user ∧ (count_for_user user (tables (committed q)) < quota)%nat }.

Lemma count_insert user zid z db :
  (count_for_user user (set_zones (<[zid := z]> (geozones db)) db)
   ≤ count_for_user user db + if decide (zone_user z = user) then 1 else 0)%nat.
Proof.
  unfold count_for_user, zones_of; cbn. case_decide as Hz.
  - rewrite map_filter_insert_True by done. rewrite map_size_insert. case_match; cbn; lia.
  - rewrite map_filter_insert_False by done. rewrite map_filter_delete, Nat.add_0_r.
    apply map_subseteq_size, delete_subseteq.
Qed.

(** Served alone, the steps of a request are [create]. *)
Lemma create_steps now new_id user payload s zone s' :
  create now new_id user payload quota s = Created zone s' → geozones (tables s) !! new_id = None →
  rtc quota_step (mkQuota s ∅) (mkQuota s' ∅).
Proof.
  unfold create. destruct (owner_locked user s) eqn:Eo; [|done].
  destruct (quota_used_up quota (count_for_user user (tables s))) eqn:Eq; [done|].
  intros Hc Hid. pose (used := count_for_user user (tables s)).
  destruct (geozones (tables (insert_zone now new_id user payload used s).2) !! new_id) as [z|] eqn:Ez.
  2:{ cbn in Ez. by rewrite lookup_insert_eq in Ez. }
  set (t1 := <[0%nat := Locked user]> (∅ : gmap nat CreateTx)). set (t2 := <[0%nat := Counted user used]> t1).
  set (t3 := <[0%nat := Inserted user new_id z]> t2).
  apply (rtc_l _ _ (mkQuota s t1)).
  { apply (q_lock (mkQuota s ∅) 0%nat user); [done|done|]. intros t' tx E. cbn in E. by rewrite lookup_empty in E. }
  apply (rtc_l _ _ (mkQuota s t2)).
  { apply (q_count (mkQuota s t1) 0%nat user). cbn. apply lookup_insert_eq. }
  apply (rtc_l _ _ (mkQuota s t3)).
  { apply (q_insert (mkQuota s t2) 0%nat user used now new_id payload); [cbn; apply lookup_insert_eq|done..]. }
  apply rtc_once.
  assert (s' = mkStore (users s) (set_zones (<[new_id := z]> (geozones (tables s))) (tables s))) as ->.
  { cbn in Hc, Ez. rewrite lookup_insert_eq in Ez. by simplify_eq. }
  assert (∅ = base.delete 0%nat t3) as ->.
  { apply map_eq. intros i. unfold t3, t2, t1. destruct (decide (i = 0%nat)) as [->|]; by simplify_map_eq. }
  apply (q_commit (mkQuota s t3) 0%nat user new_id z). cbn. apply lookup_insert_eq.
Qed.

Lemma quota_step_ok q q' : quota_ok q → quota_step q q' → quota_ok q'.
Proof.
  intros [Hb Hl Hc Hr] Hstep.
  destruct Hstep as [q t user Ht _ Hfree|q t user Ht|q t user used now id p Ht Hlt Hid z Hz
                    |q t user id z Ht|q t|q s' _ Hle]; split; cbn.
  all: try done.
  - intros t1 t2 x1 x2. rewrite !lookup_insert. repeat case_decide; subst; intros; simplify_eq/=; try done.
    + by destruct (Hfree t2 x2).
    + by destruct (Hfree t1 x1).
    + by eapply Hl.
  - intros t1 u n. rewrite lookup_insert. case_decide; [done|]. apply Hc.
  - intros t1 u k z. rewrite lookup_insert. case_decide; [done|]. apply Hr.
  - intros t1 t2 x1 x2. rewrite !lookup_insert. repeat case_decide; subst; intros; simplify_eq/=; try done; by eapply Hl.
  - intros t1 u n. rewrite lookup_insert. case_decide; [intros; by simplify_eq|]. apply Hc.
  - intros t1 u k z. rewrite lookup_insert. case_decide; [done|]. apply Hr.
  - intros t1 t2 x1 x2. rewrite !lookup_insert. repeat case_decide; subst; intros; simplify_eq/=; try done; by eapply Hl.
  - intros t1 u n. rewrite lookup_insert. case_decide; [done|]. apply Hc.
  - intros t1 u k z1. rewrite lookup_insert. case_decide; [|apply Hr]. intros; simplify_eq.
    cbn in Hz. rewrite lookup_insert_eq in Hz. simplify_eq. split; [done|].
    specialize (Hc _ _ _ Ht). apply Nat.leb_gt in Hlt. lia.
  - destruct (Hr _ _ _ _ Ht) as [Hu Hlt]. intros u.
    pose proof (count_insert u id z (tables (committed q))). specialize (Hb u).
    case_decide; subst; lia.
  - intros t1 t2 x1 x2 [_ H1]%lookup_delete_Some [_ H2]%lookup_delete_Some. by eapply Hl.
  - intros t1 u n [Hne H1]%lookup_delete_Some. specialize (Hc _ _ _ H1).
    pose proof (count_insert u id z (tables (committed q))) as Hi. case_decide as Hz; [|lia].
    destruct (Hr _ _ _ _ Ht) as [Hu _]. exfalso. apply Hne. eapply Hl; [done|done|]. cbn. congruence.
  - intros t1 u k z1 [Hne H1]%lookup_delete_Some. destruct (Hr _ _ _ _ H1) as [Hu1 Hlt1]. split; [done|].
    pose proof (count_insert u id z (tables (committed q))) as Hi. case_decide as Hz; [|lia].
    destruct (Hr _ _ _ _ Ht) as [Hu _]. exfalso. apply Hne. eapply Hl; [done|done|]. cbn. congruence.
  - intros t1 t2 x1 x2 [_ H1]%lookup_delete_Some [_ H2]%lookup_delete_Some. by eapply Hl.
  - intros t1 u n [Hne H1]%lookup_delete_Some. by eapply Hc.
  - intros t1 u k z1 [Hne H1]%lookup_delete_Some. by eapply Hr.
  - intros u. specialize (Hle u). specialize (Hb u). lia.
  - intros t1 u n H1. specialize (Hc _ _ _ H1). specialize (Hle u). lia.
  - intros t1 u k z1 H1. destruct (Hr _ _ _ _ H1). specialize (Hle u). split; [done|lia].
Qed.
End quota.

(** ** Properties *)

Definition zone_request_fresh (r : ZoneRequest) (s : Store) : Prop :=
  match r with CreateZone _ id _ => geozones (tables s) !! id = None | _ => True end.

(** C11: accounts are isolated. What the API answers a user, what it announces and what
    the user owns afterwards depend only on the user's own account, zones and presence
    rows, and on the positions of the devices, which every account may read: another
    user's zone answers exactly like one that does not exist. And no request changes a
    zone of another user, its presence, an alert of another user, a position or the
    history, or announces on another user's channel; the references between the tables
    stay intact. *)
Theorem zones_isolated `{Orjson} int_of_str model_dump quota st_dwithin user r s s' :
  same_for user s s' → references_ok (tables s) → references_ok (tables s') →
  zone_request_fresh r s → zone_request_fresh r s' →
  let '(t, reply, out) := handle_zone int_of_str model_dump quota st_dwithin user r s in
  let '(t', reply', out') := handle_zone int_of_str model_dump quota st_dwithin user r s' in
  reply = reply' ∧ out = out' ∧ same_for user t t' ∧ others_kept user s t ∧ references_ok (tables t) ∧
  Forall (λ m, m.1 = user_channel user) out.
Proof.
  intros Hs Href Href' Hf Hf'. pose proof Hs as (Hu & Hzs & Hp & Hd).
  assert (Hget : ∀ zid, get_for_user zid user (tables s') = get_for_user zid user (tables s))
    by (intros; unfold get_for_user; by rewrite (same_row user s s' Hs)).
  assert (Hcount : count_for_user user (tables s') = count_for_user user (tables s))
    by (unfold count_for_user; by rewrite Hzs).
  assert (Hfin : ∀ (A : Type) (w w' : WriteResult A) ok, same_write user s s' w w' →
    (∀ a, Forall (λ m : string * string, m.1 = user_channel user) (ok a).2) →
    let '(t, reply, out) := finish_write s w ok in
    let '(t', reply', out') := finish_write s' w' ok in
    reply = reply' ∧ out = out' ∧ same_for user t t' ∧ others_kept user s t ∧ references_ok (tables t) ∧
    Forall (λ m, m.1 = user_channel user) out).
  { intros A w w' ok Hw Hok. destruct w, w'; cbn in Hw |- *; try done; subst;
      try (split_and!; auto with geotrack; done).
    destruct Hw as (-> & ? & ? & ?). eauto 10. }
  destruct r as [limit offset|now id p|zid|now zid p m|now zid c m|zid m| |zid limit]; cbn in *.
  - rewrite Hcount. unfold list_for_user. rewrite Hzs. auto 10 with geotrack.
  - unfold create_zone, create. rewrite Hcount.
    assert (owner_locked user s' = owner_locked user s) as -> by (by apply bool_decide_ext).
    destruct (owner_locked user s); [|auto 10 with geotrack].
    destruct (quota_used_up _ _); [auto 10 with geotrack|]. unfold insert_zone. set (z := mkZone _ _ _ _ _ _ _ _ _ _ _).
    destruct (same_written user s s' Hs Href Href' id z) as (Hs' & Ho & Hr); [done|congruence|congruence|].
    split_and!; [done|done|exact Hs'|exact Ho|exact Hr|by repeat constructor].
  - rewrite Hget. auto 10 with geotrack.
  - unfold replace_zone. destruct (parse_if_match _ m); [|auto 10 with geotrack].
    apply Hfin; [by apply same_update|by repeat constructor].
  - unfold patch_zone. destruct (parse_if_match _ m); [|auto 10 with geotrack].
    destruct (blanks c); [auto 10 with geotrack|]. rewrite Hget.
    case_decide; [auto 10 with geotrack|].
    unfold patch. rewrite !decide_False by done. apply Hfin; [by apply same_update|by repeat constructor].
  - unfold delete_zone. destruct (parse_if_match _ m); [|auto 10 with geotrack].
    apply Hfin; [by apply same_delete|by repeat constructor].
  - unfold zone_presence_view, presence_for_user. rewrite Hzs, Hp. auto 10 with geotrack.
  - unfold devices_in_zone. rewrite Hget. destruct (get_for_user zid user (tables s)); [|auto 10 with geotrack].
    unfold devices_inside, select_positions. rewrite Hd. auto 10 with geotrack.
Qed.

(** C12: no update is lost. However requests to the zones interleave, of the writes that
    name the same version of a zone in If-Match at most one succeeds: the others were made
    without having seen its result, and are refused. A PATCH without any change is no
    write: it may succeed any number of times, and leaves the store as it is. *)
Theorem lost_update_prevented `{Orjson} int_of_str model_dump quota st_dwithin zid v l s :
  Forall (λ ur, creates zid ur.2 = false) l →
  (wins int_of_str model_dump quota st_dwithin zid v l s ≤ 1)%nat ∧
  ∀ user now m t, (handle_zone int_of_str model_dump quota st_dwithin user (PatchZone now zid no_changes m) t).1.1 = t.
Proof.
  intros Hl. split; [|intros user now m t; cbn; unfold patch_zone; by destruct (parse_if_match int_of_str m)].
  revert s Hl. induction l as [|[user r] l IH]; intros s Hc; [cbn; lia|].
  apply Forall_cons in Hc as [Hc Hcs]. cbn. destruct (targets zid r) eqn:Ht; cbn.
  - pose proof (request_effect int_of_str model_dump quota st_dwithin user r zid s Ht) as He.
    destruct (handle_zone _ _ _ _ user r s) as [[t reply] out].
    case_bool_decide as Hm; [|by apply IH]. cbn.
    destruct He as [[-> ->]|[-> (z & e & Hz & _ & Hm' & Hv & Ht' & _)]]; [by apply IH|].
    rewrite past_no_wins; [done|done|]. rewrite Hm in Hm'. simplify_eq. specialize (Hv v eq_refl). subst v.
    intros v' E. destruct Ht' as [Ht'|Ht']; rewrite Ht' in E; simplify_eq. lia.
  - destruct (handle_zone _ _ _ _ user r s) as [[t reply] out]. by apply IH.
Qed.

(** C13: the quota holds under concurrency. However create requests interleave between
    taking the owner's row lock, counting, inserting and committing, no account ever
    holds more zones than its quota. *)
Theorem quota_holds quota s0 q user :
  (∀ u, (count_for_user u (tables s0) ≤ quota)%nat) →
  rtc (quota_step quota) (mkQuota s0 ∅) q →
  (count_for_user user (tables (committed q)) ≤ quota)%nat.
Proof.
  intros H0 Hr. enough (quota_ok quota q) as Hok by apply (quota_bound _ _ Hok).
  revert q Hr. apply (rtc_ind_r (quota_ok quota)).
  - split; cbn; [done|intros *; by rewrite lookup_empty..].
  - intros q1 q2 _ Hstep Hok. by eapply quota_step_ok.
Qed.

(** ** The ETag a client holds lets its write through *)

(** The characters of a printed integer. *)
Definition int_char (c : ascii) : bool := between 48 57 c || bool_decide (c = "-"%char).

Lemma pretty_N_go_chars x s :
  Forall (λ c, int_char c = true) (chars s) → Forall (λ c, int_char c = true) (chars (pretty_N_go x s)).
Proof.
  revert s. induction (N.lt_wf_0 x) as [x _ IH]; intros s Hs.
  destruct (decide (x = 0%N)) as [->|Hx]; [done|].
  rewrite pretty_N_go_step by lia. apply IH; [apply N.div_lt; lia|]. cbn. constructor; [|done].
  assert (Hd : (x mod 10 < 10)%N) by (apply N.mod_lt; lia).
  apply Ref.digit_char in Hd. unfold Ref.digit in Hd. unfold int_char.
  by destruct (between 48 57 (pretty_N_char (x mod 10))).
Qed.
Lemma pretty_chars (z : Z) : Forall (λ c, int_char c = true) (chars (pretty z)).
Proof.
  assert (HN : ∀ n : N, Forall (λ c, int_char c = true) (chars (pretty n))).
  { intros n. unfold pretty, pretty_N. case_decide; [by repeat constructor|].
    apply pretty_N_go_chars. constructor. }
  rewrite Ref.pretty_Z_text. destruct (z <? 0); [|by rewrite string_nil_app].
  rewrite chars_app. apply Forall_app. split; [by repeat constructor|apply HN].
Qed.

Lemma parse_etag `{Orjson} int_of_str v :
  int_of_str (pretty v) = Some v → - 2 ^ 31 ≤ v < 2 ^ 31 →
  parse_if_match int_of_str (Some (etag v)) = Some (Some v).
Proof.
  intros Hi Hv. pose proof (pretty_chars v) as Hc. unfold parse_if_match.
  assert (Hq : ∀ c, int_char c = true → py_space c = false ∧ is_quote c = false).
  { intros [[] [] [] [] [] [] [] []]; cbv; try done. }
  assert (Hs : strip py_space (etag v) = etag v).
  { apply strip_id. unfold etag. rewrite chars_app. cbn [chars]. apply Forall_app. split; [|by repeat constructor].
    constructor; [done|]. eapply Forall_impl; [exact Hc|]. intros c Hcc. by apply Hq. }
  rewrite Hs. unfold etag. rewrite !string_cons_app. rewrite decide_False by done. cbn [drop_prefix].
  rewrite decide_False by done. cbn [default].
  assert (strip is_quote (String "034" (pretty v +:+ String "034" "")) = pretty v) as ->.
  { unfold strip. cbn [chars drop_leading]. change (is_quote "034") with true. cbn iota.
    assert (Hn : ∀ l, Forall (λ c, int_char c = true) l → drop_leading is_quote (l ++ ["034"%char]) = l ++ ["034"%char] ∨ l = []).
    { intros l Hl. destruct Hl as [|c l Hcc]; [by right|left]. cbn. by rewrite (proj2 (Hq c Hcc)). }
    rewrite chars_app. cbn [chars].
    assert (Hnil : chars (pretty v) ≠ []).
    { destruct (Ref.pretty_N_text (Z.abs_N v) "") as [(c & r & d & E & _) _].
      rewrite string_app_nil_r in E. rewrite Ref.pretty_Z_text, E. destruct (v <? 0); done. }
    destruct (Hn (chars (pretty v)) Hc) as [->|]; [|done]. rewrite rev_app_distr. cbn [rev app drop_leading].
    change (is_quote "034") with true. cbn iota.
    rewrite drop_leading_id; [by rewrite rev_involutive, of_chars_chars|].
    apply Forall_forall. intros c Hcc. rewrite list_elem_of_In, <- in_rev, <- list_elem_of_In in Hcc.
    eapply Forall_forall in Hc; [|done]. by apply Hq. }
  rewrite Hi. by rewrite (proj2 (andb_true_iff _ _)) by lia.
Qed.

(** the ETag a client was given is the If-Match that lets its next write through. If
    the zone is still at that version the replacement succeeds and answers the next
    version's ETag; if it has moved on, the answer is 412 with the current version and
    nothing is written. *)
Lemma etag_guards_write `{Orjson} int_of_str model_dump quota st_dwithin user now zid payload v z s :
  (∀ k, int_of_str (pretty k) = Some k) →
  geozones (tables s) !! zid = Some z → zone_user z = user →
  1 ≤ v < 2 ^ 31 → 1 ≤ version z < 2 ^ 31 - 1 →
  let '(t, reply, _) :=
    handle_zone int_of_str model_dump quota st_dwithin user (ReplaceZone now zid payload (Some (etag v))) s in
  if decide (v = version z) then
    ∃ out, reply = ReplyZone 200 (etag (v + 1)) out ∧ o_version out = v + 1 ∧
           o_name out = p_name payload ∧ row_for zid user (tables t) ≠ None
  else reply = ReplyProblem 412 "precondition_failed" (Some (version z)) ∧ t = s.
Proof.
  intros Hi Hz Hu Hv Hvz. cbn [handle_zone]. unfold replace_zone. rewrite parse_etag by (done || lia).
  unfold replace, update_row, explain_missing_row.
  assert (row_for zid user (tables s) = Some z) as -> by (by apply row_for_Some). cbn [version_guard].
  destruct (Z.eqb_spec (version z) v) as [E|E].
  - rewrite (proj2 (Z.ltb_lt _ _)) by lia. cbn. rewrite decide_True by done. subst v.
    eexists. split_and!; [done..|]. unfold row_for. cbn. rewrite lookup_insert_eq. cbn. by rewrite decide_True.
  - cbn. by rewrite decide_False.
Qed.

(** ** Two accounts with a zone each *)
Module ZoneSamples.
Definition dump (z : GeozoneOut) : json := JObj [("id", JStr (uuid_str (o_id z)))].
Definition zone (user : Z) : Geozone :=
  mkZone user "depot" "#3fb1ff" (flit 50, flit 30) (flit 100) true true None 3 0 0.
Definition tables_of (zs : gmap Z Geozone) : Db := mkDb zs ∅ ∅ [] no_identity ∅.
Definition s : Store := mkStore {[9; 8]} (tables_of {[1 := zone 9; 2 := zone 8]}).
Definition s' : Store := mkStore {[9]} (tables_of {[1 := zone 9]}).
Definition never (p q : Point) (r : float64) : bool := false.
Lemma s_refs : references_ok (tables s).
Proof. split; [intros k p E; cbn in E; by rewrite lookup_empty in E|intros al zid Hal; cbn in Hal; by apply not_elem_of_nil in Hal]. Qed.
Lemma s'_refs : references_ok (tables s').
Proof. split; [intros k p E; cbn in E; by rewrite lookup_empty in E|intros al zid Hal; cbn in Hal; by apply not_elem_of_nil in Hal]. Qed.
Definition body : GeozoneCreate := mkCreate "yard" (flit 51) (flit 31) (flit 200) None true false (Some 60).
End ZoneSamples.

(** Deleting the zone of another user and deleting one that does not exist. *)
Lemma zones_isolated_witness :
  let '(t, reply, out) := handle_zone (H := Ref.orjson) Ref.int_of ZoneSamples.dump 5 ZoneSamples.never 9 (DeleteZone 2 None) ZoneSamples.s in
  let '(t', reply', out') := handle_zone (H := Ref.orjson) Ref.int_of ZoneSamples.dump 5 ZoneSamples.never 9 (DeleteZone 2 None) ZoneSamples.s' in
  reply = reply' ∧ out = out' ∧ same_for 9 t t' ∧ others_kept 9 ZoneSamples.s t ∧ references_ok (tables t) ∧
  Forall (λ m, m.1 = user_channel 9) out.
Proof.
  apply (zones_isolated (H := Ref.orjson) Ref.int_of ZoneSamples.dump 5 ZoneSamples.never 9 (DeleteZone 2 None)
           ZoneSamples.s ZoneSamples.s'); [|exact ZoneSamples.s_refs|exact ZoneSamples.s'_refs|exact I|exact I].
  split; [cbn; set_solver|split; [vm_compute; reflexivity|split; vm_compute; reflexivity]].
Defined.

Lemma lost_update_prevented_witness :
  let l := [(9, ReplaceZone 5 1 ZoneSamples.body (Some (etag 3))); (9, DeleteZone 1 (Some (etag 3)))] in
  wins (H := Ref.orjson) Ref.int_of ZoneSamples.dump 5 ZoneSamples.never 1 3 l ZoneSamples.s = 1%nat ∧
  (wins (H := Ref.orjson) Ref.int_of ZoneSamples.dump 5 ZoneSamples.never 1 3 l ZoneSamples.s ≤ 1)%nat.
Proof.
  split; [vm_compute; reflexivity|].
  apply (lost_update_prevented (H := Ref.orjson) Ref.int_of ZoneSamples.dump 5 ZoneSamples.never 1 3
    [(9, ReplaceZone 5 1 ZoneSamples.body (Some (etag 3))); (9, DeleteZone 1 (Some (etag 3)))] ZoneSamples.s).
  repeat constructor.
Defined.

Lemma etag_guards_write_witness :
  let '(t, reply, _) :=
    handle_zone (H := Ref.orjson) Ref.int_of ZoneSamples.dump 5 ZoneSamples.never 9
      (ReplaceZone 5 1 ZoneSamples.body (Some (etag 3))) ZoneSamples.s in
  if decide (3 = version (ZoneSamples.zone 9)) then
    ∃ out, reply = ReplyZone 200 (etag 4) out ∧ o_version out = 4 ∧
           o_name out = "yard" ∧ row_for 1 9 (tables t) ≠ None
  else reply = ReplyProblem 412 "precondition_failed" (Some 3) ∧ t = ZoneSamples.s.
Proof.
  apply (etag_guards_write (H := Ref.orjson) Ref.int_of ZoneSamples.dump 5 ZoneSamples.never 9 5 1 ZoneSamples.body 3
           (ZoneSamples.zone 9) ZoneSamples.s Ref.int_of_pretty); [reflexivity|reflexivity|lia|cbn; lia].
Defined.

(** A request that locks, counts, inserts and commits while another waits. *)
Module QuotaDemo.
Definition z : Geozone := mkZone 9 "yard" "#ff4d4f" (flit 51, flit 31) (flit 200) true false (Some 60) 1 5 5.
Definition q0 : QuotaState := mkQuota ZoneSamples.s ∅.
Definition q1 : QuotaState := mkQuota ZoneSamples.s (<[0%nat := Locked 9]> (txs q0)).
Definition q2 : QuotaState := mkQuota ZoneSamples.s (<[0%nat := Counted 9 1]> (txs q1)).
Definition q3 : QuotaState := mkQuota ZoneSamples.s (<[0%nat := Inserted 9 3 z]> (txs q2)).
Definition q4 : QuotaState :=
  mkQuota (mkStore (users ZoneSamples.s)
             (set_zones (<[3 := z]> (geozones (tables ZoneSamples.s))) (tables ZoneSamples.s)))
    (base.delete 0%nat (txs q3)).

Lemma q4_reachable : rtc (quota_step 2) q0 q4.
Proof.
  apply (rtc_l _ _ q1); [apply (q_lock 2 q0 0%nat 9); [reflexivity|reflexivity|]|].
  { intros t' tx E. cbn in E; by rewrite lookup_empty in E. }
  apply (rtc_l _ _ q2); [apply (q_count 2 q1 0%nat 9); reflexivity|].
  apply (rtc_l _ _ q3).
  { apply (q_insert 2 q2 0%nat 9 1%nat 5 3 ZoneSamples.body); reflexivity. }
  apply rtc_once, (q_commit 2 q3 0%nat 9 3 z). reflexivity.
Qed.
End QuotaDemo.

Lemma quota_holds_witness :
  count_for_user 9 (tables (committed QuotaDemo.q4)) = 2%nat ∧
  (count_for_user 9 (tables (committed QuotaDemo.q4)) ≤ 2)%nat.
Proof.
  split; [vm_compute; reflexivity|].
  apply (quota_holds 2 ZoneSamples.s QuotaDemo.q4 9); [|exact QuotaDemo.q4_reachable].
  intros u. transitivity (size (geozones (tables ZoneSamples.s))); [|vm_compute; lia].
  apply map_subseteq_size, map_filter_subseteq.
Defined.
