(* ===== verification/Views.v ===== *)
(** * Two answers about the devices in a zone
    ([zone_presence] and [devices_in_zone] of src/geotrack/api/routes/geozones.py)

    The first reads the presence table the batch statement keeps, the second measures the
    stored positions. After every batch both are prefixes of one list, the devices stored
    inside the zone. *)
From stdpp Require Import sorting.
From S2P Require Import Prelude Floats Text Json Codec Ingest Batch Devicewise Devices Zones.

(** ** Both lists are in the order of the device *)

Definition leb_le (s t : string) : Prop := String.leb s t = true.
#[export] Instance leb_le_trans : Transitive leb_le.
Proof. intros s t v. apply string_leb_trans. Qed.

Lemma ordered_unique (l l' : list string) :
  Sorted leb_le l → Sorted leb_le l' → NoDup l → NoDup l' → (∀ d, d ∈ l ↔ d ∈ l') → l = l'.
Proof.
  intros Hs Hs' Hn Hn' He. apply (StronglySorted_unique_strong leb_le).
  - intros s t _ _. apply String.leb_antisym.
  - by apply Sorted_StronglySorted; [apply _|].
  - by apply Sorted_StronglySorted; [apply _|].
  - by apply NoDup_Permutation.
Qed.

Lemma Sorted_fmap {A B} (R : relation A) (R' : relation B) (f : A → B) (l : list A) :
  (∀ x y, R x y → R' (f x) (f y)) → Sorted R l → Sorted R' (f <$> l).
Proof.
  intros Hf. induction 1 as [|x l Hs IH Hhd]; cbn; constructor; [done|].
  destruct Hhd; cbn; constructor. by apply Hf.
Qed.

Section presence.
#[local] Instance pair_le_total : Total pair_le.
Proof.
  intros p q. unfold pair_le. destruct (String.leb_total p.2 q.2);
    destruct (Z.lt_trichotomy p.1 q.1) as [?|[?|?]]; naive_solver.
Qed.
#[local] Instance pair_le_trans : Transitive pair_le.
Proof.
  intros p q r [?|[? ?]] [?|[? ?]]; unfold pair_le; try lia. right. split; [lia|]. by eapply string_leb_trans.
Qed.

(** The cut falls inside one zone: the zones before it are whole, those after it empty. *)
Lemma take_one_zone (n : nat) (zid : Z) (l : list (Z * string)) :
  StronglySorted pair_le l →
  filter (λ p : Z * string, p.1 = zid) (take n l) =
  take (n - length (filter (λ p : Z * string, p.1 < zid) l)) (filter (λ p : Z * string, p.1 = zid) l).
Proof.
  intros Hs. revert n. induction Hs as [|p l Hs IH Hp]; intros n.
  { rewrite take_nil. cbn. by rewrite take_nil. }
  assert (Hge : ∀ q, q ∈ l → p.1 ≤ q.1).
  { intros q Hq. rewrite Forall_forall in Hp. destruct (Hp q Hq) as [?|[? _]]; lia. }
  assert (zid ≤ p.1 → filter (λ q : Z * string, q.1 < zid) l = []) as Hlow.
  { intros Hz. apply filter_none, Forall_forall. intros q Hq Hlt. specialize (Hge q Hq). lia. }
  destruct n as [|n]; [done|]. cbn [take]. rewrite !filter_cons.
  destruct (Z.lt_trichotomy p.1 zid) as [Hc|[Hc|Hc]].
  - rewrite (decide_True (P := p.1 < zid)), !(decide_False (P := p.1 = zid)) by lia. apply IH.
  - rewrite (decide_False (P := p.1 < zid)), !(decide_True (P := p.1 = zid)) by lia.
    rewrite Hlow by lia. cbn [length]. rewrite Nat.sub_0_r. cbn [take]. f_equal.
    specialize (IH n). rewrite Hlow, Nat.sub_0_r in IH by lia. exact IH.
  - rewrite (decide_False (P := p.1 < zid)), !(decide_False (P := p.1 = zid)) by lia.
    assert (filter (λ q : Z * string, q.1 = zid) l = []) as Hnone.
    { apply filter_none, Forall_forall. intros q Hq Hlt. specialize (Hge q Hq). lia. }
    rewrite Hnone, take_nil. apply filter_none, Forall_forall.
    intros q Hq%elem_of_take Hlt. destruct Hq as (i & Hi%list_elem_of_lookup_2 & _). specialize (Hge q Hi). lia.
Qed.

(** How many of the caller's presence rows are of zones listed before [zid]. *)
Definition pairs_before (user zid : Z) (db : Db) : nat :=
  length (filter (λ p : Z * string, p.1 < zid) (elements (dom (own_presence user db)))).

(** The devices of one zone, cut off where the answer as a whole is. *)
Lemma presence_list user n db zid z :
  zones_of user db !! zid = Some z →
  ∃ l, presence_for_user user n db !! zid = Some (take (n - pairs_before user zid db) l) ∧
       Sorted leb_le l ∧ NoDup l ∧ ∀ d, d ∈ l ↔ is_Some (zone_presence db !! (zid, d)).
Proof.
  intros Hz. unfold presence_for_user, pairs_before.
  set (rows := elements _). set (all := merge_sort pair_le rows).
  assert (Hperm : all ≡ₚ rows) by apply merge_sort_Permutation.
  assert (Hall : ∀ d, (zid, d) ∈ all ↔ is_Some (zone_presence db !! (zid, d))).
  { intros d. rewrite Hperm. unfold rows. rewrite elem_of_elements, elem_of_dom. unfold own_presence.
    rewrite map_lookup_filter. destruct (zone_presence db !! (zid, d)); cbn; [|done].
    rewrite option_guard_True by by eexists. done. }
  assert (Hnd : NoDup all) by (rewrite Hperm; apply NoDup_elements).
  assert (Hsorted : StronglySorted pair_le all)
    by (apply Sorted_StronglySorted; [apply _|]; apply Sorted_merge_sort, _).
  exists (snd <$> filter (λ p : Z * string, p.1 = zid) all).
  split.
  { rewrite map_lookup_imap, Hz. cbn. f_equal. rewrite take_one_zone by done.
    rewrite fmap_take. do 2 f_equal. apply Permutation_length. by rewrite Hperm. }
  assert (Hs : StronglySorted pair_le (filter (λ p : Z * string, p.1 = zid) all)) by by apply StronglySorted_filter.
  split_and!.
  - assert (Hin : ∀ p, p ∈ filter (λ p : Z * string, p.1 = zid) all → p.1 = zid)
      by (intros p [? _]%list_elem_of_filter; done).
    induction Hs as [|p l Hs IH Hp]; cbn; constructor; [apply IH; set_solver|].
    destruct l as [|q l]; cbn; constructor. apply Forall_cons in Hp as [[Hlt|[_ Hle]] _]; [|done].
    rewrite (Hin p), (Hin q) in Hlt by set_solver. lia.
  - apply NoDup_fmap_2_strong; [|by apply NoDup_filter].
    intros [z1 d1] [z2 d2] [H1 _]%list_elem_of_filter [H2 _]%list_elem_of_filter. cbn in *. congruence.
  - intros d. rewrite list_elem_of_fmap. split.
    + intros ([z' d'] & -> & [E Hd]%list_elem_of_filter). cbn in *. subst. by apply Hall.
    + intros Hd. exists (zid, d). split; [done|]. apply list_elem_of_filter. split; [done|]. by apply Hall.
Qed.
End presence.

#[local] Existing Instance device_le_total.

(** The devices of a circle. *)
Lemma inside_list (P : Point → bool) (limit : nat) db :
  ∃ l, d_device <$> select_positions P limit db = take limit l ∧ Sorted leb_le l ∧ NoDup l ∧
       ∀ d, d ∈ l ↔ ∃ dp, device_positions db !! d = Some dp ∧ P (position dp) = true.
Proof.
  unfold select_positions. set (all := merge_sort device_le _). exists (all.*1). split_and!.
  - rewrite <- list_fmap_compose, <- fmap_take. done.
  - apply (Sorted_fmap device_le); [done|]. apply Sorted_merge_sort, _.
  - unfold all. rewrite merge_sort_Permutation. apply (NoDup_key_filter fst), NoDup_fst_map_to_list.
  - intros d. unfold all. rewrite merge_sort_Permutation, list_elem_of_fmap. split.
    + intros ([d' dp] & -> & [Hp Hd%elem_of_map_to_list]%list_elem_of_filter). by exists dp.
    + intros (dp & Hd & Hp). exists (d, dp). split; [done|].
      apply list_elem_of_filter. split; [done|]. by apply elem_of_map_to_list.
Qed.

(** ** Properties *)

(** The presence rows of a zone are the devices stored inside it. *)
Definition presence_exact (st_dwithin : Point → Point → float64 → bool) (zid : Z) (z : Geozone) (db : Db) : Prop :=
  ∀ d, is_Some (zone_presence db !! (zid, d)) ↔
       ∃ dp, device_positions db !! d = Some dp ∧ st_dwithin (center z) (position dp) (radius_m z) = true.

Section batches.
Variable st_dwithin : Point → Point → float64 → bool.
Variable search_overlaps : Point → float64 → Point → bool.
(** What the stored polygon is for, and that a distance has no direction. *)
Hypothesis Hsearch : ∀ c r p, st_dwithin c p r = true → search_overlaps c r p = true.
Hypothesis Hsym : ∀ p q r, st_dwithin p q r = st_dwithin q p r.

Definition after_batches (batches : list (Z * list LocationRecord)) (db : Db) : Db :=
  foldl (λ db' b, batch_db st_dwithin search_overlaps b.1 db' b.2) db batches.

Lemma after_batches_zones batches db : geozones (after_batches batches db) = geozones db.
Proof.
  unfold after_batches. induction batches as [|b batches IH] using rev_ind; [done|]. by rewrite foldl_snoc.
Qed.

Lemma batches_keep_exact batches db zid z :
  geozones db !! zid = Some z → presence_exact st_dwithin zid z db →
  presence_exact st_dwithin zid z (after_batches batches db).
Proof.
  intros Hz Hex. induction batches as [|b batches IH] using rev_ind; [done|].
  unfold after_batches. rewrite foldl_snoc. apply (presence_stays_exact st_dwithin search_overlaps); [done| |done].
  by rewrite <- Hz, <- (after_batches_zones batches db).
Qed.
End batches.

(** ** Batches keep the references between the tables *)

Lemma alert_zone_owner now ids ts al :
  al ∈ number_alerts now ids ts →
  ∃ t, t ∈ ts ∧ alert_zone al = Some (tr_zone t) ∧ alert_user al = zone_user (tr_geozone t).
Proof.
  revert ids. induction ts as [|t ts IH]; intros ids; cbn; [by intros ?%elem_of_nil|].
  destruct (event_kind t); [intros [->|(t' & ? & ?)%IH]%elem_of_cons|intros (t' & ? & ?)%IH].
  - exists t. split; [by left|done].
  - exists t'. split; [by right|done].
  - exists t'. split; [by right|done].
Qed.

Lemma batch_references_ok st_dwithin search_overlaps now db storable :
  references_ok db → references_ok (batch_db st_dwithin search_overlaps now db storable).
Proof.
  assert (Htr : ∀ t, t ∈ transitions st_dwithin search_overlaps db (accepted db (latest_per_device storable)) →
    geozones db !! tr_zone t = Some (tr_geozone t)).
  { intros t (a & zid & z & _ & Hz & Ht)%elem_transitions. unfold transition_of in Ht.
    repeat case_match; simplify_eq; done. }
  intros [Hpres Halerts]. split.
  - intros [zid d] p. rewrite batch_db_presence. cbn [fst].
    destruct (find_key tr_key (zid, d) _) as [t|] eqn:Et; [|by apply Hpres].
    apply find_key_Some in Et as [Ht%Htr [= <- <-]]. intros _. by eexists.
  - intros al zid. rewrite batch_db_alerts, elem_of_app. intros [Hal|Hal] Ez; [by apply Halerts|].
    unfold batch_alerts in Hal. cbn in Hal. unfold new_alerts in Hal.
    apply alert_zone_owner in Hal as (t & Ht & Ez' & Eu). rewrite merge_sort_Permutation, list_elem_of_filter in Ht.
    destruct Ht as [_ Ht]. specialize (Htr t Ht). exists (tr_geozone t). rewrite Ez in Ez'.
    injection Ez' as ->. done.
Qed.

(** C9: the presence table is exact, and the two answers about a zone agree. If a zone's
    presence rows are precisely the devices stored inside it, they still are after any
    batches. Both its owner's answers then are prefixes of one list, the devices stored
    inside it in order: the one that measures the stored positions up to its limit, the
    one from the presence table up to what the cap of 20000 rows leaves to the zone after
    the caller's zones listed before it. Nobody else gets either. *)
Theorem zone_views_agree st_dwithin search_overlaps batches db zid user z :
  (∀ c r p, st_dwithin c p r = true → search_overlaps c r p = true) →
  (∀ p q r, st_dwithin p q r = st_dwithin q p r) →
  row_for zid user db = Some z → presence_exact st_dwithin zid z db →
  let db' := after_batches st_dwithin search_overlaps batches db in
  presence_exact st_dwithin zid z db' ∧
  (∃ inside, Sorted leb_le inside ∧ NoDup inside ∧
     (∀ d, d ∈ inside ↔ is_Some (zone_presence db' !! (zid, d))) ∧
     zone_presence_view user db' !! zid = Some (take (PRESENCE_DEVICE_LIMIT - pairs_before user zid db') inside) ∧
     (∀ limit, ∃ items, devices_in_zone st_dwithin zid user limit db' = ReplyDevices items ∧
        d_device <$> items = take limit inside)) ∧
  (∀ other limit, other ≠ user →
     zone_presence_view other db' !! zid = None ∧
     devices_in_zone st_dwithin zid other limit db' = not_found).
Proof.
  intros Hsearch Hsym Hrow Hex db'.
  assert (Hz : geozones db !! zid = Some z ∧ zone_user z = user).
  { unfold row_for in Hrow. destruct (geozones db !! zid) as [z'|]; [|done]. case_decide; by simplify_eq. }
  destruct Hz as [Hz Hu].
  assert (Hz' : geozones db' !! zid = Some z) by (unfold db'; by rewrite after_batches_zones).
  assert (Hex' : presence_exact st_dwithin zid z db') by (by apply batches_keep_exact).
  assert (Hrow' : ∀ v, row_for zid v db' = if decide (zone_user z = v) then Some z else None)
    by (intros v; unfold row_for; by rewrite Hz').
  assert (Hown : ∀ v, zones_of v db' !! zid = if decide (zone_user z = v) then Some z else None).
  { intros v. unfold zones_of. case_decide as Ev.
    - by apply map_lookup_filter_Some.
    - apply map_lookup_filter_None. right. intros z' Hz0 Ev'. cbn in Ev'. congruence. }
  split_and!; [done| |].
  - destruct (presence_list user PRESENCE_DEVICE_LIMIT db' zid z) as (inside & Hin & Hs & Hnd & He);
      [by rewrite Hown, decide_True|].
    exists inside. split_and!; [done..|]. intros limit.
    destruct (inside_list (λ pos, st_dwithin pos (center z) (radius_m z)) limit db') as (l & Hl & Hsl & Hndl & Hel).
    exists (devices_inside st_dwithin (center z).1 (center z).2 (radius_m z) limit db'). split.
    + unfold devices_in_zone, get_for_user. rewrite Hrow', decide_True by done. done.
    + unfold devices_inside. rewrite <- surjective_pairing, Hl. f_equal. apply ordered_unique; try done.
      intros d. rewrite He, Hel, (Hex' d). by setoid_rewrite Hsym at 1.
  - intros other limit Hne. split.
    + unfold zone_presence_view, presence_for_user. rewrite map_lookup_imap, Hown, decide_False by congruence. done.
    + unfold devices_in_zone, get_for_user. by rewrite Hrow', decide_False by congruence.
Qed.

Lemma zone_views_agree_witness :
  presence_exact BatchSamples.dwithin 1 BatchSamples.zone BatchSamples.db ∧
  zone_presence_view 9 BatchSamples.after !! 1 = Some ["van-7"] ∧
  ∃ items, devices_in_zone BatchSamples.dwithin 1 9 500 BatchSamples.after = ReplyDevices items ∧
           d_device <$> items = ["van-7"].
Proof.
  assert (Hex : presence_exact BatchSamples.dwithin 1 BatchSamples.zone BatchSamples.db).
  { intros d. cbn. rewrite !lookup_empty. split; [by intros []|by intros (? & [=] & _)]. }
  split; [exact Hex|].
  assert (Hsym : ∀ p q r, BatchSamples.dwithin p q r = BatchSamples.dwithin q p r).
  { intros p q r. unfold BatchSamples.dwithin. apply bool_decide_ext. split; congruence. }
  destruct (zone_views_agree BatchSamples.dwithin BatchSamples.overlaps [(1700000001000000, BatchSamples.batch)]
              BatchSamples.db 1 9 BatchSamples.zone (λ c r p, id) Hsym eq_refl Hex)
    as (_ & (inside & _ & _ & _ & Hin & Hl) & _).
  assert (Hv : zone_presence_view 9 BatchSamples.after !! 1 = Some ["van-7"]) by (vm_compute; reflexivity).
  split; [exact Hv|]. destruct (Hl 500%nat) as (items & Hitems & Heq).
  exists items. split; [exact Hitems|]. rewrite Heq.
  assert (take (PRESENCE_DEVICE_LIMIT - pairs_before 9 1 BatchSamples.after) inside = ["van-7"]) as Ht.
  { apply (inj Some). rewrite <- Hv. symmetry. exact Hin. }
  destruct inside as [|x [|y inside]]; [by rewrite take_nil in Ht| |].
  - assert (x = "van-7") as -> by (revert Ht; destruct (PRESENCE_DEVICE_LIMIT - _)%nat; cbn; [done|]; rewrite take_nil; congruence).
    reflexivity.
  - exfalso. revert Ht. assert ((PRESENCE_DEVICE_LIMIT - pairs_before 9 1 BatchSamples.after)%nat = PRESENCE_DEVICE_LIMIT) as ->
      by (apply Nat.eqb_eq; vm_compute; reflexivity).
    assert (PRESENCE_DEVICE_LIMIT = S (S (PRESENCE_DEVICE_LIMIT - 2))) as -> by (apply Nat.eqb_eq; vm_compute; reflexivity).
    cbn. congruence.
Defined.
