(* ===== verification/Registry.v ===== *)
(** * Which connections a replica holds, and for whom
    (src/geotrack/realtime/registry.py)

    Membership changes under a lock that is never held across an await, so [add] and
    [remove] are atomic up to the call of [_sync_user]; that call is a task of its own
    here, suspended at its user's lock or inside a subscription hook. *)
From S2P Require Import Prelude.

(** Users and connections by number. *)
Definition UserId : Type := Z.
Definition ConnId : Type := Z.

Inductive SyncState :=
  | Waiting              (* async with sync.lock *)
  | Checking             (* holds the lock, about to evaluate the loop condition *)
  | Hooking (first : bool).  (* holds the lock, awaits on_first or on_last *)

Record Registry := mkRegistry {
  by_user : gmap Z (gset Z);
  subscribed : gset Z;
  syncs : gmap nat (Z * SyncState) }.

Definition new_registry : Registry := mkRegistry ∅ ∅ ∅.

Definition connections_of (r : Registry) (u : Z) : gset Z := set_at (by_user r) u.

(** [add] up to [_sync_user]: [None] when the user is at the limit. *)
Definition add (u conn : Z) (limit : nat) (r : Registry) : option Registry :=
  if decide (limit ≤ size (connections_of r u))%nat then None
  else Some (mkRegistry (set_add u conn (by_user r)) (subscribed r) (syncs r)).

(** [remove] up to [_sync_user]: [None] when there is nothing to remove. *)
Definition remove (u conn : Z) (r : Registry) : option Registry :=
  if decide (conn ∈ connections_of r u)
  then Some (mkRegistry (set_drop u conn (by_user r)) (subscribed r) (syncs r))
  else None.

Definition for_user (u : Z) (r : Registry) : list Z := elements (connections_of r u).
Definition all (r : Registry) : list (Z * Z) :=
  p ← map_to_list (by_user r); (λ c, (p.1, c)) <$> elements (p.2 : gset Z).
Definition count (r : Registry) : nat :=
  foldr Nat.add 0%nat ((λ p : Z * gset Z, size p.2) <$> map_to_list (by_user r)).

Definition wanted (r : Registry) (u : Z) : Prop := is_Some (by_user r !! u).

Definition with_sync (t : nat) (u : Z) (st : option SyncState) (r : Registry) : Registry :=
  mkRegistry (by_user r) (subscribed r) (partial_alter (λ _, pair u <$> st) t (syncs r)).

(** No other task holds the lock of this user. *)
Definition lock_free (r : Registry) (u : Z) : Prop :=
  ∀ t st, syncs r !! t = Some (u, st) → st = Waiting.

Section registry.
Variable limit : nat.

Inductive registry_step : Registry → Registry → Prop :=
  | reg_add r u conn t r' : conn ∉ connections_of r u → syncs r !! t = None →
      add u conn limit r = Some r' →
      registry_step r (with_sync t u (Some Waiting) r')
  | reg_remove r u conn t r' : syncs r !! t = None → remove u conn r = Some r' →
      registry_step r (with_sync t u (Some Waiting) r')
  | reg_lock r t u : syncs r !! t = Some (u, Waiting) → lock_free r u →
      registry_step r (with_sync t u (Some Checking) r)
  (* the loop's condition: a hook to call, or nothing left to do *)
  | reg_first r t u : syncs r !! t = Some (u, Checking) → wanted r u → u ∉ subscribed r →
      registry_step r (with_sync t u (Some (Hooking true)) r)
  | reg_last r t u : syncs r !! t = Some (u, Checking) → ¬ wanted r u → u ∈ subscribed r →
      registry_step r (with_sync t u (Some (Hooking false)) r)
  | reg_done r t u : syncs r !! t = Some (u, Checking) → (wanted r u ↔ u ∈ subscribed r) →
      registry_step r (with_sync t u None r)
  (* the hook returned *)
  | reg_hooked r t u first : syncs r !! t = Some (u, Hooking first) →
      registry_step r (with_sync t u (Some Checking)
        (mkRegistry (by_user r)
           (if first then {[u]} ∪ subscribed r else subscribed r ∖ {[u]}) (syncs r))).

Definition idle (r : Registry) (u : Z) : Prop := ∀ t st, syncs r !! t ≠ Some (u, st).

Record registry_ok (r : Registry) : Prop := {
  reg_no_empty : no_empty (by_user r);
  reg_limit u : (size (connections_of r u) ≤ limit)%nat;
  reg_settled u : idle r u → (wanted r u ↔ u ∈ subscribed r);
  (* the lock: one task of a user at most is past it *)
  reg_lock_excl t t' u st st' : syncs r !! t = Some (u, st) → syncs r !! t' = Some (u, st') →
    st ≠ Waiting → st' ≠ Waiting → t = t';
  (* a hook is in flight for the direction that is still to be recorded *)
  reg_hook t u first : syncs r !! t = Some (u, Hooking first) →
    (u ∈ subscribed r ↔ first = false) }.

Lemma sync_lookup {A} (o : option A) (t t' : nat) (m : gmap nat A) :
  partial_alter (λ _, o) t m !! t' = if decide (t' = t) then o else m !! t'.
Proof.
  case_decide; subst; [by rewrite lookup_partial_alter_eq|by rewrite lookup_partial_alter_ne].
Qed.

(** Moving task [t] of user [u] leaves the other users' tasks as they were. *)
Lemma idle_elsewhere t u st r u' : u' ≠ u → idle (with_sync t u st r) u' →
  (∀ st', syncs r !! t ≠ Some (u', st')) → idle r u'.
Proof.
  intros Hne Hi Ht t' st' E. destruct (decide (t' = t)) as [->|Hne']; [by apply (Ht st')|].
  apply (Hi t' st'). cbn. by rewrite sync_lookup, decide_False by done.
Qed.

Lemma not_idle t u st r : ¬ idle (with_sync t u (Some st) r) u.
Proof. intros Hi. apply (Hi t st). cbn. by rewrite sync_lookup, decide_True. Qed.

(** A step that moves task [t] of [u] and may change [u]'s membership. *)
Lemma moved_task_ok r r' t u st :
  registry_ok r → no_empty (by_user r') → (∀ u', size (connections_of r' u') ≤ limit)%nat →
  (∀ u', u' ≠ u → by_user r' !! u' = by_user r !! u') →
  (∀ u', u' ≠ u → u' ∈ subscribed r' ↔ u' ∈ subscribed r) → syncs r' = syncs r →
  (∀ u' st', syncs r !! t = Some (u', st') → u' = u) →
  (st = None → wanted r' u ↔ u ∈ subscribed r') →
  (∀ st', st = Some st' → st' ≠ Waiting → ∀ t' st'', t' ≠ t → syncs r !! t' = Some (u, st'') → st'' = Waiting) →
  (∀ first, st = Some (Hooking first) → (u ∈ subscribed r' ↔ first = false)) →
  (∀ t' first, t' ≠ t → syncs r !! t' = Some (u, Hooking first) → (u ∈ subscribed r' ↔ first = false)) →
  registry_ok (with_sync t u st r').
Proof.
  intros [Hne Hl Hs Hx Hh] Hne' Hl' Hby Hsub Hsy Hown Hdone Hexcl Hhook Hothers.
  split; [done|done|..].
  - intros u' Hi. destruct (decide (u' = u)) as [->|Hu].
    + destruct st as [st|]; [by apply not_idle in Hi|]. by apply Hdone.
    + unfold wanted; cbn. rewrite Hby, Hsub by done. apply Hs.
      rewrite <- (Hsy) in Hown. intros t' st' E. rewrite <- Hsy in E.
      destruct (decide (t' = t)) as [->|]; [by apply Hu, (Hown _ _ E)|].
      apply (Hi t' st'). cbn. by rewrite sync_lookup, decide_False.
  - intros t1 t2 u' s1 s2. cbn. rewrite !sync_lookup, Hsy.
    repeat case_decide; subst; try done; intros E1 E2 N1 N2.
    + destruct st as [s|]; cbn in E1; [|done]. injection E1 as <- <-.
      exfalso. apply N2. by eapply Hexcl.
    + destruct st as [s|]; cbn in E2; [|done]. injection E2 as <- <-.
      exfalso. apply N1. by eapply Hexcl.
    + by eapply Hx.
  - intros t' u' first. cbn. rewrite sync_lookup, Hsy. case_decide.
    + destruct st as [s|]; cbn; [|done]. intros [= <- ->]. by apply Hhook.
    + intros E. destruct (decide (u' = u)) as [->|Hu]; [by eapply Hothers|].
      rewrite Hsub by done. by eapply Hh.
Qed.

Lemma lock_holder r t u st t' st' :
  registry_ok r → syncs r !! t = Some (u, st) → st ≠ Waiting → t' ≠ t →
  syncs r !! t' = Some (u, st') → st' = Waiting.
Proof.
  intros Hok Ht Hst Hne Ht'. destruct st'; [done|..]; exfalso; apply Hne;
    eapply (reg_lock_excl _ Hok); eauto.
Qed.

Lemma registry_step_ok r r' : registry_ok r → registry_step r r' → registry_ok r'.
Proof.
  intros Hok Hstep. pose proof Hok as [Hne Hl Hs Hx Hh].
  destruct Hstep as [r u conn t r' Hnew Ht Ha|r u conn t r' Ht Ha|r t u Ht Hf|r t u Ht Hw Hsub
    |r t u Ht Hw Hsub|r t u Ht Hc|r t u first Ht].
  - unfold add in Ha. case_decide as Hlim; [done|]. injection Ha as <-.
    eapply moved_task_ok; try done; cbn; try (intros; congruence).
    + by apply no_empty_add.
    + intros u'. destruct (decide (u' = u)) as [->|Hu].
      * unfold connections_of at 1, set_at, set_add. cbn. rewrite lookup_insert_eq. cbn.
        fold (connections_of r u). rewrite size_union by set_solver. rewrite size_singleton. lia.
      * unfold connections_of, set_at, set_add. cbn. rewrite lookup_insert_ne by done. apply Hl.
    + intros u' Hu. unfold set_add. by rewrite lookup_insert_ne by done.
    + intros t' first _ E. by eapply Hh.
  - unfold remove in Ha. case_decide as Hin; [|done]. injection Ha as <-.
    eapply moved_task_ok; try done; cbn; try (intros; congruence).
    + by apply no_empty_drop.
    + intros u'. etransitivity; [|apply (Hl u')]. apply subseteq_size. intros c.
      unfold connections_of. cbn. rewrite elem_set_drop. tauto.
    + intros u' Hu. unfold set_drop. destruct (by_user r !! u); [|done].
      case_decide; [by rewrite lookup_delete_ne by done|by rewrite lookup_insert_ne by done].
    + intros t' first _ E. by eapply Hh.
  - eapply moved_task_ok; try done; intros; simplify_eq; eauto.
  - eapply moved_task_ok; try done; intros; simplify_eq; eauto using lock_holder; by split.
  - eapply moved_task_ok; try done; intros; simplify_eq; eauto using lock_holder; by split.
  - eapply moved_task_ok; try done; intros; simplify_eq; eauto using lock_holder.
  - eapply moved_task_ok; try done; cbn.
    + intros u' Hu. destruct first; set_solver.
    + intros. by simplify_eq.
    + intros st' _ _ t' st'' Hne' Ht'. by eapply (lock_holder r t u (Hooking first)).
    + intros t' f Hne' Ht'. by assert (Hooking f = Waiting) by by eapply (lock_holder r t u (Hooking first)).
Qed.
End registry.

Lemma new_registry_ok limit : registry_ok limit new_registry.
Proof.
  split; cbn; try done.
  - intros u. change (size (∅ : gset Z) ≤ limit)%nat. rewrite size_empty. lia.
  - intros u _. unfold wanted; cbn. rewrite lookup_empty. split; [by intros []|set_solver].
Qed.

(** ** Properties *)

(** C22: in every state reachable by any interleaving of connects, disconnects and
    subscription hooks, no user has more connections on a replica than the limit; and
    once no hook or wait of a user is in progress, the replica is subscribed to that
    user's channel exactly when it holds one of its connections. *)
Theorem registry_settles limit r u :
  rtc (registry_step limit) new_registry r →
  (length (for_user u r) ≤ limit)%nat ∧
  (idle r u → (u ∈ subscribed r ↔ for_user u r ≠ [])).
Proof.
  intros Hr. assert (Hok : registry_ok limit r).
  { revert r Hr. apply (rtc_ind_r (registry_ok limit)); [apply new_registry_ok|].
    intros r1 r2 _ Hstep Hok. by eapply registry_step_ok. }
  split; [apply (reg_limit _ _ Hok)|]. intros Hi. rewrite <- (reg_settled _ _ Hok u Hi).
  unfold wanted, for_user, connections_of, set_at. destruct (by_user r !! u) as [cs|] eqn:E; cbn.
  - split; [|eauto]. intros _ Hnil. apply (reg_no_empty _ _ Hok _ _ E).
    apply elements_empty_iff in Hnil. by apply leibniz_equiv.
  - rewrite elements_empty. split; [by intros []|done].
Qed.

(** ** One user connects once, up to the completion of the subscription hook *)
Module RegistryDemo.
Definition admitted : Registry := mkRegistry (set_add 5 1 ∅) ∅ ∅.
Definition r1 : Registry := with_sync 0 5 (Some Waiting) admitted.
Definition r2 : Registry := with_sync 0 5 (Some Checking) r1.
Definition r3 : Registry := with_sync 0 5 (Some (Hooking true)) r2.
Definition r4 : Registry :=
  with_sync 0 5 (Some Checking) (mkRegistry (by_user r3) ({[5]} ∪ subscribed r3) (syncs r3)).
Definition r5 : Registry := with_sync 0 5 None r4.

Lemma r5_reachable : rtc (registry_step 3) new_registry r5.
Proof.
  apply (rtc_l _ _ r1); [apply reg_add with 1; [set_solver|reflexivity..]|].
  apply (rtc_l _ _ r2); [apply reg_lock; [reflexivity|]|].
  { intros t st E. destruct (decide (t = 0%nat)) as [->|]; [vm_compute in E; congruence|].
    unfold r1, with_sync in E. cbn in E. by rewrite lookup_partial_alter_ne in E. }
  apply (rtc_l _ _ r3); [apply reg_first; [reflexivity|by eexists|set_solver]|].
  apply (rtc_l _ _ r4); [apply (reg_hooked 3 r3 0 5 true); reflexivity|].
  apply rtc_once, reg_done; [reflexivity|]. split; [intros _; set_solver|intros _; by eexists].
Qed.
End RegistryDemo.

Lemma registry_settles_witness :
  for_user 5 RegistryDemo.r5 = [1] ∧ (length (for_user 5 RegistryDemo.r5) ≤ 3)%nat ∧
  (idle RegistryDemo.r5 5 → (5 ∈ subscribed RegistryDemo.r5 ↔ for_user 5 RegistryDemo.r5 ≠ [])).
Proof.
  split; [vm_compute; reflexivity|].
  apply (registry_settles 3 RegistryDemo.r5 5 RegistryDemo.r5_reachable).
Defined.
