(* ===== verification/Labels.v ===== *)
(** * The label of a session ([describe_client] and [_sanitised] of
    src/geotrack/realtime/sessions.py)

    A user agent is text: its UTF-8 bytes, read code point by code point. *)
From S2P Require Import Prelude Text.

(** ** Code points *)

(** The code points of a text, each by its own bytes. *)
Fixpoint code_points (s : string) : list string :=
  match s with
  | "" => []
  | String c s' =>
      match s' with
      | String c2 _ =>
          if cont c2 then match code_points s' with p :: ps => String c p :: ps | [] => [String c ""] end
          else String c "" :: code_points s'
      | "" => [String c ""]
      end
  end.

(** [c.isalnum()]: exact up to U+00FF, which is all a header holds, since the server decodes
    headers as Latin-1; [wide] answers for the code points past it. *)
Definition isalnum (wide : string → bool) (p : string) : bool :=
  match p with
  | String c "" => between 48 57 c || between 65 90 c || between 97 122 c
  | String c1 (String c2 "") =>
      if code c1 =? 194 then bool_decide (code c2 ∈ [170; 178; 179; 181; 185; 186; 188; 189; 190])
      else if code c1 =? 195 then negb (bool_decide (code c2 ∈ [151; 183]))
      else wide p
  | _ => wide p
  end.

Definition LABEL_EXTRA_CHARS : list string := [" "; "."; "-"; "_"].
Definition MAX_LABEL_LENGTH : nat := 40.

(** [strip()] of text in which the only white space is the space. *)
Fixpoint drop_spaces (l : list string) : list string :=
  match l with p :: l' => if decide (p = " ") then drop_spaces l' else l | [] => [] end.
Definition strip_spaces (l : list string) : list string := reverse (drop_spaces (reverse (drop_spaces l))).

Definition allowed (wide : string → bool) (p : string) : bool :=
  isalnum wide p || bool_decide (p ∈ LABEL_EXTRA_CHARS).

(** [_sanitised]. No code point is both alphanumeric and white space, so [strip] removes
    only spaces from what was kept. *)
Definition sanitised (wide : string → bool) (value : string) : string :=
  join "" (take MAX_LABEL_LENGTH (strip_spaces (filter (λ p, allowed wide p = true) (code_points value)))).

(** ** The label *)

Definition UNKNOWN_CLIENT : string := "Unknown device".
Definition BROWSERS : list (string * string) :=
  [("Edg/", "Edge"); ("OPR/", "Opera"); ("Firefox/", "Firefox"); ("Chrome/", "Chrome"); ("Safari/", "Safari")].
Definition PLATFORMS : list (string * string) :=
  [("Windows NT", "Windows"); ("Android", "Android"); ("iPhone", "iOS"); ("iPad", "iPadOS");
   ("CrOS", "ChromeOS"); ("Macintosh", "macOS"); ("Mac OS X", "macOS"); ("Linux", "Linux")].

Fixpoint first_token (table : list (string * string)) (user_agent : string) : option string :=
  match table with
  | [] => None
  | (token, name) :: rest => if contains token user_agent then Some name else first_token rest user_agent
  end.

(** What comes before the first occurrence of a character. *)
Fixpoint before (sep : ascii) (s : string) : string :=
  match s with
  | "" => ""
  | String c s' => if decide (c = sep) then "" else String c (before sep s')
  end.

Definition describe_client (wide : string → bool) (user_agent : option string) : string :=
  match user_agent with
  | None | Some "" => UNKNOWN_CLIENT
  | Some ua =>
      match first_token BROWSERS ua, first_token PLATFORMS ua with
      | Some b, Some p => b +:+ " on " +:+ p
      | Some b, None => b
      | None, Some p => p
      | None, None =>
          let label := sanitised wide (before "/"%char ua) in
          if decide (label = "") then UNKNOWN_CLIENT else label
      end
  end.

(** ** Lemmas *)

(** The bytes of one code point: a byte that starts one, and the bytes that continue it. *)
Definition point (p : string) : Prop :=
  match p with String c p' => cont c = false ∧ Forall (λ x, cont x = true) (chars p') | "" => False end.

(** Text starts with the first byte of a code point. *)
Definition starts (s : string) : Prop := match s with String c _ => cont c = false | "" => True end.

Lemma utf8_starts s : utf8_valid s = true → starts s.
Proof.
  destruct s as [|c s]; [done|]. cbn [utf8_valid starts]. destruct (cont c) eqn:Hc; [|done].
  unfold cont, between in Hc. apply andb_true_iff in Hc as [H1%Z.leb_le H2%Z.leb_le].
  assert (Hn : ∀ lo hi, hi < code c ∨ code c < lo → between lo hi c = false).
  { intros lo hi. unfold between. rewrite andb_false_iff, !Z.leb_gt. lia. }
  rewrite !Hn by lia. by destruct s as [|c2 [|c3 [|c4 s]]].
Qed.

Lemma before_starts sep s : starts s → starts (before sep s).
Proof. destruct s as [|c s]; [done|]. cbn. by case_decide. Qed.

Lemma code_points_head c s :
  ∃ p ps, code_points (String c s) = String c p :: ps ∧ Forall (λ x, cont x = true) (chars p) ∧ Forall point ps.
Proof.
  revert c. induction s as [|c2 s IH]; intros c; [by exists "", []; repeat constructor|].
  destruct (IH c2) as (p & ps & E & Hp & Hps).
  change (code_points (String c (String c2 s))) with
    (if cont c2 then match code_points (String c2 s) with q :: qs => String c q :: qs | [] => [String c ""] end
     else String c "" :: code_points (String c2 s)).
  rewrite E. destruct (cont c2) eqn:Hc.
  - exists (String c2 p), ps. split; [done|]. split; [by constructor|done].
  - exists "", (String c2 p :: ps). split; [done|]. split; [constructor|]. by constructor.
Qed.

Lemma code_points_points s : starts s → Forall point (code_points s).
Proof.
  destruct s as [|c s]; [by constructor|]. intros Hc.
  destruct (code_points_head c s) as (p & ps & E & Hp & Hps). rewrite E. by constructor.
Qed.

Lemma code_points_app p s : point p → starts s → code_points (p +:+ s) = p :: code_points s.
Proof.
  destruct p as [|c p]; [done|]. intros [_ Hp] Hs. revert c Hp.
  induction p as [|c2 p IH]; intros c Hp; rewrite string_cons_app.
  - rewrite string_nil_app. destruct s as [|c2 s]; [done|]. cbn [starts] in Hs.
    change (code_points (String c (String c2 s))) with
      (if cont c2 then match code_points (String c2 s) with q :: qs => String c q :: qs | [] => [String c ""] end
       else String c "" :: code_points (String c2 s)).
    by rewrite Hs.
  - cbn [chars] in Hp. apply Forall_cons in Hp as [Hc Hp]. rewrite string_cons_app.
    change (code_points (String c (String c2 (p +:+ s)))) with
      (if cont c2 then
         match code_points (String c2 (p +:+ s)) with q :: qs => String c q :: qs | [] => [String c ""] end
       else String c "" :: code_points (String c2 (p +:+ s))).
    rewrite Hc, <- string_cons_app. by rewrite (IH c2 Hp).
Qed.

Lemma join_starts ps : Forall point ps → starts (join "" ps).
Proof.
  intros [|p ps' Hp _]; [done|]. destruct p as [|c p]; [done|]. by destruct ps', Hp.
Qed.

Lemma code_points_join ps : Forall point ps → code_points (join "" ps) = ps.
Proof.
  induction ps as [|p ps IH]; [done|]. intros [Hp Hps]%Forall_cons.
  destruct ps as [|q ps].
  - cbn [join]. rewrite <- (string_app_nil_r p) at 1. by rewrite code_points_app.
  - rewrite join_cons by done. rewrite string_nil_app.
    rewrite code_points_app by (done || by apply join_starts). by rewrite IH.
Qed.

Lemma drop_spaces_subset l : drop_spaces l ⊆ l.
Proof. induction l as [|p l IH]; [done|]. cbn. case_decide; set_solver. Qed.

Lemma strip_spaces_subset l : strip_spaces l ⊆ l.
Proof.
  intros p Hp%elem_of_reverse%drop_spaces_subset. by apply elem_of_reverse, drop_spaces_subset in Hp.
Qed.

(** What may be shown as a label: not empty, 40 characters at most, none but letters,
    digits and the extra ones. *)
Definition presentable (wide : string → bool) (l : string) : Prop :=
  l ≠ "" ∧ (length (code_points l) ≤ MAX_LABEL_LENGTH)%nat ∧
  Forall (λ p, allowed wide p = true) (code_points l).

Lemma sanitised_points wide value :
  starts value →
  code_points (sanitised wide value)
  = take MAX_LABEL_LENGTH (strip_spaces (filter (λ p, allowed wide p = true) (code_points value))).
Proof.
  intros Hs. apply code_points_join. rewrite Forall_forall. intros p Hp%elem_of_take.
  destruct Hp as (i & Hp & _). apply list_elem_of_lookup_2, strip_spaces_subset, list_elem_of_filter in Hp as [_ Hp].
  revert p Hp. rewrite <- Forall_forall. by apply code_points_points.
Qed.

Lemma sanitised_presentable wide value :
  starts value → sanitised wide value ≠ "" → presentable wide (sanitised wide value).
Proof.
  intros Hs Hne. split; [done|]. rewrite sanitised_points by done. split; [rewrite length_take; lia|].
  rewrite Forall_forall. intros p Hp%elem_of_take. destruct Hp as (i & Hp & _).
  by apply list_elem_of_lookup_2, strip_spaces_subset, list_elem_of_filter in Hp as [Hp _].
Qed.

Lemma first_token_elem table ua name : first_token table ua = Some name → name ∈ table.*2.
Proof.
  induction table as [|[token n] rest IH]; [done|]. cbn. destruct (contains _ _).
  - intros [= ->]. left.
  - intros H. right. auto.
Qed.

Ltac presentable_name := split; [done|]; split; [vm_compute; lia|]; repeat (constructor; [done|]); constructor.

Lemma names_presentable wide b p :
  b ∈ BROWSERS.*2 → p ∈ PLATFORMS.*2 →
  presentable wide b ∧ presentable wide p ∧ presentable wide (b +:+ " on " +:+ p).
Proof.
  intros Hb Hp. cbn in Hb, Hp.
  repeat (apply elem_of_cons in Hb as [->|Hb]); [..|by apply elem_of_nil in Hb];
    repeat (apply elem_of_cons in Hp as [->|Hp]); try (by apply elem_of_nil in Hp);
    (split; [|split]); presentable_name.
Qed.

(** ** Properties *)

(** The label of a session is fit to show whatever the client sent as its user agent:
    never empty, 40 characters at most, and only letters, digits, spaces, dots, hyphens and
    underscores, so it carries no markup and no control character into the dashboard. *)
Lemma label_presentable wide ua :
  (∀ s, ua = Some s → utf8_valid s = true) → presentable wide (describe_client wide ua).
Proof.
  intros Hv.
  assert (Hu : presentable wide UNKNOWN_CLIENT) by presentable_name.
  destruct ua as [s|]; [|done]. specialize (Hv s eq_refl).
  destruct s as [|c s]; [done|]. unfold describe_client.
  destruct (first_token BROWSERS _) as [b|] eqn:Eb, (first_token PLATFORMS _) as [p|] eqn:Ep.
  - apply first_token_elem in Eb, Ep. by apply names_presentable.
  - apply first_token_elem in Eb. by apply (names_presentable wide b "Windows"); [|left].
  - apply first_token_elem in Ep. by apply (names_presentable wide "Edge" p); [left|].
  - cbv zeta. case_decide as He; [done|].
    by apply sanitised_presentable; [apply before_starts, utf8_starts|].
Qed.

Lemma label_presentable_witness :
  presentable (λ _, false) (describe_client (λ _, false) (Some "<b>cafÃ© 5</b>")).
Proof. apply label_presentable. intros s [= <-]. reflexivity. Defined.

Example labels :
  describe_client (λ _, false) (Some "Mozilla/5.0 (X11; Linux x86_64) Chrome/120.0 Safari/537.36") = "Chrome on Linux" ∧
  describe_client (λ _, false) (Some "python-httpx/0.27") = "python-httpx" ∧
  describe_client (λ _, false) (Some "  <script>/1") = "script" ∧
  describe_client (λ _, false) (Some "/") = UNKNOWN_CLIENT.
Proof. repeat split; reflexivity. Qed.
