(* ===== verification/Sessions.v ===== *)
(** * A user's live sessions across replicas (src/geotrack/realtime/sessions.py, and
    [_rank_of] of src/geotrack/realtime/gateway.py)

    The directory of one user is a sorted set of session ids by expiry and a hash of
    their descriptions. The two keys expire as a whole as well; [list_ignores_key_expiry]
    shows that nobody can see it, so the rest of the development leaves it out. *)
From stdpp Require Import sorting.
From S2P Require Import Prelude Floats Clock Text Json Keys.

(** ** The directory *)

Record SessionInfo := mkInfo { session_id : Z; label : string; connected_at : Z }.
#[export] Instance SessionInfo_eq_dec : EqDecision SessionInfo.
Proof. solve_decision. Defined.

(** The lease of a session, from the seconds of the settings. *)
Definition ttl_ms_of (ttl_s : float64) : res Z :=
  let! ms := trunc (fmul ttl_s (flit 1000)) in Ok (Z.max ms 1).
Lemma ttl_ms_pos ttl_s ms : ttl_ms_of ttl_s = Ok ms → 0 < ms.
Proof. unfold ttl_ms_of. destruct (trunc _); cbn; [|done]. intros [= <-]. lia. Qed.

Record Directory := mkDirectory { zset : gmap string Z; meta : gmap string string }.

Section directory.
Context `{Orjson}.
Variable int_of_str : string → option Z.
Variable str_of : json → string.           (* [str(x)] of a parsed value *)
Variables (instance : string) (ttl_ms : Z).

Definition session_json (connected_ms : Z) (s : SessionInfo) : json :=
  JObj [("label", JStr (label s)); ("connected_at", JInt connected_ms); ("instance", JStr instance)].

(** [refresh]: both commands of the transaction, for every session. *)
Fixpoint refresh (now : Z) (sessions : list SessionInfo) (d : Directory) : res Directory :=
  match sessions with
  | [] => Ok d
  | s :: rest =>
      let! ms := to_epoch_ms (connected_at s) in
      let k := uuid_str (session_id s) in
      refresh now rest (mkDirectory (<[k := now + ttl_ms]> (zset d))
                          (<[k := dumps (session_json ms s)]> (meta d)))
  end.
Definition register (now : Z) (s : SessionInfo) (d : Directory) : res Directory := refresh now [s] d.

Definition remove (sid : Z) (d : Directory) : Directory :=
  mkDirectory (delete (uuid_str sid) (zset d)) (delete (uuid_str sid) (meta d)).

(** [_parse] before its except clause. *)
Definition parse_session (member payload : string) : res SessionInfo :=
  match loads payload with
  | None => Raise (ValueError "JSONDecodeError")
  | Some (JObj fields) =>
      if utf8_valid member then
        let! sid := uuid_of_str member in
        match assoc "label" fields with
        | None => Raise KeyError
        | Some l =>
            match assoc "connected_at" fields with
            | None => Raise KeyError
            | Some c => let! ms := py_int int_of_str c in
                        let! at_ := from_epoch_ms ms in
                        Ok (mkInfo sid (match l with JStr t => t | _ => str_of l end) at_)
            end
        end
      else Raise UnicodeDecodeError
  | Some _ => Raise TypeError
  end.

Definition parse (member : string) (payload : option string) : res (option SessionInfo) :=
  match payload with
  | None => Ok None
  | Some p =>
      match parse_session member p with
      | Ok s => Ok (Some s)
      | Raise (KeyError | TypeError | ValueError _ | UnicodeDecodeError) => Ok None
      | Raise e => Raise e
      end
  end.

Definition by_score (p q : string * Z) : Prop := p.2 ≤ q.2.
Definition by_connected (p q : SessionInfo) : Prop := connected_at p ≤ connected_at q.
#[global] Instance by_score_dec p q : Decision (by_score p q).
Proof. unfold by_score. apply _. Defined.
#[global] Instance by_connected_dec p q : Decision (by_connected p q).
Proof. unfold by_connected. apply _. Defined.

(** The two ranges [list_for] reads, and the entries it then drops. *)
Definition expired_at (now : Z) (d : Directory) : gmap string Z :=
  filter (λ p : string * Z, p.2 ≤ now) (zset d).
Definition live_at (now : Z) (d : Directory) : list string :=
  (merge_sort by_score (map_to_list (filter (λ p : string * Z, now < p.2) (zset d)))).*1.
Definition prune (expired : gmap string Z) (d : Directory) : Directory :=
  mkDirectory (zset d ∖ expired) (filter (λ p, expired !! p.1 = None) (meta d)).
Definition read_meta (live : list string) (d : Directory) : res (list SessionInfo) :=
  let! parsed := traverse (λ member, parse member (meta d !! member)) live in
  Ok (merge_sort by_connected (omap id parsed)).

Definition list_for (now : Z) (d : Directory) : Directory * res (list SessionInfo) :=
  let d' := prune (expired_at now d) d in (d', read_meta (live_at now d) d').
End directory.

(** ** What the operations leave *)

Lemma traverse_same {A B} (f g : A → res B) l : (∀ a, a ∈ l → f a = g a) → traverse f l = traverse g l.
Proof.
  induction l as [|a l IH]; intros Hf; [done|].
  cbn [traverse]. rewrite (Hf a) by left. rewrite IH; [done|]. intros x Hx. apply Hf. by right.
Qed.

(** What a refresh writes: one expiry per session, nothing else. *)
Lemma refresh_entries `{Orjson} inst ttl_ms now l d d' m e :
  refresh inst ttl_ms now l d = Ok d' → zset d' !! m = Some e →
  zset d !! m = Some e ∨ e = now + ttl_ms ∧ ∃ s, s ∈ l ∧ m = uuid_str (session_id s).
Proof.
  revert d. induction l as [|s l IH]; intros d; cbn; [intros [= ->]; by left|].
  destruct (to_epoch_ms _) as [ms|]; cbn; [|done]. intros Hr Hm. destruct (IH _ Hr Hm) as [Hz|(-> & x & Hx & ->)].
  - cbn in Hz. revert Hz. rewrite lookup_insert. case_decide as E; [|by left].
    intros [= <-]. right. split; [done|]. exists s. split; [left|done].
  - right. split; [done|]. exists x. split; [by right|done].
Qed.

Lemma live_at_elem now d m : m ∈ live_at now d → ∃ e, zset d !! m = Some e ∧ now < e.
Proof.
  unfold live_at. intros Hm. apply list_elem_of_fmap in Hm as ([m' e] & -> & Hm).
  rewrite merge_sort_Permutation in Hm. apply elem_of_map_to_list, map_lookup_filter_Some in Hm as [Hm He].
  by exists e.
Qed.

(** ** The expiry of the two keys

    Every [refresh] also sets the deadline of both keys; Redis drops a key at its deadline.
    Redis and the replicas are taken to have one clock. *)

Section key_expiry.
Context `{Orjson}.
Variable int_of_str : string → option Z.
Variable str_of : json → string.
Variable ttl_ms : Z.

Record Keyed := mkKeyed { held : Directory; deadline : Z }.

(** What a command at [now] finds under the keys. *)
Definition found (now : Z) (k : Keyed) : Directory :=
  if deadline k <=? now then mkDirectory ∅ ∅ else held k.

Definition refresh_keyed (inst : string) (now : Z) (sessions : list SessionInfo) (k : Keyed) : res Keyed :=
  match sessions with
  | [] => Ok k
  | _ => let! d := refresh inst ttl_ms now sessions (found now k) in
         Ok (mkKeyed d (now + ttl_ms * 3))
  end.
Definition remove_keyed (now sid : Z) (k : Keyed) : Keyed :=
  mkKeyed (remove sid (found now k)) (deadline k).
Definition list_keyed (now : Z) (k : Keyed) : Keyed * res (list SessionInfo) :=
  let (d, reply) := list_for int_of_str str_of now (found now k) in (mkKeyed d (deadline k), reply).

(** The calls the replicas make, in the order Redis serves them. *)
Inductive call := Refresh (instance : string) (sessions : list SessionInfo) | Remove (sid : Z) | List_for.

(** The replies of a run, of a directory without and with the expiry of its keys; a call
    that raises leaves Redis alone. *)
Fixpoint replies (calls : list (Z * call)) (d : Directory) : list (res (list SessionInfo)) :=
  match calls with
  | [] => []
  | (now, Refresh inst sessions) :: rest =>
      match refresh inst ttl_ms now sessions d with
      | Ok d' => Ok [] :: replies rest d'
      | Raise e => Raise e :: replies rest d
      end
  | (now, Remove sid) :: rest => Ok [] :: replies rest (remove sid d)
  | (now, List_for) :: rest =>
      let (d', reply) := list_for int_of_str str_of now d in reply :: replies rest d'
  end.
Fixpoint replies_keyed (calls : list (Z * call)) (k : Keyed) : list (res (list SessionInfo)) :=
  match calls with
  | [] => []
  | (now, Refresh inst sessions) :: rest =>
      match refresh_keyed inst now sessions k with
      | Ok k' => Ok [] :: replies_keyed rest k'
      | Raise e => Raise e :: replies_keyed rest k
      end
  | (now, Remove sid) :: rest => Ok [] :: replies_keyed rest (remove_keyed now sid k)
  | (now, List_for) :: rest =>
      let (k', reply) := list_keyed now k in reply :: replies_keyed rest k'
  end.

(** The same entries are live from [now] on, with the same descriptions. *)
Definition same_live (now : Z) (d d' : Directory) : Prop :=
  ∀ m e x, now < e →
    zset d !! m = Some e ∧ meta d !! m = x ↔ zset d' !! m = Some e ∧ meta d' !! m = x.

#[local] Instance same_live_equiv now : Equivalence (same_live now).
Proof.
  split.
  - done.
  - intros d d' Hs m e x He. by rewrite (Hs m e x He).
  - intros d d' d'' Hs Hs' m e x He. by rewrite (Hs m e x He), (Hs' m e x He).
Qed.

Lemma same_live_later now now' d d' : now ≤ now' → same_live now d d' → same_live now' d d'.
Proof. intros Hn Hs m e x He. apply Hs. lia. Qed.

Lemma refresh_same inst now l : ∀ d d', same_live now d d' →
  match refresh inst ttl_ms now l d, refresh inst ttl_ms now l d' with
  | Ok d1, Ok d1' => same_live now d1 d1'
  | Raise e, Raise e' => e = e'
  | _, _ => False
  end.
Proof.
  induction l as [|s l IH]; intros d d' Hs; [done|]. cbn. destruct (to_epoch_ms _) as [ms|]; [|done].
  apply IH. intros m e x He. cbn. rewrite !lookup_insert. case_decide; [done|]. by apply Hs.
Qed.

Lemma remove_same now sid d d' : same_live now d d' → same_live now (remove sid d) (remove sid d').
Proof.
  intros Hs m e x He. cbn. rewrite !lookup_delete. case_decide; [naive_solver|]. by apply Hs.
Qed.

Lemma prune_same now d : same_live now (prune (expired_at now d) d) d.
Proof.
  intros m e x He. cbn. rewrite lookup_difference_Some, map_lookup_filter.
  assert (Hn : zset d !! m = Some e → expired_at now d !! m = None).
  { intros Hm. unfold expired_at. rewrite map_lookup_filter, Hm. cbn. rewrite option_guard_False by (cbn; lia). done. }
  split.
  - intros [[Hm Hx] Hmeta]. split; [done|]. rewrite <- Hmeta. destruct (meta d !! m); cbn; [|done].
    by rewrite option_guard_True.
  - intros [Hm <-]. split; [auto|]. destruct (meta d !! m); cbn; [|done]. rewrite option_guard_True; auto.
Qed.

Lemma live_same now d d' : same_live now d d' → live_at now d = live_at now d'.
Proof.
  intros Hs. unfold live_at. do 3 f_equal. apply map_eq. intros m. apply option_eq. intros e.
  rewrite !map_lookup_filter_Some. cbn. split; intros [Hm He]; (split; [|done]).
  - by apply (Hs m e (meta d !! m) He).
  - by apply (Hs m e (meta d' !! m) He).
Qed.

Lemma list_same now d d' : same_live now d d' →
  (list_for int_of_str str_of now d).2 = (list_for int_of_str str_of now d').2 ∧
  same_live now (list_for int_of_str str_of now d).1 (list_for int_of_str str_of now d').1.
Proof.
  intros Hs. cbn [list_for fst snd]. rewrite <- (live_same now d d' Hs).
  assert (Hp : same_live now (prune (expired_at now d) d) (prune (expired_at now d') d'))
    by by rewrite !prune_same.
  split; [|done]. unfold read_meta. f_equal.
  assert (Hl : ∀ m, m ∈ live_at now d → meta (prune (expired_at now d) d) !! m = meta (prune (expired_at now d') d') !! m).
  { intros m (e & Hm & He)%live_at_elem.
    destruct (proj2 (prune_same now d m e (meta d !! m) He) (conj Hm eq_refl)) as [Hz Hx].
    symmetry. eapply Hp; [done|]. by split. }
  apply traverse_same. intros m Hm. by rewrite Hl.
Qed.

(** Every entry expires before its key does, and no key outlives a refresh made now. *)
Definition by_deadline (now : Z) (k : Keyed) : Prop :=
  (∀ m e, zset (held k) !! m = Some e → e ≤ deadline k) ∧ deadline k ≤ now + ttl_ms * 3.

Lemma found_same now k : by_deadline now k → same_live now (held k) (found now k).
Proof.
  intros [Hd _] m e x He. unfold found. destruct (Z.leb_spec (deadline k) now) as [Hl|]; [|done].
  cbn. rewrite lookup_empty. split; [|naive_solver]. intros [Hm%Hd _]. lia.
Qed.

Fixpoint chronological (now : Z) (calls : list (Z * call)) : Prop :=
  match calls with [] => True | (t, _) :: rest => now ≤ t ∧ chronological t rest end.

(** The expiry of the two keys is invisible: whatever the replicas register, renew, remove
    and list, every call answers as if the keys lived forever. *)
Lemma list_ignores_key_expiry calls : 0 < ttl_ms → ∀ now d k,
  same_live now d (held k) → by_deadline now k → chronological now calls →
  replies_keyed calls k = replies calls d.
Proof.
  intros Httl. induction calls as [|[t c] calls IH]; intros now d k Hs Hk Hc; [done|].
  destruct Hc as [Ht Hc]. assert (Hk' : by_deadline t k) by (destruct Hk; split; [done|lia]).
  assert (Hf : same_live t d (found t k)).
  { transitivity (held k); [by apply (same_live_later now)|by apply found_same]. }
  assert (Hin : ∀ m e, zset (found t k) !! m = Some e → e ≤ deadline k).
  { unfold found. destruct (deadline k <=? t); cbn; [intros m e; by rewrite lookup_empty|apply Hk']. }
  destruct c as [inst l|sid|]; cbn [replies replies_keyed].
  - destruct l as [|s l]; [cbn; f_equal; apply (IH t); [by apply (same_live_later now)|done|done]|].
    unfold refresh_keyed. generalize (refresh_same inst t (s :: l) d (found t k) Hf).
    destruct (refresh _ _ _ _ d) as [d1|e1], (refresh _ _ _ _ (found t k)) as [d1'|e1'] eqn:E; try done.
    + intros H1. cbn. f_equal. apply (IH t); [done| |done]. split; [|cbn; lia]. cbn. intros m e Hm.
      destruct (refresh_entries _ _ _ _ _ _ _ _ E Hm) as [Hz|[-> _]]; [|lia].
      apply Hin in Hz. destruct Hk'. lia.
    + intros ->. cbn. f_equal. apply (IH t); [by apply (same_live_later now)|done|done].
  - f_equal. apply (IH t); [by apply remove_same| |done]. split; [|apply Hk'].
    cbn. intros m e [_ Hm]%lookup_delete_Some. by apply Hin in Hm.
  - destruct (list_same t d (found t k) Hf) as [Hr Hd]. unfold list_keyed.
    destruct (list_for _ _ t d) as [d1 r1], (list_for _ _ t (found t k)) as [d1' r1'] eqn:E. cbn in Hr, Hd. subst.
    f_equal. apply (IH t); [done| |done]. split; [|apply Hk']. cbn. intros m e Hm. apply (Hin m).
    injection E as <- _. cbn in Hm. by apply lookup_difference_Some in Hm as [? _].
Qed.
Lemma expiry_invisible_from_start calls : 0 < ttl_ms → chronological 0 calls →
  replies_keyed calls (mkKeyed (mkDirectory ∅ ∅) 0) = replies calls (mkDirectory ∅ ∅).
Proof.
  intros Httl. apply list_ignores_key_expiry; [done..|]. split; [|cbn; lia].
  cbn. intros m e. by rewrite lookup_empty.
Qed.
End key_expiry.

(** ** Who is over the cap *)

Definition session_key (s : SessionInfo) : Z * Z := (connected_at s, session_id s).
Definition key_lt (a b : Z * Z) : Prop := a.1 < b.1 ∨ (a.1 = b.1 ∧ a.2 < b.2).
#[export] Instance key_lt_dec a b : Decision (key_lt a b).
Proof. unfold key_lt. apply _. Defined.

Definition rank_of (sid : Z) (sessions : list SessionInfo) : nat :=
  match filter (λ s, session_id s = sid) sessions with
  | [] => 0%nat
  | mine :: _ => length (filter (λ s, key_lt (session_key s) (session_key mine)) sessions)
  end.

(** ** Ranks *)

Section ranks.
#[local] Instance key_lt_trans : Transitive key_lt.
Proof. intros a b c. unfold key_lt. lia. Qed.

Definition key_le (a b : SessionInfo) : Prop :=
  key_lt (session_key a) (session_key b) ∨ session_key a = session_key b.
#[local] Instance key_le_dec a b : Decision (key_le a b).
Proof. unfold key_le. apply _. Defined.
#[local] Instance key_le_trans : Transitive key_le.
Proof.
  intros a b c. unfold key_le, key_lt, session_key. cbn.
  intros [?|[= ? ?]] [?|[= ? ?]]; try (left; lia). right. congruence.
Qed.
#[local] Instance key_le_total : Total key_le.
Proof.
  intros a b. unfold key_le, key_lt, session_key. cbn.
  destruct (Z.lt_trichotomy (connected_at a) (connected_at b)) as [?|[E|?]]; [lia| |lia].
  destruct (Z.lt_trichotomy (session_id a) (session_id b)) as [?|[E'|?]]; [lia| |lia].
  left; right. congruence.
Qed.

(** How many sessions of a list come strictly before a key. *)
Definition older (l : list SessionInfo) (k : Z * Z) : nat :=
  length (filter (λ s, key_lt (session_key s) k) l).

Lemma rank_of_older sessions s :
  NoDup (session_id <$> sessions) → s ∈ sessions →
  rank_of (session_id s) sessions = older sessions (session_key s).
Proof.
  intros Hnd Hs. unfold rank_of. destruct (filter _ sessions) as [|m rest] eqn:E.
  - exfalso. assert (Hin : s ∈ filter (λ x, session_id x = session_id s) sessions)
      by by apply list_elem_of_filter. rewrite E in Hin. by apply elem_of_nil in Hin.
  - assert (Hm : m ∈ filter (λ x, session_id x = session_id s) sessions) by (rewrite E; left).
    apply list_elem_of_filter in Hm as [Hid Hm].
    apply list_elem_of_lookup in Hm as [i Hi], Hs as [j Hj].
    assert (i = j) as ->; [|by simplify_eq].
    apply (NoDup_lookup _ _ _ (session_id m) Hnd); by rewrite list_lookup_fmap, ?Hi, ?Hj; cbn; rewrite ?Hid.
Qed.

(** In a list sorted by key, the rank of an element is its index. *)
Lemma older_sorted l i s :
  StronglySorted key_le l → NoDup (session_id <$> l) → l !! i = Some s →
  older l (session_key s) = i.
Proof.
  intros Hs Hnd Hi. rewrite <- (take_drop i l). unfold older.
  rewrite filter_app, length_app. rewrite (drop_S _ _ _ Hi).
  assert (E1 : filter (λ x, key_lt (session_key x) (session_key s)) (take i l) = take i l).
  { assert (Hall : ∀ x, x ∈ take i l → key_lt (session_key x) (session_key s)).
    { intros x Hx. rewrite <- (take_drop i l), (drop_S _ _ _ Hi) in Hs.
      destruct (StronglySorted_app_1_elem_of _ _ _ x s Hs Hx ltac:(left)) as [?|E]; [done|].
      exfalso. apply list_elem_of_lookup in Hx as [j Hj]. apply lookup_take_Some in Hj as [Hj Hji].
      assert (j = i); [|lia]. injection E as _ E.
      apply (NoDup_lookup _ _ _ (session_id s) Hnd); rewrite list_lookup_fmap, ?Hi, ?Hj; cbn; congruence. }
    clear -Hall. induction (take i l) as [|x m IH]; [done|]. rewrite filter_cons, decide_True by set_solver.
    f_equal. apply IH. set_solver. }
  assert (E2 : filter (λ x, key_lt (session_key x) (session_key s)) (s :: drop (S i) l) = []).
  { apply elem_of_nil_inv. intros x [Hlt Hx]%list_elem_of_filter.
    rewrite <- (take_drop i l), (drop_S _ _ _ Hi) in Hs.
    apply StronglySorted_app_1_r in Hs. apply elem_of_cons in Hx as [->|Hx].
    - unfold key_lt in Hlt. lia.
    - apply StronglySorted_inv in Hs as [_ Hall]. rewrite Forall_forall in Hall.
      destruct (Hall x Hx) as [Hlt'|E]; unfold key_lt in *; [lia|]. rewrite E in Hlt. lia. }
  rewrite E1, E2, length_take. cbn. apply lookup_lt_Some in Hi. lia.
Qed.

Lemma count_below {A} (r : A → nat) (l : list A) n :
  r <$> l = seq 0 (length l) → length (filter (λ x, r x < n)%nat l) = Nat.min n (length l).
Proof.
  intros E. assert (Hgen : length (filter (λ x, r x < n)%nat l)
                           = length (filter (λ k, k < n)%nat (r <$> l))).
  { clear E. induction l as [|x l IH]; [done|]. rewrite fmap_cons, !filter_cons. case_decide; cbn; lia. }
  rewrite Hgen, E. generalize (length l). intros m.
  assert (∀ a, length (filter (λ k, k < n)%nat (seq a m)) = Nat.min (n - a) m) as ->; [|lia].
  induction m as [|m IH]; intros a; [cbn; lia|]. change (seq a (S m)) with (a :: seq (S a) m).
  rewrite filter_cons. case_decide; cbn [length]; rewrite IH; lia.
Qed.

Lemma ranks_of_permutation l l' : l ≡ₚ l' → ∀ k, older l k = older l' k.
Proof. intros Hp k. unfold older. by rewrite Hp. Qed.

Lemma admitted_count sessions n :
  NoDup (session_id <$> sessions) →
  length (filter (λ s, rank_of (session_id s) sessions < n)%nat sessions) = Nat.min n (length sessions).
Proof.
  intros Hnd. set (l := merge_sort key_le sessions).
  assert (Hp : l ≡ₚ sessions) by apply merge_sort_Permutation.
  assert (Hndl : NoDup (session_id <$> l)) by by rewrite Hp.
  transitivity (length (filter (λ s, older sessions (session_key s) < n)%nat sessions)).
  { f_equal. apply filter_ext_in. intros s Hs. by rewrite rank_of_older. }
  transitivity (length (filter (λ s, older l (session_key s) < n)%nat l)).
  { rewrite <- Hp. f_equal. apply filter_ext_in. intros s _. by rewrite (ranks_of_permutation _ _ Hp). }
  rewrite <- (Permutation_length Hp).
  apply count_below. apply list_eq. intros i. rewrite list_lookup_fmap.
  destruct (l !! i) as [s|] eqn:Ei; cbn.
  - rewrite (older_sorted l i s); [|by apply StronglySorted_merge_sort; apply _|done|done].
    symmetry. apply lookup_seq. split; [done|]. by apply lookup_lt_Some in Ei.
  - symmetry. apply lookup_ge_None. rewrite length_seq. by apply lookup_ge_None in Ei.
Qed.
End ranks.

(** ** Properties *)

(** the cap holds fleet-wide. When replicas judge the same list of a user's sessions,
    exactly the oldest [limit] of them are admitted: never more, and never one refused
    while there was room. *)
Lemma cap_is_fleet_wide sessions limit :
  NoDup (session_id <$> sessions) →
  length (filter (λ s, rank_of (session_id s) sessions < limit)%nat sessions)
  = Nat.min limit (length sessions) ∧
  ∀ s t, s ∈ sessions → t ∈ sessions →
    (rank_of (session_id s) sessions < limit)%nat → ¬ (rank_of (session_id t) sessions < limit)%nat →
    key_lt (session_key s) (session_key t).
Proof.
  intros Hnd. split; [by apply admitted_count|]. intros s t Hs Ht.
  rewrite !rank_of_older by done. intros Hlt Hge.
  destruct (decide (key_lt (session_key s) (session_key t))) as [|Hn]; [done|exfalso].
  assert (older sessions (session_key t) ≤ older sessions (session_key s))%nat; [|lia].
  unfold older. apply submseteq_length. clear Hlt Hge.
  assert (Hle : ∀ x, key_lt (session_key x) (session_key t) → key_lt (session_key x) (session_key s)).
  { intros x. unfold key_lt, session_key in *. cbn in *. lia. }
  induction sessions as [|x l IH]; [done|]. clear IH Hs Ht Hnd. generalize (x :: l). intros xs.
  induction xs as [|y ys IH]; [done|]. rewrite !filter_cons. repeat case_decide.
  - by constructor.
  - exfalso. auto.
  - by constructor.
  - done.
Qed.

Lemma cap_is_fleet_wide_witness :
  let sessions := [mkInfo 3 "a" 10; mkInfo 1 "b" 20; mkInfo 2 "c" 20] in
  length (filter (λ s, rank_of (session_id s) sessions < 2)%nat sessions) = 2%nat ∧
  ∀ s t, s ∈ sessions → t ∈ sessions →
    (rank_of (session_id s) sessions < 2)%nat → ¬ (rank_of (session_id t) sessions < 2)%nat →
    key_lt (session_key s) (session_key t).
Proof.
  apply (cap_is_fleet_wide [mkInfo 3 "a" 10; mkInfo 1 "b" 20; mkInfo 2 "c" 20] 2).
  cbn. repeat constructor; set_solver.
Defined.
