(* ===== verification/Serve.v ===== *)
(** * The life of a dashboard's socket ([serve], [_session_joined], [_session_left] and
    [_sessions_loop] of src/geotrack/realtime/gateway.py)

    Sockets of many users on many replicas, over one Redis that holds the session
    directory. A step is the code between two awaits; Redis runs each command or
    transaction at once, between the moment it is sent and the moment it is answered. *)
From stdpp Require Import sorting.
From S2P Require Import Prelude Floats Clock Text Json JsonRef Keys Protocol.
From S2P Require Registry Sessions.
Import Sessions(Directory, mkDirectory, zset, meta, SessionInfo, mkInfo, session_id, label, connected_at, rank_of).

Inductive Phase :=
  | Admitting                                        (* registry.add is next *)
  | TooMany                                          (* closed with 4429, serve returned *)
  | Joining                                          (* sessions.register is next *)
  | Registering (sent : Z)                           (* its transaction is on the way *)
  | Listing                                          (* list_for: the ranges are next *)
  | Pruning (expired : gmap string Z) (live : list string)
  | Announcing (frame : string)                      (* the publish is next *)
  | Greeting                                         (* the hello is next *)
  | Pumping                                          (* reader and writer run *)
  | Removing                                         (* finally: registry.remove is next *)
  | Closing                                          (* connection.aclose() *)
  | Leaving                                          (* sessions.remove is next *)
  | LeaveListing
  | LeavePruning (expired : gmap string Z) (live : list string)
  | LeaveAnnouncing (frame : string)
  | Ended.

Record Socket := mkSocket {
  replica : nat; owner : Z; info : SessionInfo; close_code : option Z; phase : Phase }.

(** A round of [_sessions_loop]: the users it still has to do, with the sessions they had
    when the round began. *)
Inductive BeatPhase :=
  | BeatNext
  | BeatSending (sent user : Z) (sessions : list SessionInfo)
  | BeatListing (user : Z) (sessions : list SessionInfo)
  | BeatPruning (user : Z) (sessions : list SessionInfo) (expired : gmap string Z) (live : list string).
Record Beat := mkBeat { todo : list (Z * list SessionInfo); beat_phase : BeatPhase }.

Record World := mkWorld {
  clock : Z;
  registries : gmap nat Registry.Registry;
  directories : gmap Z Directory;
  sockets : gmap Z Socket;
  beats : gmap nat Beat;                             (* by replica *)
  published : list (Z * string);                     (* user frames, oldest first *)
  queued : list (Z * string) }.                      (* control frames of a round, by session *)

Definition new_world : World := mkWorld 0 ∅ ∅ ∅ ∅ [] [].
Definition new_directory : Directory := mkDirectory ∅ ∅.

Definition registry_of (w : World) (r : nat) : Registry.Registry := default Registry.new_registry (registries w !! r).
Definition directory_of (w : World) (u : Z) : Directory := default new_directory (directories w !! u).

Definition set_phase (k : Z) (s : Socket) (p : Phase) (w : World) : World :=
  mkWorld (clock w) (registries w) (directories w)
    (<[k := mkSocket (replica s) (owner s) (info s) (close_code s) p]> (sockets w)) (beats w) (published w) (queued w).
Definition set_registry (r : nat) (reg : Registry.Registry) (w : World) : World :=
  mkWorld (clock w) (<[r := reg]> (registries w)) (directories w) (sockets w) (beats w) (published w) (queued w).
Definition set_directory (u : Z) (d : Directory) (w : World) : World :=
  mkWorld (clock w) (registries w) (<[u := d]> (directories w)) (sockets w) (beats w) (published w) (queued w).
Definition set_beat (r : nat) (b : option Beat) (w : World) : World :=
  mkWorld (clock w) (registries w) (directories w) (sockets w) (partial_alter (λ _, b) r (beats w)) (published w) (queued w).
Definition publish_user_frame (u : Z) (frame : string) (w : World) : World :=
  mkWorld (clock w) (registries w) (directories w) (sockets w) (beats w) (published w ++ [(u, frame)]) (queued w).
Definition queue_frames (frames : list (Z * string)) (w : World) : World :=
  mkWorld (clock w) (registries w) (directories w) (sockets w) (beats w) (published w) (queued w ++ frames).
Definition tick (t : Z) (w : World) : World :=
  mkWorld t (registries w) (directories w) (sockets w) (beats w) (published w) (queued w).

Section serve.
Context `{Orjson}.
Variable int_of_str : string → option Z.
Variable str_of : json → string.
Variable isoformat : Z → string.                     (* datetime.isoformat() *)
Variable instance : nat → string.                    (* each replica's name *)
Variables (ttl_ms : Z) (limit : nat).

(** [sessions_frame]. *)
Definition sessions_frame (sessions : list SessionInfo) : string :=
  dumps (JObj [("type", JStr "sessions"); ("count", JInt (Z.of_nat (length sessions)));
    ("sessions", JArr ((λ s, JObj [("id", JStr (uuid_str (session_id s))); ("label", JStr (label s));
                                   ("connected_at", JStr (isoformat (connected_at s)))]) <$> sessions))]).

(** [_by_user]: this replica's sessions, grouped. *)
Definition by_user (r : nat) (w : World) : list (Z * list SessionInfo) :=
  (λ p : Z * gset Z, (p.1, omap (λ k, info <$> sockets w !! k) (elements p.2)))
    <$> map_to_list (Registry.by_user (registry_of w r)).

(** What [_session_joined] does with the list: refuse, or announce. *)
Definition judged (k : Z) (sessions : res (list SessionInfo)) : Phase + Z :=
  match sessions with
  | Raise RedisError => inl Greeting
  | Raise _ => inl Removing
  | Ok l => if decide (limit ≤ rank_of k l)%nat then inr CLOSE_TOO_MANY_SESSIONS
            else inl (Announcing (sessions_frame l))
  end.
Definition with_judgement (k : Z) (s : Socket) (sessions : res (list SessionInfo)) (w : World) : World :=
  match judged k sessions with
  | inl p => set_phase k s p w
  | inr code => set_phase k (mkSocket (replica s) (owner s) (info s) (Some code) (phase s)) Removing w
  end.

(** Anything serve awaits inside its try block. *)
Definition inside_try (p : Phase) : Prop :=
  match p with
  | Joining | Registering _ | Listing | Pruning _ _ | Announcing _ | Greeting | Pumping => True
  | _ => False
  end.
(** The awaits of [_session_joined], which gives up on a RedisError, and of
    [_session_left], which does too. *)
Definition joining (p : Phase) : Prop :=
  match p with Joining | Registering _ | Listing | Pruning _ _ | Announcing _ => True | _ => False end.
Definition leaving (p : Phase) : Prop :=
  match p with Leaving | LeaveListing | LeavePruning _ _ | LeaveAnnouncing _ => True | _ => False end.

Inductive world_step : World → World → Prop :=
  | w_clock w t : clock w ≤ t → world_step w (tick t w)
  (** a client connects: the identifier is fresh *)
  | w_open w k r u lbl : sockets w !! k = None → 0 ≤ k < 2 ^ 128 →
      world_step w (set_phase k (mkSocket r u (mkInfo k lbl (clock w * 1000)) None Admitting) Admitting w)
  (** registry.add *)
  | w_add w k s reg : sockets w !! k = Some s → phase s = Admitting →
      Registry.add (owner s) k limit (registry_of w (replica s)) = Some reg →
      world_step w (set_phase k s Joining (set_registry (replica s) reg w))
  | w_full w k s : sockets w !! k = Some s → phase s = Admitting →
      Registry.add (owner s) k limit (registry_of w (replica s)) = None →
      world_step w (set_phase k (mkSocket (replica s) (owner s) (info s) (Some CLOSE_TOO_MANY_SESSIONS) Admitting) TooMany w)
  (** _session_joined: register, list, judge, announce *)
  | w_register w k s : sockets w !! k = Some s → phase s = Joining →
      world_step w (set_phase k s (Registering (clock w)) w)
  | w_registered w k s sent d : sockets w !! k = Some s → phase s = Registering sent →
      Sessions.register (instance (replica s)) ttl_ms sent (info s) (directory_of w (owner s)) = Ok d →
      world_step w (set_phase k s Listing (set_directory (owner s) d w))
  | w_list w k s : sockets w !! k = Some s → phase s = Listing →
      let d := directory_of w (owner s) in
      world_step w (set_phase k s (Pruning (Sessions.expired_at (clock w) d) (Sessions.live_at (clock w) d)) w)
  | w_judge w k s expired live : sockets w !! k = Some s → phase s = Pruning expired live →
      let d := Sessions.prune expired (directory_of w (owner s)) in
      world_step w (with_judgement k s (Sessions.read_meta int_of_str str_of live d) (set_directory (owner s) d w))
  | w_announce w k s frame : sockets w !! k = Some s → phase s = Announcing frame →
      world_step w (set_phase k s Greeting (publish_user_frame (owner s) frame w))
  | w_unannounced w k s : sockets w !! k = Some s → joining (phase s) → world_step w (set_phase k s Greeting w)
  (** _greet and _pump *)
  | w_greet w k s : sockets w !! k = Some s → phase s = Greeting → world_step w (set_phase k s Pumping w)
  (** the end of the pump, a failed greeting, an exception: the finally clause *)
  | w_finally w k s : sockets w !! k = Some s → inside_try (phase s) → world_step w (set_phase k s Removing w)
  | w_remove w k s reg : sockets w !! k = Some s → phase s = Removing →
      Registry.remove (owner s) k (registry_of w (replica s)) = Some reg →
      world_step w (set_phase k s Closing (set_registry (replica s) reg w))
  | w_close w k s : sockets w !! k = Some s → phase s = Closing → world_step w (set_phase k s Leaving w)
  (** _session_left *)
  | w_leave w k s : sockets w !! k = Some s → phase s = Leaving →
      world_step w (set_phase k s LeaveListing
        (set_directory (owner s) (Sessions.remove k (directory_of w (owner s))) w))
  | w_leave_list w k s : sockets w !! k = Some s → phase s = LeaveListing →
      let d := directory_of w (owner s) in
      world_step w (set_phase k s (LeavePruning (Sessions.expired_at (clock w) d) (Sessions.live_at (clock w) d)) w)
  | w_leave_pruned w k s expired live l : sockets w !! k = Some s → phase s = LeavePruning expired live →
      let d := Sessions.prune expired (directory_of w (owner s)) in
      Sessions.read_meta int_of_str str_of live d = Ok l →
      world_step w (set_phase k s (LeaveAnnouncing (sessions_frame l)) (set_directory (owner s) d w))
  | w_left w k s frame : sockets w !! k = Some s → phase s = LeaveAnnouncing frame →
      world_step w (set_phase k s Ended (publish_user_frame (owner s) frame w))
  | w_left_unannounced w k s : sockets w !! k = Some s → leaving (phase s) → world_step w (set_phase k s Ended w)
  (** _sessions_loop *)
  | w_beat w r : beats w !! r = None → world_step w (set_beat r (Some (mkBeat (by_user r w) BeatNext)) w)
  | w_beat_done w r : beats w !! r = Some (mkBeat [] BeatNext) → world_step w (set_beat r None w)
  | w_beat_refresh w r u l rest : beats w !! r = Some (mkBeat ((u, l) :: rest) BeatNext) →
      world_step w (set_beat r (Some (mkBeat rest (BeatSending (clock w) u l))) w)
  | w_beat_refreshed w r sent u l rest d : beats w !! r = Some (mkBeat rest (BeatSending sent u l)) →
      Sessions.refresh (instance r) ttl_ms sent l (directory_of w u) = Ok d →
      world_step w (set_beat r (Some (mkBeat rest (BeatListing u l))) (set_directory u d w))
  | w_beat_list w r u l rest : beats w !! r = Some (mkBeat rest (BeatListing u l)) →
      let d := directory_of w u in
      world_step w (set_beat r (Some (mkBeat rest
        (BeatPruning u l (Sessions.expired_at (clock w) d) (Sessions.live_at (clock w) d)))) w)
  | w_beat_queue w r u l rest expired live listed : beats w !! r = Some (mkBeat rest (BeatPruning u l expired live)) →
      let d := Sessions.prune expired (directory_of w u) in
      Sessions.read_meta int_of_str str_of live d = Ok listed →
      world_step w (set_beat r (Some (mkBeat rest BeatNext))
        (queue_frames ((λ s, (session_id s, sessions_frame listed)) <$> l) (set_directory u d w)))
  (** _keep_running: the next user's turn *)
  | w_beat_failed w r rest p : beats w !! r = Some (mkBeat rest p) → world_step w (set_beat r (Some (mkBeat rest BeatNext)) w).
End serve.

(** ** Invariant *)

Definition in_registry (p : Phase) : Prop := match p with Removing => True | _ => inside_try p end.

(** The sessions a round will still write, by user. *)
Definition beat_work (b : Beat) : list (Z * list SessionInfo) :=
  match beat_phase b with BeatSending _ u l => (u, l) :: todo b | _ => todo b end.
Definition beat_sent (b : Beat) (t : Z) : Prop :=
  match beat_phase b with BeatSending sent _ _ => sent ≤ t | _ => True end.

(** A session that was opened for this user. *)
Definition known (w : World) (u k : Z) : Prop := ∃ s, sockets w !! k = Some s ∧ owner s = u.

Definition entry_ok (ttl_ms : Z) (w : World) (u : Z) (m : string) (e : Z) : Prop :=
  ∃ k, m = uuid_str k ∧ known w u k ∧ e ≤ clock w + ttl_ms.

Record world_ok (ttl_ms : Z) (limit : nat) (w : World) : Prop := {
  ok_ids k s : sockets w !! k = Some s → session_id (info s) = k ∧ 0 ≤ k < 2 ^ 128;
  ok_sent k s t : sockets w !! k = Some s → phase s = Registering t → t ≤ clock w;
  ok_members r u k : k ∈ Registry.connections_of (registry_of w r) u ↔
    ∃ s, sockets w !! k = Some s ∧ replica s = r ∧ owner s = u ∧ in_registry (phase s);
  ok_limit r u : (size (Registry.connections_of (registry_of w r) u) ≤ limit)%nat;
  ok_entries u m e : zset (directory_of w u) !! m = Some e → entry_ok ttl_ms w u m e;
  ok_beats r b : beats w !! r = Some b → beat_sent b (clock w) ∧
    ∀ u l s, (u, l) ∈ beat_work b → s ∈ l → known w u (session_id s) }.

Lemma uuid_str_inj k k' : 0 ≤ k < 2 ^ 128 → 0 ≤ k' < 2 ^ 128 → uuid_str k = uuid_str k' → k = k'.
Proof. intros Hk Hk' E. apply (f_equal uuid_of_str) in E. rewrite !uuid_roundtrip in E by done. congruence. Qed.

Lemma prune_entries expired d m e : zset (Sessions.prune expired d) !! m = Some e → zset d !! m = Some e.
Proof. cbn. intros [? _]%lookup_difference_Some. done. Qed.

Lemma directory_set u d w u' :
  directory_of (set_directory u d w) u' = if decide (u' = u) then d else directory_of w u'.
Proof. unfold directory_of. cbn. rewrite lookup_insert. repeat case_decide; subst; done. Qed.

Lemma registry_set r reg w r' :
  registry_of (set_registry r reg w) r' = if decide (r' = r) then reg else registry_of w r'.
Proof. unfold registry_of. cbn. rewrite lookup_insert. repeat case_decide; subst; done. Qed.

Section invariant.
Variables (ttl_ms : Z) (limit : nat).
Notation ok := (world_ok ttl_ms limit).

Lemma known_phase w k s0 s p u x :
  sockets w !! k = Some s0 → owner s = owner s0 → known w u x → known (set_phase k s p w) u x.
Proof.
  intros Hk Ho (y & Hy & <-). unfold known. cbn. rewrite lookup_insert. case_decide; [|eauto].
  eexists. split; [done|]. cbn. congruence.
Qed.

(** A socket moves on without entering or leaving the registry. *)
Lemma phase_ok w k s0 s p :
  ok w → sockets w !! k = Some s0 → replica s = replica s0 → owner s = owner s0 → info s = info s0 →
  (in_registry p ↔ in_registry (phase s0)) → (∀ t, p = Registering t → t ≤ clock w) →
  ok (set_phase k s p w).
Proof.
  intros [Hid Hsent Hmem Hlim Hdir Hbeat] Hk Hr Ho Hi Hp Ht. split.
  - intros x y. cbn. rewrite lookup_insert. case_decide; [|apply Hid].
    intros [= <-]. subst x. cbn. rewrite Hi. by apply Hid.
  - intros x y t. cbn. rewrite lookup_insert. case_decide; [|apply Hsent]. intros [= <-]. apply Ht.
  - intros r u x. change (registry_of (set_phase k s p w) r) with (registry_of w r). rewrite Hmem. cbn.
    rewrite lookup_insert. case_decide as E; [subst x|done]. split.
    + intros (y & Hy & <- & <- & Hreg). eexists. split; [done|]. cbn. simplify_eq. by rewrite Hp.
    + intros (y & [= <-] & <- & <- & Hreg). exists s0. cbn in *. by rewrite Hp in Hreg.
  - done.
  - intros u m e Hm. destruct (Hdir u m e Hm) as (x & -> & Hx & He). exists x. split_and!; [done|by eapply known_phase|exact He].
  - intros r b Hb. destruct (Hbeat r b Hb) as [Hs Hw]. split; [done|]. intros u l x Hl Hx.
    eapply known_phase; eauto.
Qed.

Lemma directory_ok w u d :
  ok w → (∀ m e, zset d !! m = Some e → zset (directory_of w u) !! m = Some e ∨ entry_ok ttl_ms w u m e) →
  ok (set_directory u d w).
Proof.
  intros [Hid Hsent Hmem Hlim Hdir Hbeat] Hd. split; try done.
  intros u' m e. rewrite directory_set. case_decide as E; [subst u'|apply Hdir].
  intros Hm. destruct (Hd m e Hm) as [Hold|Hnew]; [by apply Hdir|done].
Qed.

Lemma pruned_ok w u expired : ok w → ok (set_directory u (Sessions.prune expired (directory_of w u)) w).
Proof. intros Hok. apply directory_ok; [done|]. intros m e Hm. left. by eapply prune_entries. Qed.

Lemma beat_ok w r b :
  ok w → (∀ b', b = Some b' → beat_sent b' (clock w) ∧
    ∀ u l s, (u, l) ∈ beat_work b' → s ∈ l → known w u (session_id s)) → ok (set_beat r b w).
Proof.
  intros [Hid Hsent Hmem Hlim Hdir Hbeat] Hb. split; try done.
  intros r' b'. cbn. destruct (decide (r' = r)) as [->|Hne].
  - rewrite lookup_partial_alter_eq. intros ->. by apply Hb.
  - rewrite lookup_partial_alter_ne by done. apply Hbeat.
Qed.

Lemma add_ok w k s reg :
  ok w → sockets w !! k = Some s → phase s = Admitting →
  Registry.add (owner s) k limit (registry_of w (replica s)) = Some reg →
  ok (set_phase k s Joining (set_registry (replica s) reg w)).
Proof.
  intros [Hid Hsent Hmem Hlim Hdir Hbeat] Hk Hp Ha. unfold Registry.add in Ha.
  case_decide as Hroom; [done|]. injection Ha as <-.
  assert (Hnew : k ∉ Registry.connections_of (registry_of w (replica s)) (owner s)).
  { rewrite Hmem. intros (y & Hy & _ & _ & Hreg). simplify_eq. by rewrite Hp in Hreg. }
  assert (Hkn : ∀ u x, known w u x → known (set_phase k s Joining w) u x)
    by (intros; by eapply known_phase).
  split.
  - intros x y. cbn. rewrite lookup_insert. case_decide; [intros [= <-]; subst x; by apply (Hid k s)|apply Hid].
  - intros x y t. cbn. rewrite lookup_insert. case_decide; [by intros [= <-]|apply Hsent].
  - intros r u x.
    change (registry_of (set_phase k s Joining ?w') r) with (registry_of w' r). rewrite registry_set. cbn [sockets set_phase].
    rewrite lookup_insert. transitivity
      ((r = replica s ∧ u = owner s ∧ x = k) ∨ x ∈ Registry.connections_of (registry_of w r) u).
    + case_decide as E; [subst r|naive_solver]. unfold Registry.connections_of at 1. cbn. rewrite elem_set_add.
      unfold Registry.connections_of. tauto.
    + rewrite Hmem. case_decide as E; [subst x|naive_solver]. split.
      * intros [(-> & -> & _)|(y & Hy & <- & <- & Hreg)]; [by eexists|]. simplify_eq. by rewrite Hp in Hreg.
      * intros (y & [= <-] & <- & <- & _). by left.
  - intros r u. change (registry_of (set_phase k s Joining ?w') r) with (registry_of w' r). rewrite registry_set.
    case_decide as E; [subst r|apply Hlim]. destruct (decide (u = owner s)) as [->|Hu].
    + unfold Registry.connections_of at 1, set_at, set_add. cbn. rewrite lookup_insert_eq. cbn.
      fold (Registry.connections_of (registry_of w (replica s)) (owner s)).
      rewrite size_union by set_solver. rewrite size_singleton. lia.
    + unfold Registry.connections_of, set_at, set_add. cbn. rewrite lookup_insert_ne by done. apply Hlim.
  - intros u m e Hm. destruct (Hdir u m e Hm) as (x & -> & Hx & He). exists x. split_and!; [done|by apply Hkn|exact He].
  - intros r b Hb. destruct (Hbeat r b Hb) as [Hs Hw]. split; [done|]. intros u l x Hl Hx. by eapply Hkn, Hw.
Qed.

Lemma remove_ok w k s reg :
  ok w → sockets w !! k = Some s → phase s = Removing →
  Registry.remove (owner s) k (registry_of w (replica s)) = Some reg →
  ok (set_phase k s Closing (set_registry (replica s) reg w)).
Proof.
  intros [Hid Hsent Hmem Hlim Hdir Hbeat] Hk Hp Ha. unfold Registry.remove in Ha.
  case_decide as Hin; [|done]. injection Ha as <-.
  assert (Hkn : ∀ u x, known w u x → known (set_phase k s Closing w) u x)
    by (intros; by eapply known_phase).
  split.
  - intros x y. cbn. rewrite lookup_insert. case_decide; [intros [= <-]; subst x; by apply (Hid k s)|apply Hid].
  - intros x y t. cbn. rewrite lookup_insert. case_decide; [by intros [= <-]|apply Hsent].
  - intros r u x.
    change (registry_of (set_phase k s Closing ?w') r) with (registry_of w' r). rewrite registry_set. cbn [sockets set_phase].
    rewrite lookup_insert. transitivity
      (¬ (r = replica s ∧ u = owner s ∧ x = k) ∧ x ∈ Registry.connections_of (registry_of w r) u).
    + case_decide as E; [subst r|naive_solver]. unfold Registry.connections_of at 1. cbn. rewrite elem_set_drop.
      unfold Registry.connections_of. tauto.
    + rewrite Hmem. case_decide as E; [subst x|naive_solver]. split.
      * intros (Hne & y & Hy & <- & <- & Hreg). simplify_eq. exfalso. by apply Hne.
      * intros (y & [= <-] & <- & <- & Hreg). done.
  - intros r u. change (registry_of (set_phase k s Closing ?w') r) with (registry_of w' r). rewrite registry_set.
    case_decide as E; [subst r|apply Hlim]. etransitivity; [|apply (Hlim (replica s) u)].
    apply subseteq_size. intros c. unfold Registry.connections_of. cbn. rewrite elem_set_drop. tauto.
  - intros u m e Hm. destruct (Hdir u m e Hm) as (x & -> & Hx & He). exists x. split_and!; [done|by apply Hkn|exact He].
  - intros r b Hb. destruct (Hbeat r b Hb) as [Hs Hw]. split; [done|]. intros u l x Hl Hx. by eapply Hkn, Hw.
Qed.
End invariant.

Lemma by_user_elem r w u l s : (u, l) ∈ by_user r w → s ∈ l →
  ∃ k x, k ∈ Registry.connections_of (registry_of w r) u ∧ sockets w !! k = Some x ∧ s = info x.
Proof.
  unfold by_user. intros Hu Hs. apply list_elem_of_fmap in Hu as ([u' ks] & [= -> ->] & Hks).
  apply elem_of_map_to_list in Hks. apply list_elem_of_omap in Hs as (k & Hk & Hx).
  destruct (sockets w !! k) as [x|] eqn:E; [|done]. injection Hx as <-.
  exists k, x. split_and!; [|done..]. unfold Registry.connections_of, set_at. rewrite Hks. cbn.
  by apply elem_of_elements in Hk.
Qed.

Section steps.
Context `{Orjson}.
Variables (int_of_str : string → option Z) (str_of : json → string) (isoformat : Z → string).
Variables (instance : nat → string) (ttl_ms : Z) (limit : nat).
Notation ok := (world_ok ttl_ms limit).
Notation step := (world_step int_of_str str_of isoformat instance ttl_ms limit).

(** The transaction of [register] reaches Redis. *)
Lemma registered_ok w k s sent d :
  ok w → sockets w !! k = Some s → phase s = Registering sent →
  Sessions.register (instance (replica s)) ttl_ms sent (info s) (directory_of w (owner s)) = Ok d →
  ok (set_directory (owner s) d w).
Proof.
  intros Hok Hk Hp Hr. apply directory_ok; [done|]. intros m e Hm.
  destruct (Sessions.refresh_entries _ _ _ _ _ _ _ _ Hr Hm) as [Hold|(-> & x & Hx & ->)]; [by left|right].
  apply list_elem_of_singleton in Hx as ->. destruct (ok_ids _ _ _ Hok _ _ Hk) as [Hid _].
  exists k. rewrite Hid. split_and!; [done|by exists s|]. pose proof (ok_sent _ _ _ Hok _ _ _ Hk Hp). lia.
Qed.

Lemma refreshed_ok w r sent u l rest d :
  ok w → beats w !! r = Some (mkBeat rest (BeatSending sent u l)) →
  Sessions.refresh (instance r) ttl_ms sent l (directory_of w u) = Ok d →
  ok (set_directory u d w).
Proof.
  intros Hok Hb Hr. destruct (ok_beats _ _ _ Hok _ _ Hb) as [Hsent Hw]. cbn in Hsent.
  apply directory_ok; [done|]. intros m e Hm.
  destruct (Sessions.refresh_entries _ _ _ _ _ _ _ _ Hr Hm) as [Hold|(-> & x & Hx & ->)]; [by left|right].
  exists (session_id x). split_and!; [done| |lia]. apply (Hw u l); [left|done].
Qed.

(** A round goes on with less to do. *)
Lemma beat_less_ok w r b b' :
  ok w → beats w !! r = Some b → beat_sent b' (clock w) →
  (∀ p, p ∈ beat_work b' → p ∈ beat_work b) → ok (set_beat r (Some b') w).
Proof.
  intros Hok Hb Hs Hw. apply beat_ok; [done|]. intros x [= <-]. split; [done|].
  intros u l s Hl. eapply (ok_beats _ _ _ Hok _ _ Hb), Hw, Hl.
Qed.

Lemma judged_ok w k s ss :
  ok w → sockets w !! k = Some s → inside_try (phase s) →
  ok (with_judgement isoformat limit k s ss w).
Proof.
  intros Hok Hk Hin. unfold with_judgement, judged.
  assert (Hreg : in_registry (phase s)) by by destruct (phase s).
  destruct ss as [l|e]; [case_decide|destruct e];
    (eapply phase_ok; [done|exact Hk|done..| |done]; cbn; tauto).
Qed.

Lemma not_inside p : leaving p → in_registry p → False.
Proof. by destruct p. Qed.

Lemma world_step_ok w w' : ok w → step w w' → ok w'.
Proof.
  intros Hok Hstep.
  assert (Hphase : ∀ k s p, sockets w !! k = Some s → (in_registry p ↔ in_registry (phase s)) →
    (∀ t, p = Registering t → t ≤ clock w) → ok (set_phase k s p w))
    by (intros; by eapply phase_ok).
  destruct Hstep as [w t Ht|w k r u lbl Hk Hr|w k s reg Hk Hp Ha|w k s Hk Hp Ha|w k s Hk Hp|w k s sent d Hk Hp Hd
    |w k s Hk Hp d|w k s ex lv Hk Hp d|w k s f Hk Hp|w k s Hk Hp|w k s Hk Hp|w k s Hk Hp|w k s reg Hk Hp Ha
    |w k s Hk Hp|w k s Hk Hp|w k s Hk Hp d|w k s ex lv l Hk Hp d Hl|w k s f Hk Hp|w k s Hk Hp
    |w r Hb|w r Hb|w r u l rest Hb|w r sent u l rest d Hb Hd|w r u l rest Hb d|w r u l rest ex lv ls Hb d Hl|w r rest p Hb].
  - destruct Hok as [H1 H2 H3 H4 H5 H6]. split; [done| |done|done|..].
    + intros k s x Hk Hx. pose proof (H2 k s x Hk Hx). cbn. lia.
    + intros u m e Hm. destruct (H5 u m e Hm) as (x & -> & Hx & He). exists x. cbn. split_and!; [done|exact Hx|lia].
    + intros r b Hb. destruct (H6 r b Hb) as [Hs Hw]. split; [|exact Hw].
      unfold beat_sent in *. destruct (beat_phase b); try done. cbn. lia.
  - destruct Hok as [H1 H2 H3 H4 H5 H6].
    assert (Hkn : ∀ v x, known w v x → known (set_phase k (mkSocket r u (mkInfo k lbl (clock w * 1000)) None Admitting) Admitting w) v x).
    { intros v x (y & Hy & Ho). exists y. cbn. rewrite lookup_insert_ne; [done|]. intros ->. congruence. }
    split.
    + intros x y. cbn. rewrite lookup_insert. case_decide as E; [intros [= <-]; by subst|apply H1].
    + intros x y t. cbn. rewrite lookup_insert. case_decide; [by intros [= <-]|apply H2].
    + intros r' u' x. rewrite (H3 r' u' x). cbn. rewrite lookup_insert. case_decide as E; [subst x|done].
      split; [intros (y & Hy & _); congruence|by intros (y & [= <-] & _ & _ & ?)].
    + exact H4.
    + intros v m e Hm. destruct (H5 v m e Hm) as (x & -> & Hx & He). exists x. split_and!; [done|by apply Hkn|exact He].
    + intros r' b Hb. destruct (H6 r' b Hb) as [Hs Hw]. split; [exact Hs|]. intros v l s Hl Hx. by eapply Hkn, Hw.
  - by apply add_ok.
  - eapply phase_ok; [done|exact Hk|done..|by rewrite Hp|done].
  - apply Hphase; [done|by rewrite Hp|]. intros t [= ->]. lia.
  - eapply phase_ok; [by eapply registered_ok|exact Hk|done..|by rewrite Hp|done].
  - apply Hphase; [done|by rewrite Hp|done].
  - apply judged_ok; [by apply pruned_ok|exact Hk|by rewrite Hp].
  - eapply (phase_ok ttl_ms limit (publish_user_frame (owner s) f w)); [by destruct Hok|exact Hk|done..|by rewrite Hp|done].
  - apply Hphase; [done| |done]. destruct (phase s); cbn in *; tauto.
  - apply Hphase; [done|by rewrite Hp|done].
  - apply Hphase; [done| |done]. destruct (phase s); cbn in *; tauto.
  - by apply remove_ok.
  - apply Hphase; [done|by rewrite Hp|done].
  - eapply phase_ok; [|exact Hk|done..|by rewrite Hp|done]. apply directory_ok; [done|].
    intros m e. cbn. intros [_ Hm]%lookup_delete_Some. by left.
  - apply Hphase; [done|by rewrite Hp|done].
  - eapply phase_ok; [by apply pruned_ok|exact Hk|done..|by rewrite Hp|done].
  - eapply (phase_ok ttl_ms limit (publish_user_frame (owner s) f w)); [by destruct Hok|exact Hk|done..|by rewrite Hp|done].
  - apply Hphase; [done| |done]. destruct (phase s); cbn in *; tauto.
  - apply beat_ok; [done|]. intros b' [= <-]. split; [done|]. intros u l s Hl Hs.
    destruct (by_user_elem _ _ _ _ _ Hl Hs) as (k & x & Hk & Hx & ->).
    apply (ok_members _ _ _ Hok) in Hk as (y & Hy & _ & Ho & _). simplify_eq.
    destruct (ok_ids _ _ _ Hok _ _ Hy) as [-> _]. by exists y.
  - by apply beat_ok.
  - eapply beat_less_ok; [done|done|cbn; lia|]. intros p Hp. exact Hp.
  - eapply (beat_less_ok _ _ (mkBeat rest (BeatSending sent u l))); [by eapply refreshed_ok|done..|].
    intros p Hp. by right.
  - eapply beat_less_ok; [done|done|done|]. intros p Hp. exact Hp.
  - eapply (beat_less_ok (queue_frames _ (set_directory u d w)) _ (mkBeat rest (BeatPruning u l ex lv))); [|done..].
    destruct (pruned_ok ttl_ms limit w u ex Hok). done.
  - eapply beat_less_ok; [done|done|done|]. intros q Hq. unfold beat_work in *. cbn in *. destruct p; by try right.
Qed.
End steps.

(** ** A session that has ended stays away *)

(** The socket is gone and no round on the way still carries its session. *)
Definition quiet (k : Z) (w : World) : Prop :=
  (∃ s, sockets w !! k = Some s ∧ phase s = Ended) ∧
  ∀ r b u l s, beats w !! r = Some b → (u, l) ∈ beat_work b → s ∈ l → session_id s ≠ k.

(** Nothing renews the entry of this session. *)
Definition keeps (k : Z) (w w' : World) : Prop :=
  ∀ u e, zset (directory_of w' u) !! uuid_str k = Some e → zset (directory_of w u) !! uuid_str k = Some e.

Section quiet.
Context `{Orjson}.
Variables (int_of_str : string → option Z) (str_of : json → string) (isoformat : Z → string).
Variables (instance : nat → string) (ttl_ms : Z) (limit : nat).
Notation ok := (world_ok ttl_ms limit).
Notation step := (world_step int_of_str str_of isoformat instance ttl_ms limit).

Lemma quiet_phase k w k' s' s p :
  quiet k w → sockets w !! k' = Some s' → phase s' ≠ Ended → quiet k (set_phase k' s p w).
Proof.
  intros [(x & Hx & Hp) Hb] Hk Hne. split; [|exact Hb]. exists x. cbn.
  rewrite lookup_insert_ne; [done|]. intros ->. simplify_eq.
Qed.

Lemma keeps_same k w w' : directories w' = directories w → keeps k w w'.
Proof. intros E u e. unfold directory_of. by rewrite E. Qed.

Lemma keeps_directory k w u d :
  (∀ e, zset d !! uuid_str k = Some e → zset (directory_of w u) !! uuid_str k = Some e) →
  keeps k w (set_directory u d w).
Proof. intros Hd v e. rewrite directory_set. case_decide; [subst v; apply Hd|done]. Qed.

Lemma keeps_pruned k w u expired : keeps k w (set_directory u (Sessions.prune expired (directory_of w u)) w).
Proof. apply keeps_directory. intros e. apply prune_entries. Qed.

Lemma keeps_refreshed k w u inst sent l d :
  ok w → (0 ≤ k < 2 ^ 128) → (∀ s, s ∈ l → known w u (session_id s) ∧ session_id s ≠ k) →
  Sessions.refresh inst ttl_ms sent l (directory_of w u) = Ok d → keeps k w (set_directory u d w).
Proof.
  intros Hok Hk Hl Hr. apply keeps_directory. intros e He.
  destruct (Sessions.refresh_entries _ _ _ _ _ _ _ _ Hr He) as [?|(_ & s & Hs & E)]; [done|exfalso].
  destruct (Hl s Hs) as [(x & Hx & _) Hne]. destruct (ok_ids _ _ _ Hok _ _ Hx) as [_ Hrange].
  by apply Hne, uuid_str_inj.
Qed.

Lemma quiet_beat k w r b :
  quiet k w → (∀ b', b = Some b' → ∀ u l s, (u, l) ∈ beat_work b' → s ∈ l → session_id s ≠ k) →
  quiet k (set_beat r b w).
Proof.
  intros [Hs Hb] Hnew. split; [exact Hs|]. intros r' b' u l s. cbn. destruct (decide (r' = r)) as [->|Hne].
  - rewrite lookup_partial_alter_eq. intros ->. by apply Hnew.
  - rewrite lookup_partial_alter_ne by done. apply Hb.
Qed.

Lemma quiet_less k w r b b' :
  quiet k w → beats w !! r = Some b → (∀ p, p ∈ beat_work b' → p ∈ beat_work b) → quiet k (set_beat r (Some b') w).
Proof.
  intros Hq Hb Hw. apply quiet_beat; [done|]. intros x [= <-] u l s Hl. by apply (proj2 Hq r b u l), Hw.
Qed.

Lemma quiet_judged k w k' s ss :
  quiet k w → sockets w !! k' = Some s → phase s ≠ Ended →
  quiet k (with_judgement isoformat limit k' s ss w) ∧ keeps k w (with_judgement isoformat limit k' s ss w).
Proof.
  intros Hq Hk Hne. unfold with_judgement. destruct (judged _ _ _ _); (split; [by eapply quiet_phase|by apply keeps_same]).
Qed.

Lemma quiet_step k w w' : ok w → step w w' → quiet k w → quiet k w' ∧ keeps k w w'.
Proof.
  intros Hok Hstep Hq.
  assert (Hk0 : 0 ≤ k < 2 ^ 128) by (destruct (proj1 Hq) as (x & Hx & _); by apply (ok_ids _ _ _ Hok _ _ Hx)).
  assert (Hphase : ∀ k' s' s p, sockets w !! k' = Some s' → phase s' ≠ Ended → quiet k (set_phase k' s p w))
    by (intros; by eapply quiet_phase).
  destruct Hstep as [w t Ht|w k' r u lbl Hk Hr|w k' s reg Hk Hp Ha|w k' s Hk Hp Ha|w k' s Hk Hp|w k' s sent d Hk Hp Hd
    |w k' s Hk Hp d|w k' s ex lv Hk Hp d|w k' s f Hk Hp|w k' s Hk Hp|w k' s Hk Hp|w k' s Hk Hp|w k' s reg Hk Hp Ha
    |w k' s Hk Hp|w k' s Hk Hp|w k' s Hk Hp d|w k' s ex lv l Hk Hp d Hl|w k' s f Hk Hp|w k' s Hk Hp
    |w r Hb|w r Hb|w r u l rest Hb|w r sent u l rest d Hb Hd|w r u l rest Hb d|w r u l rest ex lv ls Hb d Hl|w r rest p Hb];
    try (split; [eapply Hphase; [exact Hk|]; first [by rewrite Hp|by intros E; rewrite E in Hp]|by apply keeps_same]).
  - split; [exact Hq|by apply keeps_same].
  - split; [|by apply keeps_same]. destruct Hq as [(x & Hx & Hp) Hb]. split; [|exact Hb]. exists x. cbn.
    rewrite lookup_insert_ne; [done|]. intros ->. congruence.
  - split; [|eapply keeps_refreshed; [done|done| |exact Hd]].
    + eapply (quiet_phase k (set_directory (owner s) d w)); [done|exact Hk|by rewrite Hp].
    + intros x Hx%list_elem_of_singleton. subst x. destruct (ok_ids _ _ _ Hok _ _ Hk) as [-> _].
      split; [by exists s|]. intros ->. destruct (proj1 Hq) as (y & Hy & He). congruence.
  - destruct (quiet_judged k (set_directory (owner s) d w) k' s (Sessions.read_meta int_of_str str_of lv d))
      as [H1 H2]; [done|exact Hk|by rewrite Hp|]. split; [exact H1|].
    intros u e He. eapply keeps_pruned, H2, He.
  - split; [eapply (quiet_phase k (set_directory (owner s) _ w)); [done|exact Hk|by rewrite Hp]|].
    apply keeps_directory. intros e. cbn. by intros [_ ?]%lookup_delete_Some.
  - split; [eapply (quiet_phase k (set_directory (owner s) d w)); [done|exact Hk|by rewrite Hp]|apply keeps_pruned].
  - split; [|by apply keeps_same]. apply quiet_beat; [done|]. intros b' [= <-] u l s Hl Hs E. subst k.
    destruct (by_user_elem _ _ _ _ _ Hl Hs) as (k & x & Hk & Hx & ->).
    destruct (ok_ids _ _ _ Hok _ _ Hx) as [Hid _]. rewrite Hid in Hq.
    apply (ok_members _ _ _ Hok) in Hk as (y & Hy & _ & _ & Hreg).
    destruct (proj1 Hq) as (z & Hz & He). simplify_eq. by rewrite He in Hreg.
  - split; [by apply quiet_beat|by apply keeps_same].
  - split; [by eapply quiet_less|by apply keeps_same].
  - split; [|eapply keeps_refreshed; [done|done| |exact Hd]].
    + eapply (quiet_less k (set_directory u d w)); [done|exact Hb|]. intros p Hp. by right.
    + intros x Hx. split.
      * by apply (proj2 (ok_beats _ _ _ Hok _ _ Hb) u l); [left|].
      * by apply (proj2 Hq r _ u l x Hb); [left|].
  - split; [by eapply quiet_less|by apply keeps_same].
  - split; [|apply keeps_pruned]. by eapply (quiet_less k (queue_frames _ (set_directory u d w))).
  - split; [|by apply keeps_same]. eapply quiet_less; [done|exact Hb|]. intros q Hq'. unfold beat_work in *. cbn in *.
    destruct p; by try right.
Qed.
End quiet.

Lemma traverse_elem {A B} (f : A → res B) l bs b :
  traverse f l = Ok bs → b ∈ bs → ∃ a, a ∈ l ∧ f a = Ok b.
Proof.
  revert bs. induction l as [|a l IH]; intros bs; cbn; [intros [= <-] Hb; by apply elem_of_nil in Hb|].
  destruct (f a) as [b'|] eqn:Ef; cbn; [|done]. destruct (traverse f l) as [bs'|]; cbn; [|done].
  intros [= <-] [->|Hb]%elem_of_cons; [exists a; split; [left|done]|].
  destruct (IH bs' eq_refl Hb) as (x & Hx & Hfx). exists x. split; [by right|done].
Qed.

(** A listed session was read from the entry of its own identifier. *)
Lemma read_meta_ids `{Orjson} int_of_str str_of live d l s :
  Sessions.read_meta int_of_str str_of live d = Ok l → s ∈ l →
  ∃ m, m ∈ live ∧ uuid_of_str m = Ok (session_id s).
Proof.
  unfold Sessions.read_meta. destruct (traverse _ live) as [parsed|] eqn:E; cbn; [|done].
  intros [= <-] Hs. rewrite merge_sort_Permutation in Hs. apply list_elem_of_omap in Hs as (o & Ho & Hos).
  cbn in Hos. subst o. destruct (traverse_elem _ _ _ _ E Ho) as (m & Hm & Hp). exists m. split; [done|].
  revert Hp. unfold Sessions.parse. destruct (meta d !! m) as [p|]; [|done].
  destruct (Sessions.parse_session _ _ m p) as [x|e] eqn:Ep; [|by destruct e]. intros [= ->].
  revert Ep. unfold Sessions.parse_session. destruct (loads p) as [j|]; [|done]. destruct j; try done.
  destruct (utf8_valid m); [|done]. destruct (uuid_of_str m) as [v|]; cbn; [|done].
  destruct (assoc "label" fields); [|done]. destruct (assoc "connected_at" fields); [|done].
  destruct (py_int _ _); cbn; [|done]. destruct (from_epoch_ms _); cbn; [|done]. by intros [= <-].
Qed.

(** The members [list_for] reads are entries that have not expired. *)

Lemma new_world_ok ttl_ms limit : world_ok ttl_ms limit new_world.
Proof.
  assert (Hd : ∀ u, zset (directory_of new_world u) = ∅) by (intros u; unfold directory_of; cbn; by rewrite lookup_empty).
  assert (Hr : ∀ r u, Registry.connections_of (registry_of new_world r) u = ∅).
  { intros r u. unfold registry_of, Registry.connections_of, set_at. cbn. rewrite lookup_empty. cbn. by rewrite lookup_empty. }
  split.
  - intros k s. cbn. by rewrite lookup_empty.
  - intros k s t. cbn. by rewrite lookup_empty.
  - intros r u k. rewrite Hr. cbn. split; [set_solver|]. intros (s & Hs & _). by rewrite lookup_empty in Hs.
  - intros r u. rewrite Hr, size_empty. lia.
  - intros u m e. by rewrite Hd, lookup_empty.
  - intros r b. cbn. by rewrite lookup_empty.
Qed.

(** ** Properties *)

Section properties.
Context `{Orjson}.
Variables (int_of_str : string → option Z) (str_of : json → string) (isoformat : Z → string).
Variables (instance : nat → string) (ttl_ms : Z) (limit : nat).
Notation step := (world_step int_of_str str_of isoformat instance ttl_ms limit).

Lemma sockets_reachable_ok w : rtc step new_world w → world_ok ttl_ms limit w.
Proof.
  revert w. apply (rtc_ind_r (world_ok ttl_ms limit)); [apply new_world_ok|].
  intros w1 w2 _ Hstep Hok. by eapply world_step_ok.
Qed.

Lemma quiet_run k w w' : world_ok ttl_ms limit w → rtc step w w' → quiet k w → quiet k w' ∧ keeps k w w'.
Proof.
  intros Hok Hr. revert Hok. induction Hr as [w|w w1 w2 Hstep Hr IH]; intros Hok Hq; [split; [done|by apply keeps_same]|].
  destruct (quiet_step _ _ _ _ _ _ _ _ _ Hok Hstep Hq) as [Hq1 Hk1].
  destruct (IH (world_step_ok _ _ _ _ _ _ _ _ Hok Hstep) Hq1) as [Hq2 Hk2].
  split; [done|]. intros u e He. by apply Hk1, Hk2.
Qed.
End properties.

(** C23: every socket is accounted for. In every state of any interleaving of sockets,
    rounds and Redis failures, a replica's registry holds exactly the connections whose
    serve is between its admission and its removal, never more than the limit for one
    user; so when every serve has returned, however it ended, no connection is left. *)
Theorem sockets_accounted `{Orjson} int_of_str str_of isoformat instance ttl_ms limit w r u :
  rtc (world_step int_of_str str_of isoformat instance ttl_ms limit) new_world w →
  (∀ k, k ∈ Registry.connections_of (registry_of w r) u ↔
     ∃ s, sockets w !! k = Some s ∧ replica s = r ∧ owner s = u ∧ in_registry (phase s)) ∧
  (length (Registry.for_user u (registry_of w r)) ≤ limit)%nat ∧
  ((∀ k s, sockets w !! k = Some s → phase s = Ended ∨ phase s = TooMany) →
     Registry.for_user u (registry_of w r) = []).
Proof.
  intros Hr. pose proof (sockets_reachable_ok _ _ _ _ _ _ _ Hr) as Hok. split_and!.
  - intros k. apply (ok_members _ _ _ Hok).
  - apply (ok_limit _ _ _ Hok).
  - intros Hall. unfold Registry.for_user. destruct (elements _) as [|k ks] eqn:E; [done|exfalso].
    assert (Hk : k ∈ Registry.connections_of (registry_of w r) u) by (apply elem_of_elements; rewrite E; left).
    apply (ok_members _ _ _ Hok) in Hk as (s & Hs & _ & _ & Hreg).
    destruct (Hall k s Hs) as [Hp|Hp]; by rewrite Hp in Hreg.
Qed.

(** C24: a session does not outlive its socket. Once a socket has ended and no round that
    began before still carries its session, then whatever happens afterwards no replica
    lists it once the time to live of an entry has passed, even if the removal never
    reached Redis. *)
Theorem left_session_forgotten `{Orjson} int_of_str str_of isoformat instance ttl_ms limit w w' k u d l :
  let step := world_step int_of_str str_of isoformat instance ttl_ms limit in
  rtc step new_world w → quiet k w → rtc step w w' → clock w + ttl_ms ≤ clock w' →
  Sessions.list_for int_of_str str_of (clock w') (directory_of w' u) = (d, Ok l) →
  k ∉ session_id <$> l.
Proof.
  intros step Hr Hq Hr' Hclock Hl. pose proof (sockets_reachable_ok _ _ _ _ _ _ _ Hr) as Hok.
  assert (Hok' : world_ok ttl_ms limit w') by (eapply sockets_reachable_ok; by etrans).
  destruct (quiet_run _ _ _ _ _ _ _ _ _ Hok Hr' Hq) as [_ Hkeep].
  intros Hk. apply list_elem_of_fmap in Hk as (s & -> & Hs).
  unfold Sessions.list_for in Hl. injection Hl as _ Hl.
  destruct (read_meta_ids _ _ _ _ _ _ Hl Hs) as (m & Hm & Hid).
  apply Sessions.live_at_elem in Hm as (e & He & Hlive).
  destruct (ok_entries _ _ _ Hok' _ _ _ He) as (k' & -> & (x & Hx & _) & _).
  destruct (ok_ids _ _ _ Hok' _ _ Hx) as [_ Hrange]. rewrite uuid_roundtrip in Hid by done.
  injection Hid as ->. apply Hkeep in He.
  destruct (ok_entries _ _ _ Hok _ _ _ He) as (_ & _ & _ & Hle). lia.
Qed.

(** ** One socket, and a round of heartbeats that began while it was connected *)
Module ServeDemo.
#[local] Existing Instance Ref.orjson.
Definition str_of (j : json) : string := "".
Definition name (r : nat) : string := "api-1".
Definition step : World → World → Prop := world_step Ref.int_of str_of pretty name 30000 20.
Definition s (p : Phase) : Socket := mkSocket 0 5 (mkInfo 9 "Firefox on Linux" 0) None p.
Definition frame : string := sessions_frame pretty [mkInfo 9 "Firefox on Linux" 0].
Definition admitted : Registry.Registry := Registry.mkRegistry {[5 := {[9]}]} ∅ ∅.
Definition listed : Directory :=
  mkDirectory {[uuid_str 9 := 30000]}
    {[uuid_str 9 := dumps (Sessions.session_json "api-1" 0 (mkInfo 9 "Firefox on Linux" 0))]}.

(** The socket is served. *)
Definition pumping : World := mkWorld 0 {[0%nat := admitted]} {[5 := listed]} {[9 := s Pumping]} ∅ [(5, frame)] [].
Lemma pumping_reachable : rtc step new_world pumping.
Proof.
  eapply rtc_l; [apply (w_open _ _ _ _ _ _ new_world 9 0 5 "Firefox on Linux"); [reflexivity|lia]|].
  eapply rtc_l; [apply (w_add _ _ _ _ _ _ _ 9 (s Admitting) admitted); vm_compute; reflexivity|].
  eapply rtc_l; [apply (w_register _ _ _ _ _ _ _ 9 (s Joining)); vm_compute; reflexivity|].
  eapply rtc_l; [apply (w_registered _ _ _ _ _ _ _ 9 (s (Registering 0)) 0 listed); vm_compute; reflexivity|].
  eapply rtc_l; [apply (w_list _ _ _ _ _ _ _ 9 (s Listing)); vm_compute; reflexivity|].
  eapply rtc_l; [eapply (w_judge _ _ _ _ _ _ _ 9 (s (Pruning ∅ [uuid_str 9]))); vm_compute; reflexivity|].
  eapply rtc_l; [apply (w_announce _ _ _ _ _ _ _ 9 (s (Announcing frame)) frame); vm_compute; reflexivity|].
  eapply rtc_l; [apply (w_greet _ _ _ _ _ _ _ 9 (s Greeting)); vm_compute; reflexivity|].
  match goal with |- rtc _ ?x _ => assert (x = pumping) as -> by (vm_compute; reflexivity) end. constructor.
Qed.

(** The client leaves and Redis does not answer the removal: the entry is still there. *)
Definition left_over : World :=
  mkWorld 0 {[0%nat := Registry.new_registry]} {[5 := listed]} {[9 := s Ended]} ∅ [(5, frame)] [].
Lemma left_over_reachable : rtc step new_world left_over.
Proof.
  etrans; [exact pumping_reachable|].
  eapply rtc_l; [apply (w_finally _ _ _ _ _ _ _ 9 (s Pumping)); [reflexivity|exact I]|].
  eapply rtc_l; [apply (w_remove _ _ _ _ _ _ _ 9 (s Removing) Registry.new_registry); vm_compute; reflexivity|].
  eapply rtc_l; [apply (w_close _ _ _ _ _ _ _ 9 (s Closing)); vm_compute; reflexivity|].
  eapply rtc_l; [apply (w_left_unannounced _ _ _ _ _ _ _ 9 (s Leaving)); [vm_compute; reflexivity|exact I]|].
  match goal with |- rtc _ ?x _ => assert (x = left_over) as -> by (vm_compute; reflexivity) end. constructor.
Qed.

(** The removal is answered, but a round that began before writes the entry again. *)
Lemma relisted_reachable : rtc step new_world left_over.
Proof.
  etrans; [exact pumping_reachable|].
  eapply rtc_l; [apply (w_beat _ _ _ _ _ _ _ 0); reflexivity|].
  eapply rtc_l; [apply (w_finally _ _ _ _ _ _ _ 9 (s Pumping)); [reflexivity|exact I]|].
  eapply rtc_l; [apply (w_remove _ _ _ _ _ _ _ 9 (s Removing) Registry.new_registry); vm_compute; reflexivity|].
  eapply rtc_l; [apply (w_close _ _ _ _ _ _ _ 9 (s Closing)); vm_compute; reflexivity|].
  eapply rtc_l; [apply (w_leave _ _ _ _ _ _ _ 9 (s Leaving)); vm_compute; reflexivity|].
  eapply rtc_l; [apply (w_left_unannounced _ _ _ _ _ _ _ 9 (s LeaveListing)); [vm_compute; reflexivity|exact I]|].
  eapply rtc_l; [apply (w_beat_refresh _ _ _ _ _ _ _ 0 5 [info (s Pumping)] []); vm_compute; reflexivity|].
  eapply rtc_l; [apply (w_beat_refreshed _ _ _ _ _ _ _ 0 0 5 [info (s Pumping)] [] listed); vm_compute; reflexivity|].
  eapply rtc_l; [apply (w_beat_failed _ _ _ _ _ _ _ 0 [] (BeatListing 5 [info (s Pumping)])); vm_compute; reflexivity|].
  eapply rtc_l; [apply (w_beat_done _ _ _ _ _ _ _ 0); vm_compute; reflexivity|].
  match goal with |- rtc _ ?x _ => assert (x = left_over) as -> by (vm_compute; reflexivity) end. constructor.
Qed.

Lemma left_over_quiet : quiet 9 left_over.
Proof.
  split; [by exists (s Ended)|]. intros r b u l x Hb. cbn in Hb. by rewrite lookup_empty in Hb.
Qed.
End ServeDemo.

(** A round of heartbeats that took its snapshot before a socket left lists the session
    again after [_session_left] removed it: the socket has ended, its connection is gone
    and no round is on the way, but for the time to live of the entry the user's list,
    and so the cap, still counts it. *)
Lemma heartbeat_relists_session :
  ∃ w, rtc ServeDemo.step new_world w ∧ (∃ s, sockets w !! 9 = Some s ∧ phase s = Ended) ∧
       beats w = ∅ ∧ Registry.for_user 5 (registry_of w 0) = [] ∧
       (Sessions.list_for (H := Ref.orjson) Ref.int_of ServeDemo.str_of 29999 (directory_of w 5)).2
       = Ok [mkInfo 9 "Firefox on Linux" 0].
Proof.
  exists ServeDemo.left_over. split; [exact ServeDemo.relisted_reachable|].
  split; [by exists (ServeDemo.s Ended)|]. split; [reflexivity|]. split; vm_compute; reflexivity.
Qed.

Lemma sockets_accounted_witness :
  Registry.for_user 5 (registry_of ServeDemo.pumping 0) = [9] ∧
  Registry.for_user 5 (registry_of ServeDemo.left_over 0) = [].
Proof.
  split; [vm_compute; reflexivity|].
  destruct (sockets_accounted (H := Ref.orjson) Ref.int_of ServeDemo.str_of pretty ServeDemo.name 30000 20
              ServeDemo.left_over 0 5 ServeDemo.left_over_reachable) as (_ & _ & Hnone).
  apply Hnone. clear Hnone. intros k s. cbn. rewrite lookup_singleton. case_decide; [|done]. intros [= <-]. by left.
Defined.

Lemma left_session_forgotten_witness :
  Sessions.list_for (H := Ref.orjson) Ref.int_of ServeDemo.str_of 29999 (directory_of ServeDemo.left_over 5)
    = (ServeDemo.listed, Ok [mkInfo 9 "Firefox on Linux" 0]) ∧
  9 ∉ session_id <$> [].
Proof.
  split; [vm_compute; reflexivity|].
  apply (left_session_forgotten (H := Ref.orjson) Ref.int_of ServeDemo.str_of pretty ServeDemo.name 30000 20
           ServeDemo.left_over (tick 30000 ServeDemo.left_over) 9 5 (mkDirectory ∅ ∅) []).
  - exact ServeDemo.left_over_reachable.
  - exact ServeDemo.left_over_quiet.
  - apply rtc_once, w_clock. vm_compute. discriminate.
  - vm_compute. discriminate.
  - vm_compute. reflexivity.
Defined.

(** Two sockets of one user on two replicas, with room for one. *)
Module CapDemo.
#[local] Existing Instance Ref.orjson.
Definition step : World → World → Prop := world_step Ref.int_of ServeDemo.str_of pretty ServeDemo.name 30000 1.
Definition older (p : Phase) : Socket := mkSocket 0 5 (mkInfo 1 "Firefox" 0) None p.
Definition younger (p : Phase) : Socket := mkSocket 1 5 (mkInfo 2 "Chrome" 0) None p.
Definition member (k : Z) : Registry.Registry := Registry.mkRegistry {[5 := {[k]}]} ∅ ∅.
Definition entry (k : Z) (lbl : string) : string := dumps (Sessions.session_json "api-1" 0 (mkInfo k lbl 0)).
Definition one : Directory := mkDirectory {[uuid_str 2 := 30000]} {[uuid_str 2 := entry 2 "Chrome"]}.
Definition both : Directory :=
  mkDirectory {[uuid_str 1 := 30000; uuid_str 2 := 30000]}
    {[uuid_str 1 := entry 1 "Firefox"; uuid_str 2 := entry 2 "Chrome"]}.
Definition frame (l : list SessionInfo) : string := sessions_frame pretty l.
Definition one_listed : string := frame [mkInfo 2 "Chrome" 0].
Definition both_listed : string := frame [mkInfo 1 "Firefox" 0; mkInfo 2 "Chrome" 0].

Definition over : World :=
  mkWorld 0 {[0%nat := member 1; 1%nat := member 2]} {[5 := both]}
    {[1 := older Pumping; 2 := younger Pumping]} ∅ [(5, one_listed); (5, both_listed)] [].

(** The older socket is still waiting for its replica's subscription when the younger one
    registers, finds itself alone and is admitted; then the older one ranks first. *)
Lemma over_reachable : rtc step new_world over.
Proof.
  eapply rtc_l; [apply (w_open _ _ _ _ _ _ new_world 1 0 5 "Firefox"); [reflexivity|lia]|].
  eapply rtc_l; [apply (w_open _ _ _ _ _ _ _ 2 1 5 "Chrome"); [reflexivity|lia]|].
  eapply rtc_l; [apply (w_add _ _ _ _ _ _ _ 2 (younger Admitting) (member 2)); vm_compute; reflexivity|].
  eapply rtc_l; [apply (w_register _ _ _ _ _ _ _ 2 (younger Joining)); vm_compute; reflexivity|].
  eapply rtc_l; [apply (w_registered _ _ _ _ _ _ _ 2 (younger (Registering 0)) 0 one); vm_compute; reflexivity|].
  eapply rtc_l; [apply (w_list _ _ _ _ _ _ _ 2 (younger Listing)); vm_compute; reflexivity|].
  eapply rtc_l; [eapply (w_judge _ _ _ _ _ _ _ 2 (younger (Pruning ∅ [uuid_str 2]))); vm_compute; reflexivity|].
  eapply rtc_l; [apply (w_announce _ _ _ _ _ _ _ 2 (younger (Announcing one_listed)) one_listed); vm_compute; reflexivity|].
  eapply rtc_l; [apply (w_greet _ _ _ _ _ _ _ 2 (younger Greeting)); vm_compute; reflexivity|].
  eapply rtc_l; [apply (w_add _ _ _ _ _ _ _ 1 (older Admitting) (member 1)); vm_compute; reflexivity|].
  eapply rtc_l; [apply (w_register _ _ _ _ _ _ _ 1 (older Joining)); vm_compute; reflexivity|].
  eapply rtc_l; [apply (w_registered _ _ _ _ _ _ _ 1 (older (Registering 0)) 0 both); vm_compute; reflexivity|].
  eapply rtc_l; [apply (w_list _ _ _ _ _ _ _ 1 (older Listing)); vm_compute; reflexivity|].
  eapply rtc_l; [eapply (w_judge _ _ _ _ _ _ _ 1 (older (Pruning ∅ [uuid_str 1; uuid_str 2]))); vm_compute; reflexivity|].
  eapply rtc_l; [apply (w_announce _ _ _ _ _ _ _ 1 (older (Announcing both_listed)) both_listed); vm_compute; reflexivity|].
  eapply rtc_l; [apply (w_greet _ _ _ _ _ _ _ 1 (older Greeting)); vm_compute; reflexivity|].
  match goal with |- rtc _ ?x _ => assert (x = over) as -> by (vm_compute; reflexivity) end. constructor.
Qed.
End CapDemo.

(** The cap can be exceeded: two replicas that admit sockets of one user at once do not
    always agree on the surplus one. A socket is ranked by the moment it was accepted but
    listed only after its replica's registry admitted it, so a younger socket can be
    admitted before an older one is listed, and the older one is admitted after it. *)
Lemma cap_exceeded_by_late_registration :
  ∃ w, rtc (world_step (H := Ref.orjson) Ref.int_of ServeDemo.str_of pretty ServeDemo.name 30000 1) new_world w ∧
       (∃ s, sockets w !! 1 = Some s ∧ owner s = 5 ∧ phase s = Pumping) ∧
       (∃ s, sockets w !! 2 = Some s ∧ owner s = 5 ∧ phase s = Pumping).
Proof.
  exists CapDemo.over. split; [exact CapDemo.over_reachable|].
  split; [by exists (CapDemo.older Pumping)|by exists (CapDemo.younger Pumping)].
Qed.
