(* ===== verification/Gateway.v ===== *)
(** * Fan-out between replicas and the messages of a client
    (src/geotrack/realtime/bridge.py and src/geotrack/realtime/gateway.py)

    The bridge's subscriptions, the delivery of one pub/sub message into the hub or
    the connections of a user, and the handling of one message of a client. *)
From S2P Require Import Prelude Floats Clock Geo Grid Text Json JsonRef Keys Codec Protocol Hub Connection Ingest.

(** ** Subscriptions *)

Record RedisBridge := mkBridge { wanted : gset string; held : gset string; dropped : Z }.
Definition new_bridge : RedisBridge := mkBridge {[POSITIONS_CHANNEL]} ∅ 0.
Definition in_sync (b : RedisBridge) : bool := bool_decide (held b = wanted b).

(** [_apply]: whether UNSUBSCRIBE and SUBSCRIBE succeed. A failure of the first skips
    the second. *)
Definition apply_subscriptions (unsubscribed subscribed : bool) (b : RedisBridge) : RedisBridge * bool :=
  let stale := held b ∖ wanted b in
  let missing := wanted b ∖ held b in
  if decide (stale = ∅ ∧ missing = ∅) then (b, true)
  else
    let b' :=
      if decide (stale = ∅) then
        if subscribed then mkBridge (wanted b) (held b ∪ missing) (dropped b) else b
      else if unsubscribed then
        let h := held b ∖ stale in
        if decide (missing = ∅) then mkBridge (wanted b) h (dropped b)
        else if subscribed then mkBridge (wanted b) (h ∪ missing) (dropped b)
        else mkBridge (wanted b) h (dropped b)
      else b in
    (b', in_sync b').

Definition subscribe_user (unsub sub : bool) (u : Z) (b : RedisBridge) : RedisBridge :=
  (apply_subscriptions unsub sub (mkBridge ({[user_channel u]} ∪ wanted b) (held b) (dropped b))).1.
Definition unsubscribe_user (unsub sub : bool) (u : Z) (b : RedisBridge) : RedisBridge :=
  (apply_subscriptions unsub sub (mkBridge (wanted b ∖ {[user_channel u]}) (held b) (dropped b))).1.

(** A failed read of [_read]: the subscriptions went with the connection. *)
Definition read_failed (unsub sub : bool) (b : RedisBridge) : RedisBridge :=
  (apply_subscriptions unsub sub (mkBridge (wanted b) ∅ (dropped b))).1.
(** The repair at the end of a round of [_read]. *)
Definition repair (unsub sub : bool) (b : RedisBridge) : RedisBridge :=
  if in_sync b then b else (apply_subscriptions unsub sub b).1.

(** ** One pub/sub message *)

Record Gateway := mkGateway {
  gw_hub : PositionHub;
  gw_connections : gmap Z (Z * ClientConnection);   (* connection id: user, connection *)
  gw_bridge : RedisBridge }.

Section gateway.
Context `{Orjson}.
Variable float_of_str : string → option float64.
Variable int_of_str : string → option Z.
Variable cell_size_deg : float64.
Variable control_max : nat.

(** [Gateway._deliver]. *)
Definition deliver_user_frame (u : Z) (frame : string) (g : Gateway) : Gateway :=
  mkGateway (gw_hub g)
    ((λ uc : Z * ClientConnection,
        if decide (uc.1 = u) then (uc.1, send_control control_max frame uc.2) else uc) <$> gw_connections g)
    (gw_bridge g).

(** [_dispatch]: the gateway, and the exception it ended with. *)
Definition dispatch (channel data : string) (g : Gateway) : Gateway * option exn :=
  if decide (channel = POSITIONS_CHANNEL) then
    match decode_positions float_of_str int_of_str data with
    | Raise e => (g, Some e)
    | Ok items => let '(h', e) := apply cell_size_deg items (gw_hub g) in
                  (mkGateway h' (gw_connections g) (gw_bridge g), e)
    end
  else if negb (utf8_valid channel) then (g, Some UnicodeDecodeError)
  else
    match user_id_from_channel channel with
    | Raise e => (g, Some e)
    | Ok u => if utf8_valid data then (deliver_user_frame u data g, None)
              else (g, Some UnicodeDecodeError)
    end.

(** [RedisBridge._deliver]: whatever was raised is counted and contained. *)
Definition deliver (channel data : string) (g : Gateway) : Gateway :=
  match dispatch channel data g with
  | (g', None) => g'
  | (g', Some _) => mkGateway (gw_hub g') (gw_connections g')
                      (mkBridge (wanted (gw_bridge g')) (held (gw_bridge g')) (dropped (gw_bridge g') + 1))
  end.

(** ** One message of a client *)

Definition MAX_CLIENT_MESSAGE_BYTES : Z := 16 * 1024.
Definition GATEWAY_MALFORMED_BUDGET : nat := 20.

(** [_reject]. *)
Definition reject_message (c : ClientConnection) (violations : list Z) (at_ : Z) (code detail : string)
  : ClientConnection * list Z * bool :=
  let vs := pop_while (λ t, t <? at_ - MALFORMED_WINDOW) violations ++ [at_] in
  if decide (GATEWAY_MALFORMED_BUDGET < length vs)%nat
  then (request_close CLOSE_PROTOCOL_ERROR "too many malformed messages" c, vs, false)
  else (send_control control_max (error_frame code detail None) c, vs, true).

(** The body of the loop of [_receive] for a payload: the connection, the violations
    and whether the loop goes on, or the exception that ends it. *)
Definition receive_message (at_ time_ns : Z) (payload : string) (violations : list Z)
    (c : ClientConnection) : res (ClientConnection * list Z * bool) :=
  if MAX_CLIENT_MESSAGE_BYTES <? Z.of_nat (String.length payload) then
    Ok (reject_message c violations at_ "message_too_large" "messages are limited to 16384 bytes")
  else
    match parse_client_message float_of_str payload with
    | Raise (ProtocolError msg) => Ok (reject_message c violations at_ "bad_message" msg)
    | Raise e => Raise e
    | Ok (ViewportMessage bbox) =>
        let! c' := set_viewport cell_size_deg bbox c in Ok (c', violations, true)
    | Ok (PingMessage t) =>
        Ok (send_control control_max (pong_frame t (now_ms time_ns)) c, violations, true)
    end.

(** [token_from_handshake]. *)
Fixpoint token_from_handshake (subprotocols : list string) (access_token : option string) : option string :=
  match subprotocols with
  | [] => access_token
  | offered :: rest =>
      match drop_prefix "bearer." offered with
      | Some token => Some token
      | None => token_from_handshake rest access_token
      end
  end.
End gateway.

(** ** Properties *)

(** the subscriptions converge. After any sequence of connects, disconnects, lost
    connections and repairs, with commands failing at will, one attempt whose commands
    succeed leaves the replica holding exactly the channels it wants, and what it wants
    is never changed by a failure. *)
Lemma bridge_converges b :
  let '(b', ok) := apply_subscriptions true true b in
  ok = true ∧ held b' = wanted b ∧ wanted b' = wanted b ∧
  ∀ unsub sub, wanted (apply_subscriptions unsub sub b).1 = wanted b ∧
    (in_sync b = true → (apply_subscriptions unsub sub b).1 = b) ∧
    held (apply_subscriptions unsub sub b).1 ⊆ held b ∪ wanted b.
Proof.
  assert (Hsync : (held b ∖ (held b ∖ wanted b)) ∪ (wanted b ∖ held b) = wanted b).
  { apply set_eq. intros x. rewrite elem_of_union, !elem_of_difference.
    destruct (decide (x ∈ held b)), (decide (x ∈ wanted b)); tauto. }
  assert (Hde : ∀ X : gset string, X ∖ ∅ = X) by (intros X; clear; set_solver).
  assert (Hue : ∀ X : gset string, X ∪ ∅ = X) by (intros X; clear; set_solver).
  assert (Hw : ∀ unsub sub, wanted (apply_subscriptions unsub sub b).1 = wanted b ∧
    (in_sync b = true → (apply_subscriptions unsub sub b).1 = b) ∧
    held (apply_subscriptions unsub sub b).1 ⊆ held b ∪ wanted b).
  { intros unsub sub. unfold apply_subscriptions, in_sync. case_decide as Hd.
    { cbn. split_and!; [done|done|apply union_subseteq_l]. }
    split; [by repeat case_decide; destruct unsub, sub|]. split.
    - intros E%bool_decide_eq_true. exfalso. apply Hd. rewrite E. split; apply difference_diag_L.
    - repeat case_decide; destruct unsub, sub; cbn; clear; set_solver. }
  assert (Hheld : held (apply_subscriptions true true b).1 = wanted b ∧
                  (apply_subscriptions true true b).2 = true).
  { unfold apply_subscriptions in *. case_decide as Hd.
    - destruct Hd as [Hst Hmi]. rewrite Hst, Hmi, Hde, Hue in Hsync. done.
    - cbn. unfold in_sync. rewrite bool_decide_eq_true.
      destruct (decide (held b ∖ wanted b = ∅)) as [E|E]; cbn.
      + rewrite E, Hde in Hsync. done.
      + destruct (decide (wanted b ∖ held b = ∅)) as [E'|E']; cbn; [|done].
        rewrite E', Hue in Hsync. done. }
  destruct (Hw true true) as [Hw1 _]. destruct Hheld as [H1 H2].
  destruct (apply_subscriptions true true b) as [b' ok]. cbn in *. done.
Qed.

(** a message addressed to a user reaches every connection of that user on the
    replica and no other connection; the hub is not touched. *)
Lemma user_frame_delivered `{Orjson} float_of_str int_of_str cell_size control_max g u frame k v c :
  0 ≤ u < 2 ^ 128 → utf8_valid frame = true → gw_connections g !! k = Some (v, c) →
  let g' := deliver float_of_str int_of_str cell_size control_max (user_channel u) frame g in
  gw_connections g' !! k = Some (v, if decide (v = u) then send_control control_max frame c else c) ∧
  gw_hub g' = gw_hub g ∧ gw_bridge g' = gw_bridge g.
Proof.
  intros Hu Hf Hk. unfold deliver, dispatch.
  rewrite decide_False by apply user_channel_not_positions.
  rewrite user_channel_utf8, user_channel_roundtrip, Hf by done. cbn. split; [|done].
  rewrite lookup_fmap, Hk. cbn. by case_decide.
Qed.

(** no message can harm the fan-out. Whatever bytes arrive on whatever channel, the
    hub's invariant survives, the subscriptions are untouched, and a message that does
    not address this connection's user leaves the connection as it was. *)
Lemma any_message_contained `{Orjson} float_of_str int_of_str cell_size control_max g channel data :
  hub_wf cell_size (gw_hub g) →
  let g' := deliver float_of_str int_of_str cell_size control_max channel data g in
  hub_wf cell_size (gw_hub g') ∧
  wanted (gw_bridge g') = wanted (gw_bridge g) ∧ held (gw_bridge g') = held (gw_bridge g) ∧
  ∀ k u c, gw_connections g !! k = Some (u, c) →
    ∃ c', gw_connections g' !! k = Some (u, c') ∧
      (c' = c ∨ user_id_from_channel channel = Ok u ∧ c' = send_control control_max data c).
Proof.
  intros Hwf. unfold deliver.
  assert (Hd : let '(g', _) := dispatch float_of_str int_of_str cell_size control_max channel data g in
    hub_wf cell_size (gw_hub g') ∧ gw_bridge g' = gw_bridge g ∧
    ∀ k u c, gw_connections g !! k = Some (u, c) →
      ∃ c', gw_connections g' !! k = Some (u, c') ∧
        (c' = c ∨ user_id_from_channel channel = Ok u ∧ c' = send_control control_max data c)).
  { unfold dispatch. case_decide.
    - destruct (decode_positions _ _ _) as [items|]; [|eauto 10].
      pose proof (apply_wf cell_size items (gw_hub g) Hwf) as Ha.
      destruct (apply cell_size items (gw_hub g)) as [h' e]. eauto 10.
    - destruct (utf8_valid channel); cbn; [|eauto 10].
      destruct (user_id_from_channel channel) as [u|] eqn:Eu; [|eauto 10].
      destruct (utf8_valid data); [|eauto 10]. cbn. split_and!; [done..|]. intros k v c Hk.
      rewrite lookup_fmap, Hk. cbn. case_decide as E; subst; eauto 10. }
  destruct (dispatch _ _ _ _ _ _ _) as [g' [e|]]; destruct Hd as (H1 & -> & H3); done.
Qed.

Module GatewaySamples.
Definition g : Gateway :=
  mkGateway HubSamples.h {[1 := (7, new_connection); 2 := (8, new_connection)]} new_bridge.
Definition frame : string := "{}".
End GatewaySamples.

Lemma user_frame_delivered_witness :
  let g' := deliver (H := Ref.orjson) Samples.no_floats Samples.no_ints HubSamples.cell_size 4 (user_channel 7)
              GatewaySamples.frame GatewaySamples.g in
  gw_connections g' !! 2 = Some (8, if decide (8 = 7) then send_control 4 GatewaySamples.frame new_connection
                                    else new_connection) ∧
  gw_hub g' = gw_hub GatewaySamples.g ∧ gw_bridge g' = gw_bridge GatewaySamples.g.
Proof.
  apply (user_frame_delivered (H := Ref.orjson) Samples.no_floats Samples.no_ints HubSamples.cell_size 4
           GatewaySamples.g 7 GatewaySamples.frame 2 8 new_connection); [lia|reflexivity|reflexivity].
Defined.

Lemma any_message_contained_witness :
  let g' := deliver (H := Ref.orjson) Samples.no_floats Samples.no_ints HubSamples.cell_size 4 POSITIONS_CHANNEL
              "garbage" GatewaySamples.g in
  hub_wf (H := Ref.orjson) HubSamples.cell_size (gw_hub g') ∧ dropped (gw_bridge g') = 1.
Proof.
  assert (Hwf : hub_wf (H := Ref.orjson) HubSamples.cell_size (gw_hub GatewaySamples.g))
    by (apply (reachable_wf (H := Ref.orjson) HubSamples.cell_size 60000), reach_apply, reach_new).
  destruct (any_message_contained (H := Ref.orjson) Samples.no_floats Samples.no_ints HubSamples.cell_size 4
              GatewaySamples.g POSITIONS_CHANNEL "garbage" Hwf) as [H _].
  split; [exact H|vm_compute; reflexivity].
Defined.
