(* ===== verification/App.v ===== *)
(** * The process of an API replica
    (src/geotrack/api/app.py, src/geotrack/api/routes/health.py, the tasks of
    src/geotrack/ingest/backlog.py and src/geotrack/observability/loop_lag.py, and the
    reader of src/geotrack/realtime/bridge.py)

    What the lifespan opens and closes, the background tasks it runs and the exceptions
    each of their [try] clauses catches, when the replica answers that it is ready, and
    what the middleware counts. The operations of the components are those of their files;
    an event of a replica says what Redis, the database or a loop's body answered or
    raised. *)
From S2P Require Import Prelude Floats Clock Text Json JsonRef Keys Codec Hub Connection Gateway.
From S2P Require Import Ingest.
From S2P Require Problems Loops.

(** ** Exceptions and the clauses that catch them *)

(** What an await, or the body of a round, may raise: redis-py's errors, the operating
    system's ([TimeoutError] is one), a bare [RuntimeError], any other [Exception], and
    the cancellation of the task, which is none. *)
Inductive Exc := RedisError | OSError | RuntimeError | OtherError | Cancelled.
#[export] Instance Exc_eq_dec : EqDecision Exc.
Proof. solve_decision. Defined.

Definition Clause := list Exc.
Definition EXCEPTION : Clause := [RedisError; OSError; RuntimeError; OtherError].

(** What leaves a block that catches, or suppresses, the exceptions of a clause. *)
Definition escapes (clause : Clause) (raised : option Exc) : option Exc :=
  raised ≫= λ x, if decide (x ∈ clause) then None else Some x.

(** The clauses of the background tasks, one per [try] or [suppress]: [_read]'s around
    [get_message], *)
Definition read_excepts : Clause := EXCEPTION.
(** [_apply]'s around the two commands, *)
Definition apply_excepts : Clause := [RedisError; OSError].
(** [_deliver]'s, *)
Definition deliver_excepts : Clause := EXCEPTION.
(** those of [RedisBridge.stop], around the reader and around closing the pub/sub, *)
Definition stop_suppresses : Clause := [Cancelled; RedisError; OSError; RuntimeError].
Definition aclose_suppresses : Clause := [RedisError; OSError; RuntimeError].
(** the poller's in [start] and [_run], *)
Definition sample_excepts : Clause := EXCEPTION.
(** [_keep_running]'s, *)
Definition keep_running : Clause := EXCEPTION.
(** and those of the other stops. *)
Definition cancelled_only : Clause := [Cancelled].

(** ** Background tasks *)

(** The task of a component: none, running, or ended by an exception. *)
Inductive Task := NoTask | Alive | Dead (x : Exc).
#[export] Instance Task_eq_dec : EqDecision Task.
Proof. solve_decision. Defined.

Definition task_after (raised : option Exc) : Task := match raised with Some x => Dead x | None => Alive end.
(** Cancelling a task and awaiting it: what it ended with, past what the stop suppresses. *)
Definition joined (suppressed : Clause) (t : Task) : option Exc :=
  match t with
  | NoTask => None
  | Alive => escapes suppressed (Some Cancelled)
  | Dead x => escapes suppressed (Some x)
  end.

(** [BacklogMonitor] with its poller. *)
Record Poller := mkPoller { monitor : BacklogMonitor; poller : Task }.

(** A sample of the streams' lengths, or what taking it raised. *)
Definition Sample := (list Z + Exc)%type.
Definition sample_raised (s : Sample) : option Exc := match s with inl _ => None | inr x => Some x end.
Definition sampled (s : Sample) (m : BacklogMonitor) : BacklogMonitor :=
  poll (match s with inl lengths => Some lengths | inr _ => None end) m.

(** [start]: one sample up front, which may fail, then the loop. A second call does nothing. *)
Definition backlog_start (s : Sample) (p : Poller) : Poller * option Exc :=
  if decide (poller p = NoTask) then
    match escapes sample_excepts (sample_raised s) with
    | Some x => (p, Some x)
    | None => (mkPoller (sampled s (monitor p)) Alive, None)
    end
  else (p, None).
(** A round of [_run]: an exception of the sample is logged. *)
Definition backlog_round (s : Sample) (p : Poller) : Poller :=
  mkPoller (sampled s (monitor p)) (task_after (escapes sample_excepts (sample_raised s))).
(** [stop]: the task is gone also when awaiting it raises. *)
Definition backlog_stop (p : Poller) : Poller * option Exc :=
  (mkPoller (monitor p) NoTask, joined cancelled_only (poller p)).

(** [EventLoopLagMonitor]: the reading of a round, and whether it is worth a warning. *)
Definition lag_of (interval_s started woke : float64) : float64 :=
  fmax (fsub (fsub woke started) interval_s) (flit 0).
Definition lag_warns (warn_after_s lag : float64) : bool := fleb warn_after_s lag.

(** ** The bridge's reader *)

Inductive Command := UNSUBSCRIBE | SUBSCRIBE.

(** What Redis makes of the two commands of [_apply], should they be sent. *)
Record Answers := mkAnswers { unsubscribe_raises : option Exc; subscribe_raises : option Exc }.

(** The body of [_apply]'s [try]: the bridge, the commands it sent with their answers, and
    what it raised. *)
Definition send_commands (an : Answers) (b : RedisBridge) : RedisBridge * list (Command * option Exc) * option Exc :=
  let stale := held b ∖ wanted b in
  let missing := wanted b ∖ held b in
  let '(b1, sent1, raised) :=
    if decide (stale = ∅) then (b, [], None)
    else match unsubscribe_raises an with
         | None => (mkBridge (wanted b) (held b ∖ stale) (dropped b), [(UNSUBSCRIBE, None)], None)
         | Some x => (b, [(UNSUBSCRIBE, Some x)], Some x)
         end in
  match raised with
  | Some x => (b1, sent1, Some x)
  | None =>
      if decide (missing = ∅) then (b1, sent1, None)
      else match subscribe_raises an with
           | None => (mkBridge (wanted b1) (held b1 ∪ missing) (dropped b1), sent1 ++ [(SUBSCRIBE, None)], None)
           | Some x => (b1, sent1 ++ [(SUBSCRIBE, Some x)], Some x)
           end
  end.

(** [_sync], which is [_apply] under the bridge's lock. The lock is held from the first
    command to the last, so the whole of it is one step here. *)
Definition sync (an : Answers) (b : RedisBridge) : RedisBridge * list (Command * option Exc) * option Exc :=
  let '(b', sent, raised) := send_commands an b in (b', sent, escapes apply_excepts raised).

Definition with_bridge (b : RedisBridge) (g : Gateway) : Gateway := mkGateway (gw_hub g) (gw_connections g) b.
Definition count_dropped (b : RedisBridge) : RedisBridge := mkBridge (wanted b) (held b) (dropped b + 1).

(** ** The process *)

(** The gateway's three loops. *)
Inductive Loop := Positions | Stats | Sessions.
#[export] Instance Loop_eq_dec : EqDecision Loop.
Proof. solve_decision. Defined.

Record Api := mkApi {
  backlog_monitor : Poller;
  loop_lag : Task;
  gateway : Gateway;
  running : bool;          (* the bridge's [_running] *)
  reader : Task;
  resyncing : bool;        (* the reader sleeps after a failed read *)
  loops : Loop → Task;
  engine_open : bool; redis_open : bool; pubsub_open : bool }.

Definition with_gateway (g : Gateway) (a : Api) : Api :=
  mkApi (backlog_monitor a) (loop_lag a) g (running a) (reader a) (resyncing a) (loops a)
    (engine_open a) (redis_open a) (pubsub_open a).
Definition with_reader (g : Gateway) (t : Task) (resync : bool) (a : Api) : Api :=
  mkApi (backlog_monitor a) (loop_lag a) g (running a) t resync (loops a)
    (engine_open a) (redis_open a) (pubsub_open a).
Definition with_poller (p : Poller) (a : Api) : Api :=
  mkApi p (loop_lag a) (gateway a) (running a) (reader a) (resyncing a) (loops a)
    (engine_open a) (redis_open a) (pubsub_open a).
Definition with_loop (l : Loop) (t : Task) (a : Api) : Api :=
  mkApi (backlog_monitor a) (loop_lag a) (gateway a) (running a) (reader a) (resyncing a)
    (λ l', if decide (l' = l) then t else loops a l') (engine_open a) (redis_open a) (pubsub_open a).

(** [RedisBridge.delivering]. *)
Definition delivering (a : Api) : bool := running a && bool_decide (reader a = Alive).

(** [/health/ready]; [failed] is the text of what [gather] raised, or of the timeout, if
    it did not end with both dependencies having answered. *)
Inductive Readiness := Up | NotReady (p : Problems.ProblemError).
Definition not_ready (detail : string) : Readiness :=
  NotReady (Problems.mkProblem 503 "Service unavailable" "not_ready" (Some detail) [("Retry-After", "1")] []).
Definition ready (failed : option string) (a : Api) : Readiness :=
  match failed with
  | Some text => not_ready ("A dependency is not reachable: " +:+ text)
  | None => if delivering a then Up
            else not_ready "The realtime fan-out reader is not running on this replica."
  end.

(** *** The shutdown *)

Definition and_then (r : Api * option Exc) (f : Api → Api * option Exc) : Api * option Exc :=
  match r with (a, None) => f a | (a, Some x) => (a, Some x) end.

(** [RedisBridge.stop]; [aclose] is what closing the pub/sub raises. *)
Definition bridge_stop (aclose : option Exc) (a : Api) : Api * option Exc :=
  let a1 := mkApi (backlog_monitor a) (loop_lag a) (gateway a) false (reader a) (resyncing a) (loops a)
              (engine_open a) (redis_open a) (pubsub_open a) in
  match joined stop_suppresses (reader a) with
  | Some x => (a1, Some x)
  | None => (with_reader (gateway a1) NoTask false a1, escapes aclose_suppresses aclose)
  end.

Definition told (g : Gateway) : Gateway :=
  mkGateway (gw_hub g)
    ((λ uc : Z * ClientConnection, (uc.1, request_close 1001 "server shutting down" uc.2)) <$> gw_connections g)
    (gw_bridge g).

(** [Gateway.stop]: the loops, which are awaited in order; the clients; the bridge. *)
Definition gateway_stop (aclose : option Exc) (a : Api) : Api * option Exc :=
  match filter (λ x : option Exc, x ≠ None) (joined cancelled_only ∘ loops a <$> [Positions; Stats; Sessions]) with
  | x :: _ => (a, x)
  | [] => bridge_stop aclose
            (mkApi (backlog_monitor a) (loop_lag a) (told (gateway a)) (running a) (reader a) (resyncing a)
               (λ _, NoTask) (engine_open a) (redis_open a) (pubsub_open a))
  end.

(** What the closes of a shutdown raise. *)
Record Closes := mkCloses { aclose : option Exc; close_pubsub : option Exc; close_redis : option Exc; dispose : option Exc }.

(** [lifespan] after its yield: the first exception ends it, and what comes after it is
    not done. *)
Definition lifespan_stop (c : Closes) (a : Api) : Api * option Exc :=
  and_then (gateway_stop (aclose c) a) (λ a,
  and_then (let '(p, x) := backlog_stop (backlog_monitor a) in (with_poller p a, x)) (λ a,
  and_then (mkApi (backlog_monitor a) NoTask (gateway a) (running a) (reader a) (resyncing a) (loops a)
              (engine_open a) (redis_open a) (pubsub_open a), joined cancelled_only (loop_lag a)) (λ a,
  let opened e r p := mkApi (backlog_monitor a) (loop_lag a) (gateway a) (running a) (reader a) (resyncing a) (loops a) e r p in
  match close_pubsub c with Some x => (opened true true true, Some x) | None =>
  match close_redis c with Some x => (opened true true false, Some x) | None =>
  match dispose c with Some x => (opened true false false, Some x) | None => (opened false false false, None)
  end end end))).

Section process.
Context `{Orjson}.
Variable float_of_str : string → option float64.
Variable int_of_str : string → option Z.
Variable cell_size_deg : float64.
Variable stale_after_ms : Z.
Variable control_max : nat.

(** [_deliver]: what [_dispatch] raises is none of Redis's errors, and is counted. *)
Definition deliver_message (channel data : string) (g : Gateway) : Gateway * option Exc :=
  match dispatch float_of_str int_of_str cell_size_deg control_max channel data g with
  | (g', None) => (g', None)
  | (g', Some _) =>
      match escapes deliver_excepts (Some OtherError) with
      | None => (with_bridge (count_dropped (gw_bridge g')) g', None)
      | Some x => (g', Some x)
      end
  end.

(** [lifespan] up to its yield. A refusal comes before anything connects; an exception of
    the gateway's start leaves what was opened before it as it is. *)
Inductive Started := Refused (e : exn) | Failed (a : Api) (x : Exc) | Serving (a : Api).

Definition lifespan_start (verified : res unit) (high low poll_ms : Z) (sample : Sample)
    (query : Z → list (list Row)) (broken_after : option nat) (time_ns : Z) (an : Answers) : Started :=
  match (let! _ := verified in new_monitor high low poll_ms) with
  | Raise e => Refused e
  | Ok m =>
      let h := (Loops.gateway_start cell_size_deg stale_after_ms query broken_after time_ns (flit 0)).2 in
      match backlog_start sample (mkPoller m NoTask) with
      | (p, Some x) => Failed (mkApi p Alive (mkGateway new_hub ∅ new_bridge) false NoTask false (λ _, NoTask) true true true) x
      | (p, None) =>
          let '(b, _, raised) := sync an new_bridge in
          let g := mkGateway h ∅ b in
          match raised with
          | Some x => Failed (mkApi p Alive g true NoTask false (λ _, NoTask) true true true) x
          | None => Serving (mkApi p Alive g true Alive false (λ _, Alive) true true true)
          end
      end
  end.

(** What the loops and the senders do to the hub. *)
Inductive hub_work : PositionHub → PositionHub → Prop :=
  | work_sweep now h : hub_work h (sweep stale_after_ms now h)
  | work_drain t_ms h : hub_work h (drain t_ms h).1
  | work_discard h : hub_work h (discard_pending h)
  | work_snapshot rects h : hub_work h (snapshot_chunks rects h).1.

(** What happens to a serving replica: what Redis answers, and what its tasks run into. *)
Inductive Event :=
  | MessageCame (channel data : string)
  | ReadRaised (x : Exc)
  | Resynced (sent : list (Command * option Exc))    (* the reader's sync after a failed read *)
  | Repaired (sent : list (Command * option Exc))    (* the reader's sync at the end of a round *)
  | Sampled (s : Sample)
  | LoopRan (l : Loop) (raised : option Exc)
  | ClientSynced (sent : list (Command * option Exc)) (* a session's first or last connection *)
  | ClientServed.                                    (* connections come and go, senders run *)

(** Nobody but a stop cancels the tasks of a replica; a client's own task may be cancelled. *)
Definition not_cancelled (raised : option Exc) : Prop := raised ≠ Some Cancelled.
Definition answers_ok (an : Answers) : Prop :=
  not_cancelled (unsubscribe_raises an) ∧ not_cancelled (subscribe_raises an).

Inductive api_step (a : Api) : Event → Api → Prop :=
  | step_message channel data g raised : reader a = Alive → resyncing a = false →
      deliver_message channel data (gateway a) = (g, raised) →
      api_step a (MessageCame channel data) (with_reader g (task_after raised) false a)
  | step_read_raises x : reader a = Alive → resyncing a = false → not_cancelled (Some x) →
      let b := gw_bridge (gateway a) in
      api_step a (ReadRaised x)
        (match escapes read_excepts (Some x) with
         | Some x => with_reader (gateway a) (Dead x) false a
         | None => with_reader (with_bridge (mkBridge (wanted b) ∅ (dropped b)) (gateway a)) Alive true a
         end)
  | step_resync an b sent raised : reader a = Alive → resyncing a = true → answers_ok an →
      sync an (gw_bridge (gateway a)) = (b, sent, raised) →
      api_step a (Resynced sent) (with_reader (with_bridge b (gateway a)) (task_after raised) false a)
  | step_repair an b sent raised : reader a = Alive → resyncing a = false → answers_ok an →
      in_sync (gw_bridge (gateway a)) = false →
      sync an (gw_bridge (gateway a)) = (b, sent, raised) →
      api_step a (Repaired sent) (with_reader (with_bridge b (gateway a)) (task_after raised) false a)
  | step_sample s : poller (backlog_monitor a) = Alive → not_cancelled (sample_raised s) →
      api_step a (Sampled s) (with_poller (backlog_round s (backlog_monitor a)) a)
  | step_loop l h' connections raised : loops a l = Alive → not_cancelled raised →
      rtc hub_work (gw_hub (gateway a)) h' →
      api_step a (LoopRan l raised)
        (with_loop l (task_after (escapes keep_running raised))
           (with_gateway (mkGateway h' connections (gw_bridge (gateway a))) a))
  | step_subscribe an u b sent raised :
      let b0 := gw_bridge (gateway a) in
      sync an (mkBridge ({[user_channel u]} ∪ wanted b0) (held b0) (dropped b0)) = (b, sent, raised) →
      api_step a (ClientSynced sent) (with_gateway (with_bridge b (gateway a)) a)
  | step_unsubscribe an u b sent raised :
      let b0 := gw_bridge (gateway a) in
      sync an (mkBridge (wanted b0 ∖ {[user_channel u]}) (held b0) (dropped b0)) = (b, sent, raised) →
      api_step a (ClientSynced sent) (with_gateway (with_bridge b (gateway a)) a)
  | step_serve h' connections : rtc hub_work (gw_hub (gateway a)) h' →
      api_step a ClientServed (with_gateway (mkGateway h' connections (gw_bridge (gateway a))) a).

(** The states of a replica that started, with everything that happened to it since. *)
Inductive api_reachable : list Event → Api → Prop :=
  | api_started verified high low poll_ms sample query broken_after time_ns an a :
      lifespan_start verified high low poll_ms sample query broken_after time_ns an = Serving a →
      api_reachable [] a
  | api_next trace ev a a' : api_reachable trace a → api_step a ev a' → api_reachable (trace ++ [ev]) a'.
End process.

(** A command of the reader was answered with an exception that is neither Redis's nor the
    operating system's. *)
Definition killed_by (x : Exc) (trace : list Event) : Prop :=
  x ≠ RedisError ∧ x ≠ OSError ∧
  ∃ sent c, (Resynced sent ∈ trace ∨ Repaired sent ∈ trace) ∧ (c, Some x) ∈ sent.

(** ** The middleware that counts requests *)

(** What the application under [MetricsMiddleware] sends; only the start of a response
    carries a status. *)
Inductive Message := ResponseStart (status : Z) | OtherMessage.

(** The scope as the application leaves it: [route] is the [path] of the matched route. *)
Record Request := mkRequest {
  scope_type : string; method : option string; route : option string; sent : list Message }.

Definition status_seen (messages : list Message) : Z :=
  foldl (λ s m, match m with ResponseStart status => status | OtherMessage => s end) 500 messages.

Definition labels_of (r : Request) : string * string * string :=
  (default "GET" (method r), default "unmatched" (route r), pretty (status_seen (sent r))).

(** [http_requests_total] after a request, whether the application returned or raised. *)
Definition count_request (counts : gmap (string * string * string) Z) (r : Request)
  : gmap (string * string * string) Z :=
  if decide (scope_type r = "http")
  then <[labels_of r := default 0 (counts !! labels_of r) + 1]> counts
  else counts.

(** ** Lemmas *)

Lemma count_request_lookup counts r k :
  default 0 (count_request counts r !! k)
  = default 0 (counts !! k) + (if decide (scope_type r = "http" ∧ labels_of r = k) then 1 else 0).
Proof.
  unfold count_request. destruct (decide (scope_type r = "http")) as [Ht|Ht].
  - rewrite lookup_insert. repeat case_decide; subst; cbn; naive_solver lia.
  - rewrite decide_False by tauto. lia.
Qed.

(** Every HTTP request is counted once, under the status its response started with, or 500
    if it ended before one did; other traffic is not counted. *)
Lemma requests_counted requests k :
  default 0 (foldl count_request ∅ requests !! k)
  = Z.of_nat (length (filter (λ r, scope_type r = "http" ∧ labels_of r = k) requests)).
Proof.
  induction requests as [|r requests IH] using rev_ind; [done|].
  rewrite foldl_snoc, count_request_lookup, IH, filter_app, length_app, filter_cons, filter_nil.
  case_decide; cbn; lia.
Qed.

Lemma escapes_exception x : x ≠ Cancelled → escapes EXCEPTION (Some x) = None.
Proof. by destruct x. Qed.

Lemma escapes_round raised : not_cancelled raised → escapes EXCEPTION raised = None.
Proof. destruct raised as [x|]; [|done]. intros Hx. apply escapes_exception. by intros ->. Qed.

(** A sync leaves the wishes alone, and raises what one of its commands was answered with,
    if the clause does not name it. *)
Lemma sync_facts an b b' sent raised :
  sync an b = (b', sent, raised) →
  wanted b' = wanted b ∧
  (∀ x, raised = Some x ↔ x ≠ RedisError ∧ x ≠ OSError ∧ ∃ c, (c, Some x) ∈ sent) ∧
  (answers_ok an → raised ≠ Some Cancelled).
Proof.
  unfold sync, send_commands. intros Hs.
  assert (Hesc : ∀ y x, escapes apply_excepts (Some y) = Some x ↔ y = x ∧ x ≠ RedisError ∧ x ≠ OSError).
  { intros y x. unfold escapes, apply_excepts. cbn. destruct y; repeat case_decide; set_solver. }
  destruct an as [[x1|] [x2|]], (decide (held b ∖ wanted b = ∅)), (decide (wanted b ∖ held b = ∅));
    injection Hs as <- <- <-; (split; [done|]);
    (split; [intros x; rewrite ?Hesc; set_solver|]); intros [Hu Hv] Hq;
    try discriminate Hq; apply Hesc in Hq as [-> _]; (by apply Hu) || (by apply Hv).
Qed.

(** The bridge afterwards is that of [Gateway.apply_subscriptions], whatever was raised. *)
Lemma sync_bridge an b :
  (sync an b).1.1 = (apply_subscriptions (bool_decide (unsubscribe_raises an = None))
                       (bool_decide (subscribe_raises an = None)) b).1.
Proof.
  unfold sync, send_commands, apply_subscriptions. destruct an as [[x1|] [x2|]]; cbn;
    destruct (decide (held b ∖ wanted b = ∅)) as [E|E], (decide (wanted b ∖ held b = ∅)) as [E'|E']; cbn;
    by repeat case_decide; intuition idtac.
Qed.

Lemma set_converges (X Y : gset string) :
  (X ∖ Y = ∅ → Y ∖ X = ∅ → X = Y) ∧ (X ∖ Y = ∅ → X ∪ Y ∖ X = Y) ∧
  (Y ∖ X = ∅ → X ∖ (X ∖ Y) = Y) ∧ X ∖ (X ∖ Y) ∪ Y ∖ X = Y.
Proof.
  assert (Hall : X ∖ (X ∖ Y) ∪ Y ∖ X = Y).
  { apply set_eq. intros x. rewrite elem_of_union, !elem_of_difference.
    destruct (decide (x ∈ X)), (decide (x ∈ Y)); tauto. }
  assert (Hd : ∀ Z : gset string, Z ∖ ∅ = Z) by (intros Z; clear; set_solver).
  assert (Hu : ∀ Z : gset string, Z ∪ ∅ = Z) by (intros Z; clear; set_solver).
  split_and!; [| | |exact Hall]; intros E; [intros E'|..]; rewrite ?E, ?E', ?Hd, ?Hu in Hall; done.
Qed.

Lemma sync_good b :
  ∃ sent, sync (mkAnswers None None) b = (mkBridge (wanted b) (wanted b) (dropped b), sent, None).
Proof.
  unfold sync, send_commands. cbn [unsubscribe_raises subscribe_raises]. destruct b as [w h d]. cbn [wanted held dropped].
  destruct (set_converges h w) as (H1 & H2 & H3 & H4).
  destruct (decide (h ∖ w = ∅)) as [E|E]; cbn [wanted held dropped]; destruct (decide (w ∖ h = ∅)) as [E'|E'];
    rewrite ?H1, ?H2, ?H3, ?H4 by done; eexists; reflexivity.
Qed.

Section process_facts.
Context `{Orjson}.
Variable float_of_str : string → option float64.
Variable int_of_str : string → option Z.
Variable cell_size_deg : float64.
Variable stale_after_ms : Z.
Variable control_max : nat.
Local Notation hub_ok := (Hub.reachable cell_size_deg stale_after_ms).
Local Notation api_step := (api_step float_of_str int_of_str cell_size_deg stale_after_ms control_max).

Lemma partial_loop_reachable ps h : hub_ok h → hub_ok (Loops.partial_loop cell_size_deg ps h).
Proof.
  revert h. induction ps as [|rows ps IH]; intros h Hh; [done|]. cbn.
  destruct (traverse row_item rows) as [items|]; [|done].
  pose proof (reach_apply cell_size_deg stale_after_ms items h Hh) as Ha.
  destruct (apply cell_size_deg items h) as [h' [e|]]; [done|by apply IH].
Qed.

(** A message is handled or counted; nothing it does ends the reader. *)
Lemma deliver_message_ok channel data g :
  hub_ok (gw_hub g) →
  ∃ g', deliver_message float_of_str int_of_str cell_size_deg control_max channel data g = (g', None) ∧
    g' = deliver float_of_str int_of_str cell_size_deg control_max channel data g ∧
    hub_ok (gw_hub g') ∧ wanted (gw_bridge g') = wanted (gw_bridge g).
Proof.
  intros Hg. unfold deliver_message, deliver, dispatch, deliver_excepts. rewrite (escapes_exception OtherError) by done. case_decide.
  - destruct (decode_positions _ _ _) as [items|]; [|by eexists].
    pose proof (reach_apply cell_size_deg stale_after_ms items _ Hg) as Ha.
    destruct (apply cell_size_deg items (gw_hub g)) as [h' [e|]]; by eexists.
  - destruct (utf8_valid channel); cbn; [|by eexists].
    destruct (user_id_from_channel channel); [|by eexists]. destruct (utf8_valid data); by eexists.
Qed.

Lemma hub_work_reachable h h' : rtc (hub_work stale_after_ms) h h' → hub_ok h → hub_ok h'.
Proof. induction 1 as [|h h1 h2 Hw _ IH]; [done|]. intros Hh. apply IH. destruct Hw; by constructor. Qed.

(** What holds of a replica from its start to its shutdown. *)
Record api_ok (trace : list Event) (a : Api) : Prop := {
  ok_hub : hub_ok (gw_hub (gateway a));
  ok_channel : POSITIONS_CHANNEL ∈ wanted (gw_bridge (gateway a));
  ok_poller : poller (backlog_monitor a) = Alive;
  ok_loops l : loops a l = Alive;
  ok_lag : loop_lag a = Alive;
  ok_running : running a = true;
  ok_open : engine_open a = true ∧ redis_open a = true ∧ pubsub_open a = true;
  ok_alive : reader a = Alive → ∀ x, ¬ killed_by x trace;
  ok_dead x : reader a = Dead x → x ≠ Cancelled ∧ ∀ y, killed_by y trace ↔ y = x;
  ok_task : reader a ≠ NoTask }.

Lemma killed_snoc x trace ev :
  killed_by x (trace ++ [ev]) ↔ killed_by x trace ∨ killed_by x [ev].
Proof. unfold killed_by. set_solver. Qed.
Lemma not_killed x ev : (∀ sent, ev ≠ Resynced sent ∧ ev ≠ Repaired sent) → ¬ killed_by x [ev].
Proof. intros Hev (_ & _ & sent & c & Hs & _). destruct (Hev sent). set_solver. Qed.

(** An event that is none of the reader's own syncs. *)
Lemma other_event trace ev a a' :
  api_ok trace a → (∀ sent, ev ≠ Resynced sent ∧ ev ≠ Repaired sent) →
  hub_ok (gw_hub (gateway a')) → POSITIONS_CHANNEL ∈ wanted (gw_bridge (gateway a')) →
  poller (backlog_monitor a') = Alive → (∀ l, loops a' l = Alive) → loop_lag a' = loop_lag a →
  running a' = running a → reader a' = reader a →
  engine_open a' = engine_open a ∧ redis_open a' = redis_open a ∧ pubsub_open a' = pubsub_open a →
  api_ok (trace ++ [ev]) a'.
Proof.
  intros [] Hev ? ? ? ? Hg Hr Ht (He & Hre & Hp).
  split; rewrite ?Hg, ?Hr, ?Ht, ?He, ?Hre, ?Hp; try done.
  - intros Ha x. rewrite killed_snoc. intros [Hk|Hk]; [by eapply ok_alive0|by eapply not_killed].
  - intros x Hx. destruct (ok_dead0 x Hx) as [? Hk]. split; [done|]. intros y. rewrite killed_snoc, Hk.
    split; [intros [?|?%not_killed]|]; auto; done.
Qed.

(** A sync of the reader's. *)
Lemma reader_synced trace ev a an b sent raised :
  api_ok trace a → reader a = Alive → answers_ok an → ev = Resynced sent ∨ ev = Repaired sent →
  sync an (gw_bridge (gateway a)) = (b, sent, raised) →
  api_ok (trace ++ [ev]) (with_reader (with_bridge b (gateway a)) (task_after raised) false a).
Proof.
  intros [] Ha Han Hev Hs. apply sync_facts in Hs as (Hw & Hr & Hc). specialize (Hc Han).
  assert (Hk : ∀ x, killed_by x [ev] ↔ raised = Some x).
  { intros x. rewrite Hr. unfold killed_by. split; [|destruct Hev as [-> | ->]; set_solver].
    intros (? & ? & sent' & c & Hin & Hx). split_and!; [done..|]. exists c.
    destruct Hev as [-> | ->]; set_solver. }
  split; cbn; rewrite ?Hw; try done.
  - intros Ht x. rewrite killed_snoc, Hk. destruct raised; [done|]. intros [Hx|]; [|done]. by eapply ok_alive0.
  - intros x Ht. destruct raised as [y|]; [|done]. injection Ht as ->. split; [congruence|]. intros y.
    rewrite killed_snoc, Hk. split; [|intros ->; by right]. intros [Hx|]; [by apply ok_alive0 in Hx|congruence].
  - by destruct raised.
Qed.

Lemma api_step_ok trace ev a a' : api_ok trace a → api_step a ev a' → api_ok (trace ++ [ev]) a'.
Proof.
  intros Hok Hstep. pose proof Hok as [].
  destruct Hstep as [ch data g raised Hr Hn E|x Hr Hn Hx b|an b sent raised Hr Hn Han E|an b sent raised Hr Hn Han Hs E
    |s Hp Hx|l h' cs raised Hl Hx Hw|an u b sent raised b0 E|an u b sent raised b0 E|h' cs Hw].
  - destruct (deliver_message_ok ch data (gateway a) ok_hub0) as (g' & E' & _ & Hg & Hw).
    rewrite E' in E. injection E as <- <-. eapply other_event; cbn; rewrite ?Hw, ?Hr; done.
  - unfold read_excepts. rewrite (escapes_round (Some x)) by done. eapply other_event; cbn; rewrite ?Hr; done.
  - eapply reader_synced; [done..|by left|done].
  - eapply reader_synced; [done..|by right|done].
  - eapply other_event; cbn; try done. unfold sample_excepts. by rewrite escapes_round.
  - eapply other_event; cbn; try done; [by eapply hub_work_reachable|]. intros l'. unfold keep_running.
    rewrite escapes_round by done. by case_decide.
  - apply sync_facts in E as (Hw & _). eapply other_event; cbn; rewrite ?Hw; cbn; try done. set_solver.
  - apply sync_facts in E as (Hw & _). eapply other_event; cbn; rewrite ?Hw; cbn; try done.
    apply elem_of_difference. split; [done|]. rewrite elem_of_singleton. intros E.
    by apply (user_channel_not_positions u).
  - eapply other_event; cbn; try done. by eapply hub_work_reachable.
Qed.

Lemma started_ok verified high low poll_ms sample query broken_after time_ns an a :
  lifespan_start cell_size_deg stale_after_ms verified high low poll_ms sample query broken_after time_ns an = Serving a →
  api_ok [] a.
Proof.
  unfold lifespan_start. destruct verified; cbn [bind]; [|done]. destruct (new_monitor _ _ _) as [m|]; [|done].
  unfold backlog_start. cbn [poller]. rewrite decide_True by done.
  destruct (escapes sample_excepts (sample_raised sample)); [done|].
  destruct (sync an new_bridge) as [[b sent] [x|]] eqn:E; [done|].
  intros [= <-]. apply sync_facts in E as (Hw & _).
  split; cbn; rewrite ?Hw; try done.
  - destruct broken_after as [n|].
    + destruct (from_epoch_ms _); [|apply reach_new]. apply partial_loop_reachable, reach_new.
    + apply reach_warm, reach_new.
  - intros _ x (_ & _ & sent' & c & [Hin|Hin] & _); by apply elem_of_nil in Hin.
Qed.

Lemma api_reachable_ok trace a :
  api_reachable float_of_str int_of_str cell_size_deg stale_after_ms control_max trace a → api_ok trace a.
Proof. induction 1; [by eapply started_ok|by eapply api_step_ok]. Qed.

(** What a shutdown comes to. *)
Lemma stopped trace a c :
  api_ok trace a →
  gateway (lifespan_stop c a).1 = told (gateway a) ∧ running (lifespan_stop c a).1 = false ∧
  (aclose c = None → close_pubsub c = None → close_redis c = None → dispose c = None →
   (∀ x, (lifespan_stop c a).2 = Some x ↔ x ≠ RuntimeError ∧ killed_by x trace) ∧
   ((lifespan_stop c a).2 = None →
    lifespan_stop c a = (mkApi (mkPoller (monitor (backlog_monitor a)) NoTask) NoTask (told (gateway a)) false NoTask
      false (λ _, NoTask) false false false, None))).
Proof.
  intros []. unfold lifespan_stop, gateway_stop.
  assert (joined cancelled_only ∘ loops a <$> [Positions; Stats; Sessions] = [None; None; None]) as ->.
  { cbn. by rewrite !ok_loops0. }
  cbn [filter list_filter]. rewrite !decide_False by tauto. unfold bridge_stop. cbn [reader].
  destruct (reader a) as [| |x] eqn:Hr; [done| |].
  - change (joined stop_suppresses Alive) with (@None Exc). cbn [with_reader].
    destruct (escapes aclose_suppresses (aclose c)) as [y|] eqn:Ey; cbn; rewrite ?ok_poller0, ?ok_lag0.
    + split_and!; [done..|]. intros Hc. by rewrite Hc in Ey.
    + cbn. destruct (close_pubsub c), (close_redis c), (dispose c); cbn; (split_and!; [done..|]); intros; try done.
      split; [|done]. intros x. split; [done|]. intros [_ Hk]. by eapply ok_alive0 in Hk.
  - destruct (ok_dead0 x eq_refl) as [Hx Hk]. 
    assert (Hj : joined stop_suppresses (Dead x) = if decide (x = RuntimeError) then None else Some x).
    { pose proof (proj2 (Hk x) eq_refl) as (? & ? & _). by destruct x. }
    rewrite Hj. case_decide as Ex.
    + destruct (escapes aclose_suppresses (aclose c)) as [y|] eqn:Ey; cbn; rewrite ?ok_poller0, ?ok_lag0.
      * split_and!; [done..|]. intros Hc. by rewrite Hc in Ey.
      * cbn. destruct (close_pubsub c), (close_redis c), (dispose c); cbn; (split_and!; [done..|]); intros; try done.
        split; [|done]. intros y. split; [done|]. intros [Hy ->%Hk]. congruence.
    + cbn. split_and!; [done..|]. intros _ _ _ _. split; [|done]. intros y.
      rewrite Hk. split; [intros [= ->]; done|intros [? ->]; done].
Qed.
End process_facts.

(** ** Properties *)

(** C33: a replica keeps serving until a subscription command kills its reader, and says
    so from then on. Whatever arrives on its channels, whatever its reads, samples and
    rounds raise, and while clients come and go: the hub stays consistent, the poller and
    the three loops stay alive and the channel of positions stays wanted. With both
    dependencies answering, the replica is ready exactly as long as no SUBSCRIBE or
    UNSUBSCRIBE of its reader was answered with an exception other than Redis's and the
    operating system's; a failed read is survived whatever it raised, and one sync that
    Redis answers leaves the replica holding exactly the channels it wants. A shutdown
    tells every client and leaves the replica not ready, whatever its closes raise; when
    they raise nothing it closes everything, unless the reader had died of something else
    than a RuntimeError, which comes up again and stops it after the clients were told. *)
Theorem ready_until_reader_ends `{Orjson} float_of_str int_of_str cell_size_deg stale_after_ms control_max trace a :
  api_reachable float_of_str int_of_str cell_size_deg stale_after_ms control_max trace a →
  hub_wf cell_size_deg (gw_hub (gateway a)) ∧
  POSITIONS_CHANNEL ∈ wanted (gw_bridge (gateway a)) ∧
  poller (backlog_monitor a) = Alive ∧ (∀ l, loops a l = Alive) ∧
  (ready None a = Up ↔ ∀ x, ¬ killed_by x trace) ∧
  (∃ sent, sync (mkAnswers None None) (gw_bridge (gateway a))
   = (mkBridge (wanted (gw_bridge (gateway a))) (wanted (gw_bridge (gateway a))) (dropped (gw_bridge (gateway a))), sent, None)) ∧
  ∀ c, let a' := (lifespan_stop c a).1 in
  (∀ failed, ready failed a' ≠ Up) ∧
  (∀ k u conn, gw_connections (gateway a) !! k = Some (u, conn) →
     ∃ conn', gw_connections (gateway a') !! k = Some (u, conn') ∧ closing conn' = true) ∧
  (c = mkCloses None None None None →
   (∀ x, (lifespan_stop c a).2 = Some x ↔ x ≠ RuntimeError ∧ killed_by x trace) ∧
   ((lifespan_stop c a).2 = None →
    reader a' = NoTask ∧ poller (backlog_monitor a') = NoTask ∧ loop_lag a' = NoTask ∧ (∀ l, loops a' l = NoTask) ∧
    engine_open a' = false ∧ redis_open a' = false ∧ pubsub_open a' = false)).
Proof.
  intros Hok%api_reachable_ok. pose proof Hok as [Hh Hc Hp Hl Hg Hrun Hopen Halive Hdead Htask].
  split_and!; [by eapply reachable_wf|done..| |apply sync_good|].
  - unfold ready, delivering. rewrite Hrun. destruct (reader a) as [| |x]; [done| |].
    + split; [intros _; by apply Halive|done].
    + split; [done|]. intros Hk. destruct (Hk x). by apply (Hdead x).
  - intros c a'. destruct (stopped _ _ trace a c Hok) as (Hgw & Hnr & Hdone). split_and!.
    + intros [text|]; [done|]. unfold ready, delivering, a'. by rewrite Hnr.
    + intros k u conn Hk. exists (request_close 1001 "server shutting down" conn). unfold a'. rewrite Hgw. cbn.
      rewrite lookup_fmap, Hk. split; [done|]. unfold request_close. by destruct (closing conn) eqn:E.
    + intros ->. destruct Hdone as [Hx Hend]; [done..|]. split; [done|]. intros E. unfold a'. by rewrite (Hend E).
Qed.

(** ** A replica that starts while Redis refuses to subscribe, repairs, and is cut off *)
Module AppDemo.
Definition fine : Answers := mkAnswers None None.
Definition refused : Answers := mkAnswers (Some RedisError) (Some RedisError).
Definition odd : Answers := mkAnswers (Some OtherError) (Some OtherError).
Definition started (an : Answers) : Started :=
  lifespan_start HubSamples.cell_size 60000 (Ok tt) 1000 500 250 (inr OSError) (λ _, []) (Some 0%nat) 0 an.
Definition cold : Api :=
  match started refused with Serving a => a | _ => mkApi (mkPoller (mkMonitor 0 0 0 false 0) NoTask) NoTask
    (mkGateway new_hub ∅ new_bridge) false NoTask false (λ _, NoTask) false false false end.
Notation reachable :=
  (api_reachable (H := Ref.orjson) Samples.no_floats Samples.no_ints HubSamples.cell_size 60000 4).

Lemma cold_reachable : reachable [] cold.
Proof.
  eapply (api_started _ _ _ _ _ (Ok tt) 1000 500 250 (inr OSError) (λ _, []) (Some 0%nat) 0 refused).
  reflexivity.
Qed.

(** The next read raises redis-py's bare RuntimeError; the reader goes on. *)
Definition survived : Api := with_reader (gateway cold) Alive true cold.
Lemma survived_reachable : reachable [ReadRaised RuntimeError] survived.
Proof.
  apply (api_next _ _ _ _ _ [] (ReadRaised RuntimeError) cold); [apply cold_reachable|].
  by apply (step_read_raises _ _ _ _ _ cold RuntimeError).
Qed.

(** The command it then sends is answered with an exception of another kind. *)
Definition cut_off : Api := with_reader (gateway cold) (Dead OtherError) false survived.
Lemma cut_off_reachable : reachable [ReadRaised RuntimeError; Resynced [(SUBSCRIBE, Some OtherError)]] cut_off.
Proof.
  apply (api_next _ _ _ _ _ [ReadRaised RuntimeError] (Resynced [(SUBSCRIBE, Some OtherError)]) survived);
    [apply survived_reachable|].
  by apply (step_resync _ _ _ _ _ survived odd (gw_bridge (gateway cold)) _ (Some OtherError)).
Qed.
End AppDemo.

Lemma ready_until_reader_ends_witness :
  ready None AppDemo.survived = Up ∧ ready None AppDemo.cut_off ≠ Up ∧
  (lifespan_stop (mkCloses None None None None) AppDemo.cut_off).2 = Some OtherError.
Proof.
  destruct (ready_until_reader_ends (H := Ref.orjson) _ _ _ _ _ _ _ AppDemo.survived_reachable)
    as (_ & _ & _ & _ & Hup & _).
  destruct (ready_until_reader_ends (H := Ref.orjson) _ _ _ _ _ _ _ AppDemo.cut_off_reachable)
    as (_ & _ & _ & _ & Hcut & _ & Hstop).
  assert (Hk : killed_by OtherError [ReadRaised RuntimeError; Resynced [(SUBSCRIBE, Some OtherError)]]).
  { split; [discriminate|]. split; [discriminate|]. eexists _, SUBSCRIBE. split; [left; right; left|left]. }
  split; [|split].
  - apply Hup. intros x (_ & _ & sent & c & [Hin|Hin] & _); by apply list_elem_of_singleton in Hin.
  - intros E. exact (proj1 Hcut E OtherError Hk).
  - destruct (Hstop (mkCloses None None None None)) as (_ & _ & Hq). apply (proj1 (Hq eq_refl)). split; [discriminate|exact Hk].
Defined.

(** The replica answers that it is ready as long as its reader runs, also while Redis holds
    none of its channels and no update can reach it. *)
Lemma ready_without_channels :
  AppDemo.reachable [] AppDemo.cold ∧ held (gw_bridge (gateway AppDemo.cold)) = ∅ ∧
  in_sync (gw_bridge (gateway AppDemo.cold)) = false ∧ ready None AppDemo.cold = Up.
Proof. split; [apply AppDemo.cold_reachable|]. by vm_compute. Qed.

(** A start that fails in the bridge leaves the poller running and the engine and both
    clients open: nothing before the yield of the lifespan is undone. *)
Lemma failed_start_stays_open :
  ∃ a, AppDemo.started AppDemo.odd = Failed a OtherError ∧ poller (backlog_monitor a) = Alive ∧
    engine_open a = true ∧ redis_open a = true ∧ pubsub_open a = true.
Proof. eexists. split; [reflexivity|]. done. Qed.

(** The module says the reader never dies; a command of its own that is answered with
    anything but a RedisError or an OSError ends it, and the shutdown with it, before the
    poller is stopped and the clients and the engine are closed. *)
Lemma dead_reader_stops_shutdown :
  let '(a, raised) := lifespan_stop (mkCloses None None None None) AppDemo.cut_off in
  raised = Some OtherError ∧ poller (backlog_monitor a) = Alive ∧ engine_open a = true ∧ redis_open a = true.
Proof. by vm_compute. Qed.
