(* ===== verification/Accounts.v ===== *)
(** * Who a request speaks for (src/geotrack/api/security.py, src/geotrack/api/deps.py,
    src/geotrack/api/routes/auth.py and ws_client.py,
    src/geotrack/db/repositories/users.py)

    Bearer tokens, the key of the devices, and the accounts behind usernames. The signed
    token format is PyJWT's: an interface with its documented laws. *)
From S2P Require Import Prelude Text Json JsonRef Keys Problems Protocol Gateway.

(** ** Tokens *)

(** [jwt.encode] and [jwt.decode] with the options the code passes: HS256, a leeway of
    five seconds, [exp], [iat] and [sub] required. Claims that are datetimes travel as
    whole seconds; the clock is in microseconds. *)
Class Jwt := {
  jwt_encode : list (string * json) → string → string;
  jwt_decode : string → string → Z → res (list (string * json)) }.

Definition LEEWAY_US : Z := 5 * 1000000.

Definition token_char (c : ascii) : bool :=
  between 48 57 c || between 65 90 c || between 97 122 c
  || bool_decide (c = "-"%char ∨ c = "_"%char ∨ c = "."%char).

(** What is relied on, of a secret PyJWT takes as a key for HS256 (it refuses PEM and SSH
    keys), about the claims the code issues: times, a subject and an identifier that are
    texts, and neither [nbf] nor [aud], which would be checked too. *)
Definition plain_claims (claims : list (string * json)) (iat exp : Z) : Prop :=
  dumpable (JObj claims) = true ∧
  assoc "iat" claims = Some (JInt iat) ∧ assoc "exp" claims = Some (JInt exp) ∧
  (∃ sub, assoc "sub" claims = Some (JStr sub)) ∧ (∃ jti, assoc "jti" claims = Some (JStr jti)) ∧
  assoc "nbf" claims = None ∧ assoc "aud" claims = None.

Class JwtLaws `{Jwt} (usable : string → Prop) : Prop := {
  (* within its time, a token is read back as the claims it was made from *)
  jwt_valid claims secret now iat exp : usable secret → plain_claims claims iat exp →
    iat * 1000000 ≤ now + LEEWAY_US → now - LEEWAY_US < exp * 1000000 →
    jwt_decode (jwt_encode claims secret) secret now = Ok claims;
  jwt_expired claims secret now iat exp : usable secret → plain_claims claims iat exp →
    exp * 1000000 ≤ now - LEEWAY_US →
    ∃ msg, jwt_decode (jwt_encode claims secret) secret now = Raise (InvalidTokenError msg);
  (* three runs of base64url characters *)
  jwt_text claims secret : usable secret →
    Forall (λ c, token_char c = true) (chars (jwt_encode claims secret)) }.

Record TokenClaims := mkClaims { user_id : Z; username : string }.

Section security.
Context `{Jwt}.
Variable str_of : json → string.             (* [str(x)] of a parsed value *)
Variables (jwt_secret : string) (jwt_ttl_seconds : Z).

(** [create_access_token]; [now] is [utc_now()], [jti] the fresh identifier. *)
Definition token_claims (now jti uid : Z) (name : string) : list (string * json) :=
  [("sub", JStr (uuid_str uid)); ("name", JStr name); ("iat", JInt (now / 1000000));
   ("exp", JInt ((now + jwt_ttl_seconds * 1000000) / 1000000)); ("jti", JStr (uuid_str jti))].
Definition create_access_token (now jti uid : Z) (name : string) : string * Z :=
  (jwt_encode (token_claims now jti uid name) jwt_secret, jwt_ttl_seconds).

(** The body of the try of [decode_access_token]. *)
Definition claims_of (payload : list (string * json)) : res TokenClaims :=
  match assoc "sub" payload with
  | None => Raise KeyError
  | Some (JStr sub) =>
      let! uid := uuid_of_str sub in
      match assoc "name" payload with
      | None => Raise KeyError
      | Some name => Ok (mkClaims uid (match name with JStr t => t | _ => str_of name end))
      end
  | Some _ => Raise TypeError
  end.

Definition decode_access_token (now : Z) (token : string) : res TokenClaims :=
  match (let! payload := jwt_decode token jwt_secret now in claims_of payload) with
  | Raise (InvalidTokenError msg) => Raise (InvalidTokenError msg)
  | Raise KeyError => Raise (InvalidTokenError "KeyError")
  | Raise (ValueError msg) => Raise (InvalidTokenError msg)
  | r => r
  end.

(** ** Dependencies of the routes *)

Definition unauthorized (detail : string) : ProblemError :=
  mkProblem 401 "Authentication required" "unauthorized" (Some detail) [("WWW-Authenticate", "Bearer")] [].

(** [s.split(" ", 1)[1]] when a space occurs. *)
Fixpoint after_first (sep : ascii) (s : string) : option string :=
  match s with
  | "" => None
  | String c s' => if decide (c = sep) then Some s' else after_first sep s'
  end.

(** The value is Latin-1 text: no other character of it lowers to a letter of the prefix,
    and a token with other white space around it is refused by [jwt.decode] all the same. *)
Definition get_current_user (now : Z) (authorization : option string) : ProblemError + TokenClaims :=
  match authorization with
  | None => inl (unauthorized "Provide a bearer token from POST /api/v1/auth/login.")
  | Some value =>
      if startswith "bearer " (lower value) then
        match decode_access_token now (strip py_space (default "" (after_first " "%char value))) with
        | Ok claims => inr claims
        | Raise (InvalidTokenError msg) => inl (unauthorized ("The access token is not valid: " +:+ msg))
        | Raise _ => inl (mkProblem 500 "Internal Server Error" "internal_error" None [] [])
        end
      else inl (unauthorized "Provide a bearer token from POST /api/v1/auth/login.")
  end.

(** [GET /me]. *)
Record UserOut := mkUser { id : Z; name : string }.
Definition user_of (c : TokenClaims) : UserOut := mkUser (user_id c) (username c).
Definition me (now : Z) (authorization : option string) : ProblemError + UserOut :=
  match get_current_user now authorization with inl p => inl p | inr c => inr (user_of c) end.

(** *** The dashboard's websocket *)

Definition WS_SUBPROTOCOL : string := "geotrack.v1".
Inductive Admission :=
  | ClosedWith (code : Z) (reason : string)
  | Served (user : UserOut)
  | Crashed (e : exn).

(** [client_stream]: the subprotocol of the accept, and what follows. *)
Definition client_stream (now : Z) (offered : list string) (access_token : option string)
  : option string * Admission :=
  (if decide (WS_SUBPROTOCOL ∈ offered) then Some WS_SUBPROTOCOL else None,
   match decode_access_token now (default "" (token_from_handshake offered access_token)) with
   | Ok claims => Served (user_of claims)
   | Raise (InvalidTokenError _) => ClosedWith CLOSE_UNAUTHORIZED "invalid access token"
   | Raise e => Crashed e
   end).
End security.

(** ** The devices' key *)

Definition byte_char (n : Z) : ascii := ascii_of_N (Z.to_N n).

(** Latin-1: a header's bytes as text, and a text's bytes when it has them. *)
Fixpoint latin1_decode (raw : string) : string :=
  match raw with
  | "" => ""
  | String c raw' =>
      if between 0 127 c then String c (latin1_decode raw')
      else String (byte_char (192 + Text.code c / 64))
             (String (byte_char (128 + Text.code c mod 64)) (latin1_decode raw'))
  end.
Fixpoint latin1_encode (text : string) : option string :=
  match text with
  | "" => Some ""
  | String c1 rest1 =>
      if between 0 127 c1 then String c1 <$> latin1_encode rest1
      else match rest1 with
           | String c2 rest2 =>
               if between 194 195 c1 && cont c2 then
                 String (byte_char ((Text.code c1 - 192) * 64 + (Text.code c2 - 128))) <$> latin1_encode rest2
               else None
           | "" => None
           end
  end.

Definition key_candidates (provided : string) : list string :=
  provided :: match latin1_encode provided with Some raw => [raw] | None => [] end.

Definition verify_ingest_key (expected : string) (provided : option string) : ProblemError + unit :=
  match provided with
  | Some key =>
      if decide (key ≠ "" ∧ expected ∈ key_candidates key) then inr tt
      else inl (mkProblem 401 "Authentication required" "unauthorized"
                  (Some "A valid X-Ingest-Key header is required to submit device reports.") [] [])
  | None => inl (mkProblem 401 "Authentication required" "unauthorized"
                  (Some "A valid X-Ingest-Key header is required to submit device reports.") [] [])
  end.

(** The key a websocket of a device presents: [x_ingest_key or key]. *)
Definition ws_ingest_key (header query : option string) : option string :=
  match header with Some h => if decide (h = "") then query else Some h | None => query end.

(** ** Accounts: [get_or_create] in concurrent logins *)

Definition username_char (c : ascii) : bool :=
  between 48 57 c || between 65 90 c || between 97 122 c
  || bool_decide (c = "_"%char ∨ c = "."%char ∨ c = "-"%char).
Definition username_ok (s : string) : bool :=
  (3 <=? Z.of_nat (String.length s)) && (Z.of_nat (String.length s) <=? 32) && forallb username_char (chars s).

Inductive Stage :=
  | Inserting                 (* about to run, or waiting in, _INSERT *)
  | Reading                   (* the insert returned no row: _SELECT is next *)
  | Returned (uid : Z)        (* get_or_create returned; session.commit() is next *)
  | LoggedIn (uid : Z)        (* committed; the token names this account *)
  | Failed (e : exn).

Record Login := mkLogin { given : string; stage : Stage }.
(** [LoginRequest._normalise]. *)
Definition normalised (l : Login) : string := lower (given l).

(** The users table as committed, the rows of open transactions, and the requests. *)
Record Users := mkUsers {
  rows : gmap string Z; inserted : gmap nat (string * Z); logins : gmap nat Login }.

Definition move (i : nat) (l : Login) (st : Stage) (u : Users) : Users :=
  mkUsers (rows u) (inserted u) (<[i := mkLogin (given l) st]> (logins u)).

Definition fresh_id (uid : Z) (u : Users) : Prop :=
  (∀ n, rows u !! n ≠ Some uid) ∧ (∀ j n, inserted u !! j ≠ Some (n, uid)).

Inductive login_step : Users → Users → Prop :=
  | log_open u i raw : logins u !! i = None → username_ok raw = true →
      login_step u (move i (mkLogin raw Inserting) Inserting u)
  (* no such row, committed or not: the insert takes place *)
  | log_insert u i l uid : logins u !! i = Some l → stage l = Inserting →
      rows u !! normalised l = None → (∀ j n x, inserted u !! j = Some (n, x) → n ≠ normalised l) →
      fresh_id uid u →
      login_step u (move i l (Returned uid)
        (mkUsers (rows u) (<[i := (normalised l, uid)]> (inserted u)) (logins u)))
  (* ON CONFLICT DO NOTHING: a committed row is there; an uncommitted one is waited for *)
  | log_conflict u i l : logins u !! i = Some l → stage l = Inserting →
      is_Some (rows u !! normalised l) → login_step u (move i l Reading u)
  | log_read u i l : logins u !! i = Some l → stage l = Reading →
      login_step u (move i l
        match rows u !! normalised l with
        | Some uid => Returned uid
        | None => Failed (RuntimeError ("user " +:+ normalised l +:+ " vanished between insert and read"))
        end u)
  | log_commit u i l uid : logins u !! i = Some l → stage l = Returned uid →
      login_step u (move i l (LoggedIn uid)
        (mkUsers (match inserted u !! i with Some (n, x) => <[n := x]> (rows u) | None => rows u end)
           (delete i (inserted u)) (logins u)))
  (* the commit takes effect, but its answer is lost with the connection *)
  | log_commit_unanswered u i l uid : logins u !! i = Some l → stage l = Returned uid →
      login_step u (move i l (Failed OSError)
        (mkUsers (match inserted u !! i with Some (n, x) => <[n := x]> (rows u) | None => rows u end)
           (delete i (inserted u)) (logins u)))
  (* the connection is lost: the transaction goes with it *)
  | log_lost u i l : logins u !! i = Some l →
      stage l = Inserting ∨ stage l = Reading ∨ (∃ uid, stage l = Returned uid) →
      login_step u (move i l (Failed OSError) (mkUsers (rows u) (delete i (inserted u)) (logins u))).

Definition login_ok (u : Users) (i : nat) (l : Login) : Prop :=
  match stage l with
  | Inserting => inserted u !! i = None
  | Reading => inserted u !! i = None ∧ is_Some (rows u !! normalised l)
  | Returned uid =>
      inserted u !! i = Some (normalised l, uid) ∨
      inserted u !! i = None ∧ rows u !! normalised l = Some uid
  | LoggedIn uid => inserted u !! i = None ∧ rows u !! normalised l = Some uid
  | Failed e => inserted u !! i = None ∧ e = OSError
  end.

(** The rows, committed and not: one per name, one per identifier. *)
Record tables_ok (rows : gmap string Z) (inserted : gmap nat (string * Z)) : Prop := {
  row_ids n m uid : rows !! n = Some uid → rows !! m = Some uid → n = m;
  insert_new i n uid : inserted !! i = Some (n, uid) → rows !! n = None ∧ ∀ m, rows !! m ≠ Some uid;
  insert_alone i j n m x y : inserted !! i = Some (n, x) → inserted !! j = Some (m, y) →
    n = m ∨ x = y → i = j }.

Record users_ok (u : Users) : Prop := {
  tables : tables_ok (rows u) (inserted u);
  insert_login i : is_Some (inserted u !! i) → is_Some (logins u !! i);
  logins_ok i l : logins u !! i = Some l → login_ok u i l }.

Lemma tables_delete i rows inserted : tables_ok rows inserted → tables_ok rows (delete i inserted).
Proof.
  intros [H1 H2 H3]. split; [done|..].
  - intros j n uid [_ Hj]%lookup_delete_Some. by apply H2 in Hj.
  - intros j k n m x y [_ Hj]%lookup_delete_Some [_ Hk]%lookup_delete_Some. eauto.
Qed.

Lemma tables_insert i n uid u :
  tables_ok (rows u) (inserted u) → rows u !! n = None →
  (∀ j m x, inserted u !! j = Some (m, x) → m ≠ n) → fresh_id uid u →
  tables_ok (rows u) (<[i := (n, uid)]> (inserted u)).
Proof.
  intros [H1 H2 H3] Hn Hno [Hf Hf']. split; [done|..].
  - intros j m x. rewrite lookup_insert. case_decide; [by intros [= <- <-]|apply H2].
  - intros j k m m' x y. rewrite !lookup_insert. repeat case_decide; subst; try done; [|..|eauto].
    + intros [= <- <-] Hk [->| ->]; [by apply Hno in Hk|by apply Hf' in Hk].
    + intros Hj [= <- <-] [->| ->]; [by apply Hno in Hj|by apply Hf' in Hj].
Qed.

Lemma tables_commit i n uid rows inserted :
  tables_ok rows inserted → inserted !! i = Some (n, uid) →
  tables_ok (<[n := uid]> rows) (delete i inserted).
Proof.
  intros [H1 H2 H3] Hi. pose proof (H2 _ _ _ Hi) as [Hn Huid]. split.
  - intros m m' x. rewrite !lookup_insert. repeat case_decide; subst; try done; [..|eauto].
    + intros [= <-] Hm. by apply Huid in Hm.
    + intros Hm [= <-]. by apply Huid in Hm.
  - intros j m x [Hne Hj]%lookup_delete_Some. pose proof (H2 _ _ _ Hj) as [Hm Hx]. split.
    + rewrite lookup_insert_ne; [done|]. intros ->. by apply Hne, (H3 _ _ _ _ _ _ Hi Hj); left.
    + intros m'. rewrite lookup_insert. case_decide; [|apply Hx].
      intros [= ->]. by apply Hne, (H3 _ _ _ _ _ _ Hi Hj); right.
  - intros j k m m' x y [_ Hj]%lookup_delete_Some [_ Hk]%lookup_delete_Some. eauto.
Qed.

(** A login keeps what it knows when rows are added and other transactions move. *)
Lemma login_ok_stable u u' j l :
  rows u ⊆ rows u' → inserted u' !! j = inserted u !! j → login_ok u j l → login_ok u' j l.
Proof.
  intros Hsub Hins. unfold login_ok. rewrite Hins.
  destruct (stage l); try done; intros Hl.
  - destruct Hl as [? [x Hx]]. split; [done|]. exists x. by eapply lookup_weaken.
  - destruct Hl as [?|[? Hx]]; [by left|right]. split; [done|]. by eapply lookup_weaken.
  - destruct Hl as [? Hx]. split; [done|]. by eapply lookup_weaken.
Qed.

Lemma moved_ok u i l st rows' inserted' :
  users_ok u → rows u ⊆ rows' → (∀ j, j ≠ i → inserted' !! j = inserted u !! j) →
  tables_ok rows' inserted' →
  login_ok (mkUsers rows' inserted' (logins u)) i (mkLogin (given l) st) →
  users_ok (move i l st (mkUsers rows' inserted' (logins u))).
Proof.
  intros [Ht Hil Hl] Hsub Hins Ht' Hi. split; [done|..]; cbn.
  - intros j Hj. rewrite lookup_insert. case_decide; [by eexists|]. apply Hil. by rewrite <- Hins.
  - intros j l'. rewrite lookup_insert. case_decide as E; [intros [= <-]; by subst|].
    intros Hj. eapply (login_ok_stable u); [done|by apply Hins|by apply Hl].
Qed.

Lemma login_step_ok u u' : users_ok u → login_step u u' → users_ok u'.
Proof.
  intros Hok Hstep. pose proof Hok as [Ht Hil Hl].
  assert (Hcommitted : ∀ u i l uid st, users_ok u → logins u !! i = Some l → stage l = Returned uid →
    (∀ rows', rows' !! normalised l = Some uid → login_ok (mkUsers rows' (delete i (inserted u)) (logins u)) i (mkLogin (given l) st)) →
    users_ok (move i l st (mkUsers (match inserted u !! i with Some (n, x) => <[n := x]> (rows u) | None => rows u end)
           (delete i (inserted u)) (logins u)))).
  { clear. intros u i l uid st Hok Hi Hst Hend. pose proof Hok as [Ht _ Hl].
    pose proof (Hl _ _ Hi) as Hli. unfold login_ok in Hli. rewrite Hst in Hli. destruct Hli as [Hli|[Hni Hrow]].
    - rewrite Hli. pose proof (insert_new _ _ Ht _ _ _ Hli) as [Hnone _]. apply moved_ok; [done|..].
      + by apply insert_subseteq.
      + intros j Hj. by rewrite lookup_delete_ne.
      + by apply tables_commit.
      + apply Hend. by rewrite lookup_insert_eq.
    - rewrite Hni. apply moved_ok; [done..|intros j Hj; by rewrite lookup_delete_ne|by apply tables_delete|].
      by apply Hend. }
  destruct Hstep as [u i raw Hi Hraw|u i l uid Hi Hst Hn Hno Hf|u i l Hi Hst Hn|u i l Hi Hst
    |u i l uid Hi Hst|u i l uid Hi Hst|u i l Hi Hst]; try (pose proof (Hl _ _ Hi) as Hli; unfold login_ok in Hli).
  - apply (moved_ok u i (mkLogin raw Inserting)); try done. unfold login_ok; cbn.
    apply eq_None_not_Some. intros Hx%Hil. rewrite Hi in Hx. by destruct Hx.
  - apply moved_ok; [done..|intros j Hj; by rewrite lookup_insert_ne|by apply tables_insert|].
    unfold login_ok; cbn. left. by rewrite lookup_insert_eq.
  - rewrite Hst in Hli. by apply (moved_ok u i l).
  - rewrite Hst in Hli. destruct Hli as [Hni [uid Huid]].
    apply (moved_ok u i l); try done. unfold login_ok; cbn. rewrite Huid. by right.
  - apply (Hcommitted u i l uid); [done..|]. intros rows' Hrow. unfold login_ok; cbn. by rewrite lookup_delete_eq.
  - apply (Hcommitted u i l uid); [done..|]. intros rows' Hrow. unfold login_ok; cbn. by rewrite lookup_delete_eq.
  - apply moved_ok; [done..|intros j Hj; by rewrite lookup_delete_ne|by apply tables_delete|].
    unfold login_ok; cbn. by rewrite lookup_delete_eq.
Qed.

(** ** Reading a token back *)

Section tokens.
Context `{JwtLaws usable}.
Variables (str_of : json → string) (jwt_secret : string) (jwt_ttl_seconds : Z).
Hypothesis Hsecret : usable jwt_secret.

Lemma claims_of_token now jti uid name :
  0 ≤ uid < 2 ^ 128 → claims_of str_of (token_claims jwt_ttl_seconds now jti uid name) = Ok (mkClaims uid name).
Proof.
  intros Hu. unfold claims_of.
  change (assoc "sub" (token_claims jwt_ttl_seconds now jti uid name)) with (Some (JStr (uuid_str uid))).
  cbn iota beta. by rewrite uuid_roundtrip by done.
Qed.

Lemma username_utf8 name : username_ok name = true → utf8_valid name = true.
Proof.
  unfold username_ok. intros [_ Hn]%andb_true_iff. apply ascii_utf8. unfold ascii_only.
  apply forallb_forall. intros c Hc. apply (proj1 (forallb_forall _ _) Hn) in Hc. revert Hc.
  unfold username_char, between.
  rewrite !orb_true_iff, bool_decide_eq_true. intros [[[Hc|Hc]|Hc]|[->|[->| ->]]]; try reflexivity; lia.
Qed.

Lemma uuid_str_utf8 v : utf8_valid (uuid_str v) = true.
Proof.
  apply ascii_utf8. unfold ascii_only. apply forallb_forall. intros c Hc%list_elem_of_In.
  pose proof (uuid_str_chars v) as Hv. rewrite Forall_forall in Hv. destruct (Hv c Hc) as [H1| ->]; [|done].
  unfold hexish, between in *. lia.
Qed.

(** The settings a deployment can have, and a clock of this millennium. *)
Context (Httl : 60 ≤ jwt_ttl_seconds ≤ 30 * 86400).

Lemma token_claims_dumpable now jti uid name :
  0 ≤ now < 2 ^ 62 → username_ok name = true →
  dumpable (JObj (token_claims jwt_ttl_seconds now jti uid name)) = true.
Proof.
  intros Hnow Hn. pose proof (username_utf8 _ Hn) as Hn'.
  pose proof (Z.div_pos now 1000000 ltac:(lia) ltac:(lia)).
  pose proof (Z.div_le_upper_bound now 1000000 (2 ^ 62) ltac:(lia) ltac:(lia)).
  unfold token_claims. rewrite Z.div_add by lia. cbn [dumpable forallb fst snd].
  rewrite !uuid_str_utf8, Hn'. apply andb_true_iff. split; [by vm_compute|].
  by rewrite !(proj2 (Z.leb_le _ _)), !(proj2 (Z.ltb_lt _ _)) by lia.
Qed.

Lemma token_claims_plain now jti uid name :
  0 ≤ now < 2 ^ 62 → username_ok name = true →
  plain_claims (token_claims jwt_ttl_seconds now jti uid name) (now / 1000000)
    ((now + jwt_ttl_seconds * 1000000) / 1000000).
Proof. intros Hnow Hn. split_and!; [by apply token_claims_dumpable|done|done|by eexists|by eexists|done|done]. Qed.

Lemma decode_within now now' jti uid name :
  0 ≤ now < 2 ^ 62 → username_ok name = true → 0 ≤ uid < 2 ^ 128 → now ≤ now' + LEEWAY_US →
  now' < (now / 1000000 + jwt_ttl_seconds) * 1000000 + LEEWAY_US →
  decode_access_token str_of jwt_secret now'
    (create_access_token jwt_secret jwt_ttl_seconds now jti uid name).1 = Ok (mkClaims uid name).
Proof.
  intros Hn0 Hname Hu Hnow Hexp. unfold decode_access_token, create_access_token. cbn [fst].
  erewrite jwt_valid; [|done|by apply token_claims_plain|..]; [by cbn [bind]; rewrite claims_of_token|..].
  - pose proof (Z.mul_div_le now 1000000 ltac:(lia)). lia.
  - rewrite Z.div_add by lia. lia.
Qed.

Lemma decode_after now now' jti uid name : 0 ≤ now < 2 ^ 62 → username_ok name = true →
  (now / 1000000 + jwt_ttl_seconds) * 1000000 + LEEWAY_US ≤ now' →
  ∃ msg, decode_access_token str_of jwt_secret now'
    (create_access_token jwt_secret jwt_ttl_seconds now jti uid name).1 = Raise (InvalidTokenError msg).
Proof.
  intros Hn0 Hname Hexp. unfold decode_access_token, create_access_token. cbn [fst].
  edestruct jwt_expired as [msg Hm]; [done|by apply token_claims_plain| |exists msg; by rewrite Hm].
  rewrite Z.div_add by lia. lia.
Qed.

Lemma token_char_space c : token_char c = true → py_space c = false.
Proof.
  unfold token_char, py_space, is_space, between. intros Hc.
  rewrite !orb_true_iff, bool_decide_eq_true in Hc.
  destruct Hc as [[[Hc|Hc]|Hc]|[->|[->| ->]]]; try reflexivity; lia.
Qed.

(** [authorization.split(" ", 1)[1].strip()] of a bearer header. *)
Lemma bearer_header text :
  startswith "bearer " (lower ("Bearer " +:+ text)) = true ∧
  after_first " "%char ("Bearer " +:+ text) = Some text.
Proof. split; [apply bool_decide_eq_true; cbn; by eexists|done]. Qed.

Lemma token_stripped payload : strip py_space (jwt_encode payload jwt_secret) = jwt_encode payload jwt_secret.
Proof. apply strip_id. eapply Forall_impl; [by apply jwt_text|]. intros c. apply token_char_space. Qed.

(** What both ways of authenticating make of a text. *)
Lemma header_of now text :
  strip py_space text = text →
  get_current_user str_of jwt_secret now (Some ("Bearer " +:+ text)) =
    match decode_access_token str_of jwt_secret now text with
    | Ok claims => inr claims
    | Raise (InvalidTokenError msg) => inl (unauthorized ("The access token is not valid: " +:+ msg))
    | Raise _ => inl (mkProblem 500 "Internal Server Error" "internal_error" None [] [])
    end.
Proof.
  intros Ht. unfold get_current_user. destruct (bearer_header text) as [-> ->].
  change (default "" (Some text)) with text. by rewrite Ht.
Qed.

Lemma decode_names_account now text claims :
  decode_access_token str_of jwt_secret now text = Ok claims →
  ∃ payload sub, jwt_decode text jwt_secret now = Ok payload ∧
    assoc "sub" payload = Some (JStr sub) ∧ uuid_of_str sub = Ok (user_id claims).
Proof.
  unfold decode_access_token. destruct (jwt_decode text jwt_secret now) as [payload|e]; [|by destruct e].
  cbn. unfold claims_of. destruct (assoc "sub" payload) as [[| | | |sub| |]|] eqn:Es; try done.
  destruct (uuid_of_str sub) as [uid|e] eqn:Eu; cbn; [|by destruct e].
  destruct (assoc "name" payload); cbn; [|done]. intros [= <-]. by exists payload, sub.
Qed.
End tokens.

(** ** Properties *)


(** C36: one account per name. However concurrent first logins interleave between
    insert, conflict, read, commit and loss of the connection, two logins that succeed
    get the same account exactly when their names agree up to case, and the read after
    a conflict always finds the row. *)
Theorem one_account_per_name u i j l m a b :
  rtc login_step (mkUsers ∅ ∅ ∅) u →
  logins u !! i = Some l → stage l = LoggedIn a → logins u !! j = Some m → stage m = LoggedIn b →
  (a = b ↔ lower (given l) = lower (given m)) ∧
  ∀ k x e, logins u !! k = Some x → stage x = Failed e → e = OSError.
Proof.
  intros Hr Hi Ha Hj Hb. assert (Hok : users_ok u).
  { revert u Hr Hi Hj. intros u Hr _ _. revert u Hr.
    apply (rtc_ind_r users_ok); [|intros u1 u2 _ Hstep H1; by eapply login_step_ok].
    split; [split|..]; cbn; intros *; rewrite ?lookup_empty; done. }
  split.
  - pose proof (logins_ok _ Hok _ _ Hi) as Hl. pose proof (logins_ok _ Hok _ _ Hj) as Hm.
    unfold login_ok in Hl, Hm. rewrite Ha in Hl. rewrite Hb in Hm. destruct Hl as [_ Hl], Hm as [_ Hm].
    unfold normalised in *. split; [intros ->|congruence]. by eapply (row_ids _ _ (tables _ Hok)).
  - intros k x e Hk Hx. pose proof (logins_ok _ Hok _ _ Hk) as Hl. unfold login_ok in Hl.
    rewrite Hx in Hl. by destruct Hl.
Qed.

(** ** The key of the devices *)

Lemma code_byte_char n : 0 ≤ n < 256 → Text.code (byte_char n) = n.
Proof. intros Hn. unfold Text.code, byte_char. rewrite N_ascii_embedding; lia. Qed.
Lemma byte_char_code c : byte_char (Text.code c) = c.
Proof. unfold byte_char, Text.code. rewrite N2Z.id. apply ascii_N_embedding. Qed.
Lemma code_range c : 0 ≤ Text.code c < 256.
Proof. unfold Text.code. pose proof (N_ascii_bounded c). lia. Qed.

Lemma latin1_roundtrip raw : latin1_encode (latin1_decode raw) = Some raw.
Proof.
  induction raw as [|c raw IH]; [done|]. cbn. destruct (between 0 127 c) eqn:E; cbn.
  { by rewrite E, IH. }
  pose proof (code_range c) as Hc. unfold between in E.
  assert (128 ≤ Text.code c) by lia.
  assert (2 ≤ Text.code c / 64 ≤ 3) by (split; [apply Z.div_le_lower_bound|apply Z.lt_succ_r, Z.div_lt_upper_bound]; lia).
  pose proof (Z.mod_pos_bound (Text.code c) 64 ltac:(lia)).
  pose proof (Z.div_mod (Text.code c) 64 ltac:(lia)).
  assert (Hb : ∀ lo hi n, 0 ≤ n < 256 → between lo hi (byte_char n) = (lo <=? n) && (n <=? hi)).
  { intros lo hi n Hn. unfold between. by rewrite code_byte_char. }
  rewrite !Hb by lia. rewrite (proj2 (andb_false_iff _ _)) by lia.
  unfold cont. rewrite !Hb by lia. rewrite !(proj2 (andb_true_iff _ _)) by lia.
  rewrite IH. cbn. do 2 f_equal. rewrite !code_byte_char by lia.
  replace ((192 + Text.code c / 64 - 192) * 64 + (128 + Text.code c mod 64 - 128)) with (Text.code c) by lia.
  apply byte_char_code.
Qed.

Lemma latin1_ascii s : ascii_only s = true → latin1_encode s = Some s ∧ latin1_decode s = s.
Proof.
  unfold ascii_only. induction s as [|c s IH]; [done|]. cbn [chars forallb].
  intros [Hc Hs]%andb_true_iff. destruct (IH Hs) as [H1 H2]. cbn. by rewrite Hc, H1, H2.
Qed.

Lemma latin1_encode_ascii text raw : latin1_encode text = Some raw → ascii_only raw = true → text = raw.
Proof.
  remember (String.length text) as n eqn:Hn. revert text raw Hn.
  induction n as [n IH] using (well_founded_induction lt_wf). intros text raw Hn.
  destruct text as [|c1 rest]; cbn; [by intros [= <-]|].
  destruct (between 0 127 c1) eqn:E1.
  - destruct (latin1_encode rest) as [r|] eqn:Er; cbn; [|done]. intros [= <-]. unfold ascii_only. cbn.
    intros [_ Hr]%andb_true_iff. f_equal. eapply IH; [|reflexivity|done|done]. subst n. cbn. lia.
  - destruct rest as [|c2 rest]; [done|]. destruct (between 194 195 c1 && cont c2) eqn:E2; [|done].
    destruct (latin1_encode rest) as [r|]; cbn; [|done]. intros [= <-]. unfold ascii_only. cbn.
    intros [Hb _]%andb_true_iff. exfalso. unfold cont, between in *. rewrite code_byte_char in Hb by lia. lia.
Qed.

Lemma verify_accepts key provided :
  verify_ingest_key key provided = inr tt ↔
  ∃ text, provided = Some text ∧ text ≠ "" ∧ (text = key ∨ latin1_encode text = Some key).
Proof.
  unfold verify_ingest_key, key_candidates. destruct provided as [text|]; [|split; [done|naive_solver]].
  case_decide as E; split; try done.
  - intros _. exists text. split; [done|]. destruct E as [? E]. split; [done|].
    apply elem_of_cons in E as [->|E]; [by left|right].
    destruct (latin1_encode text); [|by apply elem_of_nil in E]. apply list_elem_of_singleton in E. by f_equal.
  - intros (text' & [= <-] & Ht & Hk). exfalso. apply E. split; [done|].
    destruct Hk as [->|Hk]; [left|right; rewrite Hk; left].
Qed.

(** the key of the devices is compared byte for byte on both transports. Sent as the
    bytes of a header or as the text of a query parameter the configured key is let in;
    a header is let in only when its bytes, or its bytes read as Latin-1 text, are the
    key; and for a key in ASCII nothing but the key itself is let in. *)
Lemma ingest_key_checked key :
  key ≠ "" →
  verify_ingest_key key (Some (latin1_decode key)) = inr tt ∧
  verify_ingest_key key (Some key) = inr tt ∧
  (∀ raw, verify_ingest_key key (Some (latin1_decode raw)) = inr tt → raw = key ∨ latin1_decode raw = key) ∧
  (ascii_only key = true → ∀ provided, verify_ingest_key key provided = inr tt ↔ provided = Some key).
Proof.
  intros Hkey. split_and!.
  - apply verify_accepts. exists (latin1_decode key). split_and!; [done| |right; apply latin1_roundtrip].
    destruct key as [|c key]; [done|]. cbn. by case_match.
  - apply verify_accepts. eauto.
  - intros raw (text & [= <-] & _ & [->|Hk])%verify_accepts; [by right|left].
    rewrite latin1_roundtrip in Hk. congruence.
  - intros Ha provided. rewrite verify_accepts. split.
    + intros (text & -> & _ & [->|Hk]); [done|]. by rewrite (latin1_encode_ascii _ _ Hk Ha).
    + intros ->. eauto.
Qed.

(** ** A token format that meets the laws: the claims and the secret, in hexadecimal *)
Module JwtRef.
Fixpoint hex (s : string) : list ascii :=
  match s with "" => [] | String c s' => hex_fixed 2 (Text.code c) ++ hex s' end.
Fixpoint unhex (l : list ascii) : option (list ascii) :=
  match l with
  | [] => Some []
  | a :: b :: rest => x ← int16 [a; b]; t ← unhex rest; Some (byte_char x :: t)
  | _ => None
  end.
Fixpoint until_dot (l : list ascii) : list ascii :=
  match l with [] => [] | c :: l' => if decide (c = "."%char) then [] else c :: until_dot l' end.

Definition encode (claims : list (string * json)) (secret : string) : string :=
  of_chars (hex (Ref.print (JObj claims)) ++ "."%char :: hex secret).
Definition decode (token secret : string) (now : Z) : res (list (string * json)) :=
  match unhex (until_dot (chars token)) ≫= (Ref.parse ∘ of_chars) with
  | Some (JObj claims) =>
      if decide (token = encode claims secret) then
        match assoc "exp" claims, assoc "iat" claims, assoc "sub" claims with
        | Some (JInt exp), Some (JInt iat), Some (JStr _) =>
            if exp * 1000000 <=? now - LEEWAY_US then Raise (InvalidTokenError "expired")
            else if now + LEEWAY_US <? iat * 1000000 then Raise (InvalidTokenError "not yet valid")
            else Ok claims
        | _, _, _ => Raise (InvalidTokenError "missing claim")
        end
      else Raise (InvalidTokenError "signature")
  | _ => Raise (InvalidTokenError "malformed")
  end.

Lemma hex_fixed_two v : hex_fixed 2 v = [hex_digit (v / 16 mod 16); hex_digit (v mod 16)].
Proof. done. Qed.

Lemma unhex_hex s : unhex (hex s) = Some (chars s).
Proof.
  induction s as [|c s IH]; [done|]. cbn [hex chars]. rewrite hex_fixed_two. cbn [app unhex]. rewrite <- hex_fixed_two.
  pose proof (code_range c). rewrite int16_hex_fixed by lia. cbn. rewrite IH. cbn.
  by rewrite byte_char_code.
Qed.

Lemma hex_hexish s : Forall hexish (hex s).
Proof. induction s as [|c s IH]; [constructor|]. apply Forall_app. split; [apply hex_fixed_hexish|done]. Qed.

Lemma until_dot_app l r : Forall hexish l → until_dot (l ++ "."%char :: r) = l.
Proof.
  induction 1 as [|c l Hc Hl IH]; cbn; [done|]. rewrite decide_False; [by rewrite IH|].
  intros ->. vm_compute in Hc. done.
Qed.

Lemma chars_encode claims secret :
  chars (encode claims secret) = hex (Ref.print (JObj claims)) ++ "."%char :: hex secret.
Proof. unfold encode. by rewrite chars_of_chars. Qed.

Lemma decode_encode claims secret now : dumpable (JObj claims) = true →
  decode (encode claims secret) secret now =
    match assoc "exp" claims, assoc "iat" claims, assoc "sub" claims with
    | Some (JInt exp), Some (JInt iat), Some (JStr _) =>
        if exp * 1000000 <=? now - LEEWAY_US then Raise (InvalidTokenError "expired")
        else if now + LEEWAY_US <? iat * 1000000 then Raise (InvalidTokenError "not yet valid")
        else Ok claims
    | _, _, _ => Raise (InvalidTokenError "missing claim")
    end.
Proof.
  intros Hd. unfold decode. rewrite chars_encode, until_dot_app by apply hex_hexish.
  rewrite unhex_hex. cbn [mbind option_bind]. unfold compose. rewrite of_chars_chars, Ref.parse_print by done.
  by rewrite decide_True.
Qed.

#[export] Instance jwt : Jwt := {| jwt_encode := encode; jwt_decode := decode |}.
#[export] Instance jwt_laws : JwtLaws (λ _, True).
Proof.
  split; cbn [jwt_encode jwt_decode jwt].
  - intros claims secret now iat exp _ (Hd & Hi & He & [sub Hs] & _) Hlo Hhi. rewrite decode_encode, Hi, He, Hs by done.
    by rewrite (proj2 (Z.leb_gt _ _)), (proj2 (Z.ltb_ge _ _)) by lia.
  - intros claims secret now iat exp _ (Hd & Hi & He & [sub Hs] & _) Hexp. rewrite decode_encode, Hi, He, Hs by done.
    rewrite (proj2 (Z.leb_le _ _)) by lia. eauto.
  - intros claims secret _. rewrite chars_encode.
    assert (Hh : ∀ s, Forall (λ c, token_char c = true) (hex s)).
    { intros s. eapply Forall_impl; [apply hex_hexish|]. intros c Hc. unfold hexish in Hc.
      unfold token_char. apply orb_true_iff in Hc as [->|Hc]; [done|].
      assert (between 97 122 c = true) as -> by (unfold between in *; lia). by rewrite !orb_true_r. }
    apply Forall_app. split; [done|]. by constructor.
Qed.

Definition secret : string := "0123456789abcdef0123456789abcdef".
Definition str_of (j : json) : string := Ref.print j.
Definition issued : Z := 1700000000 * 1000000 + 250000.
End JwtRef.


Lemma ingest_key_checked_witness :
  verify_ingest_key "sixteen-chars-ok" (Some "sixteen-chars-no") ≠ inr tt ∧
  verify_ingest_key "clé-de-seize-car" (Some (latin1_decode "clé-de-seize-car")) = inr tt ∧
  (∀ provided, verify_ingest_key "sixteen-chars-ok" provided = inr tt ↔ provided = Some "sixteen-chars-ok").
Proof.
  split; [vm_compute; discriminate|]. split.
  - destruct (ingest_key_checked "clé-de-seize-car" ltac:(discriminate)) as [Hh _]. exact Hh.
  - destruct (ingest_key_checked "sixteen-chars-ok" ltac:(discriminate)) as (_ & _ & _ & Hk). exact (Hk eq_refl).
Defined.

(** ** "Alice" and "alice" log in for the first time at once *)
Module LoginDemo.
Definition alice : Login := mkLogin "Alice" Inserting.
Definition alice2 : Login := mkLogin "alice" Inserting.
Definition u : Users :=
  mkUsers {["alice" := 7]} ∅
    {[1%nat := mkLogin "Alice" (LoggedIn 7); 2%nat := mkLogin "alice" (LoggedIn 7)]}.

Lemma u_reachable : rtc login_step (mkUsers ∅ ∅ ∅) u.
Proof.
  eapply rtc_l; [apply (log_open _ 1 "Alice"); reflexivity|].
  eapply rtc_l; [apply (log_open _ 2 "alice"); reflexivity|].
  eapply rtc_l; [apply (log_insert _ 1 alice 7); [reflexivity..| |]|].
  { intros j n x. cbn. by rewrite lookup_empty. }
  { split; intros *; cbn; by rewrite lookup_empty. }
  eapply rtc_l; [apply (log_commit _ 1 (mkLogin "Alice" (Returned 7)) 7); reflexivity|].
  eapply rtc_l; [apply (log_conflict _ 2 alice2); [reflexivity..|by eexists]|].
  eapply rtc_l; [apply (log_read _ 2 (mkLogin "alice" Reading)); reflexivity|].
  eapply rtc_l; [apply (log_commit _ 2 (mkLogin "alice" (Returned 7)) 7); reflexivity|].
  match goal with |- rtc _ ?x _ => assert (x = u) as -> by (vm_compute; reflexivity) end. constructor.
Qed.
End LoginDemo.

Lemma one_account_per_name_witness :
  "Alice" ≠ "alice" ∧ (7 = 7 ↔ lower "Alice" = lower "alice") ∧
  ∀ k x e, logins LoginDemo.u !! k = Some x → stage x = Failed e → e = OSError.
Proof.
  split; [discriminate|].
  apply (one_account_per_name LoginDemo.u 1 2 (mkLogin "Alice" (LoggedIn 7)) (mkLogin "alice" (LoggedIn 7)) 7 7
           LoginDemo.u_reachable); reflexivity.
Defined.
