(* ===== verification/DeviceStream.v ===== *)
(** * A whole connection of a device (ws_ingest, _payload_of and _DeviceSession.run of
    src/geotrack/api/routes/ws_ingest.py)

    The handshake and the conversation that follows, frame by frame, while other
    connections append to the same streams. *)
From S2P Require Import Prelude Text Json JsonRef Keys Protocol Connection Accounts.
From S2P Require Import Ingest.

(** What [websocket.receive()] returns. *)
Inductive Received :=
  | Frame (text bytes : option string)
  | Disconnect.

(** [_payload_of]. *)
Definition payload_of (message : Received) : option string :=
  match message with
  | Disconnect => None
  | Frame (Some text) _ => Some text
  | Frame None bytes => Some (default "" bytes)
  end.

(** One turn of the loop: what others appended before it, the message, the gate when it
    was received, the moment of the handler, and whether its answer could be written. *)
Record Turn := mkTurn {
  elsewhere : list (string * string); message : Received; gate_shut : bool; moment : Moment; writable : bool }.

(** How a conversation ends: still open, left by the device, hung up on, or broken off by
    an exception. *)
Inductive Ending := Open | Left | HungUp | Broke.

Section stream.
Context `{Orjson}.
Variable validate_report : string → list PydanticError + LocationReport.
Variable validate_items : Z → string → list PydanticError + list LocationReport.
Variable validate_envelope : Z → string → list PydanticError + option Z * list LocationReport.
Variable window_text : nat → bool → string.
Variables (shards ingest_max_batch retention_days skew_s : Z).
Local Notation turn := (on_frame validate_report validate_items validate_envelope window_text shards
                          ingest_max_batch retention_days skew_s).

(** The loop of [run]: what the device is sent in each turn, and the streams. *)
Fixpoint converse (turns : list Turn) (st : DeviceSession) (s : STREAMS) : list (list Out) * STREAMS * Ending :=
  match turns with
  | [] => ([], s, Open)
  | t :: rest =>
      let s0 := foldl xadd s (elsewhere t) in
      match payload_of (message t) with
      | None => ([[]], s0, Left)
      | Some raw =>
          match turn (gate_shut t) raw (moment t) st s0 with
          | (_, s', Raise _) => ([[]], s', Broke)
          | (st', s', Ok (out, go)) =>
              if decide (out ≠ [] ∧ writable t = false) then ([[]], s', Broke)
              else if (go : bool) then
                let '(outs, s'', e) := converse rest st' s' in (out :: outs, s'', e)
              else ([out], s', HungUp)
          end
      end
  end.

(** [run]: a device that arrives during a throttle window is told first. *)
Definition run (arrival : bool * Moment * bool) (turns : list Turn) (s : STREAMS) : list (list Out) * STREAMS * Ending :=
  let '(throttled_now, m, w) := arrival in
  let st := mkSession [] 0 in
  if (throttled_now : bool) then
    match notify_throttled false m st with
    | (_, Raise _) => ([[]], s, Broke)
    | (st', Ok out) =>
        if decide (out ≠ [] ∧ w = false) then ([[]], s, Broke)
        else let '(outs, s', e) := converse turns st' s in (out :: outs, s', e)
    end
  else let '(outs, s', e) := converse turns st s in ([] :: outs, s', e).

(** [ws_ingest]: the key first. *)
Definition ws_ingest (expected : string) (header query : option string) (arrival : bool * Moment * bool)
    (turns : list Turn) (s : STREAMS) : list (list Out) * STREAMS * Ending :=
  match verify_ingest_key expected (ws_ingest_key header query) with
  | inl _ => ([[CloseWith CLOSE_UNAUTHORIZED "invalid ingest key"]], s, HungUp)
  | inr _ => run arrival turns s
  end.
End stream.

(** ** Lemmas: what a turn adds *)

(** The entries of all streams. *)
Definition total (s : STREAMS) : nat := map_fold (λ _ l n, length l + n)%nat 0%nat s.

Lemma total_insert s k l : s !! k = None → total (<[k := l]> s) = (length l + total s)%nat.
Proof. intros Hk. unfold total. apply (map_fold_insert_L (λ _ l n, length l + n)%nat); [lia|done]. Qed.

Lemma total_xadd s c : total (xadd s c) = S (total s).
Proof.
  unfold xadd. rewrite <- insert_delete_eq, total_insert by apply lookup_delete_eq.
  destruct (s !! c.1) as [l|] eqn:E; cbn [default].
  - rewrite length_app. cbn. rewrite <- (insert_delete_id s c.1 l E) at 2.
    rewrite total_insert by apply lookup_delete_eq. lia.
  - by rewrite delete_id.
Qed.

Lemma total_xadds cmds s : total (foldl xadd s cmds) = (total s + length cmds)%nat.
Proof.
  revert s. induction cmds as [|c cmds IH]; intros s; cbn; [lia|]. rewrite IH, total_xadd. lia.
Qed.

Section facts.
Context `{OrjsonCompact}.

Ltac compute_type :=
  unfold frame_type, quoted; rewrite dumps_obj; cbn [fmap list_fmap app];
  rewrite join_cons by done; cbn [fst snd]; rewrite (dumps_word "type") by done;
  rewrite dumps_word by done; rewrite <- !string_app_assoc; reflexivity.

Lemma error_frame_type code detail seq : frame_type (error_frame code detail seq) = Ok "error".
Proof. unfold error_frame. compute_type. Qed.
Lemma throttle_frame_type ms : frame_type (throttle_frame ms) = Ok "throttle".
Proof. unfold throttle_frame. compute_type. Qed.

(** Every acknowledgement among the answers names [k] reports. *)
Definition acks_are (k : nat) (out : list Out) : Prop :=
  ∀ f, SendText f ∈ out → frame_type f = Ok "ack" → ∃ q, f = ack_frame q (Z.of_nat k).

Lemma acks_none k : acks_are k [].
Proof. intros f Hf. by apply elem_of_nil in Hf. Qed.
Lemma acks_error k code detail seq rest :
  (∀ f, SendText f ∉ rest) → acks_are k (SendText (error_frame code detail seq) :: rest).
Proof.
  intros Hr f [[= ->]|Hf]%elem_of_cons Ht; [by rewrite error_frame_type in Ht|by apply Hr in Hf].
Qed.
Lemma acks_throttle k ms : acks_are k [SendText (throttle_frame ms)].
Proof. intros f [= ->]%list_elem_of_singleton Ht. by rewrite throttle_frame_type in Ht. Qed.

Lemma reject_acks k code detail m st : acks_are k (reject code detail m st).1.2.
Proof.
  unfold reject. destruct (budget_record _ _ _ _) as [ev [|]]; cbn; apply acks_error.
  - intros f Hf. by apply elem_of_nil in Hf.
  - intros f Hf. by apply list_elem_of_singleton in Hf.
Qed.

Lemma notify_acks force m st out k : (notify_throttled force m st).2 = Ok out → acks_are k out.
Proof.
  unfold notify_throttled. case_match; cbn; [intros [= <-]; apply acks_none|].
  destruct (retry_after_ms (gate m)); cbn; [|done]. intros [= <-]. apply acks_throttle.
Qed.

Lemma submit_grows sh g t o reports s s' r :
  submit sh g t o reports s = (s', r) →
  ∃ k, total s' = (total s + k)%nat ∧ ∀ n, r = Accepted n → n = Z.of_nat k.
Proof.
  unfold submit. destruct reports as [|a reports].
  { intros [= <- <-]. exists 0%nat. split; [lia|]. by intros n [= <-]. }
  destruct (throttled g).
  { intros [= <- <-]. exists 0%nat. split; [lia|]. by destruct (retry_after_ms g). }
  destruct (traverse _ _) as [cmds|] eqn:Ec; [|intros [= <- <-]; exists 0%nat; by split; [lia|]].
  destruct o as [|n]; intros [= <- <-].
  - exists (length cmds). split; [apply total_xadds|]. intros n [= <-]. f_equal.
    by apply traverse_Forall2, Forall2_length in Ec.
  - eexists. split; [apply total_xadds|done].
Qed.

Section conversation.
Variable validate_report : string → list PydanticError + LocationReport.
Variable validate_items : Z → string → list PydanticError + list LocationReport.
Variable validate_envelope : Z → string → list PydanticError + option Z * list LocationReport.
Variable window_text : nat → bool → string.
Variables (shards ingest_max_batch retention_days skew_s : Z).
Local Notation handle' := (handle validate_report validate_items validate_envelope window_text shards
                             ingest_max_batch retention_days skew_s).
Local Notation turn := (on_frame validate_report validate_items validate_envelope window_text shards
                          ingest_max_batch retention_days skew_s).
Local Notation converse' := (converse validate_report validate_items validate_envelope window_text shards
                               ingest_max_batch retention_days skew_s).

(** A handler appends [k] entries and acknowledges nothing else. *)
Definition grows (s s' : STREAMS) (r : res (list Out * bool)) : Prop :=
  ∃ k, total s' = (total s + k)%nat ∧ ∀ out go, r = Ok (out, go) → acks_are k out.

(** What a device is told in a turn that appended [k] entries: acknowledgements are of
    these, and a frame with a sequence number that the gate let in gets one answer, unless
    the conversation breaks off there. *)
Definition told (ending : Ending) (t : Turn) (k : nat) (out : list Out) : Prop :=
  acks_are k out ∧
  ∀ raw q reports, payload_of (message t) = Some raw → gate_shut t = false →
    parse_ingest_payload validate_report validate_items validate_envelope raw ingest_max_batch = inr (Some q, reports) →
    Z.of_nat (String.length raw) ≤ max_payload_bytes ingest_max_batch →
    out = [] ∧ ending = Broke ∨
    ∃ f, out = [SendText f] ∧
      (f = ack_frame q (Z.of_nat (length reports)) ∧ k = length reports ∨
       (∃ code detail, f = error_frame code detail (Some q)) ∨ (∃ ms, f = throttle_frame ms)).

Lemma handle_grows raw m st s st' s' r : handle' raw m st s = (st', s', r) → grows s s' r.
Proof.
  assert (Hrej : ∀ code detail st2 s2 r2,
    (let '(st3, out, go) := reject code detail m st in (st3, s, Ok (out, go))) = (st2, s2, r2) → grows s s2 r2).
  { intros code detail st2 s2 r2. pose proof (reject_acks 0 code detail m st) as Ha.
    destruct (reject code detail m st) as [[st3 out] go]. intros [= <- <- <-]. exists 0%nat.
    split; [lia|]. by intros out' go' [= <- <-]. }
  unfold handle. destruct (_ <? _); [apply Hrej|].
  destruct (parse_ingest_payload _ _ _ _ _) as [e|[seq reports]]; [destruct e; apply Hrej|].
  cbn. destruct (check_report_window _ _ _ _) as [[i fut]|].
  { intros [= <- <- <-]. exists 0%nat. split; [lia|]. intros out go [= <- <-].
    apply acks_error. intros f Hf. by apply elem_of_nil in Hf. }
  destruct (submit _ _ _ _ _ _) as [s1 r1] eqn:Es. destruct (submit_grows _ _ _ _ _ _ _ _ Es) as (k & Hk & Hn).
  destruct r1 as [n|ms| |e].
  - intros [= <- <- <-]. exists k. split; [done|]. intros out go [= <- <-]. destruct seq as [q|]; [|apply acks_none].
    intros f [= ->]%list_elem_of_singleton _. exists q. by rewrite (Hn n eq_refl).
  - pose proof (notify_acks true m st) as Hno. destruct (notify_throttled true m st) as [st2 [out2|e]];
      intros [= <- <- <-]; exists k; (split; [done|]); [|done]. intros out go [= <- <-]. by apply Hno.
  - intros [= <- <- <-]. exists k. split; [done|]. intros out go [= <- <-].
    apply acks_error. intros f Hf. by apply elem_of_nil in Hf.
  - intros [= <- <- <-]. by exists k.
Qed.

Lemma turn_grows shut raw m st s st' s' r : turn shut raw m st s = (st', s', r) → grows s s' r.
Proof.
  unfold on_frame. destruct shut; [|apply handle_grows].
  pose proof (notify_acks false m st) as Hno. destruct (notify_throttled false m st) as [st2 [out2|e]];
    intros [= <- <- <-]; exists 0%nat; (split; [lia|]); [|done]. intros out go [= <- <-]. by apply Hno.
Qed.

(** An answered turn of the loop. *)
Lemma turn_told t raw st s st' s' out go ending :
  payload_of (message t) = Some raw → turn (gate_shut t) raw (moment t) st s = (st', s', Ok (out, go)) →
  ∃ k, total s' = (total s + k)%nat ∧ told ending t k out.
Proof.
  intros Hraw Et. destruct (turn_grows _ _ _ _ _ _ _ _ Et) as (k & Hk & Ha).
  exists k. split; [done|]. split; [by eapply Ha|]. intros raw' q reports E Hopen Hparse Hlen. right.
  rewrite Hraw in E. injection E as <-. rewrite Hopen in Et. cbn [on_frame] in Et.
  pose proof (sequenced_frame_answered _ _ _ window_text shards ingest_max_batch retention_days skew_s raw (moment t)
                st s q reports Hparse Hlen) as Hs.
  unfold on_frame in Et. rewrite Et in Hs. destruct Hs as [[e [=]]|(f & [= -> ->] & Hf)].
  exists f. split; [done|]. destruct Hf as [[Hsub ->]|Hf]; [left|by right]. split; [done|].
  destruct (submit_grows _ _ _ _ _ _ _ _ Hsub) as (k' & Hk' & Hn). specialize (Hn _ eq_refl). lia.
Qed.

Lemma broken_told t k : told Broke t k [].
Proof. split; [apply acks_none|]. by left. Qed.

(** What the turns that were taken saw others append. *)
Definition appended_elsewhere (turns : list Turn) : nat := sum_list (length ∘ elsewhere <$> turns).

(** The account of a conversation: one number for each turn that was taken. *)
Definition accounted (turns : list Turn) (s : STREAMS) (c : list (list Out) * STREAMS * Ending) (ks : list nat) : Prop :=
  let taken := take (length ks) turns in
  length taken = length ks ∧
  Forall2 (λ tk out, told c.2 tk.1 tk.2 out) (zip taken ks) c.1.1 ∧
  total c.1.2 = (total s + appended_elsewhere taken + sum_list ks)%nat.

(** A conversation that ends in its first turn. *)
Lemma one_turn t rest s s0 s' k out ending :
  s0 = foldl xadd s (elsewhere t) → total s' = (total s0 + k)%nat → told ending t k out →
  accounted (t :: rest) s ([out], s', ending) [k].
Proof.
  intros -> Hk Ht. unfold accounted, appended_elsewhere. cbn. rewrite take_0. cbn.
  rewrite total_xadds in Hk. split_and!; [done|constructor; [done|constructor]|lia].
Qed.

Lemma converse_accounts turns st s : ∃ ks, accounted turns s (converse' turns st s) ks.
Proof.
  revert st s. induction turns as [|t rest IH]; intros st s.
  { exists []. unfold accounted, appended_elsewhere. cbn. split_and!; [done|constructor|lia]. }
  cbn [converse]. set (s0 := foldl xadd s (elsewhere t)).
  destruct (payload_of (message t)) as [raw|] eqn:Ep.
  2:{ exists [0%nat]. apply (one_turn _ _ _ s0); [done|lia|]. split; [apply acks_none|]. by rewrite Ep. }
  destruct (turn _ _ _ _ _) as [[st' s'] r] eqn:Et.
  destruct (turn_grows _ _ _ _ _ _ _ _ Et) as (k & Hk & _).
  destruct r as [[out go]|e]; [|exists [k]; by apply (one_turn _ _ _ s0); [..|apply broken_told]].
  case_decide; [exists [k]; by apply (one_turn _ _ _ s0); [..|apply broken_told]|]. clear k Hk.
  destruct go.
  - destruct (IH st' s') as [ks Hks]. destruct (converse' rest st' s') as [[outs s2] e].
    destruct (turn_told _ _ _ _ _ _ _ _ e Ep Et) as (k & Hk & Ht). exists (k :: ks).
    unfold s0 in Hk. rewrite total_xadds in Hk. destruct Hks as (Hl & Hf & Htot).
    unfold accounted, appended_elsewhere in *. cbn in *. split_and!; [lia|by constructor|lia].
  - destruct (turn_told _ _ _ _ _ _ _ _ HungUp Ep Et) as (k & Hk & Ht). exists [k].
    by apply (one_turn _ _ _ s0).
Qed.
End conversation.
End facts.

(** ** Properties *)

(** C32: over a whole connection a device is told the truth about its reports. However
    frames, gates, broken pipelines, failing writes and other connections mix, there is a
    number of entries for each turn that was taken such that the streams grow by exactly
    these and by what others append; an acknowledgement sent in a turn names exactly the
    entries of that turn; and a numbered frame the gate let in gets one answer, its
    acknowledgement only if all of its reports were appended, unless the conversation
    broke off there. Without the key nothing is said and nothing appended. *)
Theorem acknowledged_is_queued `{OrjsonCompact} vr vi ve window_text shards max_batch days skew
    expected header query arrival turns s :
  let '(outs, s', ending) :=
    ws_ingest vr vi ve window_text shards max_batch days skew expected header query arrival turns s in
  (∃ greeting rest ks, outs = greeting :: rest ∧ acks_are 0 greeting ∧
     accounted vr vi ve max_batch (take (length ks) turns) s (rest, s', ending) ks) ∧
  (verify_ingest_key expected (ws_ingest_key header query) ≠ inr tt →
     outs = [[CloseWith CLOSE_UNAUTHORIZED "invalid ingest key"]] ∧ s' = s ∧ ending = HungUp).
Proof.
  assert (Hnil : ∀ ending, accounted vr vi ve max_batch [] s ([], s, ending) []).
  { intros ending. unfold accounted, appended_elsewhere. cbn. split_and!; [done|constructor|lia]. }
  unfold ws_ingest. destruct (verify_ingest_key _ _) as [p|[]].
  { split; [|done]. eexists _, [], []. split; [done|]. split; [|apply Hnil].
    intros f Hf. by apply list_elem_of_singleton in Hf. }
  assert (Hrun : ∀ st, ∃ ks, accounted vr vi ve max_batch (take (length ks) turns) s
    (converse vr vi ve window_text shards max_batch days skew turns st s) ks).
  { intros st. destruct (converse_accounts vr vi ve window_text shards max_batch days skew turns st s) as [ks Hks].
    exists ks. unfold accounted in *. by rewrite take_take, Nat.min_id. }
  unfold run. destruct arrival as [[shut m] w]. destruct shut.
  - pose proof (λ out, notify_acks false m (mkSession [] 0) out 0) as Hno.
    destruct (notify_throttled false m (mkSession [] 0)) as [st' [out|e]].
    2:{ split; [|done]. eexists _, [], []. split; [done|]. split; [apply acks_none|apply Hnil]. }
    case_decide.
    { split; [|done]. eexists _, [], []. split; [done|]. split; [apply acks_none|apply Hnil]. }
    destruct (Hrun st') as [ks Hks]. destruct (converse _ _ _ _ _ _ _ _ _ _ _) as [[outs s'] e].
    split; [|done]. exists out, outs, ks. split; [done|]. split; [by apply Hno|done].
  - destruct (Hrun (mkSession [] 0)) as [ks Hks]. destruct (converse _ _ _ _ _ _ _ _ _ _ _) as [[outs s'] e].
    split; [|done]. exists [], outs, ks. split; [done|]. split; [apply acks_none|done].
Qed.

(** Two frames: one acknowledged, one whose pipeline broke; then the device leaves. *)
Module StreamSamples.
Definition turns : list Turn :=
  [mkTurn [("other", "x")] (Frame (Some IngestSamples.envelope) None) false IngestSamples.moment true;
   mkTurn [] (Frame None (Some IngestSamples.envelope)) false
     (mkMoment 1 1700000000250000 IngestSamples.ns IngestSamples.monitor (Broken 1)) true;
   mkTurn [] Disconnect false IngestSamples.moment true].
Definition conversation : list (list Out) * STREAMS * Ending :=
  ws_ingest (H := Ref.orjson) IngestSamples.vr IngestSamples.vi IngestSamples.ve (λ _ _, "") 4 500 30 60
    "key" (Some "key") None (false, IngestSamples.moment, true) turns ∅.
End StreamSamples.

Example conversation_runs :
  StreamSamples.conversation.1.1
  = [[]; [SendText (ack_frame (H := Ref.orjson) 7 1)];
     [SendText (error_frame (H := Ref.orjson) "ingest_unavailable" "The ingestion queue is not reachable." (Some 7))]; []] ∧
  StreamSamples.conversation.2 = Left ∧ total StreamSamples.conversation.1.2 = 3%nat.
Proof. vm_compute. done. Qed.

Lemma acknowledged_is_queued_witness :
  ∃ greeting rest ks, StreamSamples.conversation.1.1 = greeting :: rest ∧
    accounted (H := Ref.orjson) IngestSamples.vr IngestSamples.vi IngestSamples.ve 500
      (take (length ks) StreamSamples.turns) ∅ (rest, StreamSamples.conversation.1.2, StreamSamples.conversation.2) ks.
Proof.
  pose proof (acknowledged_is_queued (H := Ref.orjson) (H0 := Ref.orjson_compact) IngestSamples.vr IngestSamples.vi IngestSamples.ve (λ _ _, "")
                4 500 30 60 "key" (Some "key") None (false, IngestSamples.moment, true) StreamSamples.turns ∅) as Hc.
  change (ws_ingest (H := Ref.orjson) _ _ _ _ _ _ _ _ _ _ _ _ _ _) with StreamSamples.conversation in Hc.
  destruct StreamSamples.conversation as [[outs s'] ending].
  destruct Hc as [(greeting & rest & ks & E & _ & Hks) _]. exists greeting, rest, ks. split; [exact E|exact Hks].
Defined.
