(* ===== verification/Service.v ===== *)
(** * A processor replica (src/geotrack/processor/service.py and maintenance.py)

    The replica's book-keeping of consumers and of shards that are winding down, one
    definition per callback of its loops, and the partition maintenance. *)
From S2P Require Import Prelude Floats Text Keys Codec Batch Leases.

(** ** Ownership *)

(** [consumers]: shard to whether its task has ended; [draining]: shard to whether the
    lease is still ours to give back. *)
Record ProcessorService := mkService { consumers : gmap Z bool; draining : gmap Z bool }.
Definition new_service : ProcessorService := mkService ∅ ∅.

Definition owned_shards (s : ProcessorService) : gset Z := dom (consumers s).
Definition is_consuming (shard : Z) (s : ProcessorService) : bool :=
  match consumers s !! shard with Some done => negb done | None => false end.

Definition begin_drain (shard : Z) (release : bool) (s : ProcessorService) : ProcessorService :=
  match consumers s !! shard with
  | None => s
  | Some _ => mkService (delete shard (consumers s)) (<[shard := release]> (draining s))
  end.

Definition start_consumer (shard : Z) (s : ProcessorService) : ProcessorService :=
  mkService (<[shard := false]> (consumers s)) (draining s).

Definition reap_finished_consumers (s : ProcessorService) : ProcessorService :=
  foldl (λ s shard, begin_drain shard true s) s
    (filter (λ p : Z * bool, p.2 = true) (map_to_list (consumers s))).*1.

Section service.
Context {S : Type} `{LeaseStoreLaws S}.
Variables (shards ttl_ms membership_ttl_ms : Z) (instance : string).

(** The second loop of [reconcile_shards]. *)
Fixpoint pick_up (target : Z) (candidates : list Z) (now : Z) (st : S) (s : ProcessorService)
  : S * ProcessorService :=
  match candidates with
  | [] => (st, s)
  | shard :: rest =>
      if target <=? Z.of_nat (size (consumers s)) then (st, s)
      else match draining s !! shard with
           | Some _ => pick_up target rest now st s
           | None =>
               let '(st', taken) := acquire ttl_ms instance st now shard in
               pick_up target rest now st' (if taken then start_consumer shard s else s)
           end
  end.

Definition reconcile_shards (now : Z) (m : gmap string Z) (st : S) (s : ProcessorService)
  : gmap string Z * S * res ProcessorService :=
  let s1 := reap_finished_consumers s in
  let '(m', plan) := rebalance shards membership_ttl_ms instance now (owned_shards s1) m in
  match plan with
  | Raise e => (m', st, Raise e)
  | Ok p =>
      let s2 := foldl (λ s shard, begin_drain shard true s) s1 (release p) in
      let '(st', s3) := pick_up (target p) (candidates p) now st s2 in
      (m', st', Ok s3)
  end.

(** The shards [renew_leases] renews. *)
Definition renewed_shards (s : ProcessorService) : list Z :=
  (map_to_list (consumers s)).*1 ++ (filter (λ p : Z * bool, p.2 = true) (map_to_list (draining s))).*1.

Fixpoint renew_all (now : Z) (l : list Z) (st : S) : S * list Z :=
  match l with
  | [] => (st, [])
  | shard :: rest =>
      let '(st', held) := renew ttl_ms instance st now shard in
      let '(st'', lost) := renew_all now rest st' in
      (st'', if held then lost else shard :: lost)
  end.

Definition lease_lost (s : ProcessorService) (shard : Z) : ProcessorService :=
  match draining s !! shard with
  | Some _ => mkService (consumers s) (<[shard := false]> (draining s))
  | None => begin_drain shard false s
  end.

Definition renew_leases (now : Z) (st : S) (s : ProcessorService) : S * ProcessorService :=
  let '(st', lost) := renew_all now (renewed_shards s) st in (st', foldl lease_lost s lost).

(** The end of [_drain]: the record goes, and the lease with it when it is ours. *)
Definition drain_finished (shard now : Z) (st : S) (s : ProcessorService) : S * ProcessorService :=
  let s' := mkService (consumers s) (delete shard (draining s)) in
  match draining s !! shard with
  | Some true => (release_lease instance st now shard, s')
  | _ => (st, s')
  end.

(** A consumer's task ends by itself. *)
Definition consumer_ended (shard : Z) (s : ProcessorService) : ProcessorService :=
  match consumers s !! shard with
  | Some _ => mkService (<[shard := true]> (consumers s)) (draining s)
  | None => s
  end.

(** *** One reader per shard *)

Definition one_reader (s : ProcessorService) : Prop :=
  ∀ shard, consumers s !! shard = None ∨ draining s !! shard = None.

Inductive service_step : ProcessorService → ProcessorService → Prop :=
  | svc_reconcile s now m st m' st' s' : reconcile_shards now m st s = (m', st', Ok s') → service_step s s'
  | svc_renew s now st st' s' : renew_leases now st s = (st', s') → service_step s s'
  | svc_drained s shard now st st' s' : drain_finished shard now st s = (st', s') → service_step s s'
  | svc_ended s shard : service_step s (consumer_ended shard s).

Lemma begin_drain_ok shard b s : one_reader s → one_reader (begin_drain shard b s).
Proof.
  intros Hs. unfold begin_drain. destruct (consumers s !! shard) eqn:E; [|done].
  intros x. cbn. destruct (decide (x = shard)) as [->|]; [left; by rewrite lookup_delete_eq|].
  rewrite lookup_delete_ne, lookup_insert_ne by done. apply Hs.
Qed.

Lemma begin_drains_ok b l s : one_reader s → one_reader (foldl (λ s shard, begin_drain shard b s) s l).
Proof. revert s. induction l as [|x l IH]; intros s Hs; [done|]. apply IH, begin_drain_ok, Hs. Qed.

Lemma pick_up_ok target l now st s :
  one_reader s → one_reader (pick_up target l now st s).2.
Proof.
  revert st s. induction l as [|x l IH]; intros st s Hs; [done|]. cbn. case_match; [done|].
  destruct (draining s !! x) eqn:Ed; [by apply IH|].
  destruct (acquire _ _ _ _ _) as [st' taken]. apply IH. destruct taken; [|done].
  intros y. cbn. destruct (decide (y = x)) as [->|]; [by right|].
  rewrite lookup_insert_ne by done. apply Hs.
Qed.

(** What [pick_up] takes stays within the target. *)
Lemma pick_up_size target l now st s :
  Z.of_nat (size (consumers s)) ≤ target →
  Z.of_nat (size (consumers (pick_up target l now st s).2)) ≤ target.
Proof.
  revert st s. induction l as [|x l IH]; intros st s Hs; [done|]. cbn. case_match eqn:E; [done|].
  destruct (draining s !! x); [by apply IH|].
  destruct (acquire _ _ _ _ _) as [st' taken]. apply IH. destruct taken; [|done]. cbn.
  pose proof (map_size_insert x false (consumers s)) as Hi. rewrite Hi. unfold id. case_match; lia.
Qed.

Lemma begin_drains_owned b l s :
  NoDup l → (∀ x, x ∈ l → is_Some (consumers s !! x)) →
  size (consumers (foldl (λ s shard, begin_drain shard b s) s l)) = (size (consumers s) - length l)%nat.
Proof.
  revert s. induction l as [|x l IH]; intros s Hnd Hl; cbn; [lia|].
  apply NoDup_cons in Hnd as [Hx Hnd]. destruct (Hl x ltac:(left)) as [v Hv].
  rewrite IH; [|done|].
  - unfold begin_drain. rewrite Hv. cbn. rewrite map_size_delete_Some by eauto. lia.
  - intros y Hy. unfold begin_drain. rewrite Hv. cbn. rewrite lookup_delete_ne; [apply Hl; by right|].
    intros ->. done.
Qed.

Lemma lease_lost_ok s shard : one_reader s → one_reader (lease_lost s shard).
Proof.
  intros Hs. unfold lease_lost. destruct (draining s !! shard) eqn:E; [|by apply begin_drain_ok].
  intros x. cbn. destruct (decide (x = shard)) as [->|]; [|by rewrite lookup_insert_ne by done].
  left. destruct (Hs shard); congruence.
Qed.

Lemma service_step_ok s s' : one_reader s → service_step s s' → one_reader s'.
Proof.
  intros Hs Hstep. destruct Hstep as [s now m st m' st' s' Hr|s now st st' s' Hr|s shard now st st' s' Hr|s shard].
  - unfold reconcile_shards in Hr. destruct (rebalance _ _ _ _ _ _) as [m1 [p|e]]; [|done].
    pose proof (pick_up_ok (target p) (candidates p) now st
      (foldl (λ s shard, begin_drain shard true s) (reap_finished_consumers s) (release p))) as Hp.
    destruct (pick_up _ _ _ _ _) as [st1 s3]. injection Hr as _ _ <-. apply Hp.
    by apply begin_drains_ok, begin_drains_ok.
  - unfold renew_leases in Hr. destruct (renew_all _ _ _) as [st1 lost]. injection Hr as _ <-.
    revert s Hs. induction lost as [|x lost IH]; intros s Hs; [done|]. apply IH, lease_lost_ok, Hs.
  - unfold drain_finished in Hr.
    assert (one_reader (mkService (consumers s) (delete shard (draining s)))) as Hd.
    { intros x. cbn. destruct (Hs x) as [?|Hx]; [by left|right].
      destruct (decide (x = shard)) as [->|]; [by rewrite lookup_delete_eq|by rewrite lookup_delete_ne]. }
    destruct (draining s !! shard) as [[]|]; by simplify_eq.
  - unfold consumer_ended. destruct (consumers s !! shard) eqn:E; [|done]. intros x. cbn.
    destruct (decide (x = shard)) as [->|]; [right; destruct (Hs shard); congruence|].
    rewrite lookup_insert_ne by done. apply Hs.
Qed.
End service.

(** ** Partition maintenance *)

(** Days since the epoch that have a history partition. *)
Definition day_of (ms : Z) : Z := ms / 86400000.
Definition DAYS_AHEAD : Z := 2.
Definition MAINTENANCE_TTL_MS : Z := 600 * 1000 - 1000.

(** [geotrack_ensure_history_partitions] and [geotrack_drop_history_partitions]. *)
Definition ensure_history_partitions (from to : Z) (days : gset Z) : gset Z :=
  list_to_set (seqZ from (to - from + 1)) ∪ days.
Definition drop_history_partitions (before : Z) (days : gset Z) : gset Z :=
  filter (λ d, before ≤ d) days.

(** [run_once]: whether this replica led the round, and the partitions after it. A
    failed transaction gives the lead back. *)
Definition maintenance_run_once {S} `{LeaseStore S} (retention_days : Z) (instance : string)
    (now : Z) (commits : bool) (st : S) (days : gset Z) : S * gset Z * option bool :=
  let '(st1, led) := set_nx_px st now MAINTENANCE_LEASE_KEY instance MAINTENANCE_TTL_MS in
  if negb led then (st1, days, Some false)
  else if commits then
    let today := day_of now in
    (st1, drop_history_partitions (today - retention_days)
            (ensure_history_partitions (today - retention_days) (today + DAYS_AHEAD) days), Some true)
  else ((RELEASE_SCRIPT st1 now MAINTENANCE_LEASE_KEY instance).1, days, None).

(** ** Properties *)

(** C26: one reader per shard and no more than a fair share. Whatever a replica's loops
    do in whatever order, no shard is ever consumed and winding down at once; and a
    round of reconciliation leaves the replica with at most its target of shards. *)
Theorem reconcile_within_share {S} `{LeaseStoreLaws S} shards ttl_ms membership_ttl_ms instance
    s now m st m' st' s' :
  rtc (service_step shards ttl_ms membership_ttl_ms instance) new_service s →
  1 ≤ shards < 2 ^ 53 → Z.of_nat (size (<[instance := now]> m)) < 2 ^ 53 →
  (∀ x, x ∈ owned_shards s → 0 ≤ x < shards) →
  reconcile_shards shards ttl_ms membership_ttl_ms instance now m st s = (m', st', Ok s') →
  one_reader s' ∧
  ∃ p, (rebalance shards membership_ttl_ms instance now (owned_shards (reap_finished_consumers s)) m).2 = Ok p ∧
       Z.of_nat (size (owned_shards s')) ≤ target p.
Proof.
  intros Hr Hs Hm Hown Hrec.
  assert (Hone : one_reader s).
  { revert s Hr Hown Hrec. intros s Hr _ _. revert s Hr. apply (rtc_ind_r one_reader); [by left|].
    intros s1 s2 _ Hstep H1. by eapply service_step_ok. }
  split; [by eapply service_step_ok; [|by eapply svc_reconcile]|].
  set (s1 := reap_finished_consumers s).
  assert (Hown1 : ∀ x, x ∈ owned_shards s1 → 0 ≤ x < shards).
  { intros x Hx. apply Hown. revert Hx. unfold s1, reap_finished_consumers.
    generalize (filter (λ p : Z * bool, p.2 = true) (map_to_list (consumers s))).*1. intros l.
    revert s Hr Hown Hrec Hone s1. clear. intros s _ _ _ _ _.
    revert s. induction l as [|y l IH]; intros s Hx; [done|]. cbn in Hx. apply IH in Hx. revert Hx.
    unfold owned_shards, begin_drain. destruct (consumers s !! y); [|done]. cbn. rewrite dom_delete. set_solver. }
  unfold reconcile_shards in Hrec. fold s1 in Hrec. unfold rebalance in *.
  destruct (heartbeat membership_ttl_ms instance now m) as [m1 live] eqn:Eh.
  assert (Hlive : live < 2 ^ 53).
  { unfold heartbeat in Eh. injection Eh as _ <-.
    assert (size (filter (λ p : string * Z, (now - membership_ttl_ms < p.2)%Z) (<[instance := now]> m))
            ≤ size (<[instance := now]> m))%nat by apply map_subseteq_size, map_filter_subseteq. lia. }
  destruct (fair_share_plan_spec shards (owned_shards s1) live (lease_offset instance shards) Hs Hlive Hown1)
    as (p & Hp & HL & Hcov & _ & Hover & Hrel & _ & _).
  rewrite Hp in Hrec |- *. exists p. split; [done|].
  set (s2 := foldl _ s1 (release p)) in Hrec.
  assert (Hsz : ∀ g, size (owned_shards g) = size (consumers g)) by (intros g; apply size_dom).
  assert (H2 : Z.of_nat (size (consumers s2)) ≤ target p).
  { destruct (decide (target p < Z.of_nat (size (owned_shards s1)))) as [Hgt|Hle].
    - destruct (Hover Hgt) as (_ & Hnd & Hlen & Hin & _). unfold s2.
      rewrite begin_drains_owned; [|done|].
      { pose proof (Hsz s1). assert (0 < target p) by nia. lia. }
      intros x Hx. apply elem_of_dom, (Hin x Hx).
    - unfold s2. rewrite Hrel by lia. cbn. pose proof (Hsz s1). lia. }
  pose proof (pick_up_size ttl_ms instance (target p) (candidates p) now st s2 H2) as H3.
  destruct (pick_up _ _ _ _ _ _ _) as [st1 s3]. injection Hrec as _ _ <-. by rewrite Hsz.
Qed.

(** every report the processor stores has a partition to go to. If the partitions
    were maintained within the last day and devices may be at most a day ahead, the
    day of any storable report has its history partition. *)
Lemma storable_has_partition retention_days skew_s maintained now days r :
  0 ≤ retention_days → 0 ≤ skew_s * 1000 ≤ 86400000 →
  maintained ≤ now ≤ maintained + 86400000 →
  unstorable_reason r (now - retention_days * 86400 * 1000) (now + skew_s * 1000) = None →
  let today := day_of maintained in
  day_of (reported_ms r) ∈
    drop_history_partitions (today - retention_days)
      (ensure_history_partitions (today - retention_days) (today + DAYS_AHEAD) days).
Proof.
  intros Hret Hskew Hnow Hr today. unfold unstorable_reason in Hr.
  destruct (negb (device_id_ok (device_id r))); [done|].
  destruct (Z.ltb_spec (reported_ms r) (now - retention_days * 86400 * 1000)); [done|].
  destruct (Z.ltb_spec (now + skew_s * 1000) (reported_ms r)); [done|].
  assert (Hlo : today - retention_days ≤ day_of (reported_ms r)).
  { unfold today, day_of. transitivity ((maintained - retention_days * 86400000) / 86400000).
    - replace (maintained - retention_days * 86400000) with (maintained + (- retention_days) * 86400000) by lia.
      rewrite Z.div_add by lia. lia.
    - apply Z.div_le_mono; lia. }
  assert (Hhi : day_of (reported_ms r) ≤ today + DAYS_AHEAD).
  { unfold today, day_of, DAYS_AHEAD. transitivity ((maintained + 2 * 86400000) / 86400000).
    - apply Z.div_le_mono; lia.
    - rewrite Z.div_add by lia. lia. }
  unfold drop_history_partitions, ensure_history_partitions.
  apply elem_of_filter. split; [done|]. apply elem_of_union. left.
  apply elem_of_list_to_set, elem_of_seqZ. lia.
Qed.

Lemma reconcile_within_share_witness :
  ∃ m' st' s', reconcile_shards 4 5000 15000 "a" 100 ∅ (∅ : Redis) new_service = (m', st', Ok s') ∧
    one_reader s' ∧ size (owned_shards s') = 4%nat ∧
    ∃ p, (rebalance 4 15000 "a" 100 (owned_shards (reap_finished_consumers new_service)) ∅).2 = Ok p ∧
         Z.of_nat (size (owned_shards s')) ≤ target p.
Proof.
  eexists _, _, _. split; [vm_compute; reflexivity|].
  match goal with |- one_reader ?s' ∧ _ =>
    assert (H : one_reader s' ∧
      ∃ p, (rebalance 4 15000 "a" 100 (owned_shards (reap_finished_consumers new_service)) ∅).2 = Ok p ∧
           Z.of_nat (size (owned_shards s')) ≤ target p) end.
  { eapply (reconcile_within_share (S := Redis) 4 5000 15000 "a" new_service 100 ∅ ∅); [constructor|lia|..].
    - vm_compute; reflexivity.
    - intros x Hx. vm_compute in Hx. set_solver.
    - vm_compute; reflexivity. }
  destruct H as [H1 H2]. split; [exact H1|split; [vm_compute; reflexivity|exact H2]].
Defined.

Lemma storable_has_partition_witness :
  day_of (reported_ms Samples.report) ∈
    drop_history_partitions (day_of 1699999000000 - 30)
      (ensure_history_partitions (day_of 1699999000000 - 30) (day_of 1699999000000 + DAYS_AHEAD) ∅).
Proof.
  apply (storable_has_partition 30 60 1699999000000 1700000001000 ∅ Samples.report); [lia..|].
  vm_compute; reflexivity.
Defined.
