(* ===== verification/Rounds.v ===== *)
(** * Partition maintenance over a fleet of processors
    (src/geotrack/processor/maintenance.py, [start] and [_maintenance_loop] of
    src/geotrack/processor/service.py)

    Replicas come up, take the maintenance lead in turns, do the round or fail in it, hand
    the lead back or die with it, over one Redis and one database. [Service] has the round
    of one replica alone ([Service.maintenance_run_once]); here its awaits are steps. *)
From stdpp Require Import relations.
From S2P Require Import Prelude Floats Text Keys Codec Batch Leases Service.

Definition INTERVAL_MS : Z := 600 * 1000.

(** Where a replica is: [start] before its round; in a round, begun at a moment (of its
    start or not); up, its loop asleep until a moment; its start failed. *)
Inductive Stage :=
  | Starting
  | Leading (at_start : bool) (since : Z)
  | Up (next_round : Z)
  | StartFailed.
#[export] Instance Stage_eq_dec : EqDecision Stage.
Proof. solve_decision. Defined.

(** One lead taken: when, by whom, and whether it was handed back. *)
Record Lead := mkLead { taken_at : Z; leader : string; given_up : bool }.

Section fleet.
Context {S : Type} `{LeaseStore S}.
Variable retention_days : Z.

(** [leads] and [rounds] (the [now()] of the committed rounds) are kept for the
    statements only. *)
Record Fleet := mkFleet {
  now : Z; redis : S; replicas : gmap string Stage; days : gset Z; leads : list Lead; rounds : list Z }.

Definition at_stage (i : string) (st : Stage) (f : Fleet) : Fleet :=
  mkFleet (now f) (redis f) (<[i := st]> (replicas f)) (days f) (leads f) (rounds f).
(** The end of [run_once], returned or raised: a start goes on or fails, the loop sleeps. *)
Definition after_round (at_start ok : bool) (t : Z) : Stage :=
  if at_start && negb ok then StartFailed else Up (t + INTERVAL_MS).
(** A replica about to call [run_once]. *)
Definition due (st : Stage) (t : Z) : option bool :=
  match st with
  | Starting => Some true
  | Up next => if next <=? t then Some false else None
  | _ => None
  end.

(** [_take_lead]. *)
Definition take_lead (i : string) (f : Fleet) : S * bool :=
  set_nx_px (redis f) (now f) MAINTENANCE_LEASE_KEY i MAINTENANCE_TTL_MS.
(** [_give_up_the_lead], and the note that the lead was given up. *)
Definition abandon_lead (i : string) (f : Fleet) : S :=
  (RELEASE_SCRIPT (redis f) (now f) MAINTENANCE_LEASE_KEY i).1.
Definition mark_given_up (i : string) (since : Z) (l : Lead) : Lead :=
  if decide (leader l = i ∧ taken_at l = since) then mkLead since i true else l.

(** The transaction: its [now()] is the moment it began. *)
Definition maintain (since : Z) (d : gset Z) : gset Z :=
  let today := day_of since in
  drop_history_partitions (today - retention_days)
    (ensure_history_partitions (today - retention_days) (today + DAYS_AHEAD) d).

Inductive fleet_step : Fleet → Fleet → Prop :=
  | fl_clock f t : now f ≤ t →
      fleet_step f (mkFleet t (redis f) (replicas f) (days f) (leads f) (rounds f))
  (* a replica starts under a name of its own *)
  | fl_deploy f i : replicas f !! i = None → fleet_step f (at_stage i Starting f)
  (* SET answers, or its answer is lost, or it never arrives *)
  | fl_led f i st b s' : replicas f !! i = Some st → due st (now f) = Some b →
      take_lead i f = (s', true) →
      fleet_step f (at_stage i (Leading b (now f))
        (mkFleet (now f) s' (replicas f) (days f) (leads f ++ [mkLead (now f) i false]) (rounds f)))
  | fl_skipped f i st b s' : replicas f !! i = Some st → due st (now f) = Some b →
      take_lead i f = (s', false) →
      fleet_step f (at_stage i (after_round b true (now f)) f)
  | fl_unanswered f i st b s' : replicas f !! i = Some st → due st (now f) = Some b →
      take_lead i f = (s', true) →
      fleet_step f (at_stage i (after_round b false (now f))
        (mkFleet (now f) s' (replicas f) (days f) (leads f ++ [mkLead (now f) i false]) (rounds f)))
  | fl_unasked f i st b : replicas f !! i = Some st → due st (now f) = Some b →
      fleet_step f (at_stage i (after_round b false (now f)) f)
  (* the transaction commits *)
  | fl_done f i b since : replicas f !! i = Some (Leading b since) →
      fleet_step f (at_stage i (after_round b true (now f))
        (mkFleet (now f) (redis f) (replicas f) (maintain since (days f)) (leads f) (rounds f ++ [since])))
  (* it fails, and the lead is handed back; it committed, but the answer is lost; or
     handing back fails too *)
  | fl_failed f i b since : replicas f !! i = Some (Leading b since) →
      fleet_step f (at_stage i (after_round b false (now f))
        (mkFleet (now f) (abandon_lead i f) (replicas f) (days f) (mark_given_up i since <$> leads f) (rounds f)))
  | fl_unsure f i b since : replicas f !! i = Some (Leading b since) →
      fleet_step f (at_stage i (after_round b false (now f))
        (mkFleet (now f) (abandon_lead i f) (replicas f) (maintain since (days f)) (mark_given_up i since <$> leads f)
           (rounds f ++ [since])))
  | fl_kept f i b since : replicas f !! i = Some (Leading b since) →
      fleet_step f (at_stage i (after_round b false (now f)) f)
  (* a replica is gone: killed, or stopped *)
  | fl_gone f i : fleet_step f (mkFleet (now f) (redis f) (delete i (replicas f)) (days f) (leads f) (rounds f)).

Definition fleet_start (s : S) (d : gset Z) : Fleet := mkFleet 0 s ∅ d [] [].

(** ** One lead at a time *)

Context `{!LeaseStoreLaws S}.

(** A lead that was not handed back keeps the key until its time is over; leads that were
    not handed back are a time to live apart; a replica in a round holds the last of its
    leads. *)
Record fleet_ok (f : Fleet) : Prop := {
  ok_key l : l ∈ leads f → given_up l = false → now f < taken_at l + MAINTENANCE_TTL_MS →
    holds (redis f) (now f) MAINTENANCE_LEASE_KEY = Some (leader l, taken_at l + MAINTENANCE_TTL_MS);
  ok_past l : l ∈ leads f → taken_at l ≤ now f;
  ok_apart j k l l' : leads f !! j = Some l → leads f !! k = Some l' → (j < k)%nat →
    given_up l = false → taken_at l + MAINTENANCE_TTL_MS ≤ taken_at l';
  ok_leading i b since : replicas f !! i = Some (Leading b since) →
    mkLead since i false ∈ leads f ∧ ∀ l, l ∈ leads f → leader l = i → taken_at l ≤ since }.

Lemma ttl_pos : 0 < MAINTENANCE_TTL_MS.
Proof. done. Qed.

Lemma lead_ok f i s' r :
  fleet_ok f → take_lead i f = (s', true) →
  (∀ j b since, r !! j = Some (Leading b since) →
     (j = i ∧ since = now f) ∨ (j ≠ i ∧ replicas f !! j = Some (Leading b since))) →
  fleet_ok (mkFleet (now f) s' r (days f) (leads f ++ [mkLead (now f) i false]) (rounds f)).
Proof.
  intros [Hk Hp Ha Hl0] Ht Hr. unfold take_lead in Ht.
  pose proof (holds_set (redis f) (now f) MAINTENANCE_LEASE_KEY i MAINTENANCE_TTL_MS MAINTENANCE_LEASE_KEY ttl_pos)
    as [Hb Hh]. rewrite Ht in Hb, Hh. cbn in Hb, Hh.
  destruct (decide (holds (redis f) (now f) MAINTENANCE_LEASE_KEY = None)) as [Hn|Hn];
    [|by rewrite bool_decide_eq_false_2 in Hb].
  rewrite decide_True in Hh by done. clear Hb.
  assert (Hold : ∀ l, l ∈ leads f → given_up l = false → taken_at l + MAINTENANCE_TTL_MS ≤ now f).
  { intros l Hl Hg. destruct (decide (now f < taken_at l + MAINTENANCE_TTL_MS)) as [Hlt|]; [|lia].
    by rewrite (Hk l Hl Hg Hlt) in Hn. }
  split; cbn.
  - intros l [Hl| ->%list_elem_of_singleton]%elem_of_app Hg Hlt; [|done].
    specialize (Hold l Hl Hg). lia.
  - intros l [Hl| ->%list_elem_of_singleton]%elem_of_app; [by apply Hp|cbn; lia].
  - intros j k l l' Hj Hk' Hjk Hg. apply lookup_app_Some in Hk' as [Hk'|[Hlen Hk']].
    + apply lookup_lt_Some in Hk' as Hlt. rewrite lookup_app_l in Hj by lia. by eapply Ha.
    + apply list_lookup_singleton_Some in Hk' as [Hk0 <-].
      rewrite lookup_app_l in Hj by lia. cbn. by eapply Hold, Hg; eapply list_elem_of_lookup_2.
  - intros j b since [[-> ->]|[Hne Hj]]%Hr.
    + split; [apply elem_of_app; right; by apply list_elem_of_singleton|].
      intros l [Hl| ->%list_elem_of_singleton]%elem_of_app _; [by apply Hp|cbn; lia].
    + destruct (Hl0 j b since Hj) as [Hin Hmax]. split; [apply elem_of_app; by left|].
      intros l [Hl| ->%list_elem_of_singleton]%elem_of_app Hlj; [by apply Hmax|by destruct Hne].
Qed.

Lemma same_leads f f' :
  fleet_ok f → now f' = now f → redis f' = redis f → leads f' = leads f →
  (∀ j b since, replicas f' !! j = Some (Leading b since) → replicas f !! j = Some (Leading b since)) →
  fleet_ok f'.
Proof. intros [Hk Hp Ha Hl] En Er El Hr. split; rewrite ?En, ?Er, ?El; try done. eauto. Qed.

Lemma gave_up_ok f i b since r d rs :
  fleet_ok f → replicas f !! i = Some (Leading b since) →
  (∀ j b' t, r !! j = Some (Leading b' t) → j ≠ i ∧ replicas f !! j = Some (Leading b' t)) →
  fleet_ok (mkFleet (now f) (abandon_lead i f) r d (mark_given_up i since <$> leads f) rs).
Proof.
  intros [Hk Hp Ha Hl0] Hi Hr. destruct (Hl0 i b since Hi) as [Hin Hmax].
  assert (Hm : ∀ l, taken_at (mark_given_up i since l) = taken_at l ∧
     (given_up (mark_given_up i since l) = false →
        mark_given_up i since l = l ∧ ¬ (leader l = i ∧ taken_at l = since))).
  { intros l. unfold mark_given_up. case_decide as Hc; [destruct Hc as [? <-]; done|done]. }
  split; cbn.
  - intros x (l & -> & Hl)%list_elem_of_fmap. destruct (Hm l) as [-> Hg']. intros Hg Hlt.
    destruct (Hg' Hg) as [E Hne]. rewrite E in Hg |- *. specialize (Hk l Hl Hg Hlt).
    unfold abandon_lead, RELEASE_SCRIPT. rewrite Hk. cbn. rewrite decide_False; [done|]. intros [= Ei].
    apply Hne. split; [done|]. apply list_elem_of_lookup in Hl as [j Hj].
    apply list_elem_of_lookup in Hin as [k Hk'].
    destruct (Nat.lt_trichotomy j k) as [Hjk|[->|Hjk]].
    + pose proof (Ha j k _ _ Hj Hk' Hjk Hg) as Hap. cbn in Hap.
      pose proof (Hp _ (list_elem_of_lookup_2 _ _ _ Hk')) as Hpast. cbn in Hpast. lia.
    + rewrite Hj in Hk'. by injection Hk' as ->.
    + pose proof (Ha k j _ _ Hk' Hj Hjk eq_refl) as Hap. cbn in Hap.
      pose proof (Hmax l (list_elem_of_lookup_2 _ _ _ Hj) Ei). pose proof ttl_pos. lia.
  - intros x (l & -> & Hl)%list_elem_of_fmap. destruct (Hm l) as [-> _]. by apply Hp.
  - intros j k x x'. rewrite !list_lookup_fmap. intros (l & Hj & ->)%fmap_Some (l' & Hk' & ->)%fmap_Some Hjk.
    destruct (Hm l) as [-> Hg], (Hm l') as [-> _]. intros Hx. destruct (Hg Hx) as [E _]. rewrite E in Hx. by eapply Ha.
  - intros j b' t [Hne Hj]%Hr. destruct (Hl0 j b' t Hj) as [Hj1 Hj2]. split.
    + apply list_elem_of_fmap. exists (mkLead t j false). split; [|done]. unfold mark_given_up. cbn.
      rewrite decide_False; [done|]. by intros [-> _].
    + intros x (l & -> & Hl)%list_elem_of_fmap Hx. destruct (Hm l) as [-> _]. apply Hj2; [done|].
      unfold mark_given_up in Hx. case_decide as Hc; [by destruct Hne; rewrite <- Hx|done].
Qed.

(** A replica that takes a step out of its round is in none afterwards. *)
Lemma at_stage_leading i st f j b since :
  (∀ b' t, st ≠ Leading b' t) →
  replicas (at_stage i st f) !! j = Some (Leading b since) → j ≠ i ∧ replicas f !! j = Some (Leading b since).
Proof.
  intros Hst. cbn. destruct (decide (i = j)) as [<-|Hne].
  - rewrite lookup_insert_eq. intros [= ->]. by destruct (Hst b since).
  - rewrite lookup_insert_ne by done. done.
Qed.
Lemma after_round_not_leading b ok t b' t' : after_round b ok t ≠ Leading b' t'.
Proof. unfold after_round. by destruct (b && negb ok). Qed.

Lemma fleet_step_ok f f' : fleet_ok f → fleet_step f f' → fleet_ok f'.
Proof.
  intros Hf Hs. destruct Hs as [f t Ht|f i Hi|f i st b s' Hi Hd E|f i st b s' Hi Hd E|f i st b s' Hi Hd E
    |f i st b Hi Hd|f i b since Hi|f i b since Hi|f i b since Hi|f i b since Hi|f i].
  - destruct Hf as [Hk Hp Ha Hl]. split; cbn; [|intros l Hin; specialize (Hp l Hin); lia|done|done].
    intros l Hin Hg Hlt. rewrite (holds_later (redis f) (now f) t) by done.
    rewrite (Hk l Hin Hg) by lia. by rewrite (proj2 (Z.ltb_lt _ _)) by lia.
  - eapply same_leads; [exact Hf|done..|]. intros j b since Hj. by apply (at_stage_leading i Starting f) in Hj as [].
  - apply (lead_ok f i s' _ Hf E). intros j b' since. cbn. destruct (decide (i = j)) as [<-|Hne].
    + rewrite lookup_insert_eq. intros [= <- <-]. by left.
    + rewrite lookup_insert_ne by done. by right.
  - eapply same_leads; [exact Hf|done..|]. intros j b' since Hj.
    by apply (at_stage_leading i _ f) in Hj as []; [|intros ??; apply after_round_not_leading].
  - apply (lead_ok f i s' _ Hf E). intros j b' since Hj. right.
    by apply (at_stage_leading i (after_round b false (now f)) f) in Hj; [|intros ??; apply after_round_not_leading].
  - eapply same_leads; [exact Hf|done..|]. intros j b' since Hj.
    by apply (at_stage_leading i _ f) in Hj as []; [|intros ??; apply after_round_not_leading].
  - eapply same_leads; [exact Hf|done..|]. intros j b' t Hj.
    by apply (at_stage_leading i (after_round b true (now f)) f) in Hj as []; [|intros ??; apply after_round_not_leading].
  - apply (gave_up_ok f i b since _ _ _ Hf Hi). intros j b' t Hj.
    by apply (at_stage_leading i (after_round b false (now f)) f) in Hj; [|intros ??; apply after_round_not_leading].
  - apply (gave_up_ok f i b since _ _ _ Hf Hi). intros j b' t Hj.
    by apply (at_stage_leading i (after_round b false (now f)) f) in Hj; [|intros ??; apply after_round_not_leading].
  - eapply same_leads; [exact Hf|done..|]. intros j b' t Hj.
    by apply (at_stage_leading i _ f) in Hj as []; [|intros ??; apply after_round_not_leading].
  - eapply same_leads; [exact Hf|done..|]. intros j b' t Hj. cbn in Hj. by apply lookup_delete_Some in Hj as [].
Qed.

(** ** Partitions *)

(** Every day a committed round made, or made sure of, is there unless a round that came
    later in the run found it older than the retention. *)
Record partitions_ok (f : Fleet) : Prop := {
  ok_days pre t post d : rounds f = pre ++ t :: post →
    day_of t - retention_days ≤ d ≤ day_of t + DAYS_AHEAD →
    (∀ t', t' ∈ post → day_of t' - retention_days ≤ d) → d ∈ days f }.

Lemma elem_maintain since d x :
  x ∈ maintain since d ↔
  day_of since - retention_days ≤ x ∧ (x ≤ day_of since + DAYS_AHEAD ∨ x ∈ d).
Proof.
  unfold maintain, drop_history_partitions, ensure_history_partitions.
  rewrite elem_of_filter, elem_of_union, elem_of_list_to_set, elem_of_seqZ. naive_solver lia.
Qed.

Lemma maintain_ok f f' since :
  partitions_ok f → days f' = maintain since (days f) → rounds f' = rounds f ++ [since] → partitions_ok f'.
Proof.
  intros [Hd] Ed Er. split. intros pre t post d. rewrite Ed, Er. intros E Hr Hpost. apply elem_maintain.
  destruct post as [|x post] using rev_ind.
  - apply app_inj_tail in E as [_ <-]. split; [lia|]. left. lia.
  - clear IHpost. rewrite app_comm_cons, app_assoc in E. apply app_inj_tail in E as [E <-].
    split; [apply Hpost, elem_of_app; right; by left|]. right. eapply Hd; [exact E|done|].
    intros t' Ht'. apply Hpost, elem_of_app. by left.
Qed.

Lemma partitions_step f f' : partitions_ok f → fleet_step f f' → partitions_ok f'.
Proof.
  intros Hf Hs. destruct Hs; try (by destruct Hf; split); by eapply maintain_ok.
Qed.
End fleet.

(** ** Properties *)

(** C25: the rounds of the fleet take turns. A lead that was not handed back keeps every
    other replica from the next one for its time to live, so two replicas in a round at
    once began that far apart; handing a lead back in time frees it for the next replica;
    and every day that a committed round reached and no later one found too old has its
    partition. *)
Theorem rounds_take_turns {S} `{LeaseStoreLaws S} retention_days s d f :
  rtc (fleet_step retention_days) (fleet_start s d) f →
  (∀ j k l l', leads f !! j = Some l → leads f !! k = Some l' → (j < k)%nat →
     given_up l = false → taken_at l + MAINTENANCE_TTL_MS ≤ taken_at l') ∧
  (∀ i i' b b' t t', replicas f !! i = Some (Leading b t) → replicas f !! i' = Some (Leading b' t') →
     i ≠ i' → t + MAINTENANCE_TTL_MS ≤ t' ∨ t' + MAINTENANCE_TTL_MS ≤ t) ∧
  (∀ i b t, replicas f !! i = Some (Leading b t) → now f < t + MAINTENANCE_TTL_MS →
     holds (abandon_lead i f) (now f) MAINTENANCE_LEASE_KEY = None) ∧
  (∀ pre t post x, rounds f = pre ++ t :: post →
     day_of t - retention_days ≤ x ≤ day_of t + DAYS_AHEAD →
     (∀ t', t' ∈ post → day_of t' - retention_days ≤ x) → x ∈ days f).
Proof.
  intros Hr.
  assert (fleet_ok f ∧ partitions_ok retention_days f) as [[Hk Hp Ha Hl] [Hd]].
  { revert Hr. apply (rtc_ind_r (λ f, fleet_ok f ∧ partitions_ok retention_days f)).
    - split; split; cbn; [by intros l ?%elem_of_nil|by intros l ?%elem_of_nil|done|done|].
      intros pre t post x E. by destruct pre.
    - intros x y _ Hs [Hx1 Hx2]. split; [by eapply fleet_step_ok|by eapply partitions_step]. }
  split_and!; [done| | |done].
  - intros i i' b b' t t' Hi Hi' Hne. destruct (Hl i b t Hi) as [Hin _], (Hl i' b' t' Hi') as [Hin' _].
    apply list_elem_of_lookup in Hin as [j Hj], Hin' as [k Hk'].
    destruct (Nat.lt_trichotomy j k) as [Hjk|[->|Hjk]].
    + left. by apply (Ha j k _ _ Hj Hk' Hjk).
    + rewrite Hj in Hk'. injection Hk' as _ ->. done.
    + right. by apply (Ha k j _ _ Hk' Hj Hjk).
  - intros i b t Hi Hlt. destruct (Hl i b t Hi) as [Hin _]. specialize (Hk _ Hin eq_refl Hlt). cbn in Hk.
    unfold abandon_lead, RELEASE_SCRIPT. rewrite Hk. cbn. rewrite decide_True by done.
    destruct (holds_del (redis f) (now f) MAINTENANCE_LEASE_KEY MAINTENANCE_LEASE_KEY) as [_ ->].
    by rewrite decide_True.
Qed.

(** ** Two replicas that start together *)

Module RoundsSamples.
Definition step : Fleet → Fleet → Prop := fleet_step (S := Redis) 30.
Definition fleet (t : Z) (key : Redis) (a b : Stage) (g : bool) : Fleet :=
  mkFleet t key {["a" := a; "b" := b]} ∅ [mkLead 0 "a" g] [].
Definition held : Redis := {[MAINTENANCE_LEASE_KEY := ("a", MAINTENANCE_TTL_MS)]}.

(** The first is in its round. *)
Definition leading : Fleet := fleet 0 held (Leading true 0) Starting false.
Lemma leading_reachable : rtc step (fleet_start ∅ ∅) leading.
Proof.
  eapply rtc_l; [apply (fl_deploy _ _ "a"); reflexivity|].
  eapply rtc_l; [apply (fl_deploy _ _ "b"); reflexivity|].
  eapply rtc_l; [apply (fl_led _ _ "a" Starting true held); vm_compute; reflexivity|].
  match goal with |- rtc _ ?x _ => assert (x = leading) as -> by (vm_compute; reflexivity) end. constructor.
Qed.

(** The second finds the lead taken and is up; then the first one's transaction fails. *)
Definition abandoned : Fleet := fleet 599999 ∅ StartFailed (Up 600000) true.
Lemma abandoned_reachable : rtc step (fleet_start ∅ ∅) abandoned.
Proof.
  etrans; [exact leading_reachable|].
  eapply rtc_l; [apply (fl_skipped _ _ "b" Starting true held); vm_compute; reflexivity|].
  eapply rtc_l; [apply (fl_failed _ _ "a" true 0); vm_compute; reflexivity|].
  eapply rtc_l; [apply (fl_clock _ _ 599999); vm_compute; discriminate|].
  match goal with |- rtc _ ?x _ => assert (x = abandoned) as -> by (vm_compute; reflexivity) end. constructor.
Qed.
End RoundsSamples.

(** A replica that finds the lead taken when it starts goes on to consume although nobody
    has made the partitions yet: if the leader's round then fails, the lead is free but
    the replica asks for it only when its loop wakes up, ten minutes later, and until
    then no report of today can be archived. *)
Lemma skipped_start_without_partition :
  ∃ f, rtc RoundsSamples.step (fleet_start ∅ ∅) f ∧
       replicas f !! "b" = Some (Up (now f + 1)) ∧ now f = 599999 ∧
       (∀ i b t, replicas f !! i ≠ Some (Leading b t)) ∧
       holds (redis f) (now f) MAINTENANCE_LEASE_KEY = None ∧ day_of (now f) ∉ days f.
Proof.
  exists RoundsSamples.abandoned. split; [exact RoundsSamples.abandoned_reachable|].
  split; [reflexivity|]. split; [reflexivity|]. split; [|split; [reflexivity|cbn; set_solver]].
  intros i b t. cbn. rewrite lookup_insert_Some, lookup_singleton_Some. naive_solver.
Qed.

Lemma rounds_take_turns_witness :
  replicas RoundsSamples.leading !! "a" = Some (Leading true 0) ∧
  holds (abandon_lead "a" RoundsSamples.leading) 0 MAINTENANCE_LEASE_KEY = None.
Proof.
  split; [reflexivity|].
  destruct (rounds_take_turns (S := Redis) 30 ∅ ∅ RoundsSamples.leading RoundsSamples.leading_reachable)
    as (_ & _ & Hfree & _).
  exact (Hfree "a" true 0 eq_refl eq_refl).
Defined.
