(* ===== verification/Lifecycle.v ===== *)
(** * Start and stop of a processor replica (start, stop, is_ready, _await_drains,
    _release_quietly and the probes of src/geotrack/processor/service.py)

    What a replica opens, the loops it runs and the leases it hands back. Redis answers
    or fails each release by itself. *)
From stdpp Require Import sorting.
From S2P Require Import Prelude Text Json Keys Codec Batch Leases Shards Service.

Record Replica := mkReplica {
  service : ProcessorService;
  running : bool;                (* _resources is not None *)
  loops : bool;                  (* the control, renew and maintenance tasks *)
  last_heartbeat_ms : Z }.

Definition new_replica : Replica := mkReplica new_service false false 0.

Section lifecycle.
Context {S : Type} `{LeaseStoreLaws S}.
Variables (shards : Z) (instance : string).

(** [_release_quietly]: a RedisError is logged. *)
Definition release_quietly (answered : bool) (now shard : Z) (st : S) : S :=
  if answered then release_lease instance st now shard else st.

(** The drains that end within the shutdown budget, in the order they end; [answers]
    tells whether Redis answers the release of each. *)
Fixpoint finish_drains (answers : Z → bool) (now : Z) (ended : list Z) (st : S) (s : ProcessorService)
  : S * ProcessorService :=
  match ended with
  | [] => (st, s)
  | shard :: rest =>
      let st' := match draining s !! shard with
                 | Some true => release_quietly (answers shard) now shard st
                 | _ => st
                 end in
      finish_drains answers now rest st' (mkService (consumers s) (delete shard (draining s)))
  end.

(** [_await_drains]: what has not ended is cancelled and forgotten. *)
Definition await_drains (answers : Z → bool) (now : Z) (ended : list Z) (st : S) (s : ProcessorService)
  : S * ProcessorService :=
  let '(st', s') := finish_drains answers now ended st s in (st', mkService (consumers s') ∅).

Definition begin_drains (l : list Z) (s : ProcessorService) : ProcessorService :=
  foldl (λ s shard, begin_drain shard true s) s l.

Definition release_all (answers : Z → bool) (now : Z) (l : list Z) (st : S) : S :=
  foldl (λ st shard, release_quietly (answers shard) now shard st) st l.

(** [stop]: the drains end at [now], the last releases are sent at [later]. *)
Definition stop (during after : Z → bool) (deregistered : bool) (ended : list Z) (now later : Z)
    (members : gmap string Z) (st : S) (r : Replica) : Replica * gmap string Z * S :=
  let s := service r in
  let held := elements (dom (consumers s) ∪ dom (draining s)) in
  let '(st1, s1) := await_drains during now ended st (begin_drains (elements (dom (consumers s))) s) in
  if running r then
    (mkReplica s1 false false (last_heartbeat_ms r),
     (if deregistered then deregister instance members else members),
     release_all after later held st1)
  else (mkReplica s1 false false (last_heartbeat_ms r), members, st1).

(** [start]: the slot after the check, and the replica, which a failure of the check or of
    the first maintenance round sends through [stop]. *)
Definition start (int_of_str : string → option Z) (maintained : res unit) (stopping : bool) (now : Z)
    (slot : Slot) (members : gmap string Z) (st : S) (r : Replica)
  : Slot * gmap string Z * S * (Replica * res unit) :=
  let slot' := claim shards slot in
  let opened := mkReplica (service r) true false (last_heartbeat_ms r) in
  match (let! _ := check_recorded int_of_str shards slot' in maintained) with
  | Ok _ => (slot', members, st, (mkReplica (service r) true true (last_heartbeat_ms r), Ok tt))
  | Raise e =>
      let '(r', members', st') := stop (λ _, true) (λ _, true) stopping [] now now members st opened in
      (slot', members', st', (r', Raise e))
  end.

(** [is_ready]; [answering] is whether both dependencies answered in time. *)
Definition is_ready (ttl_ms now : Z) (answering : bool) (r : Replica) : bool :=
  running r && (now - last_heartbeat_ms r <=? ttl_ms) && answering.

(** The replica's own probes: the status, the body and the headers of an answer. *)
Definition live : Z * json * list (string * string) := (200, JObj [("status", JStr "ok")], []).
Definition ready (ttl_ms now : Z) (answering : bool) (r : Replica) : Z * json * list (string * string) :=
  if is_ready ttl_ms now answering r
  then (200, JObj [("status", JStr "ok");
                   ("shards", JArr (JInt <$> merge_sort Z.le (elements (owned_shards (service r)))))], [])
  else (503, JObj [("status", JStr "not_ready")], [("Retry-After", "1")]).

(** The control loop's round: the heartbeat is noted once [rebalance] has returned. *)
Definition control_round (ttl_ms membership_ttl_ms now : Z) (members : gmap string Z) (st : S) (r : Replica)
  : gmap string Z * S * res Replica :=
  let '(members', st', res_s) := reconcile_shards shards ttl_ms membership_ttl_ms instance now members st (service r) in
  (members', st', let! s := res_s in Ok (mkReplica s (running r) (loops r) now)).

(** ** What the releases do to the leases *)

(** The lease of a shard is not this replica's. *)
Definition not_ours (st : S) (now shard : Z) : Prop :=
  fst <$> holds st now (shard_lease_key shard) ≠ Some instance.

Lemma release_holds st now shard k :
  holds (release_lease instance st now shard) now k =
  if decide (k = shard_lease_key shard ∧ fst <$> holds st now k = Some instance) then None else holds st now k.
Proof.
  unfold release_lease, RELEASE_SCRIPT. case_decide as E.
  - destruct (holds_del st now (shard_lease_key shard) k) as [_ ->].
    repeat case_decide; naive_solver.
  - case_decide as E'; [|done]. destruct E' as [-> E']. done.
Qed.

Lemma release_all_holds answers now l st k :
  holds (release_all answers now l st) now k = holds st now k ∨
  (fst <$> holds st now k = Some instance ∧ holds (release_all answers now l st) now k = None).
Proof.
  revert st. induction l as [|shard l IH]; intros st; [by left|]. cbn.
  fold (release_all answers now l (release_quietly (answers shard) now shard st)).
  unfold release_quietly. destruct (answers shard); [|apply IH].
  destruct (IH (release_lease instance st now shard)) as [->|[Hi ->]]; rewrite release_holds in *;
    case_decide; naive_solver.
Qed.

Lemma release_all_done answers now l st shard :
  shard ∈ l → answers shard = true → not_ours (release_all answers now l st) now shard.
Proof.
  revert st. induction l as [|x l IH]; intros st; [by intros ?%elem_of_nil|]. cbn.
  fold (release_all answers now l (release_quietly (answers x) now x st)).
  intros [<-|Hin]%elem_of_cons Ha; [|by apply IH]. unfold not_ours, release_quietly. rewrite Ha.
  destruct (release_all_holds answers now l (release_lease instance st now shard) (shard_lease_key shard))
    as [->|[_ ->]]; [|done].
  rewrite release_holds. case_decide as E; [done|]. naive_solver.
Qed.

(** Releases only ever remove leases of this replica: those of others live on. *)
Definition others_kept (now later : Z) (st st' : S) : Prop :=
  ∀ k v e, holds st now k = Some (v, e) → v ≠ instance → later < e → holds st' later k = Some (v, e).

Lemma finish_drains_kept answers now ended st s :
  (finish_drains answers now ended st s).2 = mkService (consumers s) (foldl (λ m shard, delete shard m) (draining s) ended) ∧
  ∀ k v e, holds st now k = Some (v, e) → v ≠ instance → holds (finish_drains answers now ended st s).1 now k = Some (v, e).
Proof.
  revert st s. induction ended as [|shard ended IH]; intros st s; cbn [finish_drains foldl]; [by destruct s|].
  set (st1 := match draining s !! shard with Some true => _ | _ => st end).
  destruct (IH st1 (mkService (consumers s) (delete shard (draining s)))) as [E Hk]. split; [done|].
  intros k v e Hh Hv. apply Hk; [|done]. unfold st1, release_quietly.
  destruct (draining s !! shard) as [[]|]; [|done..]. destruct (answers shard); [|done].
  rewrite release_holds, Hh, decide_False; [done|]. cbn. naive_solver.
Qed.

Lemma begin_drains_empty l s :
  (∀ x, x ∈ dom (consumers s) → x ∈ l) → consumers (begin_drains l s) = ∅.
Proof.
  unfold begin_drains. revert s. induction l as [|x l IH]; intros s Hs; cbn.
  - apply map_empty. intros k. apply not_elem_of_dom. intros Hk%Hs. by apply elem_of_nil in Hk.
  - apply IH. intros y. unfold begin_drain. destruct (consumers s !! x) eqn:E; cbn.
    + rewrite dom_delete. intros [Hy Hne]%elem_of_difference. apply Hs, elem_of_cons in Hy. set_solver.
    + intros Hy. pose proof (Hs y Hy) as [->|Hin]%elem_of_cons; [|done].
      apply elem_of_dom in Hy as [? Hy]. congruence.
Qed.
End lifecycle.

(** ** Properties *)

(** C27: a replica that stops leaves nothing behind. Whichever of its consumers finish in
    time and whatever Redis answers meanwhile, after stop it reads no shard, runs no
    loop and is not ready; each shard it held whose last release Redis answered is not
    leased to it, so another replica can take it at once; and it never removes the lease
    of another replica, even on a shard it had lost. *)
Theorem stop_gives_back {S} `{LeaseStoreLaws S} instance during after deregistered ended now later members (st : S) r :
  now ≤ later →
  let '(r', members', st') := stop instance during after deregistered ended now later members st r in
  owned_shards (service r') = ∅ ∧ draining (service r') = ∅ ∧ loops r' = false ∧
  (∀ ttl_ms t answering, is_ready ttl_ms t answering r' = false) ∧
  (running r = true → deregistered = true → members' !! instance = None) ∧
  (running r = true → ∀ shard, shard ∈ owned_shards (service r) ∪ dom (draining (service r)) →
     after shard = true → not_ours instance st' later shard) ∧
  others_kept instance now later st st'.
Proof.
  intros Hle. unfold stop, await_drains.
  set (s0 := begin_drains (elements (dom (consumers (service r)))) (service r)).
  destruct (finish_drains_kept instance during now ended st s0) as [Es Hk].
  destruct (finish_drains instance during now ended st s0) as [st1 s1]. cbn in Es, Hk.
  assert (Hc : consumers s1 = ∅).
  { rewrite Es. apply begin_drains_empty. intros x. by rewrite elem_of_elements. }
  assert (Hlater : others_kept instance now later st st1).
  { intros k v e Hh Hv He. rewrite (holds_later _ now later k Hle), (Hk _ _ _ Hh Hv).
    by rewrite (proj2 (Z.ltb_lt _ _)). }
  destruct (running r) eqn:Er; cbn; (split; [unfold owned_shards; cbn; rewrite Hc; apply dom_empty_L|]).
  - split_and!; try done.
    + intros _ ->. apply lookup_delete_eq.
    + intros _ shard Hshard Ha. apply release_all_done; [by apply elem_of_elements|done].
    + intros k v e Hh Hv He. pose proof (Hlater k v e Hh Hv He) as H1.
      destruct (release_all_holds instance after later
        (elements (dom (consumers (service r)) ∪ dom (draining (service r)))) st1 k) as [->|[Hi _]]; [done|].
      rewrite H1 in Hi. naive_solver.
  - by split_and!.
Qed.

(** The readiness answer names the shards the replica owns, each once and in order, and is
    given only by a replica that is running, was heard of within the time to live and has
    both dependencies. *)
Lemma ready_answers_shards ttl_ms now answering r status body headers :
  ready ttl_ms now answering r = (status, body, headers) →
  (status = 200 ↔ is_ready ttl_ms now answering r = true) ∧
  (status = 200 → ∃ shards, body = JObj [("status", JStr "ok"); ("shards", JArr (JInt <$> shards))] ∧
     Sorted Z.le shards ∧ NoDup shards ∧ ∀ x, x ∈ shards ↔ x ∈ owned_shards (service r)).
Proof.
  unfold ready. destruct (is_ready _ _ _ _); intros [= <- <- <-]; [|done]. split; [done|]. intros _.
  eexists. split; [done|]. pose proof (merge_sort_Permutation Z.le (elements (owned_shards (service r)))) as Hp.
  split; [apply Sorted_merge_sort, _|]. rewrite Hp. split; [apply NoDup_elements|].
  intros x. by rewrite Hp, elem_of_elements.
Qed.

(** A start that fails its checks goes through stop: nothing is left running. *)
Lemma failed_start_closes {S} `{LeaseStoreLaws S} shards instance int_of_str maintained stopping now slot members (st : S) e :
  (start shards instance int_of_str maintained stopping now slot members st new_replica).2.2 = Raise e →
  let r := (start shards instance int_of_str maintained stopping now slot members st new_replica).2.1 in
  running r = false ∧ loops r = false ∧ service r = new_service.
Proof.
  unfold start. destruct (check_recorded _ _ _) as [u|e']; cbn; [destruct maintained; cbn; [done|]|];
    intros _; split_and!; done.
Qed.

(** ** A replica with two consumers and a shard that is winding down *)
Module LifecycleDemo.
Definition r : Replica := mkReplica (mkService {[0 := false; 1 := false]} {[2 := true]}) true true 900.
Definition st : Redis :=
  {[shard_lease_key 0 := ("a", 6000); shard_lease_key 1 := ("b", 6000); shard_lease_key 2 := ("a", 6000)]}.
(** Shard 2 finishes its batch; the release of shard 0 is the last one sent. *)
Definition after_stop : Replica * gmap string Z * Redis :=
  stop "a" (λ _, true) (λ _, true) true [2] 1000 2000 {["a" := 1000]} st r.
End LifecycleDemo.

Lemma stop_gives_back_witness :
  LifecycleDemo.after_stop.2 = {[shard_lease_key 1 := ("b", 6000)]} ∧
  owned_shards (service LifecycleDemo.after_stop.1.1) = ∅ ∧
  not_ours "a" LifecycleDemo.after_stop.2 2000 0.
Proof.
  split; [vm_compute; reflexivity|].
  pose proof (stop_gives_back "a" (λ _, true) (λ _, true) true [2] 1000 2000 {["a" := 1000]} LifecycleDemo.st
                LifecycleDemo.r ltac:(lia)) as Hs.
  unfold LifecycleDemo.after_stop. destruct (stop _ _ _ _ _ _ _ _ _ _) as [[r' m'] st'].
  destruct Hs as (H1 & _ & _ & _ & _ & H2 & _). split; [exact H1|].
  apply H2; [reflexivity| |reflexivity]. vm_compute. reflexivity.
Defined.

(** The control loop is cancelled while an acquire is on its way: Redis grants the lease,
    no consumer is started for it, and stop, which releases what it has recorded, leaves
    it to run out. *)
Lemma cancelled_acquire_stays_leased :
  let r := mkReplica new_service true true 900 in
  let st := (acquire 5000 "a" (∅ : Redis) 1000 3).1 in
  let '(r', _, st') := stop "a" (λ _, true) (λ _, true) true [] 1000 2000 {["a" := 1000]} st r in
  running r' = false ∧ holds st' 5999 (shard_lease_key 3) = Some ("a", 6000) ∧
  (acquire 5000 "b" st' 5999 3).2 = false.
Proof. vm_compute. done. Qed.
