(* ===== verification/Settings.v ===== *)
(** * The settings of a deployment (src/geotrack/settings.py)

    The bounds the fields declare, the validators, and what an accepted configuration
    gives to the components: their theorems assume these facts of their parameters. *)
From S2P Require Import Prelude Floats Text Keys Codec Batch Registry Accounts Service.
From S2P Require Motion.

Record Settings := mkSettings {
  database_url : string; redis_url : string;
  jwt_secret : string; jwt_ttl_seconds : Z; ingest_api_key : string;
  ingest_shards : Z; ingest_max_batch : Z; ingest_backlog_high : Z; ingest_backlog_low : Z;
  ingest_backlog_poll_ms : Z; ingest_max_future_skew_s : Z; history_retention_days : Z;
  db_pool_size : Z; db_pool_timeout_s : float64; db_statement_timeout_ms : Z;
  processor_batch_size : Z; processor_block_ms : Z; processor_lease_ttl_ms : Z; processor_http_port : Z;
  ws_tick_ms : Z; ws_control_queue_max : Z; ws_send_timeout_s : float64; ws_device_stale_s : Z;
  ws_grid_cell_deg : float64; ws_max_sessions_per_user : Z; geozone_quota_per_user : Z }.

Definition at_least (lo x : Z) : bool := lo <=? x.
Definition in_bounds (lo hi x : Z) : bool := (lo <=? x) && (x <=? hi).
Definition positive (x : float64) : bool := fltb (flit 0) x.
(** The length of a text, in characters. *)
Definition text_length (s : string) : Z := Z.of_nat (length (filter (λ c, cont c = false) (chars s))).

(** The [Field] constraints. *)
Definition fields_ok (s : Settings) : bool :=
  at_least 32 (text_length (jwt_secret s)) && in_bounds 60 (30 * 86400) (jwt_ttl_seconds s)
  && at_least 16 (text_length (ingest_api_key s))
  && in_bounds 1 256 (ingest_shards s) && in_bounds 1 10000 (ingest_max_batch s)
  && at_least 1 (ingest_backlog_high s) && at_least 0 (ingest_backlog_low s)
  && at_least 10 (ingest_backlog_poll_ms s) && at_least 0 (ingest_max_future_skew_s s)
  && in_bounds 1 365 (history_retention_days s)
  && in_bounds 1 200 (db_pool_size s) && positive (db_pool_timeout_s s) && at_least 100 (db_statement_timeout_ms s)
  && in_bounds 1 10000 (processor_batch_size s) && in_bounds 10 4000 (processor_block_ms s)
  && at_least 1000 (processor_lease_ttl_ms s) && in_bounds 1 65535 (processor_http_port s)
  && in_bounds 20 5000 (ws_tick_ms s) && at_least 1 (ws_control_queue_max s) && positive (ws_send_timeout_s s)
  && at_least 5 (ws_device_stale_s s)
  && (positive (ws_grid_cell_deg s) && fleb (ws_grid_cell_deg s) (flit 10))
  && at_least 1 (ws_max_sessions_per_user s) && at_least 1 (geozone_quota_per_user s).

Definition require_asyncpg (s : Settings) : bool := startswith "postgresql+asyncpg://" (database_url s).
Definition require_redis_scheme (s : Settings) : bool :=
  startswith "redis://" (redis_url s) || startswith "rediss://" (redis_url s).
Definition check_backlog_watermarks (s : Settings) : bool := ingest_backlog_low s <? ingest_backlog_high s.

(** [Settings()]: pydantic reports all errors together; only whether there is one counts
    here. The model validator runs once the fields are valid. *)
Definition load_settings (s : Settings) : res Settings :=
  if fields_ok s && require_asyncpg s && require_redis_scheme s && check_backlog_watermarks s
  then Ok s else Raise (ValueError "invalid settings").

(** ** What the components are given *)

(** The partitions after a round of maintenance. *)
Definition partitions_after (s : Settings) (maintained : Z) (days : gset Z) : gset Z :=
  let today := day_of maintained in
  drop_history_partitions (today - history_retention_days s)
    (ensure_history_partitions (today - history_retention_days s) (today + DAYS_AHEAD) days).

(** The window of [_split_storable] at a moment. *)
Definition storable (s : Settings) (now : Z) (r : LocationRecord) : Prop :=
  unstorable_reason r (now - history_retention_days s * 86400 * 1000) (now + ingest_max_future_skew_s s * 1000) = None.

Lemma load_settings_ok s0 s : load_settings s0 = Ok s → s = s0 ∧ fields_ok s = true ∧ check_backlog_watermarks s = true.
Proof.
  unfold load_settings. destruct (fields_ok s0 && _ && _ && _) eqn:E; [|done]. intros [= ->].
  rewrite !andb_true_iff in E. tauto.
Qed.

(** The same configuration with another skew. *)
Definition with_skew (n : Z) (s : Settings) : Settings :=
  mkSettings (database_url s) (redis_url s) (jwt_secret s) (jwt_ttl_seconds s) (ingest_api_key s)
    (ingest_shards s) (ingest_max_batch s) (ingest_backlog_high s) (ingest_backlog_low s)
    (ingest_backlog_poll_ms s) n (history_retention_days s)
    (db_pool_size s) (db_pool_timeout_s s) (db_statement_timeout_ms s)
    (processor_batch_size s) (processor_block_ms s) (processor_lease_ttl_ms s) (processor_http_port s)
    (ws_tick_ms s) (ws_control_queue_max s) (ws_send_timeout_s s) (ws_device_stale_s s)
    (ws_grid_cell_deg s) (ws_max_sessions_per_user s) (geozone_quota_per_user s).

(** The only bound on the skew is that it is not negative. *)
Lemma load_settings_any_skew s n : load_settings s = Ok s → 0 ≤ n → load_settings (with_skew n s) = Ok (with_skew n s).
Proof.
  intros H Hn. unfold load_settings in *. destruct (fields_ok s && _ && _ && _) eqn:E; [|done].
  assert (fields_ok (with_skew n s) && require_asyncpg (with_skew n s) && require_redis_scheme (with_skew n s)
          && check_backlog_watermarks (with_skew n s) = true) as ->; [|done].
  revert E. unfold fields_ok, require_asyncpg, require_redis_scheme, check_backlog_watermarks, with_skew.
  cbn [database_url redis_url jwt_secret jwt_ttl_seconds ingest_api_key ingest_shards ingest_max_batch
    ingest_backlog_high ingest_backlog_low ingest_backlog_poll_ms ingest_max_future_skew_s history_retention_days
    db_pool_size db_pool_timeout_s db_statement_timeout_ms processor_batch_size processor_block_ms
    processor_lease_ttl_ms processor_http_port ws_tick_ms ws_control_queue_max ws_send_timeout_s ws_device_stale_s
    ws_grid_cell_deg ws_max_sessions_per_user geozone_quota_per_user].
  rewrite !andb_true_iff. unfold at_least. rewrite (proj2 (Z.leb_le 0 n)) by done. tauto.
Qed.

(** A record three days ahead of the clock. *)
Definition far_record (now : Z) : LocationRecord :=
  mkRecord "dev-1" (flit 0) (flit 0) (now + 3 * 86400000) now.

Lemma far_record_storable s now :
  3 * 86400 ≤ ingest_max_future_skew_s s → 1 ≤ history_retention_days s → storable s now (far_record now).
Proof.
  intros Hskew Hret. unfold storable, unstorable_reason. cbn [device_id reported_ms far_record].
  change (device_id_ok "dev-1") with true. cbn [negb].
  rewrite !(proj2 (Z.ltb_ge _ _)) by lia. done.
Qed.

Lemma far_record_no_partition s now :
  day_of (reported_ms (far_record now)) ∉ partitions_after s now ∅.
Proof.
  unfold partitions_after, drop_history_partitions, ensure_history_partitions. cbn [far_record reported_ms].
  assert (day_of (now + 3 * 86400000) = day_of now + 3) as -> by (unfold day_of; by rewrite Z.div_add).
  rewrite elem_of_filter, elem_of_union, elem_of_list_to_set, elem_of_seqZ. unfold DAYS_AHEAD. set_solver by lia.
Qed.

(** C37: what an accepted configuration guarantees. The gate's watermarks are apart, every
    device has a shard, the devices' key is not empty and lets its holder in, and every
    account can open a session. With a skew of at most a day, and a maintenance round at
    most a day old, every report the processor stores has a history partition. The field
    puts no upper bound on the skew: any skew is accepted in the same configuration, and
    from three days on there is a report that is storable and has no partition however
    fresh the maintenance round. *)
Theorem settings_sound s0 s :
  load_settings s0 = Ok s →
  ingest_backlog_low s < ingest_backlog_high s ∧
  (∀ d, ∃ shard, shard_for d (ingest_shards s) = Ok shard ∧ 0 ≤ shard < ingest_shards s) ∧
  verify_ingest_key (ingest_api_key s) (Some (ingest_api_key s)) = inr tt ∧
  (∀ u conn, Registry.add u conn (Z.to_nat (ws_max_sessions_per_user s)) new_registry ≠ None) ∧
  (ingest_max_future_skew_s s ≤ 86400 → ∀ maintained now days r, maintained ≤ now ≤ maintained + 86400000 →
     storable s now r → day_of (reported_ms r) ∈ partitions_after s maintained days) ∧
  (∀ n, 0 ≤ n → load_settings (with_skew n s) = Ok (with_skew n s)) ∧
  (∀ n now, 3 * 86400 ≤ n →
     storable (with_skew n s) now (far_record now) ∧
     day_of (reported_ms (far_record now)) ∉ partitions_after (with_skew n s) now ∅).
Proof.
  intros Hload. assert (load_settings s = Ok s) as Hself.
  { pose proof (load_settings_ok s0 s Hload) as (-> & _). done. }
  apply load_settings_ok in Hload as (-> & Hf & Hw). unfold fields_ok, at_least, in_bounds in Hf.
  rewrite !andb_true_iff, !Z.leb_le in Hf.
  destruct Hf as (((((((((((((((((((((((_ & _) & Hkey) & Hsh) & _) & _) & _) & _) & Hskew) & Hret) & _) & _) & _) & _) & _)
    & _) & _) & _) & _) & _) & _) & _) & Hsess) & _).
  split_and!.
  - unfold check_backlog_watermarks in Hw. lia.
  - intros d. destruct (shard_for_total d (ingest_shards s0)) as [x Hx]; [lia|].
    exists x. split; [done|by eapply shard_for_range].
  - apply verify_accepts. exists (ingest_api_key s0). split_and!; [done| |by left].
    intros E. rewrite E in Hkey. by apply Hkey.
  - intros u conn. unfold Registry.add. rewrite decide_False; [done|].
    change (connections_of new_registry u) with (∅ : gset Z). rewrite size_empty. lia.
  - intros Hday maintained now days r Hnow Hr. eapply storable_has_partition; [| |exact Hnow|exact Hr]; lia.
  - intros n Hn. by apply load_settings_any_skew.
  - intros n now Hn. split; [apply far_record_storable; cbn; lia|apply far_record_no_partition].
Qed.

Module SettingsSamples.
Definition defaults (skew : Z) : Settings :=
  mkSettings "postgresql+asyncpg://geo:geo@db/geo" "redis://redis:6379/0" "0123456789abcdef0123456789abcdef" 86400
    "sixteen-chars-ok" 8 1000 200000 100000 250 skew 7 10 (flit 5) 5000 1000 1000 15000 9100 250 1000 (flit 10) 300
    (Motion.fdec 5 100) 20 500.
End SettingsSamples.

Lemma settings_sound_witness :
  load_settings (SettingsSamples.defaults 300) = Ok (SettingsSamples.defaults 300) ∧
  load_settings (with_skew 259200 (SettingsSamples.defaults 300)) = Ok (with_skew 259200 (SettingsSamples.defaults 300)) ∧
  storable (with_skew 259200 (SettingsSamples.defaults 300)) 1700000000000 (far_record 1700000000000).
Proof.
  assert (load_settings (SettingsSamples.defaults 300) = Ok (SettingsSamples.defaults 300)) as H by (vm_compute; reflexivity).
  destruct (settings_sound _ _ H) as (_ & _ & _ & _ & _ & Hany & Hfar).
  split; [exact H|]. split; [apply Hany; lia|apply Hfar; lia].
Defined.
