(* ===== verification/Pipeline.v ===== *)
(** * From a shard's stream to a dashboard

    The processors, Redis and one gateway replica together: batches commit and are
    announced ([Consumer], [Batch], [Alerts]), the messages travel, get lost or overtake
    each other, and the replica starts, reads the table, applies what arrives ([Gateway],
    [Hub]), sweeps and serves its clients ([Fanout]). *)
From S2P Require Import Prelude Floats Clock Geo Grid Text Json JsonRef Keys Codec Protocol Hub Connection Batch Gateway.
From S2P Require Import Consumer Dashboard Fanout Alerts.

Record Deployment := mkDeployment {
  database : Db;
  announced : list (string * string);   (* every message of every committed batch, also of
                                           one whose processor never heard of its commit *)
  wire : list (string * string);        (* published and on the way to this replica *)
  missed : list (string * string);      (* not published, or lost, since the last warm start *)
  horizon : Z;                          (* the latest moment a sweep or a warm start ignored what was older *)
  replica : System }.

(** The rows [_WARM_START_SQL] selects. *)
Definition warm_start_rows (db : Db) (cutoff : Z) : list Row :=
  (λ p : string * DevicePosition, (p.1, (position p.2).1, (position p.2).2, reported_at p.2))
    <$> filter (λ p : string * DevicePosition, cutoff ≤ reported_at p.2) (map_to_list (device_positions db)).

(** The item that shows a stored row. *)
Definition row_shown (d : string) (dp : DevicePosition) : PositionItem :=
  mkItem d (position dp).1 (position dp).2 (reported_at dp / 1000).

(** An item no newer than the stored row, and the same when it is as new. *)
Definition no_newer (db : Db) (i : PositionItem) : Prop :=
  ∃ dp, device_positions db !! item_id i = Some dp ∧ item_ms i ≤ reported_at dp / 1000 ∧
        (item_ms i = reported_at dp / 1000 → i = row_shown (item_id i) dp).

Section pipeline.
Context `{Orjson}.
Variable float_of_str : string → option float64.
Variable int_of_str : string → option Z.
Variable st_dwithin : Point → Point → float64 → bool.
Variable search_overlaps : Point → float64 → Point → bool.
Variable model_dump : AlertOut → option json.
Variables (retention_days skew_s : Z) (cell_size_deg : float64) (stale_after_ms : Z) (control_max : nat).

(** What the first attempt of a batch that commits has to announce, whether or not the
    processor hears of the commit. *)
Definition due (now wall : Z) (outcomes : list TxOutcome) (k : nat) (db : Db) (records : list LocationRecord)
  : list (string * string) :=
  if existsb took_effect (take k outcomes)
  then match Batch.apply st_dwithin search_overlaps now wall retention_days skew_s MAX_ATTEMPTS [Commits] db records with
       | Some (_, Applied r, _) => announcements model_dump r
       | _ => []
       end
  else [].

Inductive deployment_step : Deployment → Deployment → Prop :=
  (** a shard's owner, whichever it is, handles what it read; [flushed] of the publisher's
      flushes reach Redis *)
  | dep_batch s entries records sources dead outcomes now wall flushed db' e k :
      decode_entries float_of_str entries = Ok (records, sources, dead) →
      clock_ok retention_days skew_s wall →
      Batch.apply st_dwithin search_overlaps now wall retention_days skew_s MAX_ATTEMPTS outcomes
        (database s) records = Some (db', e, k) →
      let msgs := due now wall outcomes k (database s) records in
      let sent := match e with Applied r => publish model_dump r flushed | _ => [] end in
      deployment_step s (mkDeployment db' (announced s ++ msgs) (wire s ++ sent)
        (missed s ++ drop (length sent) msgs) (horizon s) (replica s))
  (** the API and the maintenance write other tables *)
  | dep_write s db' : device_positions db' = device_positions (database s) →
      deployment_step s (mkDeployment db' (announced s) (wire s) (missed s) (horizon s) (replica s))
  (** Redis delivers a message, not necessarily the oldest, or loses it *)
  | dep_deliver s l1 channel payload l2 conns bridge : wire s = l1 ++ (channel, payload) :: l2 →
      let g := deliver float_of_str int_of_str cell_size_deg control_max channel payload
                 (mkGateway (hub (replica s)) conns bridge) in
      deployment_step s (mkDeployment (database s) (announced s) (l1 ++ l2) (missed s) (horizon s)
        (mkSystem (gw_hub g) (clients (replica s))))
  | dep_lose s l1 m l2 : wire s = l1 ++ m :: l2 →
      deployment_step s (mkDeployment (database s) (announced s) (l1 ++ l2) (missed s ++ [m]) (horizon s) (replica s))
  (** the replica: sweeps; ticks, senders and clients, where a page that opens a socket
      brings what it drew on earlier ones, of this replica or another, which is nothing
      newer than the table; a restart; the warm start *)
  | dep_sweep s now :
      deployment_step s (mkDeployment (database s) (announced s) (wire s) (missed s)
        (Z.max (horizon s) (now - stale_after_ms))
        (mkSystem (sweep stale_after_ms now (hub (replica s))) (clients (replica s))))
  | dep_clients s sys : step cell_size_deg stale_after_ms control_max (replica s) sys →
      latest (hub sys) = latest (hub (replica s)) →
      (∀ k cl, clients (replica s) !! k = None → clients sys !! k = Some cl →
         screen_holds (no_newer (database s)) (screen cl)) →
      deployment_step s (mkDeployment (database s) (announced s) (wire s) (missed s) (horizon s) sys)
  | dep_restart s :
      deployment_step s (mkDeployment (database s) (announced s) [] (announced s) 0 start)
  | dep_warm_start s query time_ns h' n : clients (replica s) = ∅ →
      2 ^ 40 < now_ms time_ns - stale_after_ms < 2 ^ 31 * 1000 →
      (∀ cutoff, concat (query cutoff) ≡ₚ warm_start_rows (database s) cutoff) →
      warm_start cell_size_deg stale_after_ms query time_ns (hub (replica s)) = (h', Ok n) →
      deployment_step s (mkDeployment (database s) (announced s) (wire s) []
        (Z.max (horizon s) (now_ms time_ns - stale_after_ms)) (mkSystem h' ∅)).

(** Before the first report. *)
Definition new_deployment (db : Db) : Deployment := mkDeployment db [] [] [] 0 start.

(** The messages that carry an item. *)
Definition carries (m : string * string) (i : PositionItem) : Prop :=
  m.1 = POSITIONS_CHANNEL ∧ ∃ items, decode_positions float_of_str int_of_str m.2 = Ok items ∧ i ∈ items.

Definition settled_row (s : Deployment) (d : string) (dp : DevicePosition) : Prop :=
  device_positions (database s) !! d = Some dp ∧ horizon s ≤ reported_at dp / 1000 ∧
  ∀ m, m ∈ wire s ++ missed s → ¬ carries m (row_shown d dp).
End pipeline.

(** ** Merging reports, in any order *)

(** An item that nothing merged outdoes is what remains for its device. *)
Lemma newest_reaches items v i :
  let le j := item_ms j ≤ item_ms i ∧ (item_ms j = item_ms i → j = i) in
  (∀ j, v !! item_id i = Some j → le j) → (∀ j, j ∈ items → item_id j = item_id i → le j) →
  v !! item_id i = Some i ∨ i ∈ items → foldl newest v items !! item_id i = Some i.
Proof.
  intros le. revert v. induction items as [|x items IH]; intros v Hv Hi Hin.
  { destruct Hin as [?|Hin]; [done|by apply elem_of_nil in Hin]. }
  cbn. apply IH.
  - intros j. rewrite newest_lookup. case_decide as Hd; [|apply Hv].
    destruct (v !! item_id i) as [j'|] eqn:E; [case_match|]; intros [= <-]; auto; (apply Hi; [by left|done]).
  - intros j Hj. apply Hi. by right.
  - rewrite newest_lookup. destruct (decide (i ∈ items)) as [?|Hnot]; [by right|]. left.
    case_decide as Hd.
    + destruct (Hi x ltac:(by left) (eq_sym Hd)) as [Hle Heq].
      destruct (v !! item_id i) as [j|] eqn:E.
      * destruct (Hv j eq_refl) as [Hle' Heq']. destruct (Z.leb_spec (item_ms x) (item_ms j)); f_equal.
        -- destruct Hin as [[= <-]|Hin]; [done|]. apply elem_of_cons in Hin as [<-|?]; [|done].
           apply Heq'. lia.
        -- apply Heq. destruct Hin as [[= ->]|Hin]; [lia|]. apply elem_of_cons in Hin as [->|?]; [lia|done].
      * f_equal. destruct Hin as [?|Hin]; [done|]. apply elem_of_cons in Hin as [->|?]; done.
    + destruct Hin as [?|Hin]; [done|]. apply elem_of_cons in Hin as [->|?]; done.
Qed.

(** What a message does to the hub. *)
Lemma deliver_hub `{Orjson} fos ios cell_size_deg control_max channel payload g :
  gw_hub (deliver fos ios cell_size_deg control_max channel payload g)
  = if decide (channel = POSITIONS_CHANNEL) then
      match decode_positions fos ios payload with
      | Ok items => (Hub.apply cell_size_deg items (gw_hub g)).1
      | Raise _ => gw_hub g
      end
    else gw_hub g.
Proof.
  unfold deliver, dispatch. case_decide.
  - destruct (decode_positions _ _ _); [|done]. by destruct (Hub.apply _ _ _) as [h' [e|]].
  - destruct (utf8_valid channel); [|done]. cbn [negb].
    destruct (user_id_from_channel channel); [|done]. by destruct (utf8_valid payload).
Qed.

(** ** The invariant *)

Section facts.
Context `{Orjson} `{!OrjsonRoundtrip}.
Variable float_of_str : string → option float64.
Variable int_of_str : string → option Z.
Variable st_dwithin : Point → Point → float64 → bool.
Variable search_overlaps : Point → float64 → Point → bool.
Variable model_dump : AlertOut → option json.
Variables (retention_days skew_s : Z) (sz : Z) (stale_after_ms : Z) (control_max : nat).
Hypothesis Hsz : 2 ^ 60 ≤ sz.
Local Notation cell_size_deg := (Fin sz).
Local Notation carries := (carries float_of_str int_of_str).
Local Notation deployment_step := (deployment_step float_of_str int_of_str st_dwithin search_overlaps model_dump
  retention_days skew_s cell_size_deg stale_after_ms control_max).
Local Notation fan_step := (step cell_size_deg stale_after_ms control_max).
Local Notation batch_db := (batch_db st_dwithin search_overlaps).

Definition item_ok (i : PositionItem) : Prop := item_encodable i ∧ locatable cell_size_deg i.
Definition row_ok (d : string) (dp : DevicePosition) : Prop :=
  ∃ ms, reported_at dp = to_timestamp ms ∧ 2 ^ 40 < ms < 2 ^ 31 * 1000 ∧ item_ok (row_shown d dp).

Record deployment_ok (s : Deployment) : Prop := {
  ok_replica : rtc fan_step start (replica s);
  ok_rows d dp : device_positions (database s) !! d = Some dp → row_ok d dp;
  ok_announced d dp : device_positions (database s) !! d = Some dp →
    ∃ m, m ∈ announced s ∧ carries m (row_shown d dp);
  ok_messages m : m ∈ announced s → m.1 = POSITIONS_CHANNEL →
    ∃ items, decode_positions float_of_str int_of_str m.2 = Ok items ∧
             ∀ i, i ∈ items → item_ok i ∧ no_newer (database s) i;
  ok_travelling m : m ∈ wire s ++ missed s → m ∈ announced s;
  ok_shown : keyed (no_newer (database s)) (picture (hub (replica s)));
  ok_current d dp : device_positions (database s) !! d = Some dp → horizon s ≤ reported_at dp / 1000 →
    picture (hub (replica s)) !! d = Some (row_shown d dp) ∨
    ∃ m, m ∈ wire s ++ missed s ∧ carries m (row_shown d dp) }.

(** *** One batch *)

Lemma device_id_utf8 d : device_id_ok d = true → utf8_valid d = true.
Proof.
  unfold device_id_ok. rewrite !andb_true_iff. intros [[Hc _] _]. apply ascii_utf8.
  unfold ascii_only. rewrite forallb_forall in Hc |- *. intros c Hin. specialize (Hc c Hin).
  unfold device_id_char, between in *. lia.
Qed.

Lemma to_timestamp_ms ms : to_timestamp ms / 1000 = ms.
Proof. unfold to_timestamp. by rewrite Z.div_mul. Qed.

(** A record that decodes and can be stored makes a row that can be shown. *)
Lemma stored_row_ok now wall raw r :
  decode_record float_of_str raw = Ok r → clock_ok retention_days skew_s wall →
  unstorable_reason r (wall - retention_days * 86400 * 1000) (wall + skew_s * 1000) = None →
  row_shown (device_id r) (row_of_record now r) = position_item r ∧ row_ok (device_id r) (row_of_record now r).
Proof.
  intros Hd [Hlo Hhi] Hr. apply decode_record_ok in Hd as (_ & Hla & Hlon).
  unfold unstorable_reason in Hr. destruct (negb _) eqn:Hid; [done|]. apply negb_false_iff in Hid.
  destruct (Z.ltb_spec (reported_ms r) (wall - retention_days * 86400 * 1000)); [done|].
  destruct (Z.ltb_spec (wall + skew_s * 1000) (reported_ms r)); [done|].
  assert (E : row_shown (device_id r) (row_of_record now r) = position_item r).
  { unfold row_shown, position_item. cbn -[to_timestamp]. by rewrite to_timestamp_ms. }
  split; [done|]. exists (reported_ms r). split_and!; [done|lia..|]. rewrite E.
  destruct (in_range_Fin _ _ _ Hla) as (y & Ey & Hy), (in_range_Fin _ _ _ Hlon) as (x & Ex & Hx).
  split.
  - split_and!; cbn; [by apply device_id_utf8|by rewrite Ey|by rewrite Ex|lia|lia].
  - unfold locatable. cbn. rewrite Ey, Ex. by apply cell_of_total.
Qed.

(** The rows after a batch: the old one, or one the batch accepted, announced and newer. *)
Lemma batch_rows now db storable d dp :
  device_positions (batch_db now db storable) !! d = Some dp →
  device_positions db !! d = Some dp ∨
  ∃ r, r ∈ storable ∧ device_id r = d ∧ dp = row_of_record now r ∧
       committed_item (row_of_report r) ∈ committed_item <$> accepted db (latest_per_device storable) ∧
       ∀ old, device_positions db !! d = Some old → reported_at old < to_timestamp (reported_ms r).
Proof.
  rewrite batch_db_positions. unfold positions_after.
  rewrite inserts_lookup by apply NoDup_key_filter, latest_NoDup.
  destruct (find_key device_id d (filter _ _)) as [r|] eqn:Er; [|by left].
  apply find_key_Some in Er as [[Hn Hr]%list_elem_of_filter <-]. intros [= <-]. right. exists r.
  split_and!; [by apply latest_subset|done..| |].
  - apply list_elem_of_fmap. exists (row_of_report r). split; [done|]. apply elem_accepted. eauto.
  - intros old Hold. unfold newer in Hn. rewrite Hold in Hn. lia.
Qed.

Lemma batch_row_stays now db storable d old :
  device_positions db !! d = Some old →
  ∃ dp, device_positions (batch_db now db storable) !! d = Some dp ∧ reported_at old ≤ reported_at dp.
Proof. rewrite batch_db_positions, positions_newest. apply upserts_monotone. Qed.

(** An item the batch announces is a row it stored. *)
Lemma announced_row now db storable i :
  i ∈ committed_item <$> accepted db (latest_per_device storable) →
  ∃ r, r ∈ storable ∧ i = committed_item (row_of_report r) ∧
       device_positions (batch_db now db storable) !! device_id r = Some (row_of_record now r).
Proof.
  intros (a & -> & (r & Hr & Hn & ->)%elem_accepted)%list_elem_of_fmap. exists r.
  split; [by apply latest_subset|]. split; [done|]. rewrite batch_db_positions. unfold positions_after.
  rewrite inserts_lookup by apply NoDup_key_filter, latest_NoDup.
  rewrite (find_key_elem device_id); [done|apply NoDup_key_filter, latest_NoDup|].
  by apply list_elem_of_filter.
Qed.

Lemma no_newer_same db db' i : device_positions db' = device_positions db → no_newer db i → no_newer db' i.
Proof. unfold no_newer. by intros ->. Qed.

Lemma no_newer_batch now db storable i :
  (∀ d dp, device_positions db !! d = Some dp → row_ok d dp) →
  no_newer db i → no_newer (batch_db now db storable) i.
Proof.
  intros Hrows (old & Hold & Hle & Heq).
  destruct (batch_row_stays now db storable _ _ Hold) as (dp & Hdp & _). exists dp. split; [done|].
  destruct (batch_rows _ _ _ _ _ Hdp) as [Hsame|(r & _ & _ & -> & _ & Hnew)]; [by simplify_eq|].
  specialize (Hnew _ Hold). destruct (Hrows _ _ Hold) as (ms & Ems & _). rewrite Ems in *.
  cbn [reported_at row_of_record] in *. rewrite !to_timestamp_ms in *. unfold to_timestamp in Hnew. lia.
Qed.

(** The positions of an announcement. *)
Lemma announcement_positions r m :
  m ∈ announcements model_dump r → m.1 = POSITIONS_CHANNEL →
  accepted_items r ≠ [] ∧ m.2 = encode_positions (accepted_items r).
Proof.
  unfold announcements. intros [Hm|Hm]%elem_of_app Hc.
  - destruct (accepted_items r); [by apply elem_of_nil in Hm|]. by apply list_elem_of_singleton in Hm as ->.
  - apply list_elem_of_omap in Hm as (a & _ & Ha). destruct (frame_for _ a); [|done].
    injection Ha as <-. by apply user_channel_not_positions in Hc.
Qed.

Lemma positions_announced r i :
  i ∈ accepted_items r → Forall item_encodable (accepted_items r) →
  ∃ m, m ∈ announcements model_dump r ∧ carries m i.
Proof.
  intros Hi He. exists (POSITIONS_CHANNEL, encode_positions (accepted_items r)). split.
  - unfold announcements. destruct (accepted_items r); [by apply elem_of_nil in Hi|]. apply elem_of_app. left. by left.
  - split; [done|]. exists (accepted_items r). split; [by apply positions_roundtrip_lemma|done].
Qed.

(** What the commit of a batch must satisfy for the deployment to stay in order. *)
Record commit_ok (db db' : Db) (msgs : list (string * string)) : Prop := {
  commit_messages m : m ∈ msgs → m.1 = POSITIONS_CHANNEL →
    ∃ items, decode_positions float_of_str int_of_str m.2 = Ok items ∧
             ∀ i, i ∈ items → item_ok i ∧ no_newer db' i;
  commit_rows d dp : device_positions db' !! d = Some dp →
    device_positions db !! d = Some dp ∨
    row_ok d dp ∧ ∃ m, m ∈ msgs ∧ carries m (row_shown d dp);
  commit_no_newer i : no_newer db i → no_newer db' i }.

Lemma apply_commit_ok now wall outcomes db entries records sources dead db' e k :
  (∀ d dp, device_positions db !! d = Some dp → row_ok d dp) →
  decode_entries float_of_str entries = Ok (records, sources, dead) →
  clock_ok retention_days skew_s wall →
  Batch.apply st_dwithin search_overlaps now wall retention_days skew_s MAX_ATTEMPTS outcomes db records
    = Some (db', e, k) →
  let msgs := due st_dwithin search_overlaps model_dump retention_days skew_s now wall outcomes k db records in
  commit_ok db db' msgs ∧
  ∀ flushed, (match e with Applied r => publish model_dump r flushed | _ => [] end) `prefix_of` msgs.
Proof.
  intros Hrows Hd Hc Ha.
  assert (Hempty : ∀ r flushed, accepted_items r = [] ∧ result_alerts r = [] → publish model_dump r flushed = []).
  { intros r flushed [E1 E2]. destruct (publish_in_order model_dump r flushed) as (_ & _ & [rest E] & _).
    unfold announcements in E. rewrite E1, E2 in E. cbn in E. by apply eq_sym, app_eq_nil in E as [? _]. }
  unfold due. destruct (apply_announces _ _ _ _ _ _ _ _ _ _ _ _ Hc Ha)
    as [(-> & -> & Hnone)|(st & r & Hst & -> & -> & -> & Hr & He)]; cbn zeta.
  { split; [split; [|by left|done]; intros m Hm; by apply elem_of_nil in Hm|]. intros flushed.
    destruct e as [r| |]; [|done..]. by rewrite (Hempty r flushed (Hnone r eq_refl)). }
  split.
  2:{ intros flushed. destruct He as [->|He]; [by apply publish_in_order|].
      destruct e as [r'| |]; [|apply prefix_nil..]. rewrite (Hempty r' flushed (He r' eq_refl)). apply prefix_nil. }
  assert (Hrec : ∀ x, x ∈ st → row_shown (device_id x) (row_of_record now x) = committed_item (row_of_report x) ∧
                   row_ok (device_id x) (row_of_record now x)).
  { intros x Hx. destruct (Hst x Hx) as [Hin Hun]. destruct (decode_entries_records _ _ _ _ _ Hd x Hin) as (en & _ & Hx').
    destruct (stored_row_ok now wall _ _ Hx' Hc Hun) as [E Hok]. split; [|done]. rewrite E.
    unfold committed_item, position_item, row_of_report. cbn -[to_timestamp]. by rewrite to_timestamp_ms. }
  assert (Hitems : ∀ i, i ∈ accepted_items r → item_ok i ∧ no_newer (batch_db now db st) i).
  { intros i Hi. rewrite Hr in Hi. apply (announced_row now) in Hi as (x & Hx & -> & Hdb).
    destruct (Hrec x Hx) as [E (ms & Ems & Hms & Hok)]. rewrite <- E. split; [done|].
    exists (row_of_record now x). split; [done|]. split; [cbn; lia|done]. }
  assert (Henc : Forall item_encodable (accepted_items r)).
  { apply Forall_forall. intros i Hi. by apply Hitems. }
  split.
  - intros m Hm Hch. destruct (announcement_positions _ _ Hm Hch) as [_ ->].
    exists (accepted_items r). split; [by apply positions_roundtrip_lemma|done].
  - intros d dp Hdp. destruct (batch_rows _ _ _ _ _ Hdp) as [?|(x & Hx & <- & -> & Hin & _)]; [by left|right].
    destruct (Hrec x Hx) as [E Hok]. split; [done|]. rewrite E. apply positions_announced; [by rewrite Hr|done].
  - intros i. by apply no_newer_batch.
Qed.

(** *** One step *)

Lemma batch_step_ok s db' msgs sent :
  deployment_ok s → commit_ok (database s) db' msgs → sent `prefix_of` msgs →
  deployment_ok (mkDeployment db' (announced s ++ msgs) (wire s ++ sent)
    (missed s ++ drop (length sent) msgs) (horizon s) (replica s)).
Proof.
  intros [Hrep Hrows Hann Hmsg Htr Hsh Hcur] [Hm Hr Hn] [rest ->].
  assert (Hin : ∀ m, m ∈ sent ++ rest → m ∈ (wire s ++ sent) ++ missed s ++ drop (length sent) (sent ++ rest)).
  { intros m. rewrite drop_app_length. set_solver. }
  split; cbn -[decode_positions picture]; [done|..].
  - intros d dp Hdp. destruct (Hr _ _ Hdp) as [?|[? _]]; auto.
  - intros d dp Hdp. destruct (Hr _ _ Hdp) as [Hold|[_ (m & ? & ?)]]; [|exists m; set_solver].
    destruct (Hann _ _ Hold) as (m & ? & ?). exists m. set_solver.
  - intros m [Hold|Hnew]%elem_of_app Hc; [|by apply Hm].
    destruct (Hmsg m Hold Hc) as (items & Hd & Hi). exists items. split; [done|].
    intros i Hii. destruct (Hi i Hii). auto.
  - intros m. rewrite drop_app_length. specialize (Htr m). set_solver.
  - intros d i Hi. destruct (Hsh d i Hi). auto.
  - intros d dp Hdp Hh. destruct (Hr _ _ Hdp) as [Hold|[_ (m & Hmm & Hc)]]; [|right; exists m; auto].
    destruct (Hcur _ _ Hold Hh) as [?|(m & Hmm & Hc)]; [by left|right]. exists m. split; [set_solver|done].
Qed.

Lemma row_no_newer db d dp : device_positions db !! d = Some dp → no_newer db (row_shown d dp).
Proof. intros Hd. exists dp. split; [done|]. split; [cbn; lia|done]. Qed.

(** Merging items that are no newer than the table into a picture that is not either. *)
Lemma merge_shown db v items :
  keyed (no_newer db) v → (∀ i, i ∈ items → no_newer db i) →
  keyed (no_newer db) (foldl newest v items) ∧
  ∀ d dp, device_positions db !! d = Some dp → v !! d = Some (row_shown d dp) ∨ row_shown d dp ∈ items →
    foldl newest v items !! d = Some (row_shown d dp).
Proof.
  intros Hv Hi. split; [by apply newest_keyed|]. intros d dp Hd Hin.
  assert (Hle : ∀ j, no_newer db j → item_id j = d →
    item_ms j ≤ item_ms (row_shown d dp) ∧ (item_ms j = item_ms (row_shown d dp) → j = row_shown d dp)).
  { intros j (dp' & Hdp' & ? & ?) <-. by simplify_eq. }
  apply (newest_reaches items v (row_shown d dp)); [|intros j Hj Hk; by apply Hle, Hk; apply Hi|done].
  intros j Hj. destruct (Hv _ _ Hj). by apply Hle.
Qed.

Lemma delivered_replica s l1 channel payload l2 conns bridge :
  deployment_ok s → wire s = l1 ++ (channel, payload) :: l2 →
  let h := hub (replica s) in
  let h' := gw_hub (deliver float_of_str int_of_str cell_size_deg control_max channel payload (mkGateway h conns bridge)) in
  rtc fan_step start (mkSystem h' (clients (replica s))) ∧
  ∃ items, (∀ i, i ∈ items → no_newer (database s) i) ∧ picture h' = foldl newest (picture h) items ∧
           ∀ i, carries (channel, payload) i → i ∈ items.
Proof.
  intros Hok Hw h h'. subst h'. rewrite deliver_hub. cbn [gw_hub].
  assert (Hsame : rtc fan_step start (mkSystem h (clients (replica s)))).
  { subst h. pose proof (ok_replica _ Hok). by destruct (replica s). }
  case_decide as Hc.
  - destruct (ok_messages _ Hok (channel, payload)) as (items & Hd & Hi); [|done|].
    { apply (ok_travelling _ Hok). rewrite Hw. set_solver. }
    cbn in Hd. rewrite Hd. split.
    + eapply rtc_r; [exact Hsame|]. apply (step_apply _ _ _ items (mkSystem h (clients (replica s)))).
      apply Forall_forall. intros i Hin. by apply Hi.
    + exists items. split; [intros i Hin; by apply Hi|]. split.
      * apply apply_keeps_newest, Forall_forall. intros i Hin. by apply Hi.
      * intros i (_ & items' & Hd' & Hin). unfold snd in Hd'. congruence.
  - split; [done|]. exists []. split; [intros i Hin; by apply elem_of_nil in Hin|]. split; [done|].
    by intros i [Hch _].
Qed.

Lemma deliver_step_ok s l1 channel payload l2 conns bridge :
  deployment_ok s → wire s = l1 ++ (channel, payload) :: l2 →
  let g := deliver float_of_str int_of_str cell_size_deg control_max channel payload
             (mkGateway (hub (replica s)) conns bridge) in
  deployment_ok (mkDeployment (database s) (announced s) (l1 ++ l2) (missed s) (horizon s)
    (mkSystem (gw_hub g) (clients (replica s)))).
Proof.
  intros Hok Hw g. destruct (delivered_replica s l1 channel payload l2 conns bridge Hok Hw)
    as (Hrun & items & Hi & Hp & Hc). fold g in Hrun, Hp.
  destruct Hok as [_ Hrows Hann Hmsg Htr Hsh Hcur].
  destruct (merge_shown _ _ _ Hsh Hi) as [Hsh' Hcur']. rewrite <- Hp in Hsh', Hcur'.
  split; cbn -[decode_positions picture]; [done..| | |].
  - intros m Hm. apply Htr. rewrite Hw. set_solver.
  - done.
  - intros d dp Hd Hh. destruct (Hcur d dp Hd Hh) as [?|(m & Hm & Hcm)]; [left; auto|].
    rewrite Hw in Hm. destruct (decide (m = (channel, payload))) as [->|Hne]; [left; auto|].
    right. exists m. set_solver.
Qed.

Lemma sweep_picture now h d :
  picture (sweep stale_after_ms now h) !! d
  = match picture h !! d with
    | Some i => if item_ms i <? now - stale_after_ms then None else Some i
    | None => None
    end.
Proof.
  unfold picture. rewrite !lookup_fmap, sweep_lookup. destruct (latest h !! d) as [e|]; [|done].
  cbn. unfold entry_reported_ms. by case_match.
Qed.

Lemma sweep_step_ok s now :
  deployment_ok s →
  deployment_ok (mkDeployment (database s) (announced s) (wire s) (missed s)
    (Z.max (horizon s) (now - stale_after_ms))
    (mkSystem (sweep stale_after_ms now (hub (replica s))) (clients (replica s)))).
Proof.
  intros [Hrep Hrows Hann Hmsg Htr Hsh Hcur]. split; cbn -[decode_positions picture]; [|done..| |].
  - eapply rtc_r; [exact Hrep|]. apply step_sweep.
  - intros d i. rewrite sweep_picture. destruct (picture _ !! d) as [j|] eqn:E; [|done].
    case_match; [done|]. intros [= <-]. by apply Hsh.
  - intros d dp Hd Hh. destruct (Hcur d dp Hd ltac:(lia)) as [Hp|?]; [left|by right].
    rewrite sweep_picture, Hp. cbn. destruct (Z.ltb_spec (reported_at dp / 1000) (now - stale_after_ms)); [lia|done].
Qed.

(** *** The warm start *)

Definition row_read (row : Row) : PositionItem :=
  let '(d, la, lo, moment) := row in mkItem d la lo (moment / 1000).

Lemma warm_start_loop_runs ps n h :
  (∀ row, row ∈ concat ps → row_item row = Ok (row_read row) ∧ item_ok (row_read row)) →
  ∃ h' k, warm_start_loop cell_size_deg ps n h = (h', Ok k) ∧
    picture h' = foldl newest (picture h) (row_read <$> concat ps) ∧
    rtc fan_step (mkSystem h ∅) (mkSystem h' ∅).
Proof.
  revert n h. induction ps as [|rows ps IH]; intros n h Hr.
  { eexists _, _. split; [done|]. split; [done|]. apply rtc_once.
    pose proof (step_tick cell_size_deg stale_after_ms control_max 0 (mkSystem h ∅) (clear_pending h) ∅ None ltac:(done)) as Ht.
    cbn [hub clients] in Ht. rewrite fmap_empty in Ht.
    rewrite map_zip_with_empty in Ht. apply Ht. unfold fan_out. by rewrite decide_True by apply map_Forall_empty. }
  cbn [warm_start_loop]. cbn [concat] in Hr.
  rewrite (traverse_ok _ row_read) by (intros row Hin; apply Hr; set_solver).
  assert (Hi : Forall item_ok (row_read <$> rows)).
  { apply Forall_forall. intros i (row & -> & Hin)%list_elem_of_fmap. apply Hr. set_solver. }
  destruct (apply_keeps_newest cell_size_deg (row_read <$> rows) h) as [He Hp].
  { eapply Forall_impl; [exact Hi|]. by intros i [_ ?]. }
  assert (Hs : fan_step (mkSystem h ∅) (mkSystem (Hub.apply cell_size_deg (row_read <$> rows) h).1 ∅)).
  { apply (step_apply _ _ _ (row_read <$> rows) (mkSystem h ∅)). eapply Forall_impl; [exact Hi|]. by intros i [? _]. }
  destruct (Hub.apply _ _ _) as [h1 e]. cbn in He, Hp, Hs. subst e.
  destruct (IH (n + length rows)%nat h1) as (h' & k & -> & Hp' & Hrun); [intros row Hin; apply Hr; set_solver|].
  eexists _, _. split; [done|]. split; [|by eapply rtc_l].
  cbn [concat]. by rewrite Hp', Hp, fmap_app, foldl_app.
Qed.

Lemma warm_rows db cutoff row :
  row ∈ warm_start_rows db cutoff ↔
  ∃ d dp, device_positions db !! d = Some dp ∧ cutoff ≤ reported_at dp ∧
          row = (d, (position dp).1, (position dp).2, reported_at dp).
Proof.
  unfold warm_start_rows. rewrite list_elem_of_fmap. split.
  - intros ([d dp] & -> & [Hc Hin%elem_of_map_to_list]%list_elem_of_filter). by exists d, dp.
  - intros (d & dp & Hd & Hc & ->). exists (d, dp). split; [done|]. apply list_elem_of_filter.
    split; [done|]. by apply elem_of_map_to_list.
Qed.

Lemma warm_row_item d dp :
  row_ok d dp → let row := (d, (position dp).1, (position dp).2, reported_at dp) in
  row_item row = Ok (row_read row) ∧ row_read row = row_shown d dp ∧ item_ok (row_read row).
Proof.
  intros (ms & Ems & Hms & Hok) row. split_and!; [|done..]. unfold row, row_item, row_read. rewrite Ems.
  unfold to_timestamp. rewrite EpochRoundtrip.to_epoch_ms_exact by lia. cbn [bind]. by rewrite Z.div_mul.
Qed.

Lemma warm_start_step_ok s query time_ns h' n :
  deployment_ok s → clients (replica s) = ∅ →
  2 ^ 40 < now_ms time_ns - stale_after_ms < 2 ^ 31 * 1000 →
  (∀ cutoff, concat (query cutoff) ≡ₚ warm_start_rows (database s) cutoff) →
  warm_start cell_size_deg stale_after_ms query time_ns (hub (replica s)) = (h', Ok n) →
  deployment_ok (mkDeployment (database s) (announced s) (wire s) []
    (Z.max (horizon s) (now_ms time_ns - stale_after_ms)) (mkSystem h' ∅)).
Proof.
  intros Hok Hno Ht Hq Hw. unfold warm_start in Hw.
  rewrite EpochRoundtrip.from_epoch_ms_exact in Hw by done.
  set (cutoff := (now_ms time_ns - stale_after_ms) * 1000) in Hw.
  destruct Hok as [Hrep Hrows Hann Hmsg Htr Hsh Hcur].
  assert (Hread : ∀ row, row ∈ concat (query cutoff) → ∃ d dp,
    device_positions (database s) !! d = Some dp ∧ row_item row = Ok (row_read row) ∧
    row_read row = row_shown d dp ∧ item_ok (row_read row)).
  { intros row. rewrite (Hq cutoff). intros (d & dp & Hd & _ & ->)%warm_rows. exists d, dp. split; [done|].
    by apply warm_row_item, Hrows. }
  destruct (warm_start_loop_runs (query cutoff) 0 (hub (replica s))) as (h1 & k & E & Hp & Hrun).
  { intros row Hin. destruct (Hread row Hin) as (d & dp & _ & ? & _ & ?). done. }
  rewrite E in Hw. injection Hw as <- <-.
  destruct (merge_shown (database s) (picture (hub (replica s))) (row_read <$> concat (query cutoff)) Hsh)
    as [Hsh' Hcur'].
  { intros i (row & -> & Hin)%list_elem_of_fmap. destruct (Hread row Hin) as (d & dp & Hd & _ & -> & _).
    by apply row_no_newer. }
  rewrite <- Hp in Hsh', Hcur'. split; cbn -[decode_positions picture]; [|done..| |done|].
  - etrans; [exact Hrep|]. replace (replica s) with (mkSystem (hub (replica s)) ∅) at 1; [done|].
    rewrite <- Hno. by destruct (replica s).
  - intros m Hm. apply Htr. rewrite app_nil_r in Hm. set_solver.
  - intros d dp Hd Hh. left. apply Hcur'; [done|]. right. apply list_elem_of_fmap.
    exists (d, (position dp).1, (position dp).2, reported_at dp). split; [done|].
    rewrite (Hq cutoff). apply warm_rows. exists d, dp. split; [done|]. split; [|done].
    destruct (Hrows d dp Hd) as (ms & Ems & _). rewrite Ems, to_timestamp_ms in *. unfold cutoff, to_timestamp. lia.
Qed.

(** *** Every step *)

Lemma deployment_step_ok s s' : deployment_ok s → deployment_step s s' → deployment_ok s'.
Proof.
  intros Hok Hstep.
  destruct Hstep as [s en rs ss dead outs now wall fl db' e k Hd Hc Ha msgs sent|s db' Hdb|s l1 ch pl l2 conns br Hw g
    |s l1 m l2 Hw|s now|s sys Hst Hl Hkept|s|s q t h' n Hno Ht Hq Hw].
  - destruct (apply_commit_ok now wall outs (database s) en rs ss dead db' e k) as [Hcommit Hprefix];
      [by apply (ok_rows _ Hok)|done..|].
    apply batch_step_ok; [done|exact Hcommit|exact (Hprefix fl)].
  - destruct Hok as [Hrep Hrows Hann Hmsg Htr Hsh Hcur].
    assert (Hn : ∀ i, no_newer (database s) i → no_newer db' i) by (intros i; by apply no_newer_same).
    split; cbn -[decode_positions picture]; rewrite ?Hdb; [done..| |done| |done].
    + intros m Hm Hc. destruct (Hmsg m Hm Hc) as (items & Hd & Hi). exists items. split; [done|].
      intros i Hin. destruct (Hi i Hin). auto.
    + intros d i Hi. destruct (Hsh d i Hi). auto.
  - by eapply deliver_step_ok.
  - destruct Hok as [Hrep Hrows Hann Hmsg Htr Hsh Hcur]. rewrite Hw in Htr, Hcur.
    split; cbn -[decode_positions picture]; [done..| |done|].
    + intros m' Hm. apply Htr. set_solver.
    + intros d dp Hd Hh. destruct (Hcur d dp Hd Hh) as [?|(m' & Hm & Hc)]; [by left|right].
      exists m'. split; [set_solver|done].
  - by apply sweep_step_ok.
  - destruct Hok as [Hrep Hrows Hann Hmsg Htr Hsh Hcur].
    assert (Hp : picture (hub sys) = picture (hub (replica s))) by (unfold picture; by rewrite Hl).
    split; cbn -[decode_positions picture]; rewrite ?Hp; [by eapply rtc_r|done..].
  - destruct Hok as [Hrep Hrows Hann Hmsg Htr Hsh Hcur].
    assert (Hp : picture (hub start) = ∅) by (unfold picture; cbn; by rewrite fmap_empty).
    split; cbn -[decode_positions picture start]; rewrite ?Hp; [constructor|done..| |].
    + intros d i. by rewrite lookup_empty.
    + intros d dp Hd _. right. by apply Hann.
  - by eapply warm_start_step_ok.
Qed.

Lemma deployment_reachable_ok db s :
  device_positions db = ∅ → rtc deployment_step (new_deployment db) s → deployment_ok s.
Proof.
  intros Hdb. revert s. apply (rtc_ind_r deployment_ok).
  - split; cbn -[picture]; rewrite ?Hdb; try (intros d dp; by rewrite lookup_empty); try (intros m Hm; by apply elem_of_nil in Hm).
    + constructor.
    + intros d i. unfold picture. cbn. by rewrite fmap_empty, lookup_empty.
  - intros s1 s2 _ Hstep Hok. by eapply deployment_step_ok.
Qed.
End facts.

(** ** Properties *)

Section properties.
Context `{Orjson} `{!OrjsonRoundtrip} `{!OrjsonCompact}.
Variables (float_of_str : string → option float64) (int_of_str : string → option Z).
Variables (st_dwithin : Point → Point → float64 → bool) (search_overlaps : Point → float64 → Point → bool).
Variables (model_dump : AlertOut → option json).
Variables (retention_days skew_s : Z) (sz : Z) (stale_after_ms : Z) (control_max : nat).
Notation deployment_step := (deployment_step float_of_str int_of_str st_dwithin search_overlaps model_dump
  retention_days skew_s (Fin sz) stale_after_ms control_max).

(** Nothing a page keeps, or is being told, is newer than the table. *)
Definition deployment_told (s : Deployment) : Prop :=
  ∀ k cl, clients (replica s) !! k = Some cl → client_told (no_newer (database s)) cl.

Lemma deployment_step_told s s' :
  2 ^ 60 ≤ sz → deployment_ok float_of_str int_of_str sz stale_after_ms control_max s →
  deployment_told s → deployment_step s s' → deployment_told s'.
Proof.
  intros Hsz Hok Htold Hstep. unfold deployment_told in *.
  assert (Hmono : ∀ db', (∀ i, no_newer (database s) i → no_newer db' i) →
    ∀ k cl, clients (replica s) !! k = Some cl → client_told (no_newer db') cl).
  { intros db' Hn k cl Hk. by eapply client_told_mono, (Htold k). }
  destruct Hstep as [s en rs ss dead outs now wall fl db' e k Hd Hc Ha msgs sent|s db' Hdb|s l1 ch pl l2 conns br Hw g
    |s l1 m l2 Hw|s now|s sys Hst Hl Hkept|s|s q t h' n Hno Ht Hq Hw]; cbn [replica database clients hub]; try done.
  - epose proof (apply_commit_ok float_of_str int_of_str _ _ model_dump _ _ sz Hsz now wall outs
      (database s) en rs ss dead db' e k (ok_rows _ _ _ _ _ _ Hok) Hd Hc Ha) as [[_ _ Hn] _]. by apply Hmono.
  - apply Hmono. intros i. by apply no_newer_same.
  - pose proof (reachable_ok _ _ _ _ (ok_replica _ _ _ _ _ _ Hok)) as Hsys.
    eapply step_told; [done|exact Hst| |done..]. intros d e He.
    apply (ok_shown _ _ _ _ _ _ Hok d). unfold picture. by rewrite lookup_fmap, He.
Qed.

Lemma deployment_reachable_told db s :
  2 ^ 60 ≤ sz → device_positions db = ∅ → rtc deployment_step (new_deployment db) s →
  deployment_ok float_of_str int_of_str sz stale_after_ms control_max s ∧ deployment_told s.
Proof.
  intros Hsz Hdb. revert s. apply (rtc_ind_r (λ s, deployment_ok float_of_str int_of_str sz stale_after_ms control_max s ∧ deployment_told s)).
  - split; [pose proof (rtc_refl deployment_step (new_deployment db)) as Hr; by eapply deployment_reachable_ok in Hr|]. intros k cl. cbn [replica new_deployment start clients]. by rewrite lookup_empty.
  - intros s1 s2 _ Hstep [Hok Ht]. split; [by eapply deployment_step_ok|by eapply deployment_step_told].
Qed.

(** What a replica holds, from the invariant. *)
Lemma replica_follows db s :
  2 ^ 60 ≤ sz → device_positions db = ∅ → rtc deployment_step (new_deployment db) s →
  keyed (no_newer (database s)) (picture (hub (replica s))) ∧
  ∀ d dp, settled_row float_of_str int_of_str s d dp → picture (hub (replica s)) !! d = Some (row_shown d dp).
Proof.
  intros Hsz Hdb Hr. eapply deployment_reachable_ok in Hr; [|done..].
  split; [by apply (ok_shown _ _ _ _ _ _ Hr)|]. intros d dp (Hd & Hh & Hm).
  destruct (ok_current _ _ _ _ _ _ Hr d dp Hd Hh) as [?|(m & Hin & Hc)]; [done|]. by destruct (Hm m Hin).
Qed.
End properties.

(** A settled client's page, for a device the hub holds as it is stored. *)
Lemma settled_drawn `{Orjson} `{!OrjsonRoundtrip} `{!OrjsonCompact} size_deg stale_after_ms control_max db s k cl rects d dp :
  rtc (step size_deg stale_after_ms control_max) start s →
  clients s !! k = Some cl → sender cl = Idle → wake (conn cl) = false →
  viewport (conn cl) = Some rects → pending (hub s) = pending_clear →
  keyed (no_newer db) (drawn (screen cl)) → device_positions db !! d = Some dp →
  picture (hub s) !! d = Some (row_shown d dp) →
  ∃ c, cell_of (position dp).1 (position dp).2 size_deg = Ok c ∧
       drawn (screen cl) !! d
       = if covers rects c && negb (bool_decide (d ∈ blinked (screen cl) ∪ forgotten (screen cl)))
         then Some (row_shown d dp) else None.
Proof.
  intros Hr Hk Hsn Hw Hv Hp Hkeyed Hd Hset.
  destruct (drawn_exactly _ _ (quiescent_view _ _ _ _ _ _ _ Hr Hk Hsn Hw Hv Hp)) as [Hdom Hle].
  pose proof (sys_wf _ _ (reachable_ok _ _ _ _ Hr)) as Hwf.
  unfold picture in Hset. apply lookup_fmap_Some in Hset as (e & Hi & He).
  destruct (wf_entries _ _ Hwf _ _ He) as [_ Hc]. rewrite Hi in Hc. exists (cell e). split; [exact Hc|].
  assert (Hwin : ∀ j, visible (covers rects) (hub s) !! d = Some j ↔ covers rects (cell e) = true ∧ j = row_shown d dp).
  { intros j. rewrite visible_lookup. split; [intros (e' & He' & ? & ?)|intros [? ->]; exists e]; by simplify_eq. }
  assert (Hin : d ∈ dom (drawn (screen cl)) ↔
    covers rects (cell e) = true ∧ d ∉ blinked (screen cl) ∪ forgotten (screen cl)).
  { rewrite Hdom, elem_of_difference, elem_of_dom. unfold is_Some. setoid_rewrite Hwin. naive_solver. }
  destruct (drawn (screen cl) !! d) as [i|] eqn:E.
  - destruct (proj1 Hin (elem_of_dom_2 _ _ _ E)) as [-> Hn]. rewrite bool_decide_false by done. cbn. f_equal.
    destruct (Hle d i E) as (j & [_ ->]%Hwin & Hms), (Hkeyed d i E) as (<- & dp' & Hdp & Hms' & Heq). simplify_eq.
    apply Heq. cbn in Hms. lia.
  - apply not_elem_of_dom in E. case_match eqn:Eb; [|done]. apply andb_true_iff in Eb as [Hcv Hn].
    apply negb_true_iff, bool_decide_eq_false in Hn. by destruct E; apply Hin.
Qed.

(** C17: a replica follows the table of positions. However batches of different shards
    interleave, whatever order messages arrive in and whichever are lost, and through
    restarts, warm starts and sweeps, what the replica holds for a device is never newer
    than the stored row, and equal to it when it is as new; and a row that is not older
    than the last cutoff and whose announcement is neither on the way nor lost since the
    last warm start is held as it is stored. *)
Theorem replica_follows_table `{Orjson} `{!OrjsonRoundtrip} float_of_str int_of_str st_dwithin search_overlaps
    model_dump retention_days skew_s sz stale_after_ms control_max db s :
  2 ^ 60 ≤ sz → device_positions db = ∅ →
  rtc (deployment_step float_of_str int_of_str st_dwithin search_overlaps model_dump retention_days skew_s
         (Fin sz) stale_after_ms control_max) (new_deployment db) s →
  (∀ d i, picture (hub (replica s)) !! d = Some i → item_id i = d ∧ no_newer (database s) i) ∧
  ∀ d dp, settled_row float_of_str int_of_str s d dp →
    picture (hub (replica s)) !! d = Some (row_shown d dp).
Proof. apply replica_follows. Qed.

(** C1: a settled dashboard shows the database. At any moment a page draws, for each
    device, nothing newer than the stored row, and the row itself when it is as new. A page
    whose connection's sender sleeps with nothing signalled, on a replica with no pending
    delta, draws a device whose row is settled at exactly the stored position and moment
    when its window covers the cell of that position, and does not draw it otherwise;
    except that a device which its last frame both brought and removed, or which the
    page's own timer has forgotten since, is not drawn until a frame names it again. *)
Theorem dashboard_shows_table `{Orjson} `{!OrjsonRoundtrip} `{!OrjsonCompact} float_of_str int_of_str st_dwithin
    search_overlaps model_dump retention_days skew_s sz stale_after_ms control_max db s :
  2 ^ 60 ≤ sz → device_positions db = ∅ →
  rtc (deployment_step float_of_str int_of_str st_dwithin search_overlaps model_dump retention_days skew_s
         (Fin sz) stale_after_ms control_max) (new_deployment db) s →
  (∀ k cl d i, clients (replica s) !! k = Some cl → drawn (screen cl) !! d = Some i →
     item_id i = d ∧ no_newer (database s) i) ∧
  ∀ k cl rects, clients (replica s) !! k = Some cl → sender cl = Idle → wake (conn cl) = false →
    viewport (conn cl) = Some rects → pending (hub (replica s)) = pending_clear →
    ∀ d dp, settled_row float_of_str int_of_str s d dp →
      ∃ c, cell_of (position dp).1 (position dp).2 (Fin sz) = Ok c ∧
           drawn (screen cl) !! d
           = if covers rects c && negb (bool_decide (d ∈ blinked (screen cl) ∪ forgotten (screen cl)))
             then Some (row_shown d dp) else None.
Proof.
  intros Hsz Hdb Hr. destruct (replica_follows _ _ _ _ _ _ _ _ _ _ _ _ Hsz Hdb Hr) as [_ Hset].
  eapply deployment_reachable_told in Hr as [Hr Ht]; [|done..]. split.
  { intros k cl d i Hk. apply drawn_keyed. by apply (Ht k). }
  intros k cl rects Hk Hsn Hw Hv Hp d dp Hd. specialize (Hset d dp Hd).
  eapply settled_drawn; [apply (ok_replica _ _ _ _ _ _ Hr)|done..| |apply Hd|done].
  by apply drawn_keyed, (Ht k).
Qed.

(** ** One report, from its stream to a dashboard that was already looking *)
Module PipelineDemo.
#[local] Existing Instance Ref.orjson.
Definition sz : Z := Eval vm_compute in match Demo.size_deg with Fin n => n | _ => 0 end.
Definition no_frame (a : AlertOut) : option json := None.
Definition report : LocationRecord := mkRecord "van-7" (flit 0) (flit 0) 1700000000000 1700000000250.
Definition entries : list StreamEntry := [mkStreamEntry "1-0" (encode_record report)].
Definition stored : Db :=
  Eval vm_compute in batch_db BatchSamples.dwithin BatchSamples.overlaps 1700000001000000 BatchSamples.db [report].
Definition message : string * string :=
  Eval vm_compute in (POSITIONS_CHANNEL, encode_positions [position_item report]).
Definition dep_step : Deployment → Deployment → Prop :=
  deployment_step Samples.no_floats Samples.no_ints BatchSamples.dwithin BatchSamples.overlaps no_frame 30 60 (Fin sz) 60000 10.

Definition at_replica (w : list (string * string)) (sys : System) : Deployment :=
  mkDeployment stored [message] w [] 0 sys.
Definition watching : Deployment := mkDeployment BatchSamples.db [] [] [] 0 Demo.windowed.
Definition reported : System :=
  Eval vm_compute in mkSystem (Hub.apply (Fin sz) [position_item report] (hub Demo.windowed)).1 (clients Demo.windowed).
Definition ticked : System := Eval vm_compute in Demo.ticking reported.
Definition woken : System :=
  Eval vm_compute in Demo.set (cleared (conn (Demo.client ticked))) Pumping (screen (Demo.client ticked)) ticked.
Definition writing : System := Eval vm_compute in Demo.pumped woken.
Definition sent : System := Eval vm_compute in Demo.delivered writing (Demo.frame_of (sender (Demo.client writing))).
Definition settled : System := Eval vm_compute in Demo.pumped sent.

Definition outcome : ApplyEnd := Eval vm_compute in
  match Batch.apply BatchSamples.dwithin BatchSamples.overlaps 1700000001000000 1700000001000 30 60 MAX_ATTEMPTS
          [Commits] BatchSamples.db [report] with
  | Some (_, e, _) => e
  | None => DBAPIError None
  end.

Lemma dep_step_to s s' s'' : dep_step s s'' → s'' = s' → dep_step s s'.
Proof. by intros ? <-. Qed.

Definition opens_empty (s s' : System) : Prop :=
  map_Forall (λ k cl, clients s !! k = None → screen cl = Kept ∅) (clients s').
#[local] Instance screen_kept_dec (cl : Client) : Decision (screen cl = Kept ∅).
Proof. destruct (screen cl) as [v| |]; [destruct (decide (v = ∅)) as [->|]; [by left|right; congruence]|by right..]. Defined.

#[local] Instance opens_empty_dec s s' : Decision (opens_empty s s').
Proof. unfold opens_empty. apply _. Defined.

Lemma client_step s sys :
  step Demo.size_deg 60000 10 (replica s) sys → latest (hub sys) = latest (hub (replica s)) →
  opens_empty (replica s) sys →
  dep_step s (mkDeployment (database s) (announced s) (wire s) (missed s) (horizon s) sys).
Proof. intros Hs Hl Ho. apply dep_clients; [done..|]. intros k cl Hk Hk'. by rewrite (Ho k cl Hk' Hk). Qed.

Lemma watching_reachable : rtc dep_step (new_deployment BatchSamples.db) watching.
Proof.
  apply (rtc_l _ _ (mkDeployment BatchSamples.db [] [] [] 0 Demo.connected)).
  { apply (client_step (new_deployment BatchSamples.db) Demo.connected); [|vm_compute; reflexivity|apply (bool_decide_unpack _); vm_compute; exact I].
    eapply Demo.step_to; [apply step_connect with (k := 1); reflexivity|vm_compute; reflexivity]. }
  apply rtc_once, (client_step (mkDeployment BatchSamples.db [] [] [] 0 Demo.connected) Demo.windowed); [|vm_compute; reflexivity|apply (bool_decide_unpack _); vm_compute; exact I].
  eapply Demo.step_to; [apply (step_viewport _ _ _ 1 (Demo.client Demo.connected) Demo.box (conn (Demo.client Demo.windowed)));
    vm_compute; reflexivity|vm_compute; reflexivity].
Qed.

Lemma delivered_reachable : rtc dep_step (new_deployment BatchSamples.db) (at_replica [] reported).
Proof.
  etrans; [exact watching_reachable|].
  apply (rtc_l _ _ (at_replica [message] Demo.windowed)).
  { eapply dep_step_to; [apply (dep_batch _ _ _ _ _ _ _ _ _ _ watching entries [report] ["1-0"] [] [Commits]
      1700000001000000 1700000001000 1%nat stored outcome 1%nat)|vm_compute; reflexivity];
      [vm_compute; reflexivity|split; vm_compute; reflexivity|vm_compute; reflexivity]. }
  apply rtc_once.
  eapply dep_step_to; [apply (dep_deliver _ _ _ _ _ _ _ _ _ _ (at_replica [message] Demo.windowed) [] message.1 message.2 []
    ∅ new_bridge eq_refl)|vm_compute; reflexivity].
Qed.

Lemma dashboard_reachable : rtc dep_step (new_deployment BatchSamples.db) (at_replica [] settled).
Proof.
  etrans; [exact delivered_reachable|].
  apply (rtc_l _ _ (at_replica [] ticked)).
  { apply (client_step (at_replica [] reported) ticked); [|vm_compute; reflexivity|apply (bool_decide_unpack _); vm_compute; exact I].
    apply (Demo.step_to _ _ (Demo.ticking reported)); [apply Demo.ticking_step|vm_compute; reflexivity]. }
  apply (rtc_l _ _ (at_replica [] woken)).
  { apply (client_step (at_replica [] ticked) woken); [|vm_compute; reflexivity|apply (bool_decide_unpack _); vm_compute; exact I].
    eapply Demo.step_to; [apply (step_wake _ _ _ 1 (Demo.client ticked)); vm_compute; reflexivity|vm_compute; reflexivity]. }
  apply (rtc_l _ _ (at_replica [] writing)).
  { apply (client_step (at_replica [] woken) writing); [|vm_compute; reflexivity|apply (bool_decide_unpack _); vm_compute; exact I].
    apply (Demo.step_to _ _ (Demo.pumped woken)); [apply Demo.pumped_step; vm_compute; reflexivity|vm_compute; reflexivity]. }
  apply (rtc_l _ _ (at_replica [] sent)).
  { apply (client_step (at_replica [] writing) sent); [|vm_compute; reflexivity|apply (bool_decide_unpack _); vm_compute; exact I].
    apply (Demo.step_to _ _ (Demo.delivered writing (Demo.frame_of (sender (Demo.client writing)))));
      [apply Demo.delivered_step; vm_compute; reflexivity|vm_compute; reflexivity]. }
  apply rtc_once, (client_step (at_replica [] sent) settled); [|vm_compute; reflexivity|apply (bool_decide_unpack _); vm_compute; exact I].
  apply (Demo.step_to _ _ (Demo.pumped sent)); [apply Demo.pumped_step; vm_compute; reflexivity|vm_compute; reflexivity].
Qed.

Lemma row_settled sys :
  settled_row Samples.no_floats Samples.no_ints (at_replica [] sys) "van-7" (row_of_record 1700000001000000 report).
Proof.
  split; [vm_compute; reflexivity|]. split; [vm_compute; discriminate|]. intros m Hm. by apply elem_of_nil in Hm.
Qed.
End PipelineDemo.

Lemma replica_follows_table_witness :
  picture (hub PipelineDemo.reported) !! "van-7" = Some (position_item PipelineDemo.report).
Proof.
  assert (Hsz : 2 ^ 60 ≤ PipelineDemo.sz) by (vm_compute; discriminate).
  destruct (@replica_follows_table Ref.orjson Ref.orjson_roundtrip Samples.no_floats Samples.no_ints BatchSamples.dwithin
    BatchSamples.overlaps PipelineDemo.no_frame 30 60 PipelineDemo.sz 60000 10 BatchSamples.db
    (PipelineDemo.at_replica [] PipelineDemo.reported) Hsz eq_refl PipelineDemo.delivered_reachable) as [_ Hset].
  exact (Hset "van-7" _ (PipelineDemo.row_settled PipelineDemo.reported)).
Defined.

Lemma dashboard_shows_table_witness :
  drawn (H := Ref.orjson) (screen (Demo.client PipelineDemo.settled)) !! "van-7" = Some (position_item PipelineDemo.report).
Proof.
  assert (Hsz : 2 ^ 60 ≤ PipelineDemo.sz) by (vm_compute; discriminate).
  destruct (@dashboard_shows_table Ref.orjson Ref.orjson_roundtrip Ref.orjson_compact Samples.no_floats Samples.no_ints
    BatchSamples.dwithin BatchSamples.overlaps PipelineDemo.no_frame 30 60 PipelineDemo.sz 60000 10 BatchSamples.db
    (PipelineDemo.at_replica [] PipelineDemo.settled) Hsz eq_refl PipelineDemo.dashboard_reachable) as [_ Hset].
  destruct (Hset 1 (Demo.client PipelineDemo.settled) Demo.rects ltac:(vm_compute; reflexivity) ltac:(vm_compute; reflexivity)
    ltac:(vm_compute; reflexivity) ltac:(vm_compute; reflexivity) ltac:(vm_compute; reflexivity)
    "van-7" _ (PipelineDemo.row_settled PipelineDemo.settled)) as (c & Hc & Hv).
  vm_compute in Hc. injection Hc as <-. rewrite Hv. vm_compute. reflexivity.
Defined.
