(* ===== verification/Delivery.v ===== *)
(** * From an accepted report to the database

    The API and the processors together: submissions ([Ingest]) append to the streams of
    all shards, and the owners of the shards run their rounds ([Consumer]) against one
    database, whose history the maintenance drops day by day. Every shard of the cluster
    refines the shard of [Consumer]. *)
From S2P Require Import Prelude Floats Clock Text Json JsonRef Keys Codec Batch Ingest Consumer.

Record Cluster := mkCluster {
  cl_db : Db;
  cl_streams : Z → Stream;
  cl_letters : Z → list DeadLetter;
  cl_added : Z → list StreamEntry;        (* every entry ever added, by shard *)
  cl_cutoffs : list Z }.                  (* every cutoff the maintenance dropped days before *)

Definition new_cluster (db : Db) : Cluster := mkCluster db (λ _, mkStream [] []) (λ _, []) (λ _, []) [].

(** [geotrack_drop_history_partitions]: the rows of the days before [oldest] go. *)
Definition drop_archive (oldest : Z) (db : Db) : Db :=
  mkDb (geozones db) (device_positions db) (zone_presence db) (alerts db) (alerts_identity db)
    (filter (λ kv : string * Z * (Point * Z), oldest ≤ archive_day kv.1.2) (location_history db)).
Definition dropped (w : Cluster) (day : Z) : Prop := Exists (λ oldest, day < oldest) (cl_cutoffs w).

(** What the owner of a shard sees. *)
Definition shard_world (w : Cluster) (i : Z) : World := mkWorld (cl_db w) (cl_streams w i) (cl_letters w i).
Definition at_shard {A} (i : Z) (a : A) (f : Z → A) (j : Z) : A := if decide (j = i) then a else f j.
Definition with_world (i : Z) (s : World) (w : Cluster) : Cluster :=
  mkCluster (db s) (at_shard i (stream s) (cl_streams w)) (at_shard i (dlq s) (cl_letters w)) (cl_added w) (cl_cutoffs w).
Definition append (added : Z → list StreamEntry) (w : Cluster) : Cluster :=
  mkCluster (cl_db w)
    (λ i, mkStream (pending_entries (cl_streams w i)) (new_entries (cl_streams w i) ++ added i))
    (cl_letters w) (λ i, cl_added w i ++ added i) (cl_cutoffs w).

Section cluster.
Context `{Orjson}.
Variable float_of_str : string → option float64.
Variable st_dwithin : Point → Point → float64 → bool.
Variable search_overlaps : Point → float64 → Point → bool.
Variables (shards : Z) (batch_size : nat) (retention_days skew_s : Z).

(** One submission: what it appended to which stream, under identifiers Redis had not
    given before, and how it ended. *)
Definition submitted (m : BacklogMonitor) (time_ns : Z) (o : PipeOutcome) (reports : list LocationReport)
    (res : SubmitResult) (w w' : Cluster) : Prop :=
  ∃ appended added, submit shards m time_ns o reports ∅ = (appended, res) ∧
    (∀ i, raw <$> added i = default [] (appended !! ingest_stream i)) ∧
    (∀ i, NoDup (entry_id <$> cl_added w i ++ added i)) ∧ w' = append added w.

Inductive cluster_step : Cluster → Cluster → Prop :=
  | cl_submit w w' m time_ns o reports res : submitted m time_ns o reports res w w' → cluster_step w w'
  | cl_start w i c answers : cluster_step w (with_world i (run_start answers c (shard_world w i)).2 w)
  | cl_round w i c stop rd le a :
      cluster_step w (with_world i (round float_of_str st_dwithin search_overlaps batch_size retention_days skew_s
                                      stop rd le a c (shard_world w i)).2 w)
  | cl_zones w d' : device_positions d' = device_positions (cl_db w) →
      location_history d' = location_history (cl_db w) →
      cluster_step w (mkCluster d' (cl_streams w) (cl_letters w) (cl_added w) (cl_cutoffs w))
  (** a maintenance round: [today] is the date in the database *)
  | cl_maintain w today : let oldest := today - retention_days in
      cluster_step w (mkCluster (drop_archive oldest (cl_db w)) (cl_streams w) (cl_letters w) (cl_added w)
                        (cl_cutoffs w ++ [oldest])).

Local Notation batch_db := (batch_db st_dwithin search_overlaps).
Local Notation shard_step := (shard_step float_of_str st_dwithin search_overlaps batch_size retention_days skew_s).
(** The days dropped by the end of the run. *)
Variable gone : Z → Prop.

(** ** What a round does to the rest of the cluster *)

Lemma handle_db entries a x w w' x' ok :
  handle float_of_str st_dwithin search_overlaps retention_days skew_s entries a x w = (w', x', ok) →
  db w' = db w ∨ ∃ now storable, db w' = batch_db now (db w) storable.
Proof.
  unfold handle. destruct (decode_entries _ _) as [[[records sources] dead]|]; [|intros [= <- <- <-]; by left].
  set (applied := match records with [] => _ | _ => _ end).
  destruct applied as [[[d' e] k]|] eqn:Ea; [|intros [= <- <- <-]; by left].
  assert (Hd : d' = db w ∨ ∃ now storable, d' = batch_db now (db w) storable).
  { subst applied. destruct records as [|r records]; [left; by simplify_eq|].
    apply apply_db in Ea. destruct (split_storable _ _ _ _) as [storable bad].
    destruct Ea as [[-> _]|[[->|[_ ->]] _]]; eauto. }
  intros Hw. assert (db w' = d') as ->; [|done]. revert Hw.
  destruct e; [|intros [= <- <- <-]; done..]. destruct (traverse _ _); [|intros [= <- <- <-]; done].
  destruct (dead ++ _), (dlq_written a); try (destruct (acknowledge _ _ _ _) as [[? ?] ?]); by intros [= <- <- <-].
Qed.

Lemma round_db stop rd le a c w :
  let w' := (round float_of_str st_dwithin search_overlaps batch_size retention_days skew_s stop rd le a c w).2 in
  db w' = db w ∨ ∃ now storable, db w' = batch_db now (db w) storable.
Proof.
  cbn zeta. unfold round. destruct (stopping c || stop); [by left|]. destruct rd as [|groups|delivered].
  - destruct (xreadgroup _ _ _) as [entries s']. destruct entries as [|e0 entries]; [by left|].
    destruct le; [|by left..].
    destruct (handle _ _ _ _ _ _ _ _ _) as [[w2 x] ok] eqn:Eh. apply handle_db in Eh. by destruct ok.
  - destruct (create_group_when_ready _ _ _). by left.
  - destruct delivered; by left.
Qed.

(** ** Each shard refines the shard of [Consumer] *)

Lemma adds_steps d st letters all added :
  NoDup (entry_id <$> all ++ added) →
  rtc (shard_step gone) (mkWorld d st letters, all)
    (mkWorld d (mkStream (pending_entries st) (new_entries st ++ added)) letters, all ++ added).
Proof.
  revert st all. induction added as [|e added IH]; intros st all Hnd.
  { rewrite !app_nil_r. by destruct st. }
  eapply rtc_l.
  - apply (shard_add _ _ _ _ _ _ _ (mkWorld d st letters) all e).
    rewrite fmap_app in Hnd. apply NoDup_app in Hnd as (_ & Hx & _). intros He. apply (Hx _ He). by left.
  - cbn [db stream dlq]. specialize (IH (mkStream (pending_entries st) (new_entries st ++ [e])) (all ++ [e])).
    cbn [pending_entries new_entries] in IH. rewrite <- !app_assoc in IH. by apply IH.
Qed.

Lemma cluster_refines_step w w' i :
  cluster_step w w' → (∀ day, dropped w' day → gone day) →
  rtc (shard_step gone) (shard_world w i, cl_added w i) (shard_world w' i, cl_added w' i).
Proof.
  assert (Hdb : ∀ j s, j ≠ i → (db s = cl_db w ∨ ∃ now storable, db s = batch_db now (cl_db w) storable) →
    rtc (shard_step gone) (shard_world w i, cl_added w i) (shard_world (with_world j s w) i, cl_added w i)).
  { intros j s Hj Hd. unfold shard_world, with_world, at_shard. cbn. rewrite !decide_False by congruence.
    destruct Hd as [->|(now & st & ->)]; [constructor|]. apply rtc_once. by apply (shard_other _ _ _ _ _ _ _ (shard_world w i)). }
  assert (Hown : ∀ s, shard_world (with_world i s w) i = s).
  { intros [d st l]. unfold shard_world, with_world, at_shard. cbn. by rewrite !decide_True by done. }
  intros Hstep Hgone. destruct Hstep as [w w' m t o reports res (app & added & _ & _ & Hnd & ->)|w j c answers|w j c stop rd le a|w d' Hp Hh|w today oldest].
  - apply adds_steps, Hnd.
  - destruct (decide (j = i)) as [->|Hj].
    + rewrite Hown. apply rtc_once, shard_start.
    + apply Hdb; [done|]. left. unfold run_start. destruct (stopping _); [done|].
      by destruct (create_group_when_ready _ _ _).
  - destruct (decide (j = i)) as [->|Hj].
    + rewrite Hown. apply rtc_once, shard_round.
    + apply Hdb; [done|]. apply (round_db stop rd le a c (shard_world w j)).
  - apply rtc_once. apply (shard_zones _ _ _ _ _ _ _ (shard_world w i)); [done|]. intros k v Hk. left. cbn. by rewrite Hh.
  - apply rtc_once. apply (shard_zones _ _ _ _ _ _ _ (shard_world w i)); [done|]. intros k v Hk.
    destruct (decide (oldest ≤ archive_day k.2)) as [Hday|Hday]; [left|right].
    + by apply map_lookup_filter_Some.
    + apply Hgone. unfold dropped. cbn. apply Exists_app. right. left. lia.
Qed.

Lemma cutoffs_stay w w' : cluster_step w w' → ∀ day, dropped w day → dropped w' day.
Proof.
  intros Hs day Hd. destruct Hs as [? ? ? ? ? ? ? (? & ? & _ & _ & _ & ->)| | | |]; try done.
  apply Exists_app. by left.
Qed.

Lemma cluster_refines w w' i :
  rtc cluster_step w w' → (∀ day, dropped w' day → gone day) →
  rtc (shard_step gone) (shard_world w i, cl_added w i) (shard_world w' i, cl_added w' i).
Proof.
  intros Hr Hgone. assert (Hall : ∀ v, rtc cluster_step v w' → ∀ day, dropped v day → gone day).
  { intros v Hv. induction Hv as [|v v1 v' Hs _ IH]; [done|]. intros day Hd.
    apply (IH Hr Hgone). by eapply cutoffs_stay. }
  induction Hr as [w|w w1 w' Hs Hr IH]; [constructor|].
  etrans; [apply (cluster_refines_step _ _ _ Hs), Hall, Hr|by apply IH].
Qed.

Lemma added_stay w w' i e : rtc cluster_step w w' → e ∈ cl_added w i → e ∈ cl_added w' i.
Proof.
  induction 1 as [w|w w1 w' Hs _ IH]; [done|]. intros He. apply IH. destruct Hs as [? ? ? ? ? ? ? (? & ? & _ & _ & _ & ->)| | | |]; try done.
  apply elem_of_app. by left.
Qed.

(** What an accepted submission appends for each of its reports. *)
Lemma accepted_entries m t o reports appended n r :
  submit shards m t o reports ∅ = (appended, Accepted n) → r ∈ reports →
  ∃ rec i, record_of_report (now_ms t) r = Ok rec ∧ shard_for (report_device r) shards = Ok i ∧
           encode_record rec ∈ default [] (appended !! ingest_stream i).
Proof.
  unfold submit. destruct reports as [|r0 reports]; [by intros _ Hr%elem_of_nil|].
  destruct (throttled m); [by destruct (retry_after_ms m)|].
  destruct (traverse _ _) as [cmds|] eqn:Ec; [|done]. destruct o; [|done]. intros [= <- _] Hr.
  apply traverse_Forall2 in Ec. apply list_elem_of_lookup in Hr as [j Hj].
  destruct (Forall2_lookup_l _ _ _ _ _ Ec Hj) as (cmd & Hcmd & Hc). unfold command_of_report in Hc.
  destruct (record_of_report _ r) as [rec|]; cbn in Hc; [|done].
  destruct (shard_for _ _) as [i|]; cbn in Hc; [|done]. injection Hc as <-.
  exists rec, i. split; [done|]. split; [done|]. rewrite xadd_lookup, lookup_empty. cbn.
  apply list_elem_of_fmap. exists (ingest_stream i, encode_record rec). split; [done|].
  apply list_elem_of_filter. split; [done|]. by eapply list_elem_of_lookup_2.
Qed.
End cluster.

(** ** Properties *)

(** C3: no accepted report is lost. Once a submission is answered as accepted, whatever
    happens afterwards (restarts, lost leases, repeated batches, failing dependencies,
    other submissions, maintenance rounds), each of its reports that fits the stream's
    record format is on the stream of its device's shard, or was written to the dead-letter
    stream because the database could not hold it at the moment a processor saw it, or is
    in the database: reflected by a stored position at least as new, and archived under its
    device and moment unless a maintenance round has since dropped its day from the history,
    which it does when the day is older than the retention. *)
Theorem accepted_report_survives `{Orjson} `{!OrjsonRoundtrip} float_of_str st_dwithin search_overlaps shards batch_size
    retention_days skew_s d0 w w1 w2 m time_ns o reports n r rec :
  let step := cluster_step float_of_str st_dwithin search_overlaps shards batch_size retention_days skew_s in
  rtc step (new_cluster d0) w → submitted shards m time_ns o reports (Accepted n) w w1 → rtc step w1 w2 →
  r ∈ reports → record_of_report (now_ms time_ns) r = Ok rec → encodable rec →
  ∃ i e, shard_for (report_device r) shards = Ok i ∧ raw e = encode_record rec ∧
    (in_stream (shard_world w2 i) e ∨
     (∃ dl wall, dl ∈ cl_letters w2 i ∧ dead_id dl = entry_id e ∧ dead_raw dl = encode_record rec ∧
        unstorable_reason rec (wall - retention_days * 86400 * 1000) (wall + skew_s * 1000) = Some (dead_error dl)) ∨
     reflected (cl_db w2) rec ∧
     (archived (cl_db w2) rec ∨ dropped w2 (archive_day (to_timestamp (reported_ms rec))))).
Proof.
  intros step Hr Hsub Hr2 Hin Hrec Henc. pose proof Hsub as (appended & added & Hs & Hraw & _ & ->).
  destruct (accepted_entries _ _ _ _ _ _ _ _ Hs Hin) as (rec' & i & Hrec' & Hi & He).
  rewrite Hrec in Hrec'. injection Hrec' as <-. rewrite <- Hraw in He.
  apply list_elem_of_fmap in He as (e & He & Hadded). exists i, e. split; [done|]. split; [done|].
  assert (Hall : rtc step (new_cluster d0) w2).
  { etrans; [exact Hr|]. eapply rtc_l; [by eapply cl_submit|exact Hr2]. }
  apply (cluster_refines _ _ _ _ _ _ _ (dropped w2) _ _ i) in Hall; [|done].
  assert (Hmine : e ∈ cl_added w2 i).
  { eapply added_stay; [exact Hr2|]. cbn. apply elem_of_app. by right. }
  pose proof (ok_accounted _ _ _ _ _ (shard_reachable_ok _ _ _ _ _ _ _ _ _ Hall) e Hmine) as Hacc.
  assert (Hdec : decode_record float_of_str (raw e) = Ok rec) by (rewrite <- He; by apply record_roundtrip_lemma).
  destruct Hacc as [?|[(dl & Hdl & Hid & Hwhy)|(rec' & Hdec' & Hc)]]; [by left|right; left|right; right].
  - rewrite Hdec in Hwhy. destruct Hwhy as (Hdraw & wall & Hwall). by exists dl, wall.
  - by rewrite Hdec in Hdec'; injection Hdec' as <-.
Qed.

(** ** One report accepted, then handled by the owner of its shard *)
Module DeliveryDemo.
#[local] Existing Instance Ref.orjson.
Definition entry : StreamEntry := mkStreamEntry "1-0" (encode_record Samples.report).
Definition shard : Z := Eval vm_compute in crc32 "van-7" mod 4.
Definition added (i : Z) : list StreamEntry := if decide (i = shard) then [entry] else [].
Definition accepted_cluster : Cluster := append added (new_cluster BatchSamples.db).
Definition handled : Cluster :=
  with_world shard (Consumer.round Samples.no_floats BatchSamples.dwithin BatchSamples.overlaps 100 30 60
    false ReadOk LeaseHeld ConsumerDemo.answers ConsumerDemo.consumer (shard_world accepted_cluster shard)).2 accepted_cluster.
(** A maintenance round two days later. *)
Definition kept : Cluster :=
  mkCluster (drop_archive (19677 - 30) (cl_db handled)) (cl_streams handled) (cl_letters handled) (cl_added handled)
    (cl_cutoffs handled ++ [19677 - 30]).
Definition step : Cluster → Cluster → Prop :=
  cluster_step Samples.no_floats BatchSamples.dwithin BatchSamples.overlaps 4 100 30 60.

Lemma report_submitted :
  submitted 4 IngestSamples.monitor IngestSamples.ns Executed [IngestSamples.report] (Accepted 1)
    (new_cluster BatchSamples.db) accepted_cluster.
Proof.
  exists {[ingest_stream shard := [encode_record Samples.report]]}, added.
  split; [vm_compute; reflexivity|]. split; [|split; [|reflexivity]].
  - intros i. unfold added. case_decide as Hi; [subst i; by rewrite lookup_singleton_eq|].
    rewrite lookup_singleton_ne; [done|]. intros E. apply Hi. by apply (inj ingest_stream) in E.
  - intros i. cbn. unfold added. case_decide; [by apply NoDup_singleton|constructor].
Qed.

Lemma kept_steps : rtc step accepted_cluster kept.
Proof. apply (rtc_l _ _ handled); [apply cl_round|apply rtc_once, cl_maintain]. Qed.
Lemma not_dropped : ¬ dropped kept (archive_day (to_timestamp (reported_ms Samples.report))).
Proof.
  assert (archive_day (to_timestamp (reported_ms Samples.report)) = 19675) as -> by (vm_compute; reflexivity).
  unfold dropped. change (cl_cutoffs kept) with [19677 - 30]. rewrite Exists_cons, Exists_nil. lia.
Qed.
End DeliveryDemo.

Lemma accepted_report_survives_witness :
  (cl_streams DeliveryDemo.kept DeliveryDemo.shard = mkStream [] [] ∧ cl_letters DeliveryDemo.kept DeliveryDemo.shard = []) ∧
  reflected (cl_db DeliveryDemo.kept) Samples.report ∧ archived (cl_db DeliveryDemo.kept) Samples.report.
Proof.
  assert (E : cl_streams DeliveryDemo.kept DeliveryDemo.shard = mkStream [] [] ∧
              cl_letters DeliveryDemo.kept DeliveryDemo.shard = []) by (split; vm_compute; reflexivity).
  split; [exact E|].
  destruct (@accepted_report_survives Ref.orjson Ref.orjson_roundtrip Samples.no_floats BatchSamples.dwithin
    BatchSamples.overlaps 4 100 30 60 BatchSamples.db (new_cluster BatchSamples.db) DeliveryDemo.accepted_cluster
    DeliveryDemo.kept IngestSamples.monitor IngestSamples.ns Executed [IngestSamples.report] 1 IngestSamples.report
    Samples.report (rtc_refl _ _) DeliveryDemo.report_submitted DeliveryDemo.kept_steps) as (i & e & Hi & _ & Hacc).
  - left.
  - vm_compute; reflexivity.
  - repeat split; try (vm_compute; reflexivity); vm_compute; discriminate.
  - assert (i = DeliveryDemo.shard) as -> by (vm_compute in Hi; injection Hi as <-; reflexivity).
    destruct E as [Es El]. unfold in_stream, shard_world in Hacc. cbn [stream] in Hacc. rewrite Es, El in Hacc.
    destruct Hacc as [Hs|[(dl & wall & Hdl & _)|[Hr [Ha|Hd]]]].
    + clear -Hs. cbn in Hs. by apply elem_of_nil in Hs.
    + clear -Hdl. by apply elem_of_nil in Hdl.
    + exact (conj Hr Ha).
    + exfalso. exact (DeliveryDemo.not_dropped Hd).
Defined.
